(* ===== verification/_CoqProject ===== *)
-Q . S2P
Prelude.v
JsString.v
JsDate.v
JsNumber.v
SpendLedger.v
SpendLimits.v
SpendLimitStore.v
SpendPricing.v
SpendMetering.v
SpendStore.v
SpendIngest.v
SpendAccounting.v
SpendCounters.v
SpendSweep.v
SpendCheck.v
EgressRules.v
EgressService.v
EgressSafety.v
Approvals.v
ExtAuthz.v
ApprovalDesk.v
ApprovalSafety.v
EnvGate.v
EnvGateSafety.v
PromptScheduler.v
SchedulerSteps.v
SchedulerSafety.v
SchedulerLiveness.v
HarnessLease.v
LeaseSafety.v
AcpFrames.v
AgentRequests.v
InterruptSteers.v
InterruptSafety.v
SessionList.v
ReplayTail.v
ReplayCut.v
ServedSteers.v
HarnessActivity.v
ConversationQueue.v
LeaderLease.v
LeaderSafety.v
Documents.v
TurnRecovery.v
TtlMaps.v
Contributions.v
RuntimeChannel.v
RuntimeOutbox.v
RuntimeDelivery.v
ScheduleOnce.v
ScheduleRuns.v
Invocations.v
DelegationTree.v
SubAgentOutcomes.v
TargetReap.v
InvocationRuns.v
EnvSignIn.v
