(* ===== verification/Prelude.v ===== *)
(** * DAM: verification of the platform's core logic

    DAM runs long-lived agents.  Its api-server (packages/api-server) decides,
    for every agent, what it may spend, where it may send requests, which of
    its requests wait for its owner, and who may open the Environments it
    serves.  Beside each agent a runtime (packages/agent-runtime) holds the
    harness, the process that runs the agent, and decides when a prompt becomes
    a turn, joins one or waits, when the process is taken back, and who answers
    its questions.  These decisions are what this development models and proves.
    Paths below are under packages/api-server/src/modules, and in the part on
    the runtime under packages/agent-runtime/src/modules/acp, unless they name
    another package.

    ** The parts and how they meet

    A model call goes through the egress gate ([ExtAuthz.gateRequest],
    approvals/services/ext-authz-gate.ts).  The gate resolves the agent, runs
    the spend check on the call, asks the agent's egress rules, and holds what
    no rule decides as a pending approval until the owner answers.  The gateway
    later reports the call's usage; the spend module prices it, settles it in
    the ledger once and bumps the day's counters that the next check reads.

    - Spend.  [SpendLedger]: units, ledger rows and day counters
      (spend/domain/units.ts, ledger.ts, usage.ts).  [SpendLimits]: limits,
      ceilings, blocks, stops, refusals, bindings (domain/limits.ts, refusal.ts,
      binding.ts).  [SpendLimitStore]: their tables
      (infrastructure/spend-limits.ts, spend-ceilings.ts).  [SpendPricing]:
      price rows and costs (domain/prices.ts, cost.ts).  [SpendMetering]: what a
      gateway record measures (domain/call.ts, metering.ts).
      [SpendStore]: the call hashes, in-flight set, counters and ledger of the
      database and of Redis.  [SpendIngest]: settling calls
      (services/spend-ingest.ts) and the sweep of unreported ones.
      [SpendCheck]: the check of a call, holds, and limit writes
      (services/spend-check.ts, spend-service.ts, two sagas).
      [SpendAccounting], [SpendCounters], [SpendSweep]: their theorems.
    - Egress rules.  [EgressRules]: matching and every operation of the table
      (egress-rules/domain, infrastructure/egress-rules-repository.ts).
      [EgressService]: everything that writes rules (egress-rules/services).
      [EgressSafety]: their invariants.
    - Approvals.  [Approvals]: the table and its states
      (approvals/infrastructure/approvals-repository.ts).  [ExtAuthz]: the gate.
      [ApprovalDesk]: the owner's actions, the relay of tool calls, the
      runtime's reports, the sweeper, proposals, the recorded catalog of
      options (approvals/services, approvals/infrastructure,
      api-server-api modules/approvals/format.ts).  [ApprovalSafety]: their
      theorems.
    - Environments.  [EnvGate]: addresses, cookies, access, the headers an app
      gets, endpoint readiness (environments/domain, gate/endpoint-readiness.ts).
      [EnvGateSafety]: their theorems.
      [EnvSignIn]: signing in to an Environment (services/environment-signin.ts,
      gate/front-door.ts, the reserved paths of gate/environment-gate.ts), with
      its theorems.
    - The runtime's prompts.  [PromptScheduler]: the queue, steers, settings and
      turns of each session (services/acp-runtime/prompt-scheduler.ts).
      [SchedulerSteps]: its operations as a transition system.
      [SchedulerSafety], [SchedulerLiveness]: its theorems.  [InterruptSteers]:
      steering a harness that has to be cancelled first (interrupt-steers.ts and
      the notice of services/interrupted-turn-recovery.ts).  [InterruptSafety]:
      its theorems.
      [ServedSteers]: a steering request sent again is answered with its first
      answer (served-steers.ts), with its theorems.
    - The runtime's process.  [HarnessLease]: spawning, holding callers back,
      recycling (services/acp-runtime/harness-lease.ts).  [LeaseSafety]: its
      theorems.  [HarnessActivity]: whether the harness works on its own
      (harness-activity.ts), with its theorems.
    - The runtime's frames and questions.  [AcpFrames]: JSON-RPC frames, verdicts,
      provider errors, state reports, cut tool calls (domain/).
      [AgentRequests]: the harness's questions to a person
      (pending-agent-requests.ts) and their theorems.  [ReplayTail]: where a
      replay of the newest frames starts (domain/replay-tail.ts).  [ReplayCut]:
      where a rewind, a fork or a take-back cuts a history
      (domain/rewrite-cut.ts).  Both hold their theorems.
    - The runtime's sessions.  [SessionList]: the list of sessions, its pages, and
      the cursor rule of the sidebar that reads them (domain/session-list.ts,
      agent-runtime-api modules/sessions, ui modules/sessions/lib), and their
      theorems.
    - What the runtime keeps.  [Documents]: the documents it stores, prompts not
      delivered, results of runs, pasted images (agent-runtime core/document-store.ts,
      acp/infrastructure).  [TurnRecovery]: the turns a process leaves behind and
      their recovery by the next (active-turn-store.ts,
      services/interrupted-turn-recovery.ts).
    - Runtime delivery.  [Contributions]: which contributions and events a runtime
      is sent, and their hash (runtime-delivery/domain).  [RuntimeChannel]:
      applying them in the runtime (agent-runtime modules/runtime-channel).
      [RuntimeOutbox]: the tables of what is to be told
      (runtime-delivery/infrastructure/outbox-repo.ts).  [RuntimeDelivery]: the
      two joined, with deliveries, mutations, hellos and reboots in any order
      (runtime-delivery/services).
    - Channels.  [ConversationQueue]: the messages of a conversation become turns
      (channels/services/conversation-queue.ts).
    - Schedules.  [ScheduleOnce]: one-time schedules, with every writer of their
      row and every job of their queue (schedules/services/scheduler-runner.ts,
      domain/once.ts).  [ScheduleRuns]: a fire of a recurring schedule, with what
      can fail in it, and the verdicts of prechecks (scheduler-runner.ts,
      domain/status-transitions.ts).
    - Invocations, the sub-agents a driver spawns.  [Invocations]: their table and
      its statements (invocations/infrastructure/invocations-repository.ts) and
      rules of its domain.  [InvocationRuns]: launching, ending, taking back and
      cleaning up (invocations/services, the deletion of an agent in agents/services
      and the sweep of sagas/agent-artifacts-sweeper.ts).  [TargetReap]: when a
      target that reported is taken back (services/reported-target-reap.ts).
      [DelegationTree]: the tree an owner reads (domain/delegation-tree.ts,
      services/delegations-query.ts).  [SubAgentOutcomes]: how drivers are told of
      outcomes (sub-agent-outcomes-repository.ts, services/outcome-delivery.ts,
      core/outcome-turn.ts).
    - Core.  [LeaderLease]: which replica leads (core/leader-lease.ts).
      [LeaderSafety]: its theorems.  [TtlMaps]: maps whose entries expire, and the
      limit on bot posts (core/ttl-map.ts, ttl-store.ts,
      channels/domain/bot-post-rate-limit.ts).
    - Shared.  [Prelude] (this file): results, the effect monad and its program
      logic, stable sorting, insertion-ordered maps, sums.  [JsString], [JsDate], [JsNumber]: the parts
      of the language's library the source uses.

    ** Conventions

    - Names.  A definition has the source's name where it can; a record's
      fields carry a two-letter prefix.
    - Effects.  An asynchronous function is an [IO S A]: a state transformer
      that answers [Ok] or [Throw].  Each I/O operation ([io_op]) takes the head
      of a fault schedule and may fail before its effect or after it, with the
      answer lost; an exhausted schedule is healthy.  A theorem over all worlds
      is therefore over all failures.  [io_triple] is a triple of such a
      computation, with one postcondition for an answer and one for a throw, over
      all schedules or over healthy ones only; [io_keeps] says that an invariant
      is kept, and its rules are hints.  [await]ed calls are run in order; what
      happens meanwhile is an explicit list where it matters (the events of a
      hold, the writes of [Approvals.run_ops], the reports of a call in any
      order and repeated).
    - Data.  Counts, micro-units and milliseconds are integers below 2^53,
      modelled by [Z]; the few fractional numbers are binary64 with rounding
      ([JsNumber]).  Strings are Latin-1.  A JavaScript Map, and a table under
      its primary key, is an association list in insertion order ([om_get],
      [om_set], [om_delete]); stores read by key only are [gmap]s.
    - SQL.  A query is the function of the table it computes, unique indexes and
      [ON CONFLICT] included; where SQL leaves an order open the table's order
      is taken, and no theorem depends on it.
    - Libraries, and services outside the repository's code, are parameters
      (identifiers, SHA-256, the URL parser, a token's claims, collation, who
      owns an agent).  The gate uses the rules through the class
      [ExtAuthz.EgressRuleMatcher]; [ExtAuthz.table_matcher] implements it.
    - Components of the runtime are synchronous objects.  A component is a record
      of its variables; each function is a definition from state to state; what
      it tells its owner, the harness and the clients is appended to a log in
      the state, and what it asks them is read off a record of answers given
      with each operation.  Timers are due times and fire as steps of their own,
      in any order with the operations.  Theorems quantify over all sequences of
      operations and all answers.
    - Where callers overlap (the lease, recovery, the queue of a conversation,
      deliveries), an asynchronous function is cut at each [await] whose answer
      another caller can change; what is under way is part of the state, and each
      cut is a step that names whose turn it is.  A process that dies keeps only
      what was on its disk.
    - Recursion is structural, and loops run over the lists the code runs over, so
      every function is total.  Four take a bound.  [SessionList.readPages] takes
      the number of pages it may read; one more than there are sessions is proved
      enough.  [DelegationTree.subtree] takes fuel; as much as there are rows is
      proved enough ([tree_lists_each_once]).  [InvocationRuns.deleteAgent], whose
      cascade deletes agents, takes fuel; past the number of agents more changes
      nothing ([deletion_needs_no_more]), and with it a healthy deletion returns
      ([deleted_root_leaves_nothing]).  [EnvSignIn.open], a browser led from
      address to address, takes fuel; two hops an endpoint are proved enough
      ([one_sign_in_covers_all]).

    ** What the theorems show

    - Safety of the gate: it fails closed ([ExtAuthz.gate_fails_closed]); the
      closest rule decides ([EgressRules.findMatch_most_specific],
      [path_rule_is_glob], [github_deny_any_case]); a place has one active rule
      whatever fails ([EgressSafety.one_rule_per_place]); a Connection's sync
      leaves other rules alone ([sync_spares_foreign_rules]).
    - Money: a call is counted once under repeated, reordered and failing
      reports ([SpendAccounting]), counters agree with the ledger
      ([SpendCounters]), swept calls end ([SpendSweep]), the check blocks
      exactly what is used up ([SpendCheck.checkCall_decides]), limits, stops,
      bindings and refusals agree with the block ([SpendLimits]), limits are
      stored, read and extended as asked ([SpendLimitStore]), usage is
      classified and priced upwards ([SpendMetering], [SpendPricing]).
    - Owners: only the owner decides and once, a settled approval stays settled,
      a verdict travels in its own direction, the recorded catalog keeps every
      kind of answer, proposals are bounded ([Approvals], [ApprovalSafety]).
    - Environments: no platform cookie or credential reaches an app and
      everything else does, exactly who may open one, addresses read back, a
      sign-in leads back home ([EnvGateSafety]); every session comes from a
      visitor let in at the front door, a code works once, one sign-in covers
      all endpoints and a sign-out ends them all ([EnvSignIn]).

    - Prompts: none is lost or doubled ([SchedulerSafety.prompts_conserved]), they
      reach the harness in order ([SchedulerLiveness.prompts_in_order]), wait
      only for something on its way ([no_idle_waiting]), a session runs one turn
      at a time ([turns_alternate]), queues are bounded ([queue_bounded]), a
      snapshot tells what the next turn takes ([snapshot_marks_next_batch]); an
      interrupting steer has one outcome and is retried a bounded number of times
      ([InterruptSafety]).
    - The harness process: one life and one end, no caller waits for ever, a
      forced recycle lands, none happens unowed ([LeaseSafety]).
    - Replays: a tail starts at a whole place and no earlier than it must
      ([ReplayTail]); a rewind or a fork cuts right above the message named, a
      copy takes the original's times ([ReplayCut]).
    - Steers and activity: everyone who asks about a steer gets its one answer
      ([ServedSteers]); a busy session is told so once and is not busy for ever
      ([HarnessActivity]).
    - Questions: one end each, and none waits unseen ([AgentRequests]); a verdict
      is of an option the harness offered ([AcpFrames]).
    - Sessions: each is listed once, and a reader of pages sees all of them once,
      in order ([SessionList]).

    - Delivery: what is said to be applied is what is wanted
      ([RuntimeDelivery.applied_is_current]), what is behind is retried
      ([behind_is_retried]), an undisturbed delivery lands
      ([quiet_delivery_lands]), a runtime that says hello is caught up
      ([hello_catches_up]); an event runs once and only forward
      ([RuntimeChannel.runs_go_forward]), what is settled and what waits is
      exact ([events_settle_or_wait]), the disk holds what was applied
      ([applied_state_is_on_disk]); an event's end is told once and a workspace
      mutation is given up after eight failures ([RuntimeOutbox]); the hash sees
      no order and nothing is dropped unreported ([Contributions]).
    - Crashes: a turn that kills its process is resumed a bounded number of times,
      each cut turn is found, live work is left alone ([TurnRecovery]);
      undelivered prompts make room oldest first ([Documents]).
    - Replicas and channels: a replica is leader with its lease or not at all
      ([LeaderSafety]); a conversation's messages keep their order, have one turn
      at a time and all come to an end ([ConversationQueue]); an expiring map
      forgets only what expired and bots cannot echo for ever ([TtlMaps]).

    - Schedules: a one-time schedule fires once ([ScheduleOnce.once_runs_once]) and
      waits until it has ([unfired_is_waiting]); a recurring one is always queued
      again ([ScheduleRuns.fire_queues_the_next]), its triggers do not pile up, and
      its counters count runs of verdicts.
    - Invocations: one ends once ([Invocations.invocation_ends_once]) and not after
      its deadline ([InvocationRuns.tick_ends_overdue]), its result has the shape
      asked for ([results_conform]); no target loses its row while it exists
      ([no_target_loses_its_row]) and none outlives its root
      ([deleted_root_leaves_nothing]); one that reported is taken back when its
      calls have ended ([TargetReap]); the tree lists each row once
      ([DelegationTree]); no outcome is lost ([SubAgentOutcomes.no_outcome_is_lost]).

    Where the code and its own description part, a lemma shows it on a concrete
    state: [SpendPricing.estimate_may_count_low],
    [SpendSweep.refusal_hides_reference],
    [SpendCounters.shared_row_splits_counter_from_ledger],
    [EgressRules.underscore_widens_a_rule], [EgressSafety.sync_keeps_a_stale_port],
    [ApprovalSafety.crowded_proposals],
    [SchedulerSafety.failed_start_discards_queue],
    [LeaseSafety.env_behind_config_skips_spawn_work],
    [ServedSteers.late_answer_is_forgotten],
    [ReplayTail.call_after_its_update_is_parted],
    [LeaderSafety.leads_without_lease], [TurnRecovery.full_disk_loops],
    [ConversationQueue.empty_is_not_told], [RuntimeChannel.revert_is_skipped],
    [RuntimeDelivery.old_harnesses_can_win],
    [ScheduleOnce.edited_under_way_runs_twice],
    [ScheduleOnce.early_hold_is_forgotten],
    [ScheduleRuns.lost_write_ends_the_chain], [TargetReap.sweep_outruns_the_wait].

    ** What is not modelled

    Audit and log lines, HTTP, WebSocket and Redis transport, views that only
    rename fields, the front end, the command line, the Go controller, the Rust
    runner, schemas and images.  A failed look at a held approval is taken to
    settle nothing.  Of the runtime, the object that wires its components to
    sockets, files and the process (acp-runtime.ts) is left to its parts, and so
    are bootstrap.ts and the services that only pass calls on.  Clients of Slack,
    Telegram, Kubernetes and the object stores answer what they are asked; their
    code is input and output.  Left out for their size, and not needed by what is
    modelled: the stores of agents, satellites, connections and secrets, the
    reports of spend and the booking of late calls, the wake machine and the
    members' lists of Environments, budgets and alerts, and the runtime's model
    router. *)

From stdpp Require Import base gmap strings list fin_maps sorting.
From Stdlib Require Import ZArith Lia Permutation.

#[global] Set Default Goal Selector "!".

Create HintDb dam.
Create Rewrite HintDb dam.

(** ** Small boolean/option helpers *)

(** [a ?? b]: nullish coalescing. *)
Definition nullish {A} (o : option A) (d : A) : A :=
  match o with Some a => a | None => d end.

Declare Scope js_scope.
Delimit Scope js_scope with js.
Open Scope js_scope.
Notation "a ?? b" := (nullish a b) (at level 60, right associativity) : js_scope.

(** String truthiness: the empty string is falsy. *)
Definition truthy (s : string) : bool := negb (String.eqb s "").

(** [s || null]: an empty string becomes null. *)
Definition or_null (s : string) : option string :=
  if truthy s then Some s else None.

(** Optional string equality against a plain string. *)
Definition ostr_eqb (a : option string) (b : string) : bool :=
  match a with Some a => String.eqb a b | None => false end.

(** ** Results and the effect monad

    A component that does I/O is a state transformer that may throw.  Every
    I/O operation consults the head of a fault schedule: it may fail before
    its effect, or after it (the effect happened but the answer was lost).
    A theorem about all schedules is a theorem about all failures. *)
Inductive result (A : Type) : Type :=
| Ok (a : A)
| Throw.
Arguments Ok {A} a.
Arguments Throw {A}.

Inductive fault := NoFault | FailBefore | FailAfter.

Record io (S : Type) := mk_io { io_st : S; io_faults : list fault }.
Arguments mk_io {S} io_st io_faults.
Arguments io_st {S} i.
Arguments io_faults {S} i.

Definition IO (S A : Type) : Type := io S -> io S * result A.

Definition io_ret {S A} (a : A) : IO S A := fun w => (w, Ok a).
Definition io_throw {S A} : IO S A := fun w => (w, Throw).
Definition io_bind {S A B} (m : IO S A) (k : A -> IO S B) : IO S B :=
  fun w => match m w with
           | (w', Ok a) => k a w'
           | (w', Throw) => (w', Throw)
           end.

(** [try { m } catch { h }] *)
Definition io_catch {S A} (m : IO S A) (h : IO S A) : IO S A :=
  fun w => match m w with
           | (w', Ok a) => (w', Ok a)
           | (w', Throw) => h w'
           end.

(** [.catch(() => {})], and a [catch] that only logs. *)
Definition swallow {S} (m : IO S unit) : IO S unit := io_catch m (io_ret tt).

(** One atomic I/O operation on the store. *)
Definition io_op {S A} (f : S -> S * A) : IO S A :=
  fun w => match io_faults w with
           | FailBefore :: fs => (mk_io (io_st w) fs, Throw)
           | FailAfter :: fs => (mk_io (fst (f (io_st w))) fs, Throw)
           | NoFault :: fs => let '(s, a) := f (io_st w) in (mk_io s fs, Ok a)
           | [] => let '(s, a) := f (io_st w) in (mk_io s [], Ok a)
           end.

(** A call of a port, which answers or throws. *)
Definition io_port {S A} (r : result A) : IO S A := fun w => (w, r).

(** A store update that cannot fail (an in-memory event bus). *)
Definition io_tell {S} (f : S -> S) : IO S unit :=
  fun w => (mk_io (f (io_st w)) (io_faults w), Ok tt).

(** A computation on a part of the state, as one on the whole. *)
Definition io_lift {S T A} (get : T -> S) (put : S -> T -> T) (m : IO S A) : IO T A := fun w =>
  let '(s, r) := m (mk_io (get (io_st w)) (io_faults w)) in
  (mk_io (put (io_st s) (io_st w)) (io_faults s), r).

Fixpoint io_iter {S A} (f : A -> IO S unit) (l : list A) : IO S unit :=
  match l with
  | [] => io_ret tt
  | a :: l => io_bind (f a) (fun _ => io_iter f l)
  end.

Fixpoint io_map {S A B} (f : A -> IO S B) (l : list A) : IO S (list B) :=
  match l with
  | [] => io_ret []
  | a :: l => io_bind (f a) (fun b => io_bind (io_map f l) (fun bs => io_ret (b :: bs)))
  end.

Declare Scope io_scope.
Delimit Scope io_scope with io.
Notation "'let*' x := c1 'in' c2" := (io_bind c1 (fun x => c2))
  (at level 10, x name, c1 at level 100, c2 at level 200) : io_scope.
Notation "'run*' c1 'in' c2" := (io_bind c1 (fun _ => c2))
  (at level 10, c1 at level 100, c2 at level 200) : io_scope.
Open Scope io_scope.

(** The stateful operations are run by computation; these equations drive
    the symbolic execution of a handler. *)
Lemma io_bind_ok {S A B} (m : IO S A) (k : A -> IO S B) w w' a :
  m w = (w', Ok a) -> io_bind m k w = k a w'.
Proof. unfold io_bind. by intros ->. Qed.

Lemma io_bind_throw {S A B} (m : IO S A) (k : A -> IO S B) w w' :
  m w = (w', Throw) -> io_bind m k w = (w', Throw).
Proof. unfold io_bind. by intros ->. Qed.

Lemma io_catch_ok {S A} (m h : IO S A) w w' a :
  m w = (w', Ok a) -> io_catch m h w = (w', Ok a).
Proof. unfold io_catch. by intros ->. Qed.

Lemma io_op_healthy {S A} (f : S -> S * A) s :
  io_op f (mk_io s []) = (mk_io (fst (f s)) [], Ok (snd (f s))).
Proof. unfold io_op; simpl. by destruct (f s). Qed.

(** *** A program logic

    [io_triple h P m Q E]: from a state of [P], [m] ends in [Q] of its answer, or
    throws in [E]; when [h] holds, for a healthy schedule only. *)
Definition healthy {S} (h : bool) (w : io S) : Prop := h = true -> io_faults w = [].
Definition io_triple {S A} (h : bool) (P : S -> Prop) (m : IO S A) (Q : A -> S -> Prop) (E : S -> Prop) : Prop :=
  forall w, healthy h w -> P (io_st w) ->
  match m w with
  | (w', Ok a) => healthy h w' /\ Q a (io_st w')
  | (w', Throw) => healthy h w' /\ E (io_st w')
  end.
(** An invariant, whatever fails. *)
Notation io_keeps P m := (io_triple false P m (fun _ => P) P).

Section IoTriple.
Context {S : Type}.
Implicit Types (h : bool) (P E I : S -> Prop).

Lemma triple_ret {A} h P (a : A) Q E : (forall s, P s -> Q a s) -> io_triple h P (io_ret a) Q E.
Proof. intros H w Hw HP. by split; [|apply H]. Qed.
Lemma triple_throw {A} h P (Q : A -> S -> Prop) E : (forall s, P s -> E s) -> io_triple h P io_throw Q E.
Proof. intros H w Hw HP. by split; [|apply H]. Qed.
Lemma triple_bind {A B} h P (m : IO S A) (k : A -> IO S B) R Q E :
  io_triple h P m R E -> (forall a, io_triple h (R a) (k a) Q E) -> io_triple h P (io_bind m k) Q E.
Proof.
  intros Hm Hk w Hw HP. unfold io_bind. specialize (Hm w Hw HP). destruct (m w) as [w1 [a|]]; [|done]. destruct Hm. by apply Hk.
Qed.
Lemma triple_catch {A} h P (m k : IO S A) Q E E' : io_triple h P m Q E' -> io_triple h E' k Q E -> io_triple h P (io_catch m k) Q E.
Proof.
  intros Hm Hk w Hw HP. unfold io_catch. specialize (Hm w Hw HP). destruct (m w) as [w1 [a|]]; [done|]. destruct Hm. by apply Hk.
Qed.
Lemma triple_op {A} h P (f : S -> S * A) Q E :
  (h = false -> forall s, P s -> E s /\ E (f s).1) -> (forall s, P s -> Q (f s).2 (f s).1) -> io_triple h P (io_op f) Q E.
Proof.
  intros He Hq w Hw HP. specialize (Hq _ HP). unfold io_op, healthy in *. destruct h.
  - rewrite (Hw eq_refl). by destruct (f (io_st w)).
  - specialize (He eq_refl _ HP). destruct (io_faults w) as [|[] fs]; simpl; try (by destruct He); by destruct (f (io_st w)).
Qed.
Lemma triple_conseq {A} h P P' (m : IO S A) Q Q' E E' :
  io_triple h P' m Q' E' -> (forall s, P s -> P' s) -> (forall a s, Q' a s -> Q a s) -> (forall s, E' s -> E s) -> io_triple h P m Q E.
Proof.
  intros H HP HQ HE w Hw Hs. specialize (H w Hw (HP _ Hs)). destruct (m w) as [w1 [a|]]; destruct H; auto.
Qed.
Lemma triple_port {A} h P (r : result A) : io_triple h P (io_port r) (fun a s => r = Ok a /\ P s) P.
Proof. intros w Hw HP. unfold io_port. by destruct r. Qed.
Lemma triple_pure {A} h (phi : Prop) P (m : IO S A) Q E : (phi -> io_triple h P m Q E) -> io_triple h (fun s => phi /\ P s) m Q E.
Proof. intros H w Hw [Hphi HP]. by apply H. Qed.
(** [I] of the elements done. *)
Lemma triple_iter {A} h (I : list A -> S -> Prop) (f : A -> IO S unit) l E :
  (forall pre a post, l = pre ++ a :: post -> io_triple h (I pre) (f a) (fun _ => I (pre ++ [a])) E) ->
  io_triple h (I []) (io_iter f l) (fun _ => I l) E.
Proof.
  intros H. enough (forall post pre, l = pre ++ post -> io_triple h (I pre) (io_iter f post) (fun _ => I l) E) as G by by apply (G l []).
  induction post as [|a post IH]; intros pre El; simpl.
  - apply triple_ret. intros s. by rewrite El, app_nil_r.
  - eapply triple_bind; [by apply (H pre a post)|]. intros []. apply IH. by rewrite El, <- app_assoc.
Qed.

Notation holds h P m := (io_triple h P m (fun _ => P) P).
Lemma keeps_ret {A} h P (a : A) : holds h P (io_ret a).
Proof. by apply triple_ret. Qed.
Lemma keeps_throw {A} h P : holds h P (@io_throw S A).
Proof. by apply triple_throw. Qed.
Lemma keeps_port {A} h P (r : result A) : holds h P (io_port r).
Proof. intros w Hw HP. unfold io_port. by destruct r. Qed.
Lemma keeps_bind {A B} h P (m : IO S A) (k : A -> IO S B) : holds h P m -> (forall a, holds h P (k a)) -> holds h P (io_bind m k).
Proof. apply triple_bind. Qed.
Lemma keeps_catch {A} h P (m k : IO S A) : holds h P m -> holds h P k -> holds h P (io_catch m k).
Proof. apply triple_catch. Qed.
Lemma keeps_op {A} h P (f : S -> S * A) : (forall s, P s -> P (f s).1) -> holds h P (io_op f).
Proof. intros H. apply triple_op; auto. Qed.
Lemma keeps_iter {A} h P (f : A -> IO S unit) l : (forall a, a ∈ l -> holds h P (f a)) -> holds h P (io_iter f l).
Proof. intros H. apply (triple_iter h (fun _ => P)). intros pre a post ->. apply H, elem_of_app. right. left. Qed.
Lemma keeps_swallow h P (m : IO S unit) : holds h P m -> holds h P (swallow m).
Proof. intros H. by apply keeps_catch; [|apply keeps_ret]. Qed.
End IoTriple.
Create HintDb io_keeps.
#[export] Hint Resolve keeps_ret keeps_throw keeps_port keeps_bind keeps_catch keeps_swallow : io_keeps.
(** Symbolic execution with an invariant; the leaves are hints. *)
Ltac keeps_step :=
  lazymatch goal with
  | |- io_triple _ _ (io_bind _ _) _ _ => apply keeps_bind; [|intros ?]
  | |- io_triple _ _ (io_catch _ _) _ _ => apply keeps_catch
  | |- io_triple _ _ (swallow _) _ _ => apply keeps_swallow
  | |- io_triple _ _ (io_iter _ _) _ _ => apply keeps_iter; intros ? _
  | |- io_triple _ _ (match _ with _ => _ end) _ _ => case_match
  | |- io_triple _ _ _ _ _ => solve [auto with io_keeps]
  end.
Ltac keeps := repeat keeps_step.

(** ** Comparators

    A comparator returns a number whose sign orders its arguments. *)
Class CmpOrder {A} (cmp : A -> A -> Z) : Prop := {
  cmp_antisym : forall x y, Z.sgn (cmp y x) = (- Z.sgn (cmp x y))%Z;
  cmp_trans : forall x y z, (cmp x y <= 0 -> cmp y z <= 0 -> cmp x z <= 0)%Z;
}.

(** [a || b] on numbers: the first comparison decides unless it is zero. *)
Definition cmp_or (a b : Z) : Z := if (a =? 0)%Z then b else a.

(** The order a comparator induces. *)
Definition cmp_le {A} (cmp : A -> A -> Z) (x y : A) : Prop := (cmp x y <= 0)%Z.

Section Comparators.
Local Open Scope Z_scope.
Context {A : Type}.

Lemma cmp_total (cmp : A -> A -> Z) `{!CmpOrder cmp} x y : cmp x y <= 0 \/ cmp y x <= 0.
Proof. pose proof (cmp_antisym x y). lia. Qed.

Lemma cmp_refl (cmp : A -> A -> Z) `{!CmpOrder cmp} x : cmp x x = 0.
Proof. pose proof (cmp_antisym x x). lia. Qed.

#[export] Instance cmp_key_order (key : A -> Z) : CmpOrder (fun x y => key x - key y).
Proof. split; lia. Qed.

#[export] Instance cmp_or_order (c1 c2 : A -> A -> Z) :
  CmpOrder c1 -> CmpOrder c2 -> CmpOrder (fun x y => cmp_or (c1 x y) (c2 x y)).
Proof.
  intros H1 H2. unfold cmp_or. split.
  - intros x y. pose proof (@cmp_antisym _ c1 _ x y). pose proof (@cmp_antisym _ c2 _ x y).
    destruct (c1 x y =? 0) eqn:E1; destruct (c1 y x =? 0) eqn:E2; lia.
  - intros x y z.
    pose proof (@cmp_trans _ c1 _ x y z). pose proof (@cmp_trans _ c1 _ z x y).
    pose proof (@cmp_trans _ c1 _ y z x). pose proof (@cmp_trans _ c2 _ x y z).
    pose proof (@cmp_antisym _ c1 _ x y). pose proof (@cmp_antisym _ c1 _ y z).
    pose proof (@cmp_antisym _ c1 _ x z).
    destruct (c1 x y =? 0) eqn:E1; destruct (c1 y z =? 0) eqn:E2;
      destruct (c1 x z =? 0) eqn:E3; lia.
Qed.

(** A comparator read backwards ([cmp(b, a)]). *)
Lemma cmp_flip_order (c : A -> A -> Z) : CmpOrder c -> CmpOrder (fun x y => c y x).
Proof.
  intros H. split; [intros; apply cmp_antisym|]. intros x y z ? ?.
  by apply (@cmp_trans _ c _ z y x).
Qed.

Lemma cmp_via {B} (c : B -> B -> Z) (f : A -> B) : CmpOrder c -> CmpOrder (fun x y => c (f x) (f y)).
Proof. intros H. split; [intros; apply cmp_antisym|]. intros x y z. apply cmp_trans. Qed.
End Comparators.

(** ** JavaScript [Array.prototype.sort]

    The sort is stable, so on a consistent comparator its result is fixed:
    the stable insertion sort below. *)
Section JsSort.
Context {A : Type} (cmp : A -> A -> Z).

Fixpoint js_insert (x : A) (l : list A) : list A :=
  match l with
  | [] => [x]
  | y :: l' => if (cmp x y <=? 0)%Z then x :: y :: l' else y :: js_insert x l'
  end.

Fixpoint js_sort (l : list A) : list A :=
  match l with
  | [] => []
  | x :: l' => js_insert x (js_sort l')
  end.

Lemma js_insert_perm x l : js_insert x l ≡ₚ x :: l.
Proof.
  induction l as [|y l IH]; simpl; [done|].
  case_match; [done|]. rewrite IH. apply Permutation_swap.
Qed.

Lemma js_sort_perm l : js_sort l ≡ₚ l.
Proof.
  induction l as [|x l IH]; simpl; [done|]. by rewrite js_insert_perm, IH.
Qed.

Lemma js_sort_elem x l : x ∈ js_sort l <-> x ∈ l.
Proof. by rewrite js_sort_perm. Qed.

Lemma js_sort_length l : length (js_sort l) = length l.
Proof. by rewrite js_sort_perm. Qed.

Lemma js_sort_nil l : js_sort l = [] -> l = [].
Proof.
  intros H. apply Permutation_nil. rewrite <- H. apply js_sort_perm.
Qed.

Context `{!CmpOrder cmp}.

Lemma js_insert_sorted x l :
  StronglySorted (cmp_le cmp) l -> StronglySorted (cmp_le cmp) (js_insert x l).
Proof.
  induction 1 as [|y l Hs IH Hall]; simpl; [by repeat constructor|].
  destruct (cmp x y <=? 0)%Z eqn:E.
  - apply Z.leb_le in E. constructor; [by constructor|].
    constructor; [done|]. eapply Forall_impl; [done|]. unfold cmp_le; intros; eapply cmp_trans; eauto.
  - apply Z.leb_gt in E. constructor; [done|].
    apply Forall_forall. intros z Hz. rewrite js_insert_perm in Hz.
    apply elem_of_cons in Hz as [->|Hz].
    + unfold cmp_le. destruct (cmp_total cmp x y); lia.
    + rewrite Forall_forall in Hall. auto.
Qed.

Lemma js_sort_sorted l : StronglySorted (cmp_le cmp) (js_sort l).
Proof. induction l; simpl; [constructor | by apply js_insert_sorted]. Qed.

(** The first element of a sorted array is a least one. *)
Lemma js_sort_head_least x l r :
  js_sort l = x :: r -> x ∈ l /\ forall y, y ∈ l -> cmp_le cmp x y.
Proof.
  intros H. pose proof (js_sort_sorted l) as Hs. rewrite H in Hs.
  assert (Hp : forall y, y ∈ l <-> y ∈ x :: r) by (intros; by rewrite <- H, js_sort_elem).
  split; [apply Hp; constructor|].
  intros y Hy. apply Hp, elem_of_cons in Hy as [->|Hy].
  - unfold cmp_le. destruct (cmp_total cmp x x); done.
  - apply StronglySorted_inv in Hs as [_ Hall]. rewrite Forall_forall in Hall. auto.
Qed.
End JsSort.

(** ** JavaScript [Map]: insertion-ordered association lists

    [set] on a present key keeps its position; on an absent one it appends. *)
Section OrderedMap.
Context {K V : Type} `{EqDecision K}.

Fixpoint om_get (k : K) (m : list (K * V)) : option V :=
  match m with
  | [] => None
  | (k', v) :: m' => if decide (k = k') then Some v else om_get k m'
  end.

Definition om_has (k : K) (m : list (K * V)) : bool :=
  match om_get k m with Some _ => true | None => false end.

Fixpoint om_set (k : K) (v : V) (m : list (K * V)) : list (K * V) :=
  match m with
  | [] => [(k, v)]
  | (k', v') :: m' => if decide (k = k') then (k', v) :: m' else (k', v') :: om_set k v m'
  end.

Fixpoint om_delete (k : K) (m : list (K * V)) : list (K * V) :=
  match m with
  | [] => []
  | (k', v') :: m' => if decide (k = k') then om_delete k m' else (k', v') :: om_delete k m'
  end.

Definition om_values (m : list (K * V)) : list V := map snd m.
Definition om_keys (m : list (K * V)) : list K := map fst m.

Lemma om_get_set k k' v m :
  om_get k' (om_set k v m) = if decide (k' = k) then Some v else om_get k' m.
Proof.
  induction m as [|[k0 v0] m IH]; simpl; repeat (case_decide; simplify_eq/=; try done).
Qed.

Lemma om_get_delete k k' m :
  om_get k' (om_delete k m) = if decide (k' = k) then None else om_get k' m.
Proof.
  induction m as [|[k0 v0] m IH]; simpl; repeat (case_decide; simplify_eq/=; try done).
Qed.

Lemma om_get_app k m1 m2 :
  om_get k (m1 ++ m2) = match om_get k m1 with Some v => Some v | None => om_get k m2 end.
Proof. induction m1 as [|[k0 v0] m1 IH]; simpl; [done|]. by case_decide. Qed.

Lemma om_get_Some_in k v m : om_get k m = Some v -> (k, v) ∈ m.
Proof.
  induction m as [|[k0 v0] m IH]; simpl; [done|].
  case_decide; intros; simplify_eq; [constructor | constructor; auto].
Qed.

Lemma om_get_None_keys k m : om_get k m = None <-> k ∉ om_keys m.
Proof.
  unfold om_keys. induction m as [|[k0 v0] m IH]; simpl; [set_solver|].
  case_decide; set_solver.
Qed.

Lemma om_set_keys k v m :
  om_keys (om_set k v m) =
  om_keys m ++ (match om_get k m with Some _ => [] | None => [k] end).
Proof.
  unfold om_keys. induction m as [|[k0 v0] m IH]; simpl; [done|].
  case_decide; simpl; [by rewrite app_nil_r|]. by rewrite IH.
Qed.

Lemma om_set_NoDup k v m : NoDup (om_keys m) -> NoDup (om_keys (om_set k v m)).
Proof.
  intros H. rewrite om_set_keys. destruct (om_get k m) eqn:E; [by rewrite app_nil_r|].
  apply om_get_None_keys in E. apply NoDup_app. repeat split; [done| |apply NoDup_singleton].
  set_solver.
Qed.

Lemma om_delete_keys k m : om_keys (om_delete k m) = filter (fun k' => k' <> k) (om_keys m).
Proof.
  unfold om_keys. induction m as [|[k0 v0] m IH]; simpl; [done|].
  rewrite filter_cons. case_decide as E1; case_decide as E2; simplify_eq/=; try done; congruence.
Qed.

Lemma om_delete_NoDup k m : NoDup (om_keys m) -> NoDup (om_keys (om_delete k m)).
Proof. intros. rewrite om_delete_keys. by apply NoDup_filter. Qed.

Lemma om_in_get k v m : NoDup (om_keys m) -> (k, v) ∈ m -> om_get k m = Some v.
Proof.
  unfold om_keys. induction m as [|[k0 v0] m IH]; simpl; [set_solver|].
  rewrite NoDup_cons. intros [Hn Hd] Hin. apply elem_of_cons in Hin as [Heq|Hin].
  - simplify_eq. by rewrite decide_True.
  - rewrite decide_False; [auto|]. intros ->. apply Hn.
    apply list_elem_of_fmap. by exists (k0, v).
Qed.
Lemma om_delete_in k (kv : K * V) m : kv ∈ om_delete k m <-> kv ∈ m /\ kv.1 <> k.
Proof.
  induction m as [|[k' v] m IH]; simpl; [set_solver|]. case_decide as E; set_solver.
Qed.

Lemma om_has_delete k k' m : om_has k' (om_delete k m) = if decide (k' = k) then false else om_has k' m.
Proof. unfold om_has. rewrite om_get_delete. by case_decide. Qed.

Lemma om_has_set k k' v m : om_has k' (om_set k v m) = if decide (k' = k) then true else om_has k' m.
Proof. unfold om_has. rewrite om_get_set. by case_decide. Qed.

Lemma om_delete_none k m : om_get k m = None -> om_delete k m = m.
Proof.
  induction m as [|[k' v] m IH]; simpl; [done|]. case_decide; [done|]. intros. by rewrite IH.
Qed.

(** A key's entry is counted apart from the others. *)
Lemma om_count_delete (p : K * V -> bool) k v m :
  NoDup (om_keys m) -> om_get k m = Some v ->
  length (List.filter p m)
  = ((if p (k, v) then 1 else 0) + length (List.filter p (om_delete k m)))%nat.
Proof.
  induction m as [|[k' v'] m IH]; simpl; [done|]. intros Hnd Hg.
  apply NoDup_cons in Hnd as [Hni Hnd]. case_decide as E.
  - simplify_eq. rewrite om_delete_none by (by apply om_get_None_keys).
    by destruct (p (k', v)).
  - simpl. destruct (p (k', v')); simpl; rewrite (IH Hnd Hg); destruct (p (k, v)); simpl; lia.
Qed.
End OrderedMap.

(** ** Counting the events of a log *)
Section Counting.
Context {A : Type}.
Implicit Types (p : A -> bool) (l : list A).

Definition count p l : nat := length (List.filter p l).

Lemma count_app p l1 l2 : count p (l1 ++ l2) = (count p l1 + count p l2)%nat.
Proof. unfold count. by rewrite List.filter_app, length_app. Qed.
Lemma count_cons p e l : count p (e :: l) = ((if p e then 1 else 0) + count p l)%nat.
Proof. unfold count. simpl. by destruct (p e). Qed.
Lemma count_nil p : count p [] = 0%nat.
Proof. done. Qed.
Lemma count_zero p l : Forall (fun e => p e = false) l -> count p l = 0%nat.
Proof. induction 1 as [|e l He _ IH]; [done|]. by rewrite count_cons, He, IH. Qed.

Lemma elem_filter p x l : x ∈ List.filter p l <-> x ∈ l /\ p x = true.
Proof. by rewrite !list_elem_of_In, List.filter_In. Qed.
End Counting.

(** ** Filtering *)
Lemma filter_and {A} (f g : A -> bool) l :
  List.filter (fun x => f x && g x) l = List.filter g (List.filter f l).
Proof.
  induction l as [|x l IH]; [done|]. simpl. destruct (f x) eqn:E; simpl; [|done]. by destruct (g x); rewrite IH.
Qed.

Lemma filter_perm {A} (f : A -> bool) l l' : l ≡ₚ l' -> List.filter f l ≡ₚ List.filter f l'.
Proof.
  induction 1; simpl; [done| | |by etrans].
  - destruct (f x); [by apply perm_skip|done].
  - destruct (f x), (f y); try done. apply perm_swap.
Qed.

Lemma filter_all {A} (f : A -> bool) l : Forall (fun x => f x = true) l -> List.filter f l = l.
Proof. induction 1 as [|x l Hx _ IH]; simpl; [done|]. by rewrite Hx, IH. Qed.
Lemma filter_none {A} (f : A -> bool) l : Forall (fun x => f x = false) l -> List.filter f l = [].
Proof. induction 1 as [|x l Hx _ IH]; simpl; [done|]. by rewrite Hx. Qed.

Lemma filter_NoDup {A} (f : A -> bool) (l : list A) : NoDup l -> NoDup (List.filter f l).
Proof.
  induction l as [|x l IH]; simpl; [done|]. intros [Hn Hd]%NoDup_cons. destruct (f x); [|by apply IH].
  constructor; [|by apply IH]. intros H. by apply elem_filter in H as [H _].
Qed.

Lemma filter_map_NoDup {A B} (f : A -> B) (p : A -> bool) l : NoDup (map f l) -> NoDup (map f (List.filter p l)).
Proof.
  induction l as [|x l IH]; [done|]. simpl. intros [Hni Hnd]%NoDup_cons. destruct (p x); simpl; [|by apply IH].
  constructor; [|by apply IH]. intros Hx. apply list_elem_of_fmap in Hx as (y & E & [Hy _]%elem_filter). apply Hni. rewrite E. apply list_elem_of_fmap. by exists y.
Qed.

Lemma filter_le {A} (p q : A -> bool) l : (forall x, x ∈ l -> p x = true -> q x = true) -> (length (List.filter p l) <= length (List.filter q l))%nat.
Proof.
  induction l as [|x l IH]; intros H; [done|]. simpl. assert (length (List.filter p l) <= length (List.filter q l))%nat by (apply IH; intros y Hy; apply H; by right).
  destruct (p x) eqn:E; [rewrite (H x) by (by left || done); simpl; lia|]. destruct (q x); simpl; lia.
Qed.

#[export] Hint Resolve om_set_NoDup om_delete_NoDup : dam.
#[export] Hint Rewrite @om_get_set @om_get_delete : dam.

(** [[...new Set(l)]]: the distinct elements, in order of first occurrence. *)
Section Uniq.
Context {A : Type} `{EqDecision A}.

Fixpoint js_uniq_aux (seen : list A) (l : list A) : list A :=
  match l with
  | [] => []
  | x :: l' => if decide (x ∈ seen) then js_uniq_aux seen l'
               else x :: js_uniq_aux (x :: seen) l'
  end.
Definition js_uniq (l : list A) : list A := js_uniq_aux [] l.

Lemma js_uniq_aux_elem x seen l :
  x ∈ js_uniq_aux seen l <-> x ∈ l /\ x ∉ seen.
Proof.
  revert seen. induction l as [|y l IH]; intros seen; simpl; [set_solver|].
  case_decide; rewrite ?elem_of_cons, ?IH; destruct (decide (x = y)); set_solver.
Qed.

Lemma js_uniq_elem x l : x ∈ js_uniq l <-> x ∈ l.
Proof. unfold js_uniq. rewrite js_uniq_aux_elem. set_solver. Qed.

Lemma js_uniq_aux_NoDup seen l : NoDup (js_uniq_aux seen l).
Proof.
  revert seen. induction l as [|y l IH]; intros seen; simpl; [constructor|].
  case_decide; [apply IH|]. constructor; [|apply IH].
  rewrite js_uniq_aux_elem. set_solver.
Qed.

Lemma js_uniq_NoDup l : NoDup (js_uniq l).
Proof. apply js_uniq_aux_NoDup. Qed.
End Uniq.

(** Membership test of [Array.includes] and [Set.has]. *)
Definition includes {A} `{EqDecision A} (l : list A) (x : A) : bool := bool_decide (x ∈ l).

Lemma includes_spec {A} `{EqDecision A} (l : list A) x : includes l x = true <-> x ∈ l.
Proof. apply bool_decide_eq_true. Qed.

(** ** Sums over lists of integers *)
Definition sumZ {A} (f : A -> Z) (l : list A) : Z := foldr (fun a s => f a + s)%Z 0%Z l.

Section SumZ.
Local Open Scope Z_scope.
Context {A : Type}.
Implicit Types (f g : A -> Z) (l : list A).

Lemma sumZ_cons f a l : sumZ f (a :: l) = f a + sumZ f l.
Proof. done. Qed.

Lemma sumZ_app f l1 l2 : sumZ f (l1 ++ l2) = sumZ f l1 + sumZ f l2.
Proof. unfold sumZ. induction l1; simpl; lia. Qed.

Lemma sumZ_perm f l1 l2 : l1 ≡ₚ l2 -> sumZ f l1 = sumZ f l2.
Proof. unfold sumZ. induction 1; simpl; lia. Qed.

Lemma sumZ_ext f g l : (forall a, a ∈ l -> f a = g a) -> sumZ f l = sumZ g l.
Proof.
  intros H. induction l as [|a l IH]; [done|]. rewrite !sumZ_cons, IH, H; set_solver.
Qed.

Lemma sumZ_add f g l : sumZ (fun a => f a + g a) l = sumZ f l + sumZ g l.
Proof. unfold sumZ. induction l; simpl; lia. Qed.

Lemma sumZ_nonneg f l : (forall a, a ∈ l -> 0 <= f a) -> 0 <= sumZ f l.
Proof.
  intros H. induction l as [|a l IH]; [done|]. rewrite sumZ_cons.
  assert (0 <= f a) by (apply H; set_solver). assert (0 <= sumZ f l); [|lia].
  apply IH. set_solver.
Qed.

Lemma sumZ_map {B} (f : A -> Z) (h : B -> A) (l : list B) :
  sumZ f (map h l) = sumZ (fun b => f (h b)) l.
Proof. unfold sumZ. induction l; simpl; [done|]. by rewrite IHl. Qed.

Lemma sumZ_js_sort cmp f l : sumZ f (js_sort cmp l) = sumZ f l.
Proof. apply sumZ_perm, js_sort_perm. Qed.

Lemma sumZ_filter_split (P : A -> Prop) `{!forall a, Decision (P a)} f l :
  sumZ f l = sumZ f (filter P l) + sumZ f (filter (fun a => ~ P a) l).
Proof.
  induction l as [|a l IH]; [done|]. rewrite !filter_cons, sumZ_cons.
  repeat case_decide; rewrite ?sumZ_cons; try tauto; lia.
Qed.
End SumZ.
