(* ===== verification/JsString.v ===== *)
(** * JavaScript strings

    A JavaScript string is a sequence of code units.  The model's strings are
    the sequences of code units below 256 (Latin-1), as Rocq [string]s; on
    them [toLowerCase], [trim], the regular expressions and the comparisons
    the source uses stay inside Latin-1, so the definitions below are exact.
    Strings with other characters are outside the model. *)

From stdpp Require Import base strings list.
From Stdlib Require Import ZArith Lia Ascii String.
From S2P Require Import Prelude.

Local Open Scope string_scope.

(** ** Characters *)
Definition chr_code (c : ascii) : Z := Z.of_N (N_of_ascii c).

Definition between (lo hi : Z) (c : ascii) : bool :=
  ((lo <=? chr_code c) && (chr_code c <=? hi))%Z.

Definition is_digit : ascii -> bool := between 48 57.
Definition is_lower_az : ascii -> bool := between 97 122.
Definition is_upper_az : ascii -> bool := between 65 90.

(** The Latin-1 capital letters: A-Z and U+00C0..U+00DE less the
    multiplication sign. *)
Definition is_upper (c : ascii) : bool :=
  is_upper_az c || (between 192 222 c && negb (chr_code c =? 215)%Z).

Definition lower_char (c : ascii) : ascii :=
  if is_upper c then ascii_of_N (N_of_ascii c + 32) else c.

(** White space as [String.prototype.trim] and [\s] see it, below 256. *)
Definition is_ws (c : ascii) : bool :=
  between 9 13 c || (chr_code c =? 32)%Z || (chr_code c =? 160)%Z.

(** ** Whole strings *)
Fixpoint str_map (f : ascii -> ascii) (s : string) : string :=
  match s with
  | "" => ""
  | String c s' => String (f c) (str_map f s')
  end.

Definition toLowerCase : string -> string := str_map lower_char.

Fixpoint str_forallb (f : ascii -> bool) (s : string) : bool :=
  match s with
  | "" => true
  | String c s' => f c && str_forallb f s'
  end.

Fixpoint str_existsb (f : ascii -> bool) (s : string) : bool :=
  match s with
  | "" => false
  | String c s' => f c || str_existsb f s'
  end.

Fixpoint trimStart (s : string) : string :=
  match s with
  | "" => ""
  | String c s' => if is_ws c then trimStart s' else s
  end.

Fixpoint trimEnd (s : string) : string :=
  match s with
  | "" => ""
  | String c s' =>
      match trimEnd s' with
      | "" => if is_ws c then "" else String c ""
      | t => String c t
      end
  end.

Definition trim (s : string) : string := trimEnd (trimStart s).

Definition startsWith (s pre : string) : bool := String.prefix pre s.

(** [s.slice(n)] for [n >= 0]. *)
Fixpoint str_drop (n : nat) (s : string) : string :=
  match n, s with
  | O, _ => s
  | S n', String _ s' => str_drop n' s'
  | S _, "" => ""
  end.

(** [s.slice(0, n)] for [n >= 0]. *)
Fixpoint str_take (n : nat) (s : string) : string :=
  match n, s with
  | S n', String c s' => String c (str_take n' s')
  | _, _ => ""
  end.

Definition endsWith (s suf : string) : bool :=
  (String.length suf <=? String.length s)%nat &&
  String.eqb (str_drop (String.length s - String.length suf) s) suf.

(** [s.includes(sub)] *)
Fixpoint str_includes (s sub : string) : bool :=
  String.prefix sub s ||
  match s with "" => false | String _ s' => str_includes s' sub end.

(** [/sub/i.test(s)] for a literal ASCII [sub]. *)
Definition str_includes_i (s sub : string) : bool :=
  str_includes (toLowerCase s) (toLowerCase sub).

(** [s.indexOf(c)] for a one-character [c]. *)
Fixpoint indexOf_from (i : Z) (c : ascii) (s : string) : Z :=
  match s with
  | "" => (-1)%Z
  | String d s' => if Ascii.eqb c d then i else indexOf_from (i + 1) c s'
  end.
Definition indexOf (s : string) (c : ascii) : Z := indexOf_from 0 c s.

(** [s.split(c)] for a one-character [c]. *)
Fixpoint str_split (c : ascii) (s : string) : list string :=
  match s with
  | "" => [""]
  | String d s' =>
      if Ascii.eqb c d then "" :: str_split c s'
      else match str_split c s' with
           | h :: t => String d h :: t
           | [] => [String d ""]
           end
  end.

(** [l.join(sep)] *)
Definition str_join (sep : string) (l : list string) : string := String.concat sep l.

(** [s.replaceAll(a, b)] for one-character [a], [b]. *)
Definition replace_char (a b : ascii) (s : string) : string :=
  str_map (fun c => if Ascii.eqb c a then b else c) s.

Definition slen (s : string) : Z := Z.of_nat (String.length s).

(** [a < b] on strings: by code unit. *)
Definition str_ltb (a b : string) : bool :=
  match String.compare a b with Lt => true | _ => false end.

(** ** Facts *)
Definition has_char (c : ascii) (s : string) : bool := str_existsb (Ascii.eqb c) s.

Lemma lower_char_idem c : lower_char (lower_char c) = lower_char c.
Proof.
  destruct c as [[] [] [] [] [] [] [] []]; vm_compute; reflexivity.
Qed.

Lemma toLowerCase_idem s : toLowerCase (toLowerCase s) = toLowerCase s.
Proof.
  unfold toLowerCase. induction s as [|c s IH]; simpl; [done|].
  by rewrite lower_char_idem, IH.
Qed.

Lemma str_split_nonempty c s : str_split c s <> [].
Proof.
  destruct s as [|d s]; simpl; [done|]. case_match; [done|].
  by destruct (str_split c s).
Qed.

Lemma str_join_cons sep h t :
  str_join sep (h :: t) = match t with [] => h | _ => h ++ sep ++ str_join sep t end.
Proof. by destruct t. Qed.

Lemma str_append_cons c s t : String c s ++ t = String c (s ++ t).
Proof. done. Qed.

Lemma str_append_nil_l s : "" ++ s = s.
Proof. done. Qed.

Lemma str_append_nil_r s : s ++ "" = s.
Proof. induction s as [|c s IH]; [done|]. by rewrite str_append_cons, IH. Qed.

Lemma str_append_assoc a b c : (a ++ b) ++ c = a ++ b ++ c.
Proof. induction a as [|x a IH]; [done|]. by rewrite !str_append_cons, IH. Qed.

Lemma toLowerCase_app a b : toLowerCase (a ++ b) = toLowerCase a ++ toLowerCase b.
Proof.
  unfold toLowerCase. induction a as [|c a IH]; [done|]. rewrite str_append_cons. simpl.
  by rewrite IH, str_append_cons.
Qed.

(** Splitting and joining with the same separator gives the string back. *)
Lemma str_join_split c s : str_join (String c "") (str_split c s) = s.
Proof.
  induction s as [|d s IH]; [done|]. simpl.
  destruct (Ascii.eqb c d) eqn:E.
  - apply Ascii.eqb_eq in E as ->. rewrite str_join_cons.
    destruct (str_split d s) eqn:Es; [by destruct (str_split_nonempty d s)|].
    rewrite str_append_nil_l, str_append_cons, IH. done.
  - destruct (str_split c s) as [|h t] eqn:Es; [by destruct (str_split_nonempty c s)|].
    rewrite str_join_cons. rewrite str_join_cons in IH.
    destruct t; [by rewrite IH | by rewrite (str_append_cons d), IH].
Qed.

Lemma str_split_no_sep c s : has_char c s = false -> str_split c s = [s].
Proof.
  unfold has_char. induction s as [|d s IH]; simpl; [done|].
  intros [E1 E2]%orb_false_iff. rewrite E1. by rewrite (IH E2).
Qed.

Lemma str_split_app c h s :
  has_char c h = false -> str_split c (h ++ String c s) = h :: str_split c s.
Proof.
  unfold has_char. induction h as [|d h IH]; intros H.
  - rewrite str_append_nil_l. simpl. by rewrite Ascii.eqb_refl.
  - rewrite str_append_cons. simpl in H |- *. apply orb_false_iff in H as [E1 E2]. rewrite E1. by rewrite (IH E2).
Qed.

(** Joining and splitting gives the pieces back, when none holds the separator. *)
Lemma str_split_join c l :
  l <> [] -> Forall (fun s => has_char c s = false) l ->
  str_split c (str_join (String c "") l) = l.
Proof.
  intros Hne Hall. induction Hall as [|h t Hh Ht IH]; [done|].
  rewrite str_join_cons. destruct t as [|h' t].
  - by apply str_split_no_sep.
  - rewrite str_append_cons, str_append_nil_l, str_split_app by done. by rewrite IH.
Qed.

Lemma startsWith_app p s : startsWith (p ++ s) p = true.
Proof.
  unfold startsWith. induction p as [|c p IH]; [by destruct s|].
  rewrite str_append_cons. simpl. destruct (ascii_dec c c); [done|congruence].
Qed.

Lemma startsWith_spec s p : startsWith s p = true -> exists r, s = p ++ r.
Proof.
  unfold startsWith. revert s. induction p as [|c p IH]; intros s H; [by exists s|].
  destruct s as [|d s]; simpl in H; [done|].
  destruct (ascii_dec c d) as [->|]; [|done].
  destruct (IH s H) as [r ->]. by exists r.
Qed.

Lemma str_eqb_refl s : String.eqb s s = true.
Proof. apply String.eqb_refl. Qed.

Lemma truthy_spec s : truthy s = true <-> s <> "".
Proof.
  unfold truthy. rewrite negb_true_iff, String.eqb_neq. done.
Qed.

(** ** [String.prototype.localeCompare]

    The collation is the run-time's, so it is an argument of the definitions
    that sort by it; the source relies on it being a total order on strings
    (equal only on canonically equal strings). *)
Class Locale := {
  localeCompare : string -> string -> Z;
  localeCompare_order :: CmpOrder localeCompare;
}.

(** A concrete collation, by code unit, to run the definitions with. *)
Definition code_unit_compare (a b : string) : Z :=
  match String.compare a b with Lt => -1 | Eq => 0 | Gt => 1 end.

Lemma str_compare_trans a b c r :
  String.compare a b = r -> String.compare b c = r -> String.compare a c = r.
Proof.
  revert b c. induction a as [|x a IH]; intros [|y b] [|z c]; simpl; try congruence.
  unfold Ascii.compare. intros H1 H2.
  destruct (N.compare_spec (N_of_ascii x) (N_of_ascii y));
  destruct (N.compare_spec (N_of_ascii y) (N_of_ascii z));
  destruct (N.compare_spec (N_of_ascii x) (N_of_ascii z)); subst; try congruence; try lia; eauto.
Qed.

#[refine] Definition code_unit_locale : Locale := {| localeCompare := code_unit_compare |}.
Proof.
  split.
  - intros x y. unfold code_unit_compare. rewrite (String.compare_antisym y x).
    by destruct (String.compare x y).
  - intros x y z. unfold code_unit_compare.
    destruct (String.compare x y) eqn:E1; destruct (String.compare y z) eqn:E2; try lia.
    + by rewrite (str_compare_trans x y z Eq).
    + apply String.compare_eq_iff in E1 as ->. rewrite E2. lia.
    + apply String.compare_eq_iff in E2 as ->. rewrite E1. lia.
    + by rewrite (str_compare_trans x y z Lt).
Defined.
