(* ===== verification/JsDate.v ===== *)
(** * JavaScript dates

    A [Date] is its time value: milliseconds since the epoch, an integer.  The
    calendar functions are exact for the years 0000 to 9999, where
    [toISOString] prints four-digit years. *)

From stdpp Require Import base strings list pretty.
From Stdlib Require Import ZArith Lia Ascii String.
From S2P Require Import Prelude JsString.

Local Open Scope Z_scope.

Definition DAY_MS : Z := 86400000.

(** ** The proleptic Gregorian calendar *)

(** Year, month and day of a day number (days since 1970-01-01). *)
Definition civil_of_days (z : Z) : Z * Z * Z :=
  let z' := z + 719468 in
  let era := z' / 146097 in
  let doe := z' mod 146097 in
  let yoe := (doe - doe / 1460 + doe / 36524 - doe / 146096) / 365 in
  let doy := doe - (365 * yoe + yoe / 4 - yoe / 100) in
  let mp := (5 * doy + 2) / 153 in
  let d := doy - (153 * mp + 2) / 5 + 1 in
  let m := if mp <? 10 then mp + 3 else mp - 9 in
  let y := yoe + era * 400 in
  ((if m <=? 2 then y + 1 else y), m, d).

Definition days_of_civil (y m d : Z) : Z :=
  let y' := if m <=? 2 then y - 1 else y in
  let era := y' / 400 in
  let yoe := y' mod 400 in
  let mp := if 2 <? m then m - 3 else m + 9 in
  let doy := (153 * mp + 2) / 5 + d - 1 in
  let doe := yoe * 365 + yoe / 4 - yoe / 100 + doy in
  era * 146097 + doe - 719468.

(** The year-of-era computation brackets the day of era. *)
Lemma yoe_bounds doe :
  0 <= doe < 146097 ->
  let yoe := (doe - doe / 1460 + doe / 36524 - doe / 146096) / 365 in
  0 <= yoe < 400 /\ 0 <= doe - (365 * yoe + yoe / 4 - yoe / 100) <= 365.
Proof. intros H yoe. subst yoe. Z.to_euclidean_division_equations. lia. Qed.

Lemma month_bounds doy :
  0 <= doy <= 365 ->
  let mp := (5 * doy + 2) / 153 in
  0 <= mp <= 11 /\ 0 <= doy - (153 * mp + 2) / 5 <= 30.
Proof. intros H mp. subst mp. Z.to_euclidean_division_equations. lia. Qed.

Lemma civil_of_days_range z :
  let '(y, m, d) := civil_of_days z in 1 <= m <= 12 /\ 1 <= d <= 31.
Proof.
  unfold civil_of_days.
  set (doe := (z + 719468) mod 146097).
  assert (Hdoe : 0 <= doe < 146097) by (apply Z.mod_pos_bound; lia).
  pose proof (yoe_bounds doe Hdoe) as [Hy Hdoy]. cbv zeta in Hy, Hdoy.
  set (yoe := (doe - doe / 1460 + doe / 36524 - doe / 146096) / 365) in *.
  set (doy := doe - (365 * yoe + yoe / 4 - yoe / 100)) in *.
  pose proof (month_bounds doy Hdoy) as [Hm Hd]. cbv zeta in Hm, Hd.
  destruct ((5 * doy + 2) / 153 <? 10) eqn:E; [apply Z.ltb_lt in E|apply Z.ltb_ge in E]; lia.
Qed.

(** The calendar conversion loses nothing: a day number can be read back from
    its year, month and day. *)
Lemma days_of_civil_of_days z :
  let '(y, m, d) := civil_of_days z in days_of_civil y m d = z.
Proof.
  unfold civil_of_days, days_of_civil.
  assert (Hz : z + 719468 = 146097 * ((z + 719468) / 146097) + (z + 719468) mod 146097)
    by (apply Z.div_mod; lia).
  set (era := (z + 719468) / 146097) in *.
  set (doe := (z + 719468) mod 146097) in *.
  assert (Hdoe : 0 <= doe < 146097) by (apply Z.mod_pos_bound; lia).
  pose proof (yoe_bounds doe Hdoe) as [Hy Hdoy]. cbv zeta in Hy, Hdoy.
  set (yoe := (doe - doe / 1460 + doe / 36524 - doe / 146096) / 365) in *.
  clearbody yoe era. clearbody doe.
  set (doy := doe - (365 * yoe + yoe / 4 - yoe / 100)) in *.
  pose proof (month_bounds doy Hdoy) as [Hm Hd]. cbv zeta in Hm, Hd.
  set (mp := (5 * doy + 2) / 153) in *. clearbody mp.
  assert (Hdd : doe = yoe * 365 + yoe / 4 - yoe / 100 + doy) by lia. clearbody doy.
  assert (He : (yoe + era * 400) / 400 = era) by (rewrite Z.div_add by lia; rewrite Z.div_small by lia; lia).
  assert (Hq : (yoe + era * 400) mod 400 = yoe) by (rewrite Z.mod_add by lia; apply Z.mod_small; lia).
  destruct (mp <? 10) eqn:E; [apply Z.ltb_lt in E|apply Z.ltb_ge in E].
  - destruct (mp + 3 <=? 2) eqn:E2; [apply Z.leb_le in E2; lia|].
    destruct (2 <? mp + 3) eqn:E3; [|apply Z.ltb_ge in E3; lia].
    replace (mp + 3 - 3) with mp by lia. rewrite He, Hq. lia.
  - destruct (mp - 9 <=? 2) eqn:E2; [|apply Z.leb_gt in E2; lia].
    destruct (2 <? mp - 9) eqn:E3; [apply Z.ltb_lt in E3; lia|].
    replace (mp - 9 + 9) with mp by lia.
    replace (yoe + era * 400 + 1 - 1) with (yoe + era * 400) by lia. rewrite He, Hq. lia.
Qed.

(** ** Printing *)
Local Open Scope string_scope.

Definition digit_char (n : Z) : ascii := ascii_of_N (Z.to_N (48 + n mod 10)).

Definition pad2 (n : Z) : string :=
  String (digit_char (n / 10)) (String (digit_char n) "").
Definition pad3 (n : Z) : string :=
  String (digit_char (n / 100)) (pad2 n).
Definition pad4 (n : Z) : string :=
  String (digit_char (n / 1000)) (pad3 n).

Definition day_string (z : Z) : string :=
  let '(y, m, d) := civil_of_days z in pad4 y ++ "-" ++ pad2 m ++ "-" ++ pad2 d.

(** [date.toISOString()] *)
Definition toISOString (at_ : Z) : string :=
  let ms := (at_ mod DAY_MS)%Z in
  day_string (at_ / DAY_MS) ++ "T" ++
  pad2 (ms / 3600000) ++ ":" ++ pad2 (ms / 60000 mod 60) ++ ":" ++
  pad2 (ms / 1000 mod 60) ++ "." ++ pad3 (ms mod 1000) ++ "Z".

(** The time values whose year prints with four digits. *)
Definition iso_days (z : Z) : Prop := (-719528 <= z <= 2932896)%Z.

Definition digit_val (c : ascii) : Z := chr_code c - 48.

(** [Date.parse(`${day}T00:00:00Z`)], in days, for a day [toISOString] prints. *)
Definition parse_day (s : string) : option Z :=
  match s with
  | String a (String b (String c (String d (String _ (String e (String f
      (String _ (String g (String h "")))))))))  =>
      let z := days_of_civil
        (digit_val a * 1000 + digit_val b * 100 + digit_val c * 10 + digit_val d)
        (digit_val e * 10 + digit_val f) (digit_val g * 10 + digit_val h) in
      if String.eqb (day_string z) s then Some z else None
  | _ => None
  end%Z.

Lemma digit_val_char n : digit_val (digit_char n) = (n mod 10)%Z.
Proof.
  unfold digit_val, digit_char, chr_code.
  assert (0 <= n mod 10 < 10)%Z by (apply Z.mod_pos_bound; lia).
  rewrite N_ascii_embedding by lia. lia.
Qed.

Lemma civil_year_range z :
  iso_days z -> let '(y, _, _) := civil_of_days z in (0 <= y <= 9999)%Z.
Proof.
  unfold iso_days. intros Hz. pose proof (days_of_civil_of_days z) as H.
  pose proof (civil_of_days_range z) as Hr.
  destruct (civil_of_days z) as [[y m] d]. unfold days_of_civil in H.
  set (mp := if (2 <? m)%Z then (m - 3)%Z else (m + 9)%Z) in *.
  assert (0 <= mp <= 11)%Z by (unfold mp; destruct (2 <? m)%Z eqn:E; lia).
  assert (m <= 2 -> mp = m + 9)%Z by (intros; unfold mp; destruct (2 <? m)%Z eqn:E; lia).
  assert (2 < m -> mp = m - 3)%Z by (intros; unfold mp; destruct (2 <? m)%Z eqn:E; lia).
  clearbody mp.
  destruct (m <=? 2)%Z eqn:E; [apply Z.leb_le in E|apply Z.leb_gt in E];
    Z.to_euclidean_division_equations; lia.
Qed.

Lemma pad2_digits n :
  (0 <= n < 100)%Z -> (digit_val (digit_char (n / 10)) * 10 + digit_val (digit_char n) = n)%Z.
Proof. intros. rewrite !digit_val_char. Z.to_euclidean_division_equations. lia. Qed.

Lemma pad4_digits n :
  (0 <= n < 10000)%Z ->
  (digit_val (digit_char (n / 1000)) * 1000 + digit_val (digit_char (n / 100)) * 100
   + digit_val (digit_char (n / 10)) * 10 + digit_val (digit_char n) = n)%Z.
Proof. intros. rewrite !digit_val_char. Z.to_euclidean_division_equations. lia. Qed.

(** A printed day reads back as itself. *)
Lemma parse_day_string z : iso_days z -> parse_day (day_string z) = Some z.
Proof.
  intros Hz. pose proof (days_of_civil_of_days z) as H.
  pose proof (civil_of_days_range z) as Hr. pose proof (civil_year_range z Hz) as Hy.
  assert (Hs : forall s, day_string z = s -> String.eqb (day_string z) s = true)
    by (intros s <-; apply String.eqb_refl).
  specialize (Hs _ eq_refl). unfold day_string at 2 in Hs. unfold day_string at 1.
  destruct (civil_of_days z) as [[y m] d]. destruct Hr as [Hm Hd].
  unfold pad4, pad3, pad2 in *. rewrite ?str_append_cons, ?str_append_nil_l in *.
  unfold parse_day. rewrite pad4_digits, !pad2_digits, H, Hs by lia. done.
Qed.

Lemma day_string_inj z1 z2 :
  iso_days z1 -> iso_days z2 -> day_string z1 = day_string z2 -> z1 = z2.
Proof.
  intros H1 H2 H. apply parse_day_string in H1, H2. rewrite H in H1. congruence.
Qed.

Lemma day_string_nonempty z : day_string z <> "".
Proof. unfold day_string. by destruct (civil_of_days z) as [[y m] d]. Qed.
