(* ===== verification/JsNumber.v ===== *)
(** * JavaScript numbers where they are not integers

    Counts, micro-units and times are integers below 2^53 and are modelled by
    [Z].  The few fractional numbers (a warning share, a price factor, Bob
    credits) are binary64: a finite non-negative double is [m * 2^e], and an
    operation rounds its exact result to the nearest double, ties to even.
    Overflow and subnormal doubles are outside the model. *)

From stdpp Require Import base list.
From Stdlib Require Import ZArith Lia.
From S2P Require Import Prelude.

Local Open Scope Z_scope.

Record dbl := Dbl { dm : Z; de : Z }.

(** [n / d * 2^-e] as a fraction. *)
Definition scale_num (n e : Z) : Z := if e <? 0 then n * 2 ^ (- e) else n.
Definition scale_den (d e : Z) : Z := if e <? 0 then d else d * 2 ^ e.

(** Nearest integer to [n / d], ties to even. *)
Definition rne (n d : Z) : Z :=
  let q := n / d in
  let r := n mod d in
  if (d <? 2 * r) || ((2 * r =? d) && Z.odd q) then q + 1 else q.

(** The exponent that gives [n / d] a 53-bit significand. *)
Definition exp53 (n d : Z) : Z :=
  let e := Z.log2 n - Z.log2 d - 53 in
  if 2 ^ 53 <=? scale_num n e / scale_den d e then e + 1 else e.

(** The double nearest to the fraction [n / d], for [0 <= n] and [0 < d]. *)
Definition round53 (n d : Z) : dbl :=
  if n =? 0 then Dbl 0 0
  else let e := exp53 n d in Dbl (rne (scale_num n e) (scale_den d e)) e.

(** A double as a fraction. *)
Definition dbl_num (x : dbl) : Z := scale_num (dm x) (- de x).
Definition dbl_den (x : dbl) : Z := scale_den 1 (- de x).

Definition dbl_mul (x y : dbl) : dbl :=
  round53 (dbl_num x * dbl_num y) (dbl_den x * dbl_den y).
Definition dbl_mulZ (x : dbl) (n : Z) : dbl := round53 (dbl_num x * n) (dbl_den x).
Definition dbl_of_frac (n d : Z) : dbl := round53 n d.

(** [x <= n] for an integer [n]. *)
Definition dbl_leZ (x : dbl) (n : Z) : bool := dbl_num x <=? n * dbl_den x.

(** [Math.round]: the nearest integer, ties upward. *)
Definition Math_round (x : dbl) : Z := (2 * dbl_num x + dbl_den x) / (2 * dbl_den x).

Definition Math_ceil_frac (n d : Z) : Z := - ((- n) / d).
Definition Math_ceil (x : dbl) : Z := Math_ceil_frac (dbl_num x) (dbl_den x).

(** ** [Number(x.toPrecision(12))] *)
Fixpoint log10_up (fuel : nat) (e n d : Z) : Z :=
  match fuel with
  | O => e
  | S f => if n <? 10 * d then e else log10_up f (e + 1) n (10 * d)
  end.
Fixpoint log10_down (fuel : nat) (e n d : Z) : Z :=
  match fuel with
  | O => e
  | S f => if d <=? n then e else log10_down f (e - 1) (10 * n) d
  end.

(** Decimal exponent of [n / d]; the fuel is the number of binary digits. *)
Definition log10_floor (n d : Z) : Z :=
  let fuel := Z.to_nat (Z.log2 n + Z.log2 d + 2) in
  if d <=? n then log10_up fuel 0 n d else log10_down fuel 0 n d.

(** [toPrecision(12)] picks the 12-digit decimal nearest to the exact value,
    the larger of two; [Number] rounds that decimal to a double. *)
Definition precision12 (x : dbl) : dbl :=
  let n := dbl_num x in
  let d := dbl_den x in
  if n =? 0 then Dbl 0 0
  else
    let p := log10_floor n d - 11 in
    let num := if p <? 0 then n * 10 ^ (- p) else n in
    let den := if p <? 0 then d else d * 10 ^ p in
    let digits := (2 * num + den) / (2 * den) in
    if p <? 0 then round53 digits (10 ^ (- p)) else round53 (digits * 10 ^ p) 1.

(** ** Facts *)
Lemma rne_bounds n d :
  0 < d -> 2 * Z.abs (rne n d * d - n) <= d.
Proof.
  intros Hd. unfold rne.
  pose proof (Z.div_mod n d ltac:(lia)) as Hdm.
  pose proof (Z.mod_pos_bound n d Hd) as Hr.
  set (q := n / d) in *. set (r := n mod d) in *. clearbody q r.
  destruct ((d <? 2 * r) || ((2 * r =? d) && Z.odd q)) eqn:E.
  - assert (d <= 2 * r).
    { apply orb_true_iff in E as [E|E]; [apply Z.ltb_lt in E; lia|].
      apply andb_true_iff in E as [E _]. apply Z.eqb_eq in E. lia. }
    replace ((q + 1) * d - n) with (d - r) by lia. lia.
  - assert (2 * r <= d).
    { apply orb_false_iff in E as [E _]. apply Z.ltb_ge in E. lia. }
    replace (q * d - n) with (- r) by lia. lia.
Qed.

Lemma rne_low n d q r :
  0 < d -> n = q * d + r -> 0 <= r -> 2 * r < d -> rne n d = q.
Proof.
  intros Hd -> Hr H2. unfold rne.
  assert (Hq : (q * d + r) / d = q) by (rewrite Z.div_add_l by lia; rewrite Z.div_small by lia; lia).
  assert (Hm : (q * d + r) mod d = r) by (rewrite Z.add_comm, Z.mod_add by lia; apply Z.mod_small; lia).
  rewrite Hq, Hm.
  destruct (d <? 2 * r) eqn:E1; [apply Z.ltb_lt in E1; lia|].
  destruct (2 * r =? d) eqn:E2; [apply Z.eqb_eq in E2; lia|]. done.
Qed.

Lemma scale_succ n d e :
  (scale_num n e = 2 * scale_num n (e + 1) /\ scale_den d e = scale_den d (e + 1)) \/
  (scale_num n e = scale_num n (e + 1) /\ scale_den d (e + 1) = 2 * scale_den d e).
Proof.
  unfold scale_num, scale_den.
  destruct (e <? 0) eqn:E1; [apply Z.ltb_lt in E1|apply Z.ltb_ge in E1];
    (destruct (e + 1 <? 0) eqn:E2; [apply Z.ltb_lt in E2|apply Z.ltb_ge in E2]); try lia.
  - left. split; [|done]. replace (- e) with (Z.succ (- (e + 1))) by lia.
    rewrite Z.pow_succ_r by lia. lia.
  - left. assert (e = -1) as -> by lia. simpl. split; [change (2 ^ 1) with 2|change (2 ^ 0) with 1]; lia.
  - right. split; [done|]. replace (e + 1) with (Z.succ e) by lia.
    rewrite Z.pow_succ_r by lia. lia.
Qed.

Lemma scale_den_pos d e : 0 < d -> 0 < scale_den d e.
Proof.
  intros. unfold scale_den. destruct (e <? 0) eqn:E; [done|].
  apply Z.ltb_ge in E. pose proof (Z.pow_pos_nonneg 2 e ltac:(lia) ltac:(lia)). nia.
Qed.

Lemma exp0_bounds n d :
  0 < n -> 0 < d ->
  let e := Z.log2 n - Z.log2 d - 53 in
  2 ^ 52 * scale_den d e <= scale_num n e < 2 ^ 54 * scale_den d e.
Proof.
  intros Hn Hd e.
  pose proof (Z.log2_spec n Hn) as [Hn1 Hn2]. pose proof (Z.log2_spec d Hd) as [Hd1 Hd2].
  pose proof (Z.log2_nonneg n) as Ha. pose proof (Z.log2_nonneg d) as Hb.
  set (a := Z.log2 n) in *. set (b := Z.log2 d) in *. subst e.
  rewrite Z.pow_succ_r in Hn2, Hd2 by lia.
  unfold scale_num, scale_den.
  destruct (a - b - 53 <? 0) eqn:E; [apply Z.ltb_lt in E|apply Z.ltb_ge in E].
  - assert (H : 2 ^ a * 2 ^ (- (a - b - 53)) = 2 ^ 53 * 2 ^ b)
      by (rewrite <- !Z.pow_add_r by lia; f_equal; lia).
    pose proof (Z.pow_pos_nonneg 2 (- (a - b - 53)) ltac:(lia) ltac:(lia)).
    set (p := 2 ^ (- (a - b - 53))) in *.
    change (2 ^ 54) with (2 * 2 ^ 53). change (2 ^ 53) with (2 * 2 ^ 52) in *.
    pose proof (Z.pow_pos_nonneg 2 52 ltac:(lia) ltac:(lia)).
    set (k := 2 ^ 52) in *. clearbody p k. split; nia.
  - assert (H : 2 ^ 53 * 2 ^ b * 2 ^ (a - b - 53) = 2 ^ a)
      by (rewrite <- !Z.pow_add_r by lia; f_equal; lia).
    pose proof (Z.pow_pos_nonneg 2 (a - b - 53) ltac:(lia) ltac:(lia)).
    set (p := 2 ^ (a - b - 53)) in *.
    change (2 ^ 54) with (2 * 2 ^ 53). change (2 ^ 53) with (2 * 2 ^ 52) in *.
    pose proof (Z.pow_pos_nonneg 2 52 ltac:(lia) ltac:(lia)).
    set (k := 2 ^ 52) in *. clearbody p k. split; nia.
Qed.

(** The significand of a rounded fraction has 53 bits. *)
Lemma exp53_bounds n d :
  0 < n -> 0 < d ->
  2 ^ 52 * scale_den d (exp53 n d) <= scale_num n (exp53 n d)
    < 2 ^ 53 * scale_den d (exp53 n d).
Proof.
  intros Hn Hd. pose proof (exp0_bounds n d Hn Hd) as H. cbv zeta in H.
  unfold exp53. set (e := Z.log2 n - Z.log2 d - 53) in *.
  pose proof (scale_den_pos d e Hd) as Hp.
  destruct (2 ^ 53 <=? scale_num n e / scale_den d e) eqn:E.
  - apply Z.leb_le in E.
    assert (2 ^ 53 * scale_den d e <= scale_num n e).
    { pose proof (Z.mul_div_le (scale_num n e) (scale_den d e) Hp). nia. }
    change (2 ^ 54) with (2 * 2 ^ 53) in H. change (2 ^ 53) with (2 * 2 ^ 52) in *.
    destruct (scale_succ n d e) as [[H1 H2]|[H1 H2]]; nia.
  - apply Z.leb_gt in E. split; [lia|].
    pose proof (Z.mul_succ_div_gt (scale_num n e) (scale_den d e) Hp). nia.
Qed.

(** Four fifths: the double written [0.8]. *)
Definition share_08 : dbl := Dbl 7205759403792794 (-53).

(** Up to 2^50, comparing an integer with [n * 0.8] computed in doubles is
    comparing it with four fifths of [n]: neither the representation error of
    0.8 nor the rounding of the product moves the threshold. *)
Lemma share_08_exact n s :
  0 <= n <= 2 ^ 50 -> dbl_leZ (dbl_mulZ share_08 n) s = (4 * n <=? 5 * s).
Proof.
  intros Hn. unfold dbl_mulZ.
  change (dbl_num share_08) with 7205759403792794. change (dbl_den share_08) with (2 ^ 53).
  unfold round53. destruct (7205759403792794 * n =? 0) eqn:E0.
  - apply Z.eqb_eq in E0. assert (n = 0) as -> by lia.
    unfold dbl_leZ, dbl_num, dbl_den, scale_num, scale_den; simpl.
    change (2 ^ 0) with 1. apply Bool.eq_iff_eq_true. rewrite !Z.leb_le. lia.
  - apply Z.eqb_neq in E0.
    pose proof (exp53_bounds (7205759403792794 * n) (2 ^ 53) ltac:(lia) ltac:(lia)) as Hb.
    set (e := exp53 _ _) in *. clearbody e.
    assert (He : e < 0).
    { destruct (Z_lt_le_dec e 0) as [|He]; [done|]. exfalso.
      unfold scale_num, scale_den in Hb.
      destruct (e <? 0) eqn:E; [apply Z.ltb_lt in E; lia|].
      pose proof (Z.pow_pos_nonneg 2 e ltac:(lia) ltac:(lia)). lia. }
    unfold scale_num, scale_den in Hb |- *.
    destruct (e <? 0) eqn:E; [clear E|apply Z.ltb_ge in E; lia].
    unfold dbl_leZ, dbl_num, dbl_den; simpl.
    unfold scale_num, scale_den.
    destruct (- e <? 0) eqn:E; [apply Z.ltb_lt in E; lia|clear E].
    pose proof (Z.pow_pos_nonneg 2 (- e) ltac:(lia) ltac:(lia)) as HP.
    set (P := 2 ^ (- e)) in *. clearbody P.
    assert (HE : n * P <= 2 ^ 50 * P) by nia.
    replace (7205759403792794 * n * P) with (7205759403792794 * (n * P)) in * by lia.
    pose proof (rne_bounds (7205759403792794 * (n * P)) (2 ^ 53) ltac:(lia)) as Hr.
    pose proof (rne_low (7205759403792794 * (n * P)) (2 ^ 53) (s * P)
                  (7205759403792794 * (n * P) - s * P * 2 ^ 53) ltac:(lia) ltac:(lia)) as Hl.
    set (m := rne _ _) in *. clearbody m.
    replace (s * (1 * P)) with (s * P) by lia.
    apply Bool.eq_iff_eq_true. rewrite !Z.leb_le.
    assert (H5 : 4 * n = 5 * s -> 4 * (n * P) = 5 * (s * P)) by nia.
    assert (H6 : 4 * n < 5 * s -> 4 * (n * P) + P <= 5 * (s * P)) by nia.
    assert (H7 : 5 * s < 4 * n -> 5 * (s * P) + P <= 4 * (n * P)) by nia.
    set (En := n * P) in *. set (Sp := s * P) in *. clearbody En Sp.
    destruct (Z.lt_trichotomy (4 * n) (5 * s)) as [H|[H|H]].
    + specialize (H6 H). lia.
    + specialize (H5 H). lia.
    + specialize (H7 ltac:(lia)). lia.
Qed.

(** Dividing by three in doubles and rounding up is exact below 2^53. *)
Lemma ceil_third_exact n :
  0 <= n < 2 ^ 53 -> Math_ceil (dbl_of_frac n 3) = Math_ceil_frac n 3.
Proof.
  intros Hn. unfold dbl_of_frac, round53. destruct (n =? 0) eqn:E0.
  { apply Z.eqb_eq in E0 as ->. done. }
  apply Z.eqb_neq in E0.
  pose proof (exp53_bounds n 3 ltac:(lia) ltac:(lia)) as Hb.
  set (e := exp53 _ _) in *. clearbody e.
  assert (He : e < 0).
  { destruct (Z_lt_le_dec e 0) as [|He]; [done|]. exfalso.
    unfold scale_num, scale_den in Hb.
    destruct (e <? 0) eqn:E; [apply Z.ltb_lt in E; lia|].
    pose proof (Z.pow_pos_nonneg 2 e ltac:(lia) ltac:(lia)). lia. }
  unfold scale_num, scale_den in Hb |- *.
  destruct (e <? 0) eqn:E; [clear E|apply Z.ltb_ge in E; lia].
  unfold Math_ceil, dbl_num, dbl_den; simpl. unfold scale_num, scale_den.
  destruct (- e <? 0) eqn:E; [apply Z.ltb_lt in E; lia|clear E].
  assert (HP2 : 2 <= 2 ^ (- e)).
  { replace (- e) with (Z.succ (- e - 1)) by lia. rewrite Z.pow_succ_r by lia.
    pose proof (Z.pow_pos_nonneg 2 (- e - 1) ltac:(lia) ltac:(lia)). lia. }
  set (P := 2 ^ (- e)) in *. clearbody P.
  pose proof (rne_bounds (n * P) 3 ltac:(lia)) as Hr.
  set (m := rne (n * P) 3) in *. clearbody m. unfold Math_ceil_frac. f_equal.
  rewrite Z.mul_1_l.
  pose proof (Z.div_mod (- n) 3 ltac:(lia)) as Hdm.
  pose proof (Z.mod_pos_bound (- n) 3 ltac:(lia)) as Hmb.
  set (q := - n / 3) in *. set (r := - n mod 3) in *. clearbody q r.
  symmetry. apply (Z.div_unique_pos (- m) P q (- m - P * q)); [|lia].
  assert (n = - (3 * q) - r) as -> by lia.
  assert (r = 0 \/ r = 1 \/ r = 2) as [->|[->| ->]] by lia; nia.
Qed.
