(* ===== verification/SpendLedger.v ===== *)
(** * Spend: units, ledger rows, day counters

    [spend/domain/units.ts], [spend/domain/ledger.ts], [spend/domain/usage.ts]
    of the api-server and [spend/units.ts] of api-server-api. *)

From stdpp Require Import base gmap strings list.
From Stdlib Require Import ZArith Lia.
From S2P Require Import Prelude JsString JsDate JsNumber.

Local Open Scope Z_scope.

(** ** Units *)
Inductive SpendUnit := usd | usd_list | bobcoin | free.

#[export] Instance SpendUnit_eq_dec : EqDecision SpendUnit.
Proof. solve_decision. Defined.

Definition unit_string (u : SpendUnit) : string :=
  match u with usd => "usd" | usd_list => "usd_list" | bobcoin => "bobcoin" | free => "free" end.

(** [value as SpendUnit]: the unit a stored string names; the stores hold only
    strings written from a unit. *)
Definition unit_of_string (s : string) : option SpendUnit :=
  if String.eqb s "usd" then Some usd
  else if String.eqb s "usd_list" then Some usd_list
  else if String.eqb s "bobcoin" then Some bobcoin
  else if String.eqb s "free" then Some free
  else None.

(** [UNIT_RANK.indexOf(unit)] *)
Definition UNIT_RANK : list SpendUnit := [usd; usd_list; bobcoin; free].
Definition unit_rank (u : SpendUnit) : Z :=
  match u with usd => 0 | usd_list => 1 | bobcoin => 2 | free => 3 end.

Definition PROVIDER_UNITS : list (string * SpendUnit) :=
  [("anthropic", usd); ("ibm-litellm", usd); ("openai", usd); ("bedrock", usd);
   ("anthropic-oauth", usd_list); ("bob", bobcoin); ("curve-bender", free);
   ("curve-bender-deployment", free)]%string.

Definition UNPRICED_PROVIDERS : list string := ["openai"; "bedrock"]%string.

Definition spendUnitOfProvider (templateId : string) : option SpendUnit :=
  om_get templateId PROVIDER_UNITS.

Inductive NoLimitReason := nl_free | nl_not_priced | nl_not_metered.
Inductive ConnectionLimitRule :=
| limitable (unit : SpendUnit)
| not_limitable (reason : NoLimitReason).

Definition connectionLimitRule (templateId : string) : ConnectionLimitRule :=
  match spendUnitOfProvider templateId with
  | None => not_limitable nl_not_metered
  | Some free => not_limitable nl_free
  | Some u =>
      if includes UNPRICED_PROVIDERS templateId then not_limitable nl_not_priced
      else limitable u
  end.

Definition unitOf (provider : string) : SpendUnit := spendUnitOfProvider provider ?? usd.

Section Paying.
Context `{!Locale}.

Definition provider_cmp (a b : string) : Z :=
  cmp_or (unit_rank (unitOf a) - unit_rank (unitOf b)) (localeCompare a b).

(** The provider a call counts at, and whether the choice was ambiguous. *)
Definition payingProvider (providers : list string) : string * bool :=
  let ranked := js_sort provider_cmp (js_uniq providers) in
  (nullish (head ranked) ""%string, (1 <? Z.of_nat (length ranked))).

#[export] Instance provider_cmp_order : CmpOrder provider_cmp.
Proof.
  apply (cmp_or_order (fun a b => unit_rank (unitOf a) - unit_rank (unitOf b)) localeCompare);
    [apply (cmp_key_order (fun p => unit_rank (unitOf p)))|apply _].
Qed.
End Paying.

(** ** Amounts *)
Record CallAmounts := mkAmounts {
  costMicros : Z;
  uncachedInputTokens : Z;
  outputTokens : Z;
  cacheReadTokens : Z;
  cacheWrite5mTokens : Z;
  cacheWrite1hTokens : Z;
  webSearches : Z;
  calls : Z;
  estimatedCalls : Z;
  durationMs : Z;
}.

#[export] Instance CallAmounts_eq_dec : EqDecision CallAmounts.
Proof. solve_decision. Defined.

(** The names of the amounts, in the order of [AMOUNT_FIELDS]. *)
Inductive AmountField :=
| f_costMicros | f_uncachedInputTokens | f_outputTokens | f_cacheReadTokens
| f_cacheWrite5mTokens | f_cacheWrite1hTokens | f_webSearches | f_calls
| f_estimatedCalls | f_durationMs.

#[export] Instance AmountField_eq_dec : EqDecision AmountField.
Proof. solve_decision. Defined.

Definition AMOUNT_FIELDS : list AmountField :=
  [f_costMicros; f_uncachedInputTokens; f_outputTokens; f_cacheReadTokens;
   f_cacheWrite5mTokens; f_cacheWrite1hTokens; f_webSearches; f_calls;
   f_estimatedCalls; f_durationMs].

(** [amounts[field]] *)
Definition amount (a : CallAmounts) (f : AmountField) : Z :=
  match f with
  | f_costMicros => costMicros a
  | f_uncachedInputTokens => uncachedInputTokens a
  | f_outputTokens => outputTokens a
  | f_cacheReadTokens => cacheReadTokens a
  | f_cacheWrite5mTokens => cacheWrite5mTokens a
  | f_cacheWrite1hTokens => cacheWrite1hTokens a
  | f_webSearches => webSearches a
  | f_calls => calls a
  | f_estimatedCalls => estimatedCalls a
  | f_durationMs => durationMs a
  end.

Definition mapAmounts (value : AmountField -> Z) : CallAmounts := {|
  costMicros := value f_costMicros;
  uncachedInputTokens := value f_uncachedInputTokens;
  outputTokens := value f_outputTokens;
  cacheReadTokens := value f_cacheReadTokens;
  cacheWrite5mTokens := value f_cacheWrite5mTokens;
  cacheWrite1hTokens := value f_cacheWrite1hTokens;
  webSearches := value f_webSearches;
  calls := value f_calls;
  estimatedCalls := value f_estimatedCalls;
  durationMs := value f_durationMs;
|}.

Definition amountsDelta (next previous : CallAmounts) : CallAmounts :=
  mapAmounts (fun field => amount next field - amount previous field).

Definition isZero (amounts : CallAmounts) : bool :=
  forallb (fun field => amount amounts field =? 0) AMOUNT_FIELDS.

(** Field-wise sum: what an upsert on a ledger row adds. *)
Definition amountsAdd (a b : CallAmounts) : CallAmounts :=
  mapAmounts (fun field => amount a field + amount b field).

Definition zeroAmounts : CallAmounts := mapAmounts (fun _ => 0).

Lemma amount_map v f : amount (mapAmounts v) f = v f.
Proof. by destruct f. Qed.

Lemma amounts_ext a b : (forall f, amount a f = amount b f) -> a = b.
Proof.
  intros H. destruct a, b.
  pose proof (H f_costMicros); pose proof (H f_uncachedInputTokens); pose proof (H f_outputTokens);
  pose proof (H f_cacheReadTokens); pose proof (H f_cacheWrite5mTokens);
  pose proof (H f_cacheWrite1hTokens); pose proof (H f_webSearches); pose proof (H f_calls);
  pose proof (H f_estimatedCalls); pose proof (H f_durationMs); simpl in *; congruence.
Qed.

Lemma isZero_spec a : isZero a = true <-> a = zeroAmounts.
Proof.
  unfold isZero, zeroAmounts. rewrite forallb_forall. split.
  - intros H. apply amounts_ext. intros f. rewrite amount_map.
    apply Z.eqb_eq, H. destruct f; simpl; tauto.
  - intros -> f _. rewrite amount_map. done.
Qed.

Lemma amountsDelta_zero a b : isZero (amountsDelta a b) = true <-> a = b.
Proof.
  rewrite isZero_spec. split.
  - intros H. apply amounts_ext. intros f.
    assert (Hf : amount (amountsDelta a b) f = amount zeroAmounts f) by (by rewrite H).
    unfold amountsDelta, zeroAmounts in Hf. rewrite !amount_map in Hf. lia.
  - intros ->. apply amounts_ext. intros f. unfold amountsDelta, zeroAmounts.
    rewrite !amount_map. lia.
Qed.

Lemma amountsAdd_delta a b : amountsAdd b (amountsDelta a b) = a.
Proof.
  apply amounts_ext. intros f. unfold amountsAdd, amountsDelta. rewrite !amount_map. lia.
Qed.

(** ** Rows and counters *)
Record SpendRow := mkRow {
  row_day : string;
  row_payer : string;
  row_ownerSub : string;
  row_connectionId : string;
  row_model : string;
  row_sessionId : string;
  row_callingAgentId : string;
  row_provider : string;
  row_unit : SpendUnit;
}.

#[export] Instance SpendRow_eq_dec : EqDecision SpendRow.
Proof. solve_decision. Defined.

Inductive DayCounter :=
| dc_agent (day agentId : string) (unit : SpendUnit)
| dc_owner (day ownerSub : string) (unit : SpendUnit)
| dc_connection (day agentId connectionId : string)
| dc_owner_connection (day ownerSub connectionId : string).

#[export] Instance DayCounter_eq_dec : EqDecision DayCounter.
Proof. solve_decision. Defined.

Definition UNKNOWN_CONNECTION : string := "unknown".
Definition UNKNOWN_MODEL : string := "unknown".
Definition NO_SESSION : string := "".

Definition dayCountersOf (row : SpendRow) : list DayCounter :=
  [dc_agent (row_day row) (row_payer row) (row_unit row);
   dc_owner (row_day row) (row_ownerSub row) (row_unit row);
   dc_connection (row_day row) (row_payer row) (row_connectionId row);
   dc_owner_connection (row_day row) (row_ownerSub row) (row_connectionId row)].

(** ** Days *)
Definition utcDay (at_ : Z) : string := day_string (at_ / DAY_MS).

(** [daysBefore(day, days)]; [None] when [day] is no date and the call throws. *)
Definition daysBefore (day : string) (days : Z) : option string :=
  match parse_day day with
  | Some z => Some (utcDay ((z - days) * DAY_MS))
  | None => None
  end.

(** [nextUtcMidnight(now)] of api-server-api. *)
Definition nextUtcMidnight (now : Z) : Z := now / DAY_MS * DAY_MS + DAY_MS.

(** The time values the calendar model covers. *)
Definition iso_time (at_ : Z) : Prop := iso_days (at_ / DAY_MS).

Lemma utcDay_same a b : a / DAY_MS = b / DAY_MS -> utcDay a = utcDay b.
Proof. unfold utcDay. by intros ->. Qed.

(** ** Usage *)
Record NormalizedUsage := mkUsage {
  nu_uncachedInputTokens : Z;
  nu_outputTokens : Z;
  nu_cacheReadTokens : Z;
  nu_cacheWrite5mTokens : Z;
  nu_cacheWrite1hTokens : Z;
  nu_cacheWriteUnsplitTokens : Z;
  nu_webSearches : Z;
  nu_bobCredits : option dbl;
  nu_serviceTier : option string;
  nu_speed : option string;
  nu_inferenceGeo : option string;
}.

Definition promptTokens (usage : NormalizedUsage) : Z :=
  nu_uncachedInputTokens usage + nu_cacheReadTokens usage + nu_cacheWrite5mTokens usage
  + nu_cacheWrite1hTokens usage + nu_cacheWriteUnsplitTokens usage.
