(* ===== verification/SpendLimits.v ===== *)
(** * Spend limits: readings, blocks, stops, refusals, bindings

    [spend/domain/limits.ts], [spend/domain/refusal.ts] and
    [spend/domain/binding.ts] of the api-server. *)

From stdpp Require Import base gmap strings list pretty.
From Stdlib Require Import ZArith Lia Ascii.
From S2P Require Import Prelude JsString JsDate JsNumber SpendLedger.

Local Open Scope Z_scope.

(** ** limits.ts: data *)
Inductive LimitScope :=
| ls_agent (agentId : string)
| ls_owner
| ls_connection (agentId connectionId : string)
| ls_owner_connection (connectionId : string).

Inductive LimitState := st_ok | st_warn | st_reached.

#[export] Instance LimitScope_eq_dec : EqDecision LimitScope.
Proof. solve_decision. Defined.
#[export] Instance LimitState_eq_dec : EqDecision LimitState.
Proof. solve_decision. Defined.

Record SpendLimit := mkLimit {
  lim_id : string;
  lim_ownerSub : string;
  lim_scope : LimitScope;
  lim_unit : SpendUnit;
  lim_amountMicros : Z;
  lim_extensions : Z;
}.

Inductive CeilingSource := src_default | src_operator.
Record SpendCeiling := mkCeiling { ceil_amountMicros : Z; ceil_source : CeilingSource }.

Record LimitReading := mkReading {
  rd_limit : SpendLimit;
  rd_effectiveMicros : Z;
  rd_spentMicros : Z;
  rd_leftMicros : Z;
  rd_state : LimitState;
}.

Record CeilingReading := mkCeilingReading {
  crd_ceiling : SpendCeiling;
  crd_spentMicros : Z;
  crd_state : LimitState;
}.

Record LimitedCall := mkLimitedCall {
  lc_payer : string;
  lc_ownerSub : string;
  lc_connectionId : option string;
  lc_unit : SpendUnit;
}.

Inductive SpendBlock := blk_ceiling | blk_limit.

#[export] Instance SpendBlock_eq_dec : EqDecision SpendBlock.
Proof. solve_decision. Defined.

(** ** limits.ts: operations *)
Definition WARN_SHARE : dbl := share_08.

Definition effectiveMicros (limit : SpendLimit) : Z :=
  lim_amountMicros limit * (lim_extensions limit + 1).

Definition limitState (spentMicros effective : Z) : LimitState :=
  if effective <=? spentMicros then st_reached
  else if dbl_leZ (dbl_mulZ WARN_SHARE effective) spentMicros then st_warn
  else st_ok.

Definition readLimit (limit : SpendLimit) (spentMicros : Z) : LimitReading :=
  let effective := effectiveMicros limit in
  {| rd_limit := limit;
     rd_effectiveMicros := effective;
     rd_spentMicros := spentMicros;
     rd_leftMicros := Z.max 0 (effective - spentMicros);
     rd_state := limitState spentMicros effective |}.

Definition readCeiling (ceiling : SpendCeiling) (spentMicros : Z) : CeilingReading :=
  {| crd_ceiling := ceiling;
     crd_spentMicros := spentMicros;
     crd_state := limitState spentMicros (ceil_amountMicros ceiling) |}.

Definition limitCounter (limit : SpendLimit) (day : string) : DayCounter :=
  match lim_scope limit with
  | ls_agent agentId => dc_agent day agentId (lim_unit limit)
  | ls_owner => dc_owner day (lim_ownerSub limit) (lim_unit limit)
  | ls_connection agentId connectionId => dc_connection day agentId connectionId
  | ls_owner_connection connectionId =>
      dc_owner_connection day (lim_ownerSub limit) connectionId
  end.

Definition ceilingCounter (ownerSub day : string) : DayCounter := dc_owner day ownerSub usd.

Definition countsInCeiling (unit : SpendUnit) : bool := bool_decide (unit = usd).

(** The scope test of [limitsOnCall]. *)
Definition scopeCounts (limit : SpendLimit) (call : LimitedCall) : bool :=
  match lim_scope limit with
  | ls_agent agentId => String.eqb agentId (lc_payer call)
  | ls_owner => String.eqb (lim_ownerSub limit) (lc_ownerSub call)
  | ls_connection agentId connectionId =>
      String.eqb agentId (lc_payer call) && ostr_eqb (lc_connectionId call) connectionId
  | ls_owner_connection connectionId =>
      String.eqb (lim_ownerSub limit) (lc_ownerSub call) &&
      ostr_eqb (lc_connectionId call) connectionId
  end.

Definition limitsOnCall (limits : list SpendLimit) (call : LimitedCall) : list SpendLimit :=
  if bool_decide (lc_unit call = free) then []
  else List.filter (fun limit =>
         bool_decide (lim_unit limit = lc_unit call) && scopeCounts limit call) limits.

Definition isReached (st : LimitState) : bool := bool_decide (st = st_reached).

Definition ceilingReached (ceiling : option CeilingReading) : bool :=
  match ceiling with Some c => isReached (crd_state c) | None => false end.

Definition blockOf (ceiling : option CeilingReading) (limits : list LimitReading)
  : option SpendBlock :=
  if ceilingReached ceiling then Some blk_ceiling
  else if existsb (fun reading => isReached (rd_state reading)) limits then Some blk_limit
  else None.

Inductive SpendLevel :=
| lvl_ceiling (amountMicros : Z)
| lvl_limit (limitId : string) (scope : LimitScope) (unit : SpendUnit)
            (amountMicros extensions : Z).

Record NearLevel := mkNear {
  near_level : SpendLevel;
  near_spentMicros : Z;
  near_effectiveMicros : Z;
}.

Record SpendStop := mkStop { stop_level : SpendLevel; stop_near : list NearLevel }.

(** [SCOPE_RANK] *)
Definition scope_rank (scope : LimitScope) : Z :=
  match scope with
  | ls_connection _ _ => 0
  | ls_agent _ => 1
  | ls_owner_connection _ => 2
  | ls_owner => 3
  end.

Definition levelOfLimit (reading : LimitReading) : SpendLevel :=
  let limit := rd_limit reading in
  lvl_limit (lim_id limit) (lim_scope limit) (lim_unit limit)
            (lim_amountMicros limit) (lim_extensions limit).

Definition isNear (reading : LimitReading) : bool := negb (bool_decide (rd_state reading = st_ok)).

Definition nearOf (readings : list LimitReading) : list NearLevel :=
  map (fun reading =>
         {| near_level := levelOfLimit reading;
            near_spentMicros := rd_spentMicros reading;
            near_effectiveMicros := rd_effectiveMicros reading |})
      (List.filter isNear readings).

(** Readings carry their array position, which is what [reading !== highest]
    compares: two readings with equal fields are still two readings. *)
Definition rank_desc (a b : nat * LimitReading) : Z :=
  scope_rank (lim_scope (rd_limit b.2)) - scope_rank (lim_scope (rd_limit a.2)).

Definition reachedByRank (limits : list LimitReading) : list (nat * LimitReading) :=
  js_sort rank_desc (List.filter (fun p => isReached (rd_state p.2)) (imap pair limits)).

(** The ceiling as a near level, when it is at its warning share. *)
Definition ceilingNear (ceiling : option CeilingReading) : list NearLevel :=
  match ceiling with
  | Some c =>
      if bool_decide (crd_state c = st_warn) then
        [{| near_level := lvl_ceiling (ceil_amountMicros (crd_ceiling c));
            near_spentMicros := crd_spentMicros c;
            near_effectiveMicros := ceil_amountMicros (crd_ceiling c) |}]
      else []
  | None => []
  end.

Definition stopOfLimits (ceiling : option CeilingReading) (limits : list LimitReading)
  : option SpendStop :=
  match reachedByRank limits with
  | [] => None
  | (i, highest) :: _ =>
      Some {| stop_level := levelOfLimit highest;
              stop_near := nearOf (delete i limits) ++ ceilingNear ceiling |}
  end.

Definition stopOf (ceiling : option CeilingReading) (limits : list LimitReading)
  : option SpendStop :=
  match ceiling with
  | Some c =>
      if isReached (crd_state c) then
        Some {| stop_level := lvl_ceiling (ceil_amountMicros (crd_ceiling c));
                stop_near := nearOf limits |}
      else stopOfLimits ceiling limits
  | None => stopOfLimits ceiling limits
  end.

(** ** refusal.ts *)
Inductive ApiDialect :=
| anthropic_messages | openai_chat | openai_responses | openai_embeddings
| bedrock_invoke | bedrock_converse.

#[export] Instance ApiDialect_eq_dec : EqDecision ApiDialect.
Proof. solve_decision. Defined.

Record Refusal := mkRefusal {
  ref_status : Z;
  ref_headers : list (string * string);
  ref_body : string;
}.

Definition MIN_RETRY_AFTER_SECONDS : Z := 61.
Definition PLATFORM_REFUSAL_HEADER : string := "x-platform-refusal".

Definition CEILING_TEXT : string :=
  "Spend quota exceeded for today. Ask the platform operator for a higher ceiling.".

Definition softLimitText (brandName : string) : string :=
  let brand := trim brandName in
  if truthy brand && negb (str_existsb is_digit brand)
  then ("Spend quota exceeded for today. The owner can approve more in " ++ brand ++ ".")%string
  else "Spend quota exceeded for today. The owner can approve more."%string.

Definition spendRefusalIn (text : string) : option SpendBlock :=
  if negb (str_includes_i text "spend quota exceeded") then None
  else if str_includes_i text "platform operator" then Some blk_ceiling
  else Some blk_limit.

Definition JSON_ERROR_PROVIDERS : list string := ["bob"%string].

(** [JSON.stringify] of a string. *)
Definition hex_digit (n : Z) : ascii :=
  ascii_of_N (Z.to_N (if n <? 10 then 48 + n else 87 + n)).
Definition json_char (c : ascii) : string :=
  let n := chr_code c in
  let bs : ascii := ascii_of_N 92 in
  let short (d : Z) : string := String bs (String (ascii_of_N (Z.to_N d)) "") in
  if n =? 34 then short 34 else if n =? 92 then short 92
  else if n =? 8 then short 98 else if n =? 9 then short 116
  else if n =? 10 then short 110 else if n =? 12 then short 102
  else if n =? 13 then short 114
  else if n <? 32 then
    String bs ("u00" ++ String (hex_digit (n / 16)) (String (hex_digit (n mod 16)) ""))%string
  else String c "".
Fixpoint json_chars (s : string) : string :=
  match s with
  | EmptyString => ""%string
  | String c s' => (json_char c ++ json_chars s')%string
  end.
Definition json_string (s : string) : string :=
  let q := String (ascii_of_N 34) "" in (q ++ json_chars s ++ q)%string.

(** [JSON.stringify({ error: { message: text } })] *)
Definition json_error (text : string) : string :=
  ("{" ++ json_string "error" ++ ":{" ++ json_string "message" ++ ":" ++ json_string text ++ "}}")%string.

Definition refusalBody (provider text : string) : string * string :=
  if includes JSON_ERROR_PROVIDERS provider then ("application/json"%string, json_error text)
  else ("text/plain"%string, text).

Definition retryAfterSeconds (now : Z) : Z :=
  Z.max MIN_RETRY_AFTER_SECONDS (Math_ceil_frac (nextUtcMidnight now - now) 1000).

Definition refusalFor (dialect : ApiDialect) (provider text : string) (now : Z) : Refusal :=
  let '(contentType, body) := refusalBody provider text in
  let content := [("content-type", contentType); (PLATFORM_REFUSAL_HEADER, "spend")]%string in
  match dialect with
  | anthropic_messages | bedrock_invoke | bedrock_converse =>
      {| ref_status := 429;
         ref_headers := content ++ [("x-should-retry", "false"); ("retry-after", pretty (retryAfterSeconds now))]%string;
         ref_body := body |}
  | openai_chat | openai_responses | openai_embeddings =>
      {| ref_status := 400; ref_headers := content; ref_body := body |}
  end.

(** ** binding.ts *)
Inductive BindingKind := bk_connection | bk_agent | bk_owner_connection | bk_owner | bk_ceiling.

(** [NARROWNESS.indexOf(kind)] *)
Definition narrowness (k : BindingKind) : Z :=
  match k with
  | bk_connection => 0 | bk_agent => 1 | bk_owner_connection => 2 | bk_owner => 3 | bk_ceiling => 4
  end.

Definition kind_of_scope (scope : LimitScope) : BindingKind :=
  match scope with
  | ls_agent _ => bk_agent
  | ls_owner => bk_owner
  | ls_connection _ _ => bk_connection
  | ls_owner_connection _ => bk_owner_connection
  end.

(** [SpendLimitView]: a reading as the API shows it. *)
Record SpendLimitView := mkView {
  v_id : string;
  v_scope : LimitScope;
  v_unit : SpendUnit;
  v_amountMicros : Z;
  v_extensions : Z;
  v_effectiveMicros : Z;
  v_spentMicros : Z;
  v_leftMicros : Z;
  v_state : LimitState;
}.

Record SpendCeilingView := mkCeilingView {
  cv_amountMicros : Z;
  cv_spentMicros : Z;
  cv_state : LimitState;
  cv_source : CeilingSource;
}.

(** [limitView] and [ceilingView] of spend-service.ts, given today's total. *)
Definition limitView (limit : SpendLimit) (spentToday : Z) : SpendLimitView :=
  let reading := readLimit limit spentToday in
  {| v_id := lim_id limit;
     v_scope := lim_scope limit;
     v_unit := lim_unit limit;
     v_amountMicros := lim_amountMicros limit;
     v_extensions := lim_extensions limit;
     v_effectiveMicros := rd_effectiveMicros reading;
     v_spentMicros := rd_spentMicros reading;
     v_leftMicros := rd_leftMicros reading;
     v_state := rd_state reading |}.

Definition ceilingView (ceiling : SpendCeiling) (spentToday : Z) : SpendCeilingView :=
  let reading := readCeiling ceiling spentToday in
  {| cv_amountMicros := ceil_amountMicros ceiling;
     cv_spentMicros := crd_spentMicros reading;
     cv_state := crd_state reading;
     cv_source := ceil_source ceiling |}.

Record GrantedConnection := mkGranted {
  gc_connectionId : string;
  gc_name : string;
  gc_unit : SpendUnit;
}.

Record BindingCandidate := mkCandidate {
  cand_kind : BindingKind;
  cand_limitId : option string;
  cand_leftMicros : Z;
}.

Record SpendBinding := mkBinding {
  bind_connectionId : option string;
  bind_connectionName : option string;
  bind_unit : SpendUnit;
  bind_leftMicros : Z;
  bind_stopsFirst : BindingCandidate;
  bind_others : list BindingCandidate;
}.

Definition candidateOf (limit : SpendLimitView) : BindingCandidate :=
  {| cand_kind := kind_of_scope (v_scope limit);
     cand_limitId := Some (v_id limit);
     cand_leftMicros := v_leftMicros limit |}.

Definition ceilingCandidate (ceiling : SpendCeilingView) : BindingCandidate :=
  {| cand_kind := bk_ceiling;
     cand_limitId := None;
     cand_leftMicros := Z.max 0 (cv_amountMicros ceiling - cv_spentMicros ceiling) |}.

Definition candidate_cmp (a b : BindingCandidate) : Z :=
  cmp_or (cand_leftMicros a - cand_leftMicros b)
         (narrowness (cand_kind a) - narrowness (cand_kind b)).

Definition bindingFrom (connection : option (string * string)) (unit : SpendUnit)
    (candidates : list BindingCandidate) : option SpendBinding :=
  match js_sort candidate_cmp candidates with
  | [] => None
  | stopsFirst :: others =>
      Some {| bind_connectionId := fst <$> connection;
              bind_connectionName := snd <$> connection;
              bind_unit := unit;
              bind_leftMicros := cand_leftMicros stopsFirst;
              bind_stopsFirst := stopsFirst;
              bind_others := others |}
  end.

Definition isDollarWide (agentId : string) (limit : SpendLimitView) : bool :=
  match v_scope limit with
  | ls_agent a => String.eqb a agentId
  | ls_owner => true
  | _ => false
  end.

Definition isOwnConnection (agentId connectionId : string) (unit : SpendUnit)
    (limit : SpendLimitView) : bool :=
  bool_decide (v_unit limit = unit) &&
  match v_scope limit with
  | ls_connection a c => String.eqb a agentId && String.eqb c connectionId
  | ls_owner_connection c => String.eqb c connectionId
  | _ => false
  end.

Definition dollarWide (agentId : string) (limits : list SpendLimitView)
    (ceiling : option SpendCeilingView) : list BindingCandidate :=
  map candidateOf (List.filter (isDollarWide agentId) limits) ++
  match ceiling with Some c => [ceilingCandidate c] | None => [] end.

Definition connectionCandidates (agentId : string) (limits : list SpendLimitView)
    (ceiling : option SpendCeilingView) (conn : GrantedConnection) : list BindingCandidate :=
  let own := map candidateOf
    (List.filter (isOwnConnection agentId (gc_connectionId conn) (gc_unit conn)) limits) in
  if bool_decide (gc_unit conn = usd) then own ++ dollarWide agentId limits ceiling else own.

Definition connectionBinding (agentId : string) (limits : list SpendLimitView)
    (ceiling : option SpendCeilingView) (conn : GrantedConnection) : list SpendBinding :=
  if bool_decide (gc_unit conn = free) then []
  else
    match bindingFrom (Some (gc_connectionId conn, gc_name conn)) (gc_unit conn)
            (connectionCandidates agentId limits ceiling conn) with
    | Some b => [b]
    | None => []
    end.

Definition bindingOf (agentId : string) (limits : list SpendLimitView)
    (ceiling : option SpendCeilingView) (connections : list GrantedConnection)
  : list SpendBinding :=
  let perConnection := List.flat_map (connectionBinding agentId limits ceiling) connections in
  match bindingFrom None usd (dollarWide agentId limits ceiling) with
  | Some across => perConnection ++ [across]
  | None => perConnection
  end.

(** ** Facts about readings and blocks *)

Lemma isReached_spec st : isReached st = true <-> st = st_reached.
Proof. apply bool_decide_eq_true. Qed.

Lemma limitState_reached spent eff : limitState spent eff = st_reached <-> eff <= spent.
Proof.
  unfold limitState. destruct (eff <=? spent) eqn:E.
  - apply Z.leb_le in E. tauto.
  - apply Z.leb_gt in E. destruct (dbl_leZ _ _); split; intros; try done; lia.
Qed.

Lemma readLimit_reached limit spent :
  rd_state (readLimit limit spent) = st_reached <-> rd_leftMicros (readLimit limit spent) = 0.
Proof. simpl. rewrite limitState_reached. lia. Qed.

Lemma existsb_reached limits :
  existsb (fun r => isReached (rd_state r)) limits = true <->
  exists r, r ∈ limits /\ rd_state r = st_reached.
Proof.
  rewrite existsb_exists. setoid_rewrite isReached_spec. by setoid_rewrite list_elem_of_In.
Qed.

Lemma blockOf_none ceiling limits :
  blockOf ceiling limits = None <->
  (forall c, ceiling = Some c -> crd_state c <> st_reached) /\
  (forall r, r ∈ limits -> rd_state r <> st_reached).
Proof.
  unfold blockOf, ceilingReached.
  destruct (existsb _ limits) eqn:E.
  - apply existsb_reached in E as (r & Hr & Hst).
    split; [destruct ceiling as [c|]; [destruct (isReached (crd_state c))|]; done|].
    intros [_ H]. by destruct (H r Hr).
  - assert (Hn : forall r, r ∈ limits -> rd_state r <> st_reached).
    { intros r Hr Hst. rewrite (proj2 (existsb_reached limits)) in E; [done|]. eauto. }
    destruct ceiling as [c|]; [|split; [intros; split; [done|apply Hn]|done]].
    destruct (isReached (crd_state c)) eqn:Ec.
    + apply isReached_spec in Ec. split; [done|]. intros [H _]. by destruct (H c).
    + split; [|done]. intros _. split; [|apply Hn].
      intros c' [= <-] Hc. rewrite (proj2 (isReached_spec _)) in Ec; done.
Qed.

Lemma blockOf_limit ceiling limits :
  blockOf ceiling limits = Some blk_limit -> exists r, r ∈ limits /\ rd_state r = st_reached.
Proof.
  unfold blockOf. destruct (ceilingReached ceiling); [done|].
  destruct (existsb _ limits) eqn:E; [|done]. intros _. by apply existsb_reached.
Qed.

Lemma reachedByRank_elem limits i r :
  (i, r) ∈ reachedByRank limits <-> limits !! i = Some r /\ rd_state r = st_reached.
Proof.
  unfold reachedByRank. rewrite js_sort_elem, list_elem_of_In, filter_In, <- list_elem_of_In.
  rewrite isReached_spec. simpl. rewrite elem_of_lookup_imap. naive_solver.
Qed.

#[export] Instance rank_desc_order : CmpOrder rank_desc.
Proof. unfold rank_desc. split; lia. Qed.

Lemma reachedByRank_nil limits :
  reachedByRank limits = [] <-> existsb (fun r => isReached (rd_state r)) limits = false.
Proof.
  split.
  - intros H. apply not_true_iff_false. rewrite existsb_reached. intros (r & Hr & Hst).
    apply list_elem_of_lookup in Hr as [i Hi].
    assert (Hin : (i, r) ∈ reachedByRank limits) by (by apply reachedByRank_elem).
    rewrite H in Hin. set_solver.
  - intros H. destruct (reachedByRank limits) as [|[i r] l] eqn:E; [done|].
    assert (Hin : (i, r) ∈ reachedByRank limits) by (rewrite E; constructor).
    apply reachedByRank_elem in Hin as [Hi Hst].
    rewrite (proj2 (existsb_reached limits)) in H; [done|].
    exists r. split; [by eapply list_elem_of_lookup_2|done].
Qed.

#[export] Instance candidate_cmp_order : CmpOrder candidate_cmp.
Proof.
  apply (cmp_or_order (fun a b => cand_leftMicros a - cand_leftMicros b)
           (fun a b => narrowness (cand_kind a) - narrowness (cand_kind b))); split; lia.
Qed.

Lemma candidate_cmp_left a b : candidate_cmp a b <= 0 -> cand_leftMicros a <= cand_leftMicros b.
Proof. unfold candidate_cmp, cmp_or. destruct (_ =? 0) eqn:E; lia. Qed.

(** What a binding row reports is the least left of its candidates. *)
Lemma bindingFrom_least conn unit cands b :
  bindingFrom conn unit cands = Some b ->
  bind_stopsFirst b ∈ cands /\
  bind_leftMicros b = cand_leftMicros (bind_stopsFirst b) /\
  (forall c, c ∈ cands -> bind_leftMicros b <= cand_leftMicros c).
Proof.
  unfold bindingFrom. destruct (js_sort candidate_cmp cands) as [|s o] eqn:E; [done|].
  intros [= <-]. simpl. apply js_sort_head_least in E as [Hin Hle]; [|apply _].
  split; [done|]. split; [done|]. intros c Hc. by apply candidate_cmp_left, Hle.
Qed.

Lemma bindingFrom_none conn unit cands : bindingFrom conn unit cands = None <-> cands = [].
Proof.
  unfold bindingFrom. split; [|by intros ->].
  destruct (js_sort candidate_cmp cands) eqn:E; [|done]. intros _. by eapply js_sort_nil.
Qed.

(** ** Properties *)

(** The state of a limit as the code computes it in doubles is the one its
    thresholds promise: reached from the whole amount on, warned from exactly
    four fifths of it on, for every amount up to 2^50 micro-units. *)
Theorem limitState_exact_thresholds (spent eff : Z) :
  0 <= eff <= 2 ^ 50 ->
  limitState spent eff =
    if eff <=? spent then st_reached
    else if 4 * eff <=? 5 * spent then st_warn else st_ok.
Proof. intros H. unfold limitState, WARN_SHARE. by rewrite share_08_exact. Qed.

Lemma limitState_exact_thresholds_witness :
  limitState 8000000 10000000 = st_warn /\ limitState 7999999 10000000 = st_ok.
Proof.
  split; rewrite (limitState_exact_thresholds _ 10000000) by lia; reflexivity.
Defined.

(** A stop exists exactly when work is blocked, and it names the level that
    blocks: the ceiling when the ceiling is reached, else a limit. *)
Theorem stopOf_agrees_with_block (ceiling : option CeilingReading) (limits : list LimitReading) :
  match stopOf ceiling limits with
  | None => blockOf ceiling limits = None
  | Some stop =>
      blockOf ceiling limits =
        Some (match stop_level stop with lvl_ceiling _ => blk_ceiling | lvl_limit _ _ _ _ _ => blk_limit end)
  end.
Proof.
  assert (Hl : ceilingReached ceiling = false ->
    match stopOfLimits ceiling limits with
    | None => blockOf ceiling limits = None
    | Some stop => blockOf ceiling limits =
        Some (match stop_level stop with lvl_ceiling _ => blk_ceiling | lvl_limit _ _ _ _ _ => blk_limit end)
    end).
  { intros Hc. unfold stopOfLimits, blockOf. rewrite Hc.
    destruct (reachedByRank limits) as [|[i r] l] eqn:E.
    - apply reachedByRank_nil in E. by rewrite E.
    - destruct (existsb _ limits) eqn:Ex; [done|].
      apply reachedByRank_nil in Ex. by rewrite Ex in E. }
  unfold stopOf. destruct ceiling as [c|]; [|by apply Hl].
  destruct (isReached (crd_state c)) eqn:Ec; [|by apply Hl].
  unfold blockOf. simpl. by rewrite Ec.
Qed.

(** When limits, not the ceiling, stop the work, the stop is about a reached
    limit that counts at least as much work as every other reached limit, and
    its near list is every other level at its warning share or past it. *)
Theorem stopOf_names_highest (ceiling : option CeilingReading) (limits : list LimitReading) stop :
  stopOf ceiling limits = Some stop -> ceilingReached ceiling = false ->
  exists i r,
    limits !! i = Some r /\ rd_state r = st_reached /\
    stop_level stop = levelOfLimit r /\
    (forall r', r' ∈ limits -> rd_state r' = st_reached ->
       scope_rank (lim_scope (rd_limit r')) <= scope_rank (lim_scope (rd_limit r))) /\
    stop_near stop = nearOf (delete i limits) ++ ceilingNear ceiling.
Proof.
  intros Hs Hc.
  assert (Hs' : stopOfLimits ceiling limits = Some stop).
  { unfold stopOf in Hs. destruct ceiling as [c|]; [|done]. simpl in Hc. by rewrite Hc in Hs. }
  unfold stopOfLimits in Hs'. destruct (reachedByRank limits) as [|[i r] l] eqn:E; [done|].
  simplify_eq/=. exists i, r.
  assert (Hin : (i, r) ∈ reachedByRank limits) by (rewrite E; constructor).
  apply reachedByRank_elem in Hin as [Hi Hst].
  split; [done|]. split; [done|]. split; [done|]. split; [|done].
  intros r' Hr' Hst'. apply list_elem_of_lookup in Hr' as [j Hj].
  assert (Hj' : (j, r') ∈ reachedByRank limits) by (by apply reachedByRank_elem).
  unfold reachedByRank in E, Hj'. apply js_sort_head_least in E as [_ Hle]; [|apply _].
  apply js_sort_elem in Hj'. specialize (Hle _ Hj'). unfold cmp_le, rank_desc in Hle. simpl in Hle. lia.
Qed.

Definition example_limit (id : string) (scope : LimitScope) : SpendLimit :=
  mkLimit id "owner" scope usd 10000000 0.

Lemma stopOf_names_highest_witness :
  exists i r,
    [readLimit (example_limit "a" (ls_agent "ag")) 10000000;
     readLimit (example_limit "o" ls_owner) 12000000] !! i = Some r /\
    rd_state r = st_reached /\ lim_id (rd_limit r) = "o"%string.
Proof.
  destruct (stopOf_names_highest None
    [readLimit (example_limit "a" (ls_agent "ag")) 10000000;
     readLimit (example_limit "o" ls_owner) 12000000]
    (mkStop (lvl_limit "o" ls_owner usd 10000000 0)
       (nearOf [readLimit (example_limit "a" (ls_agent "ag")) 10000000])) eq_refl eq_refl)
    as (i & r & Hi & Hst & Hlvl & _).
  exists i, r. split; [exact Hi|]. split; [exact Hst|].
  unfold levelOfLimit in Hlvl. simpl in Hlvl. congruence.
Defined.

(** A limit applies to a call exactly when the call's own ledger row bumps
    the counter that the limit reads, in the limit's unit: what is enforced
    before a call is what is counted after it. *)
Theorem limit_applies_iff_counted (limits : list SpendLimit) (row : SpendRow) (limit : SpendLimit) :
  row_unit row <> free ->
  limit ∈ limitsOnCall limits
    {| lc_payer := row_payer row; lc_ownerSub := row_ownerSub row;
       lc_connectionId := Some (row_connectionId row); lc_unit := row_unit row |} <->
  limit ∈ limits /\ lim_unit limit = row_unit row /\
  limitCounter limit (row_day row) ∈ dayCountersOf row.
Proof.
  intros Hf. unfold limitsOnCall. simpl. rewrite bool_decide_eq_false_2 by done.
  rewrite list_elem_of_In, filter_In, <- list_elem_of_In, andb_true_iff, bool_decide_eq_true.
  unfold scopeCounts, limitCounter, dayCountersOf. simpl.
  rewrite !elem_of_cons, elem_of_nil.
  destruct (lim_scope limit); simpl; rewrite ?andb_true_iff, ?String.eqb_eq;
    intuition congruence.
Qed.

Lemma limit_applies_iff_counted_witness :
  example_limit "c" (ls_connection "ag" "conn") ∈
    limitsOnCall [example_limit "c" (ls_connection "ag" "conn")]
      (mkLimitedCall "ag" "owner" (Some "conn"%string) usd).
Proof.
  apply (limit_applies_iff_counted [example_limit "c" (ls_connection "ag" "conn")]
    (mkRow "2026-01-01" "ag" "owner" "conn" "m" "" "ag" "anthropic" usd)); [discriminate|].
  vm_compute. split; [constructor|]. split; [reflexivity|]. do 2 constructor. constructor.
Defined.

(** The limits of one owner as [setLimit] stores them: agent and owner limits
    count dollars. *)
Definition dollar_scopes (limits : list SpendLimit) : Prop :=
  forall l, l ∈ limits ->
    match lim_scope l with ls_agent _ | ls_owner => lim_unit l = usd | _ => True end.

Lemma ceilingCandidate_zero c spent :
  cand_leftMicros (ceilingCandidate (ceilingView c spent)) = 0 <->
  crd_state (readCeiling c spent) = st_reached.
Proof. simpl. rewrite limitState_reached. lia. Qed.

Section BindingAgreement.
Context (agentId ownerSub : string) (limits : list SpendLimit) (spent : SpendLimit -> Z)
  (ceiling : option SpendCeiling) (ownerSpent : Z) (conn : GrantedConnection).
Context (Howner : forall l, l ∈ limits -> lim_ownerSub l = ownerSub)
  (Hdollar : dollar_scopes limits) (Hfree : gc_unit conn <> free).

Let call := mkLimitedCall agentId ownerSub (Some (gc_connectionId conn)) (gc_unit conn).
Let view (l : SpendLimit) := limitView l (spent l).
Let cview := (fun c => ceilingView c ownerSpent) <$> ceiling.

Lemma limit_on_connection_call l :
  l ∈ limits ->
  l ∈ limitsOnCall limits call <->
  (isOwnConnection agentId (gc_connectionId conn) (gc_unit conn) (view l) = true \/
   (gc_unit conn = usd /\ isDollarWide agentId (view l) = true)).
Proof.
  intros Hl. unfold limitsOnCall. simpl. rewrite bool_decide_eq_false_2 by done.
  rewrite list_elem_of_In, filter_In, <- list_elem_of_In.
  rewrite andb_true_iff, bool_decide_eq_true.
  unfold isOwnConnection, isDollarWide, scopeCounts. simpl.
  specialize (Howner l Hl). specialize (Hdollar l Hl).
  destruct (lim_scope l) eqn:E; simpl;
    rewrite ?andb_true_iff, ?bool_decide_eq_true, ?String.eqb_eq; intuition congruence.
Qed.

Lemma elem_of_viewed (P : SpendLimitView -> bool) x :
  x ∈ map candidateOf (List.filter P (map view limits)) <->
  exists l, l ∈ limits /\ P (view l) = true /\ x = candidateOf (view l).
Proof.
  rewrite list_elem_of_In, in_map_iff. setoid_rewrite filter_In. setoid_rewrite in_map_iff.
  setoid_rewrite list_elem_of_In. naive_solver.
Qed.

Lemma limitsOnCall_sub l : l ∈ limitsOnCall limits call -> l ∈ limits.
Proof.
  unfold limitsOnCall. case_match; [set_solver|].
  rewrite list_elem_of_In, filter_In, <- list_elem_of_In. tauto.
Qed.

(** The candidates of a Connection's binding row are the limits on a call of
    that Connection, and the ceiling for dollars. *)
Lemma connectionCandidates_spec x :
  x ∈ connectionCandidates agentId (map view limits) cview conn <->
  (exists l, l ∈ limitsOnCall limits call /\ x = candidateOf (view l)) \/
  (gc_unit conn = usd /\ exists c, ceiling = Some c /\
     x = ceilingCandidate (ceilingView c ownerSpent)).
Proof.
  assert (Hc : x ∈ match cview with Some c => [ceilingCandidate c] | None => [] end <->
     exists c, ceiling = Some c /\ x = ceilingCandidate (ceilingView c ownerSpent)).
  { unfold cview. destruct ceiling; simpl; rewrite ?list_elem_of_singleton; naive_solver set_solver. }
  unfold connectionCandidates, dollarWide. pose proof limit_on_connection_call as Hl.
  pose proof limitsOnCall_sub as Hs. case_bool_decide as Hu.
  - rewrite !elem_of_app, !elem_of_viewed, Hc. naive_solver.
  - rewrite elem_of_viewed. naive_solver.
Qed.

Lemma candidates_nonneg x :
  x ∈ connectionCandidates agentId (map view limits) cview conn -> 0 <= cand_leftMicros x.
Proof. rewrite connectionCandidates_spec. intros [(l & _ & ->)|(_ & c & _ & ->)]; simpl; lia. Qed.

Lemma binding_zero_iff :
  (exists b, b ∈ connectionBinding agentId (map view limits) cview conn /\ bind_leftMicros b = 0) <->
  exists x, x ∈ connectionCandidates agentId (map view limits) cview conn /\ cand_leftMicros x = 0.
Proof.
  pose proof candidates_nonneg as Hnn.
  unfold connectionBinding. rewrite bool_decide_eq_false_2 by done.
  destruct (bindingFrom _ _ _) as [b|] eqn:E.
  - apply bindingFrom_least in E as (Hin & Heq & Hle). split.
    + intros (b' & Hb & Hz). apply list_elem_of_singleton in Hb as ->. eexists. split; [done|lia].
    + intros (x & Hx & Hz). exists b. split; [by apply list_elem_of_singleton|].
      specialize (Hle x Hx). specialize (Hnn _ Hin). lia.
  - apply bindingFrom_none in E. rewrite E. split; intros (? & ? & _); set_solver.
Qed.
End BindingAgreement.

(** The limit status an owner sees agrees with enforcement: the binding row
    of a Connection shows nothing left exactly when the gate would block a call
    on that Connection, for limits stored as [setLimit] stores them. *)
Theorem binding_agrees_with_gate agentId ownerSub (limits : list SpendLimit)
    (spent : SpendLimit -> Z) (ceiling : option SpendCeiling) (ownerSpent : Z)
    (conn : GrantedConnection) :
  (forall l, l ∈ limits -> lim_ownerSub l = ownerSub) ->
  dollar_scopes limits -> gc_unit conn <> free ->
  let call := mkLimitedCall agentId ownerSub (Some (gc_connectionId conn)) (gc_unit conn) in
  let readings := map (fun l => readLimit l (spent l)) (limitsOnCall limits call) in
  let ceilingReading :=
    if countsInCeiling (gc_unit conn) then (fun c => readCeiling c ownerSpent) <$> ceiling else None in
  let views := map (fun l => limitView l (spent l)) limits in
  blockOf ceilingReading readings <> None <->
  exists b, b ∈ connectionBinding agentId views ((fun c => ceilingView c ownerSpent) <$> ceiling) conn
            /\ bind_leftMicros b = 0.
Proof.
  intros Ho Hd Hf call readings ceilingReading views.
  unfold views. rewrite (binding_zero_iff agentId ownerSub) by done.
  setoid_rewrite (connectionCandidates_spec agentId ownerSub limits spent ceiling ownerSpent conn); [|done..].
  fold call.
  assert (Hr : forall r, r ∈ readings <-> exists l, l ∈ limitsOnCall limits call /\ r = readLimit l (spent l)).
  { intros r. unfold readings. rewrite list_elem_of_In, in_map_iff.
    setoid_rewrite list_elem_of_In. naive_solver. }
  assert (Hce : forall c', ceilingReading = Some c' <->
     gc_unit conn = usd /\ exists c, ceiling = Some c /\ c' = readCeiling c ownerSpent).
  { intros c'. unfold ceilingReading, countsInCeiling. case_bool_decide; destruct ceiling; naive_solver. }
  split.
  - intros Hb. destruct (blockOf ceilingReading readings) as [bl|] eqn:E; [|done].
    destruct (ceilingReached ceilingReading) eqn:Ec.
    + destruct ceilingReading as [c'|] eqn:Ecr; [|done]. simpl in Ec. apply isReached_spec in Ec.
      destruct (proj1 (Hce c') eq_refl) as (Hu & c & -> & ->).
      exists (ceilingCandidate (ceilingView c ownerSpent)).
      split; [right; eauto|]. by apply ceilingCandidate_zero.
    + unfold blockOf in E. rewrite Ec in E. destruct (existsb _ readings) eqn:Ex; [|done].
      apply existsb_reached in Ex as (r & Hrin & Hst). apply Hr in Hrin as (l & Hl & ->).
      exists (candidateOf (limitView l (spent l))). split; [left; eauto|].
      by apply readLimit_reached in Hst.
  - intros (x & [(l & Hl & ->)|(Hu & c & -> & ->)] & Hz) Hn; apply blockOf_none in Hn as [Hn1 Hn2].
    + apply (Hn2 (readLimit l (spent l))); [apply Hr; eauto|]. by apply readLimit_reached.
    + apply (Hn1 (readCeiling c ownerSpent)); [apply Hce; eauto|]. by apply ceilingCandidate_zero.
Qed.

Lemma binding_agrees_with_gate_witness :
  exists b, b ∈ connectionBinding "ag" [limitView (example_limit "o" ls_owner) 10000000] None
                 (mkGranted "conn" "Conn" usd) /\ bind_leftMicros b = 0.
Proof.
  apply (binding_agrees_with_gate "ag" "owner" [example_limit "o" ls_owner] (fun _ => 10000000)
           None 0 (mkGranted "conn" "Conn" usd)).
  - intros l Hl. apply list_elem_of_singleton in Hl as ->. reflexivity.
  - intros l Hl. apply list_elem_of_singleton in Hl as ->. reflexivity.
  - discriminate.
  - vm_compute. discriminate.
Defined.

(** ** Refusals *)

(** A refusal never asks the caller back before the day is over, nor sooner
    than the least delay, nor later than a day. *)
Lemma retryAfter_bounds now :
  61 <= retryAfterSeconds now <= 86400 /\ nextUtcMidnight now <= now + 1000 * retryAfterSeconds now.
Proof.
  unfold retryAfterSeconds, MIN_RETRY_AFTER_SECONDS, nextUtcMidnight, Math_ceil_frac, DAY_MS.
  Z.to_euclidean_division_equations. lia.
Qed.

Lemma str_includes_cons c s sub :
  str_includes (String c s) sub = String.prefix sub (String c s) || str_includes s sub.
Proof. done. Qed.

Lemma str_includes_app_l a b sub : str_includes a sub = true -> str_includes (a ++ b)%string sub = true.
Proof.
  assert (Hp : forall p a b, String.prefix p a = true -> String.prefix p (a ++ b)%string = true).
  { induction p as [|c p IH]; intros a' b' H; [by destruct (a' ++ b')%string|].
    destruct a' as [|d a']; [done|]. rewrite str_append_cons. simpl in *.
    destruct (ascii_dec c d); [auto|done]. }
  induction a as [|c a IH]; intros H.
  - rewrite str_append_nil_l. simpl in H. rewrite orb_false_r in H. destruct sub; [|done].
    destruct b; done.
  - rewrite str_append_cons, str_includes_cons. rewrite str_includes_cons in H.
    apply orb_true_iff in H as [H|H]; apply orb_true_iff.
    + left. specialize (Hp sub (String c a) b H). by rewrite str_append_cons in Hp.
    + right. auto.
Qed.

Lemma str_includes_app_r a b sub : str_includes b sub = true -> str_includes (a ++ b)%string sub = true.
Proof.
  induction a as [|c a IH]; intros H; [done|]. rewrite str_append_cons. simpl.
  rewrite IH by done. apply orb_true_r.
Qed.

(** A final character that the needle does not hold adds no match. *)
Lemma str_includes_snoc a c sub :
  sub <> ""%string -> has_char c sub = false ->
  str_includes (a ++ String c "")%string sub = true -> str_includes a sub = true.
Proof.
  intros Hne Hc.
  assert (Hp : forall p a, has_char c p = false -> p <> ""%string ->
     String.prefix p (a ++ String c "")%string = true -> String.prefix p a = true).
  { induction p as [|d p IH]; intros a' H Hn Hpre; [done|].
    unfold has_char in H. simpl in H. apply orb_false_iff in H as [H1 H2].
    destruct a' as [|x a'].
    - rewrite str_append_nil_l in Hpre. simpl in Hpre.
      destruct (ascii_dec d c) as [->|]; [by rewrite Ascii.eqb_refl in H1|done].
    - rewrite str_append_cons in Hpre. simpl in Hpre |- *.
      destruct (ascii_dec d x); [|done]. destruct p as [|y p]; [by destruct a'|].
      apply IH; done. }
  induction a as [|x a IH]; intros H.
  - rewrite str_append_nil_l in H. simpl in H. apply orb_true_iff in H as [H|H].
    + exfalso. specialize (Hp sub ""%string Hc Hne H). by destruct sub.
    + rewrite orb_false_r in H. destruct sub; done.
  - rewrite str_append_cons, str_includes_cons in H. rewrite str_includes_cons.
    apply orb_true_iff in H as [H|H]; apply orb_true_iff.
    + left. rewrite <- str_append_cons in H. by apply Hp.
    + right. auto.
Qed.

Lemma softLimitText_not_operator brand :
  str_includes_i (trim brand) "platform operator" = false ->
  str_includes_i (softLimitText brand) "platform operator" = false.
Proof.
  intros H. unfold softLimitText. destruct (_ && _); [|reflexivity].
  apply not_true_iff_false. intros Ht. apply not_true_iff_false in H. apply H.
  unfold str_includes_i in *. rewrite !toLowerCase_app in Ht.
  set (low := toLowerCase (trim brand)) in *. clearbody low.
  apply (str_includes_snoc low "."); [done|reflexivity|].
  vm_compute toLowerCase in Ht. rewrite ?str_append_cons, ?str_append_nil_l in Ht. simpl in Ht. exact Ht.
Qed.

(** The gate recognises its own refusals: the text a harness relays from a
    refused call names the level that refused it. The brand must not itself
    read as the platform operator. *)
Theorem refusal_text_names_block brand :
  str_includes_i (trim brand) "platform operator" = false ->
  spendRefusalIn CEILING_TEXT = Some blk_ceiling /\
  spendRefusalIn (softLimitText brand) = Some blk_limit.
Proof.
  intros H. split; [reflexivity|]. unfold spendRefusalIn.
  rewrite (softLimitText_not_operator brand H).
  assert (Hs : str_includes_i (softLimitText brand) "spend quota exceeded" = true).
  { unfold softLimitText. destruct (_ && _); [|reflexivity].
    unfold str_includes_i. rewrite toLowerCase_app. apply str_includes_app_l. reflexivity. }
  by rewrite Hs.
Qed.

Lemma refusal_text_names_block_witness :
  spendRefusalIn (softLimitText "DAM") = Some blk_limit.
Proof. apply (refusal_text_names_block "DAM"). reflexivity. Defined.

(** A refusal of an Anthropic or Bedrock call tells the client not to retry
    and to come back at the next UTC midnight: at least 61 seconds away, at
    most a day, never before the spend resets; an OpenAI-shaped one is a plain
    400. The body carries the text in the provider's own error shape. *)
Theorem refusalFor_shape dialect provider text now :
  let r := refusalFor dialect provider text now in
  61 <= retryAfterSeconds now <= 86400 /\
  nextUtcMidnight now <= now + 1000 * retryAfterSeconds now /\
  om_get PLATFORM_REFUSAL_HEADER (ref_headers r) = Some "spend"%string /\
  (ref_status r = 429 /\ om_get "x-should-retry"%string (ref_headers r) = Some "false"%string /\
     om_get "retry-after"%string (ref_headers r) = Some (pretty (retryAfterSeconds now))
   \/ ref_status r = 400 /\ om_get "retry-after"%string (ref_headers r) = None) /\
  ref_body r = if bool_decide (provider = "bob"%string) then json_error text else text.
Proof.
  cbv zeta. pose proof (retryAfter_bounds now) as [H1 H2].
  unfold refusalFor, refusalBody, includes, JSON_ERROR_PROVIDERS.
  assert (Hb : bool_decide (provider ∈ ["bob"%string]) = bool_decide (provider = "bob"%string))
    by (apply bool_decide_ext, list_elem_of_singleton).
  rewrite Hb.
  split; [done|]. split; [done|].
  destruct (bool_decide (provider = "bob"%string)); destruct dialect; simpl;
    (split; [reflexivity|]; split; [|reflexivity]); auto.
Qed.
