(* ===== verification/SpendLimitStore.v ===== *)
(** * Spend limit store: the limits, extensions and ceilings tables

    [spend/infrastructure/spend-limits.ts] and [spend-ceilings.ts].  A limit
    row is kept under its unique key (owner, scope kind, agent, connection;
    nulls are equal), in insertion order; deleting a limit deletes its
    extensions (the foreign key cascades). *)

From stdpp Require Import base gmap strings list fin_maps.
From Stdlib Require Import ZArith Lia.
From S2P Require Import Prelude JsString JsDate JsNumber SpendLedger SpendLimits.

Local Open Scope Z_scope.

(** ** Data *)

(** [(ownerSub, scope, agentId, connectionId)] *)
Definition LimitKey : Type := string * string * option string * option string.

Record LimitCols := mkLimitCols {
  lr_id : string;
  lr_unit : SpendUnit;
  lr_amountMicros : Z;
}.

Record LimitTables := mkTables {
  t_limits : list (LimitKey * LimitCols);
  t_extensions : gmap (string * string) Z;
  t_ceilings : gmap string Z;
}.

Definition emptyTables : LimitTables := mkTables [] ∅ ∅.

Definition scope_kind (scope : LimitScope) : string :=
  match scope with
  | ls_agent _ => "agent"
  | ls_owner => "owner"
  | ls_connection _ _ => "connection"
  | ls_owner_connection _ => "owner-connection"
  end.

Definition scopeColumns (scope : LimitScope) : option string * option string :=
  match scope with
  | ls_agent agentId => (Some agentId, None)
  | ls_owner => (None, None)
  | ls_connection agentId connectionId => (Some agentId, Some connectionId)
  | ls_owner_connection connectionId => (None, Some connectionId)
  end.

Definition limitKey (ownerSub : string) (scope : LimitScope) : LimitKey :=
  (ownerSub, scope_kind scope, fst (scopeColumns scope), snd (scopeColumns scope)).

Definition lk_owner (k : LimitKey) : string := k.1.1.1.
Definition lk_scope (k : LimitKey) : string := k.1.1.2.
Definition lk_agent (k : LimitKey) : option string := k.1.2.
Definition lk_connection (k : LimitKey) : option string := k.2.

(** [scopeOf]; an empty id is falsy. *)
Definition scopeOf (k : LimitKey) : option LimitScope :=
  let agent := lk_agent k ≫= or_null in
  let connection := lk_connection k ≫= or_null in
  if String.eqb (lk_scope k) "owner" then Some ls_owner
  else if String.eqb (lk_scope k) "agent" then ls_agent <$> agent
  else if String.eqb (lk_scope k) "connection" then
    match agent, connection with Some a, Some c => Some (ls_connection a c) | _, _ => None end
  else if String.eqb (lk_scope k) "owner-connection" then ls_owner_connection <$> connection
  else None.

(** ** Operations *)

(** The WHERE clause of [applying]. *)
Definition limit_row_applies (agentId : option string) (ownerSub : string) (k : LimitKey) : bool :=
  String.eqb (lk_owner k) ownerSub &&
  match lk_agent k with
  | None => true
  | Some a => match agentId with None => false | Some id => String.eqb a id end
  end.

Definition limits_applying (agentId : option string) (ownerSub day : string) (t : LimitTables)
  : list SpendLimit :=
  omap (fun p =>
    let '(k, row) := p in
    match scopeOf k with
    | Some scope => Some
        {| lim_id := lr_id row;
           lim_ownerSub := lk_owner k;
           lim_scope := scope;
           lim_unit := lr_unit row;
           lim_amountMicros := lr_amountMicros row;
           lim_extensions := t_extensions t !! (lr_id row, day) ?? 0 |}
    | None => None
    end)
    (List.filter (fun p => limit_row_applies agentId ownerSub (fst p)) (t_limits t)).

(** [newId] is the [randomUUID()] drawn for an insert. *)
Definition limits_set (newId ownerSub : string) (scope : LimitScope) (unit : SpendUnit)
    (amountMicros : Z) (t : LimitTables) : LimitTables * string :=
  let key := limitKey ownerSub scope in
  let id := (lr_id <$> om_get key (t_limits t)) ?? newId in
  (mkTables (om_set key (mkLimitCols id unit amountMicros) (t_limits t)) (t_extensions t) (t_ceilings t), id).

(** The extensions of deleted limits go with them. *)
Definition drop_extensions (ids : list string) (e : gmap (string * string) Z) : gmap (string * string) Z :=
  filter (fun p => (fst (fst p)) ∉ ids) e.

Definition limits_clear (ownerSub : string) (scope : LimitScope) (t : LimitTables)
  : LimitTables * option string :=
  let key := limitKey ownerSub scope in
  match om_get key (t_limits t) with
  | None => (t, None)
  | Some row =>
      (mkTables (om_delete key (t_limits t)) (drop_extensions [lr_id row] (t_extensions t)) (t_ceilings t),
       Some (lr_id row))
  end.

(** Inserts only for a limit that exists, and keeps the higher count. *)
Definition limits_extend (limitId day : string) (extensions : Z) (t : LimitTables) : LimitTables :=
  if existsb (fun p => String.eqb (lr_id (snd p)) limitId) (t_limits t) then
    let count := match t_extensions t !! (limitId, day) with
                 | Some old => Z.max old extensions
                 | None => extensions
                 end in
    mkTables (t_limits t) (<[(limitId, day) := count]> (t_extensions t)) (t_ceilings t)
  else t.

(** Delete the limits whose key passes a test; answer their ids. *)
Definition limits_deleteWhere (test : LimitKey -> bool) (t : LimitTables) : LimitTables * list string :=
  let gone := map (fun p => lr_id (snd p)) (List.filter (fun p => test (fst p)) (t_limits t)) in
  (mkTables (List.filter (fun p => negb (test (fst p))) (t_limits t))
     (drop_extensions gone (t_extensions t)) (t_ceilings t), gone).

Definition limits_deleteForAgent (agentId : string) (t : LimitTables) : LimitTables :=
  fst (limits_deleteWhere (fun k => ostr_eqb (lk_agent k) agentId) t).

Definition limits_deleteForConnection (connectionId : string) (t : LimitTables)
  : LimitTables * list string :=
  limits_deleteWhere (fun k => ostr_eqb (lk_connection k) connectionId) t.

Definition limits_listAgentIds (t : LimitTables) : list string :=
  omap (fun o => o ≫= or_null) (js_uniq (map (fun p => lk_agent (fst p)) (t_limits t))).

(** ** Ceilings *)
Definition ceilings_forOwner (defaultMicros : option Z) (ownerSub : string) (t : LimitTables)
  : option SpendCeiling :=
  match t_ceilings t !! ownerSub with
  | Some amount => Some (mkCeiling amount src_operator)
  | None => (fun amount => mkCeiling amount src_default) <$> defaultMicros
  end.

Definition ceilings_upsert (ownerSub : string) (amountMicros : Z) (t : LimitTables)
  : LimitTables * option Z :=
  (mkTables (t_limits t) (t_extensions t) (<[ownerSub := amountMicros]> (t_ceilings t)),
   t_ceilings t !! ownerSub).

Definition ceilings_clear (ownerSub : string) (t : LimitTables) : LimitTables * option Z :=
  (mkTables (t_limits t) (t_extensions t) (delete ownerSub (t_ceilings t)), t_ceilings t !! ownerSub).

(** ** Facts *)

(** Scopes as the API accepts them: no empty id. *)
Definition scope_wf (scope : LimitScope) : Prop :=
  match scope with
  | ls_owner => True
  | ls_agent a => a <> ""%string
  | ls_connection a c => a <> ""%string /\ c <> ""%string
  | ls_owner_connection c => c <> ""%string
  end.

Lemma or_null_nonempty s : s <> ""%string -> or_null s = Some s.
Proof. intros H. unfold or_null. by rewrite (proj2 (truthy_spec s) H). Qed.

Lemma scopeOf_limitKey owner scope : scope_wf scope -> scopeOf (limitKey owner scope) = Some scope.
Proof.
  unfold scopeOf, limitKey, lk_agent, lk_connection, lk_scope.
  destruct scope; simpl; intros; destruct_and?; rewrite ?or_null_nonempty by done; done.
Qed.

Lemma limitKey_inj o o' s s' : limitKey o s = limitKey o' s' -> o = o' /\ s = s'.
Proof. unfold limitKey. destruct s, s'; simpl; intros; simplify_eq; done. Qed.

(** Every stored row is one [set] wrote, under its own key and with its own id. *)
Record tables_wf (t : LimitTables) : Prop := {
  tw_keys : NoDup (om_keys (t_limits t));
  tw_ids : NoDup (map (fun p => lr_id (snd p)) (t_limits t));
  tw_scopes : forall k row, (k, row) ∈ t_limits t ->
     exists owner scope, k = limitKey owner scope /\ scope_wf scope;
}.

Lemma om_set_in {K V} `{EqDecision K} (k : K) (v : V) m p :
  p ∈ om_set k v m -> p = (k, v) \/ (p ∈ m /\ (NoDup (om_keys m) -> fst p <> k)).
Proof.
  induction m as [|[k0 v0] m IH]; simpl; [set_solver|].
  case_decide as Hk; rewrite elem_of_cons.
  - subst k0. intros [->|Hp]; [by left|]. right. split; [set_solver|]. unfold om_keys; simpl.
    rewrite NoDup_cons. intros [Hn _] <-. apply Hn. apply list_elem_of_fmap. by exists p.
  - intros [->|Hp]; [right; split; [set_solver|by intros _]|].
    destruct (IH Hp) as [->|[Hin Hne]]; [by left|right]. split; [set_solver|].
    unfold om_keys; simpl. rewrite NoDup_cons. intros [_ Hd]. by apply Hne.
Qed.

Lemma om_set_ids k cols m :
  (forall old, om_get k m = Some old -> lr_id old = lr_id cols) ->
  (om_get k m = None -> lr_id cols ∉ map (fun p => lr_id (snd p)) m) ->
  NoDup (map (fun p => lr_id (snd p)) m) ->
  NoDup (map (fun p : LimitKey * LimitCols => lr_id (snd p)) (om_set k cols m)).
Proof.
  intros Hold Hnew Hd.
  assert (E : map (fun p => lr_id (snd p)) (om_set k cols m)
    = map (fun p => lr_id (snd p)) m ++ (match om_get k m with Some _ => [] | None => [lr_id cols] end)).
  { clear Hnew Hd. induction m as [|[k0 v0] m IH]; simpl in *; [done|].
    case_decide; simpl; [rewrite app_nil_r; by rewrite (Hold v0)|]. by rewrite IH. }
  rewrite E. destruct (om_get k m); [by rewrite app_nil_r|].
  apply NoDup_app. split_and!; [done| |apply NoDup_singleton]. intros x Hx Hin.
  apply list_elem_of_singleton in Hin as ->. by apply Hnew.
Qed.

Lemma limits_set_wf newId owner scope unit amount t :
  tables_wf t -> scope_wf scope -> newId ∉ map (fun p => lr_id (snd p)) (t_limits t) ->
  tables_wf (fst (limits_set newId owner scope unit amount t)).
Proof.
  intros [Hk Hi Hs] Hw Hnew. unfold limits_set; simpl. split; simpl.
  - by apply om_set_NoDup.
  - apply om_set_ids; [| |done]; simpl.
    + intros old Ho. by rewrite Ho.
    + intros Ho. by rewrite Ho.
  - intros k row Hin. apply om_set_in in Hin as [Heq|[Hin _]]; [simplify_eq; eauto|eauto].
Qed.

Lemma limits_applying_in agentId owner day t l :
  l ∈ limits_applying agentId owner day t <->
  exists k row scope, (k, row) ∈ t_limits t /\ limit_row_applies agentId owner k = true /\
    scopeOf k = Some scope /\
    l = mkLimit (lr_id row) (lk_owner k) scope (lr_unit row) (lr_amountMicros row)
          (t_extensions t !! (lr_id row, day) ?? 0).
Proof.
  unfold limits_applying. rewrite list_elem_of_omap. split.
  - intros ([k row] & Hin & Hl). rewrite list_elem_of_In, filter_In, <- list_elem_of_In in Hin.
    destruct Hin as [Hin Ha]. destruct (scopeOf k) as [scope|] eqn:E; [|done].
    exists k, row, scope. by simplify_eq.
  - intros (k & row & scope & Hin & Ha & Hs & ->). exists (k, row).
    rewrite list_elem_of_In, filter_In, <- list_elem_of_In. by rewrite Hs.
Qed.

(** The agents a scope is about. *)
Definition scope_reaches (scope : LimitScope) (agentId : option string) : Prop :=
  match scope with
  | ls_owner | ls_owner_connection _ => True
  | ls_agent a | ls_connection a _ => agentId = Some a
  end.

Lemma applies_limitKey agentId owner owner' scope :
  limit_row_applies agentId owner (limitKey owner' scope) = true <->
  owner' = owner /\ scope_reaches scope agentId.
Proof.
  unfold limit_row_applies, limitKey, lk_owner, lk_agent; simpl.
  rewrite andb_true_iff, String.eqb_eq.
  destruct scope, agentId; simpl; rewrite ?String.eqb_eq; naive_solver.
Qed.

(** Setting a limit is read back, and only it changes.  After [set], the
    limits that apply to an agent of that owner hold the new unit and amount
    for that scope, with the day's extensions kept, exactly once; every limit
    of another scope or owner reads as before. *)
Theorem set_then_applying newId owner scope unit amount t agentId day :
  tables_wf t -> scope_wf scope -> scope_reaches scope agentId ->
  let '(t', id) := limits_set newId owner scope unit amount t in
  (forall l, l ∈ limits_applying agentId owner day t' -> lim_scope l = scope ->
     l = mkLimit id owner scope unit amount (t_extensions t !! (id, day) ?? 0)) /\
  mkLimit id owner scope unit amount (t_extensions t !! (id, day) ?? 0) ∈ limits_applying agentId owner day t' /\
  (forall l, lim_scope l <> scope ->
     l ∈ limits_applying agentId owner day t' <-> l ∈ limits_applying agentId owner day t).
Proof.
  intros Hwf Hs Hr. destruct (limits_set newId owner scope unit amount t) as [t' id] eqn:E.
  unfold limits_set in E. injection E as <- Eid. rewrite Eid.
  set (key := limitKey owner scope). set (cols := mkLimitCols id unit amount).
  assert (Hkey : (key, cols) ∈ om_set key cols (t_limits t)).
  { apply om_get_Some_in. by rewrite om_get_set, decide_True. }
  split_and!.
  - intros l (k & row & sc & Hin & Ha & Hsc & ->)%limits_applying_in Hl. simpl in Hl, Hin |- *. subst sc.
    apply om_set_in in Hin as [Heq|[Hin Hne]].
    + injection Heq as -> ->. done.
    + exfalso. apply (Hne (tw_keys _ Hwf)). simpl.
      destruct (tw_scopes _ Hwf k row Hin) as (o & s & -> & Hws).
      rewrite scopeOf_limitKey in Hsc by done. injection Hsc as ->.
      apply applies_limitKey in Ha as [-> _]. done.
  - apply limits_applying_in. exists key, cols, scope. simpl. split_and!; [done| | |done].
    + by apply applies_limitKey.
    + by apply scopeOf_limitKey.
  - intros l Hl. rewrite !limits_applying_in. simpl. split.
    + intros (k & row & sc & Hin & Ha & Hsc & ->). simpl in Hl.
      apply om_set_in in Hin as [Heq|[Hin _]]; [|by exists k, row, sc].
      injection Heq as -> ->. unfold key in Hsc. rewrite scopeOf_limitKey in Hsc by done. by simplify_eq.
    + intros (k & row & sc & Hin & Ha & Hsc & ->). simpl in Hl. exists k, row, sc. split_and!; [|done..].
      assert (Hne : k <> key).
      { intros ->. unfold key in Hsc. rewrite scopeOf_limitKey in Hsc by done. by simplify_eq. }
      apply om_get_Some_in. rewrite om_get_set, decide_False by done.
      apply om_in_get; [apply tw_keys; done|done].
Qed.

Lemma set_then_applying_witness :
  mkLimit "id1" "o" ls_owner usd 10 0
    ∈ limits_applying (Some "a"%string) "o" "2026-01-05" (fst (limits_set "id1" "o" ls_owner usd 10 emptyTables)).
Proof.
  pose proof (set_then_applying "id1" "o" ls_owner usd 10 emptyTables (Some "a"%string) "2026-01-05") as H.
  destruct H as (_ & H & _); [split; simpl; [constructor|constructor|set_solver]|exact I|exact I|exact H].
Defined.

(** [Continue] on a question that was asked at [asked] extensions. *)
Definition extension_of (t : LimitTables) (limitId day : string) : Z :=
  t_extensions t !! (limitId, day) ?? 0.

Lemma limits_extend_count t limitId day n :
  existsb (fun p => String.eqb (lr_id (snd p)) limitId) (t_limits t) = true -> 0 <= n ->
  extension_of (limits_extend limitId day n t) limitId day
  = match t_extensions t !! (limitId, day) with Some old => Z.max old n | None => n end.
Proof.
  intros Hex Hn. unfold limits_extend, extension_of. rewrite Hex. simpl. by rewrite lookup_insert_eq.
Qed.

(** A "Continue" lifts a limit once.  Answering the question asked at some
    count raises that limit for that day by exactly one amount over what it
    was asked at, or leaves it higher if it already is; a repeated or late
    answer changes nothing more; no other limit and no other day changes, and
    spend below the raised amount no longer reaches the limit. *)
Theorem continue_extends_once t limitId day asked :
  existsb (fun p => String.eqb (lr_id (snd p)) limitId) (t_limits t) = true ->
  0 <= asked -> (forall i d v, t_extensions t !! (i, d) = Some v -> 0 <= v) ->
  let t' := limits_extend limitId day (asked + 1) t in
  extension_of t' limitId day = Z.max (extension_of t limitId day) (asked + 1) /\
  t_limits t' = t_limits t /\
  (forall i d, (i, d) <> (limitId, day) -> extension_of t' i d = extension_of t i d) /\
  (forall n, 0 <= n <= asked -> limits_extend limitId day (n + 1) t' = t') /\
  (forall id owner scope unit amount spent, 0 < amount -> spent < amount * (asked + 2) ->
     rd_state (readLimit (mkLimit id owner scope unit amount (extension_of t' limitId day)) spent) <> st_reached).
Proof.
  intros Hex Ha Hnn t'.
  assert (Hc : extension_of t' limitId day = Z.max (extension_of t limitId day) (asked + 1)).
  { unfold t'. rewrite limits_extend_count by (done || lia). unfold extension_of.
    destruct (t_extensions t !! (limitId, day)); simpl; lia. }
  assert (Hlims : t_limits t' = t_limits t) by (unfold t', limits_extend; by rewrite Hex).
  split_and!; [done|done| | |].
  - intros i d Hne. unfold t', limits_extend, extension_of. rewrite Hex. simpl.
    by rewrite lookup_insert_ne by congruence.
  - intros n Hn. unfold limits_extend at 1. rewrite Hlims, Hex.
    assert (He : t_extensions t' !! (limitId, day) = Some (Z.max (extension_of t limitId day) (asked + 1))).
    { revert Hc. unfold extension_of, t', limits_extend. rewrite Hex. simpl.
      rewrite lookup_insert_eq. simpl. by intros ->. }
    rewrite He, Z.max_l by lia. destruct t' as [l e c] eqn:Et. simpl in *. subst l.
    f_equal. by rewrite insert_id.
  - intros id owner scope unit amount spent Ham Hsp. unfold readLimit, effectiveMicros; simpl.
    unfold limitState. rewrite Hc.
    destruct (Z.leb_spec (amount * (Z.max (extension_of t limitId day) (asked + 1) + 1)) spent) as [Hle|_].
    + exfalso. nia.
    + by case_match.
Qed.

Lemma continue_extends_once_witness :
  let t := fst (limits_set "id1" "o" ls_owner usd 10 emptyTables) in
  extension_of (limits_extend "id1" "2026-01-05" 1 t) "id1" "2026-01-05" = 1.
Proof.
  intros t. destruct (continue_extends_once t "id1" "2026-01-05" 0) as [H _];
    [reflexivity|lia|intros i d v Hv; vm_compute in Hv; discriminate|exact H].
Defined.
