(* ===== verification/SpendPricing.v ===== *)
(** * Spend pricing: the price book and the cost of a call

    [spend/domain/prices.ts] and [spend/domain/cost.ts] of the api-server
    (the LiteLLM proxy cost comparison of cost.ts, which only feeds a log
    line, is left out). *)

From stdpp Require Import base gmap strings list.
From Stdlib Require Import ZArith Lia Ascii.
From S2P Require Import Prelude JsString JsNumber SpendLedger.

Local Open Scope Z_scope.

(** ** prices.ts: data *)
Record TokenPrices := mkPrices {
  tp_input : option Z;
  tp_output : option Z;
  tp_cacheRead : option Z;
  tp_cacheWrite5m : option Z;
  tp_cacheWrite1h : option Z;
}.

(** [BaseTokenPrices]: input and output are always there. *)
Record BaseTokenPrices := mkBase {
  b_input : Z;
  b_output : Z;
  b_cacheRead : option Z;
  b_cacheWrite5m : option Z;
  b_cacheWrite1h : option Z;
}.

Definition base_prices (b : BaseTokenPrices) : TokenPrices :=
  mkPrices (Some (b_input b)) (Some (b_output b)) (b_cacheRead b) (b_cacheWrite5m b) (b_cacheWrite1h b).

Record TierPrices := mkTier { tier_prices : TokenPrices; tier_aboveThreshold : option TokenPrices }.
Record Tiers := mkTiers { tiers_flex : option TierPrices; tiers_priority : option TierPrices }.
Record Threshold := mkThreshold { th_promptTokens : Z; th_prices : TokenPrices }.

Record PriceRow := mkPriceRow {
  pr_prices : BaseTokenPrices;
  pr_webSearchMicros : option Z;
  pr_threshold : option Threshold;
  pr_tiers : option Tiers;
  pr_factors : option (list (string * dbl));
}.

Record PricedModel := mkPriced { pm_provider : string; pm_model : string; pm_row : PriceRow }.
Record PriceBook := mkBook { operatorPrices : list PricedModel; anthropicTable : list PricedModel }.
Record PriceQuery := mkQuery {
  q_provider : string;
  q_replyModel : option string;
  q_pathModel : option string;
}.

Inductive PriceSource := ps_override | ps_table | ps_estimate | ps_provider_rule | ps_unpriced.
#[export] Instance PriceSource_eq_dec : EqDecision PriceSource.
Proof. solve_decision. Defined.

Inductive CallPrice :=
| cp_row (row : PriceRow) (source : PriceSource)
| cp_zero
| cp_credits
| cp_unpriced.

Definition price_source (p : CallPrice) : PriceSource :=
  match p with
  | cp_row _ s => s
  | cp_zero | cp_credits => ps_provider_rule
  | cp_unpriced => ps_unpriced
  end.

(** ** prices.ts: names *)
Definition lastSegment (model : string) : string :=
  replace_char "." "-" (toLowerCase (nullish (last (str_split "/" model)) model)).

(** [/-(\d{8}|\d{4}-\d{2}-\d{2})$/]: is this suffix one of the two dates? *)
Fixpoint matches_shape (shape s : string) : bool :=
  match shape, s with
  | EmptyString, EmptyString => true
  | String p shape', String c s' =>
      (if Ascii.eqb p "d" then is_digit c else Ascii.eqb p c) && matches_shape shape' s'
  | _, _ => false
  end.

(** Drop a suffix of the given shape, if the string ends with one. *)
Definition strip_shape (shape s : string) : option string :=
  let keep := (String.length s - String.length shape)%nat in
  if matches_shape shape (str_drop keep s) then Some (str_take keep s) else None.

Definition strip_date (s : string) : string :=
  match strip_shape "-dddd-dd-dd" s with
  | Some r => r
  | None => match strip_shape "-dddddddd" s with Some r => r | None => s end
  end.

Definition looseName (model : string) : string := strip_date (lastSegment model).

(** The parts before the first one with a digit; none when that is the first. *)
Fixpoint before_version (parts : list string) : option (list string) :=
  match parts with
  | [] => None
  | p :: ps => if str_existsb is_digit p then Some [] else
                 match before_version ps with Some l => Some (p :: l) | None => None end
  end.

Definition modelFamily (model : string) : string :=
  match before_version (str_split "-" (lastSegment model)) with
  | Some l => str_join "-" l
  | None => ""
  end.

(** ** prices.ts: lookup *)

(** [next] beats [best] only when strictly dearer. *)
Definition dearer (best next : PricedModel) : bool :=
  let nb := pr_prices (pm_row next) in
  let bb := pr_prices (pm_row best) in
  (b_input bb <? b_input nb) || ((b_input nb =? b_input bb) && (b_output bb <? b_output nb)).

(** [rows.reduce(...)] on a non-empty array. *)
Definition highestRow (first : PricedModel) (rest : list PricedModel) : PriceRow :=
  pm_row (fold_left (fun best next => if dearer best next then next else best) rest first).

(** The first name with a matching row decides. *)
Fixpoint matchBy (same : string -> string -> bool) (rows : list PricedModel) (names : list string)
  : option PriceRow :=
  match names with
  | [] => None
  | name :: names' =>
      match List.filter (fun p => same (pm_model p) name) rows with
      | p :: ps => Some (highestRow p ps)
      | [] => matchBy same rows names'
      end
  end.

Definition matchModel (rows : list PricedModel) (names : list string) : option PriceRow :=
  match matchBy String.eqb rows names with
  | Some r => Some r
  | None => matchBy (fun m n => String.eqb (looseName m) (looseName n)) rows names
  end.

(** [Math.max(...values)] of the defined values, or undefined. *)
Definition max_defined (values : list (option Z)) : option Z :=
  match omap id values with
  | [] => None
  | v :: vs => Some (fold_left Z.max vs v)
  end.

Definition highestPrices (rows : list PricedModel) : PriceRow :=
  let max (pick : PriceRow -> option Z) := max_defined (map (fun p => pick (pm_row p)) rows) in
  {| pr_prices :=
       {| b_input := max (fun r => Some (b_input (pr_prices r))) ?? 0;
          b_output := max (fun r => Some (b_output (pr_prices r))) ?? 0;
          b_cacheRead := max (fun r => b_cacheRead (pr_prices r));
          b_cacheWrite5m := max (fun r => b_cacheWrite5m (pr_prices r));
          b_cacheWrite1h := max (fun r => b_cacheWrite1h (pr_prices r)) |};
     pr_webSearchMicros := max pr_webSearchMicros;
     pr_threshold := None;
     pr_tiers := None;
     pr_factors := None |}.

Definition ANTHROPIC_TABLE_PROVIDERS : list string := ["anthropic"; "anthropic-oauth"]%string.

(** [[pathModel, replyModel].filter(truthy)] *)
Definition query_names (query : PriceQuery) : list string :=
  List.filter truthy (omap id [q_pathModel query; q_replyModel query]).

Definition operatorRows (book : PriceBook) (query : PriceQuery) : list PricedModel :=
  List.filter (fun p => String.eqb (pm_provider p) (q_provider query)) (operatorPrices book).

Definition tableRows (book : PriceBook) (query : PriceQuery) : list PricedModel :=
  if includes ANTHROPIC_TABLE_PROVIDERS (q_provider query) then anthropicTable book else [].

(** The rows an estimate is taken over: the call's family, else all rows. *)
Definition estimatePool (known : list PricedModel) (names : list string) : list PricedModel :=
  let families := List.filter truthy (map modelFamily names) in
  let family := List.filter (fun p => includes families (modelFamily (pm_model p))) known in
  match family with [] => known | _ => family end.

Definition lookupPrice (book : PriceBook) (query : PriceQuery) : CallPrice :=
  let names := query_names query in
  match matchModel (operatorRows book query) names with
  | Some row => cp_row row ps_override
  | None =>
      if String.eqb (q_provider query) "curve-bender"
         || String.eqb (q_provider query) "curve-bender-deployment" then cp_zero
      else if String.eqb (q_provider query) "ibm-litellm"
              && existsb (fun name => startsWith (toLowerCase name) "rits/") names then cp_zero
      else if String.eqb (q_provider query) "bob" then cp_credits
      else
        match matchModel (tableRows book query) names with
        | Some row => cp_row row ps_table
        | None =>
            match operatorRows book query ++ tableRows book query with
            | [] => cp_unpriced
            | known => cp_row (highestPrices (estimatePool known names)) ps_estimate
            end
        end
  end.

(** ** cost.ts *)
Definition MILLION : Z := 1000000.
Definition FACTOR_SCALE : Z := 1000.
Definition NEUTRAL_GEOS : list string := ["global"; "not_available"]%string.

Record ResolvedRates := mkRates {
  rt_input : Z;
  rt_output : Z;
  rt_cacheRead : Z;
  rt_cacheWrite5m : Z;
  rt_cacheWrite1h : Z;
}.

Definition tierPrices (row : PriceRow) (serviceTier : option string) : option TierPrices :=
  match toLowerCase <$> serviceTier, pr_tiers row with
  | Some t, Some tiers =>
      if String.eqb t "flex" then tiers_flex tiers
      else if String.eqb t "priority" then tiers_priority tiers
      else None
  | _, _ => None
  end.

Definition aboveThreshold (row : PriceRow) (usage : NormalizedUsage) : bool :=
  match pr_threshold row with
  | Some th => th_promptTokens th <? promptTokens usage
  | None => false
  end.

(** The price layers, most specific first. *)
Definition priceLayers (row : PriceRow) (usage : NormalizedUsage) : list (option TokenPrices) :=
  let tier := tierPrices row (nu_serviceTier usage) in
  let above := aboveThreshold row usage in
  [if above then tier ≫= tier_aboveThreshold else None;
   if above then th_prices <$> pr_threshold row else None;
   tier_prices <$> tier;
   Some (base_prices (pr_prices row))].

(** [layers.map((layer) => layer?.[kind]).find((v) => v !== undefined)] *)
Definition pick (kind : TokenPrices -> option Z) (layers : list (option TokenPrices)) : option Z :=
  head (omap (fun layer => layer ≫= kind) layers).

Definition resolveRates (row : PriceRow) (usage : NormalizedUsage) : ResolvedRates :=
  let layers := priceLayers row usage in
  let input := pick tp_input layers ?? b_input (pr_prices row) in
  let cacheWrite5m := pick tp_cacheWrite5m layers ?? input in
  {| rt_input := input;
     rt_output := pick tp_output layers ?? b_output (pr_prices row);
     rt_cacheRead := pick tp_cacheRead layers ?? input;
     rt_cacheWrite5m := cacheWrite5m;
     rt_cacheWrite1h := pick tp_cacheWrite1h layers ?? cacheWrite5m |}.

Definition one : dbl := Dbl 1 0.

Definition factorOf (row : PriceRow) (key : string) : dbl :=
  (pr_factors row ≫= om_get key) ?? one.

Definition speedFactor (row : PriceRow) (speed : option string) : dbl :=
  if ostr_eqb (toLowerCase <$> speed) "fast" then factorOf row "fast" else one.

Definition geoFactor (row : PriceRow) (geo : option string) : dbl :=
  match toLowerCase <$> geo with
  | None => one
  | Some key => if negb (truthy key) || includes NEUTRAL_GEOS key then one else factorOf row key
  end.

Definition scaledFactor (factor : dbl) : Z := Math_round (dbl_mulZ factor FACTOR_SCALE).

Definition creditsMicros (credits : option dbl) : option Z :=
  match credits with
  | None => None
  | Some c => Some (Math_ceil (precision12 (dbl_mulZ c 1000000)))
  end.

(** BigInt division truncates. *)
Definition ceilDiv (numerator denominator : Z) : Z :=
  Z.quot (numerator + denominator - 1) denominator.

Definition tokenCost (rates : ResolvedRates) (usage : NormalizedUsage) : Z :=
  nu_uncachedInputTokens usage * rt_input rates +
  nu_outputTokens usage * rt_output rates +
  nu_cacheReadTokens usage * rt_cacheRead rates +
  nu_cacheWrite5mTokens usage * rt_cacheWrite5m rates +
  (nu_cacheWrite1hTokens usage + nu_cacheWriteUnsplitTokens usage) * rt_cacheWrite1h rates.

Definition costFactor (row : PriceRow) (usage : NormalizedUsage) : Z :=
  scaledFactor (speedFactor row (nu_speed usage)) * scaledFactor (geoFactor row (nu_inferenceGeo usage)).

Definition rowCostMicros (row : PriceRow) (usage : NormalizedUsage) : Z :=
  let rates := resolveRates row usage in
  let factor := costFactor row usage in
  let denominator := MILLION * FACTOR_SCALE * FACTOR_SCALE in
  let webSearchCost := nu_webSearches usage * (pr_webSearchMicros row ?? 0) * denominator in
  ceilDiv (tokenCost rates usage * factor + webSearchCost) denominator.

Definition callCostMicros (price : CallPrice) (usage : NormalizedUsage) : option Z :=
  match price with
  | cp_row row _ => Some (rowCostMicros row usage)
  | cp_zero => Some 0
  | cp_credits => creditsMicros (nu_bobCredits usage)
  | cp_unpriced => Some 0
  end.

(** ** Facts *)
Definition DENOM : Z := MILLION * FACTOR_SCALE * FACTOR_SCALE.

(** The exact cost of a call in units of 1/DENOM micro-unit. *)
Definition exactCost (row : PriceRow) (usage : NormalizedUsage) : Z :=
  tokenCost (resolveRates row usage) usage * costFactor row usage
  + nu_webSearches usage * (pr_webSearchMicros row ?? 0) * DENOM.

Lemma rowCostMicros_exact row usage :
  rowCostMicros row usage = ceilDiv (exactCost row usage) DENOM.
Proof. done. Qed.

Lemma ceilDiv_bounds n d : 0 <= n -> 0 < d -> (ceilDiv n d - 1) * d < n <= ceilDiv n d * d.
Proof.
  intros Hn Hd. unfold ceilDiv. rewrite Z.quot_div_nonneg by lia.
  pose proof (Z.div_mod (n + d - 1) d ltac:(lia)). pose proof (Z.mod_pos_bound (n + d - 1) d Hd). lia.
Qed.

Lemma ceilDiv_mono a b d : 0 <= a <= b -> 0 < d -> ceilDiv a d <= ceilDiv b d.
Proof.
  intros. unfold ceilDiv. rewrite !Z.quot_div_nonneg by lia. apply Z.div_le_mono; lia.
Qed.

(** Usage whose counts are counts. *)
Record usage_nonneg (u : NormalizedUsage) : Prop := {
  un_in : 0 <= nu_uncachedInputTokens u;
  un_out : 0 <= nu_outputTokens u;
  un_cr : 0 <= nu_cacheReadTokens u;
  un_5m : 0 <= nu_cacheWrite5mTokens u;
  un_1h : 0 <= nu_cacheWrite1hTokens u;
  un_un : 0 <= nu_cacheWriteUnsplitTokens u;
  un_ws : 0 <= nu_webSearches u;
}.

(** A property of every price a row writes. *)
Definition tp_all (P : Z -> Prop) (t : TokenPrices) : Prop :=
  forall kind, kind ∈ [tp_input; tp_output; tp_cacheRead; tp_cacheWrite5m; tp_cacheWrite1h] ->
    forall v, kind t = Some v -> P v.

Definition tier_all (P : Z -> Prop) (t : TierPrices) : Prop :=
  tp_all P (tier_prices t) /\ (forall a, tier_aboveThreshold t = Some a -> tp_all P a).

Record row_all (P : Z -> Prop) (row : PriceRow) : Prop := {
  ra_base : tp_all P (base_prices (pr_prices row));
  ra_th : forall th, pr_threshold row = Some th -> tp_all P (th_prices th);
  ra_flex : forall t f, pr_tiers row = Some t -> tiers_flex t = Some f -> tier_all P f;
  ra_prio : forall t f, pr_tiers row = Some t -> tiers_priority t = Some f -> tier_all P f;
}.

Lemma tierPrices_all P row st t : row_all P row -> tierPrices row st = Some t -> tier_all P t.
Proof.
  intros H. unfold tierPrices. destruct (toLowerCase <$> st); [|done].
  destruct (pr_tiers row) as [ts|] eqn:E; [|done].
  repeat case_match; intros Ht; [by eapply ra_flex|by eapply ra_prio|done].
Qed.

Lemma priceLayers_all P row usage l :
  row_all P row -> Some l ∈ priceLayers row usage -> tp_all P l.
Proof.
  intros H. unfold priceLayers. rewrite !elem_of_cons, elem_of_nil.
  pose proof (tierPrices_all P row (nu_serviceTier usage)) as Ht.
  destruct (tierPrices row (nu_serviceTier usage)) as [t|]; simpl;
    [specialize (Ht t H eq_refl); destruct Ht|clear Ht];
  destruct (aboveThreshold row usage); simpl;
  (destruct (pr_threshold row) eqn:Eth; simpl);
  intros Hin; destruct_or? Hin; simplify_eq; try done; eauto using ra_base, ra_th.
Qed.

Lemma pick_in kind layers v : pick kind layers = Some v -> exists l, Some l ∈ layers /\ kind l = Some v.
Proof.
  unfold pick. induction layers as [|o layers IH]; simpl; [done|].
  destruct (o ≫= kind) as [w|] eqn:E; simpl.
  - intros [= ->]. destruct o as [l|]; [|done]. exists l. split; [constructor|done].
  - intros H. destruct (IH H) as (l & Hl & Hk). exists l. split; [by constructor|done].
Qed.

Lemma pick_all P row usage kind v :
  row_all P row -> kind ∈ [tp_input; tp_output; tp_cacheRead; tp_cacheWrite5m; tp_cacheWrite1h] ->
  pick kind (priceLayers row usage) = Some v -> P v.
Proof.
  intros H Hk Hp. apply pick_in in Hp as (l & Hl & Hv). eapply priceLayers_all in Hl; eauto.
  by eapply Hl.
Qed.

Lemma pick_or_all P row usage kind d :
  row_all P row -> kind ∈ [tp_input; tp_output; tp_cacheRead; tp_cacheWrite5m; tp_cacheWrite1h] ->
  P d -> P (pick kind (priceLayers row usage) ?? d).
Proof.
  intros H Hk Hd. destruct (pick kind _) eqn:E; simpl; [by eapply pick_all|done].
Qed.

Lemma resolveRates_all P row usage :
  row_all P row ->
  let r := resolveRates row usage in
  P (rt_input r) /\ P (rt_output r) /\ P (rt_cacheRead r) /\
  P (rt_cacheWrite5m r) /\ P (rt_cacheWrite1h r).
Proof.
  intros H.
  assert (Hbi : P (b_input (pr_prices row))).
  { apply (ra_base P row H tp_input); [set_solver|done]. }
  assert (Hbo : P (b_output (pr_prices row))).
  { apply (ra_base P row H tp_output); [set_solver|done]. }
  unfold resolveRates; simpl.
  repeat split; repeat (apply pick_or_all; [done|set_solver|]); done.
Qed.

Lemma tokenCost_nonneg row usage :
  row_all (fun z => 0 <= z) row -> usage_nonneg usage -> 0 <= tokenCost (resolveRates row usage) usage.
Proof.
  intros Hr [? ? ? ? ? ? ?]. destruct (resolveRates_all _ row usage Hr) as (?&?&?&?&?).
  unfold tokenCost. nia.
Qed.

Lemma tokenCost_pos row usage :
  row_all (fun z => 0 < z) row -> usage_nonneg usage ->
  0 < promptTokens usage + nu_outputTokens usage -> 0 < tokenCost (resolveRates row usage) usage.
Proof.
  intros Hr [? ? ? ? ? ? ?] Hu. destruct (resolveRates_all _ row usage Hr) as (?&?&?&?&?).
  unfold promptTokens in Hu. unfold tokenCost.
  assert (forall a b, 0 <= a -> 0 < b -> a <= a * b) as Hge by nia.
  pose proof (Hge (nu_uncachedInputTokens usage) (rt_input (resolveRates row usage))).
  pose proof (Hge (nu_outputTokens usage) (rt_output (resolveRates row usage))).
  pose proof (Hge (nu_cacheReadTokens usage) (rt_cacheRead (resolveRates row usage))).
  pose proof (Hge (nu_cacheWrite5mTokens usage) (rt_cacheWrite5m (resolveRates row usage))).
  pose proof (Hge (nu_cacheWrite1hTokens usage + nu_cacheWriteUnsplitTokens usage)
                  (rt_cacheWrite1h (resolveRates row usage))).
  lia.
Qed.

Definition webSearch_nonneg (row : PriceRow) : Prop := 0 <= pr_webSearchMicros row ?? 0.

Lemma exactCost_nonneg row usage :
  row_all (fun z => 0 <= z) row -> webSearch_nonneg row -> 0 <= costFactor row usage ->
  usage_nonneg usage -> 0 <= exactCost row usage.
Proof.
  intros Hr Hw Hf Hu. pose proof (tokenCost_nonneg row usage Hr Hu). pose proof (un_ws _ Hu).
  unfold exactCost, webSearch_nonneg, DENOM, MILLION, FACTOR_SCALE in *. nia.
Qed.

(** ** Properties *)

(** A call priced from a row is charged the exact price of its tokens and
    web searches, at the resolved rates and factors, rounded up to the next
    micro-unit: never under the exact price, less than one micro-unit over
    it, and nothing when the exact price is nothing. *)
Theorem rowCost_rounds_up row usage :
  row_all (fun z => 0 <= z) row -> webSearch_nonneg row -> 0 <= costFactor row usage ->
  usage_nonneg usage ->
  0 <= rowCostMicros row usage /\
  (rowCostMicros row usage - 1) * DENOM < exactCost row usage <= rowCostMicros row usage * DENOM /\
  (rowCostMicros row usage = 0 <-> exactCost row usage = 0).
Proof.
  intros Hr Hw Hf Hu. pose proof (exactCost_nonneg row usage Hr Hw Hf Hu) as He.
  rewrite rowCostMicros_exact.
  assert (Hd : 0 < DENOM) by done. pose proof (ceilDiv_bounds _ _ He Hd). nia.
Qed.

(** No token is free by omission.  When every price the row writes is
    positive (and no factor rounds to zero), a call that used any prompt or
    output token is charged at least one micro-unit, whichever cache prices,
    threshold prices or service tiers the row leaves out. *)
Theorem used_tokens_are_charged row usage :
  row_all (fun z => 0 < z) row -> webSearch_nonneg row -> 0 < costFactor row usage ->
  usage_nonneg usage -> 0 < promptTokens usage + nu_outputTokens usage ->
  0 < rowCostMicros row usage.
Proof.
  intros Hr Hw Hf Hu Hused. pose proof (tokenCost_pos row usage Hr Hu Hused) as Ht.
  rewrite rowCostMicros_exact.
  assert (Hd : 0 < DENOM) by done.
  assert (He : 0 < exactCost row usage).
  { pose proof (un_ws _ Hu). unfold exactCost, webSearch_nonneg, DENOM, MILLION, FACTOR_SCALE in *. nia. }
  pose proof (ceilDiv_bounds (exactCost row usage) DENOM ltac:(lia) Hd). nia.
Qed.

Lemma used_tokens_are_charged_witness :
  let row := mkPriceRow (mkBase 3000000 15000000 None None None) None None None None in
  let usage := mkUsage 0 0 0 0 0 1 0 None None None None in
  0 < rowCostMicros row usage.
Proof.
  apply used_tokens_are_charged.
  - split; try done. intros k Hk v. rewrite !elem_of_cons, elem_of_nil in Hk.
    destruct_or! Hk; subst; simpl; intros; simplify_eq; lia.
  - vm_compute; discriminate.
  - vm_compute; reflexivity.
  - split; vm_compute; discriminate.
  - vm_compute; reflexivity.
Defined.

Lemma rowCost_rounds_up_witness :
  let row := mkPriceRow (mkBase 3000000 15000000 (Some 300000) None None) (Some 10000) None None None in
  let usage := mkUsage 7 3 101 0 0 0 1 None None None None in
  rowCostMicros row usage = 10097 /\
  (rowCostMicros row usage - 1) * DENOM < exactCost row usage <= rowCostMicros row usage * DENOM.
Proof.
  split; [vm_compute; reflexivity|]. apply rowCost_rounds_up.
  - split; try done. intros k Hk v. rewrite !elem_of_cons, elem_of_nil in Hk.
    destruct_or! Hk; subst; simpl; intros; simplify_eq; lia.
  - vm_compute; discriminate.
  - vm_compute; discriminate.
  - split; vm_compute; discriminate.
Defined.

(** ** Which row a call is priced from *)

Definition at_least_as_dear (r r' : PriceRow) : Prop :=
  b_input (pr_prices r') < b_input (pr_prices r) \/
  (b_input (pr_prices r') = b_input (pr_prices r) /\ b_output (pr_prices r') <= b_output (pr_prices r)).

Lemma highestRow_spec first rest :
  (exists p, p ∈ first :: rest /\ pm_row p = highestRow first rest) /\
  forall p, p ∈ first :: rest -> at_least_as_dear (highestRow first rest) (pm_row p).
Proof.
  unfold highestRow. revert first. induction rest as [|q rest IH]; intros first; simpl.
  - split; [exists first; set_solver|].
    intros p ->%list_elem_of_singleton. unfold at_least_as_dear. lia.
  - destruct (IH (if dearer first q then q else first)) as [(p & Hp & Hr) Hall].
    split.
    + exists p. split; [|done]. destruct (dearer first q); set_solver.
    + assert (Hq : at_least_as_dear (pm_row (if dearer first q then q else first)) (pm_row q) /\
                   at_least_as_dear (pm_row (if dearer first q then q else first)) (pm_row first)).
      { unfold at_least_as_dear. destruct (dearer first q) eqn:E; unfold dearer in E; lia. }
      pose proof (Hall (if dearer first q then q else first) ltac:(set_solver)) as Hx.
      intros p'. rewrite !elem_of_cons. intros [->|[->|H]]; [| |apply Hall; set_solver];
        unfold at_least_as_dear in *; lia.
Qed.

Lemma matchBy_spec same rows names row :
  matchBy same rows names = Some row ->
  exists name, name ∈ names /\
    (exists p, p ∈ rows /\ same (pm_model p) name = true /\ pm_row p = row) /\
    (forall p, p ∈ rows -> same (pm_model p) name = true -> at_least_as_dear row (pm_row p)).
Proof.
  induction names as [|name names IH]; simpl; [done|].
  destruct (List.filter _ rows) as [|q qs] eqn:E.
  - intros H. destruct (IH H) as (n & Hn & Hrest). exists n. set_solver.
  - intros [= <-]. exists name. split; [set_solver|].
    assert (Hf : forall p, p ∈ q :: qs <-> p ∈ rows /\ same (pm_model p) name = true).
    { intros p. rewrite <- E, !list_elem_of_In. apply filter_In. }
    destruct (highestRow_spec q qs) as [(p & Hp & Hr) Hall]. split.
    + exists p. apply Hf in Hp as [? ?]. done.
    + intros p' ? ?. by apply Hall, Hf.
Qed.

Lemma matchBy_first same rows name names p :
  p ∈ rows -> same (pm_model p) name = true ->
  exists row, matchBy same rows (name :: names) = Some row /\
    (exists q, q ∈ rows /\ same (pm_model q) name = true /\ pm_row q = row) /\
    forall q, q ∈ rows -> same (pm_model q) name = true -> at_least_as_dear row (pm_row q).
Proof.
  intros Hp Hs. simpl.
  assert (Hf : forall p, p ∈ List.filter (fun p => same (pm_model p) name) rows
                         <-> p ∈ rows /\ same (pm_model p) name = true).
  { intros p'. rewrite !list_elem_of_In. apply filter_In. }
  assert (Hin := conj Hp Hs). apply Hf in Hin.
  destruct (List.filter _ rows) as [|q qs]; [set_solver|].
  exists (highestRow q qs). split; [done|].
  destruct (highestRow_spec q qs) as [(p' & Hp' & Hr) Hall]. split.
  - exists p'. apply Hf in Hp' as [? ?]. done.
  - intros p2 ? ?. by apply Hall, Hf.
Qed.

(** An operator price wins.  When the operator priced the model named in
    the request path for the call's provider, the call is priced from an
    operator row of exactly that name, whatever the provider's built-in rule,
    table or estimate would say, and among several such rows from one at
    least as dear (input price, then output price) as each of them. *)
Theorem operator_price_wins book query name p :
  q_pathModel query = Some name -> truthy name = true ->
  p ∈ operatorRows book query -> pm_model p = name ->
  exists row, lookupPrice book query = cp_row row ps_override /\
    (exists q, q ∈ operatorRows book query /\ pm_model q = name /\ pm_row q = row) /\
    forall q, q ∈ operatorRows book query -> pm_model q = name -> at_least_as_dear row (pm_row q).
Proof.
  intros Hq Ht Hp Hm.
  assert (Hn : exists rest, query_names query = name :: rest).
  { unfold query_names. rewrite Hq. simpl. destruct (q_replyModel query); simpl; rewrite Ht; eauto. }
  destruct Hn as [rest Hn].
  destruct (matchBy_first String.eqb (operatorRows book query) name rest p) as (row & Hrow & (q & Hq1 & Hq2 & Hq3) & Hd);
    [done|by apply String.eqb_eq|].
  exists row. unfold lookupPrice, matchModel. rewrite Hn, Hrow. split; [done|]. split.
  - exists q. apply String.eqb_eq in Hq2. done.
  - intros q' ? ?. apply Hd; [done|by apply String.eqb_eq].
Qed.

Lemma operator_price_wins_witness :
  let row := mkPriceRow (mkBase 5 6 None None None) None None None None in
  let book := mkBook [mkPriced "bob" "m" row] [] in
  let query := mkQuery "bob" None (Some "m"%string) in
  exists r, lookupPrice book query = cp_row r ps_override /\
    (exists q, q ∈ operatorRows book query /\ pm_model q = "m"%string /\ pm_row q = r) /\
    forall q, q ∈ operatorRows book query -> pm_model q = "m"%string -> at_least_as_dear r (pm_row q).
Proof.
  intros row book query.
  apply (operator_price_wins book query "m" (mkPriced "bob" "m" row)); [done|done| |done].
  apply list_elem_of_here.
Defined.

(** ** Estimates *)

Lemma fold_max_ge vs v : v <= fold_left Z.max vs v /\ forall x, x ∈ vs -> x <= fold_left Z.max vs v.
Proof.
  revert v. induction vs as [|w vs IH]; intros v; simpl; [set_solver by lia|].
  destruct (IH (Z.max v w)) as [H1 H2]. split; [lia|].
  intros x [->|Hx]%elem_of_cons; [lia|auto].
Qed.

Lemma max_defined_ge values v :
  Some v ∈ values -> exists m, max_defined values = Some m /\ v <= m.
Proof.
  intros Hin. unfold max_defined.
  assert (Hv : v ∈ omap id values) by (apply list_elem_of_omap; exists (Some v); done).
  destruct (omap id values) as [|w ws]; [set_solver|].
  destruct (fold_max_ge ws w) as [H1 H2]. eexists; split; [done|].
  apply elem_of_cons in Hv as [->|Hv]; auto.
Qed.

Lemma max_defined_in values m : max_defined values = Some m -> Some m ∈ values.
Proof.
  unfold max_defined. intros H. assert (Hm : m ∈ omap id values).
  { destruct (omap id values) as [|w ws]; [done|]. injection H as <-. clear.
    revert w. induction ws as [|x ws IH]; intros w; simpl; [set_solver|].
    specialize (IH (Z.max w x)). destruct (Z.max_spec w x) as [[_ E]|[_ E]]; rewrite E in *; set_solver. }
  apply list_elem_of_omap in Hm as (o & Ho & Hs). unfold id in Hs. by subst.
Qed.

(** The price of one kind in [highestPrices], against one of the rows. *)
Lemma highest_kind_ge (rows : list PricedModel) (kind : PriceRow -> option Z) p v :
  p ∈ rows -> kind (pm_row p) = Some v ->
  exists m, max_defined (map (fun p => kind (pm_row p)) rows) = Some m /\ v <= m.
Proof.
  intros Hp Hk. apply max_defined_ge. apply list_elem_of_fmap. by exists p.
Qed.

(** A row with every cache price written and nothing beyond its base prices. *)
Record plain_row (row : PriceRow) : Prop := {
  pl_cr : is_Some (b_cacheRead (pr_prices row));
  pl_5m : is_Some (b_cacheWrite5m (pr_prices row));
  pl_1h : is_Some (b_cacheWrite1h (pr_prices row));
  pl_th : pr_threshold row = None;
  pl_tiers : pr_tiers row = None;
  pl_factors : pr_factors row = None;
}.

Lemma resolveRates_plain row usage :
  pr_threshold row = None -> pr_tiers row = None ->
  resolveRates row usage =
    let b := pr_prices row in
    let w5 := b_cacheWrite5m b ?? b_input b in
    mkRates (b_input b) (b_output b) (b_cacheRead b ?? b_input b) w5 (b_cacheWrite1h b ?? w5).
Proof.
  intros Hth Hti. unfold resolveRates, priceLayers, tierPrices, aboveThreshold, pick.
  rewrite Hth, Hti. destruct (toLowerCase <$> nu_serviceTier usage); simpl;
    destruct (pr_prices row) as [i o cr w5 w1]; destruct cr, w5, w1; done.
Qed.

Lemma costFactor_plain row usage : pr_factors row = None -> costFactor row usage = 1000000.
Proof.
  intros Hf. unfold costFactor.
  assert (Hs : speedFactor row (nu_speed usage) = one).
  { unfold speedFactor, factorOf. rewrite Hf. by case_match. }
  assert (Hg : geoFactor row (nu_inferenceGeo usage) = one).
  { unfold geoFactor, factorOf. rewrite Hf. by repeat case_match. }
  rewrite Hs, Hg. vm_compute. reflexivity.
Qed.

Lemma highestPrices_covers rows p usage :
  p ∈ rows -> plain_row (pm_row p) -> row_all (fun z => 0 <= z) (pm_row p) ->
  (forall q, q ∈ rows -> webSearch_nonneg (pm_row q)) -> usage_nonneg usage ->
  rowCostMicros (pm_row p) usage <= rowCostMicros (highestPrices rows) usage.
Proof.
  intros Hp [[cr Hcr] [w5 H5] [w1 H1] Hth Hti Hf] Hall Hws Hu.
  destruct (highest_kind_ge rows (fun r => Some (b_input (pr_prices r))) p _ Hp eq_refl) as (mi & Emi & Hmi).
  destruct (highest_kind_ge rows (fun r => Some (b_output (pr_prices r))) p _ Hp eq_refl) as (mo & Emo & Hmo).
  destruct (highest_kind_ge rows (fun r => b_cacheRead (pr_prices r)) p _ Hp Hcr) as (mcr & Emcr & Hmcr).
  destruct (highest_kind_ge rows (fun r => b_cacheWrite5m (pr_prices r)) p _ Hp H5) as (m5 & Em5 & Hm5).
  destruct (highest_kind_ge rows (fun r => b_cacheWrite1h (pr_prices r)) p _ Hp H1) as (m1 & Em1 & Hm1).
  assert (Hw : pr_webSearchMicros (pm_row p) ?? 0 <= pr_webSearchMicros (highestPrices rows) ?? 0).
  { simpl. destruct (pr_webSearchMicros (pm_row p)) as [w|] eqn:Ew; simpl.
    - destruct (highest_kind_ge rows pr_webSearchMicros p _ Hp Ew) as (mw & -> & ?). done.
    - destruct (max_defined (map (fun p => pr_webSearchMicros (pm_row p)) rows)) as [m|] eqn:E; simpl; [|done].
      apply max_defined_in, list_elem_of_fmap in E as (q & Hq & Hin).
      specialize (Hws q Hin). unfold webSearch_nonneg in Hws. by rewrite <- Hq in Hws. }
  rewrite !rowCostMicros_exact. apply ceilDiv_mono; [|done]. split.
  - apply exactCost_nonneg; [done|by apply Hws| |done]. by rewrite costFactor_plain.
  - unfold exactCost. rewrite !costFactor_plain by done.
    rewrite !resolveRates_plain by done. destruct Hu as [? ? ? ? ? ? ?].
    unfold tokenCost. cbn [highestPrices pr_prices b_input b_output b_cacheRead b_cacheWrite5m b_cacheWrite1h
      rt_input rt_output rt_cacheRead rt_cacheWrite5m rt_cacheWrite1h].
    rewrite Emi, Emo, Emcr, Em5, Em1, Hcr, H5, H1. cbn [nullish].
    apply Z.add_le_mono; [|apply Z.mul_le_mono_nonneg_r; [done|by apply Z.mul_le_mono_nonneg_l]].
    apply Z.mul_le_mono_nonneg_r; [done|].
    repeat apply Z.add_le_mono; apply Z.mul_le_mono_nonneg_l; lia.
Qed.

Lemma lookupPrice_estimate book query est :
  lookupPrice book query = cp_row est ps_estimate ->
  est = highestPrices (estimatePool (operatorRows book query ++ tableRows book query) (query_names query)).
Proof.
  unfold lookupPrice. repeat case_match; intros; simplify_eq; done.
Qed.

(** An estimate covers the models it is taken over.  When a call is
    priced by estimate, it costs at least what it would under any row of the
    pool (the models of its family, else every model of the provider) that
    writes all its cache prices and has no threshold, tier or factor. *)
Theorem estimate_covers book query est p usage :
  lookupPrice book query = cp_row est ps_estimate ->
  p ∈ estimatePool (operatorRows book query ++ tableRows book query) (query_names query) ->
  plain_row (pm_row p) -> row_all (fun z => 0 <= z) (pm_row p) ->
  (forall q, q ∈ estimatePool (operatorRows book query ++ tableRows book query) (query_names query) ->
     webSearch_nonneg (pm_row q)) ->
  usage_nonneg usage ->
  rowCostMicros (pm_row p) usage <= rowCostMicros est usage.
Proof.
  intros ->%lookupPrice_estimate. apply highestPrices_covers.
Qed.

Definition plain_example : PriceRow :=
  mkPriceRow (mkBase 3000000 15000000 (Some 300000) (Some 3750000) (Some 6000000)) None None None None.

Lemma estimate_covers_witness :
  let p := mkPriced "acme" "acme-large-1" plain_example in
  let book := mkBook [p] [] in
  let query := mkQuery "acme" (Some "acme-large-2"%string) None in
  let usage := mkUsage 10 20 30 40 50 60 0 None None None None in
  exists est, lookupPrice book query = cp_row est ps_estimate /\
    rowCostMicros plain_example usage <= rowCostMicros est usage.
Proof.
  intros p book query usage.
  assert (Hpool : estimatePool (operatorRows book query ++ tableRows book query) (query_names query) = [p])
    by (vm_compute; reflexivity).
  exists (highestPrices [p]).
  assert (Hl : lookupPrice book query = cp_row (highestPrices [p]) ps_estimate) by (vm_compute; reflexivity).
  split; [exact Hl|].
  apply (estimate_covers book query (highestPrices [p]) p usage Hl).
  - rewrite Hpool. apply list_elem_of_here.
  - split; vm_compute; eauto.
  - split; try done. intros k Hk v. rewrite !elem_of_cons, elem_of_nil in Hk.
    destruct_or! Hk; subst; simpl; intros; simplify_eq; lia.
  - rewrite Hpool. intros q ->%list_elem_of_singleton. vm_compute; discriminate.
  - split; vm_compute; discriminate.
Defined.

(** Outside that case an estimate can count low.  One model of the pool
    leaves its cache-read price out, so its cached tokens cost its input
    price; another writes a low one; the estimate takes the written one and
    charges less than the first model would. *)
Theorem estimate_may_count_low :
  exists book query est p usage,
    lookupPrice book query = cp_row est ps_estimate /\
    p ∈ estimatePool (operatorRows book query ++ tableRows book query) (query_names query) /\
    row_all (fun z => 0 < z) (pm_row p) /\ usage_nonneg usage /\
    rowCostMicros est usage < rowCostMicros (pm_row p) usage.
Proof.
  set (dear := mkPriced "acme" "acme-large-1"
                 (mkPriceRow (mkBase 3000000 15000000 None None None) None None None None)).
  set (cheap := mkPriced "acme" "acme-small-1"
                 (mkPriceRow (mkBase 1000000 5000000 (Some 100000) None None) None None None None)).
  exists (mkBook [dear; cheap] []), (mkQuery "acme" (Some "other-2"%string) None).
  exists (highestPrices [dear; cheap]), dear, (mkUsage 0 0 1000000 0 0 0 0 None None None None).
  split; [vm_compute; reflexivity|]. split; [apply list_elem_of_here|].
  split; [|split; [split; vm_compute; discriminate|vm_compute; reflexivity]].
  split; try done. intros k Hk v. rewrite !elem_of_cons, elem_of_nil in Hk.
  destruct_or! Hk; subst; simpl; intros; simplify_eq; lia.
Qed.
