(* ===== verification/SpendMetering.v ===== *)
(** * Spend metering: what one gateway record says a call cost

    [spend/domain/call.ts] of the api-server: the normalisation of the API
    dialects' usage counts and [measureCall]; [spend/domain/metering.ts]. *)

From stdpp Require Import base gmap strings list.
From Stdlib Require Import ZArith Lia Ascii.
From S2P Require Import Prelude JsString JsDate JsNumber SpendLedger SpendLimits SpendPricing.

Local Open Scope Z_scope.

(** ** Data *)
Record RawUsage := mkRaw {
  raw_inputTokens : option Z;
  raw_outputTokens : option Z;
  raw_cacheReadTokens : option Z;
  raw_cacheWriteTokens : option Z;
  raw_cacheWrite5mTokens : option Z;
  raw_cacheWrite1hTokens : option Z;
  raw_cachedTokens : option Z;
  raw_webSearchRequests : option Z;
  raw_webSearchCalls : option Z;
  raw_credits : option dbl;
  raw_serviceTier : option string;
  raw_speed : option string;
  raw_inferenceGeo : option string;
}.

(** The record of a call, less the proxy cost headers and the harness name,
    which only feed log lines. *)
Record CallRecord := mkRecord {
  rec_callId : string;
  rec_agentId : string;
  rec_payer : string;
  rec_connectionId : option string;
  rec_providers : list string;
  rec_sessionId : option string;
  rec_routerCallId : option string;
  rec_path : string;
  rec_dialect : ApiDialect;
  rec_model : option string;
  rec_usage : RawUsage;
  rec_status : option Z;
  rec_replyBytes : option Z;
  rec_complete : bool;
  rec_final : bool;
  rec_refusedByGate : bool;
  rec_startedAt : Z;
  rec_durationMs : Z;
}.

Inductive EstimateReason :=
| stream_cut | output_uncounted | providers_ambiguous | model_unpriced
| usage_missing | cost_unknown | record_missing.

Record Measured := mkMeasured {
  ms_provider : string;
  ms_unit : SpendUnit;
  ms_model : string;
  ms_priceSource : PriceSource;
  ms_needsReferenceCost : bool;
  ms_estimateReasons : list EstimateReason;
  ms_amounts : CallAmounts;
}.

Inductive CallMeasure :=
| cm_forget
| cm_skip
| cm_measured (m : Measured).

Definition REPLY_BYTES_PER_TOKEN : Z := 3.

(** ** Helpers *)
Definition hasUsage (raw : RawUsage) : bool :=
  existsb (fun o : option Z => match o with Some _ => true | None => false end)
    [raw_inputTokens raw; raw_outputTokens raw; raw_cacheReadTokens raw;
     raw_cacheWriteTokens raw; raw_cachedTokens raw]
  || match raw_credits raw with Some _ => true | None => false end.

Definition succeeded (status : option Z) : bool :=
  match status with Some s => (200 <=? s) && (s <? 300) | None => false end.

Definition dialect_string (d : ApiDialect) : string :=
  match d with
  | anthropic_messages => "anthropic-messages"
  | openai_chat => "openai-chat"
  | openai_responses => "openai-responses"
  | openai_embeddings => "openai-embeddings"
  | bedrock_invoke => "bedrock-invoke"
  | bedrock_converse => "bedrock-converse"
  end.

Definition dialect_is_openai (d : ApiDialect) : bool :=
  startsWith (dialect_string d) "openai-".

Definition normalizeUsage (dialect : ApiDialect) (raw : RawUsage) : NormalizedUsage :=
  let cacheRead := Z.max (raw_cacheReadTokens raw ?? 0) (raw_cachedTokens raw ?? 0) in
  let cacheWrite := raw_cacheWriteTokens raw ?? 0 in
  let split5m := raw_cacheWrite5mTokens raw ?? 0 in
  let split1h := raw_cacheWrite1hTokens raw ?? 0 in
  let promptHoldsCache := dialect_is_openai dialect in
  let input := raw_inputTokens raw ?? 0 in
  {| nu_uncachedInputTokens :=
       if promptHoldsCache then Z.max 0 (input - cacheRead - cacheWrite) else input;
     nu_outputTokens := raw_outputTokens raw ?? 0;
     nu_cacheReadTokens := cacheRead;
     nu_cacheWrite5mTokens := split5m;
     nu_cacheWrite1hTokens := split1h;
     nu_cacheWriteUnsplitTokens := Z.max 0 (cacheWrite - split5m - split1h);
     nu_webSearches := Z.max (raw_webSearchRequests raw ?? 0) (raw_webSearchCalls raw ?? 0);
     nu_bobCredits := raw_credits raw;
     nu_serviceTier := raw_serviceTier raw;
     nu_speed := raw_speed raw;
     nu_inferenceGeo := raw_inferenceGeo raw |}.

(** [decodeURIComponent] on the strings of the model (code units up to 255):
    an escaped byte below 128 is that character, an escaped two-byte sequence
    of the range U+0080..U+00FF its code point, and [None] is the URIError.
    Longer sequences decode outside the string model and answer [None]. *)
Definition hex_val (c : ascii) : option Z :=
  if is_digit c then Some (chr_code c - 48)
  else if between 97 102 c then Some (chr_code c - 87)
  else if between 65 70 c then Some (chr_code c - 55)
  else None.

Definition hex_byte (h l : ascii) : option Z :=
  match hex_val h, hex_val l with Some a, Some b => Some (16 * a + b) | _, _ => None end.

Definition code_chr (z : Z) : ascii := ascii_of_N (Z.to_N z).

Fixpoint decodeURIComponent (s : string) : option string :=
  match s with
  | EmptyString => Some ""%string
  | String c rest =>
      if negb (Ascii.eqb c "%") then String c <$> decodeURIComponent rest
      else match rest with
           | String h (String l tail) =>
               match hex_byte h l with
               | None => None
               | Some b =>
                   if b <? 128 then String (code_chr b) <$> decodeURIComponent tail
                   else if (b =? 194) || (b =? 195) then
                     match tail with
                     | String p (String h2 (String l2 tail2)) =>
                         if Ascii.eqb p "%" then
                           match hex_byte h2 l2 with
                           | Some b2 =>
                               if (128 <=? b2) && (b2 <? 192)
                               then String (code_chr ((b - 194) * 64 + b2)) <$> decodeURIComponent tail2
                               else None
                           | None => None
                           end
                         else None
                     | _ => None
                     end
                   else None
               end
           | _ => None
           end
  end.

(** The characters up to the next slash, and what follows it. *)
Fixpoint until_slash (s : string) : option (string * string) :=
  match s with
  | EmptyString => None
  | String c s' =>
      if Ascii.eqb c "/" then Some (""%string, s')
      else match until_slash s' with
           | Some (seg, rest) => Some (String c seg, rest)
           | None => None
           end
  end.

(** [/\/model\/([^/]+)\/(?:invoke|converse)/.exec(path)?.[1]] *)
Definition model_segment_here (path : string) : option string :=
  if startsWith path "/model/" then
    match until_slash (str_drop 7 path) with
    | Some (seg, rest) =>
        if truthy seg && (startsWith rest "invoke" || startsWith rest "converse")
        then Some seg else None
    | None => None
    end
  else None.

Fixpoint model_segment (path : string) : option string :=
  match model_segment_here path with
  | Some seg => Some seg
  | None => match path with EmptyString => None | String _ path' => model_segment path' end
  end.

Definition bedrockPathModel (path : string) : option string :=
  match model_segment path with
  | None => None
  | Some id => Some (decodeURIComponent id ?? id)
  end.

(** ** [measureCall] *)
Definition set_outputTokens (u : NormalizedUsage) (n : Z) : NormalizedUsage :=
  mkUsage (nu_uncachedInputTokens u) n (nu_cacheReadTokens u) (nu_cacheWrite5mTokens u)
    (nu_cacheWrite1hTokens u) (nu_cacheWriteUnsplitTokens u) (nu_webSearches u)
    (nu_bobCredits u) (nu_serviceTier u) (nu_speed u) (nu_inferenceGeo u).

Definition is_none {A} (o : option A) : bool := match o with None => true | Some _ => false end.

Definition outputShort (record : CallRecord) : bool :=
  rec_final record
  && negb (match rec_dialect record with openai_embeddings => true | _ => false end)
  && (negb (rec_complete record) || is_none (raw_outputTokens (rec_usage record))).

Definition meteredUsage (record : CallRecord) : NormalizedUsage :=
  let usage := normalizeUsage (rec_dialect record) (rec_usage record) in
  if outputShort record
  then set_outputTokens usage
         (Z.max (nu_outputTokens usage)
            (Math_ceil (dbl_of_frac (rec_replyBytes record ?? 0) REPLY_BYTES_PER_TOKEN)))
  else usage.

Definition reasons (l : list (bool * EstimateReason)) : list EstimateReason :=
  flat_map (fun p => if fst p : bool then [snd p] else []) l.

Section Measure.
Context `{!Locale}.

Definition measureCall (record : CallRecord) (book : PriceBook) : CallMeasure :=
  let reported := hasUsage (rec_usage record) in
  if rec_refusedByGate record then cm_forget
  else if negb reported && negb (rec_final record) then cm_skip
  else if negb reported && negb (is_none (rec_status record)) && negb (succeeded (rec_status record))
  then cm_forget
  else
    let '(provider, ambiguous) := payingProvider (rec_providers record) in
    let short := outputShort record in
    let metered := meteredUsage record in
    let price := lookupPrice book
      {| q_provider := provider;
         q_replyModel := rec_model record;
         q_pathModel := bedrockPathModel (rec_path record) |} in
    let cost := callCostMicros price metered in
    let estimateReasons := reasons
      [(short && negb (rec_complete record), stream_cut);
       (short && rec_complete record, output_uncounted);
       (ambiguous, providers_ambiguous);
       (bool_decide (price_source price = ps_estimate), model_unpriced);
       (rec_final record && negb reported, usage_missing);
       (rec_final record && reported && is_none cost, cost_unknown)] in
    cm_measured {|
      ms_provider := provider;
      ms_unit := unitOf provider;
      ms_model := rec_model record ?? UNKNOWN_MODEL;
      ms_priceSource := price_source price;
      ms_needsReferenceCost := rec_final record && (is_none cost || negb reported);
      ms_estimateReasons := estimateReasons;
      ms_amounts := {|
        costMicros := cost ?? 0;
        uncachedInputTokens := nu_uncachedInputTokens metered;
        outputTokens := nu_outputTokens metered;
        cacheReadTokens := nu_cacheReadTokens metered;
        cacheWrite5mTokens := nu_cacheWrite5mTokens metered;
        cacheWrite1hTokens := nu_cacheWrite1hTokens metered + nu_cacheWriteUnsplitTokens metered;
        webSearches := nu_webSearches metered;
        calls := 1;
        estimatedCalls := match estimateReasons with [] => 0 | _ => 1 end;
        durationMs := rec_durationMs record |} |}.
End Measure.

(** ** metering.ts *)
Definition METERING_NOTICE_MS : Z := 30 * 24 * 60 * 60 * 1000.
Definition meteringNoticeEnd (startedAt : Z) : Z := startedAt + METERING_NOTICE_MS.

Record SpendMeteringView := mkMeteringView {
  mv_startedAt : string;
  mv_startDay : string;
  mv_noticeUntil : option string;
  mv_earlierEstimatesUntil : option string;
}.

Definition meteringView (startedAt now : Z) (ownsAgentFromBeforeStart telemetryStoreOn : bool)
  : SpendMeteringView :=
  let end_ := meteringNoticeEnd startedAt in
  let open := if now <? end_ then Some (toISOString end_) else None in
  {| mv_startedAt := toISOString startedAt;
     mv_startDay := utcDay startedAt;
     mv_noticeUntil := if ownsAgentFromBeforeStart then open else None;
     mv_earlierEstimatesUntil := if telemetryStoreOn then open else None |}.

(** ** Facts *)
Definition EMPTY_RAW : RawUsage :=
  mkRaw None None None None None None None None None None None None None.

Example bedrock_model_decoded :
  bedrockPathModel "/model/us.anthropic.claude-v1%3A0/invoke-with-response-stream"
  = Some "us.anthropic.claude-v1:0"%string.
Proof. reflexivity. Qed.

Example bedrock_model_undecodable :
  bedrockPathModel "/x/model/a%zz/converse" = Some "a%zz"%string.
Proof. reflexivity. Qed.

(** Raw counts that are counts. *)
Record raw_nonneg (r : RawUsage) : Prop := {
  rn_in : 0 <= raw_inputTokens r ?? 0;
  rn_out : 0 <= raw_outputTokens r ?? 0;
  rn_cr : 0 <= raw_cacheReadTokens r ?? 0;
  rn_cw : 0 <= raw_cacheWriteTokens r ?? 0;
  rn_5m : 0 <= raw_cacheWrite5mTokens r ?? 0;
  rn_1h : 0 <= raw_cacheWrite1hTokens r ?? 0;
  rn_ct : 0 <= raw_cachedTokens r ?? 0;
  rn_ws : 0 <= raw_webSearchRequests r ?? 0;
  rn_wc : 0 <= raw_webSearchCalls r ?? 0;
}.

Lemma normalizeUsage_nonneg d r : raw_nonneg r -> usage_nonneg (normalizeUsage d r).
Proof.
  intros []. unfold normalizeUsage. split; simpl; try lia. case_match; lia.
Qed.

Lemma meteredUsage_other record :
  let u := normalizeUsage (rec_dialect record) (rec_usage record) in
  let m := meteredUsage record in
  promptTokens m = promptTokens u /\ nu_webSearches m = nu_webSearches u /\
  nu_outputTokens u <= nu_outputTokens m.
Proof. unfold meteredUsage. case_match; unfold promptTokens; simpl; lia. Qed.

(** Prompt tokens are counted once.  For every dialect, when the cache
    counts a reply names are inside what the API says they are inside of
    (OpenAI: the prompt; the 5-minute and 1-hour split: the written total),
    the normalized prompt is exactly the tokens of the call: OpenAI's prompt
    as reported, and for the others the input plus the cache reads and
    writes.  No token is counted twice and none is dropped. *)
Theorem prompt_counted_once d r :
  raw_nonneg r ->
  (raw_cacheWrite5mTokens r ?? 0) + (raw_cacheWrite1hTokens r ?? 0) <= (raw_cacheWriteTokens r ?? 0) ->
  let cacheRead := Z.max (raw_cacheReadTokens r ?? 0) (raw_cachedTokens r ?? 0) in
  let cacheWrite := raw_cacheWriteTokens r ?? 0 in
  let input := raw_inputTokens r ?? 0 in
  promptTokens (normalizeUsage d r) =
    if bool_decide (d ∈ [openai_chat; openai_responses; openai_embeddings])
    then Z.max input (cacheRead + cacheWrite)
    else input + cacheRead + cacheWrite.
Proof.
  intros [] Hs. unfold promptTokens, normalizeUsage; simpl. destruct d; simpl; lia.
Qed.

Lemma prompt_counted_once_witness :
  let r := mkRaw (Some 100) (Some 7) None (Some 30) (Some 10) None (Some 40) None None None None None None in
  promptTokens (normalizeUsage openai_chat r) = 100 /\
  promptTokens (normalizeUsage anthropic_messages r) = 170.
Proof.
  intros r. split; apply prompt_counted_once; vm_compute; try discriminate; split; discriminate.
Defined.

Section MeasureFacts.
Context `{!Locale}.
Implicit Types (record : CallRecord) (book : PriceBook).

(** Which records count.  A record is dropped without trace exactly
    when the platform's own gate refused the call, or it is the last word on
    a call that reported no usage and failed; it is passed over exactly when
    it is an unfinished one with nothing to report; every other record
    measures exactly one call, so no successful call goes uncounted. *)
Theorem measureCall_classifies record book :
  let reported := hasUsage (rec_usage record) in
  let failed := match rec_status record with Some s => ~ (200 <= s < 300) | None => False end in
  (measureCall record book = cm_forget <->
     rec_refusedByGate record = true \/
     (reported = false /\ rec_final record = true /\ failed)) /\
  (measureCall record book = cm_skip <->
     rec_refusedByGate record = false /\ reported = false /\ rec_final record = false) /\
  (forall m, measureCall record book = cm_measured m ->
     calls (ms_amounts m) = 1 /\ ms_provider m = fst (payingProvider (rec_providers record)) /\
     ms_unit m = unitOf (ms_provider m) /\ durationMs (ms_amounts m) = rec_durationMs record).
Proof.
  simpl. unfold measureCall.
  destruct (rec_refusedByGate record); [split_and!; intros; simplify_eq; naive_solver|].
  destruct (hasUsage (rec_usage record)), (rec_final record); simpl;
    destruct (payingProvider (rec_providers record)) as [p a];
    try (split_and!; intros; simplify_eq/=; naive_solver).
  destruct (rec_status record) as [s|]; simpl;
    [destruct ((200 <=? s) && (s <? 300)) eqn:E; simpl|];
    (split_and!; [|naive_solver|intros; simplify_eq/=; naive_solver]).
  - split; [done|]. intros [?|(_ & _ & Hn)]; [done|]. lia.
  - split; [|done]. intros _. right. split_and!; [done|done|lia].
  - naive_solver.
Qed.

(** A cut stream is not cheap.  When the last record of a call (of any
    dialect with output) came from an incomplete reply, or one that never
    named its output tokens, the metered output is at least one token per
    three reply bytes and at least the output reported so far, and the call
    is marked an estimate. *)
Theorem cut_stream_counts_its_bytes record book m :
  measureCall record book = cm_measured m ->
  rec_final record = true -> rec_dialect record <> openai_embeddings ->
  rec_complete record = false \/ raw_outputTokens (rec_usage record) = None ->
  0 <= rec_replyBytes record ?? 0 < 2 ^ 53 ->
  rec_replyBytes record ?? 0 <= 3 * outputTokens (ms_amounts m) /\
  raw_outputTokens (rec_usage record) ?? 0 <= outputTokens (ms_amounts m) /\
  estimatedCalls (ms_amounts m) = 1.
Proof.
  intros Hm Hf Hd Hc Hb.
  assert (Hs : outputShort record = true).
  { unfold outputShort. rewrite Hf. destruct (rec_dialect record); try done; simpl;
      destruct Hc as [-> | ->]; simpl; auto using orb_true_r. }
  assert (Hout : outputTokens (ms_amounts m) = nu_outputTokens (meteredUsage record)
                 /\ estimatedCalls (ms_amounts m) = 1).
  { revert Hm. unfold measureCall. rewrite Hs.
    destruct (rec_refusedByGate record); [done|]. do 2 (case_match; [done|]).
    destruct (payingProvider (rec_providers record)) as [p a].
    intros [= <-]. split; [done|]. by destruct (rec_complete record). }
  destruct Hout as [-> ->]. unfold meteredUsage. rewrite Hs. simpl.
  rewrite ceil_third_exact by done. unfold Math_ceil_frac, REPLY_BYTES_PER_TOKEN.
  pose proof (Z.div_mod (- (rec_replyBytes record ?? 0)) 3 ltac:(lia)).
  pose proof (Z.mod_pos_bound (- (rec_replyBytes record ?? 0)) 3 ltac:(lia)). lia.
Qed.
End MeasureFacts.

Definition cut_record : CallRecord :=
  mkRecord "c1" "a1" "a1" None ["anthropic"%string] None None "/v1/messages" anthropic_messages
    (Some "m"%string) (mkRaw (Some 5) (Some 1) None None None None None None None None None None None)
    (Some 200) (Some 100) false true false 0 10.

Lemma cut_stream_counts_its_bytes_witness :
  exists m, @measureCall code_unit_locale cut_record (mkBook [] []) = cm_measured m /\
    100 <= 3 * outputTokens (ms_amounts m) /\ 1 <= outputTokens (ms_amounts m) /\
    estimatedCalls (ms_amounts m) = 1.
Proof.
  destruct (@measureCall code_unit_locale cut_record (mkBook [] [])) as [| |m] eqn:E;
    [vm_compute in E; discriminate..|].
  exists m. split; [reflexivity|].
  apply (@cut_stream_counts_its_bytes code_unit_locale cut_record (mkBook [] []) m E);
    [reflexivity|discriminate|left; reflexivity|vm_compute; split; [discriminate|reflexivity]].
Defined.
