(* ===== verification/SpendStore.v ===== *)
(** * Spend store: the Redis call states and day counters, and the ledger tables

    [spend/infrastructure/call-states.ts], [day-counters.ts] and the writes and
    totals of [spend-ledger.ts].  Each operation is one atomic step on the
    store: a Lua script, a MULTI/EXEC block, one command or one SQL statement.
    A call's Redis hash is kept by field group (meta, row, amounts), because every
    script writes a group as a whole; the expiry of a hash is a step of its
    own. *)

From stdpp Require Import base gmap strings list fin_maps fin_sets.
From Stdlib Require Import ZArith Lia Ascii.
From S2P Require Import Prelude JsString JsDate JsNumber SpendLedger SpendLimits SpendLimitStore.

Local Open Scope Z_scope.

(** ** Data *)

(** [CallMeta] *)
Record CallMeta := mkMeta {
  mt_agentId : string;
  mt_payer : string;
  mt_ownerSub : string;
  mt_connectionId : option string;
  mt_providers : list string;
  mt_sessionId : option string;
  mt_routerCallId : option string;
  mt_startedAt : Z;
}.

Record AppliedCall := mkApplied {
  ap_row : SpendRow;
  ap_previous : CallAmounts;
  ap_previousFinal : bool;
}.

Record CallState := mkState {
  cs_meta : option CallMeta;
  cs_row : option SpendRow;
  cs_amounts : CallAmounts;
  cs_final : bool;
}.

(** The m_* fields, as the strings [started] writes. *)
Record MetaFields := mkMetaFields {
  m_agent : string;
  m_payer : string;
  m_owner : string;
  m_conn : string;
  m_providers : string;
  m_session : string;
  m_router_call : string;
  m_started : Z;
}.

(** The hash at [spend:call:<id>]; an absent group is [None]. *)
Record CallHash := mkHash {
  h_meta : option MetaFields;
  h_row : option SpendRow;
  h_amounts : option CallAmounts;
  h_final : option bool;
  h_seen : option Z;
}.

Definition emptyHash : CallHash := mkHash None None None None None.

(** The primary key of [spend_daily]. *)
Definition DailyKey : Type := string * string * string * string * string * string.

Definition rowKey (row : SpendRow) : DailyKey :=
  (row_day row, row_payer row, row_connectionId row, row_model row, row_sessionId row,
   row_callingAgentId row).

Definition dk_day (k : DailyKey) : string := k.1.1.1.1.1.
Definition dk_payer (k : DailyKey) : string := k.1.1.1.1.2.
Definition dk_connection (k : DailyKey) : string := k.1.1.1.2.
Definition dk_model (k : DailyKey) : string := k.1.1.2.
Definition dk_session (k : DailyKey) : string := k.1.2.
Definition dk_calling (k : DailyKey) : string := k.2.

(** The other columns of [spend_daily], less [updated_at]. *)
Record DailyRow := mkDaily {
  d_owner : string;
  d_provider : string;
  d_unit : SpendUnit;
  d_amounts : CallAmounts;
  d_refused : Z;
  d_max : Z;
}.

(** [SettledCall]: a row of [spend_calls]; its key is the agent and the call. *)
Record SettledCall := mkSettled {
  sc_callId : string;
  sc_routerCallId : string;
  sc_callingAgentId : string;
  sc_ownerSub : string;
  sc_payer : string;
  sc_sessionId : string;
  sc_stampedSessionId : string;
  sc_connectionId : string;
  sc_providerTemplate : string;
  sc_model : string;
  sc_startedAt : Z;
  sc_unit : SpendUnit;
  sc_costMicros : Z;
  sc_uncachedInputTokens : Z;
  sc_outputTokens : Z;
  sc_cacheReadTokens : Z;
  sc_cacheWrite5mTokens : Z;
  sc_cacheWrite1hTokens : Z;
  sc_webSearches : Z;
  sc_durationMs : Z;
  sc_estimated : bool;
}.

Record Store := mkStore {
  s_calls : gmap string CallHash;
  s_inflight : gmap string Z;
  s_agents : gmap string (gset string);
  s_counters : gmap string Z;
  s_daily : gmap DailyKey DailyRow;
  s_settled : gmap (string * string) SettledCall;
  s_tables : LimitTables;
  s_now : Z;
}.

Definition emptyStore (now : Z) : Store := mkStore ∅ ∅ ∅ ∅ ∅ ∅ emptyTables now.

Definition with_calls (c : gmap string CallHash) (s : Store) : Store :=
  mkStore c (s_inflight s) (s_agents s) (s_counters s) (s_daily s) (s_settled s) (s_tables s) (s_now s).
Definition with_inflight (z : gmap string Z) (s : Store) : Store :=
  mkStore (s_calls s) z (s_agents s) (s_counters s) (s_daily s) (s_settled s) (s_tables s) (s_now s).
Definition with_agents (a : gmap string (gset string)) (s : Store) : Store :=
  mkStore (s_calls s) (s_inflight s) a (s_counters s) (s_daily s) (s_settled s) (s_tables s) (s_now s).
Definition with_counters (c : gmap string Z) (s : Store) : Store :=
  mkStore (s_calls s) (s_inflight s) (s_agents s) c (s_daily s) (s_settled s) (s_tables s) (s_now s).
Definition with_daily (d : gmap DailyKey DailyRow) (s : Store) : Store :=
  mkStore (s_calls s) (s_inflight s) (s_agents s) (s_counters s) d (s_settled s) (s_tables s) (s_now s).
Definition with_settled (c : gmap (string * string) SettledCall) (s : Store) : Store :=
  mkStore (s_calls s) (s_inflight s) (s_agents s) (s_counters s) (s_daily s) c (s_tables s) (s_now s).
Definition with_tables (t : LimitTables) (s : Store) : Store :=
  mkStore (s_calls s) (s_inflight s) (s_agents s) (s_counters s) (s_daily s) (s_settled s) t (s_now s).

Definition hash_of (s : Store) (callId : string) : CallHash := s_calls s !! callId ?? emptyHash.
Definition put_hash (callId : string) (h : CallHash) (s : Store) : Store :=
  with_calls (<[callId := h]> (s_calls s)) s.

Definition sadd (agent callId : string) (a : gmap string (gset string)) : gmap string (gset string) :=
  <[agent := {[callId]} ∪ (a !! agent ?? ∅)]> a.
Definition srem (agent callId : string) (a : gmap string (gset string)) : gmap string (gset string) :=
  alter (fun m => m ∖ {[callId]}) agent a.

(** ** call-states.ts *)
Definition OPEN_CALL_SILENCE_MS : Z := 10000.

Definition meta_fields (meta : CallMeta) : MetaFields := {|
  m_agent := mt_agentId meta;
  m_payer := mt_payer meta;
  m_owner := mt_ownerSub meta;
  m_conn := mt_connectionId meta ?? ""%string;
  m_providers := str_join "," (mt_providers meta);
  m_session := mt_sessionId meta ?? ""%string;
  m_router_call := mt_routerCallId meta ?? ""%string;
  m_started := mt_startedAt meta |}.

Definition call_started (callId : string) (meta : CallMeta) (s : Store) : Store :=
  let h := hash_of s callId in
  let s := if truthy (mt_agentId meta)
           then with_agents (sadd (mt_agentId meta) callId (s_agents s)) s else s in
  with_inflight (<[callId := mt_startedAt meta]> (s_inflight s))
    (put_hash callId
       (mkHash (Some (meta_fields meta)) (h_row h) (h_amounts h) (h_final h) (h_seen h)) s).

(** APPLY_SCRIPT: the first row written stays the call's row. *)
Definition call_apply (callId : string) (row : SpendRow) (amounts : CallAmounts) (final : bool)
    (s : Store) : Store * option AppliedCall :=
  let h := hash_of s callId in
  let previous_final := h_final h ?? false in
  if previous_final && negb final then (s, None)
  else
    let row' := h_row h ?? row in
    (put_hash callId
       (mkHash (h_meta h) (Some row') (Some amounts)
          (if final then Some true else h_final h) (Some (s_now s))) s,
     Some (mkApplied row' (h_amounts h ?? zeroAmounts) previous_final)).

Definition call_restore (callId : string) (applied : AppliedCall) (s : Store) : Store :=
  let h := hash_of s callId in
  put_hash callId
    (mkHash (h_meta h) (h_row h) (Some (ap_previous applied)) (Some (ap_previousFinal applied)) (h_seen h)) s.

Definition read_meta (m : MetaFields) : option CallMeta :=
  if truthy (m_payer m) then
    Some {| mt_agentId := m_agent m;
            mt_payer := m_payer m;
            mt_ownerSub := m_owner m;
            mt_connectionId := or_null (m_conn m);
            mt_providers := List.filter truthy (str_split "," (m_providers m));
            mt_sessionId := or_null (m_session m);
            mt_routerCallId := or_null (m_router_call m);
            mt_startedAt := m_started m |}
  else None.

Definition call_read (callId : string) (s : Store) : option CallState :=
  match s_calls s !! callId with
  | None => None
  | Some h => Some
      {| cs_meta := h_meta h ≫= read_meta;
         cs_row := h_row h ≫= (fun r => if truthy (row_day r) then Some r else None);
         cs_amounts := h_amounts h ?? zeroAmounts;
         cs_final := h_final h ?? false |}
  end.

(** [ZRANGEBYSCORE 0 startedBefore LIMIT 0 limit]: by score, then by member. *)
Definition score_cmp (a b : string * Z) : Z :=
  cmp_or (snd a - snd b) (code_unit_compare (fst a) (fst b)).

Definition call_overdue (startedBefore : Z) (limit : nat) (s : Store) : list string :=
  take limit (map fst (js_sort score_cmp
    (List.filter (fun p => (0 <=? snd p) && (snd p <=? startedBefore)) (map_to_list (s_inflight s))))).

Definition call_release (callId : string) (agentId : option string) (s : Store) : Store * bool :=
  let was := match s_inflight s !! callId with Some _ => true | None => false end in
  let s := with_inflight (delete callId (s_inflight s)) s in
  (match agentId with
   | Some agent => if truthy agent then with_agents (srem agent callId (s_agents s)) s else s
   | None => s
   end, was).

(** [reclaim] is two commands: read the start, then put the call back. *)
Definition call_startedAt (callId : string) (s : Store) : option Z :=
  m_started <$> h_meta (hash_of s callId).
Definition call_zadd (callId : string) (score : Z) (s : Store) : Store :=
  with_inflight (<[callId := score]> (s_inflight s)) s.

Definition call_forget (callId : string) (agentId : option string) (s : Store) : Store :=
  let s := fst (call_release callId agentId s) in
  with_calls (delete callId (s_calls s)) s.

(** REBOOK_SCRIPT *)
Definition set_session (row : SpendRow) (sessionId : string) : SpendRow :=
  mkRow (row_day row) (row_payer row) (row_ownerSub row) (row_connectionId row) (row_model row)
    sessionId (row_callingAgentId row) (row_provider row) (row_unit row).

Definition call_rebook (callId sessionId : string) (s : Store) : Store :=
  match s_calls s !! callId with
  | Some h =>
      match h_row h with
      | Some row =>
          if String.eqb (row_sessionId row) "" then
            put_hash callId
              (mkHash (h_meta h) (Some (set_session row sessionId)) (h_amounts h) (h_final h) (h_seen h)) s
          else s
      | None => s
      end
  | None => s
  end.

(** HEARD_SCRIPT *)
Definition call_heard (callId : string) (s : Store) : Store :=
  match s_calls s !! callId with
  | Some h =>
      put_hash callId (mkHash (h_meta h) (h_row h) (h_amounts h) (h_final h) (Some (s_now s))) s
  | None => s
  end.

(** OPEN_COUNT_SCRIPT *)
Definition last_seen (s : Store) (callId : string) : option Z :=
  match s_calls s !! callId with
  | Some h => match h_seen h with Some t => Some t | None => m_started <$> h_meta h end
  | None => None
  end.

Definition is_open (s : Store) (callId : string) : bool :=
  match s_inflight s !! callId with
  | Some _ => match last_seen s callId with
              | Some t => s_now s - OPEN_CALL_SILENCE_MS <=? t
              | None => false
              end
  | None => false
  end.

Definition call_openCount (agentId : string) (s : Store) : Store * Z :=
  let members := s_agents s !! agentId ?? ∅ in
  (with_agents (alter (filter (fun c => is_Some (s_inflight s !! c))) agentId (s_agents s)) s,
   Z.of_nat (length (List.filter (is_open s) (elements members)))).

(** The expiry of a call's hash. *)
Definition call_expire (callId : string) (s : Store) : Store :=
  with_calls (delete callId (s_calls s)) s.

(** ** day-counters.ts *)
Definition counterKey (counter : DayCounter) : string :=
  match counter with
  | dc_agent day agentId unit => "spend:" ++ day ++ ":agent:" ++ agentId ++ ":" ++ unit_string unit
  | dc_owner day ownerSub unit => "spend:" ++ day ++ ":owner:" ++ ownerSub ++ ":" ++ unit_string unit
  | dc_connection day agentId connectionId => "spend:" ++ day ++ ":conn:" ++ agentId ++ ":" ++ connectionId
  | dc_owner_connection day ownerSub connectionId =>
      "spend:" ++ day ++ ":ownerconn:" ++ ownerSub ++ ":" ++ connectionId
  end%string.

Definition counter_read (counter : DayCounter) (s : Store) : option Z :=
  s_counters s !! counterKey counter.

Definition counter_addIfPresent (counter : DayCounter) (deltaMicros : Z) (s : Store) : Store * bool :=
  match s_counters s !! counterKey counter with
  | None => (s, false)
  | Some v => (with_counters (<[counterKey counter := v + deltaMicros]> (s_counters s)) s, true)
  end.

Definition counter_setIfMissing (counter : DayCounter) (totalMicros : Z) (s : Store) : Store :=
  match s_counters s !! counterKey counter with
  | None => with_counters (<[counterKey counter := totalMicros]> (s_counters s)) s
  | Some _ => s
  end.

Definition counter_drop (counter : DayCounter) (s : Store) : Store :=
  with_counters (delete (counterKey counter) (s_counters s)) s.

(** ** spend-ledger.ts *)
Definition ledger_add (row : SpendRow) (delta : CallAmounts) (callCostMicros : Z) (s : Store) : Store :=
  let d := match s_daily s !! rowKey row with
           | Some d => mkDaily (d_owner d) (d_provider d) (d_unit d) (amountsAdd (d_amounts d) delta)
                         (d_refused d) (Z.max (d_max d) callCostMicros)
           | None => mkDaily (row_ownerSub row) (row_provider row) (row_unit row) delta 0 callCostMicros
           end in
  with_daily (<[rowKey row := d]> (s_daily s)) s.

Definition ledger_addRefusal (row : SpendRow) (s : Store) : Store :=
  let d := match s_daily s !! rowKey row with
           | Some d => mkDaily (d_owner d) (d_provider d) (d_unit d) (d_amounts d) (d_refused d + 1) (d_max d)
           | None => mkDaily (row_ownerSub row) (row_provider row) (row_unit row) zeroAmounts 1 0
           end in
  with_daily (<[rowKey row := d]> (s_daily s)) s.

(** The WHERE clause of [total]. *)
Definition counts_in (counter : DayCounter) (k : DailyKey) (d : DailyRow) : bool :=
  match counter with
  | dc_agent day agentId unit =>
      String.eqb (dk_day k) day && String.eqb (dk_payer k) agentId && bool_decide (d_unit d = unit)
  | dc_owner day ownerSub unit =>
      String.eqb (dk_day k) day && String.eqb (d_owner d) ownerSub && bool_decide (d_unit d = unit)
  | dc_connection day agentId connectionId =>
      String.eqb (dk_day k) day && String.eqb (dk_payer k) agentId && String.eqb (dk_connection k) connectionId
  | dc_owner_connection day ownerSub connectionId =>
      String.eqb (dk_day k) day && String.eqb (d_owner d) ownerSub && String.eqb (dk_connection k) connectionId
  end.

Definition ledger_total (counter : DayCounter) (s : Store) : Z :=
  sumZ (fun p => if counts_in counter (fst p) (snd p) then costMicros (d_amounts (snd p)) else 0)
    (map_to_list (s_daily s)).

Definition str_leb (a b : string) : bool := negb (str_ltb b a).

(** The WHERE clause of [highestCall]. *)
Definition in_reference (payer connectionId from to : string) (p : DailyKey * DailyRow) : bool :=
  String.eqb (dk_payer (fst p)) payer && String.eqb (dk_connection (fst p)) connectionId
  && str_leb from (dk_day (fst p)) && str_leb (dk_day (fst p)) to.

(** [max(max_call_cost_micros)] over the matching rows, null when there is none. *)
Definition ledger_highestCall (payer connectionId from to : string) (s : Store) : option Z :=
  match map (fun p => d_max (snd p))
          (List.filter (in_reference payer connectionId from to) (map_to_list (s_daily s))) with
  | [] => None
  | m :: ms => Some (fold_left Z.max ms m)
  end.

(** The upsert of [putCall] keeps a Session already booked. *)
Definition ledger_putCall (call : SettledCall) (s : Store) : Store :=
  let key := (sc_callingAgentId call, sc_callId call) in
  let session := match s_settled s !! key with
                 | Some old => if truthy (sc_sessionId old) then sc_sessionId old else sc_sessionId call
                 | None => sc_sessionId call
                 end in
  with_settled (<[key := mkSettled (sc_callId call) (sc_routerCallId call) (sc_callingAgentId call)
    (sc_ownerSub call) (sc_payer call) session (sc_stampedSessionId call) (sc_connectionId call)
    (sc_providerTemplate call) (sc_model call) (sc_startedAt call) (sc_unit call) (sc_costMicros call)
    (sc_uncachedInputTokens call) (sc_outputTokens call) (sc_cacheReadTokens call)
    (sc_cacheWrite5mTokens call) (sc_cacheWrite1hTokens call) (sc_webSearches call)
    (sc_durationMs call) (sc_estimated call)]> (s_settled s)) s.

Definition ledger_deleteCallsBefore (before : Z) (s : Store) : Store * Z :=
  let keep := filter (fun p => before <= sc_startedAt (snd p)) (s_settled s) in
  (with_settled keep s, Z.of_nat (size (s_settled s)) - Z.of_nat (size keep)).
