(* ===== verification/SpendIngest.v ===== *)
(** * Spend ingest: counting gateway records

    [spend/services/spend-ingest.ts]: the handlers that turn gateway records
    into ledger rows, day counters and call states, and the sweep that settles
    calls no record came for.  Logging is left out; [emit] appends to the
    world's event list, where closing a limit's pending questions (a port of
    the approvals) is noted too.  Every store access is one step of the [IO] monad and
    may fail before or after its effect.  The two ports the sources only call,
    the agents' owners and the Session directory, are parameters. *)

From stdpp Require Import base gmap strings list fin_maps.
From Stdlib Require Import ZArith Lia.
From S2P Require Import Prelude JsString JsDate JsNumber SpendLedger SpendLimits SpendPricing SpendMetering SpendStore.

Local Open Scope Z_scope.

(** ** The world *)

(** The work a spend stop is told about ([SpendStoppedWork] of events.ts). *)
Inductive ChatChannel := ch_slack | ch_telegram.
Inductive StoppedWork :=
| sw_schedule
| sw_ambient (channel : ChatChannel)
| sw_mention (channel : ChatChannel)
| sw_call (agentId : string) (sessionId : option string).

Inductive SpendEvent :=
| GatewayCallEnded (payer : string) (providers : list string) (status : option Z)
    (refusedByGate : bool) (endedAt : Z) (callingAgentId : string) (sessionId : option string)
| SpendWorkStopped (ownerSub payer day : string) (stop : SpendStop) (work : StoppedWork)
| SpendLimitsChanged (ownerSub : string)
| QuestionsClosed (ownerSub limitId : string).

Record World := mkWorld { w_store : Store; w_events : list SpendEvent }.

Definition set_store (w : World) (s : Store) : World := mkWorld s (w_events w).

(** One step on the store: an update, a write, a read. *)
Definition upd {A} (f : Store -> Store * A) : IO World A :=
  io_op (fun w => let '(s, a) := f (w_store w) in (set_store w s, a)).
Definition wr (f : Store -> Store) : IO World unit := upd (fun s => (f s, tt)).
Definition rd {A} (f : Store -> A) : IO World A := upd (fun s => (s, f s)).
Definition emit (e : SpendEvent) : IO World unit :=
  io_tell (fun w => mkWorld (w_store w) (w_events w ++ [e])).

(** [Date.now()], in milliseconds. *)
Definition Date_now : IO World Z := fun w => (w, Ok (s_now (w_store (io_st w)))).


Definition UNRECORDED_AFTER_MS : Z := 60 * 60 * 1000.
Definition UNRECORDED_BATCH : nat := 500.
Definition REFERENCE_DAYS : Z := 7.

(** What [settle] needs of the call beside its row. *)
Record SettledAt := mkSettledAt {
  sa_startedAt : Z;
  sa_routerCallId : option string;
  sa_sessionId : option string;
}.

(** ** The handlers *)

(** [countDay]: one counter. *)
Definition countOne (deltaMicros : Z) (counter : DayCounter) : IO World unit :=
  io_catch
    (let* added := upd (counter_addIfPresent counter deltaMicros) in
     if added : bool then io_ret tt
     else let* total := rd (ledger_total counter) in
          wr (counter_setIfMissing counter total))
    (swallow (wr (counter_drop counter))).

Definition countDay (row : SpendRow) (deltaMicros : Z) : IO World unit :=
  io_iter (countOne deltaMicros) (dayCountersOf row).

Definition settledCall (callId : string) (row : SpendRow) (amounts : CallAmounts) (call : SettledAt)
  : SettledCall := {|
  sc_callId := callId;
  sc_routerCallId := sa_routerCallId call ?? ""%string;
  sc_callingAgentId := row_callingAgentId row;
  sc_ownerSub := row_ownerSub row;
  sc_payer := row_payer row;
  sc_sessionId := row_sessionId row;
  sc_stampedSessionId :=
    if String.eqb (row_sessionId row) NO_SESSION then sa_sessionId call ?? ""%string else "";
  sc_connectionId := row_connectionId row;
  sc_providerTemplate := row_provider row;
  sc_model := row_model row;
  sc_startedAt := sa_startedAt call;
  sc_unit := row_unit row;
  sc_costMicros := costMicros amounts;
  sc_uncachedInputTokens := uncachedInputTokens amounts;
  sc_outputTokens := outputTokens amounts;
  sc_cacheReadTokens := cacheReadTokens amounts;
  sc_cacheWrite5mTokens := cacheWrite5mTokens amounts;
  sc_cacheWrite1hTokens := cacheWrite1hTokens amounts;
  sc_webSearches := webSearches amounts;
  sc_durationMs := durationMs amounts;
  sc_estimated := 0 <? estimatedCalls amounts |}.

Definition putCall (callId : string) (row : SpendRow) (amounts : CallAmounts) (call : SettledAt)
  : IO World unit :=
  swallow (wr (ledger_putCall (settledCall callId row amounts call))).

Definition settle (callId : string) (row : SpendRow) (amounts : CallAmounts) (final : bool)
    (call : SettledAt) : IO World bool :=
  let* applied := upd (call_apply callId row amounts final) in
  match applied with
  | None => io_ret false
  | Some ap =>
      let delta := amountsDelta amounts (ap_previous ap) in
      run* (if isZero delta then io_ret tt
            else
              run* io_catch (wr (ledger_add (ap_row ap) delta (costMicros amounts)))
                     (run* swallow (wr (call_restore callId ap)) in io_throw) in
              if costMicros delta =? 0 then io_ret tt else countDay (ap_row ap) (costMicros delta)) in
      if negb final then io_ret false
      else
        let* _ := upd (call_release callId (or_null (row_callingAgentId (ap_row ap)))) in
        run* putCall callId (ap_row ap) amounts call in
        io_ret (negb (ap_previousFinal ap))
  end.

Definition referenceCost (row : SpendRow) : IO World Z :=
  let within from := rd (ledger_highestCall (row_payer row) (row_connectionId row) from (row_day row)) in
  let* today := within (row_day row) in
  match today with
  | Some highest => io_ret highest
  | None =>
      match daysBefore (row_day row) (REFERENCE_DAYS - 1) with
      | None => io_throw
      | Some from => let* week := within from in io_ret (week ?? 0)
      end
  end.

(** [{ ...amounts, costMicros }] and [{ ...amounts, estimatedCalls: 1 }] *)
Definition with_cost (a : CallAmounts) (cost : Z) : CallAmounts :=
  mapAmounts (fun f => match f with f_costMicros => cost | _ => amount a f end).
Definition as_estimated (a : CallAmounts) : CallAmounts :=
  mapAmounts (fun f => match f with f_estimatedCalls => 1 | _ => amount a f end).

Section Ports.
Context `{!Locale}.
(** The agents' owners and the Session directory. *)
Variable ownerOfAgent : string -> result (option string).
Variable sessionKnown : string -> string -> result bool.

Definition checkedSession (agentId : string) (sessionId : option string) : string :=
  match or_null agentId, sessionId ≫= or_null with
  | Some agent, Some session =>
      match sessionKnown agent session with Ok true => session | _ => NO_SESSION end
  | _, _ => NO_SESSION
  end.

Definition ownerOf (record : CallRecord) : IO World (option string) :=
  let* byPayer := io_port (ownerOfAgent (rec_payer record)) in
  match byPayer with
  | Some o => io_ret (Some o)
  | None =>
      let* state := rd (call_read (rec_callId record)) in
      match state ≫= cs_meta with
      | Some meta => io_ret (Some (mt_ownerSub meta))
      | None => io_port (ownerOfAgent (rec_agentId record))
      end
  end.

(** A call no record came for: its last periodic counts, else the reference. *)
Definition unrecordedRow (meta : CallMeta) : SpendRow :=
  let provider := fst (payingProvider (mt_providers meta)) in
  {| row_day := utcDay (mt_startedAt meta);
     row_payer := mt_payer meta;
     row_ownerSub := mt_ownerSub meta;
     row_connectionId := mt_connectionId meta ?? UNKNOWN_CONNECTION;
     row_model := UNKNOWN_MODEL;
     row_sessionId := checkedSession (mt_agentId meta) (mt_sessionId meta);
     row_callingAgentId := mt_agentId meta;
     row_provider := provider;
     row_unit := unitOf provider |}.

Definition unrecordedEstimate (cost : Z) : CallAmounts :=
  mapAmounts (fun f => match f with
                       | f_costMicros => cost
                       | f_calls | f_estimatedCalls => 1
                       | _ => 0
                       end).

(** [new Date(`${day}T00:00:00Z`).getTime()]; an invalid date counts as 0. *)
Definition dayStart (day : string) : Z :=
  match parse_day day with Some z => z * DAY_MS | None => 0 end.

Definition settleReleased (callId : string) : IO World unit :=
  let* state := rd (call_read callId) in
  match state with
  | None => io_ret tt
  | Some state =>
      if cs_final state then io_ret tt
      else
        let meta := cs_meta state in
        match cs_row state with
        | Some row =>
            let* _ := settle callId row (as_estimated (cs_amounts state)) true
              (mkSettledAt (nullish (mt_startedAt <$> meta) (dayStart (row_day row)))
                 (meta ≫= mt_routerCallId) (meta ≫= mt_sessionId)) in
            io_ret tt
        | None =>
            match meta with
            | None => io_ret tt
            | Some meta =>
                let row := unrecordedRow meta in
                let* cost := referenceCost row in
                let* _ := settle callId row (unrecordedEstimate cost) true
                  (mkSettledAt (mt_startedAt meta) (mt_routerCallId meta) (mt_sessionId meta)) in
                io_ret tt
            end
        end
  end.

(** [calls.reclaim]: the start is read, then the call is put back. *)
Definition reclaim (callId : string) : IO World unit :=
  let* started := rd (call_startedAt callId) in
  wr (call_zadd callId (started ?? 0)).

Definition settleUnrecorded (callId : string) : IO World unit :=
  let* was := upd (call_release callId None) in
  if negb was then io_ret tt
  else io_catch (settleReleased callId) (run* swallow (reclaim callId) in io_throw).

Definition settleUnrecordedCalls : IO World unit :=
  let* now := Date_now in
  let* overdue := rd (call_overdue (now - UNRECORDED_AFTER_MS) UNRECORDED_BATCH) in
  io_iter (fun callId => swallow (settleUnrecorded callId)) overdue.

Definition callStarted (callId : string) (meta : CallMeta) : IO World unit :=
  swallow (wr (call_started callId meta)).

(** The row a record counts in. *)
Definition recordRow (record : CallRecord) (ownerSub : string) (m : Measured) : SpendRow :=
  {| row_day := utcDay (rec_startedAt record);
     row_payer := rec_payer record;
     row_ownerSub := ownerSub;
     row_connectionId := rec_connectionId record ?? UNKNOWN_CONNECTION;
     row_model := ms_model m;
     row_sessionId := checkedSession (rec_agentId record) (rec_sessionId record);
     row_callingAgentId := rec_agentId record;
     row_provider := ms_provider m;
     row_unit := ms_unit m |}.

Definition record (book : PriceBook) (record : CallRecord) : IO World unit :=
  run* (if rec_final record
        then emit (GatewayCallEnded (rec_payer record) (rec_providers record) (rec_status record)
               (rec_refusedByGate record) (rec_startedAt record + rec_durationMs record)
               (rec_agentId record) (rec_sessionId record))
        else io_ret tt) in
  match measureCall record book with
  | cm_skip => swallow (wr (call_heard (rec_callId record)))
  | cm_forget => wr (call_forget (rec_callId record) (or_null (rec_agentId record)))
  | cm_measured m =>
      let* owner := ownerOf record in
      match owner ≫= or_null with
      | None => io_ret tt
      | Some ownerSub =>
          let row := recordRow record ownerSub m in
          let* amounts :=
            (if ms_needsReferenceCost m
             then let* cost := referenceCost row in io_ret (with_cost (ms_amounts m) cost)
             else io_ret (ms_amounts m)) in
          let* _ := settle (rec_callId record) row amounts (rec_final record)
            (mkSettledAt (rec_startedAt record) (rec_routerCallId record) (rec_sessionId record)) in
          io_ret tt
      end
  end.
End Ports.
