(* ===== verification/SpendAccounting.v ===== *)
(** * Spend accounting: what the ingest handlers keep true

    Theorems about [SpendIngest] on [SpendStore]: each handler refines an
    atomic step on the store, a call is counted once with its last accepted
    report, and the day counters agree with the ledger. *)

From stdpp Require Import base gmap strings list fin_maps.
From Stdlib Require Import ZArith Lia Ascii.
From S2P Require Import Prelude JsString JsDate JsNumber SpendLedger SpendLimits SpendPricing SpendMetering SpendStore SpendIngest.

Local Open Scope Z_scope.

(** ** Sums over finite maps *)
Section MapSum.
Context {K V : Type} `{Countable K}.
Implicit Types (m : gmap K V) (f : K * V -> Z).

Definition sumM (f : K * V -> Z) (m : gmap K V) : Z := sumZ f (map_to_list m).

Lemma sumM_insert_fresh f m k v : m !! k = None -> sumM f (<[k := v]> m) = f (k, v) + sumM f m.
Proof.
  intros Hk. unfold sumM. rewrite (sumZ_perm f _ _ (map_to_list_insert m k v Hk)). by rewrite sumZ_cons.
Qed.

Lemma sumM_delete f m k v : m !! k = Some v -> sumM f m = f (k, v) + sumM f (delete k m).
Proof.
  intros Hk. rewrite <- (insert_delete_id m k v Hk) at 1.
  apply sumM_insert_fresh, lookup_delete_eq.
Qed.

Lemma sumM_insert f m k v :
  sumM f (<[k := v]> m) = sumM f m + f (k, v) - (match m !! k with Some o => f (k, o) | None => 0 end).
Proof.
  destruct (m !! k) as [o|] eqn:E.
  - rewrite <- insert_delete_eq, sumM_insert_fresh by apply lookup_delete_eq.
    rewrite (sumM_delete f m k o E). lia.
  - rewrite sumM_insert_fresh by done. lia.
Qed.

Lemma sumM_empty f : sumM f ∅ = 0.
Proof. unfold sumM. by rewrite map_to_list_empty. Qed.
End MapSum.

(** ** Healthy runs *)
Definition healthy (w : World) : io World := mk_io w [].

Lemma upd_healthy {A} (f : Store -> Store * A) w :
  upd f (healthy w) = (healthy (set_store w (fst (f (w_store w)))), Ok (snd (f (w_store w)))).
Proof. unfold upd, healthy. rewrite io_op_healthy. by destruct (f (w_store w)). Qed.

Lemma wr_healthy f w : wr f (healthy w) = (healthy (set_store w (f (w_store w))), Ok tt).
Proof. unfold wr. by rewrite upd_healthy. Qed.

Lemma set_store_id w : set_store w (w_store w) = w.
Proof. by destruct w. Qed.

Lemma rd_healthy {A} (f : Store -> A) w : rd f (healthy w) = (healthy w, Ok (f (w_store w))).
Proof. unfold rd. rewrite upd_healthy. simpl. by rewrite set_store_id. Qed.

Lemma set_store_set w s s' : set_store (set_store w s) s' = set_store w s'.
Proof. done. Qed.

Lemma swallow_ok {S} (m : IO S unit) w w' : m w = (w', Ok tt) -> swallow m w = (w', Ok tt).
Proof. intros H. unfold swallow. by apply io_catch_ok. Qed.

Ltac step_io :=
  repeat first
    [ rewrite (io_bind_ok _ _ _ _ _ (upd_healthy _ _))
    | rewrite (io_bind_ok _ _ _ _ _ (wr_healthy _ _))
    | rewrite (io_bind_ok _ _ _ _ _ (rd_healthy _ _))
    | rewrite (io_catch_ok _ _ _ _ _ (wr_healthy _ _))
    | rewrite (io_bind_ok _ _ _ _ _ (io_catch_ok _ _ _ _ _ (wr_healthy _ _)))
    | rewrite upd_healthy | rewrite wr_healthy | rewrite rd_healthy
    | rewrite set_store_set ]; simpl.

(** ** The atomic steps the handlers implement *)

(** Add to a present counter; fill a missing one from the ledger. *)
Definition count_step (delta : Z) (counter : DayCounter) (s : Store) : Store :=
  match counter_read counter s with
  | Some v => with_counters (<[counterKey counter := v + delta]> (s_counters s)) s
  | None => with_counters (<[counterKey counter := ledger_total counter s]> (s_counters s)) s
  end.

Definition count_steps (row : SpendRow) (delta : Z) (s : Store) : Store :=
  fold_left (fun s c => count_step delta c s) (dayCountersOf row) s.

(** Count a report of a call: the difference to the last one. *)
Definition settle_step (callId : string) (row : SpendRow) (amounts : CallAmounts) (final : bool)
    (call : SettledAt) (s : Store) : Store * bool :=
  match call_apply callId row amounts final s with
  | (s1, None) => (s1, false)
  | (s1, Some ap) =>
      let delta := amountsDelta amounts (ap_previous ap) in
      let s2 := if isZero delta then s1 else ledger_add (ap_row ap) delta (costMicros amounts) s1 in
      let s3 := if costMicros delta =? 0 then s2 else count_steps (ap_row ap) (costMicros delta) s2 in
      if final then
        (ledger_putCall (settledCall callId (ap_row ap) amounts call)
           (fst (call_release callId (or_null (row_callingAgentId (ap_row ap))) s3)),
         negb (ap_previousFinal ap))
      else (s3, false)
  end.

Lemma countOne_healthy delta c w :
  countOne delta c (healthy w) = (healthy (set_store w (count_step delta c (w_store w))), Ok tt).
Proof.
  unfold countOne. apply io_catch_ok. step_io.
  unfold counter_addIfPresent, count_step, counter_read.
  destruct (s_counters (w_store w) !! counterKey c) eqn:E; simpl; [done|].
  rewrite set_store_id. step_io. unfold counter_setIfMissing. by rewrite E.
Qed.

Lemma io_iter_healthy {A} (f : A -> IO World unit) (g : A -> Store -> Store) l w :
  (forall a w, f a (healthy w) = (healthy (set_store w (g a (w_store w))), Ok tt)) ->
  io_iter f l (healthy w) = (healthy (set_store w (fold_left (fun s a => g a s) l (w_store w))), Ok tt).
Proof.
  intros Hf. revert w. induction l as [|a l IH]; intros w; simpl.
  - by rewrite set_store_id.
  - rewrite (io_bind_ok _ _ _ _ _ (Hf a w)), IH. done.
Qed.

Lemma countDay_healthy row delta w :
  countDay row delta (healthy w) = (healthy (set_store w (count_steps row delta (w_store w))), Ok tt).
Proof. apply io_iter_healthy. intros. apply countOne_healthy. Qed.

Lemma isZero_cost delta : isZero delta = true -> costMicros delta = 0.
Proof. intros ->%isZero_spec. done. Qed.

(** Without faults, [settle] is [settle_step]. *)
Lemma settle_healthy callId row amounts final call w :
  settle callId row amounts final call (healthy w)
  = (healthy (set_store w (fst (settle_step callId row amounts final call (w_store w)))),
     Ok (snd (settle_step callId row amounts final call (w_store w)))).
Proof.
  unfold settle, settle_step. step_io.
  destruct (call_apply callId row amounts final (w_store w)) as [s1 [ap|]]; simpl; [|done].
  set (delta := amountsDelta amounts (ap_previous ap)).
  set (s2 := if isZero delta then s1 else ledger_add (ap_row ap) delta (costMicros amounts) s1).
  set (s3 := if costMicros delta =? 0 then s2 else count_steps (ap_row ap) (costMicros delta) s2).
  assert (Hadd : (if isZero delta then io_ret tt
      else run* io_catch (wr (ledger_add (ap_row ap) delta (costMicros amounts)))
                  (run* swallow (wr (call_restore callId ap)) in io_throw) in
           if costMicros delta =? 0 then io_ret tt else countDay (ap_row ap) (costMicros delta))
      (healthy (set_store w s1)) = (healthy (set_store w s3), Ok tt)).
  { subst s3 s2. destruct (isZero delta) eqn:Ez.
    - by rewrite (isZero_cost _ Ez).
    - step_io. destruct (_ =? 0); [done|]. by rewrite countDay_healthy. }
  rewrite (io_bind_ok _ _ _ _ _ Hadd). destruct final; simpl; [|done].
  step_io. unfold putCall.
  rewrite (io_bind_ok _ _ _ _ _ (swallow_ok _ _ _ (wr_healthy _ _))). done.
Qed.

(** ** What a step leaves alone *)
Lemma count_step_counters delta c s : exists m, count_step delta c s = with_counters m s.
Proof. unfold count_step. case_match; eauto. Qed.

Lemma count_steps_counters row delta s : exists m, count_steps row delta s = with_counters m s.
Proof.
  unfold count_steps. generalize (dayCountersOf row) as l. intros l. revert s.
  induction l as [|c l IH]; intros s; simpl; [exists (s_counters s); by destruct s|].
  destruct (count_step_counters delta c s) as [m ->]. destruct (IH (with_counters m s)) as [m' ->].
  by exists m'.
Qed.

(** The amounts a ledger row holds; a missing row holds nothing. *)
Definition ledger_amount (s : Store) (k : DailyKey) (f : AmountField) : Z :=
  match s_daily s !! k with Some d => amount (d_amounts d) f | None => 0 end.

Lemma ledger_add_amount row delta cost s k f :
  ledger_amount (ledger_add row delta cost s) k f
  = ledger_amount s k f + (if decide (k = rowKey row) then amount delta f else 0).
Proof.
  unfold ledger_amount, ledger_add; simpl. destruct (decide (k = rowKey row)) as [->|Hne].
  - rewrite lookup_insert_eq. destruct (s_daily s !! rowKey row); simpl; [|lia].
    unfold amountsAdd. rewrite amount_map. lia.
  - rewrite lookup_insert_ne by done. lia.
Qed.

Lemma zero_delta_amount amounts previous f :
  isZero (amountsDelta amounts previous) = true -> amount amounts f - amount previous f = 0.
Proof. intros ->%amountsDelta_zero. lia. Qed.

(** The effect of one report on the ledger and on the call table. *)
Lemma settle_step_effect callId row amounts final call s :
  let h := hash_of s callId in
  let s' := fst (settle_step callId row amounts final call s) in
  if (h_final h ?? false) && negb final then s' = s
  else
    (forall k f, ledger_amount s' k f = ledger_amount s k f +
       (if decide (k = rowKey (h_row h ?? row))
        then amount amounts f - amount (h_amounts h ?? zeroAmounts) f else 0)) /\
    s_calls s' = <[callId := mkHash (h_meta h) (Some (h_row h ?? row)) (Some amounts)
                     (if final then Some true else h_final h) (Some (s_now s))]> (s_calls s) /\
    (final = true -> s_inflight s' !! callId = None).
Proof.
  intros h s'. subst s'. unfold settle_step, call_apply. fold h.
  destruct ((h_final h ?? false) && negb final); [done|]. cbv beta iota zeta.
  cbn [ap_row ap_previous ap_previousFinal].
  set (row' := h_row h ?? row). set (prev := h_amounts h ?? zeroAmounts).
  set (delta := amountsDelta amounts prev).
  set (s1 := put_hash _ _ s).
  set (s2 := if isZero delta then s1 else ledger_add row' delta (costMicros amounts) s1).
  assert (Hl : forall k f, ledger_amount s2 k f = ledger_amount s k f +
     (if decide (k = rowKey row') then amount amounts f - amount prev f else 0)).
  { intros k f. subst s2. destruct (isZero delta) eqn:Ez.
    - rewrite (zero_delta_amount _ _ f Ez). change (ledger_amount s1 k f) with (ledger_amount s k f).
      case_decide; lia.
    - rewrite ledger_add_amount. change (ledger_amount s1 k f) with (ledger_amount s k f).
      subst delta. unfold amountsDelta. rewrite amount_map. done. }
  assert (Hc : s_calls s2 = s_calls s1) by (subst s2; by case_match).
  set (s3 := if costMicros delta =? 0 then s2 else count_steps row' (costMicros delta) s2).
  assert (Hs3 : exists m, s3 = with_counters m s2).
  { subst s3. case_match; [exists (s_counters s2); by destruct s2|apply count_steps_counters]. }
  destruct Hs3 as [m ->].
  destruct final; simpl; [|split_and!; [exact Hl|exact Hc|done]].
  split_and!.
  - intros k f. rewrite <- Hl. unfold call_release, or_null. by repeat case_match.
  - unfold call_release, or_null. by repeat (case_match; simpl).
  - intros _. unfold call_release, or_null. repeat case_match; simpl; apply lookup_delete_eq.
Qed.

(** ** One call, however often it is reported *)
Record Report := mkReport {
  rp_row : SpendRow;
  rp_amounts : CallAmounts;
  rp_final : bool;
  rp_call : SettledAt;
}.

Definition settle_report (callId : string) (r : Report) : IO World unit :=
  let* _ := settle callId (rp_row r) (rp_amounts r) (rp_final r) (rp_call r) in io_ret tt.

(** The report that stands: the last one, where after a final report only
    final ones are taken. *)
Fixpoint standing (amounts : CallAmounts) (final : bool) (l : list Report) : CallAmounts :=
  match l with
  | [] => amounts
  | r :: l =>
      if final && negb (rp_final r) then standing amounts final l
      else standing (rp_amounts r) (final || rp_final r) l
  end.

Definition settle_steps (callId : string) (l : list Report) (s : Store) : Store :=
  fold_left (fun s r => fst (settle_step callId (rp_row r) (rp_amounts r) (rp_final r) (rp_call r) s)) l s.

Lemma settle_reports_healthy callId l w :
  io_iter (settle_report callId) l (healthy w) = (healthy (set_store w (settle_steps callId l (w_store w))), Ok tt).
Proof.
  apply (io_iter_healthy _ (fun r s =>
    fst (settle_step callId (rp_row r) (rp_amounts r) (rp_final r) (rp_call r) s))).
  intros r w'. unfold settle_report. by rewrite (io_bind_ok _ _ _ _ _ (settle_healthy _ _ _ _ _ _)).
Qed.

Lemma hash_of_insert s c m h : s_calls s = <[c := h]> m -> hash_of s c = h.
Proof. intros E. unfold hash_of. by rewrite E, lookup_insert_eq. Qed.

Lemma settle_steps_known callId l : forall s row,
  let h := hash_of s callId in
  h_row h = Some row ->
  forall k f, ledger_amount (settle_steps callId l s) k f = ledger_amount s k f +
    (if decide (k = rowKey row)
     then amount (standing (h_amounts h ?? zeroAmounts) (h_final h ?? false) l) f
          - amount (h_amounts h ?? zeroAmounts) f else 0).
Proof.
  induction l as [|r l IH]; intros s row h Hrow k f; simpl; [case_decide; lia|].
  pose proof (settle_step_effect callId (rp_row r) (rp_amounts r) (rp_final r) (rp_call r) s) as He.
  cbv zeta in He. fold h in He.
  destruct ((h_final h ?? false) && negb (rp_final r)) eqn:Ef.
  - rewrite He. by apply IH.
  - destruct He as (Hl & Hc & _).
    set (s1 := fst (settle_step _ _ _ _ _ s)) in *.
    assert (Hh := hash_of_insert _ _ _ _ Hc). rewrite Hrow in Hh, Hl.
    rewrite (IH s1 row) by (by rewrite Hh). rewrite Hh, Hl. simpl.
    destruct (h_final h) as [[]|]; destruct (rp_final r); simpl in *; try done; case_decide; lia.
Qed.

(** C6: a call is counted once.  However many reports of a call arrive, in
    whatever order and with whatever repetitions (periodic counts, the final
    record, a redelivery, the sweep), the ledger ends up holding exactly the
    standing report in the row the first report named, and no other row
    changes; nothing throws. *)
Theorem call_counted_once callId r l w :
  s_calls (w_store w) !! callId = None ->
  exists w', io_iter (settle_report callId) (r :: l) (healthy w) = (healthy w', Ok tt) /\
    forall k f, ledger_amount (w_store w') k f = ledger_amount (w_store w) k f +
      (if decide (k = rowKey (rp_row r)) then amount (standing zeroAmounts false (r :: l)) f else 0).
Proof.
  intros Hfresh. eexists. split; [apply settle_reports_healthy|]. intros k f. simpl.
  pose proof (settle_step_effect callId (rp_row r) (rp_amounts r) (rp_final r) (rp_call r) (w_store w)) as He.
  cbv zeta in He. unfold hash_of in He. rewrite Hfresh in He. simpl in He.
  destruct He as (Hl & Hc & _). set (s1 := fst (settle_step _ _ _ _ _ (w_store w))) in *.
  assert (Hh := hash_of_insert _ _ _ _ Hc).
  rewrite (settle_steps_known callId l s1 (rp_row r)) by (by rewrite Hh).
  rewrite Hh, Hl. simpl. unfold zeroAmounts. rewrite !amount_map.
  destruct (rp_final r); simpl; case_decide; lia.
Qed.

Definition example_row : SpendRow :=
  mkRow "2026-01-05" "agent" "owner" "conn" "model" "" "agent" "anthropic" usd.
Definition example_amounts (n : Z) : CallAmounts := mkAmounts n n 0 0 0 0 0 1 0 0.
Definition example_at : SettledAt := mkSettledAt 0 None None.

Lemma call_counted_once_witness :
  exists w', io_iter (settle_report "c1")
      [mkReport example_row (example_amounts 5) false example_at;
       mkReport example_row (example_amounts 9) true example_at;
       mkReport example_row (example_amounts 7) false example_at;
       mkReport example_row (example_amounts 9) true example_at] (healthy (mkWorld (emptyStore 0) []))
    = (healthy w', Ok tt) /\ ledger_amount (w_store w') (rowKey example_row) f_costMicros = 9.
Proof.
  destruct (call_counted_once "c1" (mkReport example_row (example_amounts 5) false example_at)
    [mkReport example_row (example_amounts 9) true example_at;
     mkReport example_row (example_amounts 7) false example_at;
     mkReport example_row (example_amounts 9) true example_at]
    (mkWorld (emptyStore 0) [])) as (w' & Hrun & Hl); [reflexivity|].
  exists w'. split; [exact Hrun|]. rewrite Hl. reflexivity.
Defined.

(** ** Failure of the ledger write *)

Lemma settle_ledger_fails callId row amounts final call w :
  let h := hash_of (w_store w) callId in
  (h_final h ?? false) && negb final = false ->
  isZero (amountsDelta amounts (h_amounts h ?? zeroAmounts)) = false ->
  exists h', settle callId row amounts final call (mk_io w [NoFault; FailBefore])
    = (healthy (set_store w (put_hash callId h' (w_store w))), Throw) /\
    h_row h' = Some (h_row h ?? row) /\ h_amounts h' ?? zeroAmounts = h_amounts h ?? zeroAmounts /\
    h_final h' ?? false = h_final h ?? false /\ h_meta h' = h_meta h.
Proof.
  intros h Hacc Hz. unfold settle, upd, io_bind at 1, io_op at 1. cbn [io_faults io_st].
  unfold call_apply. fold h. rewrite Hacc. cbv beta iota zeta. cbn [ap_row ap_previous ap_previousFinal].
  rewrite Hz. unfold io_bind, io_catch, swallow, wr, upd, io_op, io_throw, io_ret; simpl.
  unfold call_restore, put_hash, with_calls, hash_of; simpl. rewrite lookup_insert_eq, insert_insert_eq; simpl.
  eexists. split; [reflexivity|]. by split_and!.
Qed.

(** C35: a failed ledger write loses and doubles nothing.  When the ledger
    refuses a report, [settle] throws with the ledger as it was and the call's
    counted amounts and finality put back; delivering the same report again
    then brings every ledger row to exactly where the first delivery would
    have brought it. *)
Theorem settle_failure_then_retry callId row amounts final call w :
  let h := hash_of (w_store w) callId in
  (h_final h ?? false) && negb final = false ->
  isZero (amountsDelta amounts (h_amounts h ?? zeroAmounts)) = false ->
  exists w1, settle callId row amounts final call (mk_io w [NoFault; FailBefore]) = (healthy w1, Throw) /\
    s_daily (w_store w1) = s_daily (w_store w) /\
    forall k f,
      ledger_amount (fst (settle_step callId row amounts final call (w_store w1))) k f =
      ledger_amount (fst (settle_step callId row amounts final call (w_store w))) k f.
Proof.
  intros h Hacc Hz.
  destruct (settle_ledger_fails callId row amounts final call w Hacc Hz)
    as (h' & Hrun & Hrow & Ham & Hfin & _).
  fold h in Hrow, Ham, Hfin. eexists. split; [exact Hrun|].
  split; [reflexivity|]. intros k f. simpl.
  pose proof (settle_step_effect callId row amounts final call (w_store w)) as He0.
  cbv zeta in He0. fold h in He0. rewrite Hacc in He0. destruct He0 as [He0 _].
  set (s1 := put_hash callId h' (w_store w)).
  pose proof (settle_step_effect callId row amounts final call s1) as He1. cbv zeta in He1.
  rewrite (hash_of_insert s1 callId (s_calls (w_store w)) h' eq_refl) in He1.
  rewrite Hfin, Hacc, Hrow, Ham in He1. destruct He1 as [He1 _].
  rewrite He0, He1. done.
Qed.

Lemma settle_failure_then_retry_witness :
  let w := mkWorld (emptyStore 0) [] in
  exists w1, settle "c1" example_row (example_amounts 5) true example_at (mk_io w [NoFault; FailBefore])
      = (healthy w1, Throw) /\
    s_daily (w_store w1) = ∅ /\
    forall k f,
      ledger_amount (fst (settle_step "c1" example_row (example_amounts 5) true example_at (w_store w1))) k f =
      ledger_amount (fst (settle_step "c1" example_row (example_amounts 5) true example_at (w_store w))) k f.
Proof.
  intros w. apply (settle_failure_then_retry "c1" example_row (example_amounts 5) true example_at w); reflexivity.
Defined.
