(* ===== verification/SpendCounters.v ===== *)
(** * Spend counters: the day counters agree with the ledger

    The Redis counters of [day-counters.ts] are a cache of [ledger.total]: the
    limit checks read them.  The theorems say when they agree with the ledger,
    and exhibit the one way they can part. *)

From stdpp Require Import base gmap strings list fin_maps.
From Stdlib Require Import ZArith Lia Ascii.
From S2P Require Import Prelude JsString JsDate JsNumber SpendLedger SpendLimits SpendPricing SpendMetering SpendStore SpendIngest SpendAccounting.

Local Open Scope Z_scope.

(** ** Counter keys *)
Definition no_colon (s : string) : Prop := has_char ":" s = false.

Lemma sep_inj a b x y :
  no_colon a -> no_colon b ->
  (a ++ String ":" x)%string = (b ++ String ":" y)%string -> a = b /\ x = y.
Proof.
  unfold no_colon, has_char. revert b. induction a as [|c a IH]; intros [|c' b]; simpl;
    rewrite ?str_append_nil_l, ?str_append_cons; intros Ha Hb E.
  - injection E as <-. done.
  - injection E as <- _. done.
  - injection E as -> _. done.
  - injection E as <- E. apply orb_false_iff in Ha as [_ Ha]. apply orb_false_iff in Hb as [_ Hb].
    destruct (IH b Ha Hb E) as [-> ->]. done.
Qed.

(** Identifiers free of the key's separator. *)
Definition wf_counter (c : DayCounter) : Prop :=
  match c with
  | dc_agent day id _ | dc_owner day id _ | dc_connection day id _ | dc_owner_connection day id _ =>
      no_colon day /\ no_colon id
  end.

Lemma unit_string_inj u v : unit_string u = unit_string v -> u = v.
Proof. by destruct u, v. Qed.

(** A counter's key as its three parts. *)
Definition counter_parts (c : DayCounter) : string * string * string * string :=
  match c with
  | dc_agent day id u => (day, "agent", id, unit_string u)
  | dc_owner day id u => (day, "owner", id, unit_string u)
  | dc_connection day id conn => (day, "conn", id, conn)
  | dc_owner_connection day id conn => (day, "ownerconn", id, conn)
  end%string.

Lemma counterKey_parts c :
  counterKey c =
  ("spend:" ++ (counter_parts c).1.1.1 ++ String ":" ((counter_parts c).1.1.2 ++
     String ":" ((counter_parts c).1.2 ++ String ":" (counter_parts c).2)))%string.
Proof. by destruct c. Qed.

Lemma str_append_inj p x y : (p ++ x)%string = (p ++ y)%string -> x = y.
Proof.
  induction p as [|c p IH]; rewrite ?str_append_nil_l, ?str_append_cons; [done|].
  intros E. injection E as E. auto.
Qed.

Lemma counterKey_inj c c' : wf_counter c -> wf_counter c' -> counterKey c = counterKey c' -> c = c'.
Proof.
  intros Hc Hc'. rewrite !counterKey_parts. intros E%str_append_inj.
  apply sep_inj in E as [E1 E]; [|by destruct c, Hc|by destruct c', Hc'].
  apply sep_inj in E as [E2 E]; [|by destruct c|by destruct c'].
  apply sep_inj in E as [E3 E4]; [|by destruct c, Hc|by destruct c', Hc'].
  destruct c, c'; simpl in *; try discriminate; try apply unit_string_inj in E4; by subst.
Qed.

(** ** Totals *)
Lemma ledger_total_sumM c s :
  ledger_total c s
  = sumM (fun p => if counts_in c (fst p) (snd p) then costMicros (d_amounts (snd p)) else 0) (s_daily s).
Proof. done. Qed.

(** The row and a stored ledger row of its key agree on owner and unit. *)
Definition row_agrees (s : Store) (row : SpendRow) : Prop :=
  forall d, s_daily s !! rowKey row = Some d -> d_owner d = row_ownerSub row /\ d_unit d = row_unit row.

Lemma counts_in_row c row d :
  d_owner d = row_ownerSub row -> d_unit d = row_unit row ->
  counts_in c (rowKey row) d = true <-> c ∈ dayCountersOf row.
Proof.
  intros Ho Hu. unfold dayCountersOf. rewrite !elem_of_cons, elem_of_nil.
  destruct c; simpl; rewrite ?Ho, ?Hu, !andb_true_iff, ?bool_decide_eq_true, !String.eqb_eq;
    unfold dk_day, dk_payer, dk_connection; simpl; split; intros H;
    destruct_and?; destruct_or?; simplify_eq; tauto.
Qed.

Lemma ledger_add_total c row delta cost s :
  row_agrees s row ->
  ledger_total c (ledger_add row delta cost s)
  = ledger_total c s + (if decide (c ∈ dayCountersOf row) then costMicros delta else 0).
Proof.
  intros Ha. rewrite !ledger_total_sumM. unfold ledger_add; simpl. rewrite sumM_insert; simpl.
  destruct (s_daily s !! rowKey row) as [d|] eqn:E.
  - destruct (Ha d E) as [Ho Hu]. simpl.
    set (d' := mkDaily _ _ _ _ _ _).
    pose proof (counts_in_row c row d Ho Hu) as H1. pose proof (counts_in_row c row d' Ho Hu) as H2.
    destruct (counts_in c (rowKey row) d), (counts_in c (rowKey row) d');
      case_decide; simpl; naive_solver lia.
  - set (d' := mkDaily _ _ _ _ _ _).
    pose proof (counts_in_row c row d' eq_refl eq_refl) as H2.
    destruct (counts_in c (rowKey row) d'); case_decide; simpl; naive_solver lia.
Qed.

(** ** The counters *)
Definition counters_ok (s : Store) : Prop :=
  forall c v, wf_counter c -> counter_read c s = Some v -> v = ledger_total c s.

(** Every counter but those of a row is right, and those lag by [delta]. *)
Definition counters_lag (delta : Z) (todo : list DayCounter) (s : Store) : Prop :=
  forall c v, wf_counter c -> counter_read c s = Some v ->
    v = ledger_total c s - (if decide (c ∈ todo) then delta else 0).

Lemma count_step_lag delta c todo s :
  wf_counter c -> c ∉ todo -> counters_lag delta (c :: todo) s -> counters_lag delta todo (count_step delta c s).
Proof.
  intros Hwf Hn Hlag c' v Hwf' Hr.
  assert (Ht : ledger_total c' (count_step delta c s) = ledger_total c' s)
    by (unfold count_step; by case_match).
  rewrite Ht. unfold count_step in Hr. destruct (decide (c' = c)) as [->|Hne].
  - rewrite decide_False by done. destruct (counter_read c s) as [u|] eqn:E.
    + apply Hlag in E; [|done]. rewrite decide_True in E by set_solver.
      unfold counter_read in Hr; simpl in Hr. rewrite lookup_insert_eq in Hr. simplify_eq. lia.
    + unfold counter_read in Hr; simpl in Hr. rewrite lookup_insert_eq in Hr. simplify_eq. lia.
  - assert (Hk : counterKey c <> counterKey c') by (intros E; apply Hne; by apply counterKey_inj).
    assert (Hr' : counter_read c' s = Some v).
    { destruct (counter_read c s); unfold counter_read in Hr |- *; simpl in Hr;
        by rewrite lookup_insert_ne in Hr. }
    apply Hlag in Hr'; [|done]. rewrite Hr'. f_equal. repeat case_decide; set_solver.
Qed.

Lemma count_steps_lag delta l s :
  Forall wf_counter l -> NoDup l -> counters_lag delta l s ->
  counters_ok (fold_left (fun s c => count_step delta c s) l s).
Proof.
  revert s. induction l as [|c l IH]; intros s Hwf Hnd Hlag; simpl.
  - intros c v Hc Hv. specialize (Hlag c v Hc Hv). rewrite decide_False in Hlag by set_solver. lia.
  - apply Forall_cons in Hwf as [? ?]. apply NoDup_cons in Hnd as [? ?].
    apply IH; [done|done|]. by apply count_step_lag.
Qed.

(** Identifiers of a row without the separator. *)
Definition wf_row (row : SpendRow) : Prop :=
  no_colon (row_day row) /\ no_colon (row_payer row) /\ no_colon (row_ownerSub row).

Lemma dayCounters_wf row : wf_row row -> Forall wf_counter (dayCountersOf row).
Proof. intros (?&?&?). by repeat constructor. Qed.

Lemma dayCounters_NoDup row : NoDup (dayCountersOf row).
Proof. unfold dayCountersOf. repeat constructor; set_solver. Qed.

Lemma counters_ok_frame s s' :
  s_daily s' = s_daily s -> s_counters s' = s_counters s -> counters_ok s -> counters_ok s'.
Proof.
  intros Hd Hc H c v Hwf Hr. unfold counter_read in Hr. rewrite Hc in Hr.
  unfold ledger_total. rewrite Hd. by apply H.
Qed.

Lemma call_apply_frame callId row amounts final s :
  s_daily (fst (call_apply callId row amounts final s)) = s_daily s /\
  s_counters (fst (call_apply callId row amounts final s)) = s_counters s.
Proof. unfold call_apply. by case_match. Qed.

Lemma call_apply_some callId row amounts final s s1 ap :
  call_apply callId row amounts final s = (s1, Some ap) ->
  ap_row ap = h_row (hash_of s callId) ?? row /\ ap_previous ap = h_amounts (hash_of s callId) ?? zeroAmounts.
Proof. unfold call_apply. case_match; [done|]. intros; simplify_eq. done. Qed.

Lemma counters_after_add row amounts delta s :
  counters_ok s -> row_agrees s row -> wf_row row ->
  let s2 := if isZero delta then s else ledger_add row delta amounts s in
  counters_ok (if costMicros delta =? 0 then s2 else count_steps row (costMicros delta) s2).
Proof.
  intros Hok Ha Hwf s2. subst s2. destruct (isZero delta) eqn:Ez.
  - rewrite (isZero_cost _ Ez). done.
  - assert (Hlag : counters_lag (costMicros delta) (dayCountersOf row) (ledger_add row delta amounts s)).
    { intros c v Hc Hr. rewrite ledger_add_total by done.
      rewrite (Hok c v Hc Hr). case_decide; lia. }
    destruct (costMicros delta =? 0) eqn:E0.
    + intros c v Hc Hr. specialize (Hlag c v Hc Hr). case_decide; lia.
    + apply count_steps_lag; [by apply dayCounters_wf|apply dayCounters_NoDup|done].
Qed.

Lemma release_frame callId agentId call s :
  let s' := ledger_putCall call (fst (call_release callId agentId s)) in
  s_daily s' = s_daily s /\ s_counters s' = s_counters s.
Proof. unfold call_release. by repeat (case_match; simpl). Qed.



(** Without that proviso they part.  A ledger row's key leaves out the
    unit and its upsert keeps the stored one, so two calls of one agent with
    no known connection, the first paid in Bobcoins and the second in dollars,
    share a row: the dollars are then counted in the dollar counter but not in
    the ledger's dollar total. *)
Theorem shared_row_splits_counter_from_ledger :
  exists row1 row2 amounts1 amounts2,
    rowKey row1 = rowKey row2 /\ row_unit row1 = bobcoin /\ row_unit row2 = usd /\
    let dollars := dc_agent (row_day row2) (row_payer row2) usd in
    let out :=
      (let* _ := settle "c1" row1 amounts1 true example_at in
       run* wr (counter_setIfMissing dollars 0) in
       settle "c2" row2 amounts2 true example_at) (healthy (mkWorld (emptyStore 0) [])) in
    snd out = Ok true /\
    counter_read dollars (w_store (io_st (fst out))) = Some 7 /\
    ledger_total dollars (w_store (io_st (fst out))) = 0.
Proof.
  exists (mkRow "2026-01-05" "agent" "owner" UNKNOWN_CONNECTION UNKNOWN_MODEL "" "agent" "bob" bobcoin).
  exists (mkRow "2026-01-05" "agent" "owner" UNKNOWN_CONNECTION UNKNOWN_MODEL "" "agent" "anthropic" usd).
  exists (example_amounts 5), (example_amounts 7).
  cbv zeta. split_and!; vm_compute; reflexivity.
Qed.
