(* ===== verification/SpendSweep.v ===== *)
(** * Spend sweep: calls that no record came for

    What the call table remembers of a started call, what the hourly sweep of
    [spend-ingest.ts] does with a call that was never finished, and the
    reference cost it falls back on. *)

From stdpp Require Import base gmap strings list fin_maps.
From Stdlib Require Import ZArith Lia Ascii.
From S2P Require Import Prelude JsString JsDate JsNumber SpendLedger SpendLimits SpendPricing SpendMetering SpendStore SpendIngest SpendAccounting.

Local Open Scope Z_scope.

(** ** What is remembered of a started call *)
Lemma or_null_some s : s <> ""%string -> or_null s = Some s.
Proof. intros H. unfold or_null. by rewrite (proj2 (truthy_spec s) H). Qed.

Lemma or_null_opt (o : option string) : o <> Some ""%string -> or_null (o ?? ""%string) = o.
Proof. destruct o as [s|]; simpl; [|done]. intros H. apply or_null_some. congruence. Qed.

Lemma filter_truthy l : Forall (fun s => s <> ""%string) l -> List.filter truthy l = l.
Proof.
  induction 1 as [|s l Hs _ IH]; simpl; [done|]. by rewrite (proj2 (truthy_spec s) Hs), IH.
Qed.

(** Identifiers as the gateway issues them: never empty, no comma in a provider. *)
Record meta_wf (m : CallMeta) : Prop := {
  mw_payer : mt_payer m <> ""%string;
  mw_conn : mt_connectionId m <> Some ""%string;
  mw_session : mt_sessionId m <> Some ""%string;
  mw_router : mt_routerCallId m <> Some ""%string;
  mw_providers : Forall (fun p => p <> ""%string /\ has_char "," p = false) (mt_providers m);
}.

Lemma providers_roundtrip l :
  Forall (fun p => p <> ""%string /\ has_char "," p = false) l ->
  List.filter truthy (str_split "," (str_join "," l)) = l.
Proof.
  intros H. destruct l as [|p l]; [done|].
  rewrite str_split_join; [|done|by eapply Forall_impl; [exact H|intros ? [_ ?]]].
  apply filter_truthy. by eapply Forall_impl; [exact H|intros ? [? _]].
Qed.

(** What [started] notes, [read] gives back: the whole record of the call
    (its payer, owner, connection, providers, Session, router call and start),
    the row and counts already there, and the call is in flight at its start
    time and in its agent's set. *)
Theorem started_then_read callId meta s :
  meta_wf meta ->
  let s' := call_started callId meta s in
  let h := hash_of s callId in
  call_read callId s' =
    Some (mkState (Some meta)
            (h_row h ≫= (fun r => if truthy (row_day r) then Some r else None))
            (h_amounts h ?? zeroAmounts) (h_final h ?? false)) /\
  s_inflight s' !! callId = Some (mt_startedAt meta) /\
  (mt_agentId meta <> ""%string -> callId ∈ s_agents s' !! mt_agentId meta ?? ∅).
Proof.
  intros [Hp Hc Hs Hr Hpr] s' h. subst s'. unfold call_started, call_read; simpl.
  rewrite !lookup_insert_eq; simpl. fold h. split_and!.
  - f_equal. f_equal. unfold read_meta; simpl. rewrite (proj2 (truthy_spec _) Hp).
    rewrite !or_null_opt, providers_roundtrip by done. by destruct meta.
  - done.
  - intros Ha. rewrite (proj2 (truthy_spec _) Ha). simpl. unfold sadd. rewrite lookup_insert_eq. simpl. set_solver.
Qed.

Lemma started_then_read_witness :
  let meta := mkMeta "a" "a" "o" (Some "c"%string) ["anthropic"; "bob"]%string None (Some "r"%string) 42 in
  call_read "c1" (call_started "c1" meta (emptyStore 0))
  = Some (mkState (Some meta) None zeroAmounts false).
Proof.
  intros meta. destruct (started_then_read "c1" meta (emptyStore 0)) as [H _]; [|exact H].
  split; simpl; try discriminate. repeat constructor; try discriminate.
Defined.

(** ** The sweep *)
Section Sweep.
Context `{!Locale}.
Variable sessionKnown : string -> string -> result bool.

Lemma utcDay_truthy t : truthy (utcDay t) = true.
Proof. apply truthy_spec, day_string_nonempty. Qed.

Lemma daysBefore_utcDay t n : iso_time t -> is_Some (daysBefore (utcDay t) n).
Proof. intros Ht. unfold daysBefore, utcDay. rewrite parse_day_string by exact Ht. eauto. Qed.

Lemma referenceCost_healthy row w :
  is_Some (daysBefore (row_day row) (REFERENCE_DAYS - 1)) ->
  exists cost, referenceCost row (healthy w) = (healthy w, Ok cost).
Proof.
  intros [d Hd]. unfold referenceCost. step_io. rewrite Hd.
  destruct (ledger_highestCall _ _ (row_day row) _ _); [by eexists|]. step_io. by eexists.
Qed.

(** A call the sweep has dealt with: not in flight, and final if it was
    ever metered or its start is remembered. *)
Definition swept (callId : string) (s : Store) : Prop :=
  s_inflight s !! callId = None /\
  forall st, call_read callId s = Some st -> cs_final st = true \/ (cs_meta st = None /\ cs_row st = None).

Lemma settle_final_swept callId row amounts call w :
  let w' := set_store w (fst (settle_step callId row amounts true call (w_store w))) in
  settle callId row amounts true call (healthy w)
    = (healthy w', Ok (snd (settle_step callId row amounts true call (w_store w)))) /\
  swept callId (w_store w').
Proof.
  intros w'. split; [apply settle_healthy|].
  pose proof (settle_step_effect callId row amounts true call (w_store w)) as He.
  cbv zeta in He. rewrite andb_false_r in He. destruct He as (_ & Hc & Hi).
  split; [by apply Hi|]. intros st. unfold call_read. simpl. rewrite Hc, lookup_insert_eq.
  intros [= <-]. by left.
Qed.

(** The start times a call can have. *)
Definition starts_ok (callId : string) (s : Store) : Prop :=
  forall st m, call_read callId s = Some st -> cs_meta st = Some m -> iso_time (mt_startedAt m).

Lemma settleReleased_swept callId w :
  starts_ok callId (w_store w) -> s_inflight (w_store w) !! callId = None ->
  exists w', settleReleased sessionKnown callId (healthy w) = (healthy w', Ok tt) /\ swept callId (w_store w').
Proof.
  intros Hok Hin. unfold settleReleased. step_io.
  destruct (call_read callId (w_store w)) as [st|] eqn:E; [|exists w; split; [done|by split; [done|rewrite E]]].
  destruct (cs_final st) eqn:Ef.
  { exists w. split; [done|]. split; [done|]. rewrite E. intros ? [= <-]. by left. }
  destruct (cs_row st) as [row|] eqn:Er.
  { edestruct (settle_final_swept callId row (as_estimated (cs_amounts st))) as [Hs Hw].
    eexists. split; [rewrite (io_bind_ok _ _ _ _ _ Hs); reflexivity|exact Hw]. }
  destruct (cs_meta st) as [m|] eqn:Em.
  2: { exists w. split; [done|]. split; [done|]. rewrite E. intros ? [= <-]. by right. }
  destruct (referenceCost_healthy (unrecordedRow sessionKnown m) w) as [cost Hc].
  { apply daysBefore_utcDay. by eapply Hok. }
  edestruct (settle_final_swept callId (unrecordedRow sessionKnown m) (unrecordedEstimate cost)) as [Hs Hw].
  eexists. split; [rewrite (io_bind_ok _ _ _ _ _ Hc), (io_bind_ok _ _ _ _ _ Hs); reflexivity|exact Hw].
Qed.

(** The sweep finishes every call it takes.  With the stores up, a call
    in flight that the sweep takes leaves the in-flight set and ends final
    (from its last periodic counts, or as an estimate at the reference
    cost), so it is settled once and never swept again. *)
Theorem sweep_finishes callId w :
  starts_ok callId (w_store w) -> is_Some (s_inflight (w_store w) !! callId) ->
  exists w', settleUnrecorded sessionKnown callId (healthy w) = (healthy w', Ok tt) /\ swept callId (w_store w').
Proof.
  intros Hok [z Hz]. unfold settleUnrecorded. step_io.
  rewrite Hz. simpl. set (w1 := set_store w _).
  destruct (settleReleased_swept callId w1) as (w' & Hrun & Hsw); [exact Hok|apply lookup_delete_eq|].
  exists w'. split; [|exact Hsw]. by apply io_catch_ok.
Qed.

(** A failed settlement is tried again.  When settling a taken call
    throws, whatever failed and wherever, and the store answers after that,
    the call is back in the in-flight set and the error is passed on. *)
Theorem sweep_failure_reclaims callId w fs w1 :
  is_Some (s_inflight (w_store w) !! callId) ->
  settleReleased sessionKnown callId (mk_io (set_store w (fst (call_release callId None (w_store w)))) fs)
    = (healthy w1, Throw) ->
  exists w', settleUnrecorded sessionKnown callId (mk_io w (NoFault :: fs)) = (healthy w', Throw) /\
    s_inflight (w_store w') !! callId = Some (call_startedAt callId (w_store w1) ?? 0).
Proof.
  intros [z Hz] Hfail. unfold settleUnrecorded, upd, io_bind at 1, io_op. simpl.
  rewrite Hz. simpl. unfold io_catch at 1.
  change (set_store w (with_inflight (delete callId (s_inflight (w_store w))) (w_store w)))
    with (set_store w (fst (call_release callId None (w_store w)))).
  rewrite Hfail.
  assert (Hr : reclaim callId (healthy w1)
    = (healthy (set_store w1 (call_zadd callId (call_startedAt callId (w_store w1) ?? 0) (w_store w1))), Ok tt))
    by (unfold reclaim; by step_io).
  rewrite (io_bind_ok _ _ _ _ _ (swallow_ok _ _ _ Hr)). eexists. split; [reflexivity|].
  simpl. apply lookup_insert_eq.
Qed.
End Sweep.

Definition example_meta : CallMeta :=
  mkMeta "a" "a" "o" (Some "c"%string) ["anthropic"]%string None None 1767600000000.
Definition example_inflight : World := mkWorld (call_started "c1" example_meta (emptyStore 0)) [].

Lemma sweep_finishes_witness :
  exists w', @settleUnrecorded code_unit_locale (fun _ _ => Ok true) "c1" (healthy example_inflight)
    = (healthy w', Ok tt) /\ swept "c1" (w_store w').
Proof.
  apply (@sweep_finishes code_unit_locale (fun _ _ => Ok true) "c1" example_inflight).
  - intros st m Hst Hm. vm_compute in Hst. injection Hst as <-. injection Hm as <-.
    vm_compute. split; discriminate.
  - vm_compute. eauto.
Defined.

Lemma sweep_failure_reclaims_witness :
  exists w', @settleUnrecorded code_unit_locale (fun _ _ => Ok true) "c1"
      (mk_io example_inflight [NoFault; FailBefore]) = (healthy w', Throw) /\
    s_inflight (w_store w') !! "c1"%string = Some 1767600000000.
Proof.
  apply (@sweep_failure_reclaims code_unit_locale (fun _ _ => Ok true) "c1" example_inflight [FailBefore]
    (set_store example_inflight (fst (call_release "c1" None (w_store example_inflight))))).
  - vm_compute. eauto.
  - vm_compute. reflexivity.
Defined.

(** ** The reference cost *)
Lemma str_leb_refl a : str_leb a a = true.
Proof.
  unfold str_leb, str_ltb. pose proof (String.compare_antisym a a) as Hc.
  by destruct (String.compare a a).
Qed.

Lemma filter_nil_in {A} (f : A -> bool) l x : List.filter f l = [] -> x ∈ l -> f x = false.
Proof.
  intros Hn Hx. destruct (f x) eqn:E; [|done].
  assert (Hin : In x (List.filter f l)) by (apply filter_In; split; [by apply list_elem_of_In|done]).
  by rewrite Hn in Hin.
Qed.

Lemma filter_perm_bool {A} (f : A -> bool) l1 l2 : l1 ≡ₚ l2 -> List.filter f l1 ≡ₚ List.filter f l2.
Proof.
  induction 1 as [|x l1 l2 _ IH|x y l|l1 l2 l3 _ IH1 _ IH2]; simpl; [done| | |by etransitivity].
  - case_match; [by constructor|done].
  - repeat case_match; try done. apply perm_swap.
Qed.

(** A refusal hides the week's reference.  A refused call writes a ledger
    row with no highest cost, and the reference takes that zero for the
    payer's most expensive call of the day: from then on, as long as the day
    has no metered call on that connection, a call without usage counts at
    nothing, whatever the payer's calls of the last seven days cost. *)
Theorem refusal_hides_reference row refused w :
  row_day refused = row_day row -> row_payer refused = row_payer row ->
  row_connectionId refused = row_connectionId row ->
  ledger_highestCall (row_payer row) (row_connectionId row) (row_day row) (row_day row) (w_store w) = None ->
  referenceCost row (healthy (set_store w (ledger_addRefusal refused (w_store w))))
  = (healthy (set_store w (ledger_addRefusal refused (w_store w))), Ok 0).
Proof.
  intros Hd Hp Hc Hnone. unfold referenceCost. step_io.
  set (f := in_reference (row_payer row) (row_connectionId row) (row_day row) (row_day row)).
  assert (Hkey : forall d, f (rowKey refused, d) = true).
  { intros d. unfold f, in_reference, rowKey, dk_payer, dk_connection, dk_day; simpl.
    by rewrite Hd, Hp, Hc, !str_eqb_refl, str_leb_refl. }
  assert (Hempty : List.filter f (map_to_list (s_daily (w_store w))) = []).
  { unfold ledger_highestCall in Hnone. fold f in Hnone.
    destruct (List.filter f _); [done|discriminate]. }
  assert (Hfresh : s_daily (w_store w) !! rowKey refused = None).
  { destruct (s_daily (w_store w) !! rowKey refused) as [d|] eqn:E; [|done].
    apply elem_of_map_to_list in E. apply (filter_nil_in f) in E; [|done]. by rewrite Hkey in E. }
  assert (Hrows : List.filter f (map_to_list (s_daily (ledger_addRefusal refused (w_store w))))
    = [(rowKey refused, mkDaily (row_ownerSub refused) (row_provider refused) (row_unit refused) zeroAmounts 1 0)]).
  { apply Permutation_singleton_r. unfold ledger_addRefusal; simpl. rewrite Hfresh.
    rewrite (filter_perm_bool f _ _ (map_to_list_insert _ _ _ Hfresh)); simpl.
    by rewrite Hkey, Hempty. }
  unfold ledger_highestCall at 1. fold f. rewrite Hrows. done.
Qed.

(** Yesterday's call on the connection cost 500; today's call is refused. *)
Definition yesterday_store : Store :=
  ledger_add (mkRow "2026-01-04" "agent" "owner" "conn" "model" "" "agent" "anthropic" usd)
    (example_amounts 500) 500 (emptyStore 0).

Lemma refusal_hides_reference_witness :
  let w := mkWorld yesterday_store [] in
  snd (referenceCost example_row (healthy w)) = Ok 500 /\
  referenceCost example_row (healthy (set_store w (ledger_addRefusal example_row (w_store w))))
  = (healthy (set_store w (ledger_addRefusal example_row (w_store w))), Ok 0).
Proof.
  intros w. split; [vm_compute; reflexivity|].
  apply (refusal_hides_reference example_row example_row w); reflexivity.
Defined.
