(* ===== verification/SpendCheck.v ===== *)
(** * Spend check: whether a call may spend today

    [spend/services/spend-check.ts] (the gate's check of a call, the hold other
    gates ask about), [createDayTotals], the limit operations of
    [spend/services/spend-service.ts] and the two sagas that write limits.
    The reads that the sources start in parallel run one after another here:
    they touch disjoint counters. *)

From stdpp Require Import base gmap strings list fin_maps.
From Stdlib Require Import ZArith Lia Ascii.
From S2P Require Import Prelude JsString JsDate JsNumber SpendLedger SpendLimits SpendLimitStore SpendPricing SpendMetering SpendStore SpendIngest SpendAccounting SpendCounters.

Local Open Scope Z_scope.

(** ** Data *)
Record CheckedCall := mkChecked {
  cc_callId : string;
  cc_meta : CallMeta;
  cc_dialect : ApiDialect;
}.

Record SpendLimitQuestion := mkQuestion {
  sq_limitId : string;
  sq_scope : LimitScope;
  sq_unit : SpendUnit;
  sq_day : string;
  sq_amountMicros : Z;
  sq_extensions : Z;
}.

Inductive SpendVerdict :=
| v_allow
| v_refuse (reason : SpendBlock) (response : Refusal) (questions : list SpendLimitQuestion).

Record SpendHold := mkHold {
  hold_reason : SpendBlock;
  hold_ownerSub : string;
  hold_questions : list SpendLimitQuestion;
}.

Definition questionsOf (limits : list LimitReading) (day : string) : list SpendLimitQuestion :=
  map (fun reading =>
    let limit := rd_limit reading in
    mkQuestion (lim_id limit) (lim_scope limit) (lim_unit limit) day (lim_amountMicros limit)
      (lim_extensions limit))
    (List.filter (fun reading => isReached (rd_state reading)) limits).

(** ** [createDayTotals] *)
Definition spentToday (counter : DayCounter) : IO World Z :=
  io_catch
    (let* counted := rd (counter_read counter) in
     match counted with
     | Some v => io_ret v
     | None =>
         let* total := rd (ledger_total counter) in
         run* wr (counter_setIfMissing counter total) in
         io_ret total
     end)
    (rd (ledger_total counter)).

(** ** The check *)
Section Check.
Context `{!Locale}.
Variable sessionKnown : string -> string -> result bool.
Variable ownerOfAgent : string -> result (option string).
(** The template of a Connection granted to an agent. *)
Variable templateOf : string -> string -> result (option string).
Variable defaultCeiling : option Z.
Variable brandName : string.

Definition readCall (call : LimitedCall) (day : string)
  : IO World (list LimitReading * option CeilingReading) :=
  let* limits := rd (fun s => limits_applying (Some (lc_payer call)) (lc_ownerSub call) day (s_tables s)) in
  let* ceiling := (if countsInCeiling (lc_unit call)
                   then rd (fun s => ceilings_forOwner defaultCeiling (lc_ownerSub call) (s_tables s))
                   else io_ret None) in
  let* readings := io_map (fun limit =>
      let* spent := spentToday (limitCounter limit day) in io_ret (readLimit limit spent))
    (limitsOnCall limits call) in
  let* ceilingReading := (match ceiling with
    | Some c => let* spent := spentToday (ceilingCounter (lc_ownerSub call) day) in
                io_ret (Some (readCeiling c spent))
    | None => io_ret None
    end) in
  io_ret (readings, ceilingReading).

Definition tellStopped (call : LimitedCall) (day : string)
    (readings : list LimitReading * option CeilingReading) (work : StoppedWork) : IO World unit :=
  match stopOf (snd readings) (fst readings) with
  | None => io_ret tt
  | Some stop => emit (SpendWorkStopped (lc_ownerSub call) (lc_payer call) day stop work)
  end.

(** The ledger row a refusal counts in. *)
Definition refusalRow (call : CheckedCall) : SpendRow :=
  let meta := cc_meta call in
  let provider := fst (payingProvider (mt_providers meta)) in
  {| row_day := utcDay (mt_startedAt meta);
     row_payer := mt_payer meta;
     row_ownerSub := mt_ownerSub meta;
     row_connectionId := mt_connectionId meta ?? UNKNOWN_CONNECTION;
     row_model := UNKNOWN_MODEL;
     row_sessionId := checkedSession sessionKnown (mt_agentId meta) (mt_sessionId meta);
     row_callingAgentId := mt_agentId meta;
     row_provider := provider;
     row_unit := unitOf provider |}.

Definition limitedCall (call : CheckedCall) : LimitedCall :=
  let meta := cc_meta call in
  mkLimitedCall (mt_payer meta) (mt_ownerSub meta) (mt_connectionId meta)
    (unitOf (fst (payingProvider (mt_providers meta)))).

Definition checkCall (call : CheckedCall) : IO World SpendVerdict :=
  let meta := cc_meta call in
  let day := utcDay (mt_startedAt meta) in
  let provider := fst (payingProvider (mt_providers meta)) in
  let limited := limitedCall call in
  let* readings := readCall limited day in
  match blockOf (snd readings) (fst readings) with
  | None => run* callStarted (cc_callId call) meta in io_ret v_allow
  | Some block =>
      run* tellStopped limited day readings (sw_call (mt_agentId meta) (mt_sessionId meta)) in
      run* swallow (wr (ledger_addRefusal (refusalRow call))) in
      io_ret (match block with
              | blk_ceiling =>
                  v_refuse blk_ceiling
                    (refusalFor (cc_dialect call) provider CEILING_TEXT (mt_startedAt meta)) []
              | blk_limit =>
                  v_refuse blk_limit
                    (refusalFor (cc_dialect call) provider (softLimitText brandName) (mt_startedAt meta))
                    (questionsOf (fst readings) day)
              end)
  end.

Definition holdFor (payer : string) (connectionId : option string) (tellOwner : option StoppedWork)
  : IO World (option SpendHold) :=
  let* owner := io_port (ownerOfAgent payer) in
  match owner ≫= or_null with
  | None => io_ret None
  | Some ownerSub =>
      let* template := (match connectionId ≫= or_null with
                        | Some c => io_port (templateOf payer c)
                        | None => io_ret None
                        end) in
      let* now := Date_now in
      let day := utcDay now in
      let template := template ≫= or_null in
      let limited := mkLimitedCall payer ownerSub
        (match template with Some _ => connectionId | None => None end)
        (match template with Some t => unitOf t | None => usd end) in
      let* readings := readCall limited day in
      match blockOf (snd readings) (fst readings) with
      | None => io_ret None
      | Some reason =>
          run* (match tellOwner with
                | Some work => tellStopped limited day readings work
                | None => io_ret tt
                end) in
          io_ret (Some (mkHold reason ownerSub
            (match reason with blk_limit => questionsOf (fst readings) day | blk_ceiling => [] end)))
      end
  end.
End Check.

(** ** Limit writes *)
Section Service.
Variable isAgentOwnedBy : string -> string -> result bool.
Variable payerOf : string -> result string.
Variable templateOf : string -> string -> result (option string).
Variable ownedTemplateOf : string -> string -> result (option string).
Variable ownerSub : string.
(** The UUID drawn for an inserted limit. *)
Variable newId : string.

Definition requireOwned (agentId : string) : IO World unit :=
  let* owned := io_port (isAgentOwnedBy agentId ownerSub) in
  if owned : bool then io_ret tt else io_throw.

Definition requirePayer (agentId : string) : IO World unit :=
  let* payer := io_port (payerOf agentId) in
  if String.eqb payer agentId then io_ret tt else io_throw.

Definition connectionUnit (template : option string) : IO World SpendUnit :=
  match template with
  | None => io_throw
  | Some t => match connectionLimitRule t with
              | limitable unit => io_ret unit
              | not_limitable _ => io_throw
              end
  end.

Definition limitUnit (scope : LimitScope) : IO World SpendUnit :=
  match scope with
  | ls_agent _ | ls_owner => io_ret usd
  | ls_connection agentId connectionId =>
      let* template := io_port (templateOf agentId connectionId) in connectionUnit template
  | ls_owner_connection connectionId =>
      let* template := io_port (ownedTemplateOf ownerSub connectionId) in connectionUnit template
  end.

Definition updTables {A} (f : LimitTables -> LimitTables * A) : IO World A :=
  upd (fun s => let '(t, a) := f (s_tables s) in (with_tables t s, a)).

Definition setLimit (scope : LimitScope) (amountMicros : option Z) : IO World unit :=
  run* (match scope with
        | ls_agent agentId | ls_connection agentId _ =>
            run* requireOwned agentId in
            match amountMicros with Some _ => requirePayer agentId | None => io_ret tt end
        | _ => io_ret tt
        end) in
  let* limitId := (match amountMicros with
    | None => updTables (limits_clear ownerSub scope)
    | Some amount =>
        let* unit := limitUnit scope in
        let* id := updTables (limits_set newId ownerSub scope unit amount) in
        io_ret (Some id)
    end) in
  run* (match limitId with
        | Some id => emit (QuestionsClosed ownerSub id)
        | None => io_ret tt
        end) in
  emit (SpendLimitsChanged ownerSub).
End Service.

(** ** Sagas *)

(** The verdicts an approval can resolve to. *)
Inductive Resolution := res_allow | res_allow_once | res_deny | res_expired.

(** The [spend_limit] payload of a pending question. *)
Record SpendLimitPayload := mkPayload { pl_limitId : string; pl_day : string; pl_extensions : Z }.

(** [extend-on-continue]: one resolved approval. *)
Definition extendOnContinue (question : result (option SpendLimitPayload)) (resolution : Resolution)
    (ownerSub : string) : IO World unit :=
  match resolution with
  | res_allow | res_allow_once =>
      swallow
        (let* q := io_port question in
         match q with
         | None => io_ret tt
         | Some q =>
             run* wr (fun s => with_tables
                        (limits_extend (pl_limitId q) (pl_day q) (pl_extensions q + 1) (s_tables s)) s) in
             emit (SpendLimitsChanged ownerSub)
         end)
  | _ => io_ret tt
  end.

(** [drop-connection-limits]: one removed Connection. *)
Definition dropConnectionLimits (connectionKey actorSub : string) : IO World unit :=
  swallow
    (let* ids := upd (fun s => let '(t, ids) := limits_deleteForConnection connectionKey (s_tables s) in
                               (with_tables t s, ids)) in
     match ids with
     | [] => io_ret tt
     | _ =>
         run* emit (SpendLimitsChanged actorSub) in
         io_iter (fun id => emit (QuestionsClosed actorSub id)) ids
     end).

(** ** Facts *)
(** A store that differs at most in its counters. *)
Definition up_to_counters (s s' : Store) : Prop := exists m, s' = with_counters m s.

Lemma up_to_counters_refl s : up_to_counters s s.
Proof. exists (s_counters s). by destruct s. Qed.

Lemma up_to_counters_trans s1 s2 s3 : up_to_counters s1 s2 -> up_to_counters s2 s3 -> up_to_counters s1 s3.
Proof. intros [m ->] [m' ->]. by exists m'. Qed.

#[export] Instance up_to_counters_preorder : PreOrder up_to_counters.
Proof. split; [exact up_to_counters_refl|exact up_to_counters_trans]. Qed.

Lemma up_to_counters_total s s' c : up_to_counters s s' -> ledger_total c s' = ledger_total c s.
Proof. by intros [m ->]. Qed.

(** Reading a day's spend answers the ledger's total and keeps the counters right. *)
Lemma spentToday_healthy c w :
  counters_ok (w_store w) -> wf_counter c ->
  exists s', spentToday c (healthy w) = (healthy (set_store w s'), Ok (ledger_total c (w_store w))) /\
    up_to_counters (w_store w) s' /\ counters_ok s'.
Proof.
  intros Hok Hwf. unfold spentToday.
  destruct (counter_read c (w_store w)) as [v|] eqn:E.
  - exists (w_store w). split_and!; [|reflexivity|done].
    apply io_catch_ok. step_io. rewrite E, set_store_id. by rewrite (Hok c v Hwf E).
  - exists (counter_setIfMissing c (ledger_total c (w_store w)) (w_store w)).
    unfold counter_read in E. split_and!.
    + apply io_catch_ok. step_io. unfold counter_read. rewrite E. step_io. done.
    + unfold counter_setIfMissing. rewrite E. by eexists.
    + unfold counter_setIfMissing. rewrite E. intros c' v Hwf' Hv.
      change (ledger_total c' _) with (ledger_total c' (w_store w)).
      unfold counter_read in Hv; simpl in Hv. destruct (decide (c' = c)) as [->|Hne].
      * rewrite lookup_insert_eq in Hv. by simplify_eq.
      * rewrite lookup_insert_ne in Hv by (intros Ek; apply Hne; symmetry; by apply counterKey_inj).
        by apply Hok.
Qed.

Lemma readings_healthy day l w :
  counters_ok (w_store w) -> Forall (fun lim => wf_counter (limitCounter lim day)) l ->
  exists s', io_map (fun limit => let* spent := spentToday (limitCounter limit day) in
                                  io_ret (readLimit limit spent)) l (healthy w)
    = (healthy (set_store w s'),
       Ok (map (fun lim => readLimit lim (ledger_total (limitCounter lim day) (w_store w))) l)) /\
    up_to_counters (w_store w) s' /\ counters_ok s'.
Proof.
  revert w. induction l as [|lim l IH]; intros w Hok Hwf; simpl.
  - exists (w_store w). rewrite set_store_id. split_and!; [done|reflexivity|done].
  - apply Forall_cons in Hwf as [Hlim Hwf].
    destruct (spentToday_healthy (limitCounter lim day) w Hok Hlim) as (s1 & Hs1 & Hu1 & Ho1).
    destruct (IH (set_store w s1) Ho1 Hwf) as (s2 & Hs2 & Hu2 & Ho2).
    exists s2. split_and!; [|by etransitivity|done].
    assert (Hfirst : (let* spent := spentToday (limitCounter lim day) in io_ret (readLimit lim spent)) (healthy w)
      = (healthy (set_store w s1), Ok (readLimit lim (ledger_total (limitCounter lim day) (w_store w)))))
      by (by rewrite (io_bind_ok _ _ _ _ _ Hs1)).
    rewrite (io_bind_ok _ _ _ _ _ Hfirst), (io_bind_ok _ _ _ _ _ Hs2). simpl. unfold io_ret.
    erewrite map_ext; [reflexivity|]. intros lim'. simpl. by rewrite (up_to_counters_total _ _ _ Hu1).
Qed.

Section CheckFacts.
Variable defaultCeiling : option Z.

(** The limits on a call and the ceiling over it, as the tables hold them. *)
Definition limits_on (s : Store) (call : LimitedCall) (day : string) : list SpendLimit :=
  limitsOnCall (limits_applying (Some (lc_payer call)) (lc_ownerSub call) day (s_tables s)) call.
Definition ceiling_on (s : Store) (call : LimitedCall) : option SpendCeiling :=
  if countsInCeiling (lc_unit call) then ceilings_forOwner defaultCeiling (lc_ownerSub call) (s_tables s)
  else None.

Definition readings_of (s : Store) (call : LimitedCall) (day : string) : list LimitReading :=
  map (fun lim => readLimit lim (ledger_total (limitCounter lim day) s)) (limits_on s call day).
Definition ceiling_reading_of (s : Store) (call : LimitedCall) (day : string) : option CeilingReading :=
  (fun c => readCeiling c (ledger_total (ceilingCounter (lc_ownerSub call) day) s)) <$> ceiling_on s call.

(** Identifiers free of the counter key's separator. *)
Definition check_wf (s : Store) (call : LimitedCall) (day : string) : Prop :=
  Forall (fun lim => wf_counter (limitCounter lim day)) (limits_on s call day) /\
  wf_counter (ceilingCounter (lc_ownerSub call) day).

Lemma readCall_healthy call day w :
  counters_ok (w_store w) -> check_wf (w_store w) call day ->
  exists s', readCall defaultCeiling call day (healthy w)
    = (healthy (set_store w s'),
       Ok (readings_of (w_store w) call day, ceiling_reading_of (w_store w) call day)) /\
    up_to_counters (w_store w) s' /\ counters_ok s'.
Proof.
  intros Hok [Hwf Hwc]. unfold readCall. step_io.
  assert (Hceil : (if countsInCeiling (lc_unit call)
      then rd (fun s => ceilings_forOwner defaultCeiling (lc_ownerSub call) (s_tables s)) else io_ret None)
      (healthy w) = (healthy w, Ok (ceiling_on (w_store w) call))).
  { unfold ceiling_on. case_match; [by step_io|done]. }
  rewrite (io_bind_ok _ _ _ _ _ Hceil).
  destruct (readings_healthy day (limits_on (w_store w) call day) w Hok Hwf) as (s1 & Hs1 & Hu1 & Ho1).
  unfold limits_on in Hs1 at 1. rewrite (io_bind_ok _ _ _ _ _ Hs1).
  unfold ceiling_reading_of. destruct (ceiling_on (w_store w) call) as [c|]; simpl.
  - destruct (spentToday_healthy (ceilingCounter (lc_ownerSub call) day) (set_store w s1) Ho1 Hwc)
      as (s2 & Hs2 & Hu2 & Ho2).
    exists s2. split_and!; [|by etransitivity|done].
    unfold io_bind at 1. rewrite (io_bind_ok _ _ _ _ _ Hs2). simpl.
    by rewrite (up_to_counters_total _ _ _ Hu1).
  - exists s1. by split_and!.
Qed.

(** Is some limit or the ceiling used up, by the ledger? *)
Definition used_up (s : Store) (call : LimitedCall) (day : string) : Prop :=
  (exists c, ceiling_on s call = Some c /\
     ceil_amountMicros c <= ledger_total (ceilingCounter (lc_ownerSub call) day) s) \/
  (exists lim, lim ∈ limits_on s call day /\ effectiveMicros lim <= ledger_total (limitCounter lim day) s).

Lemma block_iff_used_up s call day :
  blockOf (ceiling_reading_of s call day) (readings_of s call day) = None <-> ~ used_up s call day.
Proof.
  unfold blockOf, used_up.
  assert (Hc : ceilingReached (ceiling_reading_of s call day) = true <->
    exists c, ceiling_on s call = Some c /\
      ceil_amountMicros c <= ledger_total (ceilingCounter (lc_ownerSub call) day) s).
  { unfold ceiling_reading_of. destruct (ceiling_on s call) as [c|]; simpl; [|naive_solver].
    rewrite isReached_spec, limitState_reached. naive_solver. }
  assert (Hl : existsb (fun reading => isReached (rd_state reading)) (readings_of s call day) = true <->
    exists lim, lim ∈ limits_on s call day /\ effectiveMicros lim <= ledger_total (limitCounter lim day) s).
  { unfold readings_of. rewrite existsb_exists. split.
    - intros (r & Hin & Hr). apply in_map_iff in Hin as (lim & <- & Hlim).
      rewrite isReached_spec in Hr. simpl in Hr. apply limitState_reached in Hr.
      exists lim. by rewrite list_elem_of_In.
    - intros (lim & Hin & Hle). eexists. split; [apply in_map_iff; exists lim; split; [done|by apply list_elem_of_In]|].
      rewrite isReached_spec. simpl. by apply limitState_reached. }
  destruct (ceilingReached _); [naive_solver|].
  destruct (existsb _ _); naive_solver.
Qed.
End CheckFacts.

Section CheckTheorems.
Context `{!Locale}.
Variable sessionKnown : string -> string -> result bool.
Variable defaultCeiling : option Z.
Variable brandName : string.

Definition call_day (call : CheckedCall) : string := utcDay (mt_startedAt (cc_meta call)).

Definition refused_in (s : Store) (k : DailyKey) : Z :=
  match s_daily s !! k with Some d => d_refused d | None => 0 end.

Lemma addRefusal_refused row s : refused_in (ledger_addRefusal row s) (rowKey row) = refused_in s (rowKey row) + 1.
Proof.
  unfold refused_in, ledger_addRefusal; simpl. rewrite lookup_insert_eq.
  destruct (s_daily s !! rowKey row); done.
Qed.

Lemma emit_healthy e w : emit e (healthy w) = (healthy (mkWorld (w_store w) (w_events w ++ [e])), Ok tt).
Proof. done. Qed.

Lemma tellStopped_healthy call day readings work w :
  exists evs, tellStopped call day readings work (healthy w) = (healthy (mkWorld (w_store w) evs), Ok tt).
Proof.
  unfold tellStopped. case_match; [rewrite emit_healthy; by eexists|].
  exists (w_events w). by destruct w.
Qed.

End CheckTheorems.

Definition example_call : CheckedCall :=
  mkChecked "c1" (mkMeta "a" "a" "o" (Some "c"%string) ["anthropic"%string] None None 1767600000000)
    anthropic_messages.


(** ** Limits keep their units *)

(** Agent and owner limits are in dollars, and no limit is in the free unit. *)
Definition tables_units (t : LimitTables) : Prop :=
  forall k row, (k, row) ∈ t_limits t -> lr_unit row <> free /\
    (lk_scope k = "agent"%string \/ lk_scope k = "owner"%string -> lr_unit row = usd).

Lemma limitable_not_free t u : connectionLimitRule t = limitable u -> u <> free.
Proof.
  unfold connectionLimitRule. destruct (spendUnitOfProvider t) as [[]|]; try case_match; intros; simplify_eq; done.
Qed.

Lemma tables_units_set newId owner scope unit amount t :
  tables_units t -> unit <> free ->
  (match scope with ls_agent _ | ls_owner => unit = usd | _ => True end) ->
  tables_units (fst (limits_set newId owner scope unit amount t)).
Proof.
  intros Ht Hf Hs k row Hin. unfold limits_set in Hin; simpl in Hin.
  apply om_set_in in Hin as [Heq|[Hin _]]; [|by apply Ht]. injection Heq as -> ->. simpl.
  split; [done|]. unfold limitKey, lk_scope; simpl. destruct scope; simpl; try done; intros [?|?]; done.
Qed.

Lemma tables_units_delete key t : tables_units t ->
  forall e c, tables_units (mkTables (om_delete key (t_limits t)) e c).
Proof.
  intros Ht e c k row Hin. apply Ht. simpl in Hin.
  revert Hin. generalize (t_limits t). intros l. induction l as [|[k0 v0] l IH]; simpl; [done|].
  case_decide; set_solver.
Qed.

Section SetLimitFacts.
Variable isAgentOwnedBy : string -> string -> result bool.
Variable payerOf : string -> result string.
Variables templateOf ownedTemplateOf : string -> string -> result (option string).
Variables ownerSub newId : string.

(** A computation that keeps the stored units, whatever fails. *)
Notation keeps_units m := (io_keeps (fun w => tables_units (s_tables (w_store w))) m).

Lemma keeps_emit e : keeps_units (emit e).
Proof. by intros w. Qed.
Lemma keeps_updTables {A} (f : LimitTables -> LimitTables * A) :
  (forall t, tables_units t -> tables_units (fst (f t))) -> keeps_units (updTables f).
Proof.
  intros Hf. apply keeps_op. intros w Hw. specialize (Hf _ Hw).
  by destruct (f (s_tables (w_store w))).
Qed.

Lemma limitUnit_ok scope w w' u :
  limitUnit templateOf ownedTemplateOf ownerSub scope w = (w', Ok u) ->
  w' = w /\ u <> free /\ (match scope with ls_agent _ | ls_owner => u = usd | _ => True end).
Proof.
  unfold limitUnit, connectionUnit, io_bind, io_port, io_ret, io_throw.
  destruct scope; intros H; simplify_eq; [done|done| |];
    repeat (case_match; simplify_eq/=); split_and!; try done;
    eapply limitable_not_free; eauto.
Qed.

(** Limits keep the units that make them comparable.  Whatever
    [setLimit] is asked, and wherever it fails on the way, an agent's limit
    and an owner's limit stay in dollars and no limit is in the free unit:
    the condition under which the limits an owner sees are the limits the
    gate enforces. *)
Theorem setLimit_keeps_units scope amountMicros w :
  tables_units (s_tables (w_store (io_st w))) ->
  let w' := fst (setLimit isAgentOwnedBy payerOf templateOf ownedTemplateOf ownerSub newId scope amountMicros w) in
  tables_units (s_tables (w_store (io_st w'))) /\
  forall agentId day, dollar_scopes (limits_applying agentId ownerSub day (s_tables (w_store (io_st w')))).
Proof.
  intros Hw w'.
  assert (Hk : tables_units (s_tables (w_store (io_st w')))).
  { subst w'. revert w Hw.
    enough (keeps_units (setLimit isAgentOwnedBy payerOf templateOf ownedTemplateOf ownerSub newId scope amountMicros)) as H
      by (intros w Hw; specialize (H w ltac:(done) Hw); destruct (setLimit _ _ _ _ _ _ _ _ w) as [? []]; apply H).
    assert (Hro : forall a, keeps_units (requireOwned isAgentOwnedBy ownerSub a)).
    { intros a. apply keeps_bind; [apply keeps_port|]. intros []; [apply keeps_ret|apply keeps_throw]. }
    assert (Hrp : forall a, keeps_units (requirePayer payerOf a)).
    { intros a. apply keeps_bind; [apply keeps_port|]. intros p. case_match; [apply keeps_ret|apply keeps_throw]. }
    unfold setLimit. apply keeps_bind.
    { destruct scope; try apply keeps_ret; (apply keeps_bind; [apply Hro|intros _]);
        destruct amountMicros; auto using keeps_ret. }
    intros _. apply keeps_bind.
    2: { intros id. apply keeps_bind; [destruct id; auto using keeps_emit, keeps_ret|intros _; apply keeps_emit]. }
    destruct amountMicros as [amount|].
    - intros w Hh Hw. unfold io_bind at 1.
      destruct (limitUnit templateOf ownedTemplateOf ownerSub scope w) as [w1 [u|]] eqn:E.
      + apply limitUnit_ok in E as (-> & Hf & Hs).
        refine (keeps_bind _ _ _ _ (keeps_updTables _ _) (fun id => keeps_ret _ _ _) w Hh Hw).
        intros t Ht. by apply tables_units_set.
      + unfold limitUnit, connectionUnit, io_bind, io_port, io_ret, io_throw in E.
        destruct scope; repeat (case_match; simplify_eq/=); done.
    - apply keeps_updTables. intros t Ht. unfold limits_clear. case_match; [|done].
      by apply tables_units_delete. }
  split; [done|]. intros agentId day l (k & row & sc & Hin & _ & Hsc & ->)%limits_applying_in. simpl.
  destruct (Hk k row Hin) as [_ Hu]. revert Hsc. unfold scopeOf.
  repeat (case_match; simplify_eq/=); intros; simplify_eq/=; try done;
    try (apply Hu; right; by apply String.eqb_eq); try (apply Hu; left; by apply String.eqb_eq);
    destruct (lk_agent k ≫= or_null), (lk_connection k ≫= or_null); simplify_eq/=; try done;
    apply Hu; left; by apply String.eqb_eq.
Qed.
End SetLimitFacts.

Lemma setLimit_keeps_units_witness :
  let w' := fst (setLimit (fun _ _ => Ok true) Ok (fun _ _ => Ok None) (fun _ _ => Ok None) "o" "id1"
                   (ls_agent "a") (Some 10) (healthy (mkWorld (emptyStore 0) []))) in
  tables_units (s_tables (w_store (io_st w'))) /\
  limits_applying (Some "a"%string) "o" "2026-01-05" (s_tables (w_store (io_st w')))
  = [mkLimit "id1" "o" (ls_agent "a") usd 10 0].
Proof.
  split; [|vm_compute; reflexivity].
  apply (setLimit_keeps_units (fun _ _ => Ok true) Ok (fun _ _ => Ok None) (fun _ _ => Ok None) "o" "id1"
           (ls_agent "a") (Some 10) (healthy (mkWorld (emptyStore 0) []))).
  intros k row H. by apply not_elem_of_nil in H.
Defined.
