(* ===== verification/EgressRules.v ===== *)
(** * Egress rules: which rule speaks for a request

    [egress-rules/domain] and [egress-rules/infrastructure/egress-rules-repository.ts]
    of the api-server, with [canonicalEgressHost] and [promotedHosts] of
    api-server-api.  The table is the list of its rows; a query that gives no
    order is read in table order.  [LIKE] is Postgres's: a percent sign stands
    for any text, an underscore for one character, a backslash escapes the
    next character and is an error at the end of a pattern. *)

From stdpp Require Import base sets strings list sorting.
From Stdlib Require Import ZArith Lia Ascii.
From S2P Require Import Prelude JsString.

Local Open Scope Z_scope.

(** ** domain *)
Definition canonicalEgressHost (host : string) : string := toLowerCase host.

(** The text after the first dot; the whole host when it has none. *)
Fixpoint after_dot (s : string) : option string :=
  match s with
  | EmptyString => None
  | String c s' => if Ascii.eqb c "." then Some s' else after_dot s'
  end.

Definition hostMatchCandidates (host : string) : list string :=
  match after_dot host with
  | Some parent => [host; "*." ++ parent; "*"]
  | None => [host; "*"]
  end%string.

Definition GITHUB_HOSTS : list string :=
  ["github.com"; "api.github.com"; "codeload.github.com"; "raw.githubusercontent.com"]%string.

Definition denyIgnoresPathCase (host : string) : bool :=
  includes GITHUB_HOSTS host || endsWith host ".ghe.com".

Definition rulePortCovers (rulePort : option Z) (port : Z) (tls : bool) : bool :=
  (rulePort ?? (if tls then 443 else 80)) =? port.

(** ** The table *)
Inductive RuleVerdict := rv_allow | rv_deny.
#[export] Instance RuleVerdict_eq_dec : EqDecision RuleVerdict.
Proof. solve_decision. Defined.

Record EgressRuleRow := mkRule {
  er_id : string;
  er_agentId : string;
  er_host : string;
  er_port : option Z;
  er_method : string;
  er_pathPattern : string;
  er_verdict : RuleVerdict;
  er_decidedBy : string;
  er_decidedAt : Z;
  er_active : bool;
  er_source : string;
  er_presetSource : option string;
}.

#[export] Instance EgressRuleRow_eq_dec : EqDecision EgressRuleRow.
Proof. solve_decision. Defined.

Definition RuleTable : Type := list EgressRuleRow.

(** ** LIKE *)

(** [None] is the error of a pattern that ends in a lone backslash. *)
Fixpoint like (p s : string) {struct p} : option bool :=
  match p with
  | EmptyString => Some (String.eqb s "")
  | String c p' =>
      if Ascii.eqb c "%" then
        (fix any (s : string) : option bool :=
           match like p' s with
           | Some false => match s with EmptyString => Some false | String _ s' => any s' end
           | r => r
           end) s
      else match s with
           | EmptyString => Some false
           | String d s' =>
               if Ascii.eqb c "_" then like p' s'
               else if Ascii.eqb c "\" then
                 match p' with
                 | EmptyString => None
                 | String e p'' => if Ascii.eqb e d then like p'' s' else Some false
                 end
               else if Ascii.eqb c d then like p' s' else Some false
           end
  end.

Definition ilike (p s : string) : option bool := like (toLowerCase p) (toLowerCase s).

(** [replace(path_pattern, '*', '%')] *)
Definition like_pattern (pathPattern : string) : string := replace_char "*" "%" pathPattern.

Definition or_sql (a b : option bool) : option bool :=
  match a with Some false => b | _ => a end.

Definition pathMatches (host path : string) (r : EgressRuleRow) : option bool :=
  let p := like_pattern (er_pathPattern r) in
  if denyIgnoresPathCase host
  then or_sql (like p path) (if bool_decide (er_verdict r = rv_deny) then ilike p path else Some false)
  else like p path.

(** ** findMatch *)

(** The order of the query: closest host, named method, named path, longest path. *)
Definition host_rank (host : string) (r : EgressRuleRow) : Z :=
  if String.eqb (toLowerCase (er_host r)) host then 0 else if String.eqb (er_host r) "*" then 2 else 1.

Definition star_rank (s : string) : Z := if String.eqb s "*" then 1 else 0.

Definition rule_cmp (host : string) (a b : EgressRuleRow) : Z :=
  cmp_or (host_rank host a - host_rank host b)
    (cmp_or (star_rank (er_method a) - star_rank (er_method b))
       (cmp_or (star_rank (er_pathPattern a) - star_rank (er_pathPattern b))
          (slen (er_pathPattern b) - slen (er_pathPattern a)))).

(** The WHERE clause but for the path. *)
Definition rule_candidate (agentId host method : string) (r : EgressRuleRow) : bool :=
  String.eqb (er_agentId r) agentId
  && includes (hostMatchCandidates host) (toLowerCase (er_host r))
  && er_active r
  && (String.eqb (er_method r) method || String.eqb (er_method r) "*").

Definition findMatch (agentId requestHost : string) (port : Z) (tls : bool) (method path : string)
    (t : RuleTable) : result (option EgressRuleRow) :=
  let host := canonicalEgressHost requestHost in
  let candidates := List.filter (rule_candidate agentId host method) t in
  if existsb (fun r => match pathMatches host path r with None => true | Some _ => false end) candidates
  then Throw
  else
    let rows := List.filter (fun r => match pathMatches host path r with Some b => b | None => false end)
                  candidates in
    Ok (List.find (fun r => rulePortCovers (er_port r) port tls) (js_sort (rule_cmp host) rows)).

(** ** Other operations of the repository *)
Definition CONNECTION_PREFIX : string := "connection:".
Definition PRESET_PREFIX : string := "preset:".
Definition PLATFORM_ENVIRONMENTS_SOURCE : string := "platform:environments".
Definition from_connection (source : string) : bool := startsWith source CONNECTION_PREFIX.
Definition from_preset (source : string) : bool := startsWith source PRESET_PREFIX.

Definition getById (id : string) (t : RuleTable) : option EgressRuleRow :=
  List.find (fun r => String.eqb (er_id r) id) t.

Definition same_tuple (agentId host : string) (port : option Z) (method pathPattern : string)
    (r : EgressRuleRow) : bool :=
  String.eqb (er_agentId r) agentId && String.eqb (er_host r) host
  && bool_decide (er_port r = port) && String.eqb (er_method r) method
  && String.eqb (er_pathPattern r) pathPattern && er_active r.

Definition getActiveByTuple (agentId host : string) (port : option Z) (method pathPattern : string)
    (t : RuleTable) : option EgressRuleRow :=
  List.find (same_tuple agentId host port method pathPattern) t.

Record NewEgressRule := mkNewRule {
  nr_id : string;
  nr_agentId : string;
  nr_host : string;
  nr_port : option Z;
  nr_method : string;
  nr_pathPattern : string;
  nr_verdict : RuleVerdict;
  nr_decidedBy : string;
  nr_source : string;
}.

(** The stored row; [decided_at] defaults to the time of the insert. *)
Definition row_of (now : Z) (n : NewEgressRule) : EgressRuleRow :=
  mkRule (nr_id n) (nr_agentId n) (nr_host n) (nr_port n) (nr_method n) (nr_pathPattern n)
    (nr_verdict n) (nr_decidedBy n) now true (nr_source n) None.

(** [ON CONFLICT DO NOTHING]: the primary key, or the unique index on the
    active rows, where a missing port counts as 0. *)
Definition conflicts (n : NewEgressRule) (r : EgressRuleRow) : bool :=
  String.eqb (er_id r) (nr_id n) ||
  (er_active r && String.eqb (er_agentId r) (nr_agentId n) && String.eqb (er_host r) (nr_host n)
   && ((er_port r ?? 0) =? (nr_port n ?? 0)) && String.eqb (er_method r) (nr_method n)
   && String.eqb (er_pathPattern r) (nr_pathPattern n)).

Definition insertIfFree (now : Z) (n : NewEgressRule) (t : RuleTable) : option RuleTable :=
  if existsb (conflicts n) t then None else Some (t ++ [row_of now n]).

Definition rule_insert (now : Z) (n : NewEgressRule) (t : RuleTable) : RuleTable * result EgressRuleRow :=
  match insertIfFree now n t with
  | Some t' => (t', Ok (row_of now n))
  | None =>
      (t, match getActiveByTuple (nr_agentId n) (nr_host n) (nr_port n) (nr_method n) (nr_pathPattern n) t with
          | Some existing => Ok existing
          | None => Throw
          end)
  end.

Definition insertAll (now : Z) (rows : list NewEgressRule) (t : RuleTable) : RuleTable :=
  fold_left (fun t n => insertIfFree now n t ?? t) rows t.

Definition set_source (source : string) (preset : option string) (decidedBy : string) (r : EgressRuleRow)
  : EgressRuleRow :=
  mkRule (er_id r) (er_agentId r) (er_host r) (er_port r) (er_method r) (er_pathPattern r)
    (er_verdict r) decidedBy (er_decidedAt r) (er_active r) source preset.

Definition insertOrPromoteFromPreset (now : Z) (n : NewEgressRule) (t : RuleTable)
  : RuleTable * result EgressRuleRow :=
  match insertIfFree now n t with
  | Some t' => (t', Ok (row_of now n))
  | None =>
      let hit r := same_tuple (nr_agentId n) (nr_host n) (nr_port n) (nr_method n) (nr_pathPattern n) r
                   && from_preset (er_source r) in
      let promote r := set_source (nr_source n)
        (if from_connection (nr_source n) then Some (er_source r) else None) (nr_decidedBy n) r in
      match List.find hit t with
      | Some r => (map (fun r => if hit r then promote r else r) t, Ok (promote r))
      | None =>
          (t, match getActiveByTuple (nr_agentId n) (nr_host n) (nr_port n) (nr_method n) (nr_pathPattern n) t with
              | Some existing => Ok existing
              | None => Throw
              end)
      end
  end.

(** [UPDATE ... SET method, path_pattern, verdict, decided_by, source] *)
Definition take_row (method pathPattern : string) (verdict : RuleVerdict) (decidedBy source : string)
    (r : EgressRuleRow) : EgressRuleRow :=
  mkRule (er_id r) (er_agentId r) (er_host r) (er_port r) method pathPattern verdict decidedBy
    (er_decidedAt r) (er_active r) source None.

(** The unique index refuses an update that repeats another active row. *)
Definition clashes (r r' : EgressRuleRow) : bool :=
  negb (String.eqb (er_id r) (er_id r')) && er_active r' && String.eqb (er_agentId r) (er_agentId r')
  && String.eqb (er_host r) (er_host r') && ((er_port r ?? 0) =? (er_port r' ?? 0))
  && String.eqb (er_method r) (er_method r') && String.eqb (er_pathPattern r) (er_pathPattern r').

Definition updateTakeOwnership (id method pathPattern : string) (verdict : RuleVerdict)
    (decidedBy source : string) (t : RuleTable) : RuleTable * result (option EgressRuleRow) :=
  let hit r := String.eqb (er_id r) id && er_active r in
  match List.find hit t with
  | None => (t, Ok None)
  | Some r =>
      let taken := take_row method pathPattern verdict decidedBy source r in
      if existsb (clashes taken) t then (t, Throw)
      else (map (fun r => if hit r then take_row method pathPattern verdict decidedBy source r else r) t,
            Ok (Some taken))
  end.

Definition set_active (active : bool) (r : EgressRuleRow) : EgressRuleRow :=
  mkRule (er_id r) (er_agentId r) (er_host r) (er_port r) (er_method r) (er_pathPattern r)
    (er_verdict r) (er_decidedBy r) (er_decidedAt r) active (er_source r) (er_presetSource r).

Definition revoke (id : string) (t : RuleTable) : RuleTable :=
  map (fun r => if String.eqb (er_id r) id then set_active false r else r) t.

Definition restorePresetSource (id : string) (t : RuleTable) : RuleTable :=
  map (fun r =>
    match er_presetSource r with
    | Some preset =>
        if String.eqb (er_id r) id && er_active r then set_source preset None (er_decidedBy r) r else r
    | None => r
    end) t.

Definition revokePresetRowsForAgent (agentId : string) (t : RuleTable) : RuleTable :=
  map (fun r =>
    if String.eqb (er_agentId r) agentId && er_active r then
      let r := set_source (er_source r) None (er_decidedBy r) r in
      if from_preset (er_source r) then set_active false r else r
    else r) t.

Definition markPresetUnderConnections (agentId : string) (hosts : list string) (source : string)
    (t : RuleTable) : RuleTable :=
  map (fun r =>
    if String.eqb (er_agentId r) agentId && er_active r && from_connection (er_source r)
       && includes (map canonicalEgressHost hosts) (toLowerCase (er_host r))
       && bool_decide (er_port r = None) && String.eqb (er_method r) "*"
       && String.eqb (er_pathPattern r) "*"
    then set_source (er_source r) (Some source) (er_decidedBy r) r else r) t.

(** The rows a Connection took from the preset before [preset_source] was
    kept: seeded within five seconds of a row of the preset, in an agent that
    still has the preset. *)
Definition seededUnder (source : string) (t : RuleTable) (taken : EgressRuleRow) : bool :=
  existsb (fun seeded => String.eqb (er_agentId seeded) (er_agentId taken)
             && String.eqb (er_source seeded) source
             && (er_decidedAt taken - 5000 <=? er_decidedAt seeded)
             && (er_decidedAt seeded <=? er_decidedAt taken + 5000)) t
  && existsb (fun current => String.eqb (er_agentId current) (er_agentId taken)
                && er_active current && String.eqb (er_source current) source) t.

Definition markSeededConnectionRows (hosts : list string) (source : string) (t : RuleTable)
  : RuleTable * nat :=
  let hit r := er_active r && from_connection (er_source r) && bool_decide (er_presetSource r = None)
               && includes (map canonicalEgressHost hosts) (toLowerCase (er_host r))
               && bool_decide (er_port r = None) && String.eqb (er_method r) "*"
               && String.eqb (er_pathPattern r) "*" && seededUnder source t r in
  (map (fun r => if hit r then set_source (er_source r) (Some source) (er_decidedBy r) r else r) t,
   length (List.filter hit t)).

Inductive EgressPreset := preset_none | preset_trusted | preset_all.
#[export] Instance EgressPreset_eq_dec : EqDecision EgressPreset.
Proof. solve_decision. Defined.

Definition getPresetForAgent (agentId : string) (t : RuleTable) : EgressPreset :=
  let sources := map er_source (List.filter (fun r =>
    String.eqb (er_agentId r) agentId && er_active r && from_preset (er_source r)) t) in
  if includes sources "preset:all"%string then preset_all
  else if includes sources "preset:trusted"%string then preset_trusted
  else preset_none.

Definition hasUserOwnedRuleForHost (agentId host : string) (t : RuleTable) : bool :=
  existsb (fun r => String.eqb (er_agentId r) agentId && String.eqb (er_host r) host && er_active r
                    && includes ["manual"; "inbox"]%string (er_source r)) t.

Definition listConnectionDerivedForAgent (agentId : string) (t : RuleTable) : list EgressRuleRow :=
  List.filter (fun r => String.eqb (er_agentId r) agentId && er_active r && from_connection (er_source r)) t.

(** Newest first. *)
Definition listForAgent (agentId : string) (t : RuleTable) : list EgressRuleRow :=
  js_sort (fun a b => er_decidedAt b - er_decidedAt a)
    (List.filter (fun r => String.eqb (er_agentId r) agentId && er_active r) t).

Definition platformRule (agentId : string) (t : RuleTable) : option EgressRuleRow * bool :=
  let rows := List.filter (fun r => String.eqb (er_agentId r) agentId
                && String.eqb (er_source r) PLATFORM_ENVIRONMENTS_SOURCE) t in
  (List.find er_active rows, match rows with [] => false | _ => true end).

Definition reassignActiveSource (agentId : string) (fromSources : list string) (toSource : string)
    (t : RuleTable) : RuleTable :=
  map (fun r => if String.eqb (er_agentId r) agentId && er_active r && includes fromSources (er_source r)
                then set_source toSource (er_presetSource r) (er_decidedBy r) r else r) t.

Definition listDistinctAgentIds (t : RuleTable) : list string := js_uniq (map er_agentId t).

Definition listActiveForPromotionScan (t : RuleTable) : list EgressRuleRow := List.filter er_active t.

Definition deleteForAgent (agentId : string) (t : RuleTable) : RuleTable :=
  List.filter (fun r => negb (String.eqb (er_agentId r) agentId)) t.

(** ** L7 promotion *)
Definition needsL7Promotion (r : EgressRuleRow) : bool :=
  negb (String.eqb (er_method r) "*") || negb (String.eqb (er_pathPattern r) "*")
  || match er_port r with Some _ => true | None => false end.

Definition promotedHosts (rules : list EgressRuleRow) : list string :=
  js_sort code_unit_compare (js_uniq (map er_host
    (List.filter needsL7Promotion
       (List.filter (fun r => negb (from_connection (er_source r)))
          (List.filter (fun r => negb (String.eqb (er_host r) "*")) rules))))).

(** ** Facts *)
#[export] Instance rule_cmp_order host : CmpOrder (rule_cmp host).
Proof.
  unfold rule_cmp.
  apply (cmp_or_order (fun a b => host_rank host a - host_rank host b) (fun a b =>
    cmp_or (star_rank (er_method a) - star_rank (er_method b))
      (cmp_or (star_rank (er_pathPattern a) - star_rank (er_pathPattern b))
         (slen (er_pathPattern b) - slen (er_pathPattern a))))); [apply cmp_key_order|].
  apply (cmp_or_order (fun a b => star_rank (er_method a) - star_rank (er_method b)) (fun a b =>
    cmp_or (star_rank (er_pathPattern a) - star_rank (er_pathPattern b))
      (slen (er_pathPattern b) - slen (er_pathPattern a)))); [apply (cmp_key_order (fun r => star_rank (er_method r)))|].
  apply (cmp_or_order (fun a b => star_rank (er_pathPattern a) - star_rank (er_pathPattern b))
           (fun a b => slen (er_pathPattern b) - slen (er_pathPattern a)));
    [apply (cmp_key_order (fun r => star_rank (er_pathPattern r)))|].
  split; intros; lia.
Qed.

Lemma find_sorted_least {A} (cmp : A -> A -> Z) (f : A -> bool) l x :
  StronglySorted (cmp_le cmp) l -> CmpOrder cmp -> List.find f l = Some x ->
  x ∈ l /\ f x = true /\ forall y, y ∈ l -> f y = true -> cmp_le cmp x y.
Proof.
  intros Hs Hc. induction Hs as [|a l Hs IH Hall]; simpl; [done|].
  destruct (f a) eqn:E.
  - intros [= <-]. split_and!; [set_solver|done|]. intros y [->|Hy]%elem_of_cons _.
    + unfold cmp_le. by rewrite cmp_refl.
    + rewrite Forall_forall in Hall. auto.
  - intros Hf. destruct (IH Hf) as (Hx & Hfx & Hle). split_and!; [set_solver|done|].
    intros y [->|Hy]%elem_of_cons Hfy; [congruence|auto].
Qed.

Lemma find_none_all {A} (f : A -> bool) l : List.find f l = None -> forall y, y ∈ l -> f y = false.
Proof. intros H y Hy. by apply (find_none _ _ H), list_elem_of_In. Qed.

Lemma elem_of_list_filter {A} (f : A -> bool) l x : x ∈ List.filter f l <-> x ∈ l /\ f x = true.
Proof. by rewrite !list_elem_of_In, filter_In. Qed.

(** A rule that speaks for a request. *)
Definition speaks_for (agentId host : string) (port : Z) (tls : bool) (method path : string)
    (r : EgressRuleRow) : Prop :=
  rule_candidate agentId host method r = true /\ pathMatches host path r = Some true /\
  rulePortCovers (er_port r) port tls = true.

Lemma findMatch_rows agentId requestHost port tls method path t found :
  findMatch agentId requestHost port tls method path t = Ok found ->
  exists rows, found = List.find (fun r => rulePortCovers (er_port r) port tls)
                         (js_sort (rule_cmp (canonicalEgressHost requestHost)) rows) /\
    forall r, r ∈ rows <-> r ∈ t /\ rule_candidate agentId (canonicalEgressHost requestHost) method r = true
                         /\ pathMatches (canonicalEgressHost requestHost) path r = Some true.
Proof.
  unfold findMatch. set (host := canonicalEgressHost requestHost). case_match; [done|]. intros [= <-].
  eexists. split; [reflexivity|]. intros r. rewrite !elem_of_list_filter.
  destruct (pathMatches host path r) as [[]|]; naive_solver.
Qed.

Lemma findMatch_sound agentId requestHost port tls method path t r :
  findMatch agentId requestHost port tls method path t = Ok (Some r) ->
  r ∈ t /\ speaks_for agentId (canonicalEgressHost requestHost) port tls method path r.
Proof.
  intros (rows & Hf & Hrows)%findMatch_rows. symmetry in Hf. apply find_some in Hf as [Hin Hp].
  apply list_elem_of_In, js_sort_elem, Hrows in Hin as (? & ? & ?). by split_and!.
Qed.

Lemma findMatch_none agentId requestHost port tls method path t r :
  findMatch agentId requestHost port tls method path t = Ok None ->
  r ∈ t -> ~ speaks_for agentId (canonicalEgressHost requestHost) port tls method path r.
Proof.
  intros (rows & Hf & Hrows)%findMatch_rows Hr (H1 & H2 & H3). symmetry in Hf.
  pose proof (find_none_all _ _ Hf r) as Hn. rewrite Hn in H3; [done|]. by apply js_sort_elem, Hrows.
Qed.

Lemma findMatch_least agentId requestHost port tls method path t r r' :
  findMatch agentId requestHost port tls method path t = Ok (Some r) ->
  r' ∈ t -> speaks_for agentId (canonicalEgressHost requestHost) port tls method path r' ->
  rule_cmp (canonicalEgressHost requestHost) r r' <= 0.
Proof.
  intros (rows & Hf & Hrows)%findMatch_rows Hr' (H1 & H2 & H3). symmetry in Hf.
  apply (find_sorted_least (rule_cmp (canonicalEgressHost requestHost))) in Hf as (_ & _ & Hle);
    [|apply js_sort_sorted; apply _|apply _].
  apply Hle; [|done]. by apply js_sort_elem, Hrows.
Qed.


Definition example_rule (id host method path : string) (v : RuleVerdict) : EgressRuleRow :=
  mkRule id "a" host None method path v "u" 0 true "manual" None.


(** ** Hosts *)
Lemma after_dot_spec s r :
  after_dot s = Some r <-> exists label, has_char "." label = false /\ s = (label ++ String "." r)%string.
Proof.
  induction s as [|c s IH]; simpl.
  - split; [done|]. intros ([|d label] & _ & E); [rewrite str_append_nil_l in E|rewrite str_append_cons in E]; done.
  - destruct (Ascii.eqb_spec c ".") as [->|Hc].
    + split.
      * intros [= ->]. exists ""%string. by rewrite str_append_nil_l.
      * intros ([|d label] & Hl & E); [rewrite str_append_nil_l in E; by simplify_eq|].
        rewrite str_append_cons in E. by simplify_eq.
    + rewrite IH. split.
      * intros (label & Hl & ->). exists (String c label). rewrite str_append_cons. split; [|done].
        unfold has_char in *; cbn [str_existsb]. apply orb_false_iff. split; [|done].
        destruct (Ascii.eqb_spec "." c) as [<-|]; [by destruct Hc|done].
      * intros ([|d label] & Hl & E); [rewrite str_append_nil_l in E; by simplify_eq|].
        rewrite str_append_cons in E. simplify_eq. exists label. split; [|done].
        unfold has_char in *; cbn [str_existsb] in Hl. by apply orb_false_iff in Hl as [_ ?].
Qed.

(** A wildcard stands for exactly one label.  The rule hosts that speak
    for a request's host are the host itself, the bare star, and a star for
    its first label; so a wildcard rule covers a host one label below its
    parent and nothing deeper. *)
Theorem wildcard_is_one_label host rule_host :
  rule_host ∈ hostMatchCandidates host <->
  rule_host = host \/ rule_host = "*"%string \/
  exists label parent, has_char "." label = false /\ host = (label ++ "." ++ parent)%string /\
    rule_host = ("*." ++ parent)%string.
Proof.
  unfold hostMatchCandidates. pose proof (after_dot_spec host) as Hd.
  destruct (after_dot host) as [parent|].
  - rewrite !elem_of_cons, elem_of_nil.
    destruct (proj1 (Hd parent) eq_refl) as (label & Hl & Hh). split.
    + intros [->|[->|[->|[]]]]; [by left| |by right; left]. right. right. by exists label, parent.
    + intros [->|[->|(label' & parent' & Hl' & Hh' & ->)]]; [by left|by right; right; left|].
      right. left. assert (E : Some parent = Some parent') by (apply Hd; by exists label').
      by simplify_eq.
  - rewrite !elem_of_cons, elem_of_nil. split.
    + intros [->|[->|[]]]; [by left|by right; left].
    + intros [->|[->|(label' & parent' & Hl' & Hh' & ->)]]; [by left|by right; left|].
      exfalso. assert (E : None = Some parent') by (apply Hd; by exists label'). done.
Qed.

(** ** Paths *)

(** What a path pattern means: a star is any text. *)
Fixpoint glob (p s : string) {struct p} : bool :=
  match p with
  | EmptyString => String.eqb s ""
  | String c p' =>
      if Ascii.eqb c "*" then
        (fix any (s : string) : bool :=
           glob p' s || match s with EmptyString => false | String _ s' => any s' end) s
      else match s with
           | EmptyString => false
           | String d s' => Ascii.eqb c d && glob p' s'
           end
  end.

(** Patterns without the characters that LIKE reads specially. *)
Definition plain_pattern (p : string) : bool :=
  str_forallb (fun c => negb (Ascii.eqb c "%") && negb (Ascii.eqb c "_") && negb (Ascii.eqb c "\")) p.

Lemma like_percent p s :
  like (String "%" p) s =
    match like p s with
    | Some false => match s with EmptyString => Some false | String _ s' => like (String "%" p) s' end
    | r => r
    end.
Proof. destruct s; reflexivity. Qed.

Lemma glob_star p s :
  glob (String "*" p) s = glob p s || match s with EmptyString => false | String _ s' => glob (String "*" p) s' end.
Proof. destruct s; reflexivity. Qed.

Lemma like_is_glob p s : plain_pattern p = true -> like (like_pattern p) s = Some (glob p s).
Proof.
  revert s. induction p as [|c p IH]; intros s Hp; [done|].
  unfold plain_pattern in Hp; simpl in Hp. apply andb_true_iff in Hp as [Hc Hp].
  apply andb_true_iff in Hc as [Hc H3]. apply andb_true_iff in Hc as [H1 H2].
  apply negb_true_iff in H1, H2, H3.
  unfold like_pattern, replace_char in *. cbn [str_map]. destruct (Ascii.eqb_spec c "*") as [->|Hs].
  - induction s as [|d s IHs]; rewrite like_percent, glob_star, IH by done; destruct (glob p _); simpl; auto.
  - simpl. rewrite H1, H2, H3. destruct (Ascii.eqb_spec c "*"); [done|].
    destruct s as [|d s]; [done|]. destruct (Ascii.eqb c d); simpl; [by apply IH|done].
Qed.

(** A path rule means what it says.  For a pattern without LIKE's own
    special characters, a rule matches a path exactly when the path is the
    pattern with each star replaced by some text, and the lookup never
    fails. *)
Theorem path_rule_is_glob host path r :
  plain_pattern (er_pathPattern r) = true -> denyIgnoresPathCase host = false ->
  pathMatches host path r = Some (glob (er_pathPattern r) path).
Proof. intros Hp Hc. unfold pathMatches. rewrite Hc. by apply like_is_glob. Qed.

Lemma path_rule_is_glob_witness :
  pathMatches "example.com" "/v1/users/7" (example_rule "1" "example.com" "*" "/v1/*" rv_allow) = Some true.
Proof.
  apply (path_rule_is_glob "example.com" "/v1/users/7" (example_rule "1" "example.com" "*" "/v1/*" rv_allow));
    reflexivity.
Defined.

(** An underscore in a rule is not just an underscore.  LIKE reads it as
    any one character, so an allow rule for one organisation's repositories
    also lets through those of another whose name differs in that place. *)
Theorem underscore_widens_a_rule :
  exists t r path,
    r ∈ t /\ er_verdict r = rv_allow /\ er_pathPattern r = "/repos/my_org/*"%string /\
    glob (er_pathPattern r) path = false /\
    findMatch "a" "api.example.com" 443 true "GET" path t = Ok (Some r).
Proof.
  set (r := example_rule "1" "api.example.com" "*" "/repos/my_org/*" rv_allow).
  exists [r], r, "/repos/myXorg/secrets"%string.
  split; [apply list_elem_of_here|]. split_and!; vm_compute; reflexivity.
Qed.

(** ** Letter case *)
Lemma lower_special c x : x ∈ ["%"; "_"; "\"]%char -> Ascii.eqb (lower_char c) x = Ascii.eqb c x.
Proof.
  rewrite !elem_of_cons, elem_of_nil. intros Hx.
  destruct c as [[] [] [] [] [] [] [] []]; destruct_or! Hx; subst; reflexivity.
Qed.

Definition no_escape (p : string) : bool := str_forallb (fun c => negb (Ascii.eqb c "\")) p.

Lemma like_total p s : no_escape p = true -> exists b, like p s = Some b.
Proof.
  revert s. induction p as [|c p IH]; intros s Hp; [by eexists|].
  unfold no_escape in Hp; simpl in Hp. apply andb_true_iff in Hp as [Hc Hp]. apply negb_true_iff in Hc.
  destruct (Ascii.eqb_spec c "%") as [->|H1].
  - induction s as [|d s IHs]; rewrite like_percent.
    + destruct (IH ""%string Hp) as [[] ->]; eauto.
    + destruct (IH (String d s) Hp) as [[] ->]; eauto.
  - simpl. rewrite (proj2 (Ascii.eqb_neq c "%") H1), Hc. destruct s as [|d s]; [eauto|].
    repeat case_match; eauto.
Qed.

Lemma no_escape_lower p : no_escape (toLowerCase p) = no_escape p.
Proof.
  unfold no_escape, toLowerCase. induction p as [|c p IH]; simpl; [done|].
  rewrite IH, lower_special by set_solver. done.
Qed.

Lemma like_lower p s :
  no_escape p = true -> like p s = Some true -> like (toLowerCase p) (toLowerCase s) = Some true.
Proof.
  revert s. induction p as [|c p IH]; intros s Hp; [by destruct s|].
  assert (Hp' : no_escape p = true).
  { unfold no_escape in Hp |- *. simpl in Hp. by apply andb_true_iff in Hp as [_ ?]. }
  assert (Hc : Ascii.eqb c "\" = false).
  { unfold no_escape in Hp. simpl in Hp. apply andb_true_iff in Hp as [Hc _]. by apply negb_true_iff. }
  unfold toLowerCase in *. cbn [str_map]. destruct (Ascii.eqb_spec c "%") as [->|H1].
  - change (lower_char "%") with "%"%char.
    induction s as [|d s IHs]; rewrite (like_percent p), (like_percent (str_map lower_char p)).
    + destruct (like p "") as [[]|] eqn:E; [|done|done]. intros _. by rewrite (IH _ Hp' E).
    + destruct (like p (String d s)) as [[]|] eqn:E; [|intros Hs|done].
      * intros _. by rewrite (IH _ Hp' E).
      * destruct (like_total (str_map lower_char p) (str_map lower_char (String d s))) as [b Hb];
          [by rewrite <- Hp'; apply no_escape_lower|].
        rewrite Hb. destruct b; [done|exact (IHs Hs)].
  - assert (Hl : Ascii.eqb (lower_char c) "%" = false) by (rewrite lower_special by set_solver; by apply Ascii.eqb_neq).
    simpl. rewrite Hl, (proj2 (Ascii.eqb_neq c "%") H1), !lower_special, Hc by set_solver.
    destruct s as [|d s]; [done|]. simpl. destruct (Ascii.eqb c "_"); [by apply IH|].
    destruct (Ascii.eqb_spec c d) as [->|]; [|done]. rewrite Ascii.eqb_refl. by apply IH.
Qed.

Lemma like_pattern_escape p : no_escape (like_pattern p) = no_escape p.
Proof.
  unfold no_escape, like_pattern, replace_char. induction p as [|c p IH]; simpl; [done|].
  rewrite IH. destruct (Ascii.eqb_spec c "*") as [->|]; done.
Qed.

(** A deny on GitHub is not evaded by letter case.  When a deny rule of
    the agent speaks for a request to a GitHub host, it also speaks for the
    same request with its path in any other letter case, so that request too
    is decided by a rule at least as close as the deny. *)
Theorem github_deny_any_case agentId requestHost port tls method path path' t r :
  let host := canonicalEgressHost requestHost in
  denyIgnoresPathCase host = true -> er_verdict r = rv_deny ->
  (forall r', r' ∈ t -> no_escape (er_pathPattern r') = true) ->
  r ∈ t -> rule_candidate agentId host method r = true -> rulePortCovers (er_port r) port tls = true ->
  like (like_pattern (er_pathPattern r)) path = Some true ->
  toLowerCase path' = toLowerCase path ->
  exists decided, findMatch agentId requestHost port tls method path' t = Ok (Some decided) /\
    speaks_for agentId host port tls method path' decided /\ rule_cmp host decided r <= 0.
Proof.
  intros host Hgh Hv Hesc Hr Hcand Hport Hlike Hcase.
  assert (Htotal : forall r', r' ∈ t -> exists b, pathMatches host path' r' = Some b).
  { intros r' Hr'. unfold pathMatches. rewrite Hgh.
    assert (He : no_escape (like_pattern (er_pathPattern r')) = true) by (rewrite like_pattern_escape; auto).
    destruct (like_total _ path' He) as [b ->]. destruct b; simpl; [eauto|].
    case_match; [|eauto]. apply like_total. by rewrite no_escape_lower. }
  assert (Hspeak : pathMatches host path' r = Some true).
  { unfold pathMatches. rewrite Hgh, Hv, bool_decide_eq_true_2 by done.
    assert (He : no_escape (like_pattern (er_pathPattern r)) = true) by (rewrite like_pattern_escape; auto).
    destruct (like_total _ path' He) as [b ->]. destruct b; simpl; [done|].
    unfold ilike. rewrite Hcase. by apply like_lower. }
  assert (Hok : exists found, findMatch agentId requestHost port tls method path' t = Ok found).
  { unfold findMatch. fold host. destruct (existsb _ _) eqn:E; [|eauto]. exfalso.
    apply existsb_exists in E as (r' & Hin & Hn). apply list_elem_of_In, elem_of_list_filter in Hin as [Hin _].
    destruct (Htotal r' Hin) as [b Hb]. by rewrite Hb in Hn. }
  destruct Hok as [[d|] Hf]; [|by destruct (findMatch_none _ _ _ _ _ _ _ r Hf)].
  exists d. split_and!; [done|by eapply findMatch_sound|by eapply findMatch_least].
Qed.

Lemma github_deny_any_case_witness :
  let r := example_rule "1" "api.github.com" "*" "/repos/o/r/*" rv_deny in
  exists decided, findMatch "a" "api.github.com" 443 true "GET" "/repos/O/R/pulls" [r] = Ok (Some decided) /\
    speaks_for "a" "api.github.com" 443 true "GET" "/repos/O/R/pulls" decided /\
    rule_cmp "api.github.com" decided r <= 0.
Proof.
  intros r.
  apply (github_deny_any_case "a" "api.github.com" 443 true "GET" "/repos/o/r/pulls" "/repos/O/R/pulls" [r] r);
    try (vm_compute; reflexivity).
  - intros r' ->%list_elem_of_singleton. reflexivity.
  - apply list_elem_of_here.
Defined.
