(* ===== verification/EgressService.v ===== *)
(** * Egress rules: the services that write them

    [egress-rules/services]: the rules a Connection brings, the presets, the
    kit's rules, a person's rules and the L7 hosts the gateway is told to
    inspect.  The gateway port keeps the last host list set for an agent.
    [randomUUID] is a supply of identifiers; who owns an agent is a parameter. *)

From stdpp Require Import base sets strings list sorting.
From Stdlib Require Import ZArith Lia Ascii.
From S2P Require Import Prelude JsString EgressRules.

Local Open Scope Z_scope.

Record EgressWorld := mkEgress {
  ew_rules : RuleTable;
  ew_l7 : list (string * list string);
  ew_next : nat;
  ew_now : Z;
}.

Definition set_rules (t : RuleTable) (w : EgressWorld) : EgressWorld := mkEgress t (ew_l7 w) (ew_next w) (ew_now w).

Definition on_rules {A} (f : RuleTable -> RuleTable * A) : IO EgressWorld A :=
  io_op (fun w => let '(t, a) := f (ew_rules w) in (set_rules t w, a)).
(** An insert, which stores the time. *)
Definition insert_rules {A} (f : Z -> RuleTable -> RuleTable * A) : IO EgressWorld A :=
  io_op (fun w => let '(t, a) := f (ew_now w) (ew_rules w) in (set_rules t w, a)).
Definition write_rules (f : RuleTable -> RuleTable) : IO EgressWorld unit := on_rules (fun t => (f t, tt)).
Definition read_rules {A} (f : RuleTable -> A) : IO EgressWorld A := on_rules (fun t => (t, f t)).
Definition io_result {S A} (m : IO S (result A)) : IO S A :=
  io_bind m (fun r => match r with Ok a => io_ret a | Throw => io_throw end).

Section Services.
Variable uuid : nat -> string.

Definition randomUUID : IO EgressWorld string :=
  fun w => (mk_io (mkEgress (ew_rules (io_st w)) (ew_l7 (io_st w)) (S (ew_next (io_st w))) (ew_now (io_st w))) (io_faults w),
            Ok (uuid (ew_next (io_st w)))).

(** ** l7-promotion-reconcile.ts *)
Definition l7_set (agentId : string) (hosts : list string) : IO EgressWorld unit :=
  io_op (fun w => (mkEgress (ew_rules w) (om_set agentId hosts (ew_l7 w)) (ew_next w) (ew_now w), tt)).

Definition reconvergeAgentL7Hosts (agentId : string) : IO EgressWorld unit :=
  let* rows := read_rules (listForAgent agentId) in
  l7_set agentId (promotedHosts rows).

Record AgentL7State := mkL7State {
  l7_agentId : string; l7_current : list string; l7_environmentOf : option string }.

Definition sameSet (a b : list string) : bool :=
  (length a =? length b)%nat && forallb (includes a) b.

(** The repeated pass over every agent's gateway; a failed patch waits for the
    next pass. Answers how many agents it scanned, found drifted and failed. *)
Definition reconcileL7Promotions (agents : result (list AgentL7State)) : IO EgressWorld (nat * nat * nat) :=
  let* scan := io_catch
    (let* rules := read_rules listActiveForPromotionScan in
     match agents with Ok agents => io_ret (Some (rules, agents)) | Throw => io_throw end)
    (io_ret None) in
  match scan with
  | None => io_ret (0, 0, 1)%nat
  | Some (rules, agents) =>
      let* outcomes := io_map (fun a =>
        let desired := promotedHosts (List.filter (fun r =>
          String.eqb (er_agentId r) (l7_environmentOf a ?? l7_agentId a)) rules) in
        if sameSet (l7_current a) desired then io_ret (0, 0)%nat
        else let* ok := io_catch (run* l7_set (l7_agentId a) desired in io_ret true) (io_ret false) in
             io_ret (1, if ok : bool then 0 else 1)%nat) agents in
      io_ret (length agents, list_sum (map fst outcomes), list_sum (map snd outcomes))
  end.

(** ** connection-rules-sync.ts *)
Record EgressHostRule := mkHostRule { hr_host : string; hr_port : option Z; hr_pathPattern : option string }.
Definition Grants : Type := list (string * list EgressHostRule).

Definition tripleKey (connId host pathPattern : string) : string :=
  (connId ++ " " ++ host ++ " " ++ pathPattern)%string.

Definition normalizePath (p : option string) : string := (p ≫= or_null) ?? "*"%string.

(** The connection of a row, when its source names one. *)
Definition connectionOf (source : string) : option string :=
  if from_connection source then or_null (str_drop 11 source) else None.

Definition currentByTriple (current : list EgressRuleRow) : list (string * EgressRuleRow) :=
  fold_left (fun m row =>
    match connectionOf (er_source row) with
    | None => m
    | Some connId => om_set (tripleKey connId (er_host row) (normalizePath (Some (er_pathPattern row)))) row m
    end) current [].

Definition desiredTriples (grants : Grants) : list string :=
  flat_map (fun g => map (fun rule => tripleKey (fst g) (hr_host rule) (normalizePath (hr_pathPattern rule)))
                       (snd g)) grants.

(** The row a granted host asks for. *)
Definition connectionRule (id agentId decidedBy connId : string) (rule : EgressHostRule) : NewEgressRule :=
  mkNewRule id agentId (hr_host rule) (match hr_port rule with Some 0 => None | p => p end) "*"
    (normalizePath (hr_pathPattern rule)) rv_allow decidedBy (CONNECTION_PREFIX ++ connId)%string.

Definition syncForAgent (agentId decidedBy : string) (grants : Grants) (ownedSourceIds : list string)
  : IO EgressWorld unit :=
  let* current := read_rules (listConnectionDerivedForAgent agentId) in
  let byTriple := currentByTriple current in
  run* io_iter (fun p =>
      let '(triple, row) := p in
      if includes (desiredTriples grants) triple then io_ret tt
      else if negb (includes ownedSourceIds (str_drop 11 (er_source row))) then io_ret tt
      else match er_presetSource row with
           | Some _ => write_rules (restorePresetSource (er_id row))
           | None => write_rules (revoke (er_id row))
           end) byTriple in
  io_iter (fun g =>
      io_iter (fun rule =>
          if om_has (tripleKey (fst g) (hr_host rule) (normalizePath (hr_pathPattern rule))) byTriple
          then io_ret tt
          else
            let* owned := read_rules (hasUserOwnedRuleForHost agentId (hr_host rule)) in
            if owned : bool then io_ret tt
            else
              let* id := randomUUID in
              let* _ := io_result (insert_rules (fun now => insertOrPromoteFromPreset now
                                               (connectionRule id agentId decidedBy (fst g) rule))) in
              io_ret tt) (snd g)) grants.

Definition adoptSources (agentId : string) (fromSources : list string) (toSource : string)
  : IO EgressWorld unit :=
  match fromSources with
  | [] => io_ret tt
  | _ => write_rules (reassignActiveSource agentId fromSources toSource)
  end.

(** ** preset-seeder.ts *)
Definition presetRule (id agentId decidedBy host source : string) : NewEgressRule :=
  mkNewRule id agentId host None "*" "*" rv_allow decidedBy source.

Definition seedPreset (trustedHosts : list string) (agentId : string) (preset : EgressPreset)
    (decidedBy : string) : IO EgressWorld unit :=
  run* write_rules (revokePresetRowsForAgent agentId) in
  match preset with
  | preset_none => io_ret tt
  | preset_all =>
      let* id := randomUUID in
      let* _ := io_result (insert_rules (fun now => rule_insert now (presetRule id agentId decidedBy "*" "preset:all"))) in
      io_ret tt
  | preset_trusted =>
      let* rows := io_map (fun host => let* id := randomUUID in
                             io_ret (presetRule id agentId decidedBy host "preset:trusted")) trustedHosts in
      run* insert_rules (fun now t => (insertAll now rows t, tt)) in
      write_rules (markPresetUnderConnections agentId trustedHosts "preset:trusted")
  end.

Definition markTrustedRowsTakenOver (trustedHosts : list string) : IO EgressWorld nat :=
  on_rules (markSeededConnectionRows trustedHosts "preset:trusted").

(** ** kit-rules-seeder.ts *)
Record KitRule := mkKitRule {
  kr_host : string; kr_port : option Z; kr_method : string; kr_pathPattern : string; kr_verdict : RuleVerdict }.

Definition seedKit (agentId : string) (rules : list KitRule) (decidedBy : string) : IO EgressWorld unit :=
  match rules with
  | [] => io_ret tt
  | _ =>
      run* io_iter (fun rule =>
          let* id := randomUUID in
          let* row := io_result (insert_rules (fun now => insertOrPromoteFromPreset now
            (mkNewRule id agentId (kr_host rule) (match kr_port rule with Some 0 => None | p => p end)
               (kr_method rule) (kr_pathPattern rule) (kr_verdict rule) decidedBy "kit"))) in
          if bool_decide (er_verdict row = kr_verdict rule) then io_ret tt else io_throw) rules in
      reconvergeAgentL7Hosts agentId
  end.

(** ** egress-rule-writer.ts *)
Inductive WriteOutcome :=
  | wo_inserted (row : EgressRuleRow)
  | wo_duplicate (row : EgressRuleRow) (tookOwnershipFrom : option string)
  | wo_verdict_clash (existing : EgressRuleRow).

Definition by_person (source : string) : bool := includes ["manual"; "inbox"]%string source.

Definition writeRule (input : NewEgressRule) : IO EgressWorld WriteOutcome :=
  let* row := io_result (insert_rules (fun now => rule_insert now input)) in
  if negb (bool_decide (er_verdict row = nr_verdict input)) then io_ret (wo_verdict_clash row)
  else
    let* outcome := (
      if String.eqb (er_id row) (nr_id input) then io_ret (wo_inserted row)
      else if negb (by_person (er_source row))
              && negb (String.eqb (er_source row) PLATFORM_ENVIRONMENTS_SOURCE)
              && by_person (nr_source input)
      then
        let* promoted := io_result (on_rules (updateTakeOwnership (er_id row) (er_method row)
                           (er_pathPattern row) (er_verdict row) (nr_decidedBy input) (nr_source input))) in
        io_ret (match promoted with
                | Some p => wo_duplicate p (Some (er_source row))
                | None => wo_duplicate row None
                end)
      else io_ret (wo_duplicate row None)) in
    run* reconvergeAgentL7Hosts (nr_agentId input) in
    io_ret outcome.

(** ** egress-rules-service.ts *)
Variable isAgentOwnedBy : string -> string -> result bool.
Variables ownerSub actor : string.
(** The platform's Environments access, when the install serves them. *)
Variable withdraw : option (string -> IO EgressWorld unit).

Definition createRule (agentId host : string) (port : option Z) (method pathPattern : string)
    (verdict : RuleVerdict) : IO EgressWorld EgressRuleRow :=
  let* owned := (fun w => (w, isAgentOwnedBy agentId ownerSub)) in
  if negb owned then io_throw
  else
    let* id := randomUUID in
    let* outcome := writeRule (mkNewRule id agentId host (match port with Some 0 => None | p => p end)
                                 method pathPattern verdict actor "manual") in
    match outcome with
    | wo_verdict_clash _ => io_throw
    | wo_inserted row | wo_duplicate row _ =>
        if bool_decide (er_port row = port) then io_ret row else io_throw
    end.

Definition updateRule (id : string) (method pathPattern : option string) (verdict : option RuleVerdict)
  : IO EgressWorld EgressRuleRow :=
  let* rule := read_rules (getById id) in
  match rule with
  | None => io_throw
  | Some rule =>
      let* owned := (fun w => (w, isAgentOwnedBy (er_agentId rule) ownerSub)) in
      if negb owned then io_throw
      else if String.eqb (er_source rule) PLATFORM_ENVIRONMENTS_SOURCE then io_throw
      else
        let* updated := io_result (on_rules (updateTakeOwnership id (method ?? er_method rule)
            (pathPattern ?? er_pathPattern rule) (verdict ?? er_verdict rule) actor "manual")) in
        match updated with
        | None => io_throw
        | Some row => run* reconvergeAgentL7Hosts (er_agentId row) in io_ret row
        end
  end.

Definition revokeRule (id : string) : IO EgressWorld unit :=
  let* rule := read_rules (getById id) in
  match rule with
  | None => io_ret tt
  | Some rule =>
      let* owned := (fun w => (w, isAgentOwnedBy (er_agentId rule) ownerSub)) in
      if negb owned then io_ret tt
      else
        run* write_rules (revoke id) in
        run* (if String.eqb (er_source rule) PLATFORM_ENVIRONMENTS_SOURCE
              then match withdraw with Some f => f (er_agentId rule) | None => io_ret tt end
              else io_ret tt) in
        reconvergeAgentL7Hosts (er_agentId rule)
  end.

Definition getRule (id : string) : IO EgressWorld EgressRuleRow :=
  let* rule := read_rules (getById id) in
  match rule with
  | None => io_throw
  | Some rule =>
      let* owned := (fun w => (w, isAgentOwnedBy (er_agentId rule) ownerSub)) in
      if negb owned then io_throw else io_ret rule
  end.

Definition currentPreset (agentId : string) : IO EgressWorld EgressPreset :=
  let* owned := (fun w => (w, isAgentOwnedBy agentId ownerSub)) in
  if negb owned then io_ret preset_none else read_rules (getPresetForAgent agentId).

(** The platform's own access gives back its Environments rule. *)
Definition restorePlatformRule (restore : option (string -> string -> IO EgressWorld (option EgressRuleRow)))
    (agentId : string) : IO EgressWorld EgressRuleRow :=
  let* owned := (fun w => (w, isAgentOwnedBy agentId ownerSub)) in
  if negb owned then io_throw
  else
    let* row := (match restore with Some f => f agentId ownerSub | None => io_ret None end) in
    match row with Some r => io_ret r | None => io_throw end.

Definition applyPreset (trustedHosts : option (list string)) (agentId : string) (preset : EgressPreset)
  : IO EgressWorld unit :=
  let* owned := (fun w => (w, isAgentOwnedBy agentId ownerSub)) in
  if negb owned then io_throw
  else match trustedHosts with
       | None => io_ret tt
       | Some hosts => seedPreset hosts agentId preset ownerSub
       end.
End Services.
