(* ===== verification/EgressSafety.v ===== *)
(** * Egress rules: what the writing services keep true

    Invariants of the rule table under every service of [EgressService], for
    every schedule of store failures. *)

From stdpp Require Import base sets strings list sorting.
From Stdlib Require Import ZArith Lia Ascii.
From S2P Require Import Prelude JsString EgressRules EgressService.

Local Open Scope Z_scope.

(** ** Keeping a property of the table *)
Definition keeps (P : RuleTable -> Prop) {A} (m : IO EgressWorld A) : Prop :=
  forall w, P (ew_rules (io_st w)) -> P (ew_rules (io_st (fst (m w)))).

Section Keeps.
Variable P : RuleTable -> Prop.

Lemma keep_ret {A} (a : A) : keeps P (io_ret a).
Proof. by intros w. Qed.

Lemma keep_throw {A} : keeps P (@io_throw EgressWorld A).
Proof. by intros w. Qed.

Lemma keep_port {A} (r : result A) : keeps P (fun w => (w, r)).
Proof. by intros w. Qed.

Lemma keep_bind {A B} (m : IO EgressWorld A) (k : A -> IO EgressWorld B) :
  keeps P m -> (forall a, keeps P (k a)) -> keeps P (io_bind m k).
Proof.
  intros Hm Hk w Hw. unfold io_bind. specialize (Hm w Hw). destruct (m w) as [w' [a|]]; [by apply Hk|done].
Qed.

Lemma keep_iter {A} (f : A -> IO EgressWorld unit) l : (forall a, a ∈ l -> keeps P (f a)) -> keeps P (io_iter f l).
Proof.
  induction l as [|a l IH]; intros Hf; simpl; [apply keep_ret|].
  apply keep_bind; [apply Hf; set_solver|intros _; apply IH; set_solver].
Qed.

Lemma keep_map {A B} (f : A -> IO EgressWorld B) l : (forall a, keeps P (f a)) -> keeps P (io_map f l).
Proof.
  intros Hf. induction l as [|a l IH]; simpl; [apply keep_ret|].
  apply keep_bind; [done|]. intros b. apply keep_bind; [done|]. intros bs. apply keep_ret.
Qed.

Lemma keep_rules {A} (f : RuleTable -> RuleTable * A) :
  (forall t, P t -> P (fst (f t))) -> keeps P (on_rules f).
Proof.
  intros Hf [w fs] Hw. unfold on_rules, io_op; simpl in *. specialize (Hf _ Hw).
  destruct fs as [|[] fs]; simpl; destruct (f (ew_rules w)); simpl in *; done.
Qed.

Lemma keep_insert {A} (f : Z -> RuleTable -> RuleTable * A) :
  (forall now t, P t -> P (fst (f now t))) -> keeps P (insert_rules f).
Proof.
  intros Hf [w fs] Hw. unfold insert_rules, io_op; simpl in *. specialize (Hf (ew_now w) _ Hw).
  destruct fs as [|[] fs]; simpl; destruct (f (ew_now w) (ew_rules w)); simpl in *; done.
Qed.

Lemma keep_write f : (forall t, P t -> P (f t)) -> keeps P (write_rules f).
Proof. intros Hf. by apply keep_rules. Qed.

Lemma keep_read {A} (f : RuleTable -> A) : keeps P (read_rules f).
Proof. by apply keep_rules. Qed.

Lemma keep_result {A} (m : IO EgressWorld (result A)) : keeps P m -> keeps P (io_result m).
Proof. intros Hm. apply keep_bind; [done|]. intros [a|]; [apply keep_ret|apply keep_throw]. Qed.

Lemma keep_uuid uuid : keeps P (randomUUID uuid).
Proof. by intros w. Qed.

Lemma keep_l7 agentId hosts : keeps P (l7_set agentId hosts).
Proof. intros [w [|[] fs]] Hw; done. Qed.

Lemma keep_reconverge agentId : keeps P (reconvergeAgentL7Hosts agentId).
Proof. apply keep_bind; [apply keep_read|]. intros rows. apply keep_l7. Qed.

(** The writing operations, one premise each. *)
Record rule_ops_keep : Prop := {
  ko_insert : forall now n t, P t -> P (fst (rule_insert now n t));
  ko_insertAll : forall now ns t, P t -> P (insertAll now ns t);
  ko_promote : forall now n t, P t -> P (fst (insertOrPromoteFromPreset now n t));
  ko_take : forall id m p v d s t, P t -> P (fst (updateTakeOwnership id m p v d s t));
  ko_revoke : forall id t, P t -> P (revoke id t);
  ko_restore : forall id t, P t -> P (restorePresetSource id t);
  ko_revokePreset : forall a t, P t -> P (revokePresetRowsForAgent a t);
  ko_mark : forall a hs s t, P t -> P (markPresetUnderConnections a hs s t);
  ko_reassign : forall a fs s t, P t -> P (reassignActiveSource a fs s t);
  }.
End Keeps.

Create HintDb egress.
#[export] Hint Resolve keep_ret keep_throw keep_port keep_read keep_uuid keep_reconverge : egress.

Ltac keep_op H :=
  intros; first
    [ by apply (ko_insert _ H) | by apply (ko_insertAll _ H) | by apply (ko_promote _ H)
    | by apply (ko_take _ H) | by apply (ko_revoke _ H) | by apply (ko_restore _ H)
    | by apply (ko_revokePreset _ H) | by apply (ko_mark _ H) | by apply (ko_reassign _ H) ].

(** A checked write of the store. *)
Ltac keep_store H := first [apply keep_write | apply keep_result]; first [apply keep_rules | apply keep_insert | idtac]; keep_op H.

(** Every service keeps what every writing operation keeps. *)
Section ServicesKeep.
Variable P : RuleTable -> Prop.
Hypothesis Hops : rule_ops_keep P.
Variable uuid : nat -> string.

Lemma keep_sync agentId decidedBy grants owned : keeps P (syncForAgent uuid agentId decidedBy grants owned).
Proof using Hops.
  apply keep_bind; [auto with egress|]. intros current. apply keep_bind.
  - apply keep_iter. intros [triple row] _. repeat case_match; auto with egress;
      apply keep_write; keep_op Hops.
  - intros _. apply keep_iter. intros g _. apply keep_iter. intros rule _. case_match; [auto with egress|].
    apply keep_bind; [auto with egress|]. intros []; [auto with egress|].
    apply keep_bind; [auto with egress|]. intros id.
    apply keep_bind; [|auto with egress]. keep_store Hops.
Qed.

Lemma keep_seedPreset trusted agentId preset decidedBy : keeps P (seedPreset uuid trusted agentId preset decidedBy).
Proof using Hops.
  apply keep_bind; [apply keep_write; keep_op Hops|]. intros _. destruct preset; [auto with egress| |].
  - apply keep_bind.
    + apply keep_map. intros host. apply keep_bind; auto with egress.
    + intros rows. apply keep_bind; [apply keep_insert; intros; simpl; keep_op Hops|]. intros _. keep_store Hops.
  - apply keep_bind; [auto with egress|]. intros id. apply keep_bind; [|auto with egress].
    keep_store Hops.
Qed.

Lemma keep_seedKit agentId rules decidedBy : keeps P (seedKit uuid agentId rules decidedBy).
Proof using Hops.
  unfold seedKit. destruct rules as [|r rules]; [apply keep_ret|].
  apply keep_bind; [|auto with egress]. apply keep_iter. intros rule _.
  apply keep_bind; [auto with egress|]. intros id. apply keep_bind.
  - keep_store Hops.
  - intros row. case_match; auto with egress.
Qed.

Lemma keep_writeRule input : keeps P (writeRule input).
Proof using Hops.
  apply keep_bind; [keep_store Hops|]. intros row.
  case_match; [auto with egress|]. apply keep_bind.
  - repeat case_match; auto with egress. apply keep_bind; [|auto with egress].
    keep_store Hops.
  - intros outcome. apply keep_bind; auto with egress.
Qed.

Variable isAgentOwnedBy : string -> string -> result bool.
Variables ownerSub actor : string.
Variable withdraw : option (string -> IO EgressWorld unit).
Hypothesis Hwithdraw : forall f a, withdraw = Some f -> keeps P (f a).

Lemma keep_createRule agentId host port method path verdict :
  keeps P (createRule uuid isAgentOwnedBy ownerSub actor agentId host port method path verdict).
Proof using Hops.
  apply keep_bind; [auto with egress|]. intros []; simpl; [|auto with egress].
  apply keep_bind; [auto with egress|]. intros id. apply keep_bind; [apply keep_writeRule|].
  intros []; repeat case_match; auto with egress.
Qed.

Lemma keep_updateRule id method path verdict :
  keeps P (updateRule isAgentOwnedBy ownerSub actor id method path verdict).
Proof using Hops.
  apply keep_bind; [auto with egress|]. intros [rule|]; [|auto with egress].
  apply keep_bind; [auto with egress|]. intros []; simpl; [|auto with egress]. case_match; [auto with egress|].
  apply keep_bind; [keep_store Hops|].
  intros [row|]; [|auto with egress]. apply keep_bind; auto with egress.
Qed.

Lemma keep_revokeRule id : keeps P (revokeRule isAgentOwnedBy ownerSub withdraw id).
Proof using Hops Hwithdraw.
  apply keep_bind; [auto with egress|]. intros [rule|]; [|auto with egress].
  apply keep_bind; [auto with egress|]. intros []; simpl; [|auto with egress].
  apply keep_bind; [apply keep_write; keep_op Hops|]. intros _.
  apply keep_bind; [|auto with egress]. case_match; [|auto with egress].
  destruct withdraw; [by apply Hwithdraw|auto with egress].
Qed.
End ServicesKeep.

(** ** One active rule per place *)
Definition place (r : EgressRuleRow) : string * string * Z * string * string :=
  (er_agentId r, er_host r, er_port r ?? 0, er_method r, er_pathPattern r).

Record table_ok (t : RuleTable) : Prop := {
  to_ids : NoDup (map er_id t);
  to_places : forall r r', r ∈ t -> r' ∈ t -> er_active r = true -> er_active r' = true ->
    place r = place r' -> er_id r = er_id r';
}.

Lemma table_ok_map f t :
  (forall r, er_id (f r) = er_id r /\ place (f r) = place r /\ (er_active (f r) = true -> er_active r = true)) ->
  table_ok t -> table_ok (map f t).
Proof.
  intros Hf [Hi Hp]. split.
  - rewrite map_map. erewrite map_ext; [exact Hi|]. intros r. apply Hf.
  - intros r r' (q & -> & Hq)%list_elem_of_fmap (q' & -> & Hq')%list_elem_of_fmap Ha Ha' E.
    destruct (Hf q) as (-> & Ep & Hact), (Hf q') as (-> & Ep' & Hact'). apply Hp; auto. congruence.
Qed.

Lemma conflicts_false now n r :
  conflicts n r = false -> er_id r <> nr_id n /\ (er_active r = true -> place r <> place (row_of now n)).
Proof.
  unfold conflicts. intros [H1 H2]%orb_false_iff. split; [by apply String.eqb_neq|].
  intros Ha E. unfold place, row_of in E; simpl in E. rewrite Ha in H2.
  injection E as E1 E2 E3 E4 E5. rewrite E1, E2, E3, E4, E5 in H2. by rewrite !str_eqb_refl, Z.eqb_refl in H2.
Qed.

Lemma table_ok_insertIfFree now n t t' : insertIfFree now n t = Some t' -> table_ok t -> table_ok t'.
Proof.
  unfold insertIfFree. destruct (existsb (conflicts n) t) eqn:E; [done|]. intros [= <-] [Hi Hp].
  assert (Hc : forall r, r ∈ t -> conflicts n r = false).
  { intros r Hr. destruct (conflicts n r) eqn:Ec; [|done].
    assert (existsb (conflicts n) t = true) by (apply existsb_exists; exists r; by rewrite <- list_elem_of_In).
    congruence. }
  split.
  - rewrite map_app. apply NoDup_app. split_and!; [done| |apply NoDup_singleton].
    intros x (r & -> & Hr)%list_elem_of_fmap. apply Hc, (conflicts_false now) in Hr as [Hr _]. set_solver.
  - intros r r'. rewrite !elem_of_app, !list_elem_of_singleton. intros [Hr| ->] [Hr'| ->] Ha Ha' Ep.
    + by apply Hp.
    + apply Hc, (conflicts_false now) in Hr as [_ Hr]. by apply Hr in Ep.
    + apply Hc, (conflicts_false now) in Hr' as [_ Hr']. symmetry in Ep. by apply Hr' in Ep.
    + done.
Qed.

Lemma clashes_place r r' :
  er_id r <> er_id r' -> er_active r' = true -> place r = place r' -> clashes r r' = true.
Proof.
  intros Hi Ha E. unfold clashes. unfold place in E. injection E as E1 E2 E3 E4 E5. rewrite E1, E2, E3, E4, E5.
  rewrite (proj2 (String.eqb_neq _ _) Hi), Ha, !str_eqb_refl, Z.eqb_refl. done.
Qed.

Lemma NoDup_ids_eq t r r' : NoDup (map er_id t) -> r ∈ t -> r' ∈ t -> er_id r = er_id r' -> r = r'.
Proof.
  induction t as [|q t IH]; simpl; [set_solver|]. rewrite NoDup_cons. intros [Hn Hd].
  assert (Hq : forall x, x ∈ t -> er_id x <> er_id q).
  { intros x Hx E. apply Hn. rewrite <- E. apply list_elem_of_fmap. by exists x. }
  rewrite !elem_of_cons. intros [->|Hr] [->|Hr'] E; [done| | |by apply IH].
  - symmetry in E. by apply Hq in E.
  - by apply Hq in E.
Qed.

Lemma table_ok_take id m p v d s t : table_ok t -> table_ok (fst (updateTakeOwnership id m p v d s t)).
Proof.
  intros [Hi Hp]. unfold updateTakeOwnership. destruct (List.find _ t) as [r0|] eqn:Ef; [|by split].
  destruct (existsb _ t) eqn:Ec; [by split|]. simpl.
  apply find_some in Ef as [Hr0 Hhit0]. apply list_elem_of_In in Hr0.
  apply andb_true_iff in Hhit0 as [Hid0%String.eqb_eq Ha0].
  assert (Hclash : forall r, r ∈ t -> clashes (take_row m p v d s r0) r = false).
  { intros r Hr. destruct (clashes _ r) eqn:E; [|done].
    assert (existsb (clashes (take_row m p v d s r0)) t = true)
      by (apply existsb_exists; exists r; by rewrite <- list_elem_of_In). congruence. }
  set (f r := if String.eqb (er_id r) id && er_active r then take_row m p v d s r else r).
  assert (Hf : forall r, r ∈ t -> (r = r0 /\ f r = take_row m p v d s r0) \/ (er_id r <> id /\ f r = r)).
  { intros r Hr. unfold f. destruct (String.eqb_spec (er_id r) id) as [E|E]; [|by right].
    left. assert (r = r0) as -> by (apply (NoDup_ids_eq t); auto; congruence). by rewrite Ha0. }
  split.
  - fold f. rewrite map_map. erewrite map_ext; [exact Hi|]. intros r. unfold f. by case_match.
  - fold f. intros x x' (r & -> & Hr)%list_elem_of_fmap (r' & -> & Hr')%list_elem_of_fmap Ha Ha' Ep.
    destruct (Hf r Hr) as [[-> Ef]|[Hne Ef]], (Hf r' Hr') as [[-> Ef']|[Hne' Ef']]; rewrite ?Ef, ?Ef' in *.
    + done.
    + exfalso. pose proof (Hclash r' Hr') as Hc. rewrite clashes_place in Hc; [done| |done|done].
      simpl. congruence.
    + exfalso. pose proof (Hclash r Hr) as Hc. rewrite clashes_place in Hc; [done| |done|done].
      simpl. congruence.
    + by apply Hp.
Qed.

Lemma table_ok_ops : rule_ops_keep table_ok.
Proof.
  split; intros.
  - unfold rule_insert. destruct (insertIfFree now n t) eqn:E; [by eapply table_ok_insertIfFree|done].
  - unfold insertAll. revert t H. induction ns as [|n ns IH]; intros t Ht; simpl; [done|].
    apply IH. destruct (insertIfFree now n t) eqn:E; simpl; [by eapply table_ok_insertIfFree|done].
  - unfold insertOrPromoteFromPreset. destruct (insertIfFree now n t) eqn:E; [by eapply table_ok_insertIfFree|].
    destruct (List.find _ t); simpl; [|done]. apply table_ok_map; [|done]. intros r. by case_match.
  - by apply table_ok_take.
  - apply table_ok_map; [|done]. intros r. case_match; [|done]. by split_and!.
  - apply table_ok_map; [|done]. intros r. by repeat case_match.
  - apply table_ok_map; [|done]. intros r. case_match; [|done]. simpl. case_match; by split_and!.
  - apply table_ok_map; [|done]. intros r. by case_match.
  - apply table_ok_map; [|done]. intros r. by case_match.
Qed.


(** ** What a Connection sync leaves alone *)

(** Rules of other agents, and rules no Connection or preset brought. *)
Definition foreign (agentId : string) (r : EgressRuleRow) : Prop :=
  er_agentId r <> agentId \/ (from_connection (er_source r) = false /\ from_preset (er_source r) = false).

Definition holds_row (r : EgressRuleRow) (t : RuleTable) : Prop := NoDup (map er_id t) /\ r ∈ t.

Lemma keep_bind_read (P : RuleTable -> Prop) {A B} (f : RuleTable -> A) (k : A -> IO EgressWorld B) :
  (forall t, P t -> keeps P (k (f t))) -> keeps P (io_bind (read_rules f) k).
Proof.
  intros Hk [w fs] Hw. unfold io_bind, read_rules, on_rules, io_op; simpl in *.
  destruct w as [t l n]. destruct fs as [|[] fs]; simpl in *; try done; by apply Hk.
Qed.

Lemma holds_row_map r f t :
  (forall q, er_id (f q) = er_id q) -> f r = r -> holds_row r t -> holds_row r (map f t).
Proof.
  intros Hid Hr [Hn Hin]. split.
  - rewrite map_map. erewrite map_ext; [exact Hn|done].
  - apply list_elem_of_fmap. by exists r.
Qed.

Lemma om_set_values {K V} `{EqDecision K} (k : K) (v : V) m p : p ∈ om_set k v m -> snd p = v \/ p ∈ m.
Proof.
  induction m as [|[k0 v0] m IH]; simpl; [intros ->%list_elem_of_singleton; by left|].
  case_decide; rewrite elem_of_cons; intros [->|Hx]; [by left|set_solver|set_solver|].
  destruct (IH Hx); [by left|set_solver].
Qed.

Lemma currentByTriple_rows current p : p ∈ currentByTriple current -> snd p ∈ current.
Proof.
  unfold currentByTriple.
  assert (Hgen : forall l m, p ∈ fold_left (fun m row =>
      match connectionOf (er_source row) with
      | None => m
      | Some connId => om_set (tripleKey connId (er_host row) (normalizePath (Some (er_pathPattern row)))) row m
      end) l m -> p ∈ m \/ snd p ∈ l).
  { induction l as [|row l IH]; intros m; simpl; [by left|].
    intros [Hm|Hl]%IH; [|set_solver]. case_match; [|by left].
    apply om_set_values in Hm as [->|Hm]; [set_solver|by left]. }
  intros [Hm|Hl]%Hgen; [by apply not_elem_of_nil in Hm|done].
Qed.

Lemma connection_row_not_foreign agentId r t q :
  foreign agentId r -> holds_row r t -> q ∈ listConnectionDerivedForAgent agentId t -> er_id q <> er_id r.
Proof.
  intros Hf [Hn Hr] Hq E. apply elem_of_list_filter in Hq as [Hq Hb].
  assert (q = r) as -> by (by apply (NoDup_ids_eq t)).
  rewrite !andb_true_iff, String.eqb_eq in Hb. destruct Hb as [[Ha _] Hc], Hf as [Hf|[Hf _]]; congruence.
Qed.

Lemma holds_row_promote r now n t :
  foreign (nr_agentId n) r -> holds_row r t -> holds_row r (fst (insertOrPromoteFromPreset now n t)).
Proof.
  intros Hf Hh. unfold insertOrPromoteFromPreset. destruct (insertIfFree now n t) as [t'|] eqn:E; simpl.
  - unfold insertIfFree in E. destruct (existsb (conflicts n) t) eqn:Ec; [done|]. injection E as <-.
    destruct Hh as [Hn Hr]. split; [|set_solver]. rewrite map_app. apply NoDup_app.
    split_and!; [done| |apply NoDup_singleton]. intros x (q & -> & Hq)%list_elem_of_fmap Hx.
    apply list_elem_of_singleton in Hx. simpl in Hx.
    assert (Hcq : existsb (conflicts n) t = true).
    { apply existsb_exists. exists q. split; [by apply list_elem_of_In|]. unfold conflicts. by rewrite Hx, str_eqb_refl. }
    congruence.
  - destruct (List.find _ t); simpl; [|done]. apply holds_row_map; [intros q; by case_match| |done].
    destruct (same_tuple _ _ _ _ _ r && from_preset (er_source r)) eqn:Eh; [|done]. exfalso.
    apply andb_true_iff in Eh as [Hs Hp]. unfold same_tuple in Hs.
    rewrite !andb_true_iff, String.eqb_eq in Hs. destruct Hs as [[[[[Ha _] _] _] _] _].
    destruct Hf as [Hf|[_ Hf]]; congruence.
Qed.

(** A Connection sync touches only what Connections and presets brought.
    Whatever the agent's Connections grant, and wherever the store fails on
    the way, every rule of another agent and every rule written by a person,
    the kit or the platform stays exactly as it was. *)
Theorem sync_spares_foreign_rules uuid agentId decidedBy grants owned r w :
  foreign agentId r -> NoDup (map er_id (ew_rules (io_st w))) -> r ∈ ew_rules (io_st w) ->
  r ∈ ew_rules (io_st (fst (syncForAgent uuid agentId decidedBy grants owned w))).
Proof.
  intros Hf Hn Hr.
  assert (Hk : keeps (holds_row r) (syncForAgent uuid agentId decidedBy grants owned)).
  { apply keep_bind_read. intros t Ht. apply keep_bind.
    - apply keep_iter. intros [triple row] Hp.
      assert (Hid : er_id row <> er_id r).
      { eapply connection_row_not_foreign; [done..|]. by apply currentByTriple_rows in Hp. }
      assert (Hne : String.eqb (er_id r) (er_id row) = false) by (apply String.eqb_neq; congruence).
      repeat case_match; auto with egress; apply keep_write; intros t' Ht'.
      + apply holds_row_map; [intros q; by repeat case_match| |done].
        rewrite Hne. by destruct (er_presetSource r).
      + apply holds_row_map; [intros q; by case_match| |done]. by rewrite Hne.
    - intros _. apply keep_iter. intros g _. apply keep_iter. intros rule _. case_match; [auto with egress|].
      apply keep_bind; [auto with egress|]. intros []; [auto with egress|].
      apply keep_bind; [auto with egress|]. intros id. apply keep_bind; [|auto with egress].
      apply keep_result, keep_insert. intros now t' Ht'. by apply holds_row_promote. }
  by destruct (Hk w (conj Hn Hr)).
Qed.

Lemma sync_spares_foreign_rules_witness :
  let r := example_rule "1" "api.github.com" "*" "*" rv_deny in
  let w := mk_io (mkEgress [r] [] 0 0) [NoFault; NoFault; FailAfter] in
  r ∈ ew_rules (io_st (fst (syncForAgent (fun n => "new"%string) "a" "u"
        [("gh"%string, [mkHostRule "x.example.com" None None])] ["gh"%string] w))).
Proof.
  intros r w. apply sync_spares_foreign_rules.
  - right. split; reflexivity.
  - simpl. apply NoDup_singleton.
  - simpl. apply list_elem_of_here.
Defined.

(** A Connection's new port is not taken up.  The sync compares rules by
    Connection, host and path only, so when a Connection moves a host to
    another port, the agent keeps its rule for the old one and gets none for
    the new one, and a second sync does not help. *)
Theorem sync_keeps_a_stale_port :
  exists grants t,
    let w := mk_io (mkEgress t [] 0 0) [] in
    let out := syncForAgent (fun n => "new"%string) "a" "u" grants ["gh"%string] w in
    grants = [("gh"%string, [mkHostRule "git.example.com" (Some 8443) None])] /\
    snd out = Ok tt /\ ew_rules (io_st (fst out)) = t /\
    findMatch "a" "git.example.com" 8443 true "GET" "/" t = Ok None /\
    exists r, findMatch "a" "git.example.com" 443 true "GET" "/" t = Ok (Some r) /\
      er_source r = "connection:gh"%string.
Proof.
  exists [("gh"%string, [mkHostRule "git.example.com" (Some 8443) None])].
  exists [mkRule "1" "a" "git.example.com" None "*" "*" rv_allow "u" 0 true "connection:gh" None].
  cbv zeta. split; [reflexivity|]. split; [vm_compute; reflexivity|]. split; [vm_compute; reflexivity|].
  split; [vm_compute; reflexivity|]. eexists. split; [vm_compute; reflexivity|reflexivity].
Qed.
