(* ===== verification/Approvals.v ===== *)
(** * Approvals: the pending-approval table and its states

    [approvals/infrastructure/approvals-repository.ts] and
    [approvals/domain/types.ts] of the api-server, with
    [modules/approvals/types.ts] of api-server-api.  An approval is pending,
    then resolved with a verdict or expired.  A tool call's arguments are kept
    as their JSON text, which is all the code compares; a missing option list
    is an empty one, as every reader takes it. *)

From stdpp Require Import base sets strings list pretty.
From Stdlib Require Import ZArith Lia.
From S2P Require Import Prelude JsString JsDate SpendLedger SpendLimits SpendCheck.

Local Open Scope Z_scope.

(** ** Data *)
Inductive ApprovalType := at_ext_authz | at_acp_native | at_spend_limit | at_egress_proposal.
Inductive ApprovalVerdict := av_allow | av_allow_once | av_deny | av_deny_once.
Inductive ApprovalStatus := as_pending | as_resolved | as_expired.
Inductive OptionKind := ok_allow_once | ok_allow_always | ok_reject_once | ok_reject_always.
Inductive RpcId := rpc_number (n : Z) | rpc_string (s : string).

#[export] Instance ApprovalType_eq_dec : EqDecision ApprovalType.
Proof. solve_decision. Defined.
#[export] Instance ApprovalVerdict_eq_dec : EqDecision ApprovalVerdict.
Proof. solve_decision. Defined.
#[export] Instance ApprovalStatus_eq_dec : EqDecision ApprovalStatus.
Proof. solve_decision. Defined.
#[export] Instance OptionKind_eq_dec : EqDecision OptionKind.
Proof. solve_decision. Defined.
#[export] Instance RpcId_eq_dec : EqDecision RpcId.
Proof. solve_decision. Defined.

Record AcpPermissionOption := mkOption { po_optionId : string; po_kind : option OptionKind }.

Inductive ApprovalPayload :=
| ap_ext_authz (host : string) (port : option Z) (method path : string)
    (viaAgentId viaEnvironment : option string)
| ap_acp_native (toolName : string) (toolCallId args : option string) (rpcId : option RpcId)
    (options : list AcpPermissionOption) (optionsWhole : bool)
| ap_spend_limit (question : SpendLimitQuestion)
| ap_egress_proposal (host : string) (port : option Z) (method path reason : string).

Record PendingApprovalRow := mkPending {
  pa_id : string;
  pa_type : ApprovalType;
  pa_agentId : string;
  pa_ownerSub : string;
  pa_sessionId : option string;
  pa_payload : ApprovalPayload;
  pa_createdAt : Z;
  pa_expiresAt : Z;
  pa_resolvedAt : option Z;
  pa_verdict : option ApprovalVerdict;
  pa_decidedBy : option string;
  pa_status : ApprovalStatus;
  pa_deliveredAt : option Z;
}.

Record NewPendingApproval := mkNewPending {
  na_id : string;
  na_type : ApprovalType;
  na_agentId : string;
  na_ownerSub : string;
  na_sessionId : option string;
  na_payload : ApprovalPayload;
  na_expiresAt : Z;
}.

(** Rows under their primary key, in insertion order. *)
Definition ApprovalTable : Type := list (string * PendingApprovalRow).

Definition fresh_row (now : Z) (row : NewPendingApproval) : PendingApprovalRow :=
  mkPending (na_id row) (na_type row) (na_agentId row) (na_ownerSub row) (na_sessionId row)
    (na_payload row) now (na_expiresAt row) None None None as_pending None.

(** ** Inserts *)

(** The upsert reopens a row only when it expired, or was resolved and delivered. *)
Definition reopenable (r : PendingApprovalRow) : bool :=
  match pa_status r with
  | as_expired => true
  | as_resolved => match pa_deliveredAt r with Some _ => true | None => false end
  | as_pending => false
  end.

Definition insertPending (now : Z) (row : NewPendingApproval) (t : ApprovalTable) : ApprovalTable * bool :=
  match om_get (na_id row) t with
  | Some old => if reopenable old then (om_set (na_id row) (fresh_row now row) t, true) else (t, false)
  | None => (om_set (na_id row) (fresh_row now row) t, true)
  end.

Definition insertIfAbsent (now : Z) (row : NewPendingApproval) (t : ApprovalTable) : ApprovalTable * bool :=
  match om_get (na_id row) t with
  | Some _ => (t, false)
  | None => (om_set (na_id row) (fresh_row now row) t, true)
  end.

(** A settled row: [None] expired, [Some verdict] resolved. *)
Definition settled_row (now : Z) (row : NewPendingApproval) (verdict : option ApprovalVerdict)
  : PendingApprovalRow :=
  mkPending (na_id row) (na_type row) (na_agentId row) (na_ownerSub row) (na_sessionId row)
    (na_payload row) now (na_expiresAt row) (Some now) verdict (Some "in-session"%string)
    (match verdict with Some _ => as_resolved | None => as_expired end) (Some now).

Definition insertSettled (now : Z) (row : NewPendingApproval) (verdict : option ApprovalVerdict)
    (t : ApprovalTable) : ApprovalTable * bool :=
  match om_get (na_id row) t with
  | Some _ => (t, false)
  | None => (om_set (na_id row) (settled_row now row verdict) t, true)
  end.

(** ** Reads *)
Definition getPending (id : string) (t : ApprovalTable) : option PendingApprovalRow := om_get id t.

Definition matches_request (agentId host : string) (port : option Z) (method path : string)
    (r : PendingApprovalRow) : bool :=
  String.eqb (pa_agentId r) agentId && bool_decide (pa_status r = as_pending)
  && bool_decide (pa_type r = at_ext_authz) &&
  match pa_payload r with
  | ap_ext_authz host' port' method' path' _ _ | ap_egress_proposal host' port' method' path' _ =>
      String.eqb host' host && bool_decide (port' = port) && String.eqb method' method && String.eqb path' path
  | _ => false
  end.

(** [ORDER BY created_at DESC LIMIT 1] *)
Definition findActivePendingExtAuthz (agentId host : string) (port : option Z) (method path : string)
    (t : ApprovalTable) : option PendingApprovalRow :=
  head (js_sort (fun a b => pa_createdAt b - pa_createdAt a)
    (List.filter (matches_request agentId host port method path) (om_values t))).

Definition DEFAULT_LIST_LIMIT : Z := 100.
Definition MAX_LIST_LIMIT : Z := 500.

Definition clampLimit (requested : option Z) : Z :=
  match requested with
  | None => DEFAULT_LIST_LIMIT
  | Some n => if n <? 1 then DEFAULT_LIST_LIMIT else Z.min n MAX_LIST_LIMIT
  end.

(** Newest first, no more than the limit. *)
Definition listRows (keep : PendingApprovalRow -> bool) (limit : option Z) (status : option ApprovalStatus)
    (t : ApprovalTable) : list PendingApprovalRow :=
  firstn (Z.to_nat (clampLimit limit))
    (js_sort (fun a b => pa_createdAt b - pa_createdAt a)
       (List.filter (fun r => keep r && match status with
                                        | Some s => bool_decide (pa_status r = s)
                                        | None => true
                                        end) (om_values t))).

Definition listPendingForOwner (ownerSub : string) :=
  listRows (fun r => String.eqb (pa_ownerSub r) ownerSub).
Definition listPendingForInstance (agentId : string) :=
  listRows (fun r => String.eqb (pa_agentId r) agentId).

Definition is_stale (cutoff : Z) (r : PendingApprovalRow) : bool :=
  bool_decide (pa_status r = as_resolved) && bool_decide (pa_deliveredAt r = None)
  && match pa_resolvedAt r with Some at_ => at_ <? cutoff | None => false end.

Definition listResolvedUndelivered (now staleMs limit : Z) (t : ApprovalTable) : list PendingApprovalRow :=
  firstn (Z.to_nat limit)
    (js_sort (fun a b => (pa_resolvedAt a ?? 0) - (pa_resolvedAt b ?? 0))
       (List.filter (is_stale (now - staleMs)) (om_values t))).

(** ** Settling *)

(** [UPDATE ... WHERE id = and status =]: answers whether a row changed. *)
Definition update_status (id : string) (from : ApprovalStatus) (f : PendingApprovalRow -> PendingApprovalRow)
    (t : ApprovalTable) : ApprovalTable * bool :=
  match om_get id t with
  | Some r => if bool_decide (pa_status r = from) then (om_set id (f r) t, true) else (t, false)
  | None => (t, false)
  end.

Definition settle_row (resolvedAt : option Z) (verdict : option ApprovalVerdict) (decidedBy : option string)
    (status : ApprovalStatus) (deliveredAt : option Z) (r : PendingApprovalRow) : PendingApprovalRow :=
  mkPending (pa_id r) (pa_type r) (pa_agentId r) (pa_ownerSub r) (pa_sessionId r) (pa_payload r)
    (pa_createdAt r) (pa_expiresAt r) resolvedAt verdict decidedBy status deliveredAt.

Definition resolvePending (now : Z) (id : string) (verdict : ApprovalVerdict) (decidedBy : string)
    (markDelivered : bool) (t : ApprovalTable) : ApprovalTable * bool :=
  update_status id as_pending (fun r =>
    settle_row (Some now) (Some verdict) (Some decidedBy) as_resolved
      (if markDelivered then Some now else pa_deliveredAt r) r) t.

Definition resolveExpired (now : Z) (id : string) (verdict : ApprovalVerdict) (decidedBy : string)
    (t : ApprovalTable) : ApprovalTable * bool :=
  update_status id as_expired
    (settle_row (Some now) (Some verdict) (Some decidedBy) as_resolved (Some now)) t.

Definition set_expired (now : Z) (r : PendingApprovalRow) : PendingApprovalRow :=
  settle_row (Some now) (pa_verdict r) (pa_decidedBy r) as_expired (pa_deliveredAt r) r.

Definition expirePending (now : Z) (id : string) (t : ApprovalTable) : ApprovalTable * bool :=
  update_status id as_pending (set_expired now) t.

Definition is_overdue (now : Z) (r : PendingApprovalRow) : bool :=
  bool_decide (pa_status r = as_pending) && (pa_expiresAt r <? now).

(** The rows it expired, as they were. *)
Definition expireOverdue (now : Z) (t : ApprovalTable) : ApprovalTable * list PendingApprovalRow :=
  (map (fun p => (fst p, if is_overdue now (snd p) then set_expired now (snd p) else snd p)) t,
   List.filter (is_overdue now) (om_values t)).

Definition markDelivered (now : Z) (id : string) (t : ApprovalTable) : ApprovalTable :=
  fst (update_status id as_resolved (fun r =>
    settle_row (pa_resolvedAt r) (pa_verdict r) (pa_decidedBy r) (pa_status r)
      (match pa_deliveredAt r with Some d => Some d | None => Some now end) r) t).

Definition correctResolvedVerdict (now : Z) (id : string) (verdict : ApprovalVerdict) (t : ApprovalTable)
  : ApprovalTable * bool :=
  match om_get id t with
  | Some r =>
      match pa_status r, pa_verdict r with
      | as_resolved, Some old =>
          if bool_decide (old = verdict) then (t, false)
          else (om_set id (settle_row (Some now) (Some verdict) (pa_decidedBy r) (pa_status r)
                             (pa_deliveredAt r) r) t, true)
      | _, _ => (t, false)
      end
  | None => (t, false)
  end.

(** ** Deletes *)
Definition delete_rows (drop : PendingApprovalRow -> bool) (t : ApprovalTable) : ApprovalTable :=
  List.filter (fun p => negb (drop (snd p))) t.

Definition deleteForAgent (agentId : string) : ApprovalTable -> ApprovalTable :=
  delete_rows (fun r => String.eqb (pa_agentId r) agentId).

Definition is_pending_question (ownerSub limitId : string) (r : PendingApprovalRow) : bool :=
  String.eqb (pa_ownerSub r) ownerSub && bool_decide (pa_type r = at_spend_limit)
  && bool_decide (pa_status r = as_pending)
  && match pa_payload r with ap_spend_limit q => String.eqb (sq_limitId q) limitId | _ => false end.

Definition deletePendingSpendQuestions (ownerSub limitId : string) (t : ApprovalTable)
  : ApprovalTable * list (string * string) :=
  (delete_rows (is_pending_question ownerSub limitId) t,
   map (fun r => (pa_id r, pa_agentId r)) (List.filter (is_pending_question ownerSub limitId) (om_values t))).

Definition listDistinctApprovalAgents (t : ApprovalTable) : list string := js_uniq (map pa_agentId (om_values t)).

(** ** What an approval tells the rest of the platform *)
Inductive ApprovalResolution := rs_verdict (v : ApprovalVerdict) | rs_expired | rs_superseded.
Inductive ApprovalEvent :=
| ApprovalRequested (approvalId agentId ownerSub : string)
| ApprovalResolved (approvalId agentId ownerSub : string) (resolution : ApprovalResolution).

(** ** Every write of the table *)
Inductive ApprovalOp :=
| op_insertPending (row : NewPendingApproval)
| op_insertIfAbsent (row : NewPendingApproval)
| op_insertSettled (row : NewPendingApproval) (verdict : option ApprovalVerdict)
| op_resolvePending (id : string) (verdict : ApprovalVerdict) (decidedBy : string) (delivered : bool)
| op_resolveExpired (id : string) (verdict : ApprovalVerdict) (decidedBy : string)
| op_correct (id : string) (verdict : ApprovalVerdict)
| op_expirePending (id : string)
| op_expireOverdue
| op_markDelivered (id : string)
| op_deleteForAgent (agentId : string)
| op_deleteQuestions (ownerSub limitId : string).

Definition run_op (now : Z) (op : ApprovalOp) (t : ApprovalTable) : ApprovalTable :=
  match op with
  | op_insertPending row => fst (insertPending now row t)
  | op_insertIfAbsent row => fst (insertIfAbsent now row t)
  | op_insertSettled row v => fst (insertSettled now row v t)
  | op_resolvePending id v by_ d => fst (resolvePending now id v by_ d t)
  | op_resolveExpired id v by_ => fst (resolveExpired now id v by_ t)
  | op_correct id v => fst (correctResolvedVerdict now id v t)
  | op_expirePending id => fst (expirePending now id t)
  | op_expireOverdue => fst (expireOverdue now t)
  | op_markDelivered id => markDelivered now id t
  | op_deleteForAgent a => deleteForAgent a t
  | op_deleteQuestions o l => fst (deletePendingSpendQuestions o l t)
  end.

(** ** Facts *)

(** What an approval asks never changes under its id: the agent, the owner and
    the payload. *)
Definition asks (r : PendingApprovalRow) : ApprovalType * string * string * ApprovalPayload :=
  (pa_type r, pa_agentId r, pa_ownerSub r, pa_payload r).

Record approvals_ok (t : ApprovalTable) : Prop := {
  ao_keys : NoDup (om_keys t);
  ao_ids : forall k r, om_get k t = Some r -> pa_id r = k;
}.

(** Does a row hold a verdict that lets a request through? *)
Definition lets_through (r : PendingApprovalRow) : bool :=
  bool_decide (pa_status r = as_resolved) &&
  match pa_verdict r with Some av_allow | Some av_allow_once => true | _ => false end.

Lemma om_get_delete_rows drop k r t :
  NoDup (om_keys t) -> om_get k (delete_rows drop t) = Some r -> om_get k t = Some r.
Proof.
  unfold delete_rows, om_keys. induction t as [|[k0 r0] t IH]; [done|]. simpl. rewrite NoDup_cons. intros [Hn Hd].
  destruct (drop r0); simpl; [|case_decide; [done|by apply IH]].
  intros Hg. pose proof (IH Hd Hg) as Ht. case_decide; [|done]. subst k. exfalso.
  apply Hn. destruct (decide (k0 ∈ om_keys t)) as [|Hk]; [done|]. apply om_get_None_keys in Hk. congruence.
Qed.

Lemma om_get_map_rows (f : PendingApprovalRow -> PendingApprovalRow) k (t : ApprovalTable) :
  om_get k (map (fun p => (fst p, f (snd p))) t) = f <$> om_get k t.
Proof. induction t as [|[k0 r0] t IH]; simpl; [done|]. by case_decide. Qed.

(** How one write may move a row it does not insert. *)
Inductive row_moves (op : ApprovalOp) (k : string) (r r' : PendingApprovalRow) : Prop :=
| moves_kept :
    pa_status r' = pa_status r -> pa_verdict r' = pa_verdict r -> pa_decidedBy r' = pa_decidedBy r ->
    row_moves op k r r'
| moves_expired : pa_status r = as_pending -> pa_status r' = as_expired -> row_moves op k r r'
| moves_resolved : pa_status r <> as_resolved -> pa_status r' = as_resolved -> row_moves op k r r'
| moves_corrected v : op = op_correct k v -> pa_status r' = pa_status r -> row_moves op k r r'.

(** The row a write puts in under [k]. *)
Definition inserts (op : ApprovalOp) (k : string) : option NewPendingApproval :=
  match op with
  | op_insertPending row | op_insertIfAbsent row | op_insertSettled row _ =>
      if decide (na_id row = k) then Some row else None
  | _ => None
  end.

Lemma update_status_row op id from f t k r' :
  (forall r, asks (f r) = asks r /\ pa_id (f r) = pa_id r) ->
  (forall r, pa_status r = from -> row_moves op k r (f r)) ->
  om_get k (fst (update_status id from f t)) = Some r' ->
  exists r, om_get k t = Some r /\ asks r' = asks r /\ pa_id r' = pa_id r /\ row_moves op k r r'.
Proof.
  intros Ha Hm. unfold update_status.
  assert (Hkeep : om_get k t = Some r' -> exists r, om_get k t = Some r /\ asks r' = asks r /\
            pa_id r' = pa_id r /\ row_moves op k r r').
  { intros E. exists r'. split_and!; [done..|by apply moves_kept]. }
  destruct (om_get id t) as [q|] eqn:E; [|done]. case_bool_decide; simpl; [|done].
  rewrite om_get_set. case_decide as Hk; [|done]. intros [= <-]. rewrite Hk. exists q.
  destruct (Ha q). split_and!; [done..|]. rewrite <- Hk. by apply Hm.
Qed.

Lemma run_op_row now op t k r' :
  NoDup (om_keys t) -> om_get k (run_op now op t) = Some r' ->
  (exists r, om_get k t = Some r /\ asks r' = asks r /\ pa_id r' = pa_id r /\ row_moves op k r r') \/
  (exists row, inserts op k = Some row /\ (r' = fresh_row now row \/ exists v, r' = settled_row now row v)).
Proof.
  intros Hd.
  assert (Hkept : om_get k t = Some r' ->
    (exists r, om_get k t = Some r /\ asks r' = asks r /\ pa_id r' = pa_id r /\ row_moves op k r r')).
  { intros E. exists r'. split_and!; [done..|by apply moves_kept]. }
  destruct op as [row|row|row v|id v b d|id v b|id v|id| |id|a|o l]; simpl.
  - unfold insertPending. assert (Hset : om_get k (om_set (na_id row) (fresh_row now row) t) = Some r' ->
      (exists r, om_get k t = Some r /\ asks r' = asks r /\ pa_id r' = pa_id r /\ row_moves (op_insertPending row) k r r') \/
      exists row0, (if decide (na_id row = k) then Some row else None) = Some row0 /\
        (r' = fresh_row now row0 \/ exists v, r' = settled_row now row0 v)).
    { rewrite om_get_set. intros Hs. case_decide as Hk; [|left; by apply Hkept].
      injection Hs as <-. right. exists row. by rewrite decide_True; [split; [|left]|]. }
    repeat case_match; simpl; auto.
  - unfold insertIfAbsent. destruct (om_get (na_id row) t); simpl; [by left; apply Hkept|].
    rewrite om_get_set. case_decide as Hk; [|by left; apply Hkept]. intros [= <-]. right. exists row.
    rewrite decide_True by done. split; [done|by left].
  - unfold insertSettled. destruct (om_get (na_id row) t); simpl; [by left; apply Hkept|].
    rewrite om_get_set. case_decide as Hk; [|by left; apply Hkept]. intros [= <-]. right. exists row.
    rewrite decide_True by done. split; [done|right; by exists v].
  - intros Hg. left. eapply update_status_row; [| |exact Hg]; [done|].
    intros r Hr. apply moves_resolved; [congruence|done].
  - intros Hg. left. eapply update_status_row; [| |exact Hg]; [done|].
    intros r Hr. apply moves_resolved; [congruence|done].
  - unfold correctResolvedVerdict. intros Hg. left. destruct (om_get id t) as [q|] eqn:E; [|by apply Hkept].
    destruct (pa_status q) eqn:Es; try by apply Hkept. destruct (pa_verdict q); [|by apply Hkept].
    case_bool_decide; [by apply Hkept|]. simpl in Hg. rewrite om_get_set in Hg. case_decide as Hk; [|by apply Hkept].
    injection Hg as <-. rewrite Hk. exists q. split_and!; [done..|]. by eapply moves_corrected.
  - intros Hg. left. eapply update_status_row; [| |exact Hg]; [done|]. intros r Hr. by apply moves_expired.
  - rewrite (om_get_map_rows (fun r => if is_overdue now r then set_expired now r else r)). destruct (om_get k t) as [q|] eqn:E; simpl; [|done]. intros [= <-]. left. exists q.
    destruct (is_overdue now q) eqn:Eo; [|split_and!; [done..|by apply moves_kept]].
    unfold is_overdue in Eo. rewrite andb_true_iff, bool_decide_eq_true in Eo. destruct Eo.
    split_and!; [done..|by apply moves_expired].
  - intros Hg. left. eapply update_status_row; [| |exact Hg]; [done|]. intros r Hr. by apply moves_kept.
  - intros Hg. left. apply Hkept. by eapply om_get_delete_rows.
  - intros Hg. left. apply Hkept. by eapply om_get_delete_rows.
Qed.

Lemma run_op_NoDup now op t : NoDup (om_keys t) -> NoDup (om_keys (run_op now op t)).
Proof.
  intros Hd.
  assert (Hu : forall id from f, NoDup (om_keys (fst (update_status id from f t)))).
  { intros id from f. unfold update_status. repeat case_match; simpl; auto using om_set_NoDup. }
  assert (Hdel : forall drop, NoDup (om_keys (delete_rows drop t))).
  { intros drop. unfold om_keys, delete_rows. eapply sublist_NoDup; [exact Hd|]. clear.
    induction t as [|p t IH]; simpl; [done|]. case_match; simpl; by constructor. }
  destruct op; simpl; unfold resolvePending, resolveExpired, expirePending, markDelivered; auto.
  - unfold insertPending. repeat case_match; simpl; auto using om_set_NoDup.
  - unfold insertIfAbsent. repeat case_match; simpl; auto using om_set_NoDup.
  - unfold insertSettled. repeat case_match; simpl; auto using om_set_NoDup.
  - unfold correctResolvedVerdict. repeat case_match; simpl; auto using om_set_NoDup.
  - unfold om_keys. rewrite map_map. done.
  - apply Hdel.
Qed.

Lemma run_op_ok now op t : approvals_ok t -> approvals_ok (run_op now op t).
Proof.
  intros [Hd Hi]. split; [by apply run_op_NoDup|]. intros k r' Hg.
  apply run_op_row in Hg as [(r & Hr & _ & -> & _)|(row & Hrow & Hr)]; [by apply Hi| |done].
  assert (na_id row = k) as <- by (destruct op; simpl in Hrow; try done; case_decide; congruence).
  by destruct Hr as [->|[v ->]].
Qed.

(** A run of writes, each at its time. *)
Definition run_ops (ops : list (Z * ApprovalOp)) (t : ApprovalTable) : ApprovalTable :=
  fold_left (fun t p => run_op (fst p) (snd p) t) ops t.

(** C33: a settled approval stays settled.  Whatever the platform writes later
    (other verdicts, expiries, sweeps, deliveries, deletes), an approval that
    was resolved keeps its verdict and who gave it, and one that expired is
    never pending again, for as long as its row exists; only an insert under
    its id or the runtime's own correction of a tool call can say otherwise. *)
Theorem settled_stays_settled ops t k r :
  NoDup (om_keys t) -> om_get k t = Some r -> pa_status r <> as_pending ->
  (forall now op, (now, op) ∈ ops -> inserts op k = None /\ forall v, op <> op_correct k v) ->
  match om_get k (run_ops ops t) with
  | None => True
  | Some r' =>
      asks r' = asks r /\ pa_status r' <> as_pending /\
      (pa_status r = as_resolved ->
         pa_status r' = as_resolved /\ pa_verdict r' = pa_verdict r /\ pa_decidedBy r' = pa_decidedBy r)
  end.
Proof.
  intros Hd Hr Hs Hops.
  assert (Hgen : forall t, NoDup (om_keys t) ->
    (forall q, om_get k t = Some q -> asks q = asks r /\ pa_status q <> as_pending /\
      (pa_status r = as_resolved -> pa_status q = as_resolved /\ pa_verdict q = pa_verdict r
                                    /\ pa_decidedBy q = pa_decidedBy r)) ->
    forall q, om_get k (run_ops ops t) = Some q -> asks q = asks r /\ pa_status q <> as_pending /\
      (pa_status r = as_resolved -> pa_status q = as_resolved /\ pa_verdict q = pa_verdict r
                                    /\ pa_decidedBy q = pa_decidedBy r)).
  { clear Hr Hd t. induction ops as [|[now op] ops IH]; intros t Hd Hinv; [exact Hinv|]. unfold run_ops; simpl.
    apply IH; [intros n o Ho; apply (Hops n o); set_solver|by apply run_op_NoDup|].
    intros q Hq. destruct (Hops now op) as [Hins Hcor]; [set_solver|].
    apply run_op_row in Hq as [(q0 & Hq0 & Ha & _ & Hm)|(row & Hrow & _)]; [|congruence|done].
    destruct (Hinv q0 Hq0) as (Ha0 & Hp0 & Hk0). split; [congruence|].
    destruct Hm as [E1 E2 E3|E1 E2|E1 E2|v E1 E2]; [by rewrite E1, E2, E3|congruence| |by apply Hcor in E1].
    split; [congruence|]. intros E. destruct (Hk0 E). congruence. }
  destruct (om_get k (run_ops ops t)) as [q|] eqn:E; [|done].
  refine (Hgen t Hd _ q E). intros q0 Hq0. assert (q0 = r) as -> by congruence. done.
Qed.

Definition example_approval : NewPendingApproval :=
  mkNewPending "u0" at_ext_authz "a" "owner" None (ap_ext_authz "example.com" None "GET" "/v1" None None) 60000.

Lemma settled_stays_settled_witness :
  let t := run_ops [(1, op_insertPending example_approval); (2, op_resolvePending "u0" av_deny "owner" false)] [] in
  match om_get "u0"%string (run_ops [(3, op_resolvePending "u0" av_allow "other" false); (4, op_expirePending "u0");
                                     (5, op_expireOverdue); (6, op_markDelivered "u0")] t) with
  | None => True
  | Some r' => pa_verdict r' = Some av_deny /\ pa_decidedBy r' = Some "owner"%string
  end.
Proof.
  intros t.
  pose proof (settled_stays_settled [(3, op_resolvePending "u0" av_allow "other" false); (4, op_expirePending "u0");
    (5, op_expireOverdue); (6, op_markDelivered "u0")] t "u0"
    (settle_row (Some 2) (Some av_deny) (Some "owner"%string) as_resolved None (fresh_row 1 example_approval))) as H.
  cbv zeta in H.
  assert (Hd : NoDup (om_keys t)) by (vm_compute; apply NoDup_singleton).
  specialize (H Hd eq_refl). destruct (om_get "u0"%string (run_ops _ t)) as [r'|]; [|exact I].
  destruct H as (_ & _ & H); [discriminate| |].
  - intros now op Hin. rewrite !elem_of_cons in Hin.
    destruct Hin as [E|[E|[E|[E|E]]]]; [injection E as -> ->; done..|by apply not_elem_of_nil in E].
  - destruct (H eq_refl) as (_ & H1 & H2). rewrite H1, H2. split; reflexivity.
Defined.
