(* ===== verification/ExtAuthz.v ===== *)
(** * The egress gate

    [approvals/services/ext-authz-gate.ts], [approvals/domain/dot-segment.ts],
    [approvals/services/spend-limit-questions.ts] and the match adapter of
    [egress-rules/compose.ts]: whether a request an agent sends to the internet
    goes through.  The gate asks the rules through the interface
    [EgressRuleMatcher] and runs the spend check of [SpendCheck] on its part of
    the state; who an agent belongs to, the providers' own hosts and the
    attendance of a turn are parameters that answer or throw.  A hold is the
    list of what happens while it lasts: writes of the approval table and looks
    at it (bus messages, polls), then the timeout.  Audit lines are left out. *)

From stdpp Require Import base sets strings list pretty.
From Stdlib Require Import ZArith Lia Ascii.
From S2P Require Import Prelude JsString JsDate SpendLedger SpendLimits SpendStore SpendIngest SpendCheck EgressRules Approvals.

Local Open Scope Z_scope.

(** ** dot-segment.ts *)

(** Every separator (slash, backslash, and their escapes) becomes a slash. *)
Fixpoint norm_separators (s : string) : string :=
  match s with
  | EmptyString => ""%string
  | String c rest =>
      if Ascii.eqb c "\" then String "/" (norm_separators rest)
      else match rest with
           | String d (String e rest') =>
               if Ascii.eqb c "%" && ((Ascii.eqb d "2" && Ascii.eqb (lower_char e) "f")
                                      || (Ascii.eqb d "5" && Ascii.eqb (lower_char e) "c"))
               then String "/" (norm_separators rest')
               else String c (norm_separators rest)
           | _ => String c (norm_separators rest)
           end
  end.

(** [replace(/%2e/gi, ".")] *)
Fixpoint decode_dots (s : string) : string :=
  match s with
  | EmptyString => ""%string
  | String c rest =>
      match rest with
      | String d (String e rest') =>
          if Ascii.eqb c "%" && Ascii.eqb d "2" && Ascii.eqb (lower_char e) "e"
          then String "." (decode_dots rest')
          else String c (decode_dots rest)
      | _ => String c (decode_dots rest)
      end
  end.

Definition before_char (c : ascii) (s : string) : string := nullish (head (str_split c s)) s.

Definition hasDotSegment (path : string) : bool :=
  existsb (fun segment =>
    let name := before_char ";" (decode_dots segment) in
    String.eqb name "." || String.eqb name "..")
    (str_split "/" (norm_separators (before_char "?" path))).

Example dots_raw : hasDotSegment "/contents/qa/../README" = true.
Proof. reflexivity. Qed.
Example dots_escaped : hasDotSegment "/contents/qa%2F%2e%2E;x/README?ref=a" = true.
Proof. reflexivity. Qed.
Example dots_in_query : hasDotSegment "/v1/..x/a.b?p=/../" = false.
Proof. reflexivity. Qed.

(** ** The rules' interface *)
Record MatchedEgressRule := mkMatched {
  mr_host : string;
  mr_port : option Z;
  mr_method : string;
  mr_pathPattern : string;
}.

Record EgressRequest := mkRequest {
  rq_agentId : string;
  rq_host : string;
  rq_port : Z;
  rq_tls : bool;
  rq_method : string;
  rq_path : string;
}.

(** What the gate relies on: a match covers the request, and a request that
    some rule covers gets a match. *)
Class EgressRuleMatcher := {
  rule_covers : EgressRequest -> RuleVerdict -> MatchedEgressRule -> Prop;
  match_rule : EgressRequest -> result (option (RuleVerdict * MatchedEgressRule));
  match_rule_covers : forall rq v rule, match_rule rq = Ok (Some (v, rule)) -> rule_covers rq v rule;
  match_rule_complete : forall rq v rule, match_rule rq = Ok None -> ~ rule_covers rq v rule;
}.

Definition matched_of (r : EgressRuleRow) : MatchedEgressRule :=
  mkMatched (er_host r) (match er_port r with Some 0 => None | p => p end) (er_method r) (er_pathPattern r).

(** The adapter over a rule table. *)
Definition table_match (t : RuleTable) (rq : EgressRequest) : result (option (RuleVerdict * MatchedEgressRule)) :=
  match findMatch (rq_agentId rq) (rq_host rq) (rq_port rq) (rq_tls rq) (rq_method rq) (rq_path rq) t with
  | Throw => Throw
  | Ok None => Ok None
  | Ok (Some r) => Ok (Some (er_verdict r, matched_of r))
  end.

Definition table_covers (t : RuleTable) (rq : EgressRequest) (v : RuleVerdict) (rule : MatchedEgressRule) : Prop :=
  exists r, r ∈ t /\ er_verdict r = v /\ matched_of r = rule /\
    speaks_for (rq_agentId rq) (canonicalEgressHost (rq_host rq)) (rq_port rq) (rq_tls rq) (rq_method rq)
      (rq_path rq) r.

#[export] Instance table_matcher (t : RuleTable) : EgressRuleMatcher.
Proof.
  refine {| rule_covers := table_covers t; match_rule := table_match t |}.
  - intros rq v rule. unfold table_match. destruct (findMatch _ _ _ _ _ _ t) as [[r|]|] eqn:E; [|done|done].
    intros [= <- <-]. apply findMatch_sound in E as [Hin Hs]. by exists r.
  - intros rq v rule. unfold table_match. destruct (findMatch _ _ _ _ _ _ t) as [[r|]|] eqn:E; [done| |done].
    intros _ (r & Hin & _ & _ & Hs). by apply (findMatch_none _ _ _ _ _ _ _ r E).
Defined.

(** ** The gate *)
Record GateIdentity := mkIdentity {
  gi_ownerSub : string;
  gi_agentId : string;
  gi_environment : option string;
}.

Record DeniedResponse := mkDenied {
  dn_status : Z;
  dn_headers : list (string * string);
  dn_body : string;
}.

(** What a model call brings besides its agent, its owner and its start. *)
Record SpendCall := mkSpendCall {
  sc_callId : string;
  sc_payer : string;
  sc_connectionId : option string;
  sc_providers : list string;
  sc_sessionId : option string;
  sc_routerCallId : option string;
  sc_dialect : ApiDialect;
}.

Definition checkedOf (sc : SpendCall) (agentId ownerSub : string) (startedAt : Z) : CheckedCall :=
  mkChecked (sc_callId sc)
    (mkMeta agentId (sc_payer sc) ownerSub (sc_connectionId sc) (sc_providers sc) (sc_sessionId sc)
       (sc_routerCallId sc) startedAt) (sc_dialect sc).

Inductive RefusalBasis := basis_spend | basis_rule.
Inductive ExtAuthzDecision :=
| ed_allow
| ed_deny
| ed_refuse (basis : RefusalBasis) (response : DeniedResponse).

Record SynthFrameInput := mkSynthFrame {
  sf_approvalId : string;
  sf_host : string;
  sf_port : option Z;
  sf_method : string;
  sf_path : string;
}.

(** The approval table, the events, the frames shown in open sessions, the
    supply of identifiers and the state of the spend check. *)
Record GateWorld := mkGate {
  gw_approvals : ApprovalTable;
  gw_events : list ApprovalEvent;
  gw_frames : list (string * SynthFrameInput);
  gw_next : nat;
  gw_spend : World;
}.

Definition set_approvals (t : ApprovalTable) (w : GateWorld) : GateWorld :=
  mkGate t (gw_events w) (gw_frames w) (gw_next w) (gw_spend w).
Definition set_spend (s : World) (w : GateWorld) : GateWorld :=
  mkGate (gw_approvals w) (gw_events w) (gw_frames w) (gw_next w) s.
Definition gw_now (w : GateWorld) : Z := s_now (w_store (gw_spend w)).

Definition on_approvals {A} (f : Z -> ApprovalTable -> ApprovalTable * A) : IO GateWorld A :=
  io_op (fun w => let '(t, a) := f (gw_now w) (gw_approvals w) in (set_approvals t w, a)).
Definition read_approvals {A} (f : ApprovalTable -> A) : IO GateWorld A := on_approvals (fun _ t => (t, f t)).
Definition gate_emit (e : ApprovalEvent) : IO GateWorld unit :=
  io_tell (fun w => mkGate (gw_approvals w) (gw_events w ++ [e]) (gw_frames w) (gw_next w) (gw_spend w)).
Definition gate_publish (agentId : string) (f : SynthFrameInput) : IO GateWorld unit :=
  io_tell (fun w => mkGate (gw_approvals w) (gw_events w) (gw_frames w ++ [(agentId, f)]) (gw_next w) (gw_spend w)).
Definition port {A} (r : result A) : IO GateWorld A := fun w => (w, r).
Definition gate_now : IO GateWorld Z := fun w => (w, Ok (gw_now (io_st w))).

(** A step of the spend component, on its part of the world. *)
Definition spend_step {A} (m : IO World A) : IO GateWorld A := io_lift gw_spend set_spend m.

(** ** spend-limit-questions.ts *)
Definition spendLimitApprovalId (q : SpendLimitQuestion) : string :=
  ("spendlimit:" ++ sq_limitId q ++ ":" ++ sq_day q ++ ":" ++ pretty (sq_amountMicros q) ++ ":"
   ++ pretty (sq_extensions q))%string.

Definition questionRow (agentId ownerSub : string) (q : SpendLimitQuestion) : NewPendingApproval :=
  mkNewPending (spendLimitApprovalId q) at_spend_limit agentId ownerSub None (ap_spend_limit q)
    (match parse_day (sq_day q) with Some z => (z + 1) * DAY_MS | None => 0 end).

(** Each question is asked once; one that cannot be asked is given up. *)
Definition ask (agentId ownerSub : string) (questions : list SpendLimitQuestion) : IO GateWorld unit :=
  io_iter (fun q =>
    let* asked := io_catch (on_approvals (fun now => insertIfAbsent now (questionRow agentId ownerSub q)))
                    (io_ret false) in
    if asked : bool then gate_emit (ApprovalRequested (spendLimitApprovalId q) agentId ownerSub)
    else io_ret tt) questions.

(** ** Refusals and holds *)
Definition ruleRefusal (host : string) (rule : MatchedEgressRule) : DeniedResponse :=
  let ruleHost := match mr_port rule with
                  | Some p => if p =? 0 then mr_host rule else (mr_host rule ++ ":" ++ pretty p)%string
                  | None => mr_host rule
                  end in
  mkDenied 403 [("content-type", "text/plain"); (PLATFORM_REFUSAL_HEADER, "egress")]%string
    ("Blocked by network rule " ++ String (ascii_of_N 34) ("deny " ++ ruleHost ++ ", method " ++ mr_method rule
     ++ ", path " ++ mr_pathPattern rule ++ String (ascii_of_N 34) (": the egress gateway refused this request to "
     ++ host ++ ", not the upstream. The agent's owner can change the rule in the agent's network settings.")))%string.

(** What happens while a request is held: a write of the approvals at its time,
    or a look at the held one (a bus message, a poll). *)
Inductive HoldEvent :=
| he_write (now : Z) (op : ApprovalOp)
| he_check.

Inductive SettledVerdict :=
| sv_resolved (allowed : bool)
| sv_expired (flipped : bool).

(** A look that fails settles nothing. *)
Definition checkResolved (id : string) : IO GateWorld (option bool) :=
  io_catch
    (let* row := read_approvals (getPending id) in
     io_ret (match row with
             | Some r =>
                 if bool_decide (pa_status r = as_resolved)
                 then Some (match pa_verdict r with Some av_allow | Some av_allow_once => true | _ => false end)
                 else None
             | None => None
             end))
    (io_ret None).

(** The timeout: the row expires unless it was settled meanwhile. *)
Definition holdTimeout (deadline : Z) (id : string) : IO GateWorld SettledVerdict :=
  let* flipped := io_catch (on_approvals (fun _ => expirePending deadline id)) (io_ret false) in
  io_ret (sv_expired flipped).

Fixpoint waitForVerdict (deadline : Z) (id : string) (hold : list HoldEvent) : IO GateWorld SettledVerdict :=
  match hold with
  | [] => holdTimeout deadline id
  | he_write now op :: hold =>
      run* io_tell (fun w => set_approvals (run_op now op (gw_approvals w)) w) in
      waitForVerdict deadline id hold
  | he_check :: hold =>
      let* r := checkResolved id in
      match r with Some allowed => io_ret (sv_resolved allowed) | None => waitForVerdict deadline id hold end
  end.

(** The port an approval names: none for the scheme's default port. *)
Definition named_port (rq : EgressRequest) : option Z :=
  if rq_port rq =? (if rq_tls rq then 443 else 80) then None else Some (rq_port rq).

(** [...(port ? { port } : {})] *)
Definition payload_port (p : option Z) : option Z := match p with Some 0 => None | _ => p end.

Section Gate.
Context `{!EgressRuleMatcher} `{!Locale}.
Variable resolve : string -> result (option GateIdentity).
Variable providerCovers : string -> EgressRequest -> result bool.
Variables hasOpenChannelTurn hasInteractiveSession : string -> result bool.
Variable platformAllowedAuthorities : list string.
Variable holdSeconds : Z.
Variable uuid : nat -> string.
(** The parameters of the spend check. *)
Variable sessionKnown : string -> string -> result bool.
Variable defaultCeiling : option Z.
Variable brandName : string.

Definition newId : IO GateWorld string := fun w =>
  let g := io_st w in
  (mk_io (mkGate (gw_approvals g) (gw_events g) (gw_frames g) (S (gw_next g)) (gw_spend g)) (io_faults w),
   Ok (uuid (gw_next g))).

(** The row a held request opens. *)
Definition heldRow (id : string) (identity : GateIdentity) (rq : EgressRequest) (via : option string)
    (expiresAt : Z) : NewPendingApproval :=
  mkNewPending id at_ext_authz (gi_agentId identity) (gi_ownerSub identity) None
    (ap_ext_authz (rq_host rq) (payload_port (named_port rq)) (rq_method rq) (rq_path rq) via
       (gi_environment identity ≫= or_null)) expiresAt.

(** The pending approval a held request joins or opens. *)
Definition openApproval (identity : GateIdentity) (rq : EgressRequest) (via : option string)
  : IO GateWorld string :=
  let* existing := read_approvals (findActivePendingExtAuthz (gi_agentId identity) (rq_host rq)
                                     (named_port rq) (rq_method rq) (rq_path rq)) in
  match existing with
  | Some row => io_ret (pa_id row)
  | None =>
      let* id := newId in
      let* _ := on_approvals (fun now =>
        insertPending now (heldRow id identity rq via (now + holdSeconds * 1000))) in
      run* gate_emit (ApprovalRequested id (gi_agentId identity) (gi_ownerSub identity)) in
      io_ret id
  end.

(** What remains once no rule and no provider decided. *)
Definition holdRequest (identity : GateIdentity) (rq : EgressRequest) (via : option string)
    (hold : list HoldEvent) : IO GateWorld ExtAuthzDecision :=
  let* turn := port (hasOpenChannelTurn (gi_agentId identity)) in
  let* unattended := (if turn : bool
                      then let* session := port (hasInteractiveSession (gi_agentId identity)) in io_ret (negb session)
                      else io_ret false) in
  let* id := openApproval identity rq via in
  if unattended : bool then io_ret ed_deny
  else
    run* gate_publish (gi_agentId identity)
           (mkSynthFrame id (rq_host rq) (named_port rq) (rq_method rq) (rq_path rq)) in
    let* now := gate_now in
    let* settled := waitForVerdict (now + holdSeconds * 1000) id (he_check :: hold) in
    run* (match settled with
          | sv_expired true => gate_emit (ApprovalResolved id (gi_agentId identity) (gi_ownerSub identity) rs_expired)
          | _ => io_ret tt
          end) in
    io_ret (match settled with sv_resolved true => ed_allow | _ => ed_deny end).

Definition spend_response (r : Refusal) : DeniedResponse := mkDenied (ref_status r) (ref_headers r) (ref_body r).

(** The request as the rules see it: under the agent it belongs to. *)
Definition ruled_request (input : EgressRequest) (identity : GateIdentity) : EgressRequest :=
  mkRequest (gi_agentId identity) (canonicalEgressHost (rq_host input)) (rq_port input) (rq_tls input)
    (rq_method input) (rq_path input).

Definition gateRequest (input : EgressRequest) (spendCall : option SpendCall) (hold : list HoldEvent)
  : IO GateWorld ExtAuthzDecision :=
  let agentId := rq_agentId input in
  let host := canonicalEgressHost (rq_host input) in
  let* resolved := port (resolve agentId) in
  match resolved with
  | None => io_ret ed_deny
  | Some identity =>
      let via := if String.eqb (gi_agentId identity) agentId then None else Some agentId in
      let rq := ruled_request input identity in
      let* spend := (match spendCall with
                     | Some sc =>
                         let* now := gate_now in
                         spend_step (checkCall sessionKnown defaultCeiling brandName
                                       (checkedOf sc agentId (gi_ownerSub identity) now))
                     | None => io_ret v_allow
                     end) in
      match spend with
      | v_refuse _ response questions =>
          run* ask (match spendCall with Some sc => sc_payer sc | None => agentId end)
                   (gi_ownerSub identity) questions in
          io_ret (ed_refuse basis_spend (spend_response response))
      | v_allow =>
          if includes platformAllowedAuthorities (host ++ ":" ++ pretty (rq_port input))%string then io_ret ed_allow
          else if hasDotSegment (rq_path input) then io_ret ed_deny
          else
            let* matched := port (match_rule rq) in
            let* provider := (match matched with
                              | Some (rv_allow, _) => io_ret false
                              | _ => port (providerCovers agentId rq)
                              end) in
            if provider : bool then io_ret ed_allow
            else match matched with
                 | Some (rv_deny, rule) => io_ret (ed_refuse basis_rule (ruleRefusal host rule))
                 | Some (rv_allow, _) => io_ret ed_allow
                 | None => holdRequest identity rq via hold
                 end
      end
  end.
End Gate.

(** ** Facts *)
Lemma bind_inv {S A B} (m : IO S A) (k : A -> IO S B) w w' b :
  io_bind m k w = (w', Ok b) -> exists w1 a, m w = (w1, Ok a) /\ k a w1 = (w', Ok b).
Proof. unfold io_bind. destruct (m w) as [w1 [a|]]; [eauto|done]. Qed.

Lemma port_inv {A} (r : result A) w w' a : port r w = (w', Ok a) -> w' = w /\ r = Ok a.
Proof. unfold port. intros [= <- ->]. done. Qed.

Lemma spend_step_inv {A} (m : IO World A) w w' a :
  spend_step m w = (w', Ok a) ->
  gw_approvals (io_st w') = gw_approvals (io_st w) /\ gw_next (io_st w') = gw_next (io_st w) /\
  exists s, m (mk_io (gw_spend (io_st w)) (io_faults w)) = (s, Ok a).
Proof. unfold spend_step, io_lift. destruct (m _) as [s r]. intros [= <- ->]. eauto. Qed.

Lemma on_approvals_inv {A} (f : Z -> ApprovalTable -> ApprovalTable * A) w w' a :
  on_approvals f w = (w', Ok a) ->
  exists now, gw_approvals (io_st w') = fst (f now (gw_approvals (io_st w))) /\
    a = snd (f now (gw_approvals (io_st w))) /\ gw_next (io_st w') = gw_next (io_st w).
Proof.
  unfold on_approvals, io_op. destruct w as [g fs]; simpl. intros H. exists (gw_now g). revert H.
  destruct fs as [|[] fs]; destruct (f (gw_now g) (gw_approvals g)); intros; simplify_eq/=; done.
Qed.

Lemma read_approvals_inv {A} (f : ApprovalTable -> A) w w' a :
  read_approvals f w = (w', Ok a) ->
  gw_approvals (io_st w') = gw_approvals (io_st w) /\ a = f (gw_approvals (io_st w)) /\
  gw_next (io_st w') = gw_next (io_st w).
Proof. intros (now & H)%on_approvals_inv. done. Qed.

Lemma checkResolved_inv id w w' r :
  checkResolved id w = (w', Ok r) -> gw_approvals (io_st w') = gw_approvals (io_st w) /\
    (r = Some true -> exists row, om_get id (gw_approvals (io_st w')) = Some row /\ lets_through row = true).
Proof.
  unfold checkResolved, io_catch. destruct (io_bind _ _ w) as [w1 [a|]] eqn:E.
  - intros [= <- <-]. apply bind_inv in E as (w2 & row & Hg & Hr). unfold io_ret in Hr.
    injection Hr as <- <-. apply read_approvals_inv in Hg as (Ht & -> & _). split; [done|].
    unfold getPending. rewrite Ht. destruct (om_get id (gw_approvals (io_st w))) as [row|]; [|done].
    case_bool_decide; [|done]. intros E. exists row. split; [done|]. unfold lets_through.
    rewrite bool_decide_eq_true_2 by done. destruct (pa_verdict row) as [[]|]; simplify_eq; done.
  - intros [= <- <-]. split; [|done]. revert E. unfold io_bind, read_approvals, on_approvals, io_op.
    destruct w as [g fs]. destruct fs as [|[] fs]; simpl; intros; simplify_eq; done.
Qed.

(** The approval a request waits on says what was asked, for as long as it exists. *)
Definition still_asks (id : string) (x : ApprovalType * string * string * ApprovalPayload) (t : ApprovalTable) : Prop :=
  NoDup (om_keys t) /\ forall r, om_get id t = Some r -> asks r = x.

(** No write of the hold opens an approval under this identifier. *)
Definition hold_spares (id : string) (hold : list HoldEvent) : Prop :=
  forall now op, he_write now op ∈ hold -> inserts op id = None.

Lemma still_asks_op id x now op t : inserts op id = None -> still_asks id x t -> still_asks id x (run_op now op t).
Proof.
  intros Hi [Hd Hx]. split; [by apply run_op_NoDup|]. intros r Hr.
  apply run_op_row in Hr as [(r0 & Hr0 & -> & _)|(row & Hrow & _)]; [by apply Hx|congruence|done].
Qed.

Lemma wait_allow_inv deadline id hold x w w' :
  hold_spares id hold -> still_asks id x (gw_approvals (io_st w)) ->
  waitForVerdict deadline id hold w = (w', Ok (sv_resolved true)) ->
  exists row, om_get id (gw_approvals (io_st w')) = Some row /\ lets_through row = true /\ asks row = x.
Proof.
  revert w. induction hold as [|[now op|] hold IH]; intros w Hh Hx; simpl.
  - unfold holdTimeout. intros H. apply bind_inv in H as (w1 & fl & _ & H). unfold io_ret in H. discriminate.
  - intros H. apply bind_inv in H as (w1 & u & Ht & H). unfold io_tell in Ht. injection Ht as <- <-.
    apply IH in H; [done|intros n o Ho; apply (Hh n); set_solver|]. simpl.
    apply still_asks_op; [apply (Hh now); set_solver|done].
  - intros H. apply bind_inv in H as (w1 & c & Hc & H). apply checkResolved_inv in Hc as [Ht Hc].
    assert (Hx1 : still_asks id x (gw_approvals (io_st w1))) by (by rewrite Ht).
    destruct c as [[]|]; [|unfold io_ret in H; discriminate|].
    + unfold io_ret in H. injection H as <-. destruct (Hc eq_refl) as (row & Hr & Hl). exists row.
      split_and!; [done..|]. by apply Hx1.
    + apply IH in H; [done|intros n o Ho; apply (Hh n); set_solver|done].
Qed.

Section GateFacts.
Context `{!EgressRuleMatcher} `{!Locale}.
Variable resolve : string -> result (option GateIdentity).
Variable providerCovers : string -> EgressRequest -> result bool.
Variables hasOpenChannelTurn hasInteractiveSession : string -> result bool.
Variable platformAllowedAuthorities : list string.
Variable holdSeconds : Z.
Variable uuid : nat -> string.
Variable sessionKnown : string -> string -> result bool.
Variable defaultCeiling : option Z.
Variable brandName : string.

(** A row that waits for its owner's verdict on exactly this request. *)
Definition waits_for (identity : GateIdentity) (rq : EgressRequest) (r : PendingApprovalRow) : Prop :=
  pa_status r = as_pending /\ pa_type r = at_ext_authz /\ pa_agentId r = gi_agentId identity /\
  match pa_payload r with
  | ap_ext_authz h p m q _ _ | ap_egress_proposal h p m q _ =>
      h = rq_host rq /\ p = named_port rq /\ m = rq_method rq /\ q = rq_path rq
  | _ => False
  end.

Lemma payload_named_port rq : 0 < rq_port rq -> payload_port (named_port rq) = named_port rq.
Proof. intros Hp. unfold payload_port, named_port. destruct (_ =? _); [done|]. destruct (rq_port rq); [lia|done|done]. Qed.

Lemma heldRow_waits now id identity rq via e :
  0 < rq_port rq -> waits_for identity rq (fresh_row now (heldRow id identity rq via e)).
Proof. intros Hp. unfold waits_for, heldRow; simpl. by rewrite payload_named_port. Qed.

Lemma openApproval_inv identity rq via w w' id :
  approvals_ok (gw_approvals (io_st w)) -> om_get (uuid (gw_next (io_st w))) (gw_approvals (io_st w)) = None ->
  0 < rq_port rq -> openApproval holdSeconds uuid identity rq via w = (w', Ok id) ->
  approvals_ok (gw_approvals (io_st w')) /\
  (exists r, om_get id (gw_approvals (io_st w')) = Some r /\ waits_for identity rq r) /\
  (id = uuid (gw_next (io_st w)) \/ gw_approvals (io_st w') = gw_approvals (io_st w)).
Proof.
  intros Hok Hfresh Hport Hrun. unfold openApproval in Hrun.
  apply bind_inv in Hrun as (w1 & existing & Hf & Hrun). apply read_approvals_inv in Hf as (Ht & -> & Hn).
  destruct (findActivePendingExtAuthz _ _ _ _ _ _) as [row|] eqn:E.
  - unfold io_ret in Hrun. injection Hrun as <- <-. unfold findActivePendingExtAuthz in E.
    apply head_Some_elem_of in E. apply js_sort_elem, elem_of_list_filter in E as [Hin Hm].
    unfold om_values in Hin. apply list_elem_of_fmap in Hin as ([k r] & -> & Hin). simpl in *.
    apply (om_in_get k r _ (ao_keys _ Hok)) in Hin. rewrite (ao_ids _ Hok k r Hin).
    assert (Hw : waits_for identity rq r).
    { unfold matches_request in Hm. rewrite !andb_true_iff, String.eqb_eq, !bool_decide_eq_true in Hm.
      destruct Hm as [[[Ha Hs] Hty] Hp]. unfold waits_for. split_and!; [done..|].
      destruct (pa_payload r); try done; rewrite !andb_true_iff, !String.eqb_eq, bool_decide_eq_true in Hp; naive_solver. }
    rewrite Ht. split_and!; [done|by exists r|by right].
  - apply bind_inv in Hrun as (w2 & nid & Hnew & Hrun). unfold newId in Hnew. injection Hnew as <- <-.
    apply bind_inv in Hrun as (w4 & b & Hins & Hrun). apply on_approvals_inv in Hins as (now & Ht4 & _ & _).
    apply bind_inv in Hrun as (w5 & u & Hem & Hrun). unfold gate_emit, io_tell in Hem. injection Hem as <- <-.
    unfold io_ret in Hrun. injection Hrun as <- <-. simpl in *. rewrite Ht4, Ht, Hn. rewrite Ht in *.
    split_and!; [|eexists; split; [|apply (heldRow_waits now (uuid (gw_next (io_st w))) identity rq via
                                             (now + holdSeconds * 1000) Hport)]|by left].
    + apply (run_op_ok now (op_insertPending _) _ Hok).
    + unfold insertPending; simpl. rewrite Hfresh. simpl. by rewrite om_get_set, decide_True.
Qed.

(** Why a request may go through; [t] and [t'] are the approvals before and after. *)
Inductive may_pass (input : EgressRequest) (identity : GateIdentity) (t t' : ApprovalTable) : Prop :=
  | pass_platform :
    (canonicalEgressHost (rq_host input) ++ ":" ++ pretty (rq_port input))%string ∈ platformAllowedAuthorities ->
    may_pass input identity t t'
  | pass_rule rule :
    hasDotSegment (rq_path input) = false -> rule_covers (ruled_request input identity) rv_allow rule ->
    may_pass input identity t t'
  | pass_provider :
    hasDotSegment (rq_path input) = false ->
    providerCovers (rq_agentId input) (ruled_request input identity) = Ok true ->
    may_pass input identity t t'
  | pass_approved id asked row :
    hasDotSegment (rq_path input) = false ->
    (forall verdict rule, ~ rule_covers (ruled_request input identity) verdict rule) ->
    waits_for identity (ruled_request input identity) asked ->
    (om_get id t = None \/ om_get id t = Some asked) ->
    om_get id t' = Some row -> asks row = asks asked -> lets_through row = true ->
    may_pass input identity t t'.

(** Approvals opened while a request is held are other ones: they do not reuse
    the identifier drawn for it, nor that of a stored egress approval. *)
Definition hold_ok (hold : list HoldEvent) (w : GateWorld) : Prop :=
  hold_spares (uuid (gw_next w)) hold /\
  forall id r, om_get id (gw_approvals w) = Some r -> pa_type r = at_ext_authz -> hold_spares id hold.

Lemma hold_allow_inv identity rq via hold w w' :
  approvals_ok (gw_approvals (io_st w)) -> om_get (uuid (gw_next (io_st w))) (gw_approvals (io_st w)) = None ->
  hold_ok hold (io_st w) -> 0 < rq_port rq ->
  holdRequest hasOpenChannelTurn hasInteractiveSession holdSeconds uuid identity rq via hold w = (w', Ok ed_allow) ->
  exists id asked row, waits_for identity rq asked /\
    (om_get id (gw_approvals (io_st w)) = None \/ om_get id (gw_approvals (io_st w)) = Some asked) /\
    om_get id (gw_approvals (io_st w')) = Some row /\ asks row = asks asked /\ lets_through row = true.
Proof.
  intros Hok Hfresh [Hh1 Hh2] Hport Hrun. unfold holdRequest in Hrun.
  apply bind_inv in Hrun as (w5 & turn & Hturn & Hrun). apply port_inv in Hturn as [-> _].
  apply bind_inv in Hrun as (w6 & unattended & Hu & Hrun).
  assert (w6 = w) as ->.
  { destruct turn; [|unfold io_ret in Hu; by injection Hu as <- _]. apply bind_inv in Hu as (w7 & sess & Hsess & Hu).
    apply port_inv in Hsess as [-> _]. unfold io_ret in Hu. by injection Hu as <- _. }
  apply bind_inv in Hrun as (w7 & id & Ho & Hrun).
  destruct (openApproval_inv identity rq _ _ _ _ Hok Hfresh Hport Ho) as (Hok' & (asked & Hasked & Hw) & Hid).
  destruct unattended; [unfold io_ret in Hrun; discriminate|].
  apply bind_inv in Hrun as (w8 & u & Hem & Hrun). unfold gate_publish, io_tell in Hem. injection Hem as <- <-.
  apply bind_inv in Hrun as (w9 & now & Hn & Hrun). unfold gate_now in Hn. injection Hn as <- <-.
  apply bind_inv in Hrun as (w10 & settled & Hwait & Hrun). apply bind_inv in Hrun as (w11 & u' & Hem & Hrun).
  unfold io_ret in Hrun. destruct settled as [[]|]; try discriminate. injection Hrun as <-.
  unfold io_ret in Hem. injection Hem as <- _.
  assert (Hspare : hold_spares id (he_check :: hold)).
  { intros n o Ho'. apply elem_of_cons in Ho' as [|Ho']; [done|].
    destruct Hid as [->|Hsame]; [by apply (Hh1 n)|]. rewrite Hsame in Hasked. eapply Hh2; [done|apply Hw|done]. }
  eapply (wait_allow_inv _ _ _ (asks asked)) in Hwait as (row & Hrow & Hlet & Ha); [|done|].
  - exists id, asked, row. split_and!; [done| |done..]. destruct Hid as [->|Hsame]; [by left|right; congruence].
  - split; [apply Hok'|]. simpl. intros r Hr. congruence.
Qed.

End GateFacts.

(** An owner's allow, given while the request is held. *)
Definition example_hold : list HoldEvent :=
  [he_write 5 (op_resolvePending "u0" av_allow_once "owner" false); he_check].

Definition example_world : io GateWorld :=
  mk_io (mkGate [] [] [] 0 (mkWorld (emptyStore 1) [])) [].

Definition example_gate :=
  @gateRequest (table_matcher []) code_unit_locale (fun a => Ok (Some (mkIdentity "o" a None)))
    (fun _ _ => Ok false) (fun _ => Ok false) (fun _ => Ok false) ["platform:443"%string] 60
    (fun _ => "u0"%string) (fun _ _ => Ok true) None "DAM".

