(* ===== verification/ApprovalDesk.v ===== *)
(** * Approvals: the services that file and answer them

    [approvals/services] but the egress gate, with
    [approvals/infrastructure/wrapper-response-frames.ts],
    [approvals/compose.ts] (the store of spend questions) and
    [modules/approvals/format.ts] of api-server-api.  The services share one
    state: the approvals with their events (the gate's), the rules with their
    writer, and the frames sent to the agents' runtimes.  SHA-256 is a
    parameter. *)

From stdpp Require Import base sets strings list pretty.
From Stdlib Require Import ZArith Lia Ascii.
From S2P Require Import Prelude JsString JsDate SpendLedger SpendLimits SpendStore SpendIngest SpendCheck EgressRules EgressService Approvals ExtAuthz.

Local Open Scope Z_scope.

(** ** format.ts: the catalog of a permission request *)
Definition TOOL_CALL_ID_MAX : Z := 512.
Definition TOOL_NAME_MAX : nat := 4096.
Definition PERMISSION_OPTIONS_MAX : nat := 16.

Definition rpc_text (id : RpcId) : string := match id with rpc_number n => pretty n | rpc_string s => s end.

Definition acpNativeRowId (agentId sessionId : string) (rpcId : RpcId) : string :=
  ("acpnative:" ++ agentId ++ ":" ++ sessionId ++ ":" ++ rpc_text rpcId)%string.

Definition answerableOption (options : list AcpPermissionOption) (kind : OptionKind) (idsWhole : bool)
  : option AcpPermissionOption :=
  List.find (fun o => bool_decide (po_kind o = Some kind)
                      && (idsWhole || (slen (po_optionId o) <? TOOL_CALL_ID_MAX))) options.

(** An option as the harness sent it; a field that is no string is [None]. *)
Inductive RawOption := raw_other | raw_object (optionId kind : option string).

Definition kind_of_text (s : string) : option OptionKind :=
  if String.eqb s "allow_once" then Some ok_allow_once
  else if String.eqb s "allow_always" then Some ok_allow_always
  else if String.eqb s "reject_once" then Some ok_reject_once
  else if String.eqb s "reject_always" then Some ok_reject_always
  else None.

Definition OPTION_KINDS : list OptionKind := [ok_allow_once; ok_allow_always; ok_reject_once; ok_reject_always].

Definition optionsWithGivenIds (raw : list RawOption) : list AcpPermissionOption :=
  omap (fun o => match o with
                 | raw_object (Some id) kind =>
                     if String.eqb id "" then None else Some (mkOption id (kind ≫= kind_of_text))
                 | _ => None
                 end) raw.

Definition permissionOptionKindsOf (raw : list RawOption) : list (string * OptionKind) :=
  fold_left (fun m o => match po_kind o with Some k => om_set (po_optionId o) k m | None => m end)
    (optionsWithGivenIds raw) [].

Definition permissionOptionsOf (raw : list RawOption) : list AcpPermissionOption :=
  List.filter (fun o => slen (po_optionId o) <=? TOOL_CALL_ID_MAX) (optionsWithGivenIds raw).

(** The position of the first option of a kind. *)
Fixpoint kind_index (kind : OptionKind) (options : list AcpPermissionOption) : option nat :=
  match options with
  | [] => None
  | o :: rest => if bool_decide (po_kind o = Some kind) then Some 0%nat else S <$> kind_index kind rest
  end.

(** Options are compared by reference, so by their position in the list. *)
Definition recordedIndices (all : list AcpPermissionOption) : list nat :=
  js_sort (fun a b => Z.of_nat a - Z.of_nat b)
    (firstn PERMISSION_OPTIONS_MAX
       (js_uniq (omap (fun kind => kind_index kind all) OPTION_KINDS ++ seq 0 (length all)))).

Definition recordedOptionsOf (raw : list RawOption) : list AcpPermissionOption :=
  let all := permissionOptionsOf raw in
  if (length all <=? PERMISSION_OPTIONS_MAX)%nat then all
  else omap (fun i => all !! i) (recordedIndices all).

(** ** wrapper-response-frames.ts *)
Definition wantedKind (verdict : ApprovalVerdict) : OptionKind :=
  match verdict with
  | av_deny => ok_reject_always
  | av_deny_once => ok_reject_once
  | av_allow => ok_allow_always
  | av_allow_once => ok_allow_once
  end.

Definition pickOptionId (options : list AcpPermissionOption) (verdict : ApprovalVerdict) (idsWhole : bool)
  : option string := po_optionId <$> answerableOption options (wantedKind verdict) idsWhole.

(** A reported outcome; [oc_kind] is [None] when it is absent, and
    [Some None] when it is something that is no kind. *)
Record Outcome := mkOutcome {
  oc_cancelled : bool;
  oc_optionId : option string;
  oc_kind : option (option OptionKind);
}.

Definition verdictOfOutcome (options : list AcpPermissionOption) (outcome : Outcome) (reportedByRuntime : bool)
  : ApprovalVerdict :=
  if oc_cancelled outcome then av_deny_once
  else
    let recorded := List.find (fun o => bool_decide (Some (po_optionId o) = oc_optionId outcome)) options
                    ≫= po_kind in
    let kind := match (if reportedByRuntime then oc_kind outcome else None) with
                | Some k => k
                | None => recorded
                end in
    match kind with
    | Some ok_allow_always => av_allow
    | Some ok_reject_once => av_deny_once
    | Some ok_reject_always => av_deny
    | _ => av_allow_once
    end.

Record Sender := mkSender { sd_sub : string; sd_email : option string }.
Record WrapperResponseFrame := mkFrame {
  wf_id : RpcId;
  wf_selected : option string;
  wf_answeredBy : option Sender;
}.

Definition buildAcpPermissionResponse (rpcId : RpcId) (optionId : option string) (answeredBy : option Sender)
  : WrapperResponseFrame :=
  match optionId ≫= or_null with
  | Some o => mkFrame rpcId (Some o) answeredBy
  | None => mkFrame rpcId None None
  end.

(** ** The state the services share *)
Record DeskWorld := mkDesk {
  dw_gate : GateWorld;
  dw_egress : EgressWorld;
  dw_sent : list (string * WrapperResponseFrame);
}.

Definition on_gate {A} (m : IO GateWorld A) : IO DeskWorld A :=
  io_lift dw_gate (fun g w => mkDesk g (dw_egress w) (dw_sent w)) m.
Definition on_egress {A} (m : IO EgressWorld A) : IO DeskWorld A :=
  io_lift dw_egress (fun e w => mkDesk (dw_gate w) e (dw_sent w)) m.
Definition send (agentId : string) (frame : WrapperResponseFrame) : IO DeskWorld unit :=
  io_op (fun w => (mkDesk (dw_gate w) (dw_egress w) (dw_sent w ++ [(agentId, frame)]), tt)).
Definition store {A} (f : Z -> ApprovalTable -> ApprovalTable * A) : IO DeskWorld A := on_gate (on_approvals f).
Definition get {A} (f : ApprovalTable -> A) : IO DeskWorld A := on_gate (read_approvals f).
Definition tell (e : ApprovalEvent) : IO DeskWorld unit := on_gate (gate_emit e).

(** ** approvals-service.ts *)
Inductive OutcomeKind := out_applied | out_not_actionable | out_rule_written_expired.
#[export] Instance OutcomeKind_eq_dec : EqDecision OutcomeKind.
Proof. solve_decision. Defined.

Record WantedRule := mkWanted {
  wr_host : string; wr_port : option Z; wr_method : string; wr_pathPattern : string; wr_verdict : RuleVerdict }.

Record ActionOutcome := mkAction {
  ac_outcome : OutcomeKind; ac_type : option ApprovalType; ac_rule : option WantedRule }.

Definition NOT_ACTIONABLE : ActionOutcome := mkAction out_not_actionable None None.

(** [None] is the wildcard. *)
Definition matchesBinding (binding : option (list string)) (agentId : string) : bool :=
  match binding with None => true | Some agents => includes agents agentId end.

Definition verdict_of_rule (v : RuleVerdict) : ApprovalVerdict :=
  match v with rv_allow => av_allow | rv_deny => av_deny end.

Definition emitResolved (row : PendingApprovalRow) (verdict : ApprovalVerdict) : IO DeskWorld unit :=
  tell (ApprovalResolved (pa_id row) (pa_agentId row) (pa_ownerSub row) (rs_verdict verdict)).

Section Service.
Variable uuid : nat -> string.
Variables ownerSub actor : string.
Variable actorEmail : option string.
Variable agentBinding : option (list string).
Variable isAgentOwnedBy : string -> string -> result bool.

Definition loadOwned (id : string) : IO DeskWorld (option PendingApprovalRow) :=
  let* row := get (getPending id) in
  match row with
  | None => io_ret None
  | Some r =>
      if negb (String.eqb (pa_ownerSub r) ownerSub) then io_ret None
      else if negb (matchesBinding agentBinding (pa_agentId r)) then io_throw
      else io_ret (Some r)
  end.

(** A verdict on a pending row; the first one wins. *)
Definition resolveRow (row : PendingApprovalRow) (verdict : ApprovalVerdict) (markDelivered : bool)
  : IO DeskWorld ActionOutcome :=
  let* casWon := store (fun now => resolvePending now (pa_id row) verdict actor markDelivered) in
  run* (if casWon : bool then emitResolved row verdict else io_ret tt) in
  io_ret (if casWon then mkAction out_applied (Some (pa_type row)) None else NOT_ACTIONABLE).

Definition resolveOnce (row : PendingApprovalRow) (verdict : ApprovalVerdict) := resolveRow row verdict false.

Definition declineProposal (row : PendingApprovalRow) : IO DeskWorld ActionOutcome :=
  if bool_decide (pa_status row = as_pending) then resolveRow row av_deny true else io_ret NOT_ACTIONABLE.

Definition answerSpendQuestion (row : PendingApprovalRow) : IO DeskWorld ActionOutcome :=
  if negb (bool_decide (pa_status row = as_pending)) then io_ret NOT_ACTIONABLE
  else match agentBinding with
       | Some _ => io_throw
       | None => resolveRow row av_allow false
       end.

Definition writeRuleAndResolve (row : PendingApprovalRow) (rule : WantedRule) : IO DeskWorld ActionOutcome :=
  let verdict := verdict_of_rule (wr_verdict rule) in
  let* id := on_egress (randomUUID uuid) in
  let* written := on_egress (writeRule (mkNewRule id (pa_agentId row) (wr_host rule) (wr_port rule)
                    (wr_method rule) (wr_pathPattern rule) (wr_verdict rule) actor "inbox")) in
  match written with
  | wo_verdict_clash _ => io_throw
  | _ =>
      let* casWon := store (fun now => resolvePending now (pa_id row) verdict actor
                                         (bool_decide (pa_type row = at_egress_proposal))) in
      let* expiredFlipped := (if casWon : bool then io_ret false
                              else store (fun now => resolveExpired now (pa_id row) verdict actor)) in
      run* (if casWon || expiredFlipped then emitResolved row verdict else io_ret tt) in
      io_ret (mkAction (if casWon then out_applied else out_rule_written_expired) (Some (pa_type row)) (Some rule))
  end.

(** A verdict on a tool call is sent to the runtime; a failure leaves it to the sweeper. *)
Definition resolveAndDeliverAcpNative (row : PendingApprovalRow) (verdict : ApprovalVerdict)
  : IO DeskWorld ActionOutcome :=
  match pa_payload row with
  | ap_acp_native _ _ _ rpcId options whole =>
      let* outcome := resolveRow row verdict false in
      if negb (bool_decide (ac_outcome outcome = out_applied)) then io_ret outcome
      else match rpcId with
           | None => io_ret outcome
           | Some rpc =>
               run* io_catch
                 (run* send (pa_agentId row) (buildAcpPermissionResponse rpc (pickOptionId options verdict whole)
                                                (Some (mkSender actor actorEmail))) in
                  store (fun now t => (markDelivered now (pa_id row) t, tt)))
                 (io_ret tt) in
               io_ret outcome
           end
  | _ => io_ret NOT_ACTIONABLE
  end.

(** The place an egress payload asks for. *)
Definition egress_place (p : ApprovalPayload) : option (string * option Z * string * string) :=
  match p with
  | ap_ext_authz host port method path _ _ | ap_egress_proposal host port method path _ =>
      Some (host, port, method, path)
  | _ => None
  end.

Definition is_proposal (p : ApprovalPayload) : bool :=
  match p with ap_egress_proposal _ _ _ _ _ => true | _ => false end.

Definition approveOnce (id : string) : IO DeskWorld ActionOutcome :=
  let* row := loadOwned id in
  match row with
  | None => io_ret NOT_ACTIONABLE
  | Some r =>
      if bool_decide (pa_type r = at_spend_limit) then answerSpendQuestion r
      else if negb (bool_decide (pa_status r = as_pending)) then io_ret NOT_ACTIONABLE
      else if is_proposal (pa_payload r) then io_ret NOT_ACTIONABLE
      else if bool_decide (pa_type r = at_ext_authz) then resolveOnce r av_allow_once
      else resolveAndDeliverAcpNative r av_allow_once
  end.

(** [approvePermanent] and [approveHost] differ in the rule they write. *)
Definition approve_with (toRule : string -> option Z -> string -> string -> WantedRule) (id : string)
  : IO DeskWorld ActionOutcome :=
  let* row := loadOwned id in
  match row with
  | None => io_ret NOT_ACTIONABLE
  | Some r =>
      if bool_decide (pa_type r = at_spend_limit) then answerSpendQuestion r
      else if bool_decide (pa_status r = as_resolved) then io_ret NOT_ACTIONABLE
      else match egress_place (pa_payload r) with
           | Some (host, port, method, path) => writeRuleAndResolve r (toRule host port method path)
           | None => resolveAndDeliverAcpNative r av_allow
           end
  end.

Definition approvePermanent : string -> IO DeskWorld ActionOutcome :=
  approve_with (fun host port method path => mkWanted host port method path rv_allow).
Definition approveHost : string -> IO DeskWorld ActionOutcome :=
  approve_with (fun host port _ _ => mkWanted host port "*" "*" rv_allow).

Definition denyForever (id : string) : IO DeskWorld ActionOutcome :=
  let* row := loadOwned id in
  match row with
  | None => io_ret NOT_ACTIONABLE
  | Some r =>
      if bool_decide (pa_type r = at_spend_limit) then io_throw
      else if bool_decide (pa_status r = as_resolved) then io_ret NOT_ACTIONABLE
      else match pa_payload r with
           | ap_egress_proposal _ _ _ _ _ => declineProposal r
           | ap_ext_authz host port method path _ _ =>
               if bool_decide (pa_type r = at_ext_authz)
               then writeRuleAndResolve r (mkWanted host port method path rv_deny)
               else resolveAndDeliverAcpNative r av_deny
           | _ => resolveAndDeliverAcpNative r av_deny
           end
  end.

Definition dismissOne (row : option PendingApprovalRow) : IO DeskWorld ActionOutcome :=
  match row with
  | None => io_ret NOT_ACTIONABLE
  | Some r =>
      if negb (bool_decide (pa_status r = as_pending)) then io_ret NOT_ACTIONABLE
      else if is_proposal (pa_payload r) then declineProposal r
      else if bool_decide (pa_type r = at_ext_authz) then resolveOnce r av_deny_once
      else resolveAndDeliverAcpNative r av_deny_once
  end.

Definition is_question (row : option PendingApprovalRow) : bool :=
  match row with Some r => bool_decide (pa_type r = at_spend_limit) | None => false end.

Definition dismiss (id : string) : IO DeskWorld ActionOutcome :=
  let* row := loadOwned id in
  if is_question row then io_throw else dismissOne row.

Definition dismissMany (ids : list string) : IO DeskWorld Z :=
  let* applied := io_map (fun id =>
      let* row := loadOwned id in
      if is_question row then io_ret 0
      else let* o := dismissOne row in
           io_ret (if bool_decide (ac_outcome o = out_applied) then 1 else 0)) (js_uniq ids) in
  io_ret (fold_right Z.add 0 applied).

Definition listForOwner (limit : option Z) (status : option ApprovalStatus) : IO DeskWorld (list PendingApprovalRow) :=
  let* rows := get (listPendingForOwner ownerSub limit status) in
  io_ret (List.filter (fun r => matchesBinding agentBinding (pa_agentId r)) rows).

Definition listForInstance (agentId : string) (limit : option Z) (status : option ApprovalStatus)
  : IO DeskWorld (list PendingApprovalRow) :=
  let* owned := on_gate (port (isAgentOwnedBy agentId ownerSub)) in
  if negb owned then io_ret []
  else let* rows := get (listPendingForInstance agentId limit status) in
       io_ret (List.filter (fun r => String.eqb (pa_ownerSub r) ownerSub) rows).
End Service.

(** ** approvals-relay-service.ts *)
Definition ACP_NATIVE_TTL_MS : Z := 24 * 60 * 60 * 1000.
Definition SYNTHETIC_SESSION_PREFIX : string := "_egress:".

Record RecordInput := mkRecord {
  ri_agentId : string;
  ri_sessionId : string;
  ri_rpcId : RpcId;
  ri_ownerSub : string;
  ri_toolName : string;
  ri_toolCallId : option string;
  ri_args : option string;
  ri_idsWhole : bool;
  ri_options : list AcpPermissionOption;
}.

Definition describesSameRequest (row : PendingApprovalRow) (toolName : string) (args : option string)
    (rpcId : RpcId) : bool :=
  match pa_payload row with
  | ap_acp_native name _ args' rpc' _ _ =>
      bool_decide (rpc' = Some rpcId) && String.eqb name toolName && bool_decide (args' = args)
  | _ => false
  end.

Definition superseded (rowId : string) (input : RecordInput) (row : PendingApprovalRow) : bool :=
  negb (String.eqb (pa_id row) rowId) && bool_decide (pa_sessionId row = Some (ri_sessionId input))
  && match pa_payload row with
     | ap_acp_native _ toolCallId _ _ _ _ => bool_decide (toolCallId = ri_toolCallId input)
     | _ => false
     end.

Definition expire_and_tell (row : PendingApprovalRow) (resolution : ApprovalResolution) : IO DeskWorld bool :=
  let* expired := store (fun now => expirePending now (pa_id row)) in
  run* (if expired : bool
        then tell (ApprovalResolved (pa_id row) (pa_agentId row) (pa_ownerSub row) resolution)
        else io_ret tt) in
  io_ret expired.

Definition expireSupersededRows (rowId : string) (input : RecordInput) : IO DeskWorld unit :=
  let* pending := get (listPendingForInstance (ri_agentId input) None (Some as_pending)) in
  io_iter (fun row =>
    if negb (superseded rowId input row) then io_ret tt
    else let* _ := expire_and_tell row rs_superseded in io_ret tt) pending.

Definition recordAcpNativePending (input : RecordInput) : IO DeskWorld (option string) :=
  if startsWith (ri_sessionId input) SYNTHETIC_SESSION_PREFIX then io_ret None
  else
    let rowId := acpNativeRowId (ri_agentId input) (ri_sessionId input) (ri_rpcId input) in
    let payload := ap_acp_native (ri_toolName input) (ri_toolCallId input) (ri_args input)
                     (Some (ri_rpcId input)) (ri_options input) (ri_idsWhole input) in
    let* written := store (fun now => insertIfAbsent now
      (mkNewPending rowId at_acp_native (ri_agentId input) (ri_ownerSub input) (Some (ri_sessionId input))
         payload (now + ACP_NATIVE_TTL_MS))) in
    if negb written then
      let* held := get (getPending rowId) in
      io_ret (match held with
              | Some h => if describesSameRequest h (ri_toolName input) (ri_args input) (ri_rpcId input)
                          then Some rowId else None
              | None => None
              end)
    else
      run* tell (ApprovalRequested rowId (ri_agentId input) (ri_ownerSub input)) in
      run* (match ri_toolCallId input with
            | Some _ => io_catch (expireSupersededRows rowId input) (io_ret tt)
            | None => io_ret tt
            end) in
      io_ret (Some rowId).

(** Both answer whether the row was there. *)
Definition resolveAcpNativeFromInSession (rowId : string) (outcome : Outcome) (authoritative : bool)
    (decidedBy : string) : IO DeskWorld bool :=
  let* row := get (getPending rowId) in
  match row with
  | None => io_ret false
  | Some r =>
      match pa_payload r with
      | ap_acp_native _ _ _ _ options _ =>
          let verdict := verdictOfOutcome options outcome authoritative in
          let* casWon := (if bool_decide (pa_status r = as_pending)
                          then store (fun now => resolvePending now (pa_id r) verdict decidedBy true)
                          else io_ret false) in
          let* corrected := (if negb casWon && authoritative
                             then store (fun now => correctResolvedVerdict now (pa_id r) verdict)
                             else io_ret false) in
          run* (if negb casWon && authoritative
                then store (fun now t => (markDelivered now (pa_id r) t, tt)) else io_ret tt) in
          run* (if casWon || corrected
                then tell (ApprovalResolved (pa_id r) (pa_agentId r) (pa_ownerSub r) (rs_verdict verdict))
                else io_ret tt) in
          io_ret true
      | _ => io_ret true
      end
  end.

Definition expireAcpNative (rowId : string) : IO DeskWorld bool :=
  let* row := get (getPending rowId) in
  match row with
  | None => io_ret false
  | Some r =>
      match pa_payload r with
      | ap_acp_native _ _ _ _ _ _ =>
          let* expired := (if bool_decide (pa_status r = as_resolved) then io_ret false
                           else expire_and_tell r rs_expired) in
          run* (if expired : bool then io_ret tt
                else store (fun now t => (markDelivered now (pa_id r) t, tt))) in
          io_ret true
      | _ => io_ret true
      end
  end.

Definition settleAbsentAcpNative (agentId sessionId : string) (rpcId : RpcId) (ownerSub : string)
    (outcome : option Outcome) : IO DeskWorld unit :=
  let rowId := acpNativeRowId agentId sessionId rpcId in
  let verdict := (fun o => verdictOfOutcome [] o true) <$> outcome in
  let* written := store (fun now => insertSettled now
    (mkNewPending rowId at_acp_native agentId ownerSub (Some sessionId)
       (ap_acp_native "tool call" None None (Some rpcId) [] false) (now + ACP_NATIVE_TTL_MS)) verdict) in
  if written : bool
  then tell (ApprovalResolved rowId agentId ownerSub
               (match verdict with Some v => rs_verdict v | None => rs_expired end))
  else match outcome with
       | None => let* _ := expireAcpNative rowId in io_ret tt
       | Some o => let* _ := resolveAcpNativeFromInSession rowId o true "in-session" in io_ret tt
       end.

(** ** tool-approval-reports.ts: the runtime says a request ended *)
Definition ended (agentId sessionId : string) (rpcId : RpcId) (ownerSub : string) (outcome : option Outcome)
  : IO DeskWorld unit :=
  let rowId := acpNativeRowId agentId sessionId rpcId in
  let* found := (match outcome with
                 | Some o => resolveAcpNativeFromInSession rowId o true "in-session"
                 | None => expireAcpNative rowId
                 end) in
  if found : bool then io_ret tt else settleAbsentAcpNative agentId sessionId rpcId ownerSub outcome.

(** ** delivery-sweeper.ts: one tick, the ticks before it done *)
Definition deliver (row : PendingApprovalRow) : IO DeskWorld unit :=
  match pa_payload row, pa_verdict row with
  | ap_acp_native _ _ _ (Some rpc) options whole, Some verdict =>
      io_catch
        (run* send (pa_agentId row)
           (buildAcpPermissionResponse rpc (pickOptionId options verdict whole)
              ((fun sub => mkSender sub None) <$> pa_decidedBy row)) in
         store (fun now t => (markDelivered now (pa_id row) t, tt)))
        (io_ret tt)
  | _, _ => io_ret tt
  end.

Definition tick (staleMs batchSize : Z) : IO DeskWorld unit :=
  let* rows := store (fun now t => (t, listResolvedUndelivered now staleMs batchSize t)) in
  run* io_iter deliver rows in
  let* expired := io_catch (store (fun now => expireOverdue now)) (io_ret []) in
  io_iter (fun r => tell (ApprovalResolved (pa_id r) (pa_agentId r) (pa_ownerSub r) rs_expired)) expired.

(** ** compose.ts: the store of spend questions *)
Definition readQuestion (approvalId : string) : IO DeskWorld (option SpendLimitQuestion) :=
  let* row := get (getPending approvalId) in
  io_ret (match row with
          | Some r => match pa_payload r with ap_spend_limit q => Some q | _ => None end
          | None => None
          end).

Definition closePending (ownerSub limitId : string) : IO DeskWorld unit :=
  let* closed := store (fun _ => deletePendingSpendQuestions ownerSub limitId) in
  io_iter (fun p => tell (ApprovalResolved (fst p) (snd p) ownerSub rs_superseded)) closed.

(** ** egress-proposals.ts *)
Definition EGRESS_PROPOSAL_TTL_MS : Z := 7 * 24 * 60 * 60 * 1000.
Definition EGRESS_PROPOSALS_PENDING_MAX : nat := 20.

Record EgressProposalInput := mkProposal {
  ep_host : string; ep_port : option Z; ep_method : string; ep_path : string; ep_reason : string }.

Inductive EgressProposalState :=
| ps_pending (id : string) | ps_allowed (id : string) | ps_declined (id : string) | ps_expired (id : string)
| ps_already_allowed.

Definition hex_digit (n : N) : ascii := ascii_of_N (if n <? 10 then n + 48 else n + 87)%N.

(** One character of a JSON string. *)
Definition json_char (c : ascii) : string :=
  let n := N_of_ascii c in
  if (n =? 34)%N then String "\" (String c "")
  else if (n =? 92)%N then "\\"%string
  else if (n =? 8)%N then "\b"%string
  else if (n =? 9)%N then "\t"%string
  else if (n =? 10)%N then "\n"%string
  else if (n =? 12)%N then "\f"%string
  else if (n =? 13)%N then "\r"%string
  else if (n <? 32)%N then ("\u00" ++ String (hex_digit (n / 16)) (String (hex_digit (n mod 16)) ""))%string
  else String c "".

Fixpoint json_chars (s : string) : string :=
  match s with EmptyString => ""%string | String c s' => (json_char c ++ json_chars s')%string end.

Definition json_string (s : string) : string :=
  String (ascii_of_N 34) (json_chars s ++ String (ascii_of_N 34) "").

Section Proposals.
Context `{!EgressRuleMatcher}.
Variable sha256hex : string -> string.
Variables agentId ownerSub : string.

Definition proposalShape (input : EgressProposalInput) : string :=
  ("[" ++ json_string (toLowerCase (ep_host input)) ++ ","
   ++ (match ep_port input with Some p => pretty p | None => "null" end) ++ ","
   ++ json_string (ep_method input) ++ "," ++ json_string (ep_path input) ++ "]")%string.

Definition proposalId (input : EgressProposalInput) : string :=
  ("egressproposal:" ++ agentId ++ ":" ++ str_take 32 (sha256hex (proposalShape input)))%string.

Definition stateOf (row : PendingApprovalRow) : EgressProposalState :=
  match pa_status row with
  | as_pending => ps_pending (pa_id row)
  | as_expired => ps_expired (pa_id row)
  | as_resolved => if bool_decide (pa_verdict row = Some av_allow) then ps_allowed (pa_id row) else ps_declined (pa_id row)
  end.

Definition isConcrete (input : EgressProposalInput) : bool :=
  negb (String.eqb (ep_method input) "*") && negb (has_char "*" (ep_host input))
  && negb (has_char "*" (ep_path input)).

Definition alreadyAllowed (input : EgressProposalInput) : IO DeskWorld bool :=
  if negb (isConcrete input) then io_ret false
  else
    let* matched := on_gate (port (match_rule
      (mkRequest agentId (ep_host input) (ep_port input ?? 443) true (ep_method input) (ep_path input)))) in
    io_ret (match matched with Some (rv_allow, _) => true | _ => false end).

Definition is_open_proposal (r : PendingApprovalRow) : bool := bool_decide (pa_type r = at_egress_proposal).

(** The row a proposal files. *)
Definition proposalRow (id : string) (input : EgressProposalInput) (now : Z) : NewPendingApproval :=
  mkNewPending id at_egress_proposal agentId ownerSub None
    (ap_egress_proposal (ep_host input) (ep_port input) (ep_method input) (ep_path input) (ep_reason input))
    (now + EGRESS_PROPOSAL_TTL_MS).

(** A proposal that is not open yet, if the agent has not too many open. *)
Definition file (input : EgressProposalInput) (id : string) : IO DeskWorld EgressProposalState :=
  let* open := get (listPendingForInstance agentId (Some 500) (Some as_pending)) in
  if (EGRESS_PROPOSALS_PENDING_MAX <=? length (List.filter is_open_proposal open))%nat then io_throw
  else
    let* filed := store (fun now => insertPending now (proposalRow id input now)) in
    if negb filed then
      let* row := get (getPending id) in
      match row with Some r => io_ret (stateOf r) | None => io_throw end
    else
      run* tell (ApprovalRequested id agentId ownerSub) in
      io_ret (ps_pending id).

Definition propose (input : EgressProposalInput) : IO DeskWorld EgressProposalState :=
  let* allowed := alreadyAllowed input in
  if allowed : bool then io_ret ps_already_allowed
  else
    let id := proposalId input in
    let* existing := get (getPending id) in
    match existing with
    | Some r => if bool_decide (pa_status r = as_pending) then io_ret (stateOf r) else file input id
    | None => file input id
    end.

Definition status (id : string) : IO DeskWorld EgressProposalState :=
  let* row := get (getPending id) in
  match row with
  | None => io_throw
  | Some r =>
      if negb (String.eqb (pa_agentId r) agentId) || negb (bool_decide (pa_type r = at_egress_proposal))
      then io_throw else io_ret (stateOf r)
  end.
End Proposals.
