(* ===== verification/ApprovalSafety.v ===== *)
(** * Approvals: what the services promise

    The catalog of a tool call keeps every kind of answer, a verdict travels in
    its own direction, only the owner decides and only once, and an agent holds
    a bounded number of proposals open. *)

From stdpp Require Import base sets strings list pretty sorting.
From Stdlib Require Import ZArith Lia Ascii.
From S2P Require Import Prelude JsString SpendStore SpendIngest SpendCheck EgressRules EgressService EgressSafety Approvals ExtAuthz ApprovalDesk.

Local Open Scope Z_scope.

(** ** Verdicts and options *)
Lemma answerable_spec options kind whole o :
  answerableOption options kind whole = Some o ->
  o ∈ options /\ po_kind o = Some kind /\ (whole = true \/ slen (po_optionId o) < TOOL_CALL_ID_MAX).
Proof.
  intros [Hin H]%find_some. apply list_elem_of_In in Hin.
  rewrite andb_true_iff, bool_decide_eq_true, orb_true_iff, Z.ltb_lt in H. naive_solver.
Qed.

Lemma find_by_id options o :
  NoDup (map po_optionId options) -> o ∈ options ->
  List.find (fun o' => bool_decide (Some (po_optionId o') = Some (po_optionId o))) options = Some o.
Proof.
  induction options as [|q options IH]; simpl; [set_solver|]. rewrite NoDup_cons. intros [Hn Hd] Hin.
  case_bool_decide as E.
  - injection E as E. apply elem_of_cons in Hin as [->|Hin]; [done|]. exfalso. apply Hn.
    rewrite E. apply list_elem_of_fmap. by exists o.
  - apply elem_of_cons in Hin as [->|Hin]; [done|by apply IH].
Qed.

(** C40: a verdict travels in its own direction.  The option sent for a verdict
    is one the harness offered, of exactly the kind the verdict asks for, with
    an identifier that was not shortened; the runtime's report of that kind
    reads back as the same verdict, and so does the bare identifier when the
    catalog names each identifier once. *)
Theorem verdict_roundtrip options verdict whole id :
  pickOptionId options verdict whole = Some id ->
  (exists o, o ∈ options /\ po_optionId o = id /\ po_kind o = Some (wantedKind verdict) /\
     (whole = true \/ slen id < TOOL_CALL_ID_MAX)) /\
  verdictOfOutcome options (mkOutcome false (Some id) (Some (Some (wantedKind verdict)))) true = verdict /\
  (NoDup (map po_optionId options) ->
     forall reported, verdictOfOutcome options (mkOutcome false (Some id) None) reported = verdict).
Proof.
  unfold pickOptionId. destruct (answerableOption _ _ _) as [o|] eqn:E; [|done]. intros [= <-].
  apply answerable_spec in E as (Hin & Hk & Hw). split; [by exists o|]. split; [by destruct verdict|].
  intros Hd reported. unfold verdictOfOutcome; simpl. rewrite find_by_id by done. simpl. rewrite Hk.
  by destruct reported, verdict.
Qed.

Lemma verdict_roundtrip_witness :
  let options := [mkOption "yes" (Some ok_allow_once); mkOption "no" (Some ok_reject_once)] in
  verdictOfOutcome options (mkOutcome false (Some "no"%string) None) false = av_deny_once.
Proof.
  intros options.
  destruct (verdict_roundtrip options av_deny_once true "no" eq_refl) as (_ & _ & H). apply H.
  vm_compute. rewrite NoDup_cons. split; [|apply NoDup_singleton].
  intros E%list_elem_of_singleton. discriminate.
Defined.

(** ** The recorded catalog *)
Lemma kind_index_spec kind l i :
  kind_index kind l = Some i ->
  exists o, l !! i = Some o /\ po_kind o = Some kind /\
    forall j o', (j < i)%nat -> l !! j = Some o' -> po_kind o' <> Some kind.
Proof.
  revert i. induction l as [|o l IH]; intros i; simpl; [done|]. case_bool_decide as Ek.
  - intros [= <-]. exists o. split_and!; [done..|]. lia.
  - destruct (kind_index kind l) as [n|] eqn:E; simpl; [|done]. intros [= <-].
    destruct (IH n eq_refl) as (q & Hq & Hk & Hlt). exists q. split_and!; [done..|].
    intros [|j] o' Hj; simpl; [by intros [= <-]|]. apply Hlt. lia.
Qed.

Lemma kind_index_find kind l :
  answerableOption l kind true = kind_index kind l ≫= (fun i => l !! i).
Proof.
  unfold answerableOption. induction l as [|o l IH]; simpl; [done|]. simpl in IH.
  case_bool_decide; simpl; [done|]. rewrite IH. by destruct (kind_index kind l).
Qed.

Lemma js_uniq_aux_app {A} `{EqDecision A} seen (a b : list A) :
  exists rest, js_uniq_aux seen (a ++ b) = js_uniq_aux seen a ++ rest.
Proof.
  revert seen. induction a as [|x a IH]; intros seen; simpl; [by eexists|].
  case_decide; [apply IH|]. destruct (IH (x :: seen)) as [rest ->]. by exists rest.
Qed.

Lemma js_uniq_aux_length {A} `{EqDecision A} seen (a : list A) : (length (js_uniq_aux seen a) <= length a)%nat.
Proof.
  revert seen. induction a as [|x a IH]; intros seen; simpl; [lia|].
  case_decide; simpl; [specialize (IH seen); lia|specialize (IH (x :: seen)); lia].
Qed.

Lemma firstn_uniq_prefix {A} `{EqDecision A} n x (a b : list A) :
  x ∈ a -> (length a <= n)%nat -> x ∈ firstn n (js_uniq (a ++ b)).
Proof.
  intros Hx Hn. unfold js_uniq. destruct (js_uniq_aux_app [] a b) as [rest ->].
  pose proof (js_uniq_aux_length [] a). rewrite take_app_ge by lia. apply elem_of_app. left.
  by apply (js_uniq_elem x a).
Qed.

(** In a rising list of positions, the first option of a kind is at its first position. *)
Lemma find_rising kind (all : list AcpPermissionOption) idxs i o :
  StronglySorted (cmp_le (fun a b => Z.of_nat a - Z.of_nat b)) idxs -> i ∈ idxs ->
  all !! i = Some o -> po_kind o = Some kind ->
  (forall j o', (j < i)%nat -> all !! j = Some o' -> po_kind o' <> Some kind) ->
  answerableOption (omap (fun i => all !! i) idxs) kind true = Some o.
Proof.
  intros Hs Hin Ho Hk Hfirst. unfold answerableOption. induction Hs as [|j idxs Hs IH Hall]; [set_solver|].
  simpl. apply elem_of_cons in Hin as [->|Hin].
  - rewrite Ho. simpl. by rewrite bool_decide_eq_true_2.
  - rewrite Forall_forall in Hall. pose proof (Hall i Hin) as Hle. unfold cmp_le in Hle.
    destruct (decide (j = i)) as [->|Hne].
    + rewrite Ho. simpl. by rewrite bool_decide_eq_true_2.
    + destruct (all !! j) as [o'|] eqn:Ej; simpl; [|by apply IH].
      rewrite bool_decide_eq_false_2; [by apply IH|]. apply (Hfirst j); [lia|done].
Qed.

Lemma recorded_length raw : (length (recordedOptionsOf raw) <= PERMISSION_OPTIONS_MAX)%nat.
Proof.
  unfold recordedOptionsOf. destruct (_ <=? _)%nat eqn:E; [by apply Nat.leb_le|].
  assert (Hom : forall (f : nat -> option AcpPermissionOption) l, (length (omap f l) <= length l)%nat).
  { intros f l. induction l as [|x l IH]; csimpl; [lia|]. destruct (f x); csimpl; lia. }
  etransitivity; [apply Hom|]. unfold recordedIndices. rewrite js_sort_length, length_take. lia.
Qed.

(** The recorded catalog can express every answer the harness offered.
    However many options a tool call brings, at most sixteen are recorded, and
    for every kind the recorded catalog answers with the very option the whole
    catalog would answer with; in particular it loses no way to refuse. *)
Theorem catalog_keeps_every_kind raw kind :
  (length (recordedOptionsOf raw) <= PERMISSION_OPTIONS_MAX)%nat /\
  answerableOption (recordedOptionsOf raw) kind true = answerableOption (permissionOptionsOf raw) kind true.
Proof.
  split; [apply recorded_length|]. unfold recordedOptionsOf. cbv zeta. set (all := permissionOptionsOf raw).
  destruct (length all <=? PERMISSION_OPTIONS_MAX)%nat; [done|]. rewrite (kind_index_find kind all).
  destruct (kind_index kind all) as [i|] eqn:E; simpl.
  - destruct (kind_index_spec _ _ _ E) as (o & Ho & Hk & Hfirst). rewrite Ho.
    apply (find_rising kind all _ i); [|..|done|done|done].
    + apply js_sort_sorted. apply _.
    + unfold recordedIndices. rewrite js_sort_elem. apply firstn_uniq_prefix.
      * apply list_elem_of_omap. exists kind. split; [|done]. destruct kind; set_solver.
      * simpl. repeat case_match; simpl; unfold PERMISSION_OPTIONS_MAX; lia.
  - unfold answerableOption. destruct (List.find _ _) as [o|] eqn:Ef; [|done]. exfalso.
    apply find_some in Ef as [Hin Hk]. apply list_elem_of_In, list_elem_of_omap in Hin as (j & _ & Hj).
    rewrite andb_true_iff, bool_decide_eq_true in Hk. destruct Hk as [Hk _].
    assert (Hnone : forall l, kind_index kind l = None -> forall q, q ∈ l -> po_kind q <> Some kind).
    { clear. induction l as [|q l IH]; simpl; [set_solver|]. case_bool_decide as Eq; [done|].
      destruct (kind_index kind l); [done|]. intros _ q' [->|Hq]%elem_of_cons; [done|by apply IH]. }
    apply (Hnone all E o); [|done]. by eapply list_elem_of_lookup_2.
Qed.

Lemma catalog_example :
  let many := map (fun i => raw_object (Some (pretty i)) (Some "allow_once")) (seq 0 20) in
  map po_optionId (recordedOptionsOf (many ++ [raw_object (Some "no") (Some "reject_once")]))%string
  = map pretty (seq 0 15) ++ ["no"%string].
Proof. vm_compute. reflexivity. Qed.

(** ** Steps of the desk *)
Definition desk_approvals (w : io DeskWorld) : ApprovalTable := gw_approvals (dw_gate (io_st w)).

Lemma store_inv {A} (f : Z -> ApprovalTable -> ApprovalTable * A) w w' a :
  store f w = (w', Ok a) ->
  exists now, desk_approvals w' = fst (f now (desk_approvals w)) /\ a = snd (f now (desk_approvals w)) /\
    dw_egress (io_st w') = dw_egress (io_st w).
Proof.
  unfold store, on_gate, io_lift. destruct (on_approvals f _) as [g r] eqn:E. intros [= <- ->].
  apply on_approvals_inv in E as (now & E1 & E2 & _). by exists now.
Qed.

(** Whatever comes of it, a write took place or not. *)
Lemma store_cases {A} (f : Z -> ApprovalTable -> ApprovalTable * A) w w' r :
  store f w = (w', r) ->
  desk_approvals w' = desk_approvals w \/
  exists now, desk_approvals w' = fst (f now (desk_approvals w)) /\ dw_egress (io_st w') = dw_egress (io_st w).
Proof.
  destruct w as [[g e s] fs]. unfold store, on_gate, io_lift, on_approvals, io_op, desk_approvals; simpl.
  destruct fs as [|[] fs]; simpl; destruct (f (gw_now g) (gw_approvals g)) as [t a] eqn:E; intros [= <- <-]; simpl;
    try (by left); right; exists (gw_now g); by rewrite E.
Qed.

Lemma get_inv {A} (f : ApprovalTable -> A) w w' r :
  get f w = (w', r) -> io_st w' = io_st w /\ (r = Throw \/ r = Ok (f (desk_approvals w))).
Proof.
  destruct w as [[[t ev fr n sp] eg se] fs].
  unfold get, on_gate, io_lift, read_approvals, on_approvals, io_op; simpl.
  destruct fs as [|[] fs]; simpl; intros [= <- <-]; auto.
Qed.

Lemma tell_inv e w w' u :
  tell e w = (w', Ok u) -> desk_approvals w' = desk_approvals w /\ dw_egress (io_st w') = dw_egress (io_st w).
Proof. unfold tell, on_gate, io_lift, gate_emit, io_tell. intros [= <- _]. done. Qed.

Lemma on_egress_approvals {A} (m : IO EgressWorld A) w w' r :
  on_egress m w = (w', r) -> desk_approvals w' = desk_approvals w.
Proof. unfold on_egress, io_lift. destruct (m _) as [e r']. intros [= <- <-]. done. Qed.

(** A verdict given: the row was pending, it is resolved now, and no other row changed. *)
Definition decided (id : string) (v : ApprovalVerdict) (actor : string) (t t' : ApprovalTable) : Prop :=
  exists r r', om_get id t = Some r /\ pa_status r = as_pending /\ om_get id t' = Some r' /\
    asks r' = asks r /\ pa_status r' = as_resolved /\ pa_verdict r' = Some v /\ pa_decidedBy r' = Some actor /\
    forall k, k <> id -> om_get k t' = om_get k t.

Lemma resolve_decided now id v actor md t :
  snd (resolvePending now id v actor md t) = true ->
  decided id v actor t (fst (resolvePending now id v actor md t)).
Proof.
  unfold resolvePending, update_status. destruct (om_get id t) as [r|] eqn:E; [|done].
  case_bool_decide as Es; [|done]. intros _. simpl.
  exists r, (settle_row (Some now) (Some v) (Some actor) as_resolved (if md then Some now else pa_deliveredAt r) r).
  split_and!; [done|done| |done..|].
  - by rewrite om_get_set, decide_True.
  - intros k Hk. by rewrite om_get_set, decide_False.
Qed.

Lemma decided_mark now id v actor t t' : decided id v actor t t' -> decided id v actor t (markDelivered now id t').
Proof.
  intros (r & r' & H1 & H2 & H3 & H4 & H5 & H6 & H7 & H8). unfold markDelivered, update_status. rewrite H3.
  rewrite bool_decide_eq_true_2 by done. simpl. exists r. eexists.
  split_and!; [done|done|by rewrite om_get_set, decide_True|done..|].
  intros k Hk. rewrite om_get_set, decide_False by done. by apply H8.
Qed.

(** A delivery that fails may have marked the row or not; nothing else changes. *)
Lemma delivery_inv agentId frame id w w' r :
  io_catch (run* send agentId frame in store (fun now t => (markDelivered now id t, tt))) (io_ret tt) w = (w', r) ->
  desk_approvals w' = desk_approvals w \/ exists now, desk_approvals w' = markDelivered now id (desk_approvals w).
Proof.
  destruct w as [[g e s] fs].
  unfold io_catch, io_bind, send, store, on_gate, io_lift, on_approvals, io_op, io_ret, desk_approvals; simpl.
  destruct fs as [|[] [|[] fs]]; simpl; intros [= <- <-]; simpl; eauto.
Qed.

Section Owner.
Variable uuid : nat -> string.
Variables ownerSub actor : string.
Variable actorEmail : option string.
Variable agentBinding : option (list string).

Lemma loadOwned_inv id w w' r :
  loadOwned ownerSub agentBinding id w = (w', r) ->
  io_st w' = io_st w /\
  (r = Throw \/ r = Ok None \/
   exists row, r = Ok (Some row) /\ om_get id (desk_approvals w) = Some row /\ pa_ownerSub row = ownerSub /\
     matchesBinding agentBinding (pa_agentId row) = true).
Proof.
  unfold loadOwned, io_bind. destruct (get (getPending id) w) as [w1 r1] eqn:E.
  apply get_inv in E as [Hst [->| ->]]; [intros [= <- <-]; auto|]. unfold getPending.
  destruct (om_get id (desk_approvals w)) as [row|] eqn:Er; [|unfold io_ret; intros [= <- <-]; auto].
  destruct (String.eqb_spec (pa_ownerSub row) ownerSub) as [Ho|]; simpl; [|unfold io_ret; intros [= <- <-]; auto].
  destruct (matchesBinding _ _) eqn:Eb; simpl; [|unfold io_throw; intros [= <- <-]; auto].
  unfold io_ret; intros [= <- <-]. split; [done|]. right. right. by exists row.
Qed.

Lemma resolveRow_inv row v md w w' o :
  resolveRow actor row v md w = (w', Ok o) ->
  (ac_outcome o = out_applied -> decided (pa_id row) v actor (desk_approvals w) (desk_approvals w')).
Proof.
  unfold resolveRow. intros H. apply bind_inv in H as (w1 & won & Hs & H).
  apply store_inv in Hs as (now & Ht & -> & _). apply bind_inv in H as (w2 & u & He & H).
  unfold io_ret in H. injection H as <- <-.
  destruct (snd (resolvePending now (pa_id row) v actor md (desk_approvals w))) eqn:Ew; [intros _|done].
  apply tell_inv in He as [-> _]. rewrite Ht. by apply resolve_decided.
Qed.

Lemma native_inv row v w w' o :
  resolveAndDeliverAcpNative actor actorEmail row v w = (w', Ok o) ->
  ac_outcome o = out_applied -> decided (pa_id row) v actor (desk_approvals w) (desk_approvals w').
Proof.
  unfold resolveAndDeliverAcpNative.
  destruct (pa_payload row) as [| name tc args rpcId options whole| |]; try (unfold io_ret; intros [= <- <-]; done).
  intros H Happ. apply bind_inv in H as (w1 & o1 & Hr & H). pose proof (resolveRow_inv _ _ _ _ _ _ Hr) as Hd.
  case_bool_decide as Ea; simpl in H; [|unfold io_ret in H; injection H as <- <-; done]. specialize (Hd Ea).
  destruct rpcId as [rpc|]; [|unfold io_ret in H; injection H as <- <-; done].
  apply bind_inv in H as (w2 & u & Hc & H). unfold io_ret in H. injection H as <- <-.
  apply delivery_inv in Hc as [->|[now ->]]; [done|by apply decided_mark].
Qed.

Lemma write_rule_inv row rule w w' o :
  writeRuleAndResolve uuid actor row rule w = (w', Ok o) -> ac_outcome o = out_applied ->
  decided (pa_id row) (verdict_of_rule (wr_verdict rule)) actor (desk_approvals w) (desk_approvals w').
Proof.
  unfold writeRuleAndResolve. intros H Happ. apply bind_inv in H as (w1 & id & Hu & H).
  apply on_egress_approvals in Hu. apply bind_inv in H as (w2 & written & Hw & H).
  apply on_egress_approvals in Hw. rewrite Hu in Hw.
  assert (Hrest : io_bind (store (fun now => resolvePending now (pa_id row) (verdict_of_rule (wr_verdict rule)) actor
      (bool_decide (pa_type row = at_egress_proposal)))) (fun casWon =>
      let* expiredFlipped := (if casWon : bool then io_ret false
        else store (fun now => resolveExpired now (pa_id row) (verdict_of_rule (wr_verdict rule)) actor)) in
      run* (if casWon || expiredFlipped then emitResolved row (verdict_of_rule (wr_verdict rule)) else io_ret tt) in
      io_ret (mkAction (if casWon then out_applied else out_rule_written_expired) (Some (pa_type row)) (Some rule)))
      w2 = (w', Ok o)) by (destruct written; [exact H|exact H|unfold io_throw in H; discriminate]).
  clear H. apply bind_inv in Hrest as (w3 & won & Hs & H). apply store_inv in Hs as (now & Ht & Hwon & _).
  apply bind_inv in H as (w4 & flipped & Hf & H). apply bind_inv in H as (w5 & u & He & H).
  unfold io_ret in H. injection H as <- <-. destruct won; [|discriminate].
  unfold io_ret in Hf. injection Hf as <- <-. apply tell_inv in He as [-> _]. rewrite Ht, <- Hw.
  by apply resolve_decided.
Qed.

(** What an owner can do with an approval, and the verdict it gives. *)
Inductive Action := act_approveOnce | act_approvePermanent | act_approveHost | act_denyForever | act_dismiss.

Definition act (a : Action) : string -> IO DeskWorld ActionOutcome :=
  match a with
  | act_approveOnce => approveOnce ownerSub actor actorEmail agentBinding
  | act_approvePermanent => approvePermanent uuid ownerSub actor actorEmail agentBinding
  | act_approveHost => approveHost uuid ownerSub actor actorEmail agentBinding
  | act_denyForever => denyForever uuid ownerSub actor actorEmail agentBinding
  | act_dismiss => dismiss ownerSub actor actorEmail agentBinding
  end.

Definition action_verdict (a : Action) (r : PendingApprovalRow) : ApprovalVerdict :=
  match a with
  | act_approveOnce => if bool_decide (pa_type r = at_spend_limit) then av_allow else av_allow_once
  | act_approvePermanent | act_approveHost => av_allow
  | act_denyForever => av_deny
  | act_dismiss => if is_proposal (pa_payload r) then av_deny else av_deny_once
  end.

Lemma answer_inv row w w' o :
  answerSpendQuestion actor agentBinding row w = (w', Ok o) -> ac_outcome o = out_applied ->
  decided (pa_id row) av_allow actor (desk_approvals w) (desk_approvals w').
Proof.
  unfold answerSpendQuestion. case_bool_decide; simpl; [|unfold io_ret; intros [= <- <-]; done].
  destruct agentBinding; [unfold io_throw; discriminate|]. apply resolveRow_inv.
Qed.

Lemma decline_inv row w w' o :
  declineProposal actor row w = (w', Ok o) -> ac_outcome o = out_applied ->
  decided (pa_id row) av_deny actor (desk_approvals w) (desk_approvals w').
Proof.
  unfold declineProposal. case_bool_decide; [apply resolveRow_inv|unfold io_ret; intros [= <- <-]; done].
Qed.

Lemma act_inv a row id w w1 w' o :
  loadOwned ownerSub agentBinding id w = (w1, Ok (Some row)) -> act a id w = (w', Ok o) ->
  ac_outcome o = out_applied ->
  decided (pa_id row) (action_verdict a row) actor (desk_approvals w1) (desk_approvals w').
Proof.
  intros Hl Ha Happ.
  destruct a; simpl in Ha;
    unfold approveOnce, approvePermanent, approveHost, approve_with, denyForever, dismiss, io_bind in Ha;
    rewrite Hl in Ha; simpl in Ha; unfold resolveOnce, action_verdict in *.
  - case_bool_decide; [by apply answer_inv in Ha|]. case_bool_decide; simpl in Ha; [|by injection Ha as _ <-].
    destruct (is_proposal _); [by injection Ha as _ <-|].
    case_bool_decide; [by apply resolveRow_inv in Ha|by apply native_inv in Ha].
  - case_bool_decide; [by apply answer_inv in Ha|]. case_bool_decide; [by injection Ha as _ <-|].
    destruct (egress_place _) as [[[[]]]|]; [by apply write_rule_inv in Ha|by apply native_inv in Ha].
  - case_bool_decide; [by apply answer_inv in Ha|]. case_bool_decide; [by injection Ha as _ <-|].
    destruct (egress_place _) as [[[[]]]|]; [by apply write_rule_inv in Ha|by apply native_inv in Ha].
  - case_bool_decide; [done|]. case_bool_decide; [by injection Ha as _ <-|].
    destruct (pa_payload row); [case_bool_decide; [by apply write_rule_inv in Ha|]| | |]; try by apply native_inv in Ha.
    by apply decline_inv in Ha.
  - case_bool_decide; [done|]. case_bool_decide; simpl in Ha; [|by injection Ha as _ <-].
    destruct (is_proposal _); [by apply decline_inv in Ha|].
    case_bool_decide; [by apply resolveRow_inv in Ha|by apply native_inv in Ha].
Qed.

Lemma act_stop a id w w1 r :
  loadOwned ownerSub agentBinding id w = (w1, r) -> r = Throw \/ r = Ok None ->
  fst (act a id w) = w1 /\ (snd (act a id w) = Throw \/ snd (act a id w) = Ok NOT_ACTIONABLE).
Proof.
  intros Hl [->| ->]; destruct a; simpl;
    unfold approveOnce, approvePermanent, approveHost, approve_with, denyForever, dismiss, io_bind;
    rewrite Hl; simpl; auto.
Qed.

(** The approvals an owner may act on, through this API key. *)
Definition actionable_by (r : PendingApprovalRow) : bool :=
  String.eqb (pa_ownerSub r) ownerSub && matchesBinding agentBinding (pa_agentId r).

(** C8: only the owner decides, and once.  An action on an approval that is
    not there, is another owner's, or belongs to an agent the API key is not
    bound to changes nothing at all: no approval, no rule, no frame.  An action
    that answers that it was applied found the approval pending and leaves it
    resolved with the action's verdict, in the name of who acted; no other
    approval changes.  Both hold whatever the store does. *)
Theorem owner_decides_once a id w :
  approvals_ok (desk_approvals w) ->
  if match om_get id (desk_approvals w) with Some r => actionable_by r | None => false end
  then forall o, snd (act a id w) = Ok o -> ac_outcome o = out_applied ->
    exists row, om_get id (desk_approvals w) = Some row /\
      decided id (action_verdict a row) actor (desk_approvals w) (desk_approvals (fst (act a id w)))
  else io_st (fst (act a id w)) = io_st w.
Proof.
  intros Hok. destruct (loadOwned ownerSub agentBinding id w) as [w1 r] eqn:El.
  pose proof (loadOwned_inv _ _ _ _ El) as [Hst Hr]. pose proof (act_stop a _ _ _ _ El) as Hstop.
  destruct Hr as [Hr|[Hr|(row & Hr & Erow & Ho & Hb)]].
  - destruct Hstop as [Hf Hs]; [by left|]. case_match; [|by rewrite Hf].
    intros o Ho Happ. destruct Hs as [Hs|Hs]; rewrite Hs in Ho; [done|by injection Ho as <-].
  - destruct Hstop as [Hf Hs]; [by right|]. case_match; [|by rewrite Hf].
    intros o Ho Happ. destruct Hs as [Hs|Hs]; rewrite Hs in Ho; [done|by injection Ho as <-].
  - rewrite Erow. unfold actionable_by. rewrite Ho, str_eqb_refl, Hb. simpl. intros o Ha Happ. exists row.
    split; [done|]. destruct (act a id w) as [w' r'] eqn:Eact. simpl in *. subst r r'.
    pose proof (act_inv _ _ _ _ _ _ _ El Eact Happ) as Hd.
    rewrite (ao_ids _ Hok id row Erow) in Hd. unfold desk_approvals in *. by rewrite Hst in Hd.
Qed.
End Owner.

Definition example_desk : io DeskWorld :=
  mk_io (mkDesk (mkGate (run_ops [(1, op_insertPending example_approval)] []) [] [] 0 (mkWorld (emptyStore 2) []))
    (mkEgress [] [] 0 2) []) [].

Lemma owner_decides_once_witness :
  let out := act (fun _ => "r0"%string) "owner" "owner" None None act_approvePermanent "u0" example_desk in
  exists row, om_get "u0"%string (desk_approvals example_desk) = Some row /\
    decided "u0" av_allow "owner" (desk_approvals example_desk) (desk_approvals (fst out)).
Proof.
  intros out.
  pose proof (owner_decides_once (fun _ => "r0"%string) "owner" "owner" None None act_approvePermanent "u0" example_desk) as H.
  assert (Hok : approvals_ok (desk_approvals example_desk)).
  { apply (run_op_ok 1 (op_insertPending example_approval)). split; [constructor|done]. }
  specialize (H Hok). cbv beta in H.
  change (match om_get "u0"%string (desk_approvals example_desk) with
          | Some r => actionable_by "owner" None r | None => false end) with true in H.
  eapply H; vm_compute; reflexivity.
Defined.

(** ** Proposals *)
Definition open_proposal (agentId : string) (r : PendingApprovalRow) : bool :=
  String.eqb (pa_agentId r) agentId && bool_decide (pa_status r = as_pending) && is_open_proposal r.

Definition open_proposals (agentId : string) (t : ApprovalTable) : nat :=
  length (List.filter (open_proposal agentId) (om_values t)).

Definition pending_of (agentId : string) (t : ApprovalTable) : nat :=
  length (List.filter (fun r => String.eqb (pa_agentId r) agentId && bool_decide (pa_status r = as_pending))
            (om_values t)).

Lemma filter_om_set (f : PendingApprovalRow -> bool) k r (t : ApprovalTable) :
  (length (List.filter f (om_values (om_set k r t))) <= length (List.filter f (om_values t)) + 1)%nat.
Proof.
  unfold om_values. induction t as [|[k0 r0] t IH]; simpl; [case_match; simpl; lia|].
  case_decide; simpl; repeat case_match; simpl in *; lia.
Qed.

Lemma insertPending_count f now row t :
  (length (List.filter f (om_values (fst (insertPending now row t)))) <= length (List.filter f (om_values t)) + 1)%nat.
Proof.
  unfold insertPending. repeat case_match; simpl; try apply filter_om_set. lia.
Qed.

Lemma perm_filter_length {A} (f : A -> bool) l l' :
  l ≡ₚ l' -> length (List.filter f l) = length (List.filter f l').
Proof. induction 1; simpl; repeat case_match; simpl; congruence. Qed.

Lemma filter_filter_and {A} (f g : A -> bool) l :
  List.filter g (List.filter f l) = List.filter (fun x => f x && g x) l.
Proof. induction l as [|x l IH]; simpl; [done|]. destruct (f x); simpl; [|done]. by rewrite IH. Qed.

(** A listing that is not cut short shows every open proposal. *)
Lemma listed_proposals agentId t :
  (pending_of agentId t <= 500)%nat ->
  length (List.filter is_open_proposal (listPendingForInstance agentId (Some 500) (Some as_pending) t))
  = open_proposals agentId t.
Proof.
  intros Hle. unfold listPendingForInstance, listRows, open_proposals.
  rewrite firstn_all2; [|rewrite js_sort_length; exact Hle].
  rewrite (perm_filter_length _ _ _ (js_sort_perm _ _)). by rewrite filter_filter_and.
Qed.

Lemma file_bounded agentId ownerSub input id w :
  (pending_of agentId (desk_approvals w) <= 500)%nat ->
  (open_proposals agentId (desk_approvals w) <= EGRESS_PROPOSALS_PENDING_MAX)%nat ->
  (open_proposals agentId (desk_approvals (fst (file agentId ownerSub input id w))) <= EGRESS_PROPOSALS_PENDING_MAX)%nat.
Proof.
  intros Hp Ho. unfold file, io_bind.
  destruct (get (listPendingForInstance _ _ _) w) as [w1 r1] eqn:E1. apply get_inv in E1 as [Hw1 Hr1].
  assert (Ht1 : desk_approvals w1 = desk_approvals w) by (unfold desk_approvals; by rewrite Hw1).
  destruct r1 as [open|]; [|simpl; by rewrite Ht1]. destruct Hr1 as [|Hr1]; [done|]. injection Hr1 as ->.
  rewrite listed_proposals by done.
  destruct (_ <=? _)%nat eqn:El; [simpl; by rewrite Ht1|]. apply Nat.leb_gt in El.
  destruct (store _ w1) as [w2 r2] eqn:E2.
  assert (H2 : (open_proposals agentId (desk_approvals w2) <= open_proposals agentId (desk_approvals w) + 1)%nat).
  { rewrite <- Ht1. destruct (store_cases _ _ _ _ E2) as [->|(now & -> & _)]; [lia|apply insertPending_count]. }
  assert (Hle : (open_proposals agentId (desk_approvals w2) <= EGRESS_PROPOSALS_PENDING_MAX)%nat) by lia.
  destruct r2 as [[]|]; simpl; try done. destruct (get (getPending id) w2) as [w3 r3] eqn:E3.
  apply get_inv in E3 as [Hw3 _].
  assert (Ht3 : desk_approvals w3 = desk_approvals w2) by (unfold desk_approvals; by rewrite Hw3).
  destruct r3 as [[r|]|]; simpl; by rewrite Ht3.
Qed.

Lemma alreadyAllowed_pure `{!EgressRuleMatcher} agentId input w :
  io_st (fst (alreadyAllowed agentId input w)) = io_st w.
Proof.
  unfold alreadyAllowed. destruct (isConcrete input); simpl; [|done].
  unfold io_bind, on_gate, io_lift, port. simpl. destruct w as [[g e s] fs]. by destruct (match_rule _) as [[[[] ?]|]|].
Qed.

(** An agent holds a bounded number of proposals open.  As long as no
    more than five hundred of its approvals wait, which is what the listing
    shows, proposing never leaves an agent with more than twenty open
    proposals, whatever the store does. *)
Theorem proposals_are_bounded `{!EgressRuleMatcher} sha256hex agentId ownerSub input w :
  (pending_of agentId (desk_approvals w) <= 500)%nat ->
  (open_proposals agentId (desk_approvals w) <= EGRESS_PROPOSALS_PENDING_MAX)%nat ->
  (open_proposals agentId (desk_approvals (fst (propose sha256hex agentId ownerSub input w)))
   <= EGRESS_PROPOSALS_PENDING_MAX)%nat.
Proof.
  intros Hp Ho.
  assert (Hsame : forall w', io_st w' = io_st w ->
    (open_proposals agentId (desk_approvals w') <= EGRESS_PROPOSALS_PENDING_MAX)%nat).
  { intros w' E. unfold desk_approvals. by rewrite E. }
  assert (Hfile : forall w', io_st w' = io_st w ->
    (open_proposals agentId (desk_approvals (fst (file agentId ownerSub input (proposalId sha256hex agentId input) w')))
     <= EGRESS_PROPOSALS_PENDING_MAX)%nat).
  { intros w' E. apply file_bounded; unfold desk_approvals; by rewrite E. }
  unfold propose, io_bind. destruct (alreadyAllowed agentId input w) as [w1 r1] eqn:E1.
  assert (Hw1 : io_st w1 = io_st w) by (by rewrite <- (alreadyAllowed_pure agentId input w), E1).
  destruct r1 as [[]|]; [by apply Hsame| |by apply Hsame].
  destruct (get (getPending _) w1) as [w2 r2] eqn:E2. apply get_inv in E2 as [Hw2 _].
  destruct r2 as [[r|]|]; [|apply Hfile; congruence|apply Hsame; simpl; congruence].
  case_bool_decide; [apply Hsame; simpl; congruence|apply Hfile; congruence].
Qed.

Lemma proposals_are_bounded_witness :
  let w := example_desk in
  let input := mkProposal "example.com" None "GET" "/x" "to read it" in
  open_proposals "a" (desk_approvals (fst (@propose (table_matcher []) (fun s => s) "a" "owner" input w))) = 1%nat /\
  (open_proposals "a" (desk_approvals (fst (@propose (table_matcher []) (fun s => s) "a" "owner" input w)))
   <= EGRESS_PROPOSALS_PENDING_MAX)%nat.
Proof.
  intros w input. split; [vm_compute; reflexivity|].
  apply (@proposals_are_bounded (table_matcher []) (fun s => s) "a"%string "owner"%string input w);
    apply Nat.leb_le; vm_compute; reflexivity.
Defined.

(** Past five hundred waiting approvals the listing hides the proposals, and
    one more is filed on top of twenty. *)
Definition crowded : ApprovalTable :=
  run_ops (map (fun i => (Z.of_nat i, op_insertPending
    (mkNewPending (pretty i) (if (i <? 20)%nat then at_egress_proposal else at_ext_authz) "a" "owner" None
       (if (i <? 20)%nat then ap_egress_proposal "example.com" None "GET" (pretty i) "why"
        else ap_ext_authz "example.com" None "GET" (pretty i) None None) 1000000))) (seq 0 520)) [].

Lemma crowded_proposals :
  let w := mk_io (mkDesk (mkGate crowded [] [] 0 (mkWorld (emptyStore 600) [])) (mkEgress [] [] 0 600) []) [] in
  open_proposals "a" crowded = 20%nat /\
  open_proposals "a" (desk_approvals (fst (@propose (table_matcher []) (fun s => s) "a" "owner"
    (mkProposal "example.com" None "GET" "/one-more" "why") w))) = 21%nat.
Proof. vm_compute. split; reflexivity. Qed.
