(* ===== verification/EnvGate.v ===== *)
(** * Environments: who may reach an Environment's app, and what the app sees

    [environments/domain/environment.ts], [environments/domain/gate.ts] and
    [environments/gate/endpoint-readiness.ts] of the api-server.  Host names,
    cookies and header values are text; a [Headers] object is its entries under
    lowercase names.  The URL parser and the reading of a token's claims are
    parameters; what only calls a library ([signInBinding], [domainOf],
    [portOf]) is left out. *)

From stdpp Require Import base sets strings list pretty.
From Stdlib Require Import ZArith Lia Ascii.
From S2P Require Import Prelude JsString JsDate.

Local Open Scope Z_scope.

(** ** environment.ts *)
Record EnvironmentEndpoint := mkEndpoint { ee_name : string; ee_port : Z; ee_ready : option string }.

Record EnvironmentRecord := mkEnvironment {
  en_agentId : string;
  en_owningAgentId : string;
  en_owner : string;
  en_name : string;
  en_host : string;
  en_endpoints : list EnvironmentEndpoint;
  en_expiresAt : option Z;
  en_createdAt : Z;
}.

Definition HOST_LABEL_MAX : Z := 63.
Definition ENDPOINT_NAME_MAX : Z := 12.

(** [s.slice(0, n)] *)
Definition js_slice0 (n : Z) (s : string) : string :=
  str_take (Z.to_nat (if n <? 0 then Z.max 0 (slen s + n) else n)) s.

(** [s.replace(/-+$/, "")] *)
Fixpoint drop_end_hyphens (s : string) : string :=
  match s with
  | EmptyString => EmptyString
  | String c s' =>
      match drop_end_hyphens s' with
      | EmptyString => if Ascii.eqb c "-" then EmptyString else String c EmptyString
      | t => String c t
      end
  end.

Definition environmentHost (name suffix : string) : string :=
  let room := HOST_LABEL_MAX - ENDPOINT_NAME_MAX - 1 - slen suffix - 1 in
  (drop_end_hyphens (js_slice0 room name) ++ "-" ++ suffix)%string.

Definition endpointAddress (endpoint host : string) : string := (endpoint ++ "-" ++ host)%string.

(** The first occurrence of [sub] replaced. *)
Fixpoint replace_first (sub by_ s : string) : string :=
  if startsWith s sub then (by_ ++ str_drop (String.length sub) s)%string
  else match s with EmptyString => EmptyString | String c s' => String c (replace_first sub by_ s') end.

Definition endpointUrl (urlTemplate : option string) (endpoint host : string) : option string :=
  replace_first "{host}" (endpointAddress endpoint host) <$> urlTemplate.

(** A requested expiry: never, or a date, whose time may be no number. *)
Inductive ExpiryRequest := expiry_never | expiry_date (time : option Z).
Inductive Clamped (A : Type) := clamped (a : A) | refused.
Arguments clamped {A} a.
Arguments refused {A}.

Definition clampExpiry (requested : ExpiryRequest) (now maxDays : Z) : Clamped (option Z) :=
  match requested with
  | expiry_never => clamped None
  | expiry_date None => refused
  | expiry_date (Some time) =>
      if time <=? now then refused else clamped (Some (Z.min time (now + maxDays * DAY_MS)))
  end.

Definition NEVER_SLEEPS_MIN : Z := 0.

(** Minutes that are no integer are [None]. *)
Inductive IdleTimeoutRequest := idle_never | idle_minutes (minutes : option Z).

Definition clampIdleTimeout (requested : option IdleTimeoutRequest) (defaultMin maxMin : Z) : Clamped Z :=
  match requested with
  | Some idle_never => clamped NEVER_SLEEPS_MIN
  | _ =>
      match (match requested with Some (idle_minutes m) => m | _ => Some defaultMin end) with
      | None => refused
      | Some minutes => if minutes <? 1 then refused else clamped (Z.min minutes maxMin)
      end
  end.

(** ** gate.ts: cookies *)
Definition RESERVED_PREFIX : string := "/.platform/".
Definition SESSION_COOKIE_SECURE : string := "__Host-platform-env".
Definition SESSION_COOKIE_PLAIN : string := "platform-env".
Definition SIGNIN_COOKIE_SECURE : string := "__Host-platform-env-signin".
Definition SIGNIN_COOKIE_PLAIN : string := "platform-env-signin".

Definition PLATFORM_COOKIES : list string :=
  [SESSION_COOKIE_SECURE; SESSION_COOKIE_PLAIN; SIGNIN_COOKIE_SECURE; SIGNIN_COOKIE_PLAIN].

(** The text before and after the first [c]. *)
Fixpoint cut_first (c : ascii) (s : string) : option (string * string) :=
  match s with
  | EmptyString => None
  | String d s' =>
      if Ascii.eqb c d then Some (EmptyString, s')
      else (fun p => (String d (fst p), snd p)) <$> cut_first c s'
  end.

(** [s.split(c, 1)[0]] *)
Definition before_first (c : ascii) (s : string) : string :=
  match cut_first c s with Some (a, _) => a | None => s end.

Definition isPlatformCookie (cookie : string) : bool :=
  includes PLATFORM_COOKIES (trim (before_first "=" cookie)).

Definition is_base64url (c : ascii) : bool :=
  is_digit c || is_lower_az c || is_upper_az c || Ascii.eqb c "_" || Ascii.eqb c "-".

Definition isSignInToken (value : option string) : bool :=
  match value with
  | Some v => (String.length v =? 43)%nat && str_forallb is_base64url v
  | None => false
  end.

(** [/^\s*domain\s*=/i] *)
Definition names_domain (part : string) : bool :=
  let low := toLowerCase (trimStart part) in
  startsWith low "domain" && startsWith (trimStart (str_drop 6 low)) "=".

Definition appSetCookie (cookie : string) : option string :=
  if isPlatformCookie cookie then None
  else match str_split ";" cookie with
       | [] => Some cookie
       | first :: attributes =>
           Some (str_join ";" (first :: List.filter (fun a => negb (names_domain a)) attributes))
       end.

Fixpoint cookie_in (cookies : list string) (name : string) : option string :=
  match cookies with
  | [] => None
  | c :: rest =>
      match cut_first "=" c with
      | Some (n, v) => if String.eqb (trim n) name then Some (trim v) else cookie_in rest name
      | None => cookie_in rest name
      end
  end.

Definition cookieValue (header : option string) (name : string) : option string :=
  cookie_in (str_split ";" (header ?? ""%string)) name.

(** ** gate.ts: addresses *)
Record ParsedAddress := mkAddress { pr_address : string; pr_endpoint : string; pr_host : string }.

Definition is_label_char (c : ascii) : bool := is_lower_az c || is_digit c || Ascii.eqb c "-".

Definition is_label (s : string) : bool :=
  (1 <=? String.length s)%nat && (String.length s <=? 63)%nat && str_forallb is_label_char s.

Definition parseAddress (hostHeader : option string) (domain : string) : option ParsedAddress :=
  match hostHeader with
  | None => None
  | Some header =>
      let hostname := toLowerCase (before_first ":" header) in
      let suffix := ("." ++ toLowerCase domain)%string in
      if negb (endsWith hostname suffix) then None
      else
        let address := str_take (String.length hostname - String.length suffix) hostname in
        if negb (is_label address) then None
        else match cut_first "-" address with
             | Some (endpoint, host) =>
                 if String.eqb endpoint "" || String.eqb host "" then None
                 else Some (mkAddress address endpoint host)
             | None => None
             end
  end.

(** ** gate.ts: access *)
Record EnvironmentSession := mkSession {
  ss_sub : string; ss_email : option string; ss_address : string; ss_shareSession : string; ss_createdAt : Z }.

Inductive AccessDecision := access_allow | access_not_signed_in | access_not_allowed.

Definition decideAgentAccess (owningAgentId : string) (memberAgents : list string) (visitor : option string)
  : AccessDecision :=
  match visitor with
  | None => access_not_allowed
  | Some agentId =>
      if String.eqb agentId owningAgentId then access_allow
      else if includes memberAgents agentId then access_allow
      else access_not_allowed
  end.

Definition normalize_email (e : string) : string := toLowerCase (trim e).

Definition effectiveAccess (agentMembers environmentMembers editors : list string) : list string :=
  js_uniq (map normalize_email (agentMembers ++ environmentMembers ++ editors)).

Definition decideAccess (owner : string) (allowed : list string) (session : option EnvironmentSession)
    (address : string) : AccessDecision :=
  match session with
  | None => access_not_signed_in
  | Some s =>
      if negb (String.eqb (ss_address s) address) then access_not_signed_in
      else if String.eqb (ss_sub s) owner then access_allow
      else match (normalize_email <$> ss_email s) ≫= or_null with
           | Some email => if includes allowed email then access_allow else access_not_allowed
           | None => access_not_allowed
           end
  end.

(** ** gate.ts: the way back after a sign-in *)
Definition is_control (c : ascii) : bool := between 0 31 c || (chr_code c =? 127) || Ascii.eqb c "\".
Definition SAME_ORIGIN_BASE : string := "https://address.invalid".

Section SafeNext.
(** [new URL(path, base).origin] *)
Variable url_origin : string -> string -> result string.

Definition safeNext (path : option string) : result string :=
  match path with
  | None => Ok "/"%string
  | Some p =>
      if negb (startsWith p "/") || startsWith p "//" || startsWith p RESERVED_PREFIX
         || str_existsb is_control p
      then Ok "/"%string
      else match url_origin p SAME_ORIGIN_BASE with
           | Throw => Throw
           | Ok origin => Ok (if String.eqb origin SAME_ORIGIN_BASE then p else "/"%string)
           end
  end.
End SafeNext.

(** ** gate.ts: what the app gets *)
Definition DROPPED_REQUEST_HEADERS : list string :=
  ["host"; "connection"; "proxy-authorization"; "x-platform-environment-ports"; "x-platform-agent-key"]%string.

(** The token of [/^\s*bearer\s+(\S+)\s*$/i], and [/^\s*bearer\b/i]. *)
Definition bearer_rest (value : string) : option string :=
  let s := trimStart value in
  if startsWith (toLowerCase s) "bearer" then Some (str_drop 6 s) else None.

Definition bearer_token (value : string) : option string :=
  match bearer_rest value with
  | Some (String c rest) =>
      let token := trim rest in
      if is_ws c && negb (String.eqb token "") && str_forallb (fun c => negb (is_ws c)) token
      then Some token else None
  | _ => None
  end.

Definition is_word_char (c : ascii) : bool := is_digit c || is_lower_az c || is_upper_az c || Ascii.eqb c "_".

Definition bearer_word (value : string) : bool :=
  match bearer_rest value with
  | None => false
  | Some EmptyString => true
  | Some (String c _) => negb (is_word_char c)
  end.

(** Header entries under lowercase names. *)
Definition Headers : Type := list (string * string).

Definition headers_append (name value : string) (h : Headers) : Headers :=
  match om_get name h with
  | Some old => om_set name (old ++ ", " ++ value)%string h
  | None => om_set name value h
  end.

Section Relay.
Variable issuers : list string.
Variable isApiKey : string -> bool.
(** The [iss] of a base64url payload: [Throw] when it is no JSON, [None] when
    it names no string. *)
Variable claims_iss : string -> result (option string).

Definition platformCredential (value : string) : bool :=
  match bearer_token value with
  | None => bearer_word value
  | Some token =>
      if isApiKey token then true
      else match str_split "." token with
           | [_; payload; _] =>
               match claims_iss payload with
               | Throw => true
               | Ok None => true
               | Ok (Some iss) => includes issuers iss
               end
           | _ => false
           end
  end.

Definition kept_cookie (c : string) : bool := negb (String.eqb c "") && negb (isPlatformCookie c).

Definition kept_cookies (value : string) : list string :=
  List.filter kept_cookie (map trim (str_split ";" value)).

Definition relayHeader (out : Headers) (entry : string * string) : Headers :=
  let '(name, value) := entry in
  if includes DROPPED_REQUEST_HEADERS name then out
  else if String.eqb name "authorization" then
    if platformCredential value then out else om_set name value out
  else if String.eqb name "cookie" then
    match kept_cookies value with
    | [] => out
    | kept => om_set "cookie"%string (str_join "; " kept) out
    end
  else headers_append name value out.

Definition relayHeaders (incoming : Headers) (publicHost scheme : string) : Headers :=
  om_set "x-forwarded-proto"%string scheme
    (om_set "x-forwarded-host"%string publicHost (fold_left relayHeader incoming [])).
End Relay.

(** ** gate.ts: origins *)
Definition endpointAddresses (record : EnvironmentRecord) : list string :=
  map (fun e => (ee_name e ++ "-" ++ en_host record)%string) (en_endpoints record).

(** [/:\d+$/.exec(header)?.[0] ?? ""] *)
Fixpoint port_suffix (s : string) : string :=
  match s with
  | EmptyString => EmptyString
  | String c s' =>
      if Ascii.eqb c ":" && negb (String.eqb s' "") && str_forallb is_digit s' then s else port_suffix s'
  end.

Definition environmentOrigins (record : EnvironmentRecord) (scheme domain : string) (hostHeader : option string)
  : list string :=
  map (fun address => (scheme ++ "://" ++ address ++ "." ++ domain ++ port_suffix (hostHeader ?? ""))%string)
    (endpointAddresses record).

Definition requestAllowed (origin site : option string) (own : list string) : bool :=
  match origin with
  | None => true
  | Some o => includes own o || (String.eqb o "null" && bool_decide (site = Some "same-origin"%string))
  end.

Definition siblingPreflight (method : string) (origin requestMethod requestHeaders : option string)
    (own : list string) : option Headers :=
  match requestMethod, origin with
  | Some rm, Some o =>
      if negb (String.eqb method "OPTIONS") || negb (includes own o) then None
      else Some ([("Access-Control-Allow-Origin", o); ("Access-Control-Allow-Credentials", "true");
                  ("Access-Control-Allow-Methods", rm)]%string
                 ++ (match requestHeaders ≫= or_null with
                     | Some h => [("Access-Control-Allow-Headers", h)]%string
                     | None => []
                     end)
                 ++ [("Access-Control-Max-Age", "600");
                     ("Vary", "Origin, Access-Control-Request-Method, Access-Control-Request-Headers")]%string)
  | _, _ => None
  end.

(** ** endpoint-readiness.ts *)
Definition NOT_READY_RETRY_MS : Z := 3000.
Definition KEPT_MAX : nat := 10000.

Record ReadinessKey := mkReadiness { rk_agentId : string; rk_endpoint : string; rk_ready : option string }.
Inductive Known := known_ready | known_not_ready (at_ : Z).

Definition readiness_key (t : ReadinessKey) : string :=
  (rk_agentId t ++ ":" ++ rk_endpoint t ++ ":" ++ (rk_ready t ?? ""))%string.

(** What is known, and the probes that run. *)
Record Readiness := mkReadinessState { rd_known : list (string * Known); rd_probing : list string }.

Definition keep (k : string) (v : Known) (st : Readiness) : Readiness :=
  let known := if (KEPT_MAX <=? length (rd_known st))%nat then [] else rd_known st in
  mkReadinessState (om_set k v known) (rd_probing st).

(** An answer at once, a probe joined, or a probe started. *)
Inductive ReadyAnswer := answer (ready : bool) | join_probe | start_probe.

Definition ready (retryMs now : Z) (t : ReadinessKey) (st : Readiness) : Readiness * ReadyAnswer :=
  let k := readiness_key t in
  let ask := if includes (rd_probing st) k then (st, join_probe)
             else (mkReadinessState (rd_known st) (k :: rd_probing st), start_probe) in
  match om_get k (rd_known st) with
  | Some known_ready => (st, answer true)
  | Some (known_not_ready at_) => if now - at_ <? retryMs then (st, answer false) else ask
  | None => ask
  end.

(** A probe ends: one that failed was not ready. *)
Definition probe_done (now : Z) (k : string) (outcome : bool) (st : Readiness) : Readiness :=
  let st := keep k (if outcome then known_ready else known_not_ready now) st in
  mkReadinessState (rd_known st) (List.filter (fun k' => negb (String.eqb k' k)) (rd_probing st)).

Definition failed (t : ReadinessKey) (st : Readiness) : Readiness :=
  mkReadinessState (om_delete (readiness_key t) (rd_known st)) (rd_probing st).

Definition forget (agentId : string) (st : Readiness) : Readiness :=
  mkReadinessState (List.filter (fun p => negb (startsWith (fst p) (agentId ++ ":"))) (rd_known st))
    (rd_probing st).
