(* ===== verification/EnvGateSafety.v ===== *)
(** * Environments: what the gate promises

    The platform's cookies and credentials never reach an Environment's app and
    everything else does, who may open an Environment, how an address names it,
    and where a sign-in may lead back. *)

From stdpp Require Import base sets strings list pretty.
From Stdlib Require Import ZArith Lia Ascii.
From S2P Require Import Prelude JsString JsDate EnvGate.

Local Open Scope string_scope.

(** ** Trimming around an equals sign *)
Lemma trimStart_idem s : trimStart (trimStart s) = trimStart s.
Proof. induction s as [|c s IH]; simpl; [done|]. destruct (is_ws c) eqn:E; [done|]. simpl. by rewrite E. Qed.

Lemma trimEnd_idem s : trimEnd (trimEnd s) = trimEnd s.
Proof.
  induction s as [|c s IH]; simpl; [done|]. destruct (trimEnd s) as [|d t] eqn:Es.
  - destruct (is_ws c) eqn:E; simpl; [done|]. by rewrite E.
  - change (trimEnd (String c (String d t))) with
      (match trimEnd (String d t) with "" => if is_ws c then "" else String c "" | t' => String c t' end).
    by rewrite IH.
Qed.

Lemma trimEnd_blank s : trimStart s = "" -> trimEnd s = "".
Proof.
  induction s as [|c s IH]; simpl; [done|]. destruct (is_ws c) eqn:E; [|done]. intros H. by rewrite IH, ?E.
Qed.

Lemma trim_comm s : trimStart (trimEnd s) = trimEnd (trimStart s).
Proof.
  induction s as [|c s IH]; [done|]. simpl. destruct (is_ws c) eqn:E.
  - rewrite <- IH. destruct (trimEnd s) as [|d t] eqn:Es; simpl; [by rewrite ?E|].
    by rewrite E.
  - simpl. destruct (trimEnd s) as [|d t]; simpl; by rewrite E.
Qed.

Lemma trim_trimStart s : trim (trimStart s) = trim s.
Proof. unfold trim. by rewrite trimStart_idem. Qed.

Lemma trim_trimEnd s : trim (trimEnd s) = trim s.
Proof. unfold trim. by rewrite trim_comm, trimEnd_idem. Qed.

Section Cut.
Variable e : ascii.
Hypothesis He : is_ws e = false.

Lemma cut_trimStart s :
  cut_first e (trimStart s) = (fun p => (trimStart (fst p), snd p)) <$> cut_first e s.
Proof using He.
  induction s as [|c s IH]; simpl; [done|]. destruct (is_ws c) eqn:E.
  - rewrite IH. destruct (Ascii.eqb_spec e c) as [<-|Hne]; [congruence|].
    destruct (cut_first e s) as [[n v]|]; simpl; [by rewrite E|done].
  - simpl. destruct (Ascii.eqb_spec e c) as [<-|Hne]; simpl; [done|].
    destruct (cut_first e s) as [[n v]|]; simpl; [by rewrite E|done].
Qed.

Lemma cut_trimEnd s :
  cut_first e (trimEnd s) = (fun p => (fst p, trimEnd (snd p))) <$> cut_first e s.
Proof using He.
  induction s as [|c s IH]; [done|]. simpl. destruct (Ascii.eqb_spec e c) as [<-|Hc].
  - simpl. rewrite He. destruct (trimEnd s); simpl; by rewrite Ascii.eqb_refl.
  - assert (Hcons : forall t, cut_first e (String c t) = (fun p => (String c (fst p), snd p)) <$> cut_first e t).
    { intros t. simpl. by rewrite (proj2 (Ascii.eqb_neq _ _) Hc). }
    destruct (trimEnd s) as [|d t] eqn:Es.
    + destruct (cut_first e s) as [[n v]|]; simpl in IH; [done|].
      destruct (is_ws c); [done|]. by rewrite Hcons.
    + rewrite Hcons, IH. by destruct (cut_first e s) as [[n v]|].
Qed.

Lemma cut_trim s :
  cut_first e (trim s) = (fun p => (trimStart (fst p), trimEnd (snd p))) <$> cut_first e s.
Proof using He. unfold trim. rewrite cut_trimEnd, cut_trimStart. by destruct (cut_first e s) as [[n v]|]. Qed.
End Cut.

(** ** Cookies *)
Lemma cookie_in_trim c rest name : cookie_in (trim c :: rest) name = cookie_in (c :: rest) name.
Proof.
  simpl. rewrite cut_trim by done. destruct (cut_first "=" c) as [[n v]|]; simpl; [|done].
  by rewrite trim_trimStart, trim_trimEnd.
Qed.

Lemma cookie_in_space c rest name : cookie_in (String " " c :: rest) name = cookie_in (c :: rest) name.
Proof. rewrite <- (cookie_in_trim (String " " c)), <- (cookie_in_trim c). done. Qed.

Lemma cookie_in_ext f l name :
  (forall c rest, cookie_in (f c :: rest) name = cookie_in (c :: rest) name) ->
  cookie_in (map f l) name = cookie_in l name.
Proof.
  intros Hf. induction l as [|c l IH]; [done|]. simpl map. rewrite Hf. simpl. by rewrite IH.
Qed.

Lemma cookie_in_kept l name :
  cookie_in (List.filter kept_cookie l) name
  = if includes PLATFORM_COOKIES name then None else cookie_in l name.
Proof.
  induction l as [|c l IH]; cbn [List.filter cookie_in]; [by destruct (includes _ _)|].
  unfold kept_cookie at 1. destruct (String.eqb_spec c "") as [->|Hc]; cbn [negb andb]; [exact IH|].
  unfold isPlatformCookie, before_first. destruct (cut_first "=" c) as [[n v]|] eqn:Ec.
  - destruct (includes PLATFORM_COOKIES (trim n)) eqn:Ep; cbn [negb cookie_in]; rewrite ?Ec, IH;
      destruct (String.eqb_spec (trim n) name) as [<-|]; by rewrite ?Ep.
  - destruct (includes PLATFORM_COOKIES (trim c)); cbn [negb cookie_in]; [exact IH|]. by rewrite Ec.
Qed.

Lemma has_char_app c a b : has_char c (a ++ b) = has_char c a || has_char c b.
Proof.
  unfold has_char. induction a as [|d a IH]; [done|]. rewrite str_append_cons. simpl.
  by rewrite IH, orb_assoc.
Qed.

Lemma split_pieces c s : Forall (fun p => has_char c p = false) (str_split c s).
Proof.
  induction s as [|d s IH]; simpl; [by constructor|]. destruct (Ascii.eqb c d) eqn:E; [by constructor|].
  destruct (str_split c s) as [|h t]; [constructor; [by unfold has_char; simpl; rewrite E|constructor]|].
  inversion IH; subst. constructor; [|done]. unfold has_char in *. simpl. by rewrite E.
Qed.

Lemma trim_has_char c s : has_char c s = false -> has_char c (trim s) = false.
Proof.
  intros H. unfold trim.
  assert (Hs : forall s, has_char c s = false -> has_char c (trimStart s) = false).
  { clear. unfold has_char. induction s as [|d s IH]; simpl; [done|]. intros [E1 E2]%orb_false_iff.
    destruct (is_ws d); [by apply IH|]. simpl. by rewrite E1. }
  assert (He : forall s, has_char c s = false -> has_char c (trimEnd s) = false).
  { clear. unfold has_char. induction s as [|d s IH]; simpl; [done|]. intros [E1 E2]%orb_false_iff.
    specialize (IH E2). destruct (trimEnd s); [destruct (is_ws d)|]; simpl in *; by rewrite ?E1, ?IH. }
  by apply He, Hs.
Qed.

Lemma join_semicolon x l : str_join "; " (x :: l) = str_join ";" (x :: map (String " ") l).
Proof.
  revert x. induction l as [|y l IH]; intros x; [done|]. cbn [map].
  rewrite (str_join_cons "; " x), (str_join_cons ";" x), IH, (str_join_cons ";" y), (str_join_cons ";" (String " " y)).
  by destruct l.
Qed.

(** A header of cookies joined again reads as its pairs. *)
Lemma cookieValue_join l name :
  l <> [] -> Forall (fun c => has_char ";" c = false) l ->
  cookieValue (Some (str_join "; " l)) name = cookie_in l name.
Proof.
  intros Hne Hall. destruct l as [|x l]; [done|]. unfold cookieValue. cbn [nullish].
  rewrite join_semicolon, str_split_join; [|done|].
  - simpl. rewrite (cookie_in_ext (String " ")); [done|]. intros. apply cookie_in_space.
  - inversion Hall; subst. constructor; [done|]. apply Forall_map. by eapply Forall_impl.
Qed.

(** ** Headers *)
#[local] Arguments relayHeader : simpl never.

Section RelayFacts.
Variable issuers : list string.
Variable isApiKey : string -> bool.
Variable claims_iss : string -> result (option string).

(** What becomes of one header. *)
Definition relayed (name value : string) : option string :=
  if includes DROPPED_REQUEST_HEADERS name then None
  else if String.eqb name "authorization" then
    if platformCredential issuers isApiKey claims_iss value then None else Some value
  else if String.eqb name "cookie" then
    match kept_cookies value with [] => None | kept => Some (str_join "; " kept) end
  else Some value.

Lemma relayHeader_get out name value k :
  om_get k (relayHeader issuers isApiKey claims_iss out (name, value))
  = if decide (k = name)
    then match om_get k out with
         | None => relayed name value
         | Some _ => om_get k (relayHeader issuers isApiKey claims_iss out (name, value))
         end
    else om_get k out.
Proof.
  case_decide as Hk.
  - subst k. destruct (om_get name out) eqn:E; [done|]. unfold relayHeader, relayed, headers_append.
    destruct (includes _ name); [done|]. destruct (String.eqb_spec name "authorization").
    + destruct (platformCredential _ _ _ _); [done|]. by rewrite om_get_set, decide_True.
    + destruct (String.eqb_spec name "cookie") as [->|].
      * destruct (kept_cookies value); [done|]. by rewrite om_get_set, decide_True.
      * rewrite E. by rewrite om_get_set, decide_True.
  - unfold relayHeader, headers_append. destruct (includes _ name); [done|].
    destruct (String.eqb name "authorization").
    + destruct (platformCredential _ _ _ _); [done|]. by rewrite om_get_set, decide_False.
    + destruct (String.eqb_spec name "cookie") as [->|].
      * destruct (kept_cookies value); [done|]. by rewrite om_get_set, decide_False.
      * destruct (om_get name out); by rewrite om_get_set, decide_False.
Qed.

Lemma relay_fold incoming out k :
  NoDup (om_keys incoming) -> om_get k out = None ->
  om_get k (fold_left (relayHeader issuers isApiKey claims_iss) incoming out)
  = om_get k incoming ≫= relayed k.
Proof.
  assert (Hskip : forall l out, k ∉ om_keys l ->
            om_get k (fold_left (relayHeader issuers isApiKey claims_iss) l out) = om_get k out).
  { induction l as [|[n v] l IH]; intros o Hn; [done|]. unfold om_keys in Hn, IH; simpl in *.
    rewrite IH by set_solver. rewrite relayHeader_get, decide_False by set_solver. done. }
  revert out. induction incoming as [|[n v] l IH]; intros out; [done|].
  unfold om_keys; simpl. rewrite NoDup_cons. intros [Hn Hd] Ho. destruct (decide (k = n)) as [->|Hk].
  - rewrite Hskip by done. simpl. by rewrite relayHeader_get, decide_True, Ho.
  - apply IH; [done|]. by rewrite relayHeader_get, decide_False.
Qed.

Lemma kept_pieces value : Forall (fun c => has_char ";" c = false) (kept_cookies value).
Proof.
  apply Forall_forall. intros c Hc. unfold kept_cookies in Hc.
  apply list_elem_of_In, List.filter_In in Hc as [Hc _]. apply list_elem_of_In, list_elem_of_fmap in Hc as (p & -> & Hp).
  apply trim_has_char. pose proof (split_pieces ";" value) as Hall. rewrite Forall_forall in Hall. by apply Hall.
Qed.

Definition FORWARDED : list string := ["x-forwarded-host"; "x-forwarded-proto"].
Definition JUDGED : list string := ["authorization"; "cookie"].

End RelayFacts.


(** ** Who may open an Environment *)

(** A person opens an Environment exactly with a session of this very
    address, as its owner or with a verified email that, trimmed and in lower
    case, is on one of the three lists; an Agent exactly as the Owning Agent or
    by name on a list. *)
Theorem access_exactly owner agentMembers environmentMembers editors session address
    owningAgentId memberAgents visitor :
  (decideAccess owner (effectiveAccess agentMembers environmentMembers editors) session address = access_allow <->
     exists s, session = Some s /\ ss_address s = address /\
       (ss_sub s = owner \/
        exists email listed, ss_email s = Some email /\ normalize_email email <> "" /\
          listed ∈ (agentMembers ++ environmentMembers ++ editors)%list /\
          normalize_email listed = normalize_email email)) /\
  (decideAgentAccess owningAgentId memberAgents visitor = access_allow <->
     exists agentId, visitor = Some agentId /\ (agentId = owningAgentId \/ agentId ∈ memberAgents)).
Proof.
  assert (Hlist : forall e, includes (effectiveAccess agentMembers environmentMembers editors) e = true <->
            exists listed, listed ∈ (agentMembers ++ environmentMembers ++ editors)%list /\ normalize_email listed = e).
  { intros e. rewrite includes_spec. unfold effectiveAccess. rewrite js_uniq_elem.
    split; [intros (l & -> & Hl)%list_elem_of_fmap; by exists l|intros (l & Hl & <-)].
    apply list_elem_of_fmap. by exists l. }
  split.
  - unfold decideAccess. destruct session as [s|]; [|naive_solver].
    destruct (String.eqb_spec (ss_address s) address) as [Ha|Ha]; simpl; [|naive_solver].
    destruct (String.eqb_spec (ss_sub s) owner) as [Ho|Ho]; [naive_solver|].
    destruct (ss_email s) as [email|] eqn:Ee; simpl; [|naive_solver].
    unfold or_null, truthy. destruct (String.eqb_spec (normalize_email email) "") as [En|En]; cbn; [naive_solver|].
    destruct (includes (effectiveAccess agentMembers environmentMembers editors) (normalize_email email)) eqn:Ei.
    + apply Hlist in Ei as (l & Hl & El). split; [|done]. intros _. exists s. split_and!; [done..|]. right. by exists email, l.
    + split; [done|]. intros (s' & [= <-] & _ & [|(e' & l & He & _ & Hl & El)]); [done|].
      rewrite Ee in He. injection He as <-.
      assert (includes (effectiveAccess agentMembers environmentMembers editors) (normalize_email email) = true)
        by (apply Hlist; by exists l). congruence.
  - unfold decideAgentAccess. destruct visitor as [a|]; [|naive_solver].
    destruct (String.eqb_spec a owningAgentId); [naive_solver|].
    destruct (includes memberAgents a) eqn:Ei; [apply includes_spec in Ei; naive_solver|].
    split; [done|]. intros (a' & [= <-] & [|Hin]); [done|]. apply includes_spec in Hin. congruence.
Qed.

(** ** Addresses *)

Lemma length_append a b : String.length (a ++ b) = (String.length a + String.length b)%nat.
Proof. induction a as [|c a IH]; [done|]. rewrite str_append_cons. simpl. by rewrite IH. Qed.

Lemma forallb_append f a b : str_forallb f (a ++ b) = str_forallb f a && str_forallb f b.
Proof. induction a as [|c a IH]; [done|]. rewrite str_append_cons. simpl. by rewrite IH, andb_assoc. Qed.

Lemma str_drop_append a b : str_drop (String.length a) (a ++ b) = b.
Proof. induction a as [|c a IH]; [by destruct b|]. by rewrite str_append_cons. Qed.

Lemma str_take_append a b : str_take (String.length a) (a ++ b) = a.
Proof. induction a as [|c a IH]; [by destruct b|]. rewrite str_append_cons. simpl. by rewrite IH. Qed.

Lemma endsWith_append a b : endsWith (a ++ b) b = true.
Proof.
  unfold endsWith. rewrite length_append.
  replace (String.length a + String.length b - String.length b)%nat with (String.length a) by lia.
  rewrite str_drop_append, str_eqb_refl, andb_true_r. apply Nat.leb_le. lia.
Qed.

Lemma cut_first_app c a b : has_char c a = false -> cut_first c (a ++ String c b) = Some (a, b).
Proof.
  unfold has_char. induction a as [|d a IH]; simpl; [by rewrite Ascii.eqb_refl|].
  intros [E1 E2]%orb_false_iff. rewrite E1. by rewrite IH.
Qed.

Lemma cut_first_none c s : has_char c s = false -> cut_first c s = None.
Proof.
  unfold has_char. induction s as [|d s IH]; simpl; [done|]. intros [E1 E2]%orb_false_iff. rewrite E1. by rewrite IH.
Qed.

Lemma forallb_no_char f c s : f c = false -> str_forallb f s = true -> has_char c s = false.
Proof.
  intros Hf. unfold has_char. induction s as [|d s IH]; simpl; [done|]. intros [H1 H2]%andb_true_iff.
  rewrite (IH H2), orb_false_r. apply Ascii.eqb_neq. congruence.
Qed.

Lemma label_char_lower c : is_label_char c = true -> lower_char c = c.
Proof. destruct c as [[] [] [] [] [] [] [] []]; vm_compute; congruence. Qed.

Lemma label_lower s : str_forallb is_label_char s = true -> toLowerCase s = s.
Proof.
  unfold toLowerCase. induction s as [|c s IH]; simpl; [done|]. intros [H1 H2]%andb_true_iff.
  by rewrite label_char_lower, IH.
Qed.

Definition is_name_char (c : ascii) : bool := is_lower_az c || is_digit c.

Lemma name_label s : str_forallb is_name_char s = true -> str_forallb is_label_char s = true.
Proof.
  induction s as [|c s IH]; simpl; [done|]. intros [H1 H2]%andb_true_iff. rewrite IH by done.
  unfold is_label_char, is_name_char in *. by rewrite H1.
Qed.

Lemma take_label n s : str_forallb is_label_char s = true -> str_forallb is_label_char (str_take n s) = true.
Proof.
  revert n. induction s as [|c s IH]; intros [|n]; simpl; try done. intros [H1 H2]%andb_true_iff. by rewrite H1, IH.
Qed.

Lemma take_length n s : (String.length (str_take n s) <= n)%nat.
Proof. revert n. induction s as [|c s IH]; intros [|n]; simpl; try lia. specialize (IH n). lia. Qed.

Lemma drop_end_hyphens_facts s :
  (String.length (drop_end_hyphens s) <= String.length s)%nat /\
  (str_forallb is_label_char s = true -> str_forallb is_label_char (drop_end_hyphens s) = true).
Proof.
  induction s as [|c s [IH1 IH2]]; simpl; [done|]. destruct (drop_end_hyphens s) as [|d t].
  - destruct (Ascii.eqb c "-"); simpl; split; try lia; try done. intros [-> _]%andb_true_iff. done.
  - simpl in *. split; [lia|]. intros [-> H2]%andb_true_iff. by apply IH2.
Qed.

(** The host label of an Environment leaves room for every endpoint name. *)
Lemma environmentHost_facts name suffix :
  str_forallb is_label_char name = true -> str_forallb is_label_char suffix = true ->
  (String.length suffix <= 49)%nat ->
  (String.length (environmentHost name suffix) <= 50)%nat /\
  str_forallb is_label_char (environmentHost name suffix) = true /\ environmentHost name suffix <> "".
Proof.
  intros Hn Hs Hl. unfold environmentHost. cbv zeta. unfold js_slice0.
  set (room := (HOST_LABEL_MAX - ENDPOINT_NAME_MAX - 1 - slen suffix - 1)%Z).
  assert (Hr : (0 <= room)%Z) by (unfold room, HOST_LABEL_MAX, ENDPOINT_NAME_MAX, slen; lia).
  rewrite (proj2 (Z.ltb_ge _ _) Hr).
  destruct (drop_end_hyphens_facts (str_take (Z.to_nat room) name)) as [H1 H2].
  pose proof (take_length (Z.to_nat room) name).
  rewrite length_append, forallb_append. change ("-" ++ suffix) with (String "-" suffix). simpl. split_and!.
  - unfold room, HOST_LABEL_MAX, ENDPOINT_NAME_MAX, slen in *. lia.
  - rewrite H2 by (by apply take_label). by rewrite Hs.
  - destruct (drop_end_hyphens _); discriminate.
Qed.

(** An address names its endpoint and its Environment.  For every name an
    Environment and an endpoint may have, the host of the endpoint's address,
    with or without a port and whatever the letter case of the install's
    domain, reads back as exactly that endpoint and that Environment's host
    label. *)
Theorem address_roundtrip name suffix endpoint domain port :
  str_forallb is_label_char name = true -> str_forallb is_label_char suffix = true ->
  (String.length suffix <= 49)%nat ->
  str_forallb is_name_char endpoint = true -> endpoint <> "" -> (String.length endpoint <= 12)%nat ->
  has_char ":" domain = false -> port = "" \/ startsWith port ":" = true ->
  let host := environmentHost name suffix in
  parseAddress (Some (endpointAddress endpoint host ++ "." ++ domain ++ port)) domain
  = Some (mkAddress (endpointAddress endpoint host) endpoint host).
Proof.
  intros Hn Hs Hls He Hne Hle Hd Hport host.
  destruct (environmentHost_facts name suffix Hn Hs Hls) as (Hlen & Hlab & Hhost). fold host in Hlen, Hlab, Hhost.
  assert (Haddr : str_forallb is_label_char (endpointAddress endpoint host) = true).
  { unfold endpointAddress. rewrite forallb_append. change ("-" ++ host) with (String "-" host). simpl.
    by rewrite Hlab, name_label. }
  unfold parseAddress.
  assert (Hbefore : before_first ":" (endpointAddress endpoint host ++ "." ++ domain ++ port)
                    = endpointAddress endpoint host ++ "." ++ domain).
  { assert (Hc : has_char ":" (endpointAddress endpoint host ++ "." ++ domain) = false).
    { rewrite !has_char_app, Hd, orb_false_r. by rewrite (forallb_no_char is_label_char ":"). }
    unfold before_first. destruct Hport as [->|[r ->]%startsWith_spec].
    - rewrite str_append_nil_r. by rewrite cut_first_none.
    - change (":" ++ r) with (String ":" r). rewrite <- !str_append_assoc, cut_first_app; [done|].
      by rewrite str_append_assoc. }
  rewrite Hbefore, toLowerCase_app, (label_lower _ Haddr), toLowerCase_app.
  change (toLowerCase ".") with ".". rewrite endsWith_append. cbn [negb].
  rewrite length_append, Nat.add_sub, str_take_append.
  assert (Hlabel : is_label (endpointAddress endpoint host) = true).
  { unfold is_label. rewrite Haddr, andb_true_r. unfold endpointAddress. rewrite length_append.
    change ("-" ++ host) with (String "-" host). rewrite andb_true_iff, !Nat.leb_le. cbn [String.length]. lia. }
  rewrite Hlabel. cbn [negb]. unfold endpointAddress at 1. change ("-" ++ host) with (String "-" host).
  rewrite cut_first_app by (by apply (forallb_no_char is_name_char)).
  rewrite (proj2 (String.eqb_neq _ _) Hne), (proj2 (String.eqb_neq _ _) Hhost). done.
Qed.

Lemma address_roundtrip_witness :
  parseAddress (Some "web-pr-42-x7k.Env.example.com:8443") "Env.example.com"
  = Some (mkAddress "web-pr-42-x7k" "web" "pr-42-x7k").
Proof. apply (address_roundtrip "pr-42" "x7k" "web" "Env.example.com" ":8443");
  first [reflexivity | discriminate | right; reflexivity | (simpl; lia)]. Defined.

(** ** The way back *)

(** How a browser reads a path: tabs and line breaks drop out, a backslash is a slash. *)
Fixpoint browser_read (s : string) : string :=
  match s with
  | EmptyString => EmptyString
  | String c s' =>
      if between 9 10 c || Ascii.eqb c "013" then browser_read s'
      else String (if Ascii.eqb c "\" then "/"%char else c) (browser_read s')
  end.

Lemma browser_read_plain s : str_existsb is_control s = false -> browser_read s = s.
Proof.
  induction s as [|c s IH]; simpl; [done|]. intros [Hc Hs]%orb_false_iff. rewrite (IH Hs).
  revert Hc. destruct c as [[] [] [] [] [] [] [] []]; vm_compute; congruence.
Qed.

(** A sign-in leads back only to a path of the address it began on.
    Whatever path a request names, and whatever the URL parser answers, the
    path the visitor is sent to is one slash and no second, as a browser reads
    it, is outside the platform's own paths, and is the requested one or the
    root. *)
Theorem safeNext_stays_home url_origin path next :
  safeNext url_origin path = Ok next ->
  startsWith (browser_read next) "/" = true /\ startsWith (browser_read next) "//" = false /\
  startsWith (browser_read next) RESERVED_PREFIX = false /\ (next = "/" \/ path = Some next).
Proof.
  assert (Hroot : startsWith (browser_read "/") "/" = true /\ startsWith (browser_read "/") "//" = false /\
            startsWith (browser_read "/") RESERVED_PREFIX = false /\ ("/" = "/" \/ path = Some "/")) by auto.
  unfold safeNext. destruct path as [p|]; [|by intros [= <-]].
  destruct (startsWith p "/") eqn:E1; cbn [negb orb]; [|by intros [= <-]].
  destruct (startsWith p "//") eqn:E2; cbn [orb]; [by intros [= <-]|].
  destruct (startsWith p RESERVED_PREFIX) eqn:E3; cbn [orb]; [by intros [= <-]|].
  destruct (str_existsb is_control p) eqn:E4; [by intros [= <-]|].
  destruct (url_origin p SAME_ORIGIN_BASE) as [o|]; [|done]. intros [= <-].
  destruct (String.eqb o SAME_ORIGIN_BASE); [|done].
  rewrite (browser_read_plain p E4). split_and!; try done. by right.
Qed.

Lemma safeNext_stays_home_witness :
  startsWith (browser_read "/reports/7?x=1") "/" = true /\ startsWith (browser_read "/reports/7?x=1") "//" = false.
Proof.
  destruct (safeNext_stays_home (fun _ b => Ok b) (Some "/reports/7?x=1") "/reports/7?x=1" eq_refl) as (H1 & H2 & _).
  split; [exact H1|exact H2].
Defined.
