(* ===== verification/PromptScheduler.v ===== *)
(** The prompt scheduler of a harness
    (packages/agent-runtime/src/modules/acp/services/acp-runtime/prompt-scheduler.ts).

    One record [Sched] holds the scheduler's maps; each function of the source
    is a definition of the same name from state to state.  What the scheduler
    tells its callers ([deps.on...], [sendToAgent], messages on a channel,
    [steerOnly.answer]) is appended to [sc_log].  What it asks them is a field
    of [Deps], which reads the log so far, so an answer may change in the
    middle of an operation; every operation takes a [Deps] of its own.

    A submission is a mutable object of the source.  It is held in one place at
    a time (a queue, the steer in flight, a turn), so it is passed by value
    here; [ps_tag] is the object's identity, used where the source compares
    with [===].  [leadOf] copies an object: the copy is held as a steer's lead
    and identified by the steer's ticket.  A steer is answered by a step of its
    own ([settleSteer]), and a timer that fires is one ([steerTimerFired]). *)
From S2P Require Import Prelude.
From stdpp Require Import base strings list.
From Stdlib Require Import ZArith.
Local Open Scope Z_scope.

(** ** Data *)
Inductive PromptFate := pf_started | pf_queued | pf_steering | pf_refused.
Inductive SteerNowFate := sn_sent | sn_not_queued | sn_cannot_steer.
Inductive SteerOutcome := so_injected | so_refused.
Inductive QueueDropCause := qd_session_forgotten | qd_scheduler_cleared.
Inductive SteerOnlyAnswer := sa_injected | sa_noRunningTurn | sa_notYourTurn | sa_queueFull.
Inductive ModeRole := mr_reconcile | mr_owner.

Record ModeWork := mk_modework { mw_role : ModeRole; mw_sent : bool }.

(** A JSON-RPC frame: its [params.prompt] and everything else. *)
Record Frame := mk_frame { fr_rest : string; fr_prompt : option (list string) }.

(** [steerOnly] is its [targetPromptId]; answering it is an event of the log. *)
Record PromptSubmission := mk_submission {
  ps_tag : Z;
  ps_sessionId : string;
  ps_channel : string;
  ps_outboundId : Z;
  ps_originalId : option string;
  ps_frame : Frame;
  ps_promptId : option string;
  ps_runPrompt : option bool;
  ps_unattended : option bool;
  ps_source : option string;
  ps_typed : option string;
  ps_blocks : option (list string);
  ps_editable : option bool;
  ps_steerable : option bool;
  ps_steerRefused : option bool;
  ps_steerNow : option bool;
  ps_queuedAt : option Z;
  ps_modeRole : option ModeRole;
  ps_sender : option string;
  ps_steerOnly : option string;
}.

(** [field === true]. *)
Definition is_true_ (o : option bool) : bool := match o with Some b => b | None => false end.

Definition PROMPT_QUEUE_CAP : nat := 32.
Definition DEFAULT_STEER_WAIT_MS : Z := 60 * 1000.

(** The assignments to a submission's fields. *)
Definition with_queuedAt (t : Z) (e : PromptSubmission) : PromptSubmission :=
  mk_submission (ps_tag e) (ps_sessionId e) (ps_channel e) (ps_outboundId e) (ps_originalId e)
    (ps_frame e) (ps_promptId e) (ps_runPrompt e) (ps_unattended e) (ps_source e) (ps_typed e)
    (ps_blocks e) (ps_editable e) (ps_steerable e) (ps_steerRefused e) (ps_steerNow e) (Some t)
    (ps_modeRole e) (ps_sender e) (ps_steerOnly e).
Definition with_steerRefused (e : PromptSubmission) : PromptSubmission :=
  mk_submission (ps_tag e) (ps_sessionId e) (ps_channel e) (ps_outboundId e) (ps_originalId e)
    (ps_frame e) (ps_promptId e) (ps_runPrompt e) (ps_unattended e) (ps_source e) (ps_typed e)
    (ps_blocks e) (ps_editable e) (ps_steerable e) (Some true) (ps_steerNow e) (ps_queuedAt e)
    (ps_modeRole e) (ps_sender e) (ps_steerOnly e).
Definition with_steerNow (b : bool) (e : PromptSubmission) : PromptSubmission :=
  mk_submission (ps_tag e) (ps_sessionId e) (ps_channel e) (ps_outboundId e) (ps_originalId e)
    (ps_frame e) (ps_promptId e) (ps_runPrompt e) (ps_unattended e) (ps_source e) (ps_typed e)
    (ps_blocks e) (ps_editable e) (ps_steerable e) (ps_steerRefused e) (Some b) (ps_queuedAt e)
    (ps_modeRole e) (ps_sender e) (ps_steerOnly e).
Definition with_channel (c : string) (e : PromptSubmission) : PromptSubmission :=
  mk_submission (ps_tag e) (ps_sessionId e) c (ps_outboundId e) (ps_originalId e)
    (ps_frame e) (ps_promptId e) (ps_runPrompt e) (ps_unattended e) (ps_source e) (ps_typed e)
    (ps_blocks e) (ps_editable e) (ps_steerable e) (ps_steerRefused e) (ps_steerNow e)
    (ps_queuedAt e) (ps_modeRole e) (ps_sender e) (ps_steerOnly e).
Definition with_frame (f : Frame) (e : PromptSubmission) : PromptSubmission :=
  mk_submission (ps_tag e) (ps_sessionId e) (ps_channel e) (ps_outboundId e) (ps_originalId e)
    f (ps_promptId e) (ps_runPrompt e) (ps_unattended e) (ps_source e) (ps_typed e)
    (ps_blocks e) (ps_editable e) (ps_steerable e) (ps_steerRefused e) (ps_steerNow e)
    (ps_queuedAt e) (ps_modeRole e) (ps_sender e) (ps_steerOnly e).

(** What an edit of a waiting prompt replaces. *)
Record QueueEdit := mk_edit {
  qe_source : option string; qe_frame : Frame; qe_typed : option string;
  qe_blocks : option (list string); qe_sender : option string }.

Definition apply_edit (q : QueueEdit) (e : PromptSubmission) : PromptSubmission :=
  mk_submission (ps_tag e) (ps_sessionId e) (ps_channel e) (ps_outboundId e) (ps_originalId e)
    (qe_frame q) (ps_promptId e) (ps_runPrompt e) (ps_unattended e) (qe_source q) (qe_typed q)
    (qe_blocks q) (ps_editable e) (ps_steerable e) (ps_steerRefused e) (ps_steerNow e)
    (ps_queuedAt e) (ps_modeRole e) (qe_sender q) (ps_steerOnly e).

(** What a channel is sent. *)
Inductive ChannelMsg :=
| MsgPromptAccepted (sessionId promptId : string) (queued steered : bool)
| MsgPromptStarted (sessionId promptId : string)
| MsgError (id : string) (message : option string).

Record Turn := mk_turn {
  tn_outboundId : Z;
  tn_promptId : option string;
  tn_turnId : string;
  tn_runPrompt : bool;
  tn_steered : list PromptSubmission;
  tn_startedAt : Z;
}.

(** An entry of [steering], with its batch of [steeringBatches]. *)
Record Steer := mk_steer {
  st_ticket : Z;
  st_lead : PromptSubmission;
  st_batch : list PromptSubmission;
}.

(** What the scheduler does to the outside, oldest first. [EvSettled] is the
    answer of a steer arriving, [EvRefused] the refusal of a prompt, whose
    sender is told when its submission has a request id. [EvTaken] is a prompt
    leaving for the caller of [remove] or [withdraw], or replaced by [update]. *)
Inductive SEvent :=
| EvToAgent (f : Frame) (sent : bool)
| EvToChannel (channel : string) (m : ChannelMsg)
| EvQueueChanged (sessionId : string)
| EvQueueDropped (sessionId : string) (dropped : list PromptSubmission) (cause : QueueDropCause)
| EvTurnStarted (e : PromptSubmission)
| EvTurnEnded (sessionId : string)
| EvTurnInterrupted (sessionId : string) (t : Turn)
| EvSteer (ticket : Z) (lead : PromptSubmission) (batch : list PromptSubmission)
| EvSettled (lead : PromptSubmission) (outcome : SteerOutcome)
| EvSteered (e : PromptSubmission) (turnEnded : bool)
| EvAnswer (e : PromptSubmission) (a : SteerOnlyAnswer)
| EvRefused (e : PromptSubmission)
| EvTaken (sessionId : string) (l : list PromptSubmission).

Record Deps := mk_deps {
  dp_now : Z;
  dp_sendToAgent : list SEvent -> Frame -> bool;
  dp_modeRoleOf : option (PromptSubmission -> option ModeRole);
  dp_canStart : list SEvent -> PromptSubmission -> bool;
  dp_sessionLoaded : option (list SEvent -> string -> bool);
  dp_canSteer : option (list SEvent -> string -> bool);
  dp_steersByInterrupt : option (list SEvent -> string -> bool);
  dp_steer : bool;
  dp_atSteerPoint : option (list SEvent -> string -> bool);
  dp_steerWaitMs : option Z;
  dp_isOpen : list SEvent -> string -> bool;
  dp_randomUUID : list SEvent -> string;
}.

Record Sched := mk_sched {
  sc_activeTurns : list (string * Turn);
  sc_steering : list (string * Steer);
  sc_steerTimers : list (string * Z);
  sc_queues : list (string * list PromptSubmission);
  sc_pendingSettings : list (string * list PromptSubmission);
  sc_settingsInFlight : list (string * list (Z * PromptSubmission));
  sc_nextTicket : Z;
  sc_log : list SEvent;
}.

Definition createPromptScheduler : Sched := mk_sched [] [] [] [] [] [] 0 [].

Definition set_activeTurns m (s : Sched) : Sched :=
  mk_sched m (sc_steering s) (sc_steerTimers s) (sc_queues s) (sc_pendingSettings s)
    (sc_settingsInFlight s) (sc_nextTicket s) (sc_log s).
Definition set_steering m (s : Sched) : Sched :=
  mk_sched (sc_activeTurns s) m (sc_steerTimers s) (sc_queues s) (sc_pendingSettings s)
    (sc_settingsInFlight s) (sc_nextTicket s) (sc_log s).
Definition set_steerTimers m (s : Sched) : Sched :=
  mk_sched (sc_activeTurns s) (sc_steering s) m (sc_queues s) (sc_pendingSettings s)
    (sc_settingsInFlight s) (sc_nextTicket s) (sc_log s).
Definition set_queues m (s : Sched) : Sched :=
  mk_sched (sc_activeTurns s) (sc_steering s) (sc_steerTimers s) m (sc_pendingSettings s)
    (sc_settingsInFlight s) (sc_nextTicket s) (sc_log s).
Definition set_pendingSettings m (s : Sched) : Sched :=
  mk_sched (sc_activeTurns s) (sc_steering s) (sc_steerTimers s) (sc_queues s) m
    (sc_settingsInFlight s) (sc_nextTicket s) (sc_log s).
Definition set_settingsInFlight m (s : Sched) : Sched :=
  mk_sched (sc_activeTurns s) (sc_steering s) (sc_steerTimers s) (sc_queues s)
    (sc_pendingSettings s) m (sc_nextTicket s) (sc_log s).
Definition set_nextTicket n (s : Sched) : Sched :=
  mk_sched (sc_activeTurns s) (sc_steering s) (sc_steerTimers s) (sc_queues s)
    (sc_pendingSettings s) (sc_settingsInFlight s) n (sc_log s).
Definition tell (e : SEvent) (s : Sched) : Sched :=
  mk_sched (sc_activeTurns s) (sc_steering s) (sc_steerTimers s) (sc_queues s)
    (sc_pendingSettings s) (sc_settingsInFlight s) (sc_nextTicket s) (sc_log s ++ [e]).
Definition tell_all (es : list SEvent) (s : Sched) : Sched :=
  mk_sched (sc_activeTurns s) (sc_steering s) (sc_steerTimers s) (sc_queues s)
    (sc_pendingSettings s) (sc_settingsInFlight s) (sc_nextTicket s) (sc_log s ++ es).

(** [queues.get(sessionId) ?? []] and the like. *)
Definition queueOf (sessionId : string) (s : Sched) : list PromptSubmission :=
  om_get sessionId (sc_queues s) ?? [].
Definition pendingOf (sessionId : string) (s : Sched) : list PromptSubmission :=
  om_get sessionId (sc_pendingSettings s) ?? [].

(** [queues.set(k, q)], or [queues.delete(k)] when [q] is empty. *)
Definition set_or_delete {V} (k : string) (q : list V) (m : list (string * list V)) :=
  match q with [] => om_delete k m | _ => om_set k q m end.

(** ** The functions of the scheduler *)
Section Operations.
Context (d : Deps).

Definition steerWaitMs : Z := dp_steerWaitMs d ?? DEFAULT_STEER_WAIT_MS.

Definition clearSteerTimer (sessionId : string) (s : Sched) : Sched :=
  set_steerTimers (om_delete sessionId (sc_steerTimers s)) s.

Definition waitedOut (e : PromptSubmission) : bool :=
  match ps_queuedAt e with
  | Some t => steerWaitMs <=? dp_now d - t
  | None => false
  end.

(** [activeTurns.get(sessionId)?.promptId === target] *)
Definition activePromptIs (sessionId target : string) (s : Sched) : bool :=
  match om_get sessionId (sc_activeTurns s) with
  | Some t => ostr_eqb (tn_promptId t) target
  | None => false
  end.

Definition joinsActiveTurn (e : PromptSubmission) (s : Sched) : bool :=
  match ps_steerOnly e with
  | None => true
  | Some target => activePromptIs (ps_sessionId e) target s
  end.

Definition isOrdinary (e : PromptSubmission) : bool :=
  match ps_steerOnly e with None => true | Some _ => false end.

Definition targetLive (sessionId target : string) (s : Sched) : bool :=
  activePromptIs sessionId target s
  || existsb (fun e => isOrdinary e && ostr_eqb (ps_promptId e) target) (queueOf sessionId s).

Definition strandedAnswer (sessionId : string) (s : Sched) : SteerOnlyAnswer :=
  if om_has sessionId (sc_activeTurns s) then sa_notYourTurn else sa_noRunningTurn.

(** Answers the steer-only entries and keeps the ordinary ones. *)
Definition answerSteerOnly (entries : list PromptSubmission) (a : SteerOnlyAnswer) (s : Sched)
  : Sched * list PromptSubmission :=
  (tell_all (map (fun e => EvAnswer e a) (List.filter (fun e => negb (isOrdinary e)) entries)) s,
   List.filter isOrdinary entries).

Definition replaceQueue (sessionId : string) (kept : list PromptSubmission) (s : Sched) : Sched :=
  tell (EvQueueChanged sessionId) (set_queues (set_or_delete sessionId kept (sc_queues s)) s).

Definition isStranded (sessionId : string) (s : Sched) (e : PromptSubmission) : bool :=
  match ps_steerOnly e with
  | None => false
  | Some target => negb (targetLive sessionId target s)
  end.

Definition answerStrandedSteers (sessionId : string) (s : Sched) : Sched :=
  match om_get sessionId (sc_queues s) with
  | None => s
  | Some queue =>
      match List.filter (isStranded sessionId s) queue with
      | [] => s
      | stranded =>
          let s1 := replaceQueue sessionId
                      (List.filter (fun e => negb (isStranded sessionId s e)) queue) s in
          fst (answerSteerOnly stranded (strandedAnswer sessionId s1) s1)
      end
  end.

Definition sendToChannel (channel : string) (m : ChannelMsg) (s : Sched) : Sched :=
  if dp_isOpen d (sc_log s) channel then tell (EvToChannel channel m) s else s.

Definition refuse (message : option string) (s : Sched) (e : PromptSubmission) : Sched :=
  match ps_originalId e with
  | None => s
  | Some id => sendToChannel (ps_channel e) (MsgError id message) s
  end.

Definition refuseSettings (sessionId message : string) (s : Sched) : Sched :=
  let settings := pendingOf sessionId s in
  foldl (refuse (Some message))
    (set_pendingSettings (om_delete sessionId (sc_pendingSettings s)) s) settings.

Definition sessionLoaded (e : PromptSubmission) (s : Sched) : bool :=
  match dp_sessionLoaded d with
  | Some loaded => loaded (sc_log s) (ps_sessionId e)
  | None => dp_canStart d (sc_log s) e
  end.

Definition dropAbandonedSettings (sessionId : string) (s : Sched) : Sched :=
  match om_get sessionId (sc_pendingSettings s) with
  | None => s
  | Some settings =>
      set_pendingSettings
        (set_or_delete sessionId
           (List.filter (fun e => dp_isOpen d (sc_log s) (ps_channel e)) settings)
           (sc_pendingSettings s)) s
  end.

Definition sendSetting (e : PromptSubmission) (s : Sched) : Sched * bool :=
  let sent := dp_sendToAgent d (sc_log s) (ps_frame e) in
  let s := tell (EvToAgent (ps_frame e) sent) s in
  if negb sent then (s, false)
  else
    let inFlight := om_get (ps_sessionId e) (sc_settingsInFlight s) ?? [] in
    (set_settingsInFlight
       (om_set (ps_sessionId e) (om_set (ps_outboundId e) e inFlight) (sc_settingsInFlight s)) s,
     true).

Definition flushSettings (sessionId : string) (s : Sched) : Sched :=
  let s := dropAbandonedSettings sessionId s in
  if om_has sessionId (sc_settingsInFlight s) then s
  else
    match om_get sessionId (sc_pendingSettings s) with
    | None | Some [] => s
    | Some (head :: rest) =>
        if om_has sessionId (sc_activeTurns s) || negb (sessionLoaded head s) then s
        else
          match sendSetting head s with
          | (s, false) => s
          | (s, true) =>
              set_pendingSettings (set_or_delete sessionId rest (sc_pendingSettings s)) s
          end
    end.

Definition promptOf (e : PromptSubmission) : list string := fr_prompt (ps_frame e) ?? [].

Definition leadOf (batch : list PromptSubmission) : option PromptSubmission :=
  match batch with
  | [] => None
  | [head] => Some head
  | head :: _ =>
      Some (with_frame (mk_frame (fr_rest (ps_frame head)) (Some (flat_map promptOf batch))) head)
  end.

Definition dropMessage (cause : QueueDropCause) : string :=
  match cause with
  | qd_session_forgotten =>
      "the setting was not applied: the session's queue was dropped (session-forgotten)"
  | qd_scheduler_cleared =>
      "the setting was not applied: the session's queue was dropped (scheduler-cleared)"
  end.

(** The prompts a dropped queue reports: the steer in flight as one, then the
    queued ones. *)
Definition droppedPrompts (inFlightOrdinary ordinary : list PromptSubmission) : list PromptSubmission :=
  match leadOf inFlightOrdinary with None => ordinary | Some lead => lead :: ordinary end.

(** [sessionId]'s queue, and the steer in flight for it, thrown away with the
    cause reported. *)
Definition dropQueue (sessionId : string) (cause : QueueDropCause) (s : Sched) : Sched :=
  let s := clearSteerTimer sessionId s in
  let s := refuseSettings sessionId (dropMessage cause) s in
  let inFlight := om_get sessionId (sc_steering s) in
  let s := set_steering (om_delete sessionId (sc_steering s)) s in
  let '(s, inFlightOrdinary) :=
    match inFlight with
    | None => (s, [])
    | Some st => answerSteerOnly (st_batch st) sa_noRunningTurn s
    end in
  let queued := om_get sessionId (sc_queues s) in
  let '(s, ordinary) := answerSteerOnly (queued ?? []) sa_noRunningTurn s in
  let dropped := droppedPrompts inFlightOrdinary ordinary in
  let s := set_queues (om_delete sessionId (sc_queues s)) s in
  match inFlight, queued with
  | None, None => s
  | _, _ =>
      let s := tell (EvQueueChanged sessionId) s in
      match dropped with [] => s | _ => tell (EvQueueDropped sessionId dropped cause) s end
  end.

Definition notifyAccepted (e : PromptSubmission) (queued steered : bool) (s : Sched) : Sched :=
  match ps_promptId e, ps_steerOnly e with
  | Some promptId, None =>
      sendToChannel (ps_channel e)
        (MsgPromptAccepted (ps_sessionId e) promptId queued steered) s
  | _, _ => s
  end.

Definition enqueue (e : PromptSubmission) (atHead : bool) (s : Sched) : Sched :=
  let queue := queueOf (ps_sessionId e) s in
  let e := with_queuedAt (dp_now d) e in
  tell (EvQueueChanged (ps_sessionId e))
    (set_queues (om_set (ps_sessionId e) (if atHead then e :: queue else queue ++ [e])
                   (sc_queues s)) s).

Definition canSteerNow (e : PromptSubmission) (s : Sched) : bool :=
  let sessionId := ps_sessionId e in
  is_true_ (ps_steerable e)
  && negb (is_true_ (ps_steerRefused e))
  && joinsActiveTurn e s
  && (match dp_atSteerPoint d with Some f => f (sc_log s) sessionId | None => true end
      || (waitedOut e
          && negb (match dp_steersByInterrupt d with
                   | Some f => f (sc_log s) sessionId | None => false end))
      || is_true_ (ps_steerNow e))
  && dp_steer d
  && om_has sessionId (sc_activeTurns s)
  && negb (om_has sessionId (sc_steering s))
  && negb (om_has sessionId (sc_pendingSettings s))
  && negb (om_has sessionId (sc_settingsInFlight s))
  && match dp_canSteer d with Some f => f (sc_log s) sessionId | None => false end
  && dp_canStart d (sc_log s) e.

Inductive BatchInto := into_steer | into_start.

(** The queued prompts that go with a head: the batch and what stays. *)
Fixpoint takeFollowers (into : BatchInto) (s : Sched) (queue : list PromptSubmission)
  : list PromptSubmission * list PromptSubmission :=
  match queue with
  | e :: rest =>
      if is_true_ (ps_steerable e)
         && (isOrdinary e
             || (match into with into_steer => true | into_start => false end
                 && joinsActiveTurn e s))
         && dp_canStart d (sc_log s) e
      then let '(batch, kept) := takeFollowers into s rest in (e :: batch, kept)
      else ([], queue)
  | [] => ([], [])
  end.

Definition takeBatch (into : BatchInto) (s : Sched) (queue : list PromptSubmission)
  : list PromptSubmission * list PromptSubmission :=
  match queue with
  | [] => ([], [])
  | head :: rest =>
      if is_true_ (ps_steerable head) then
        let '(batch, kept) := takeFollowers into s rest in (head :: batch, kept)
      else ([head], rest)
  end.

Definition nothingAhead (sessionId : string) (s : Sched) : bool :=
  negb (om_has sessionId (sc_activeTurns s))
  && negb (om_has sessionId (sc_steering s))
  && negb (om_has sessionId (sc_pendingSettings s))
  && negb (om_has sessionId (sc_settingsInFlight s)).

(** [list.findIndex] *)
Fixpoint findIndex {A} (p : A -> bool) (l : list A) : option nat :=
  match l with
  | [] => None
  | x :: l => if p x then Some O else S <$> findIndex p l
  end.

Definition firstBatchSize (queue : list PromptSubmission) : nat :=
  match queue with
  | [] => 0
  | head :: _ =>
      if negb (isOrdinary head) then 0
      else if negb (is_true_ (ps_steerable head)) then 1
      else match findIndex (fun e => negb (is_true_ (ps_steerable e)) || negb (isOrdinary e)) queue with
           | None => length queue
           | Some plain => plain
           end
  end%nat.

Definition joinTurn (sessionId : string) (s : Sched) (follower : PromptSubmission) : Sched :=
  let active := om_get sessionId (sc_activeTurns s) in
  let turnEnded := match active with None => true | Some _ => false end in
  match ps_steerOnly follower with
  | Some _ => tell (EvAnswer follower sa_injected) (tell (EvSteered follower turnEnded) s)
  | None =>
      let s := notifyAccepted follower false true s in
      let s := match active with
               | None => s
               | Some t =>
                   set_activeTurns
                     (om_set sessionId
                        (mk_turn (tn_outboundId t) (tn_promptId t) (tn_turnId t) (tn_runPrompt t)
                           (tn_steered t ++ [follower]) (tn_startedAt t))
                        (sc_activeTurns s)) s
               end in
      tell (EvSteered follower turnEnded) s
  end.

Definition beginSteer (batch : list PromptSubmission) (s : Sched) : Sched :=
  match leadOf batch with
  | None => s
  | Some entry =>
      let ticket := sc_nextTicket s in
      let s := set_nextTicket (ticket + 1) s in
      let s := set_steering (om_set (ps_sessionId entry) (mk_steer ticket entry batch)
                               (sc_steering s)) s in
      if dp_steer d then tell (EvSteer ticket entry batch) s else s
  end.

Definition steerFromQueue (sessionId : string) (s : Sched) : Sched :=
  let s := answerStrandedSteers sessionId (clearSteerTimer sessionId s) in
  match om_get sessionId (sc_queues s) with
  | None | Some [] => s
  | Some ((head :: _) as queue) =>
      if canSteerNow head s then
        let '(batch, kept) := takeBatch into_steer s queue in
        beginSteer batch
          (tell (EvQueueChanged sessionId)
             (set_queues (set_or_delete sessionId kept (sc_queues s)) s))
      else
        match ps_queuedAt head with
        | None => s
        | Some queuedAt =>
            let wait := steerWaitMs - (dp_now d - queuedAt) in
            if negb (is_true_ (ps_steerable head))
               || is_true_ (ps_steerRefused head)
               || negb (om_has sessionId (sc_activeTurns s))
               || negb (match dp_canSteer d with
                        | Some f => f (sc_log s) sessionId | None => false end)
               || match dp_steersByInterrupt d with
                  | Some f => f (sc_log s) sessionId | None => false end
               || (wait <=? 0)
            then s
            else set_steerTimers (om_set sessionId (dp_now d + wait) (sc_steerTimers s)) s
        end
  end.

Definition start (e : PromptSubmission) (s : Sched) : Sched * bool :=
  let sent := dp_sendToAgent d (sc_log s) (ps_frame e) in
  let s := tell (EvToAgent (ps_frame e) sent) s in
  if negb sent then (s, false)
  else
    let turn := mk_turn (ps_outboundId e) (ps_promptId e)
                  (ps_promptId e ?? dp_randomUUID d (sc_log s))
                  (ps_runPrompt e ?? false) [] (dp_now d) in
    let s := set_activeTurns (om_set (ps_sessionId e) turn (sc_activeTurns s)) s in
    let s := tell (EvTurnStarted e) s in
    (match ps_promptId e with
     | None => s
     | Some promptId => sendToChannel (ps_channel e) (MsgPromptStarted (ps_sessionId e) promptId) s
     end, true).

Definition maybeStartNext (sessionId : string) (s : Sched) : Sched :=
  let s := flushSettings sessionId s in
  if negb (nothingAhead sessionId s) then s
  else
    let s := answerStrandedSteers sessionId s in
    match om_get sessionId (sc_queues s) with
    | None | Some [] => s
    | Some ((next :: _) as queue) =>
        if negb (dp_canStart d (sc_log s) next) then s
        else
          let '(batch, kept) := takeBatch into_start s queue in
          match leadOf batch with
          | None => s
          | Some lead =>
              match start lead s with
              | (s, false) => s
              | (s, true) =>
                  let s := set_queues (set_or_delete sessionId kept (sc_queues s)) s in
                  let s := tell (EvQueueChanged sessionId) s in
                  let s := foldl (joinTurn sessionId) s (tail batch) in
                  steerFromQueue sessionId s
              end
          end
    end.

(** The answer of the steer with [ticket], for [sessionId]. *)
Definition settleSteer (sessionId : string) (ticket : Z) (outcome : SteerOutcome) (s : Sched) : Sched :=
  match om_get sessionId (sc_steering s) with
  | None => s
  | Some st =>
      if negb (st_ticket st =? ticket) then s
      else
        let s := tell (EvSettled (st_lead st) outcome)
                   (set_steering (om_delete sessionId (sc_steering s)) s) in
        match outcome with
        | so_refused =>
            let '(s, ordinary) := answerSteerOnly (st_batch st) sa_noRunningTurn s in
            let s := foldl (fun s member => enqueue (with_steerRefused member) true s) s
                       (rev ordinary) in
            let s := foldl (fun s member => notifyAccepted member true false s) s ordinary in
            maybeStartNext sessionId s
        | so_injected =>
            let s := foldl (joinTurn sessionId) s (st_batch st) in
            if negb (om_has sessionId (sc_activeTurns s)) then maybeStartNext sessionId s
            else steerFromQueue sessionId s
        end
  end.

(** ** The scheduler's interface *)

Definition submitSteerOnly (submission : PromptSubmission) (target : string) (s : Sched)
  : Sched * PromptFate :=
  let sessionId := ps_sessionId submission in
  if negb (targetLive sessionId target s) then
    (tell (EvAnswer submission (strandedAnswer sessionId s)) s, pf_refused)
  else if (length (queueOf sessionId s) =? 0)%nat && canSteerNow submission s then
    (beginSteer [submission] s, pf_steering)
  else if (PROMPT_QUEUE_CAP <=? length (queueOf sessionId s))%nat then
    (tell (EvAnswer submission sa_queueFull) s, pf_refused)
  else
    let s := enqueue submission false s in
    (match queueOf sessionId s with
     | first :: _ => if ps_tag first =? ps_tag submission then steerFromQueue sessionId s else s
     | [] => s
     end, pf_queued).

Definition submit (submission : PromptSubmission) (s : Sched) : Sched * PromptFate :=
  match ps_steerOnly submission with
  | Some target => submitSteerOnly submission target s
  | None =>
      let sessionId := ps_sessionId submission in
      if (length (queueOf sessionId s) =? 0)%nat && canSteerNow submission s then
        (beginSteer [submission] s, pf_steering)
      else if om_has sessionId (sc_activeTurns s)
              || om_has sessionId (sc_steering s)
              || om_has sessionId (sc_pendingSettings s)
              || om_has sessionId (sc_settingsInFlight s)
              || negb (dp_canStart d (sc_log s) submission) then
        if (PROMPT_QUEUE_CAP <=? length (queueOf sessionId s))%nat then
          (refuse None (tell (EvRefused submission) s) submission, pf_refused)
        else
          let s := notifyAccepted submission true false (enqueue submission false s) in
          (match queueOf sessionId s with
           | first :: _ =>
               if ps_tag first =? ps_tag submission then steerFromQueue sessionId s else s
           | [] => s
           end, pf_queued)
      else
        match start submission (notifyAccepted submission false false s) with
        | (s, true) => (s, pf_started)
        | (s, false) =>
            (tell (EvQueueChanged sessionId)
               (set_queues (om_set sessionId [with_queuedAt (dp_now d) submission] (sc_queues s)) s),
             pf_queued)
        end
  end.

Definition submitSetting (submission : PromptSubmission) (s : Sched) : Sched * PromptFate :=
  let sessionId := ps_sessionId submission in
  let queued (s : Sched) :=
    (set_pendingSettings (om_set sessionId (pendingOf sessionId s ++ [submission])
                            (sc_pendingSettings s)) s, pf_queued) in
  if negb (om_has sessionId (sc_pendingSettings s))
     && negb (om_has sessionId (sc_settingsInFlight s))
     && negb (om_has sessionId (sc_activeTurns s))
     && sessionLoaded submission s then
    match sendSetting submission s with
    | (s, true) => (s, pf_started)
    | (s, false) => queued s
    end
  else queued s.

Definition submitSettings (submissions : list PromptSubmission) (first : bool) (s : Sched) : Sched :=
  match submissions with
  | [] => s
  | e :: _ =>
      let sessionId := ps_sessionId e in
      let queued := pendingOf sessionId s in
      maybeStartNext sessionId
        (set_pendingSettings
           (om_set sessionId (if first then submissions ++ queued else queued ++ submissions)
              (sc_pendingSettings s)) s)
  end.

Definition modeWork (sessionId : string) (s : Sched) : list ModeWork :=
  match dp_modeRoleOf d with
  | None => []
  | Some roleOf =>
      let work sent l :=
        flat_map (fun e => match roleOf e with Some role => [mk_modework role sent] | None => [] end)
          l in
      work true (om_values (om_get sessionId (sc_settingsInFlight s) ?? []))
      ++ work false (pendingOf sessionId s)
  end.

Definition dropQueuedSettings (sessionId : string) (predicate : PromptSubmission -> bool) (s : Sched)
  : Sched * list PromptSubmission :=
  match om_get sessionId (sc_pendingSettings s) with
  | None => (s, [])
  | Some queued =>
      match List.filter predicate queued with
      | [] => (s, [])
      | dropped =>
          (set_pendingSettings
             (set_or_delete sessionId (List.filter (fun e => negb (predicate e)) queued)
                (sc_pendingSettings s)) s, dropped)
      end
  end.

Definition onSettingResponse (sessionId : string) (outboundId : Z) (s : Sched) : Sched :=
  match om_get sessionId (sc_settingsInFlight s) with
  | None => s
  | Some inFlight =>
      if om_has outboundId inFlight then
        maybeStartNext sessionId
          (set_settingsInFlight
             (set_or_delete sessionId (om_delete outboundId inFlight) (sc_settingsInFlight s)) s)
      else s
  end.

(** [None] when the response ends no turn. *)
Definition onPromptResponse (sessionId : string) (outboundId : Z) (s : Sched) : Sched * option Turn :=
  match om_get sessionId (sc_activeTurns s) with
  | None => (s, None)
  | Some active =>
      if negb (tn_outboundId active =? outboundId) then (s, None)
      else
        let s := set_activeTurns (om_delete sessionId (sc_activeTurns s)) s in
        let s := tell (EvTurnEnded sessionId) (clearSteerTimer sessionId s) in
        let s := answerStrandedSteers sessionId s in
        (if negb (length (queueOf sessionId s) =? 0)%nat || om_has sessionId (sc_pendingSettings s)
         then maybeStartNext sessionId s
         else set_queues (om_delete sessionId (sc_queues s)) s, Some active)
  end.

Definition activeTurnId (sessionId : string) (s : Sched) : option string :=
  tn_turnId <$> om_get sessionId (sc_activeTurns s).
Definition hasTurnInFlight (sessionId : string) (s : Sched) : bool :=
  om_has sessionId (sc_activeTurns s).
Definition turnStartedAt (sessionId : string) (s : Sched) : option Z :=
  tn_startedAt <$> om_get sessionId (sc_activeTurns s).
Definition isRunTurn (sessionId : string) (s : Sched) : bool :=
  is_true_ (tn_runPrompt <$> om_get sessionId (sc_activeTurns s)).
Definition hasWork (sessionId : string) (s : Sched) : bool :=
  om_has sessionId (sc_activeTurns s) || om_has sessionId (sc_steering s)
  || om_has sessionId (sc_queues s) || om_has sessionId (sc_pendingSettings s)
  || om_has sessionId (sc_settingsInFlight s).
Definition anyWork (s : Sched) : bool :=
  (0 <? length (sc_activeTurns s))%nat || (0 <? length (sc_steering s))%nat
  || (0 <? length (sc_queues s))%nat || (0 <? length (sc_pendingSettings s))%nat
  || (0 <? length (sc_settingsInFlight s))%nat.
Definition activeTurnCount (s : Sched) : nat := length (sc_activeTurns s).
Definition activeTurnSince (s : Sched) : option Z :=
  foldl (fun earliest t =>
           match earliest with
           | Some e => if tn_startedAt t <? e then Some (tn_startedAt t) else earliest
           | None => Some (tn_startedAt t)
           end) None (om_values (sc_activeTurns s)).

Definition onEngaged (sessionId : string) (s : Sched) : Sched := maybeStartNext sessionId s.
Definition onSessionReady (sessionId : string) (s : Sched) : Sched := maybeStartNext sessionId s.

Definition refuseQueue (sessionId message : string) (s : Sched) : Sched :=
  let s := refuseSettings sessionId message (clearSteerTimer sessionId s) in
  match om_get sessionId (sc_queues s) with
  | None => s
  | Some queue =>
      let s := tell (EvQueueChanged sessionId)
                 (set_queues (om_delete sessionId (sc_queues s)) s) in
      let '(s, ordinary) := answerSteerOnly queue sa_noRunningTurn s in
      foldl (fun s e => refuse (Some message) (tell (EvRefused e) s) e) s ordinary
  end.

Definition isEditable (promptId : string) (e : PromptSubmission) : bool :=
  is_true_ (ps_editable e) && ostr_eqb (ps_promptId e) promptId.

Definition update (sessionId promptId : string) (edit : PromptSubmission -> QueueEdit) (s : Sched)
  : Sched * bool :=
  let queue := queueOf sessionId s in
  match findIndex (isEditable promptId) queue with
  | None => (s, false)
  | Some i =>
      match queue !! i with
      | None => (s, false)
      | Some entry =>
          (tell (EvTaken sessionId [entry])
             (tell (EvQueueChanged sessionId)
                (set_queues
                   (om_set sessionId (<[i := apply_edit (edit entry) entry]> queue) (sc_queues s)) s)),
           true)
      end
  end.

Definition remove (sessionId promptId : string) (s : Sched) : Sched * option PromptSubmission :=
  match findIndex (isEditable promptId) (queueOf sessionId s) with
  | None => (s, None)
  | Some index =>
      let queue := queueOf sessionId s in
      let s := tell (EvTaken sessionId (option_list (queue !! index)))
                 (replaceQueue sessionId (base.delete index queue) s) in
      (if (index =? 0)%nat then steerFromQueue sessionId s else s, queue !! index)
  end.

Definition steerNow (sessionId promptId : string) (s : Sched) : Sched * SteerNowFate :=
  let queue := queueOf sessionId s in
  match findIndex (isEditable promptId) queue with
  | None => (s, sn_not_queued)
  | Some index =>
      let marked := map (with_steerNow true) (take (S index) queue) ++ drop (S index) queue in
      let s := steerFromQueue sessionId (set_queues (om_set sessionId marked (sc_queues s)) s) in
      if negb (om_has sessionId (sc_activeTurns s)) || om_has sessionId (sc_steering s)
      then (s, sn_sent)
      else
        match queue !! index, om_get sessionId (sc_queues s) with
        | Some target, Some queue =>
            (set_queues
               (om_set sessionId
                  (map (fun e => if ps_tag e =? ps_tag target then with_steerNow false e else e)
                     queue) (sc_queues s)) s, sn_cannot_steer)
        | _, _ => (s, sn_cannot_steer)
        end
  end.

Definition adoptSteer (sessionId promptId channel : string) (s : Sched) : Sched :=
  match findIndex (fun e => negb (isOrdinary e) && ostr_eqb (ps_promptId e) promptId)
          (queueOf sessionId s) with
  | None => s
  | Some i =>
      set_queues (om_set sessionId (alter (with_channel channel) i (queueOf sessionId s))
                    (sc_queues s)) s
  end.

Definition restartTurn (sessionId : string) (outboundId : Z) (s : Sched) : Sched :=
  match om_get sessionId (sc_activeTurns s) with
  | None => s
  | Some t =>
      set_activeTurns
        (om_set sessionId
           (mk_turn outboundId (tn_promptId t) (tn_turnId t) (tn_runPrompt t) (tn_steered t)
              (tn_startedAt t)) (sc_activeTurns s)) s
  end.

Definition resolveSteer (sessionId : string) (outcome : SteerOutcome) (s : Sched) : Sched :=
  match om_get sessionId (sc_steering s) with
  | None => s
  | Some inFlight => settleSteer sessionId (st_ticket inFlight) outcome s
  end.

(** One session of [withdraw]: [queue] is the session's queue. *)
Definition withdrawFrom (channel : string) (acc : Sched * list PromptSubmission)
    (entry : string * list PromptSubmission) : Sched * list PromptSubmission :=
  let '(s, withdrawn) := acc in
  let '(sessionId, queue) := entry in
  let mine e := negb (isOrdinary e) && String.eqb (ps_channel e) channel in
  match List.filter mine queue with
  | [] => acc
  | gone =>
      (steerFromQueue sessionId
         (tell (EvTaken sessionId gone)
            (replaceQueue sessionId (List.filter (fun e => negb (mine e)) queue) s)),
       withdrawn ++ gone)
  end.

Definition withdraw (channel : string) (s : Sched) : Sched * list PromptSubmission :=
  foldl (withdrawFrom channel) (s, []) (sc_queues s).

Definition onSteerPoint (sessionId : string) (s : Sched) : Sched := steerFromQueue sessionId s.

Definition steerTimerFired (sessionId : string) (s : Sched) : Sched :=
  if om_has sessionId (sc_steerTimers s) then steerFromQueue sessionId s else s.

Record QueuedPrompt := mk_queued {
  qp_promptId : option string; qp_blocks : list string; qp_queuedAt : option Z;
  qp_editable : bool; qp_starting : bool; qp_sender : option string }.

Definition snapshot (sessionId : string) (s : Sched) : list QueuedPrompt :=
  let queue := queueOf sessionId s in
  let starting := if nothingAhead sessionId s then firstBatchSize queue else 0%nat in
  imap (fun i e =>
          mk_queued (ps_promptId e) (ps_blocks e ?? []) (ps_queuedAt e)
            (is_true_ (ps_editable e) && match ps_promptId e with Some _ => true | None => false end)
            (i <? starting)%nat (ps_sender e)) queue.

Definition onDetached (sessionId : string) (s : Sched) : Sched := dropAbandonedSettings sessionId s.

Definition forget (sessionId : string) (s : Sched) : Sched :=
  let active := om_get sessionId (sc_activeTurns s) in
  let s := set_activeTurns (om_delete sessionId (sc_activeTurns s)) s in
  let s := set_settingsInFlight (om_delete sessionId (sc_settingsInFlight s)) s in
  let s := match active with Some t => tell (EvTurnInterrupted sessionId t) s | None => s end in
  let s := dropQueue sessionId qd_session_forgotten s in
  match active with Some _ => tell (EvTurnEnded sessionId) s | None => s end.

Definition clear (s : Sched) : Sched :=
  let s := set_settingsInFlight [] (set_steerTimers [] s) in
  let s := foldl (fun s sessionId =>
                    refuseSettings sessionId
                      "the setting was not applied: the harness went down" s)
             s (om_keys (sc_pendingSettings s)) in
  let active := sc_activeTurns s in
  let s := set_activeTurns [] s in
  let s := foldl (fun s '(sessionId, t) => tell (EvTurnInterrupted sessionId t) s) s active in
  let s := foldl (fun s sessionId => dropQueue sessionId qd_scheduler_cleared s) s
             (js_uniq (om_keys (sc_queues s) ++ om_keys (sc_steering s))) in
  foldl (fun s '(sessionId, _) => tell (EvTurnEnded sessionId) s) s active.

End Operations.

(** ** Operations as steps *)
Inductive SchedOp :=
| OpSubmit (e : PromptSubmission)
| OpSubmitSetting (e : PromptSubmission)
| OpSubmitSettings (es : list PromptSubmission) (first : bool)
| OpDropQueuedSettings (sessionId : string) (predicate : PromptSubmission -> bool)
| OpSettingResponse (sessionId : string) (outboundId : Z)
| OpPromptResponse (sessionId : string) (outboundId : Z)
| OpEngaged (sessionId : string)
| OpSessionReady (sessionId : string)
| OpDetached (sessionId : string)
| OpRefuseQueue (sessionId message : string)
| OpUpdate (sessionId promptId : string) (edit : PromptSubmission -> QueueEdit)
| OpRemove (sessionId promptId : string)
| OpSteerNow (sessionId promptId : string)
| OpAdoptSteer (sessionId promptId channel : string)
| OpRestartTurn (sessionId : string) (outboundId : Z)
| OpResolveSteer (sessionId : string) (outcome : SteerOutcome)
| OpSettleSteer (sessionId : string) (ticket : Z) (outcome : SteerOutcome)
| OpSteerTimer (sessionId : string)
| OpWithdraw (channel : string)
| OpSteerPoint (sessionId : string)
| OpForget (sessionId : string)
| OpClear.

(** One operation. *)
Definition sched_step (d : Deps) (op : SchedOp) (s : Sched) : Sched :=
  match op with
  | OpSubmit e => fst (submit d e s)
  | OpSubmitSetting e => fst (submitSetting d e s)
  | OpSubmitSettings es first => submitSettings d es first s
  | OpDropQueuedSettings k p => fst (dropQueuedSettings k p s)
  | OpSettingResponse k id => onSettingResponse d k id s
  | OpPromptResponse k id => fst (onPromptResponse d k id s)
  | OpEngaged k => onEngaged d k s
  | OpSessionReady k => onSessionReady d k s
  | OpDetached k => onDetached d k s
  | OpRefuseQueue k msg => refuseQueue d k msg s
  | OpUpdate k p edit => fst (update k p edit s)
  | OpRemove k p => fst (remove d k p s)
  | OpSteerNow k p => fst (steerNow d k p s)
  | OpAdoptSteer k p c => adoptSteer k p c s
  | OpRestartTurn k id => restartTurn k id s
  | OpResolveSteer k o => resolveSteer d k o s
  | OpSettleSteer k t o => settleSteer d k t o s
  | OpSteerTimer k => steerTimerFired d k s
  | OpWithdraw c => fst (withdraw d c s)
  | OpSteerPoint k => onSteerPoint d k s
  | OpForget k => forget d k s
  | OpClear => clear d s
  end.

Definition sched_run (l : list (Deps * SchedOp)) (s : Sched) : Sched :=
  foldl (fun s '(d, op) => sched_step d op s) s l.

(** ** A sample world, for the examples *)
Definition sample_prompt (tag : Z) (id : string) (steerable : bool) : PromptSubmission :=
  mk_submission tag "s" "c" tag (Some id) (mk_frame "session/prompt" (Some [id])) (Some id) None None
    None None None (Some true) (Some steerable) None None None None None None.
Definition sample_steer (tag : Z) (id target : string) : PromptSubmission :=
  mk_submission tag "s" "c" tag None (mk_frame "session/prompt" (Some [id])) (Some id) None None
    None None None None (Some true) None None None None None (Some target).
Definition sample_setting (tag : Z) : PromptSubmission :=
  mk_submission tag "s" "c" tag (Some "set") (mk_frame "session/set_model" None) None None None
    None None None None None None None None None None None.

(** A harness that is up; steers wait for [steer_point]. *)
Definition sample_deps (up steer_point : bool) : Deps :=
  mk_deps 1000 (fun _ _ => up) None (fun _ _ => true) None (Some (fun _ _ => true)) None true
    (Some (fun _ _ => steer_point)) None (fun _ _ => true) (fun _ => "turn").

Example submit_starts :
  snd (submit (sample_deps true false) (sample_prompt 1 "a" true) createPromptScheduler) = pf_started.
Proof. reflexivity. Qed.

Example submit_waits_behind_a_turn :
  let s := sched_run [(sample_deps true false, OpSubmit (sample_prompt 1 "a" true))] createPromptScheduler in
  snd (submit (sample_deps true false) (sample_prompt 2 "b" true) s) = pf_queued.
Proof. reflexivity. Qed.

Example submit_steers_at_a_steer_point :
  let s := sched_run [(sample_deps true false, OpSubmit (sample_prompt 1 "a" true))] createPromptScheduler in
  snd (submit (sample_deps true true) (sample_prompt 2 "b" true) s) = pf_steering.
Proof. reflexivity. Qed.
