(* ===== verification/SchedulerSteps.v ===== *)
(** The prompt scheduler as a transition system.

    Every operation of [PromptScheduler] is a sequence of the small steps of
    [prim], each of which moves prompts between a queue, the steer in flight
    and the log.  An invariant is then proved on the steps alone.  A step's
    mode bounds what an operation may do: 0 keeps every ordinary prompt in
    order, 1 may give prompts back or let one pass others, 2 may lose some. *)
From S2P Require Import Prelude PromptScheduler.
From stdpp Require Import base strings list.
From Stdlib Require Import ZArith Lia.

(** ** What an event does with the prompts of a session *)
Definition mine (k : string) (e : PromptSubmission) : list string :=
  if decide (ps_sessionId e = k) then promptOf e else [].
Definition prompts_of (k : string) (l : list PromptSubmission) : list string := flat_map (mine k) l.

(** Blocks the harness took. *)
Definition delivered (k : string) (ev : SEvent) : list string :=
  match ev with
  | EvTurnStarted e | EvSettled e so_injected => mine k e
  | _ => []
  end.

(** Blocks that went back: dropped with notice, refused, answered, taken. *)
Definition returned (k : string) (ev : SEvent) : list string :=
  match ev with
  | EvQueueDropped _ l _ | EvTaken _ l => prompts_of k l
  | EvAnswer e sa_injected => []
  | EvAnswer e _ | EvRefused e => mine k e
  | _ => []
  end.

Definition is_quiet (ev : SEvent) : Prop :=
  match ev with
  | EvTurnStarted _ | EvSettled _ so_injected | EvQueueDropped _ _ _ | EvTaken _ _ | EvRefused _ => False
  | EvAnswer _ a => a = sa_injected
  | _ => True
  end.

Definition delivered_all k evs := flat_map (delivered k) evs.
Definition returned_all k evs := flat_map (returned k) evs.

Definition st_prompts (k : string) (s : Sched) : list string :=
  match om_get k (sc_steering s) with Some st => promptOf (st_lead st) | None => [] end.
Definition queued_prompts (k : string) (s : Sched) : list string :=
  flat_map promptOf (queueOf k s).
(** What waits in a session: the steer in flight, then the queue. *)
Definition held (k : string) (s : Sched) : list string := st_prompts k s ++ queued_prompts k s.

Definition refusedFlag (e : PromptSubmission) : bool := is_true_ (ps_steerRefused e).

(** ** Well-formed states *)
Record sched_wf (s : Sched) : Prop := {
  wf_queues : forall k q, om_get k (sc_queues s) = Some q ->
    q <> [] /\ Forall (fun e => ps_sessionId e = k) q;
  wf_steering : forall k st, om_get k (sc_steering s) = Some st ->
    leadOf (st_batch st) = Some (st_lead st) /\
    Forall (fun e => ps_sessionId e = k) (st_batch st);
  wf_queue_keys : NoDup (om_keys (sc_queues s));
  wf_steering_keys : NoDup (om_keys (sc_steering s));
}.

(** [q'] is [q] with fields changed that no step but the harness reads. *)
Definition marked (e e' : PromptSubmission) : Prop :=
  ps_sessionId e' = ps_sessionId e /\ promptOf e' = promptOf e /\
  ps_steerOnly e' = ps_steerOnly e /\ ps_steerRefused e' = ps_steerRefused e.

(** ** The steps *)
Inductive prim (m : nat) : list PromptSubmission -> Sched -> Sched -> Prop :=
| prim_quiet s s' evs :
    sc_queues s' = sc_queues s -> sc_steering s' = sc_steering s ->
    sc_log s' = sc_log s ++ evs -> Forall is_quiet evs ->
    prim m [] s s'
| prim_mark s s' k q q' evs :
    om_get k (sc_queues s) = Some q -> Forall2 marked q q' ->
    sc_queues s' = om_set k q' (sc_queues s) -> sc_steering s' = sc_steering s ->
    sc_log s' = sc_log s ++ evs -> Forall is_quiet evs ->
    prim m [] s s'
| prim_unqueue s s' k q gone kept evs :
    om_get k (sc_queues s) = Some q -> q ≡ₚ gone ++ kept -> sublist kept q ->
    (m = 0%nat -> Forall (fun e => isOrdinary e = false) gone) ->
    sc_queues s' = set_or_delete k kept (sc_queues s) -> sc_steering s' = sc_steering s ->
    sc_log s' = sc_log s ++ evs ->
    (forall j, delivered_all j evs = []) ->
    (forall j, returned_all j evs ≡ₚ prompts_of j gone) ->
    prim m [] s s'
| prim_edit s s' k l1 e e' l2 :
    (1 <= m)%nat ->
    om_get k (sc_queues s) = Some (l1 ++ e :: l2) -> ps_sessionId e' = k ->
    ps_steerRefused e' = ps_steerRefused e ->
    sc_queues s' = om_set k (l1 ++ e' :: l2) (sc_queues s) -> sc_steering s' = sc_steering s ->
    sc_log s' = sc_log s ++ [EvQueueChanged k; EvTaken k [e]] ->
    prim m [e'] s s'
| prim_append s s' e e' evs :
    (length (queueOf (ps_sessionId e) s) < PROMPT_QUEUE_CAP)%nat -> marked e e' ->
    sc_queues s' = om_set (ps_sessionId e) (queueOf (ps_sessionId e) s ++ [e']) (sc_queues s) ->
    sc_steering s' = sc_steering s ->
    sc_log s' = sc_log s ++ evs -> Forall is_quiet evs ->
    prim m [e] s s'
| prim_reject s s' e evs :
    sc_queues s' = sc_queues s -> sc_steering s' = sc_steering s ->
    sc_log s' = sc_log s ++ evs ->
    (1 <= m)%nat ->
    (forall j, delivered_all j evs = []) -> (forall j, returned_all j evs = mine j e) ->
    prim m [e] s s'
| prim_begin s s' k batch kept lead evs :
    om_get k (sc_queues s) = Some (batch ++ kept) -> om_get k (sc_steering s) = None ->
    leadOf batch = Some lead ->
    (forall e, head batch = Some e -> refusedFlag e = false) ->
    sc_queues s' = set_or_delete k kept (sc_queues s) ->
    sc_steering s' = om_set k (mk_steer (sc_nextTicket s) lead batch) (sc_steering s) ->
    sc_log s' = sc_log s ++ evs -> Forall is_quiet evs ->
    prim m [] s s'
| prim_begin_new s s' e evs :
    om_get (ps_sessionId e) (sc_queues s) = None -> om_get (ps_sessionId e) (sc_steering s) = None ->
    refusedFlag e = false ->
    sc_queues s' = sc_queues s ->
    sc_steering s' = om_set (ps_sessionId e) (mk_steer (sc_nextTicket s) e [e]) (sc_steering s) ->
    sc_log s' = sc_log s ++ evs -> Forall is_quiet evs ->
    prim m [e] s s'
| prim_injected s s' k st evs :
    om_get k (sc_steering s) = Some st ->
    sc_queues s' = sc_queues s -> sc_steering s' = om_delete k (sc_steering s) ->
    sc_log s' = sc_log s ++ EvSettled (st_lead st) so_injected :: evs -> Forall is_quiet evs ->
    prim m [] s s'
| prim_refused s s' k st back q evs :
    om_get k (sc_steering s) = Some st ->
    Forall2 (fun e e' => marked (with_steerRefused e) e') (List.filter isOrdinary (st_batch st)) back ->
    q = back ++ queueOf k s ->
    sc_queues s' = (match back with [] => sc_queues s | _ => om_set k q (sc_queues s) end) ->
    sc_steering s' = om_delete k (sc_steering s) ->
    sc_log s' = sc_log s ++ evs ->
    (forall j, delivered_all j evs = []) ->
    (forall j, returned_all j evs =
               prompts_of j (List.filter (fun e => negb (isOrdinary e)) (st_batch st))) ->
    prim m [] s s'
| prim_drop s s' k evs :
    (1 <= m)%nat ->
    sc_queues s' = om_delete k (sc_queues s) -> sc_steering s' = om_delete k (sc_steering s) ->
    sc_log s' = sc_log s ++ evs ->
    (forall j, delivered_all j evs = []) ->
    (forall j, returned_all j evs ≡ₚ
       prompts_of j ((st_batch <$> om_get k (sc_steering s)) ?? []) ++ prompts_of j (queueOf k s)) ->
    prim m [] s s'
| prim_start s s' k batch kept lead evs1 evs2 :
    om_get k (sc_queues s) = Some (batch ++ kept) -> om_get k (sc_steering s) = None ->
    leadOf batch = Some lead ->
    sc_queues s' = set_or_delete k kept (sc_queues s) -> sc_steering s' = sc_steering s ->
    sc_log s' = sc_log s ++ evs1 ++ EvTurnStarted lead :: evs2 ->
    Forall is_quiet evs1 -> Forall is_quiet evs2 ->
    prim m [] s s'
| prim_start_new s s' e evs1 evs2 :
    (m = 0%nat -> om_get (ps_sessionId e) (sc_queues s) = None) ->
    om_get (ps_sessionId e) (sc_steering s) = None ->
    sc_queues s' = sc_queues s -> sc_steering s' = sc_steering s ->
    sc_log s' = sc_log s ++ evs1 ++ EvTurnStarted e :: evs2 ->
    Forall is_quiet evs1 -> Forall is_quiet evs2 ->
    prim m [e] s s'
| prim_replace s s' e e' evs :
    ((m < 2)%nat -> om_get (ps_sessionId e) (sc_queues s) = None) -> marked e e' ->
    sc_queues s' = om_set (ps_sessionId e) [e'] (sc_queues s) -> sc_steering s' = sc_steering s ->
    sc_log s' = sc_log s ++ evs -> Forall is_quiet evs ->
    prim m [e] s s'.

Inductive prims (m : nat) : list PromptSubmission -> Sched -> Sched -> Prop :=
| prims_nil s : prims m [] s s
| prims_cons inc1 inc2 s1 s2 s3 :
    prim m inc1 s1 s2 -> prims m inc2 s2 s3 -> prims m (inc1 ++ inc2) s1 s3.

Lemma prims_one m inc s s' : prim m inc s s' -> prims m inc s s'.
Proof. intros H. rewrite <- (app_nil_r inc). eapply prims_cons; [exact H | constructor]. Qed.

Lemma prims_app m inc1 inc2 s1 s2 s3 :
  prims m inc1 s1 s2 -> prims m inc2 s2 s3 -> prims m (inc1 ++ inc2) s1 s3.
Proof.
  induction 1 as [|i1 i2 s1 s2 s2' Hp _ IH]; [done|]. intros H.
  rewrite <- app_assoc. eapply prims_cons; eauto.
Qed.

Lemma prims_trans m inc s1 s2 s3 :
  prims m inc s1 s2 -> prims m [] s2 s3 -> prims m inc s1 s3.
Proof. intros H1 H2. rewrite <- (app_nil_r inc). eapply prims_app; eauto. Qed.

Lemma prims_then m inc s1 s2 s3 :
  prims m [] s1 s2 -> prims m inc s2 s3 -> prims m inc s1 s3.
Proof. intros H1 H2. eapply (prims_app _ [] inc); eauto. Qed.

(** ** Lemmas on prompts and maps *)
Lemma prompts_of_app k l1 l2 : prompts_of k (l1 ++ l2) = prompts_of k l1 ++ prompts_of k l2.
Proof. apply flat_map_app. Qed.

Lemma prompts_of_perm k l1 l2 : l1 ≡ₚ l2 -> prompts_of k l1 ≡ₚ prompts_of k l2.
Proof. apply Permutation_flat_map. Qed.

(** In a queue of session [j], all the prompts are session [j]'s. *)
Lemma prompts_of_own k j l :
  Forall (fun e => ps_sessionId e = j) l ->
  prompts_of k l = if decide (j = k) then flat_map promptOf l else [].
Proof.
  unfold prompts_of. induction 1 as [|e l He _ IH]; simpl; [by case_decide|].
  rewrite IH. unfold mine. rewrite He. by case_decide.
Qed.

Lemma delivered_app k l1 l2 : delivered_all k (l1 ++ l2) = delivered_all k l1 ++ delivered_all k l2.
Proof. apply flat_map_app. Qed.
Lemma returned_app k l1 l2 : returned_all k (l1 ++ l2) = returned_all k l1 ++ returned_all k l2.
Proof. apply flat_map_app. Qed.

Lemma delivered_cons k ev l : delivered_all k (ev :: l) = delivered k ev ++ delivered_all k l.
Proof. done. Qed.
Lemma returned_cons k ev l : returned_all k (ev :: l) = returned k ev ++ returned_all k l.
Proof. done. Qed.
Lemma returned_nil k : returned_all k [] = [].
Proof. done. Qed.
Lemma delivered_nil k : delivered_all k [] = [].
Proof. done. Qed.

Lemma quiet_delivered k evs : Forall is_quiet evs -> delivered_all k evs = [].
Proof.
  induction 1 as [|ev evs Hev _ IH]; [done|]. unfold delivered_all in *. simpl. rewrite IH.
  by destruct ev as [| | | | | | | |? []| | | |].
Qed.
Lemma quiet_returned k evs : Forall is_quiet evs -> returned_all k evs = [].
Proof.
  induction 1 as [|ev evs Hev _ IH]; [done|]. unfold returned_all in *. simpl. rewrite IH.
  destruct ev; simpl in *; try done. by subst.
Qed.

Lemma leadOf_prompt batch lead : leadOf batch = Some lead -> promptOf lead = flat_map promptOf batch.
Proof.
  destruct batch as [|e [|e' batch]]; intros [= <-]; simpl; [by rewrite app_nil_r | done].
Qed.
Lemma leadOf_session batch lead k :
  leadOf batch = Some lead -> Forall (fun e => ps_sessionId e = k) batch -> ps_sessionId lead = k.
Proof. destruct batch as [|e [|e' batch]]; intros [= <-]; by inversion 1. Qed.

Lemma marked_refl e : marked e e.
Proof. by repeat split. Qed.
#[export] Hint Resolve marked_refl : dam.

Lemma marked_prompts q q' : Forall2 marked q q' -> flat_map promptOf q' = flat_map promptOf q.
Proof. induction 1 as [|? ? ? ? (? & Hp & ?) _ IH]; simpl; [done|]. by rewrite Hp, IH. Qed.
Lemma marked_sessions k q q' :
  Forall2 marked q q' -> Forall (fun e => ps_sessionId e = k) q -> Forall (fun e => ps_sessionId e = k) q'.
Proof.
  induction 1 as [|? ? ? ? (Hs & ?) _ IH]; [done|]. inversion_clear 1. constructor; [congruence|auto].
Qed.

Section SetOrDelete.
Context {V : Type}.
Implicit Types (q : list V) (l : list (string * list V)).

Lemma get_set_or_delete k j q l :
  om_get j (set_or_delete k q l) =
  if decide (j = k) then match q with [] => None | _ => Some q end else om_get j l.
Proof. unfold set_or_delete. destruct q; autorewrite with dam; by case_decide. Qed.

Lemma get_set_or_delete_or k j q l :
  om_get j (set_or_delete k q l) ?? [] = if decide (j = k) then q else om_get j l ?? [].
Proof. rewrite get_set_or_delete. case_decide; [by destruct q|done]. Qed.

Lemma set_or_delete_NoDup k q l : NoDup (om_keys l) -> NoDup (om_keys (set_or_delete k q l)).
Proof. unfold set_or_delete. destruct q; auto with dam. Qed.
End SetOrDelete.
#[export] Hint Rewrite @get_set_or_delete @get_set_or_delete_or : dam.
#[export] Hint Resolve set_or_delete_NoDup : dam.

Lemma Forall_List_filter {A} (P : A -> Prop) f l : Forall P l -> Forall P (List.filter f l).
Proof. induction 1; simpl; [constructor|]. destruct (f _); auto. Qed.

Lemma sublist_Forall {A} (P : A -> Prop) l1 l2 : sublist l1 l2 -> Forall P l2 -> Forall P l1.
Proof. induction 1; inversion 1; subst; auto. Qed.

Lemma queueOf_get k s q : om_get k (sc_queues s) = Some q -> queueOf k s = q.
Proof. unfold queueOf. by intros ->. Qed.

Lemma queueOf_sessions k s : sched_wf s -> Forall (fun e => ps_sessionId e = k) (queueOf k s).
Proof.
  intros Hwf. unfold queueOf. destruct (om_get k (sc_queues s)) eqn:E; simpl; [|done].
  by apply (wf_queues s Hwf).
Qed.

(** ** Every step keeps states well formed *)
Definition own (k : string) (q : list PromptSubmission) := Forall (fun e => ps_sessionId e = k) q.
Definition queues_ok (l : list (string * list PromptSubmission)) :=
  NoDup (om_keys l) /\ forall k q, om_get k l = Some q -> q <> [] /\ own k q.
Definition steers_ok (l : list (string * Steer)) :=
  NoDup (om_keys l) /\
  forall k st, om_get k l = Some st -> leadOf (st_batch st) = Some (st_lead st) /\ own k (st_batch st).

Lemma wf_iff s : sched_wf s <-> queues_ok (sc_queues s) /\ steers_ok (sc_steering s).
Proof. unfold queues_ok, steers_ok, own. split; [intros []; auto | intros [[? ?] [? ?]]; by split]. Qed.

Lemma queues_ok_set k q l : queues_ok l -> q <> [] -> own k q -> queues_ok (om_set k q l).
Proof.
  intros [Hn Hl] Hq Ho. split; [auto with dam|]. intros j x. autorewrite with dam.
  case_decide; simplify_eq; [intros; by simplify_eq | auto].
Qed.
Lemma queues_ok_delete k l : queues_ok l -> queues_ok (om_delete k l).
Proof.
  intros [Hn Hl]. split; [auto with dam|]. intros j x. autorewrite with dam. case_decide; auto.
  done.
Qed.
Lemma queues_ok_set_or_delete k q l : queues_ok l -> own k q -> queues_ok (set_or_delete k q l).
Proof.
  intros. destruct q; [by apply queues_ok_delete | by apply queues_ok_set].
Qed.
Lemma steers_ok_set k n lead batch l :
  steers_ok l -> leadOf batch = Some lead -> own k batch ->
  steers_ok (om_set k (mk_steer n lead batch) l).
Proof.
  intros [Hn Hl] ? ?. split; [auto with dam|]. intros j x. autorewrite with dam.
  case_decide; simplify_eq; [intros; by simplify_eq | auto].
Qed.
Lemma steers_ok_delete k l : steers_ok l -> steers_ok (om_delete k l).
Proof.
  intros [Hn Hl]. split; [auto with dam|]. intros j x. autorewrite with dam. case_decide; auto.
  done.
Qed.
#[export] Hint Resolve queues_ok_set queues_ok_delete queues_ok_set_or_delete steers_ok_set
  steers_ok_delete : dam.

Lemma own_of k q s : queues_ok (sc_queues s) -> om_get k (sc_queues s) = Some q -> own k q.
Proof. intros [_ H] Hg. by apply (H k). Qed.

Lemma own_app k q1 q2 : own k (q1 ++ q2) <-> own k q1 /\ own k q2.
Proof. apply Forall_app. Qed.
Lemma own_marked k q q' : Forall2 marked q q' -> own k q -> own k q'.
Proof. apply marked_sessions. Qed.
Lemma own_back k batch back :
  Forall2 (fun e e' => marked (with_steerRefused e) e') (List.filter isOrdinary batch) back ->
  own k batch -> own k back.
Proof.
  intros H Ho. assert (own k (List.filter isOrdinary batch)) as Ho'.
  { unfold own. by apply Forall_List_filter. }
  clear Ho. revert Ho'. unfold own.
  induction H as [|e e' l l' Hm _ IH]; [done|]. inversion_clear 1. constructor; [|auto].
  destruct Hm as (Hm & _). simpl in Hm. congruence.
Qed.

Lemma prim_wf m inc s s' : prim m inc s s' -> sched_wf s -> sched_wf s'.
Proof.
  rewrite !wf_iff. intros Hp [Hq Hs].
  assert (forall k q, om_get k (sc_queues s) = Some q -> own k q) as Ho by eauto using own_of.
  assert (forall k, own k (queueOf k s)) as Ho'.
  { intros k. unfold queueOf, own. destruct (om_get k (sc_queues s)) eqn:E; simpl; [by apply Ho | done]. }
  assert (forall k q, om_get k (sc_queues s) = Some q -> q <> []) as Hne by (intros; by apply (proj2 Hq k)).
  destruct Hp;
    repeat match goal with
           | H : sc_queues _ = _ |- _ => rewrite H; clear H
           | H : sc_steering _ = _ |- _ => rewrite H; clear H
           | H : om_get _ (sc_queues s) = Some (_ ++ _) |- _ =>
               apply Ho in H; apply own_app in H as [? ?]
           end; split; auto with dam.
  - apply queues_ok_set; [done | | by eapply own_marked; eauto].
    intros ->. inversion H0; subst. by eapply Hne.
  - eapply queues_ok_set_or_delete; [done|]. eapply sublist_Forall; [done | by apply Ho].
  - apply queues_ok_set; [done | by destruct l1 |]. apply own_app.
    match goal with H : own _ (_ :: _) |- _ => inversion H end. split; [done|]. by constructor.
  - apply queues_ok_set; [done | by destruct (queueOf _ s) |]. apply own_app. split; [done|].
    constructor; [|constructor]. match goal with H : marked _ _ |- _ => by destruct H end.
  - apply steers_ok_set; [done | done |]. by repeat constructor.
  - assert (own k (st_batch st)) as Hb by (by eapply (proj2 Hs k)).
    destruct back as [|b back]; [done|]. apply queues_ok_set; [done | by subst |].
    subst q. apply own_app. split; [by eapply own_back | done].
  - apply queues_ok_set; [done | done |]. constructor; [|constructor].
    match goal with H : marked _ _ |- _ => by destruct H end.
Qed.

Lemma prims_wf m inc s s' : prims m inc s s' -> sched_wf s -> sched_wf s'.
Proof. induction 1; eauto using prim_wf. Qed.

(** ** Conservation: a step moves blocks, it never copies or drops one *)
Definition balance (k : string) (s : Sched) : list string :=
  held k s ++ delivered_all k (sc_log s) ++ returned_all k (sc_log s).

Lemma balance_step k s s' evs inc :
  sc_log s' = sc_log s ++ evs ->
  held k s' ++ delivered_all k evs ++ returned_all k evs ≡ₚ inc ++ held k s ->
  balance k s' ≡ₚ inc ++ balance k s.
Proof.
  intros Hl H. unfold balance. rewrite Hl, delivered_app, returned_app.
  transitivity ((held k s' ++ delivered_all k evs ++ returned_all k evs)
                ++ delivered_all k (sc_log s) ++ returned_all k (sc_log s)); [solve_Permutation|].
  by rewrite H, <- !app_assoc.
Qed.

(** [held] of a state whose maps are known. *)
Lemma st_prompts_set k j st s s' :
  sc_steering s' = om_set j st (sc_steering s) ->
  st_prompts k s' = if decide (k = j) then promptOf (st_lead st) else st_prompts k s.
Proof. unfold st_prompts. intros ->. autorewrite with dam. by case_decide. Qed.
Lemma st_prompts_delete k j s s' :
  sc_steering s' = om_delete j (sc_steering s) ->
  st_prompts k s' = if decide (k = j) then [] else st_prompts k s.
Proof. unfold st_prompts. intros ->. autorewrite with dam. by case_decide. Qed.
Lemma st_prompts_same k s s' : sc_steering s' = sc_steering s -> st_prompts k s' = st_prompts k s.
Proof. unfold st_prompts. by intros ->. Qed.
Lemma queueOf_set k j q s s' :
  sc_queues s' = om_set j q (sc_queues s) -> queueOf k s' = if decide (k = j) then q else queueOf k s.
Proof. unfold queueOf. intros ->. autorewrite with dam. by case_decide. Qed.
Lemma queueOf_set_or_delete k j q s s' :
  sc_queues s' = set_or_delete j q (sc_queues s) ->
  queueOf k s' = if decide (k = j) then q else queueOf k s.
Proof. unfold queueOf. intros ->. by autorewrite with dam. Qed.
Lemma queueOf_delete k j s s' :
  sc_queues s' = om_delete j (sc_queues s) -> queueOf k s' = if decide (k = j) then [] else queueOf k s.
Proof. unfold queueOf. intros ->. autorewrite with dam. by case_decide. Qed.
Lemma queueOf_same k s s' : sc_queues s' = sc_queues s -> queueOf k s' = queueOf k s.
Proof. unfold queueOf. by intros ->. Qed.

(** Rewrites [held] of a step's result. *)
Ltac held_of :=
  unfold held, queued_prompts;
  repeat match goal with
  | H : sc_steering ?s' = om_set _ _ _ |- context [st_prompts _ ?s'] =>
      rewrite (st_prompts_set _ _ _ _ _ H)
  | H : sc_steering ?s' = om_delete _ _ |- context [st_prompts _ ?s'] =>
      rewrite (st_prompts_delete _ _ _ _ H)
  | H : sc_steering ?s' = sc_steering _ |- context [st_prompts _ ?s'] =>
      rewrite (st_prompts_same _ _ _ H)
  | H : sc_queues ?s' = om_set _ _ _ |- context [queueOf _ ?s'] =>
      rewrite (queueOf_set _ _ _ _ _ H)
  | H : sc_queues ?s' = set_or_delete _ _ _ |- context [queueOf _ ?s'] =>
      rewrite (queueOf_set_or_delete _ _ _ _ _ H)
  | H : sc_queues ?s' = om_delete _ _ |- context [queueOf _ ?s'] =>
      rewrite (queueOf_delete _ _ _ _ H)
  | H : sc_queues ?s' = sc_queues _ |- context [queueOf _ ?s'] =>
      rewrite (queueOf_same _ _ _ H)
  end.

Lemma mine_eq k e : mine k e = if decide (k = ps_sessionId e) then promptOf e else [].
Proof. unfold mine. repeat case_decide; congruence. Qed.

Lemma prompts_own k j l :
  own j l -> prompts_of k l = if decide (k = j) then flat_map promptOf l else [].
Proof. intros H. rewrite (prompts_of_own k j l H). repeat case_decide; congruence. Qed.

Lemma flat_map_perm {A B} (f : A -> list B) l1 l2 : l1 ≡ₚ l2 -> flat_map f l1 ≡ₚ flat_map f l2.
Proof. apply Permutation_flat_map. Qed.

Lemma back_prompts batch back :
  Forall2 (fun e e' => marked (with_steerRefused e) e') batch back ->
  flat_map promptOf back = flat_map promptOf batch.
Proof. induction 1 as [|? ? ? ? (? & Hp & ?) _ IH]; simpl; [done|]. by rewrite Hp, IH. Qed.

Lemma queueOf_back k j back q s s' :
  q = back ++ queueOf j s ->
  sc_queues s' = match back with [] => sc_queues s | _ => om_set j q (sc_queues s) end ->
  queueOf k s' = if decide (k = j) then back ++ queueOf j s else queueOf k s.
Proof.
  intros -> H. destruct back; [rewrite (queueOf_same _ _ _ H); case_decide; by subst|].
  by rewrite (queueOf_set _ _ _ _ _ H).
Qed.

Lemma filter_split_perm {A} (f : A -> bool) l :
  l ≡ₚ List.filter f l ++ List.filter (fun x => negb (f x)) l.
Proof.
  induction l as [|x l IH]; simpl; [done|]. destruct (f x); simpl; rewrite IH at 1; solve_Permutation.
Qed.

Lemma prim_balance m inc s s' k :
  (m < 2)%nat -> prim m inc s s' -> sched_wf s -> balance k s' ≡ₚ prompts_of k inc ++ balance k s.
Proof.
  intros Hm Hp Hwf.
  assert (forall j q, om_get j (sc_queues s) = Some q -> own j q /\ queueOf j s = q) as Hq.
  { intros j q E. split; [|by apply queueOf_get]. by apply (wf_queues s Hwf). }
  assert (forall j st, om_get j (sc_steering s) = Some st ->
            own j (st_batch st) /\ ps_sessionId (st_lead st) = j /\
            st_prompts j s = promptOf (st_lead st) /\
            promptOf (st_lead st) = flat_map promptOf (st_batch st)) as Hs.
  { intros j st E. destruct (wf_steering s Hwf j st E) as [Hl Ho].
    split; [done|]. split; [by eapply leadOf_session|].
    split; [unfold st_prompts; by rewrite E | by apply leadOf_prompt]. }
  destruct Hp; eapply balance_step; eauto;
    repeat match goal with
    | H : Forall is_quiet ?e |- _ =>
        pose proof (quiet_delivered k _ H); pose proof (quiet_returned k _ H); clear H
    | H : forall j, delivered_all j _ = [] |- _ => specialize (H k)
    | H : forall j, returned_all j _ ≡ₚ _ |- _ => specialize (H k)
    | H : forall j, returned_all j _ = _ |- _ => specialize (H k)
    | H : om_get _ (sc_queues s) = Some _ |- _ =>
        let H1 := fresh in let H2 := fresh in destruct (Hq _ _ H) as [H1 H2]; clear H
    | H : om_get _ (sc_steering s) = Some _ |- _ =>
        let H1 := fresh in destruct (Hs _ _ H) as (H1 & ? & ? & ?) ; clear H
    end; held_of;
    rewrite ?delivered_app, ?returned_app, ?delivered_cons, ?returned_cons;
    simpl delivered; simpl returned; unfold prompts_of at 1; simpl flat_map;
    rewrite ?mine_eq;
    repeat match goal with
    | H : delivered_all k _ = [] |- _ => rewrite H; clear H
    | H : returned_all k _ = [] |- _ => rewrite H; clear H
    end;
    rewrite ?app_nil_r; simpl; try solve [solve_Permutation].
  - case_decide as Hd; [subst k0 q|done]. erewrite marked_prompts by done. done.
  - subst q. match goal with H : returned_all k evs ≡ₚ _ |- _ => rewrite H end.
    match goal with H : _ ≡ₚ gone ++ kept |- _ => rename H into Hperm end.
    assert (own k0 gone) as Hg.
    { assert (own k0 (gone ++ kept)) as Ha by (unfold own in *; by rewrite <- Hperm).
      by apply own_app in Ha as [? _]. }
    rewrite (prompts_own k k0 gone Hg). case_decide as Hd; [subst k0|by rewrite app_nil_r].
    rewrite (flat_map_perm promptOf _ _ Hperm), flat_map_app. solve_Permutation.
  - match goal with H : own _ (_ ++ _) |- _ => apply own_app in H as [_ H]; inversion H; subst end.
    repeat case_decide; try congruence; [|by rewrite app_nil_r].
    match goal with H : queueOf _ _ = _ |- _ => rename H into Hql end. subst k. rewrite Hql.
    rewrite !flat_map_app. simpl. solve_Permutation.
  - case_decide as Hd; simpl; [subst k|done].
    match goal with H : marked _ _ |- _ => destruct H as (_ & Hpr & _) end.
    rewrite flat_map_app. simpl. rewrite Hpr, app_nil_r. solve_Permutation.
  - match goal with H : returned_all k evs = _ |- _ => rewrite H, mine_eq end. solve_Permutation.
  - case_decide as Hd; [subst k0|done].
    match goal with H : queueOf _ _ = _ |- _ => rewrite H end.
    unfold st_prompts. match goal with H : om_get k (sc_steering s) = None |- _ => rewrite H end.
    match goal with H : leadOf _ = _ |- _ => rewrite (leadOf_prompt _ _ H) end.
    by rewrite flat_map_app.
  - case_decide as Hd; [subst k|done]. unfold st_prompts.
    match goal with H : om_get _ (sc_steering s) = None |- _ => rewrite H end. done.
  - match goal with H : ps_sessionId (st_lead st) = _ |- _ => rewrite H; clear H end.
    case_decide as Hd; [subst k0|by rewrite app_nil_r].
    match goal with H : st_prompts k s = _ |- _ => rewrite H end. solve_Permutation.
  - match goal with H : returned_all k evs = _ |- _ => rewrite H end.
    match goal with H : ps_sessionId (st_lead st) = _ |- _ => clear H end.
    erewrite queueOf_back by done. rewrite (prompts_own k k0).
    2: { by apply Forall_List_filter. }
    case_decide as Hd; [subst k0|by rewrite app_nil_r]. rewrite flat_map_app.
    match goal with H : st_prompts k s = _ |- _ => rewrite H end.
    match goal with H : promptOf (st_lead st) = _ |- _ => rewrite H end.
    erewrite back_prompts by done.
    rewrite (flat_map_perm promptOf _ _ (filter_split_perm isOrdinary (st_batch st))), flat_map_app.
    solve_Permutation.
  - match goal with H : returned_all k evs ≡ₚ _ |- _ => rewrite H end.
    rewrite (prompts_own k k0 (queueOf k0 s)) by (by apply queueOf_sessions).
    unfold st_prompts. destruct (om_get k0 (sc_steering s)) as [st|] eqn:E; simpl.
    + destruct (Hs _ _ E) as (Ho & _ & _ & Hl). rewrite (prompts_own k k0 _ Ho).
      case_decide as Hd; [subst k0|by rewrite !app_nil_r]. rewrite E, Hl. solve_Permutation.
    + case_decide as Hd; [subst k0|by rewrite !app_nil_r]. by rewrite E.
  - match goal with H : own _ (batch ++ kept) |- _ => apply own_app in H as [Hb _] end.
    erewrite (leadOf_session _ lead) by done. case_decide as Hd; [subst k0|by rewrite app_nil_r].
    match goal with H : queueOf _ _ = _ |- _ => rewrite H end.
    match goal with H : leadOf _ = _ |- _ => rewrite (leadOf_prompt _ _ H) end.
    rewrite flat_map_app. solve_Permutation.
  - case_decide as Hd; [subst k|done].
    match goal with H : (m < 2)%nat -> _, H' : marked _ _ |- _ =>
      specialize (H Hm); destruct H' as (_ & Hp & _); unfold queueOf; rewrite H end.
    simpl. rewrite Hp, !app_nil_r. solve_Permutation.
Qed.

Lemma prims_balance m inc s s' k :
  (m < 2)%nat -> prims m inc s s' -> sched_wf s -> balance k s' ≡ₚ prompts_of k inc ++ balance k s.
Proof.
  intros Hm. induction 1 as [s|inc1 inc2 s1 s2 s3 Hp _ IH]; intros Hwf; [done|].
  rewrite IH by eauto using prim_wf. rewrite (prim_balance m inc1 s1 s2 k Hm Hp Hwf), prompts_of_app.
  solve_Permutation.
Qed.

(** ** Order: mode 0 keeps ordinary prompts in line *)
Definition all_ordinary (s : Sched) : Prop :=
  (forall k, Forall (fun e => isOrdinary e = true) (queueOf k s)) /\
  (forall k st, om_get k (sc_steering s) = Some st ->
                Forall (fun e => isOrdinary e = true) (st_batch st)).

(** What the harness took, then what waits. *)
Definition line (k : string) (s : Sched) : list string := delivered_all k (sc_log s) ++ held k s.

Lemma marked_ordinary q q' :
  Forall2 marked q q' -> Forall (fun e => isOrdinary e = true) q ->
  Forall (fun e => isOrdinary e = true) q'.
Proof.
  induction 1 as [|e e' q q' (_ & _ & Hs & _) _ IH]; [done|]. inversion_clear 1.
  constructor; [|auto]. unfold isOrdinary in *. by rewrite Hs.
Qed.

Lemma ordinary_queues s s' :
  all_ordinary s -> sc_steering s' = sc_steering s \/
    (exists k, sc_steering s' = om_delete k (sc_steering s)) ->
  (forall k, Forall (fun e => isOrdinary e = true) (queueOf k s')) -> all_ordinary s'.
Proof.
  intros [_ Hs] Hst Hq. split; [done|]. intros k st.
  destruct Hst as [->|[j ->]]; [apply Hs|]. autorewrite with dam. case_decide; [done|apply Hs].
Qed.

Lemma ordinary_queue_set s s' j q :
  (forall k, queueOf k s' = if decide (k = j) then q else queueOf k s) ->
  (forall k, Forall (fun e => isOrdinary e = true) (queueOf k s)) ->
  Forall (fun e => isOrdinary e = true) q ->
  forall k, Forall (fun e => isOrdinary e = true) (queueOf k s').
Proof. intros Hk Hq ? k. rewrite Hk. by case_decide. Qed.

Lemma back_ordinary batch back :
  Forall2 (fun e e' => marked (with_steerRefused e) e') (List.filter isOrdinary batch) back ->
  Forall (fun e => isOrdinary e = true) back.
Proof.
  assert (Forall (fun e => isOrdinary e = true) (List.filter isOrdinary batch)) as H.
  { induction batch as [|e b IH]; simpl; [constructor|].
    destruct (isOrdinary e) eqn:E; [by constructor|done]. }
  intros H2. revert H. induction H2 as [|e e' q q' (_ & _ & Hs & _) _ IH]; [done|].
  inversion_clear 1. constructor; [|auto]. unfold isOrdinary in *. simpl in Hs. by rewrite Hs.
Qed.

Lemma prim_ordinary inc s s' :
  prim 0 inc s s' -> all_ordinary s -> Forall (fun e => isOrdinary e = true) inc -> all_ordinary s'.
Proof.
  intros Hp Ho Hi. pose proof Ho as [Hq Hs].
  assert (forall j l, om_get j (sc_queues s) = Some l -> Forall (fun e => isOrdinary e = true) l) as Hget.
  { intros j l E. rewrite <- (queueOf_get _ _ _ E). apply Hq. }
  assert (forall j st b, Forall (fun e => isOrdinary e = true) b -> st_batch st = b ->
            sc_steering s' = om_set j st (sc_steering s) ->
            (forall k, Forall (fun e => isOrdinary e = true) (queueOf k s')) -> all_ordinary s') as Hset.
  { intros j st b Hb <- Hst Hq'. split; [done|]. intros k x. rewrite Hst. autorewrite with dam.
    case_decide; [intros [= <-]; done | apply Hs]. }
  destruct Hp; try lia;
    repeat match goal with
    | H : om_get _ (sc_queues s) = Some (_ ++ _) |- _ =>
        apply Hget in H; apply Forall_app in H as [? ?]
    | H : Forall _ [_] |- _ => inversion_clear H
    end.
  - eapply ordinary_queues; eauto. intros j. by rewrite (queueOf_same _ _ _ H).
  - eapply ordinary_queues; eauto.
    eapply ordinary_queue_set; [intros; by apply queueOf_set | done |]. eauto using marked_ordinary.
  - eapply ordinary_queues; eauto.
    eapply ordinary_queue_set; [intros; by apply queueOf_set_or_delete | done |].
    eapply sublist_Forall; eauto.
  - eapply ordinary_queues; eauto.
    eapply ordinary_queue_set; [intros; by apply queueOf_set | done |].
    apply Forall_app. split; [done|]. eapply (marked_ordinary [_]); eauto.
  - eapply (Hset k); [|reflexivity|done|]; [done|].
    eapply ordinary_queue_set; [intros; by apply queueOf_set_or_delete | done | done].
  - eapply (Hset (ps_sessionId e)); [|reflexivity|done|]; [by repeat constructor|].
    intros j. by rewrite (queueOf_same _ _ _ H2).
  - eapply ordinary_queues; eauto. intros j. by rewrite (queueOf_same _ _ _ H0).
  - eapply ordinary_queues; eauto.
    eapply ordinary_queue_set; [intros; by eapply queueOf_back | done |].
    apply Forall_app. split; [by eapply back_ordinary | done].
  - eapply ordinary_queues; eauto.
    eapply ordinary_queue_set; [intros; by apply queueOf_set_or_delete | done | done].
  - eapply ordinary_queues; eauto. intros j. by rewrite (queueOf_same _ _ _ H1).
  - eapply ordinary_queues; eauto.
    eapply ordinary_queue_set; [intros; by apply queueOf_set | done |].
    eapply (marked_ordinary [_]); eauto.
Qed.

Lemma line_step k s s' evs inc :
  sc_log s' = sc_log s ++ evs -> delivered_all k evs ++ held k s' = held k s ++ inc ->
  line k s' = line k s ++ inc.
Proof. intros Hl H. unfold line. by rewrite Hl, delivered_app, <- !app_assoc, H. Qed.

Lemma sublist_full {A} (l1 l2 : list A) : sublist l1 l2 -> length l1 = length l2 -> l1 = l2.
Proof.
  induction 1 as [|x l1 l2 _ IH|x l1 l2 Hs IH]; simpl; intros Hl; [done | by rewrite IH by lia |].
  apply sublist_length in Hs. lia.
Qed.

Lemma sublist_nil_perm {A} (q gone kept : list A) (P : A -> Prop) :
  q ≡ₚ gone ++ kept -> sublist kept q -> Forall P q -> Forall (fun x => ~ P x) gone -> kept = q.
Proof.
  intros Hp Hs Hq Hg. destruct gone as [|x gone].
  - apply sublist_full; [done|]. by rewrite Hp.
  - inversion_clear Hg. exfalso. rewrite Forall_forall in Hq. apply H. apply Hq. rewrite Hp. left.
Qed.

Lemma prim_line inc s s' k :
  prim 0 inc s s' -> sched_wf s -> all_ordinary s ->
  line k s' = line k s ++ prompts_of k inc.
Proof.
  intros Hp Hwf [Hoq Hos].
  assert (forall j q, om_get j (sc_queues s) = Some q -> own j q /\ queueOf j s = q) as Hq.
  { intros j q E. split; [|by apply queueOf_get]. by apply (wf_queues s Hwf). }
  assert (forall j st, om_get j (sc_steering s) = Some st ->
            Forall (fun e => isOrdinary e = true) (st_batch st) /\
            ps_sessionId (st_lead st) = j /\ st_prompts j s = promptOf (st_lead st) /\
            promptOf (st_lead st) = flat_map promptOf (st_batch st)) as Hs.
  { intros j st E. destruct (wf_steering s Hwf j st E) as [Hl Ho].
    split; [by eapply Hos|]. split; [by eapply leadOf_session|].
    split; [unfold st_prompts; by rewrite E | by apply leadOf_prompt]. }
  destruct Hp; try lia; eapply line_step; eauto;
    repeat match goal with
    | H : Forall is_quiet ?e |- _ => pose proof (quiet_delivered k _ H); clear H
    | H : forall j, delivered_all j _ = [] |- _ => specialize (H k)
    | H : om_get _ (sc_queues s) = Some _ |- _ =>
        let H1 := fresh in let H2 := fresh in destruct (Hq _ _ H) as [H1 H2]; clear H
    | H : om_get _ (sc_steering s) = Some _ |- _ =>
        let H1 := fresh in destruct (Hs _ _ H) as (H1 & ? & ? & ?); clear H
    end; held_of;
    rewrite ?delivered_app, ?delivered_cons;
    simpl delivered; unfold prompts_of at 1; simpl flat_map;
    rewrite ?mine_eq;
    repeat match goal with
    | H : delivered_all k _ = [] |- _ => rewrite H; clear H
    end;
    rewrite ?app_nil_r; simpl; try done.
  - case_decide as Hd; [|done]. subst. by erewrite marked_prompts.
  - case_decide as Hd; [|done]. subst.
    assert (kept = queueOf k0 s) as ->; [|done].
    eapply (sublist_nil_perm _ gone _ (fun e => isOrdinary e = true)); [done | done | apply Hoq |].
    eapply Forall_impl; [by eauto|]. simpl. intros x ->. done.
  - case_decide as Hd; [subst|by rewrite app_nil_r].
    match goal with H : marked _ _ |- _ => destruct H as (_ & Hpr & _) end.
    rewrite flat_map_app. simpl. by rewrite Hpr, app_nil_r, app_assoc.
  - case_decide as Hd; [subst|done].
    match goal with H : queueOf _ _ = _ |- _ => rewrite H end.
    unfold st_prompts. match goal with H : om_get _ (sc_steering s) = None |- _ => rewrite H end.
    match goal with H : leadOf _ = _ |- _ => rewrite (leadOf_prompt _ _ H) end.
    by rewrite flat_map_app.
  - case_decide as Hd; [subst|by rewrite app_nil_r]. unfold st_prompts, queueOf.
    do 2 match goal with H : om_get _ _ = None |- _ => rewrite H; clear H end. simpl. by rewrite app_nil_r.
  - match goal with H : ps_sessionId (st_lead st) = _ |- _ => rewrite H; clear H end.
    case_decide as Hd; [subst|done]. match goal with H : st_prompts _ s = _ |- _ => by rewrite H end.
  - erewrite queueOf_back by done. case_decide as Hd; [subst k|done].
    match goal with H : st_prompts _ s = _ |- _ => rewrite H end.
    match goal with H : promptOf (st_lead st) = _ |- _ => rewrite H end.
    rewrite flat_map_app. erewrite back_prompts by done. by rewrite filter_all.
  - match goal with H : own _ (batch ++ kept) |- _ => apply own_app in H as [Hb _] end.
    erewrite (leadOf_session _ lead) by done. case_decide as Hd; [subst k|done].
    match goal with H : queueOf _ _ = _ |- _ => rewrite H end.
    match goal with H : leadOf _ = _ |- _ => rewrite (leadOf_prompt _ _ H) end.
    unfold st_prompts. match goal with H : om_get _ (sc_steering s) = None |- _ => rewrite H end.
    by rewrite flat_map_app.
  - case_decide as Hd; [subst k|by rewrite app_nil_r]. unfold st_prompts, queueOf.
    match goal with H : 0%nat = 0%nat -> _ |- _ => specialize (H eq_refl); rewrite H end.
    match goal with H : om_get _ _ = None |- _ => rewrite H; clear H end. simpl. by rewrite app_nil_r.
  - case_decide as Hd; [subst k|by rewrite app_nil_r].
    match goal with H : (_ < 2)%nat -> _, H' : marked _ _ |- _ =>
      specialize (H ltac:(lia)); destruct H' as (_ & Hp & _); unfold queueOf; rewrite H end.
    simpl. by rewrite Hp, !app_nil_r.
Qed.

Lemma prims_line inc s s' k :
  prims 0 inc s s' -> sched_wf s -> all_ordinary s -> Forall (fun e => isOrdinary e = true) inc ->
  line k s' = line k s ++ prompts_of k inc /\ all_ordinary s'.
Proof.
  induction 1 as [s|inc1 inc2 s1 s2 s3 Hp _ IH]; intros Hwf Ho Hi.
  { split; [by rewrite app_nil_r | done]. }
  apply Forall_app in Hi as [Hi1 Hi2].
  destruct IH as [-> ?]; [by eapply prim_wf | by eapply prim_ordinary | done |].
  split; [|done]. rewrite (prim_line inc1 s1 s2 k Hp Hwf Ho), prompts_of_app. by rewrite app_assoc.
Qed.

(** ** Bounds

    A queue is a head of prompts whose steer was refused, then the rest; each
    part holds at most [PROMPT_QUEUE_CAP]. *)
Definition fresh (l : list PromptSubmission) := Forall (fun e => refusedFlag e = false) l.
Definition stale (l : list PromptSubmission) := Forall (fun e => refusedFlag e = true) l.

Definition bounded_at (q : list PromptSubmission) (st : option Steer) : Prop :=
  exists r n, q = r ++ n /\ stale r /\ fresh n /\
    (length r <= PROMPT_QUEUE_CAP)%nat /\ (length n <= PROMPT_QUEUE_CAP)%nat /\
    match st with
    | Some st => r = [] /\ fresh (st_batch st) /\ (length (st_batch st) <= PROMPT_QUEUE_CAP)%nat
    | None => True
    end.
Definition bounded (k : string) (s : Sched) : Prop :=
  bounded_at (queueOf k s) (om_get k (sc_steering s)).

Lemma bounded_sublist q q' st : sublist q' q -> bounded_at q st -> bounded_at q' st.
Proof.
  intros Hs (r & n & -> & Hr & Hn & Hlr & Hln & Hst).
  apply sublist_app_r in Hs as (r' & n' & -> & Hr' & Hn').
  pose proof (sublist_length _ _ Hr'). pose proof (sublist_length _ _ Hn').
  exists r', n'. split; [done|]. split; [by eapply sublist_Forall|]. split; [by eapply sublist_Forall|].
  split; [lia|]. split; [lia|]. destruct st; [|done]. destruct Hst as (-> & ? & ?).
  by apply sublist_nil_r in Hr'.
Qed.

Lemma bounded_no_steer q st : bounded_at q st -> bounded_at q None.
Proof. intros (r & n & ? & ? & ? & ? & ? & _). by exists r, n. Qed.

Definition same_flag (e e' : PromptSubmission) := ps_steerRefused e' = ps_steerRefused e.

Lemma same_flags q q' b :
  Forall2 same_flag q q' -> Forall (fun e => refusedFlag e = b) q -> Forall (fun e => refusedFlag e = b) q'.
Proof.
  induction 1 as [|e e' q q' Hf _ IH]; [done|]. inversion_clear 1.
  constructor; [|auto]. unfold refusedFlag, same_flag in *. by rewrite Hf.
Qed.

Lemma bounded_same q q' st : Forall2 same_flag q q' -> bounded_at q st -> bounded_at q' st.
Proof.
  intros Hm (r & n & -> & Hr & Hn & Hlr & Hln & Hst).
  apply Forall2_app_inv_l in Hm as (r' & n' & Hr' & Hn' & ->).
  pose proof (Forall2_length _ _ _ Hr'). pose proof (Forall2_length _ _ _ Hn').
  exists r', n'. split; [done|]. split; [by eapply same_flags|]. split; [by eapply same_flags|].
  split; [lia|]. split; [lia|]. destruct st; [|done]. destruct Hst as (-> & ? & ?).
  by inversion Hr'.
Qed.

Lemma bounded_marked q q' st : Forall2 marked q q' -> bounded_at q st -> bounded_at q' st.
Proof. intros H. apply bounded_same. eapply Forall2_impl; [done|]. by intros ? ? (_ & _ & _ & ?). Qed.

Lemma bounded_edit l1 e e' l2 st :
  same_flag e e' -> bounded_at (l1 ++ e :: l2) st -> bounded_at (l1 ++ e' :: l2) st.
Proof.
  intros H. assert (forall l, Forall2 same_flag l l) as Hr by (induction l; by constructor).
  apply bounded_same, Forall2_app; [done|]. by constructor.
Qed.

Lemma bounded_append q e e' st :
  (length q < PROMPT_QUEUE_CAP)%nat -> refusedFlag e = false -> marked e e' ->
  bounded_at q st -> bounded_at (q ++ [e']) st.
Proof.
  intros Hl He (_ & _ & _ & Hf) (r & n & -> & Hr & Hn & Hlr & Hln & Hst).
  rewrite length_app in Hl. exists r, (n ++ [e']). split; [by rewrite app_assoc|]. split; [done|].
  split. { apply Forall_app. split; [done|]. constructor; [|done]. unfold refusedFlag in *. by rewrite Hf. }
  rewrite length_app. simpl. split; [done|]. split; [lia|]. done.
Qed.

Lemma bounded_take batch kept lead n :
  leadOf batch = Some lead -> (forall e, head batch = Some e -> refusedFlag e = false) ->
  bounded_at (batch ++ kept) None -> bounded_at kept (Some (mk_steer n lead batch)).
Proof.
  intros Hlead Hhead (r & m & Heq & Hr & Hm & Hlr & Hlm & _).
  destruct batch as [|e batch]; [done|].
  assert (r = []) as ->.
  { destruct r as [|e' r]; [done|]. simplify_eq/=. specialize (Hhead _ eq_refl).
    inversion_clear Hr. congruence. }
  simpl in Heq. subst m. change (e :: batch ++ kept) with ((e :: batch) ++ kept) in *.
  apply Forall_app in Hm as [Hb Hk]. rewrite length_app in Hlm.
  exists [], kept. repeat split; [constructor | done | simpl; lia | simpl in *; lia | done | simpl in *; lia].
Qed.

Lemma bounded_give_back q st back :
  Forall2 (fun e e' => marked (with_steerRefused e) e') (List.filter isOrdinary (st_batch st)) back ->
  bounded_at q (Some st) -> bounded_at (back ++ q) None.
Proof.
  intros Hb (r & n & -> & _ & Hn & _ & Hln & -> & _ & Hlb). simpl.
  exists back, n. split; [done|]. split.
  { clear -Hb. induction Hb as [|e e' ? ? (_ & _ & _ & Hf) _ IH]; constructor; [|done].
    unfold refusedFlag. by rewrite Hf. }
  split; [done|]. split; [|done]. rewrite <- (Forall2_length _ _ _ Hb).
  pose proof (filter_length_le isOrdinary (st_batch st)). lia.
Qed.

Lemma bounded_one e st :
  match st with Some st => fresh (st_batch st) /\ (length (st_batch st) <= PROMPT_QUEUE_CAP)%nat | None => True end ->
  refusedFlag e = false -> bounded_at [e] st.
Proof.
  intros Hst He. exists [], [e]. unfold PROMPT_QUEUE_CAP in *.
  repeat split; [constructor | by repeat constructor | simpl; lia | simpl; lia |]. by destruct st.
Qed.

Lemma prim_bounded m inc s s' k :
  prim m inc s s' -> fresh inc -> bounded k s -> bounded k s'.
Proof.
  unfold bounded. intros Hp Hi Hb.
  destruct Hp; repeat match goal with H : fresh [_] |- _ => inversion_clear H end; held_of;
    repeat match goal with
    | H : sc_steering s' = _ |- _ => rewrite H
    | H : om_get _ (sc_queues s) = Some _ |- _ => apply queueOf_get in H
    end; autorewrite with dam; try done.
  - case_decide; [subst|done]. by eapply bounded_marked.
  - case_decide; [subst|done]. by eapply bounded_sublist.
  - case_decide as Hd; [|done]. rewrite Hd in *. eapply (bounded_edit _ e); [done|]. by rewrite <- H0.
  - case_decide as Hd; [|done]. rewrite Hd in *. by eapply bounded_append.
  - case_decide as Hd; [|done]. rewrite Hd in *. eapply bounded_take; [done | done |].
    match goal with H : queueOf _ s = _ |- _ => rewrite <- H end.
    match goal with H : om_get _ (sc_steering s) = None |- _ => by rewrite <- H end.
  - case_decide as Hd; [|done]. rewrite Hd in *. unfold queueOf. rewrite H. simpl.
    exists [], []. unfold PROMPT_QUEUE_CAP. repeat split; try constructor; simpl; auto; lia.
  - case_decide as Hd; [|done]. by eapply bounded_no_steer.
  - erewrite queueOf_back by done. case_decide as Hd; [|done]. rewrite Hd in *.
    eapply bounded_give_back; [done|]. match goal with H : om_get _ (sc_steering s) = _ |- _ => by rewrite <- H end.
  - case_decide; [|done]. exists [], []. unfold PROMPT_QUEUE_CAP. repeat split; try constructor; simpl; lia.
  - case_decide as Hd; [|done]. rewrite Hd in *. eapply bounded_sublist; [|done].
    match goal with H : queueOf _ s = _ |- _ => rewrite H end. by apply sublist_inserts_l.
  - case_decide as Hd; [|done]. rewrite Hd in *. destruct H0 as (_ & _ & _ & Hf).
    apply bounded_one; [|unfold refusedFlag in *; by rewrite Hf].
    destruct Hb as (r & n & _ & _ & _ & _ & _ & Hst).
    destruct (om_get _ (sc_steering s)); [|done]. by destruct Hst.
Qed.

Lemma prims_bounded m inc s s' k :
  prims m inc s s' -> fresh inc -> bounded k s -> bounded k s'.
Proof.
  induction 1; intros Hi Hb; [done|]. apply Forall_app in Hi as [? ?].
  eauto using prim_bounded.
Qed.

Lemma bounded_length k s : bounded k s -> (length (queueOf k s) <= 2 * PROMPT_QUEUE_CAP)%nat.
Proof. intros (r & n & -> & _ & _ & ? & ? & _). rewrite length_app. lia. Qed.
