(* ===== verification/SchedulerSafety.v ===== *)
(** Theorems of the prompt scheduler ([PromptScheduler]): each operation is a
    sequence of the steps of [SchedulerSteps], so it conserves prompts and keeps
    them within bounds, and the batch a snapshot announces is the one that
    starts. *)
From stdpp Require Import base strings list.
From Stdlib Require Import ZArith Lia.
From S2P Require Import Prelude PromptScheduler SchedulerSteps.

#[local] Arguments PROMPT_QUEUE_CAP : simpl never.
#[local] Arguments Nat.leb : simpl never.

(** ** Steps that only talk *)
Definition silent (s s' : Sched) : Prop :=
  sc_queues s' = sc_queues s /\ sc_steering s' = sc_steering s /\
  exists evs, sc_log s' = sc_log s ++ evs /\ Forall is_quiet evs.

Lemma silent_refl s : silent s s.
Proof. split; [done|]. split; [done|]. exists []. by rewrite app_nil_r. Qed.
Lemma silent_trans s1 s2 s3 : silent s1 s2 -> silent s2 s3 -> silent s1 s3.
Proof.
  intros (Hq1 & Hs1 & e1 & Hl1 & Hf1) (Hq2 & Hs2 & e2 & Hl2 & Hf2).
  split; [congruence|]. split; [congruence|]. exists (e1 ++ e2).
  rewrite Hl2, Hl1, app_assoc. split; [done|]. by apply Forall_app.
Qed.
Lemma silent_foldl {A} (f : Sched -> A -> Sched) l s :
  (forall s a, silent s (f s a)) -> silent s (foldl f s l).
Proof.
  intros Hf. revert s. induction l as [|a l IH]; intros s; simpl; [apply silent_refl|].
  eapply silent_trans; [apply Hf | apply IH].
Qed.
Lemma silent_tell ev s : is_quiet ev -> silent s (tell ev s).
Proof. intros. split; [done|]. split; [done|]. exists [ev]. by repeat constructor. Qed.
Lemma silent_same s s' :
  sc_queues s' = sc_queues s -> sc_steering s' = sc_steering s -> sc_log s' = sc_log s -> silent s s'.
Proof. intros ? ? Hl. split; [done|]. split; [done|]. exists []. by rewrite app_nil_r. Qed.

Lemma silent_prims m s s' : silent s s' -> prims m [] s s'.
Proof. intros (? & ? & evs & ? & ?). apply prims_one. by eapply prim_quiet. Qed.

Create HintDb sched.
#[export] Hint Resolve silent_refl silent_prims prims_nil : sched.

(** Solves [silent s (f s)] once [f] is unfolded. *)
Ltac silent :=
  repeat (case_match; simpl);
  first [ by apply silent_refl
        | by apply silent_tell
        | by apply silent_same
        | idtac ].

Section Functions.
Context (d : Deps).

Lemma sendToChannel_silent c m s : silent s (sendToChannel d c m s).
Proof. unfold sendToChannel. silent. Qed.
Lemma refuse_silent m s e : silent s (refuse d m s e).
Proof. unfold refuse. case_match; [apply sendToChannel_silent | apply silent_refl]. Qed.
Lemma refuseSettings_silent k m s : silent s (refuseSettings d k m s).
Proof.
  unfold refuseSettings. eapply silent_trans; [|by apply silent_foldl, refuse_silent].
  by apply silent_same.
Qed.
Lemma dropAbandonedSettings_silent k s : silent s (dropAbandonedSettings d k s).
Proof. unfold dropAbandonedSettings. silent. Qed.
Lemma sendSetting_silent e s : silent s (fst (sendSetting d e s)).
Proof.
  unfold sendSetting. destruct (dp_sendToAgent _ _ _); simpl; [|by apply silent_tell].
  eapply (silent_trans _ (tell (EvToAgent (ps_frame e) true) s)); [by apply silent_tell | by apply silent_same].
Qed.
Lemma flushSettings_silent k s : silent s (flushSettings d k s).
Proof.
  unfold flushSettings. eapply silent_trans; [apply (dropAbandonedSettings_silent k)|].
  set (s1 := dropAbandonedSettings d k s). clearbody s1.
  destruct (om_has k _); [apply silent_refl|].
  destruct (om_get k (sc_pendingSettings s1)) as [[|h r]|]; try apply silent_refl.
  destruct (_ || _); [apply silent_refl|].
  pose proof (sendSetting_silent h s1) as Hs. destruct (sendSetting d h s1) as [s2 []]; simpl in Hs; [|done].
  eapply silent_trans; [done | by apply silent_same].
Qed.
Lemma notifyAccepted_silent e b1 b2 s : silent s (notifyAccepted d e b1 b2 s).
Proof. unfold notifyAccepted. repeat case_match; auto with sched; apply sendToChannel_silent. Qed.
Lemma joinTurn_silent k s e : silent s (joinTurn d k s e).
Proof.
  unfold joinTurn. destruct (ps_steerOnly e).
  - eapply (silent_trans _ (tell (EvSteered e _) s)); by apply silent_tell.
  - eapply silent_trans; [apply notifyAccepted_silent|].
    eapply silent_trans; [|by apply silent_tell]. case_match; [by apply silent_same | apply silent_refl].
Qed.
Lemma joinTurns_silent k s l : silent s (foldl (joinTurn d k) s l).
Proof. apply silent_foldl, joinTurn_silent. Qed.

(** ** Batches *)
Lemma takeFollowers_app into s q b r : takeFollowers d into s q = (b, r) -> q = b ++ r.
Proof.
  revert b r. induction q as [|e q IH]; intros b r; simpl; [by intros [= <- <-]|].
  destruct (_ && _); [|by intros [= <- <-]].
  destruct (takeFollowers d into s q) as [b' r'] eqn:E. intros [= <- <-]. simpl. by erewrite IH.
Qed.

Lemma takeBatch_app into s e q b r :
  takeBatch d into s (e :: q) = (b, r) -> e :: q = b ++ r /\ head b = Some e.
Proof.
  simpl. destruct (is_true_ _); [|by intros [= <- <-]].
  destruct (takeFollowers d into s q) as [b' r'] eqn:E. intros [= <- <-].
  simpl. by erewrite (takeFollowers_app into s q).
Qed.

Lemma leadOf_head e b : head b = Some e -> exists lead, leadOf b = Some lead.
Proof. destruct b as [|? [|]]; [done | |]; eauto. Qed.

(** ** Answers to steer-only entries *)
Lemma returned_answers j a l :
  a <> sa_injected -> returned_all j (map (fun e => EvAnswer e a) l) = prompts_of j l.
Proof.
  intros Ha. unfold returned_all, prompts_of. induction l as [|e l IH]; simpl; [done|].
  rewrite IH. by destruct a.
Qed.
Lemma delivered_answers j a l : delivered_all j (map (fun e => EvAnswer e a) l) = [].
Proof. induction l as [|e l IH]; [done|]. exact IH. Qed.

Lemma stranded_not_ordinary k s q :
  Forall (fun e => isOrdinary e = false) (List.filter (isStranded k s) q).
Proof.
  induction q as [|e q IH]; simpl; [constructor|]. unfold isStranded at 1.
  destruct (ps_steerOnly e) eqn:E; [|done]. destruct (negb _); [|done].
  constructor; [|done]. unfold isOrdinary. by rewrite E.
Qed.

Lemma filter_negb_all {A} (f : A -> bool) l : Forall (fun x => f x = false) l -> List.filter (fun x => negb (f x)) l = l.
Proof. induction 1 as [|x l Hx _ IH]; simpl; [done|]. by rewrite Hx, IH. Qed.

Lemma sublist_filter {A} (f : A -> bool) l : sublist (List.filter f l) l.
Proof. induction l as [|x l IH]; simpl; [constructor|]. destruct (f x); by constructor. Qed.

Lemma answerStranded_prims m k s : prims m [] s (answerStrandedSteers k s).
Proof.
  unfold answerStrandedSteers. destruct (om_get k (sc_queues s)) as [q|] eqn:E; [|auto with sched].
  pose proof (stranded_not_ordinary k s q) as Hno.
  destruct (List.filter (isStranded k s) q) as [|g gone] eqn:Hg; [auto with sched|].
  rewrite <- Hg in *. clear Hg g gone. set (a := strandedAnswer _ _).
  apply prims_one. eapply (prim_unqueue _ _ _ k q (List.filter (isStranded k s) q) _
    (EvQueueChanged k :: map (fun e => EvAnswer e a) (List.filter (isStranded k s) q)));
    [done | apply filter_split_perm | apply sublist_filter | done | done | done | | |].
  - simpl. by rewrite (filter_negb_all isOrdinary), <- app_assoc by done.
  - intros j. rewrite delivered_cons. apply delivered_answers.
  - intros j. rewrite returned_cons, returned_answers; [done|]. subst a. unfold strandedAnswer. by case_match.
Qed.

(** ** The composed functions *)
Lemma prims_silent_r m inc s s1 s2 : prims m inc s s1 -> silent s1 s2 -> prims m inc s s2.
Proof. intros. eapply prims_trans; [done | by apply silent_prims]. Qed.
Lemma prims_silent_l m inc s s1 s2 : silent s s1 -> prims m inc s1 s2 -> prims m inc s s2.
Proof. intros. eapply prims_then; [by apply silent_prims | done]. Qed.

Lemma prims_keep_wf m inc s s' : sched_wf s -> prims m inc s s' -> sched_wf s'.
Proof. eauto using prims_wf. Qed.

Lemma canSteerNow_true e s :
  canSteerNow d e s = true ->
  refusedFlag e = false /\ om_get (ps_sessionId e) (sc_steering s) = None /\
  (exists t, om_get (ps_sessionId e) (sc_activeTurns s) = Some t) /\
  om_has (ps_sessionId e) (sc_pendingSettings s) = false /\
  om_has (ps_sessionId e) (sc_settingsInFlight s) = false /\ dp_steer d = true.
Proof.
  unfold canSteerNow, om_has. rewrite !andb_true_iff, !negb_true_iff. intros H. destruct_and!.
  split; [done|]. split; [by destruct (om_get _ (sc_steering s))|].
  split; [destruct (om_get _ (sc_activeTurns s)); [by eauto|done]|]. done.
Qed.

(** A batch taken off the head of [k]'s queue becomes the steer in flight. *)
Lemma beginSteer_prims m k s e q b r :
  sched_wf s -> om_get k (sc_queues s) = Some (e :: q) -> canSteerNow d e s = true ->
  takeBatch d into_steer s (e :: q) = (b, r) ->
  prims m [] s (beginSteer d b (tell (EvQueueChanged k) (set_queues (set_or_delete k r (sc_queues s)) s))).
Proof.
  intros Hwf Hg Hc Hb. apply canSteerNow_true in Hc as (Hr & Hst & _).
  destruct (takeBatch_app into_steer s e q b r Hb) as [Hq Hh].
  destruct (leadOf_head e b Hh) as [lead Hl].
  destruct (wf_queues s Hwf k _ Hg) as [_ Ho]. rewrite Hq in Ho, Hg. apply own_app in Ho as [Hob _].
  assert (ps_sessionId e = k) as He by (destruct b; by inversion Hob; simplify_eq/=).
  rewrite He in Hst. unfold beginSteer. rewrite Hl.
  pose proof (leadOf_session _ _ k Hl Hob) as Hk.
  apply prims_one. eapply (prim_begin _ _ _ k b r lead (EvQueueChanged k ::
    if dp_steer d then [EvSteer (sc_nextTicket s) lead b] else []));
    [done | done | done | | | | |]; try (by destruct (dp_steer d)).
  - intros e'. rewrite Hh. by intros [= <-].
  - rewrite Hk. by destruct (dp_steer d).
  - simpl. destruct (dp_steer d); simpl; [by rewrite <- app_assoc | done].
  - destruct (dp_steer d); by repeat constructor.
Qed.

Lemma steerFromQueue_prims m k s : sched_wf s -> prims m [] s (steerFromQueue d k s).
Proof.
  intros Hwf. unfold steerFromQueue.
  assert (prims m [] s (answerStrandedSteers k (clearSteerTimer k s))) as H.
  { eapply (prims_silent_l _ _ _ (clearSteerTimer k s)); [by apply silent_same | apply answerStranded_prims]. }
  revert H. generalize (answerStrandedSteers k (clearSteerTimer k s)). intros s1 H.
  pose proof (prims_wf _ _ _ _ H Hwf) as Hwf1.
  destruct (om_get k (sc_queues s1)) as [[|e q]|] eqn:E; [done| |done].
  destruct (canSteerNow d e s1) eqn:Ec.
  - destruct (takeBatch d into_steer s1 (e :: q)) as [b r] eqn:Eb.
    eapply prims_trans; [exact H|]. by eapply beginSteer_prims.
  - destruct (ps_queuedAt e); [|done]. case_match; [done|].
    eapply prims_silent_r; [done | by apply silent_same].
Qed.

(** [start] sends the frame; taken, it is a turn. *)
Lemma start_spec e s :
  let sent := dp_sendToAgent d (sc_log s) (ps_frame e) in
  snd (start d e s) = sent /\
  sc_queues (fst (start d e s)) = sc_queues s /\
  sc_steering (fst (start d e s)) = sc_steering s /\
  exists evs, Forall is_quiet evs /\
    sc_log (fst (start d e s)) =
      sc_log s ++ [EvToAgent (ps_frame e) sent] ++ (if sent then [EvTurnStarted e] else []) ++ evs.
Proof.
  unfold start. simpl. destruct (dp_sendToAgent d (sc_log s) (ps_frame e)); simpl.
  - destruct (ps_promptId e); simpl; unfold sendToChannel; simpl; [case_match; simpl|].
    all: repeat split; eexists; (split; [|by rewrite <- ?app_assoc; simpl; rewrite ?app_nil_r]);
      repeat constructor.
  - repeat split. exists []. split; [constructor|]. done.
Qed.

Lemma nothingAhead_true k s :
  nothingAhead k s = true ->
  om_get k (sc_activeTurns s) = None /\ om_get k (sc_steering s) = None /\
  om_has k (sc_pendingSettings s) = false /\ om_has k (sc_settingsInFlight s) = false.
Proof.
  unfold nothingAhead, om_has. rewrite !andb_true_iff, !negb_true_iff. intros H. destruct_and!.
  split; [by destruct (om_get k (sc_activeTurns s))|].
  split; [by destruct (om_get k (sc_steering s))|]. done.
Qed.

Lemma start_batch_prims m k s b r lead :
  sched_wf s -> om_get k (sc_queues s) = Some (b ++ r) -> om_get k (sc_steering s) = None ->
  leadOf b = Some lead -> snd (start d lead s) = true ->
  prims m [] s (set_queues (set_or_delete k r (sc_queues (fst (start d lead s)))) (fst (start d lead s))).
Proof.
  intros Hwf Hg Hst Hl Hsent.
  pose proof (start_spec lead s) as (Hs & Hq & Hste & evs & Hev & Hlog). rewrite Hs in Hsent.
  rewrite Hsent in Hlog. apply prims_one.
  eapply (prim_start _ _ _ k b r lead [EvToAgent (ps_frame lead) true] evs); try done.
  - simpl. by rewrite Hq.
  - by repeat constructor.
Qed.

Lemma maybeStartNext_prims m k s : sched_wf s -> prims m [] s (maybeStartNext d k s).
Proof.
  intros Hwf. unfold maybeStartNext.
  pose proof (silent_prims m _ _ (flushSettings_silent k s)) as H1.
  revert H1. generalize (flushSettings d k s). intros s1 H1.
  destruct (nothingAhead k s1) eqn:Ena; [|done]. simpl.
  pose proof (prims_trans _ _ _ _ _ H1 (answerStranded_prims m k s1)) as H2.
  assert (om_get k (sc_steering (answerStrandedSteers k s1)) = None) as Hst.
  { apply nothingAhead_true in Ena as (_ & Hst & _). rewrite <- Hst.
    unfold answerStrandedSteers. repeat case_match; done. }
  revert H2 Hst. generalize (answerStrandedSteers k s1). intros s2 H2 Hst. clear H1 Ena s1.
  pose proof (prims_wf _ _ _ _ H2 Hwf) as Hwf2.
  destruct (om_get k (sc_queues s2)) as [[|e q]|] eqn:E; [done| |done].
  destruct (dp_canStart d (sc_log s2) e); [|done]. simpl negb. cbv iota.
  destruct (takeBatch d into_start s2 (e :: q)) as [b r] eqn:Eb.
  destruct (takeBatch_app _ s2 e q b r Eb) as [Hq Hh].
  destruct (leadOf_head e b Hh) as [lead Hl]. rewrite Hl. rewrite Hq in E.
  pose proof (start_batch_prims m k s2 b r lead Hwf2 E Hst Hl) as H3.
  pose proof (start_spec lead s2) as (_ & Hq4 & Hst4 & evs & Hev & Hlog).
  destruct (start d lead s2) as [s3 []] eqn:Es; simpl in *.
  - specialize (H3 eq_refl). pose proof (prims_trans _ _ _ _ _ H2 H3) as H5.
    eapply prims_trans; [exact H5|].
    pose proof (joinTurns_silent k (tell (EvQueueChanged k) (set_queues (set_or_delete k r (sc_queues s3)) s3)) (tail b)) as Hj.
    assert (silent (set_queues (set_or_delete k r (sc_queues s3)) s3)
              (tell (EvQueueChanged k) (set_queues (set_or_delete k r (sc_queues s3)) s3))) as Ht
      by (by apply silent_tell).
    pose proof (silent_prims m _ _ (silent_trans _ _ _ Ht Hj)) as H6.
    eapply prims_trans; [exact H6|]. apply steerFromQueue_prims.
    eapply prims_wf; [exact H6|]. by eapply prims_wf.
  - eapply prims_silent_r; [exact H2|]. split; [done|]. split; [done|].
    eexists. split; [exact Hlog|]. destruct (dp_sendToAgent _ _ _) eqn:Ed; [|by repeat constructor].
    exfalso. pose proof (start_spec lead s2) as (Hs & _). rewrite Es, Ed in Hs. done.
Qed.

Lemma om_set_set {V} k (v1 v2 : V) (m : list (string * V)) : om_set k v2 (om_set k v1 m) = om_set k v2 m.
Proof. induction m as [|[k' v'] m IH]; simpl; repeat (case_decide; simpl); congruence. Qed.

Definition given_back (e : PromptSubmission) : PromptSubmission :=
  with_queuedAt (dp_now d) (with_steerRefused e).

Lemma enqueue_heads k l s :
  own k l ->
  let s' := foldl (fun s e => enqueue d (with_steerRefused e) true s) s (rev l) in
  sc_queues s' = match map given_back l with
                 | [] => sc_queues s
                 | back => om_set k (back ++ queueOf k s) (sc_queues s)
                 end /\
  sc_steering s' = sc_steering s /\
  exists evs, sc_log s' = sc_log s ++ evs /\ Forall is_quiet evs.
Proof.
  induction l as [|e l IH]; intros Ho; simpl.
  { split; [done|]. split; [done|]. exists []. by rewrite app_nil_r. }
  inversion Ho as [|? ? He Hol]; subst. rewrite foldl_app. simpl.
  destruct (IH Hol) as (Hq & Hs & evs & Hl & Hf). clear IH.
  set (s1 := foldl _ s (rev l)) in *. unfold enqueue. simpl.
  split; [|split; [done|]].
  - unfold queueOf. rewrite Hq. destruct (map given_back l) eqn:El; simpl.
    + by destruct l.
    + rewrite om_set_set. autorewrite with dam. rewrite decide_True by done. done.
  - exists (evs ++ [EvQueueChanged (ps_sessionId e)]). rewrite Hl, app_assoc. split; [done|].
    apply Forall_app. split; [done|]. by repeat constructor.
Qed.

(** A refused steer: its ordinary prompts are back at the head. *)
Lemma settled_back_prims m k st s :
  sched_wf s -> om_get k (sc_steering s) = Some st ->
  let s0 := tell (EvSettled (st_lead st) so_refused) (set_steering (om_delete k (sc_steering s)) s) in
  let s1 := tell_all (map (fun e => EvAnswer e sa_noRunningTurn)
                        (List.filter (fun e => negb (isOrdinary e)) (st_batch st))) s0 in
  prims m [] s (foldl (fun s e => enqueue d (with_steerRefused e) true s) s1
                  (rev (List.filter isOrdinary (st_batch st)))).
Proof.
  intros Hwf E s0 s1. destruct (wf_steering s Hwf k st E) as [_ Ho].
  assert (own k (List.filter isOrdinary (st_batch st))) as Hoo by (by apply Forall_List_filter).
  pose proof (enqueue_heads k _ s1 Hoo) as (Hq & Hs & evs & Hl & Hf). simpl in Hq, Hs, Hl.
  set (s2 := foldl _ s1 _) in *.
  apply prims_one. eapply (prim_refused _ _ _ k st (map given_back (List.filter isOrdinary (st_batch st)))
    _ (EvSettled (st_lead st) so_refused ::
       map (fun e => EvAnswer e sa_noRunningTurn)
         (List.filter (fun e => negb (isOrdinary e)) (st_batch st)) ++ evs));
    [done | | reflexivity | | done | | |].
  - clear. generalize (List.filter isOrdinary (st_batch st)). intros l.
    induction l; simpl; constructor; [by repeat split | done].
  - rewrite Hq. by destruct (map given_back _).
  - rewrite Hl. simpl. by rewrite <- !app_assoc.
  - intros j. rewrite delivered_cons, delivered_app, delivered_answers. by apply quiet_delivered.
  - intros j. rewrite returned_cons, returned_app, returned_answers, (quiet_returned j evs) by done.
    by rewrite app_nil_r.
Qed.

Lemma settled_back_wf k st s :
  sched_wf s -> om_get k (sc_steering s) = Some st ->
  let s0 := tell (EvSettled (st_lead st) so_refused) (set_steering (om_delete k (sc_steering s)) s) in
  let s1 := tell_all (map (fun e => EvAnswer e sa_noRunningTurn)
                        (List.filter (fun e => negb (isOrdinary e)) (st_batch st))) s0 in
  sched_wf (foldl (fun s e => enqueue d (with_steerRefused e) true s) s1
              (rev (List.filter isOrdinary (st_batch st)))).
Proof. intros Hwf E. eapply (prims_wf 0); [by apply settled_back_prims | done]. Qed.

Lemma settleSteer_prims m k t o s : sched_wf s -> prims m [] s (settleSteer d k t o s).
Proof.
  intros Hwf. unfold settleSteer. destruct (om_get k (sc_steering s)) as [st|] eqn:E; [|auto with sched].
  destruct (st_ticket st =? t)%Z; [simpl|simpl; auto with sched]. destruct o.
  - set (s1 := tell _ _).
    assert (prims m [] s (foldl (joinTurn d k) s1 (st_batch st))) as H.
    { eapply prims_silent_r; [|apply joinTurns_silent].
      apply prims_one. by eapply (prim_injected _ _ _ k st []). }
    pose proof (prims_wf _ _ _ _ H Hwf).
    destruct (om_has k _); simpl; (eapply prims_trans; [exact H|]);
      [by apply steerFromQueue_prims | by apply maybeStartNext_prims].
  - unfold answerSteerOnly. simpl.
    pose proof (settled_back_prims m k st s Hwf E) as H. cbv zeta in H.
    set (s2 := foldl _ _ (rev _)) in *.
    assert (prims m [] s (foldl (fun s e => notifyAccepted d e true false s) s2
                            (List.filter isOrdinary (st_batch st)))) as H2.
    { eapply prims_silent_r; [exact H|]. apply silent_foldl. intros. apply notifyAccepted_silent. }
    eapply prims_trans; [exact H2|]. apply maybeStartNext_prims. by eapply prims_wf.
Qed.

Lemma resolveSteer_prims m k o s : sched_wf s -> prims m [] s (resolveSteer d k o s).
Proof. intros. unfold resolveSteer. case_match; [by apply settleSteer_prims | auto with sched]. Qed.

(** A prompt going to the tail of its queue. *)
Lemma enqueue_prims m e s :
  (length (queueOf (ps_sessionId e) s) < PROMPT_QUEUE_CAP)%nat -> prims m [e] s (enqueue d e false s).
Proof.
  intros Hl. apply prims_one.
  eapply (prim_append _ _ _ e (with_queuedAt (dp_now d) e) [EvQueueChanged (ps_sessionId e)]);
    try done; by repeat constructor.
Qed.

Lemma queueOf_nil k s : sched_wf s -> length (queueOf k s) = 0%nat -> om_get k (sc_queues s) = None.
Proof.
  intros Hwf Hl. unfold queueOf in Hl. destruct (om_get k (sc_queues s)) as [q|] eqn:E; [|done].
  apply (wf_queues s Hwf) in E as [Hne _]. by destruct q.
Qed.

Lemma begin_new_prims m e s :
  sched_wf s -> length (queueOf (ps_sessionId e) s) = 0%nat -> canSteerNow d e s = true ->
  prims m [e] s (beginSteer d [e] s).
Proof.
  intros Hwf Hl Hc. apply queueOf_nil in Hl; [|done]. apply canSteerNow_true in Hc as (Hr & Hst & _).
  apply prims_one. unfold beginSteer. simpl.
  eapply (prim_begin_new _ _ _ e (if dp_steer d then [EvSteer (sc_nextTicket s) e [e]] else []));
    destruct (dp_steer d); simpl; rewrite ?app_nil_r; try done; by repeat constructor.
Qed.

Lemma reject_answer_prims m e a s :
  (1 <= m)%nat -> a <> sa_injected -> prims m [e] s (tell (EvAnswer e a) s).
Proof.
  intros Hm Ha. apply prims_one. eapply (prim_reject _ _ _ e [EvAnswer e a]); try done.
  intros j. rewrite returned_cons. destruct a; simpl; by rewrite ?app_nil_r.
Qed.

Lemma steer_if_first_prims m inc k e s s1 :
  sched_wf s -> prims m inc s s1 ->
  prims m inc s (match queueOf k s1 with
                 | first :: _ => if (ps_tag first =? ps_tag e)%Z then steerFromQueue d k s1 else s1
                 | [] => s1
                 end).
Proof.
  intros Hwf H. destruct (queueOf k s1); [done|]. case_match; [|done].
  eapply prims_trans; [exact H|]. apply steerFromQueue_prims. by eapply prims_wf.
Qed.

Lemma submitSteerOnly_prims e target s :
  sched_wf s -> prims 1 [e] s (fst (submitSteerOnly d e target s)).
Proof.
  intros Hwf. unfold submitSteerOnly. destruct (targetLive _ _ _); simpl.
  2: { apply reject_answer_prims; [lia|]. unfold strandedAnswer. by case_match. }
  destruct (_ && _) eqn:Ec; simpl.
  { apply andb_true_iff in Ec as [El Ec]. apply Nat.eqb_eq in El. by apply begin_new_prims. }
  destruct (PROMPT_QUEUE_CAP <=? length (queueOf (ps_sessionId e) s))%nat eqn:El; simpl.
  { by apply reject_answer_prims; [lia|]. }
  apply Nat.leb_gt in El. apply steer_if_first_prims; [done|]. by apply enqueue_prims.
Qed.

(** [submit]'s test for a prompt that has to wait. *)
Definition must_wait (e : PromptSubmission) (s : Sched) : bool :=
  let k := ps_sessionId e in
  om_has k (sc_activeTurns s) || om_has k (sc_steering s) || om_has k (sc_pendingSettings s)
  || om_has k (sc_settingsInFlight s) || negb (dp_canStart d (sc_log s) e).

(** The mode of a submission: 1 when it is a steer or refused, or starts
    ahead of waiting prompts; 2 when its failed start replaces them. *)
Definition submit_mode (e : PromptSubmission) (s : Sched) : nat :=
  if negb (isOrdinary e) then 1
  else if (length (queueOf (ps_sessionId e) s) =? 0)%nat then 0
  else if must_wait e s then
    if (PROMPT_QUEUE_CAP <=? length (queueOf (ps_sessionId e) s))%nat then 1 else 0
  else match snd (submit d e s) with pf_queued => 2 | _ => 1 end.

Lemma start_new_prims m e s s0 :
  silent s0 s -> (m = 0%nat -> om_get (ps_sessionId e) (sc_queues s0) = None) ->
  om_get (ps_sessionId e) (sc_steering s0) = None ->
  snd (start d e s) = true -> prims m [e] s0 (fst (start d e s)).
Proof.
  intros (Hq0 & Hs0 & evs0 & Hl0 & Hf0) Hq Hst Hsent.
  pose proof (start_spec e s) as (Hs & Hqs & Hste & evs & Hev & Hlog). rewrite Hs in Hsent.
  rewrite Hsent in Hlog. apply prims_one.
  eapply (prim_start_new _ _ _ e (evs0 ++ [EvToAgent (ps_frame e) true]) evs); try done.
  - by rewrite Hqs.
  - by rewrite Hste.
  - rewrite Hlog, Hl0. by rewrite <- !app_assoc.
  - apply Forall_app. split; [done|]. by repeat constructor.
Qed.

Lemma must_wait_false e s :
  must_wait e s = false ->
  om_get (ps_sessionId e) (sc_activeTurns s) = None /\ om_get (ps_sessionId e) (sc_steering s) = None /\
  om_has (ps_sessionId e) (sc_pendingSettings s) = false /\
  om_has (ps_sessionId e) (sc_settingsInFlight s) = false /\ dp_canStart d (sc_log s) e = true.
Proof.
  unfold must_wait, om_has. rewrite !orb_false_iff, negb_false_iff. intros H. destruct_and!.
  split; [by destruct (om_get _ (sc_activeTurns s))|].
  split; [by destruct (om_get _ (sc_steering s))|]. done.
Qed.

(** What [submit] does with a prompt that starts at once, or fails to. *)
Lemma submit_start_prims m e s :
  (m = 0%nat -> om_get (ps_sessionId e) (sc_queues s) = None) ->
  must_wait e s = false ->
  (snd (start d e (notifyAccepted d e false false s)) = false -> (m < 2)%nat ->
   om_get (ps_sessionId e) (sc_queues s) = None) ->
  prims m [e] s
    (fst match start d e (notifyAccepted d e false false s) with
         | (s, true) => (s, pf_started)
         | (s, false) =>
             (tell (EvQueueChanged (ps_sessionId e))
                (set_queues (om_set (ps_sessionId e) [with_queuedAt (dp_now d) e] (sc_queues s)) s),
              pf_queued)
         end).
Proof.
  intros Hm Hw Hrep. apply must_wait_false in Hw as (_ & Hst & _).
  pose proof (notifyAccepted_silent e false false s) as Hsil.
  set (s1 := notifyAccepted d e false false s) in *.
  pose proof (start_new_prims m e s1 s Hsil Hm Hst) as H.
  pose proof (start_spec e s1) as (Hs & Hqs & Hste & evs & Hev & Hlog).
  destruct (start d e s1) as [s2 []]; simpl in *; [by apply H|].
  rewrite <- Hs in Hlog. destruct Hsil as (Hq0 & Hs0 & evs0 & Hl0 & Hf0). apply prims_one.
  eapply (prim_replace _ _ _ e (with_queuedAt (dp_now d) e)
            (evs0 ++ ([EvToAgent (ps_frame e) false] ++ [] ++ evs) ++ [EvQueueChanged (ps_sessionId e)]));
    try done; simpl.
  - by apply Hrep.
  - by rewrite Hqs, Hq0.
  - by rewrite Hste.
  - rewrite Hlog, Hl0. by rewrite <- !app_assoc.
  - rewrite Forall_app, Forall_cons, Forall_app. by repeat constructor.
Qed.

Lemma submit_prims e s : sched_wf s -> prims (submit_mode e s) [e] s (fst (submit d e s)).
Proof.
  intros Hwf. unfold submit_mode, submit, isOrdinary.
  destruct (ps_steerOnly e) as [target|]; simpl; [by apply submitSteerOnly_prims|].
  fold (must_wait e s). set (k := ps_sessionId e).
  destruct (length (queueOf k s) =? 0)%nat eqn:El; simpl.
  - apply Nat.eqb_eq in El. destruct (canSteerNow d e s) eqn:Ec; simpl; [by apply begin_new_prims|].
    destruct (must_wait e s) eqn:Ew; simpl.
    + rewrite El. simpl. apply steer_if_first_prims; [done|].
      eapply prims_silent_r; [|apply notifyAccepted_silent]. apply enqueue_prims.
      fold k. rewrite El. unfold PROMPT_QUEUE_CAP. lia.
    + apply queueOf_nil in El; [|done]. by apply submit_start_prims.
  - destruct (must_wait e s) eqn:Ew; simpl.
    + destruct (PROMPT_QUEUE_CAP <=? length (queueOf k s))%nat eqn:Ecap; simpl.
      * eapply prims_silent_r; [|apply refuse_silent]. apply prims_one.
        eapply (prim_reject _ _ _ e [EvRefused e]); try done.
        intros j. rewrite returned_cons. simpl. by rewrite app_nil_r.
      * apply Nat.leb_gt in Ecap. apply steer_if_first_prims; [done|].
        eapply prims_silent_r; [|apply notifyAccepted_silent]. by apply enqueue_prims.
    + apply submit_start_prims; [by destruct (start _ _ _) as [? []] | done |].
      intros Hs Hlt. destruct (start _ _ _) as [? []]; simpl in *; [done|lia].
Qed.

(** ** The other operations *)
Lemma om_delete_absent {V} k (m : list (string * V)) : om_get k m = None -> om_delete k m = m.
Proof.
  induction m as [|[k' v'] m IH]; simpl; [done|]. case_decide; [done|]. intros Hk. by rewrite IH.
Qed.

Lemma submitSetting_silent e s : silent s (fst (submitSetting d e s)).
Proof.
  unfold submitSetting. destruct (_ && _); [|by apply silent_same].
  pose proof (sendSetting_silent e s) as H. destruct (sendSetting d e s) as [s1 []]; [done|]. simpl in *.
  eapply silent_trans; [exact H | by apply silent_same].
Qed.

Lemma submitSettings_prims m es first s : sched_wf s -> prims m [] s (submitSettings d es first s).
Proof.
  intros Hwf. unfold submitSettings. destruct es as [|e es]; [auto with sched|].
  set (s1 := set_pendingSettings _ s).
  assert (prims m [] s s1) as H by (by apply silent_prims, silent_same).
  eapply prims_trans; [exact H|]. apply maybeStartNext_prims. by eapply prims_wf.
Qed.

Lemma dropQueuedSettings_silent k p s : silent s (fst (dropQueuedSettings k p s)).
Proof. unfold dropQueuedSettings. destruct (om_get k _); [|apply silent_refl].
  case_match; [apply silent_refl | by apply silent_same].
Qed.

Lemma onSettingResponse_prims m k id s : sched_wf s -> prims m [] s (onSettingResponse d k id s).
Proof.
  intros Hwf. unfold onSettingResponse.
  destruct (om_get k (sc_settingsInFlight s)); [|auto with sched].
  destruct (om_has id _); [|auto with sched].
  set (s1 := set_settingsInFlight _ s).
  assert (prims m [] s s1) as H by (by apply silent_prims, silent_same).
  eapply prims_trans; [exact H|]. apply maybeStartNext_prims. by eapply prims_wf.
Qed.

Lemma onPromptResponse_prims m k id s : sched_wf s -> prims m [] s (fst (onPromptResponse d k id s)).
Proof.
  intros Hwf. unfold onPromptResponse. destruct (om_get k (sc_activeTurns s)); [|auto with sched].
  destruct (_ =? id)%Z; simpl; [|auto with sched].
  set (s1 := tell (EvTurnEnded k) _).
  assert (prims m [] s s1) as H.
  { apply silent_prims. split; [done|]. split; [done|]. exists [EvTurnEnded k]. by repeat constructor. }
  pose proof (prims_trans _ _ _ _ _ H (answerStranded_prims m k s1)) as H2. clear H.
  revert H2. generalize (answerStrandedSteers k s1). intros s2 H2.
  pose proof (prims_wf _ _ _ _ H2 Hwf) as Hwf2.
  destruct (length (queueOf k s2) =? 0)%nat eqn:El; simpl.
  - destruct (om_has k _).
    + eapply prims_trans; [exact H2|]. by apply maybeStartNext_prims.
    + apply Nat.eqb_eq in El. eapply prims_silent_r; [exact H2|]. apply silent_same; [|done|done].
      simpl. by rewrite om_delete_absent by (by apply queueOf_nil).
  - eapply prims_trans; [exact H2|]. by apply maybeStartNext_prims.
Qed.

Lemma refusals_log msg l s :
  let s' := foldl (fun s e => refuse d (Some msg) (tell (EvRefused e) s) e) s l in
  sc_queues s' = sc_queues s /\ sc_steering s' = sc_steering s /\
  exists evs, sc_log s' = sc_log s ++ evs /\
    (forall j, delivered_all j evs = []) /\ (forall j, returned_all j evs = prompts_of j l).
Proof.
  simpl. revert s. induction l as [|e l IH]; intros s; simpl.
  { split; [done|]. split; [done|]. exists []. by rewrite app_nil_r. }
  destruct (IH (refuse d (Some msg) (tell (EvRefused e) s) e)) as (Hq & Hs & evs & Hl & Hd & Hr).
  destruct (refuse_silent (Some msg) (tell (EvRefused e) s) e) as (Hq1 & Hs1 & evs1 & Hl1 & Hf1).
  split; [by rewrite Hq, Hq1|]. split; [by rewrite Hs, Hs1|].
  exists (EvRefused e :: evs1 ++ evs). split; [|split].
  - rewrite Hl, Hl1. simpl. by rewrite <- !app_assoc.
  - intros j. rewrite delivered_cons, delivered_app, Hd, (quiet_delivered j evs1) by done. done.
  - intros j. rewrite returned_cons, returned_app, Hr, (quiet_returned j evs1) by done. done.
Qed.

Lemma refuseQueue_prims k msg s : prims 1 [] s (refuseQueue d k msg s).
Proof.
  unfold refuseQueue. set (s1 := refuseSettings _ _ _ _).
  assert (silent s s1) as H.
  { eapply (silent_trans _ (clearSteerTimer k s)); [by apply silent_same | apply refuseSettings_silent]. }
  destruct (om_get k (sc_queues s1)) as [q|] eqn:E; [|auto with sched].
  unfold answerSteerOnly. eapply prims_silent_l; [exact H|].
  set (s2 := tell_all _ _).
  destruct (refusals_log msg (List.filter isOrdinary q) s2) as (Hq & Hs & evs & Hl & Hd & Hr).
  apply prims_one.
  eapply (prim_unqueue _ _ _ k q q [] (EvQueueChanged k ::
            map (fun e => EvAnswer e sa_noRunningTurn) (List.filter (fun e => negb (isOrdinary e)) q) ++ evs));
    [done | by rewrite app_nil_r | apply sublist_nil_l | done | by rewrite Hq | by rewrite Hs | | |].
  - rewrite Hl. simpl. by rewrite <- !app_assoc.
  - intros j. by rewrite delivered_cons, delivered_app, delivered_answers, Hd.
  - intros j. rewrite returned_cons, returned_app, returned_answers, Hr by done.
    rewrite (prompts_of_perm j _ _ (filter_split_perm isOrdinary q)), prompts_of_app. simpl. solve_Permutation.
Qed.

Lemma findIndex_lookup {A} (p : A -> bool) l i :
  findIndex p l = Some i -> exists l1 x l2, l = l1 ++ x :: l2 /\ length l1 = i /\ p x = true.
Proof.
  revert i. induction l as [|y l IH]; intros i; simpl; [done|].
  destruct (p y) eqn:E; [intros [= <-]; by exists [], y, l|].
  destruct (findIndex p l) as [j|]; [|done]. intros [= <-].
  destruct (IH j eq_refl) as (l1 & x & l2 & -> & <- & Hp). by exists (y :: l1), x, l2.
Qed.

Lemma queueOf_cons_get k s l1 x l2 :
  queueOf k s = l1 ++ x :: l2 -> om_get k (sc_queues s) = Some (l1 ++ x :: l2).
Proof.
  unfold queueOf. destruct (om_get k (sc_queues s)); simpl; [by intros ->|].
  intros H. by destruct l1.
Qed.

Lemma update_prims k p edit s :
  sched_wf s ->
  exists inc, prims 1 inc s (fst (update k p edit s)) /\
    inc = match findIndex (isEditable p) (queueOf k s) ≫= (fun i => queueOf k s !! i) with
          | Some e => [apply_edit (edit e) e]
          | None => []
          end.
Proof.
  intros Hwf. unfold update. destruct (findIndex _ _) as [i|] eqn:E; simpl; [|by eauto with sched].
  apply findIndex_lookup in E as (l1 & e & l2 & Hq & <- & _). rewrite Hq.
  rewrite list_lookup_middle by done. simpl. eexists. split; [|done]. apply prims_one.
  apply queueOf_cons_get in Hq.
  eapply (prim_edit _ _ _ k l1 e _ l2); try done.
  - destruct (wf_queues s Hwf k _ Hq) as [_ Ho]. apply own_app in Ho as [_ Ho].
    by inversion Ho.
  - simpl. by rewrite insert_app_r_alt, Nat.sub_diag by lia.
  - simpl. by rewrite <- app_assoc.
Qed.

Lemma remove_prims k p s : sched_wf s -> prims 1 [] s (fst (remove d k p s)).
Proof.
  intros Hwf. unfold remove. destruct (findIndex _ _) as [i|] eqn:E; simpl; [|auto with sched].
  apply findIndex_lookup in E as (l1 & e & l2 & Hq & Hi & _). rewrite Hq.
  assert ((l1 ++ e :: l2) !! i = Some e) as -> by (by rewrite <- Hi, list_lookup_middle).
  assert (base.delete i (l1 ++ e :: l2) = l1 ++ l2) as -> by (by rewrite <- Hi, delete_middle).
  apply queueOf_cons_get in Hq. simpl.
  set (s1 := tell _ (replaceQueue _ _ _)).
  assert (prims 1 [] s s1) as H.
  { apply prims_one. eapply (prim_unqueue _ _ _ k _ [e] (l1 ++ l2) [EvQueueChanged k; EvTaken k [e]]);
      [done | symmetry; exact (Permutation_middle l1 l2 e) | | lia | done | done | | done |].
    - apply (sublist_app l1 l1 l2 (e :: l2)); [done | by constructor].
    - simpl. by rewrite <- app_assoc.
    - intros j. rewrite !returned_cons. simpl. by rewrite app_nil_r. }
  destruct (i =? 0)%nat; [|exact H]. eapply prims_trans; [exact H|].
  apply steerFromQueue_prims. by eapply prims_wf.
Qed.

Lemma mark_prims m k q' s :
  Forall2 marked (queueOf k s) q' -> queueOf k s <> [] ->
  prims m [] s (set_queues (om_set k q' (sc_queues s)) s).
Proof.
  intros Hm Hne. unfold queueOf in *. destruct (om_get k (sc_queues s)) as [q|] eqn:E; [|done].
  apply prims_one. eapply (prim_mark _ _ _ k q q' []); try done. simpl. by rewrite app_nil_r.
Qed.

Lemma Forall2_marked_map f l : (forall e, marked e (f e)) -> Forall2 marked l (map f l).
Proof. intros. induction l; simpl; by constructor. Qed.
Lemma Forall2_marked_refl l : Forall2 marked l l.
Proof. induction l; by constructor. Qed.

Lemma steerNow_prims m k p s : sched_wf s -> prims m [] s (fst (steerNow d k p s)).
Proof.
  intros Hwf. unfold steerNow. destruct (findIndex _ _) as [i|] eqn:E; simpl; [|auto with sched].
  apply findIndex_lookup in E as (l1 & e & l2 & Hq & _).
  set (q' := map _ _ ++ _). set (s1 := set_queues _ s).
  assert (prims m [] s s1) as H.
  { apply mark_prims; [|by rewrite Hq; destruct l1]. subst q'.
    rewrite <- (take_drop (S i) (queueOf k s)) at 1. apply Forall2_app; [|apply Forall2_marked_refl].
    by apply Forall2_marked_map. }
  pose proof (steerFromQueue_prims m k s1 (prims_wf _ _ _ _ H Hwf)) as H2.
  pose proof (prims_trans _ _ _ _ _ H H2) as H3. clear H H2.
  revert H3. generalize (steerFromQueue d k s1). intros s2 H3.
  destruct (_ || _); simpl; [done|].
  destruct (queueOf k s !! i) as [t|]; simpl; [|done].
  destruct (om_get k (sc_queues s2)) as [q2|] eqn:Eq; simpl; [|done].
  eapply prims_trans; [exact H3|].
  replace q2 with (queueOf k s2) by (by apply queueOf_get). apply mark_prims.
  - apply Forall2_marked_map. intros. by case_match.
  - rewrite (queueOf_get _ _ _ Eq).
    by apply (wf_queues s2 (prims_wf _ _ _ _ H3 Hwf) k q2 Eq).
Qed.

Lemma alter_middle {A} (f : A -> A) l1 x l2 : alter f (length l1) (l1 ++ x :: l2) = l1 ++ f x :: l2.
Proof. induction l1 as [|y l1 IH]; [done|]. simpl. by f_equal. Qed.

Lemma adoptSteer_prims m k p c s : prims m [] s (adoptSteer k p c s).
Proof.
  unfold adoptSteer. destruct (findIndex _ _) as [i|] eqn:E; [|auto with sched].
  apply findIndex_lookup in E as (l1 & e & l2 & Hq & <- & _). apply mark_prims.
  - rewrite Hq, alter_middle.
    apply Forall2_app; [apply Forall2_marked_refl|]. constructor; [done | apply Forall2_marked_refl].
  - rewrite Hq. by destruct l1.
Qed.

Lemma withdrawFrom_prims m c s l k q :
  sched_wf s -> om_get k (sc_queues s) = Some q -> prims m [] s (fst (withdrawFrom d c (s, l) (k, q))).
Proof.
  intros Hwf Hg. unfold withdrawFrom.
  set (mine := fun e => _ && _).
  assert (Forall (fun e => isOrdinary e = false) (List.filter mine q)) as Hno.
  { clear. induction q as [|e q IH]; simpl; [constructor|]. destruct (mine e) eqn:E; [|done].
    constructor; [|done]. subst mine. simpl in E. by destruct (isOrdinary e). }
  destruct (List.filter mine q) as [|g gone] eqn:Eg; [auto with sched|]. rewrite <- Eg in *. clear Eg. simpl.
  set (s1 := tell _ (replaceQueue _ _ _)).
  assert (prims m [] s s1) as H.
  { apply prims_one.
    eapply (prim_unqueue _ _ _ k q (List.filter mine q) _ [EvQueueChanged k; EvTaken k (List.filter mine q)]);
      [done | apply filter_split_perm | apply sublist_filter | done | done | done | | done |].
    - simpl. by rewrite <- app_assoc.
    - intros j. rewrite !returned_cons. simpl. by rewrite app_nil_r. }
  eapply prims_trans; [exact H|]. apply steerFromQueue_prims. by eapply prims_wf.
Qed.

(** ** Sessions do not touch each other's queues *)
Definition other_queues (k : string) (s s' : Sched) : Prop :=
  forall j, j <> k -> om_get j (sc_queues s') = om_get j (sc_queues s).

Lemma other_queues_trans k s1 s2 s3 :
  other_queues k s1 s2 -> other_queues k s2 s3 -> other_queues k s1 s3.
Proof. intros H1 H2 j Hj. by rewrite H2, H1. Qed.

Lemma other_queues_set_or_delete k q s s' :
  sc_queues s' = set_or_delete k q (sc_queues s) -> other_queues k s s'.
Proof. intros Hq j Hj. rewrite Hq. autorewrite with dam. by rewrite decide_False. Qed.

Lemma answerStranded_other k s : other_queues k s (answerStrandedSteers k s).
Proof.
  unfold answerStrandedSteers. destruct (om_get k _); [|done]. case_match; [done|].
  by eapply other_queues_set_or_delete.
Qed.

Lemma beginSteer_queues b s : sc_queues (beginSteer d b s) = sc_queues s.
Proof. unfold beginSteer. by repeat case_match. Qed.

Lemma steerFromQueue_other k s : other_queues k s (steerFromQueue d k s).
Proof.
  unfold steerFromQueue.
  eapply (other_queues_trans k _ (answerStrandedSteers k (clearSteerTimer k s))).
  { apply (answerStranded_other k (clearSteerTimer k s)). }
  generalize (answerStrandedSteers k (clearSteerTimer k s)). intros s1.
  destruct (om_get k _) as [[|e q]|]; try done. destruct (canSteerNow _ _ _).
  - destruct (takeBatch _ _ _ _) as [b r]. eapply other_queues_set_or_delete.
    by rewrite beginSteer_queues.
  - repeat case_match; done.
Qed.

Lemma withdrawFrom_other c s l k q : other_queues k s (fst (withdrawFrom d c (s, l) (k, q))).
Proof.
  unfold withdrawFrom. case_match; [done|]. simpl. eapply other_queues_trans; [|apply steerFromQueue_other].
  by eapply other_queues_set_or_delete.
Qed.

Lemma withdraw_prims_aux m c entries s l :
  sched_wf s -> NoDup (om_keys entries) ->
  (forall k q, (k, q) ∈ entries -> om_get k (sc_queues s) = Some q) ->
  prims m [] s (fst (foldl (withdrawFrom d c) (s, l) entries)).
Proof.
  revert s l. induction entries as [|[k q] entries IH]; intros s l Hwf Hnd Hin; [simpl; auto with sched|].
  inversion Hnd as [|? ? Hk Hnd']; subst.
  pose proof (withdrawFrom_prims m c s l k q Hwf (Hin k q ltac:(left))) as H.
  pose proof (withdrawFrom_other c s l k q) as Ho. simpl.
  change (prims m [] s (fst (foldl (withdrawFrom d c) (withdrawFrom d c (s, l) (k, q)) entries))).
  destruct (withdrawFrom d c (s, l) (k, q)) as [s1 l1]. cbn [fst] in *.
  eapply prims_trans; [exact H|]. apply IH; [by eapply prims_wf | done |].
  intros k' q' Hin'. rewrite Ho; [apply Hin; by right|]. intros ->. apply Hk.
  apply list_elem_of_fmap. by exists (k, q').
Qed.

Lemma withdraw_prims m c s : sched_wf s -> prims m [] s (fst (withdraw d c s)).
Proof.
  intros Hwf. apply withdraw_prims_aux; [done | apply Hwf |].
  intros. apply om_in_get; [apply Hwf | done].
Qed.

(** ** Dropping queues *)
Definition nonOrdinaryAnswers (l : list PromptSubmission) : list SEvent :=
  map (fun e => EvAnswer e sa_noRunningTurn) (List.filter (fun e => negb (isOrdinary e)) l).

Definition dropped_of (batch queue : list PromptSubmission) : list PromptSubmission :=
  droppedPrompts (List.filter isOrdinary batch) (List.filter isOrdinary queue).

Lemma dropQueue_spec k c s :
  let s1 := refuseSettings d k (dropMessage c) (clearSteerTimer k s) in
  let batch := (st_batch <$> om_get k (sc_steering s1)) ?? [] in
  let queue := queueOf k s1 in
  sc_queues (dropQueue d k c s) = om_delete k (sc_queues s1) /\
  sc_steering (dropQueue d k c s) = om_delete k (sc_steering s1) /\
  sc_activeTurns (dropQueue d k c s) = sc_activeTurns s1 /\
  exists noted reported,
    sc_log (dropQueue d k c s) =
      sc_log s1 ++ nonOrdinaryAnswers batch ++ nonOrdinaryAnswers queue ++ noted ++ reported /\
    Forall is_quiet noted /\
    (reported = [EvQueueDropped k (dropped_of batch queue) c] \/
     reported = [] /\ dropped_of batch queue = []).
Proof.
  simpl. unfold dropQueue. set (s1 := refuseSettings _ _ _ _). clearbody s1.
  unfold nonOrdinaryAnswers, dropped_of, queueOf, answerSteerOnly.
  destruct (om_get k (sc_steering s1)) as [st|]; simpl;
    destruct (om_get k (sc_queues s1)) as [q|]; simpl.
  1-3: match goal with |- context [droppedPrompts ?a ?b] => destruct (droppedPrompts a b) eqn:Ed end;
       simpl; (split; [done|]); (split; [done|]); (split; [done|]); exists [EvQueueChanged k].
  all: try (eexists; split; [|split; [by repeat constructor | by left]];
            simpl; by rewrite <- ?app_assoc).
  all: try (exists []; split; [|split; [by repeat constructor | by right]];
            simpl; rewrite <- ?app_assoc; simpl; done).
  split; [done|]. split; [done|]. split; [done|]. exists [], []. split; [done|].
  split; [constructor | by right].
Qed.

Lemma dropped_prompts j k batch queue :
  own k batch ->
  prompts_of j (dropped_of batch queue) =
  prompts_of j (List.filter isOrdinary batch) ++ prompts_of j (List.filter isOrdinary queue).
Proof.
  intros Ho. unfold dropped_of, droppedPrompts.
  assert (own k (List.filter isOrdinary batch)) as Ho' by (by apply Forall_List_filter).
  destruct (leadOf _) as [lead|] eqn:El.
  - rewrite (prompts_own j k _ Ho'). unfold prompts_of at 1. simpl. fold (prompts_of j).
    rewrite mine_eq, (leadOf_session _ _ k El Ho'), (leadOf_prompt _ _ El). done.
  - by destruct (List.filter isOrdinary batch) as [|? [|]].
Qed.

Lemma returned_nonOrdinary j l :
  returned_all j (nonOrdinaryAnswers l) = prompts_of j (List.filter (fun e => negb (isOrdinary e)) l).
Proof. by apply returned_answers. Qed.

Lemma dropQueue_prims k c s : sched_wf s -> prims 1 [] s (dropQueue d k c s).
Proof.
  intros Hwf. pose proof (dropQueue_spec k c s) as H. simpl in H.
  set (s1 := refuseSettings d k (dropMessage c) (clearSteerTimer k s)) in *.
  assert (silent s s1) as Hsil.
  { eapply (silent_trans _ (clearSteerTimer k s)); [by apply silent_same | apply refuseSettings_silent]. }
  assert (sched_wf s1) as Hwf1 by (by eapply prims_wf; [apply (silent_prims 1), Hsil|]).
  eapply prims_silent_l; [exact Hsil|]. clearbody s1. clear Hsil Hwf.
  destruct H as (Hq & Hs & _ & noted & reported & Hl & Hn & Hr).
  set (batch := (st_batch <$> om_get k (sc_steering s1)) ?? []) in *.
  assert (own k batch) as Hob.
  { subst batch. unfold own. destruct (om_get k (sc_steering s1)) eqn:E; simpl; [|done].
    by apply (wf_steering s1 Hwf1). }
  apply prims_one. eapply (prim_drop _ _ _ k); [lia | exact Hq | exact Hs | exact Hl | |].
  - intros j. rewrite !delivered_app, (quiet_delivered j noted) by done.
    unfold nonOrdinaryAnswers. rewrite !delivered_answers. by destruct Hr as [->|[-> _]].
  - intros j. rewrite !returned_app, !returned_nonOrdinary, (quiet_returned j noted) by done.
    transitivity (prompts_of j (List.filter (fun e => negb (isOrdinary e)) batch) ++
                  prompts_of j (List.filter (fun e => negb (isOrdinary e)) (queueOf k s1)) ++
                  prompts_of j (dropped_of batch (queueOf k s1))).
    { destruct Hr as [->|[-> ->]]; simpl; [|done]. unfold returned_all. simpl. by rewrite app_nil_r. }
    fold batch. rewrite (dropped_prompts j k _ _ Hob).
    rewrite (prompts_of_perm j _ _ (filter_split_perm isOrdinary batch)).
    rewrite (prompts_of_perm j _ _ (filter_split_perm isOrdinary (queueOf k s1))).
    rewrite !prompts_of_app. solve_Permutation.
Qed.

Lemma forget_prims k s : sched_wf s -> prims 1 [] s (forget d k s).
Proof.
  intros Hwf. unfold forget.
  set (s0 := set_settingsInFlight _ (set_activeTurns _ s)).
  assert (silent s s0) as H0 by (by apply silent_same).
  destruct (om_get k (sc_activeTurns s)) as [t|].
  - assert (silent s (tell (EvTurnInterrupted k t) s0)) as H.
    { eapply silent_trans; [exact H0 | by apply silent_tell]. }
    eapply prims_silent_l; [exact H|]. eapply prims_silent_r; [|by apply silent_tell].
    apply dropQueue_prims. eapply prims_wf; [apply (silent_prims 1), H | done].
  - eapply prims_silent_l; [exact H0|]. apply dropQueue_prims.
    eapply prims_wf; [apply (silent_prims 1), H0 | done].
Qed.

Lemma dropQueues_prims c ks s :
  sched_wf s -> prims 1 [] s (foldl (fun s k => dropQueue d k c s) s ks).
Proof.
  revert s. induction ks as [|k ks IH]; intros s Hwf; simpl; [auto with sched|].
  eapply prims_trans; [by apply dropQueue_prims|]. apply IH. eapply prims_wf; [by apply dropQueue_prims | done].
Qed.

Lemma clear_prims s : sched_wf s -> prims 1 [] s (clear d s).
Proof.
  intros Hwf. unfold clear.
  set (s1 := foldl _ (set_settingsInFlight [] (set_steerTimers [] s)) _).
  set (s2 := foldl _ (set_activeTurns [] s1) (sc_activeTurns s1)).
  assert (silent s s2) as H.
  { eapply (silent_trans _ (set_settingsInFlight [] (set_steerTimers [] s))); [by apply silent_same|].
    eapply (silent_trans _ s1); [apply silent_foldl; intros; apply refuseSettings_silent|].
    eapply (silent_trans _ (set_activeTurns [] s1)); [by apply silent_same|].
    apply silent_foldl. intros ? []. by apply silent_tell. }
  pose proof (prims_wf _ _ _ _ (silent_prims 1 _ _ H) Hwf) as Hwf2.
  eapply prims_silent_l; [exact H|].
  eapply prims_silent_r; [by apply dropQueues_prims|]. apply silent_foldl. intros ? []. by apply silent_tell.
Qed.
End Functions.

(** ** Every operation *)

(** What an operation hands in. *)
Definition op_incoming (op : SchedOp) (s : Sched) : list PromptSubmission :=
  match op with
  | OpSubmit e => [e]
  | OpUpdate k p edit =>
      match findIndex (isEditable p) (queueOf k s) ≫= (fun i => queueOf k s !! i) with
      | Some e => [apply_edit (edit e) e]
      | None => []
      end
  | _ => []
  end.

Definition op_mode (d : Deps) (op : SchedOp) (s : Sched) : nat :=
  match op with
  | OpSubmit e => submit_mode d e s
  | OpUpdate _ _ _ | OpRemove _ _ | OpRefuseQueue _ _ | OpForget _ | OpClear => 1
  | _ => 0
  end.

Lemma sched_step_prims d op s :
  sched_wf s -> prims (op_mode d op s) (op_incoming op s) s (sched_step d op s).
Proof.
  intros Hwf. destruct op; simpl;
    eauto using submit_prims, submitSettings_prims, onSettingResponse_prims, onPromptResponse_prims,
      maybeStartNext_prims, refuseQueue_prims, remove_prims, steerNow_prims, adoptSteer_prims,
      resolveSteer_prims, settleSteer_prims, steerFromQueue_prims, withdraw_prims, forget_prims, clear_prims,
      silent_prims, submitSetting_silent, dropQueuedSettings_silent, dropAbandonedSettings_silent.
  - destruct (update_prims sessionId promptId edit s Hwf) as (inc & H & <-). exact H.
  - apply silent_prims. unfold restartTurn. case_match; [by apply silent_same | apply silent_refl].
  - unfold steerTimerFired. case_match; [by apply steerFromQueue_prims | apply prims_nil].
Qed.

Lemma sched_step_wf d op s : sched_wf s -> sched_wf (sched_step d op s).
Proof. intros. eapply prims_wf; [by apply sched_step_prims | done]. Qed.

Lemma create_wf : sched_wf createPromptScheduler.
Proof. split; simpl; try done; constructor. Qed.

Lemma sched_run_wf l s : sched_wf s -> sched_wf (sched_run l s).
Proof. revert s. induction l as [|[d op] l IH]; intros s; simpl; [done|]. intros. by apply IH, sched_step_wf. Qed.

(** ** Runs *)
Fixpoint run_within (m : nat) (l : list (Deps * SchedOp)) (s : Sched) : Prop :=
  match l with
  | [] => True
  | (d, op) :: l => (op_mode d op s <= m)%nat /\ run_within m l (sched_step d op s)
  end.

Fixpoint run_incoming (l : list (Deps * SchedOp)) (s : Sched) : list PromptSubmission :=
  match l with
  | [] => []
  | (d, op) :: l => op_incoming op s ++ run_incoming l (sched_step d op s)
  end.

Lemma run_balance l s k :
  sched_wf s -> run_within 1 l s ->
  balance k (sched_run l s) ≡ₚ prompts_of k (run_incoming l s) ++ balance k s.
Proof.
  revert s. induction l as [|[d op] l IH]; intros s Hwf; [done|]. simpl. intros [Hm Hl].
  change (sched_run ((d, op) :: l) s) with (sched_run l (sched_step d op s)).
  rewrite (IH _ (sched_step_wf _ _ _ Hwf) Hl), prompts_of_app.
  assert (op_mode d op s < 2)%nat as Hm' by lia.
  rewrite (prims_balance _ _ _ _ k Hm' (sched_step_prims d op s Hwf) Hwf).
  solve_Permutation.
Qed.


Lemma update_bounded k p edit s j : bounded j s -> bounded j (fst (update k p edit s)).
Proof.
  unfold update. destruct (findIndex _ _) as [i|] eqn:E; [|done].
  apply findIndex_lookup in E as (l1 & e & l2 & Hq & <- & _). rewrite Hq, list_lookup_middle by done. simpl.
  rewrite insert_app_r_alt, Nat.sub_diag by lia. simpl. set (s' := tell _ _).
  intros Hb. unfold bounded in *.
  rewrite (queueOf_set j k (l1 ++ apply_edit (edit e) e :: l2) s s') by done. simpl.
  case_decide as Hj; [|done]. rewrite Hj in *. rewrite Hq in Hb. by apply (bounded_edit l1 e).
Qed.

(** A prompt comes in untried. *)
Definition op_fresh (op : SchedOp) : Prop :=
  match op with OpSubmit e => refusedFlag e = false | _ => True end.

Lemma sched_step_bounded d op s k :
  op_fresh op -> sched_wf s -> bounded k s -> bounded k (sched_step d op s).
Proof.
  intros Hf Hwf Hb. pose proof (sched_step_prims d op s Hwf) as Hp.
  destruct op; simpl in *; try by (eapply prims_bounded; [exact Hp | repeat constructor | done]).
  - by apply update_bounded.
Qed.

(** The queue's cap bounds what a session holds: at most 32 prompts wait for a
    first try, and at most 32 more whose steer was refused. *)
Theorem queue_bounded l k :
  Forall (fun '(_, op) => op_fresh op) l ->
  let s := sched_run l createPromptScheduler in
  (length (queueOf k s) <= 2 * PROMPT_QUEUE_CAP)%nat /\
  (forall st, om_get k (sc_steering s) = Some st ->
     (length (st_batch st) + length (queueOf k s) <= 2 * PROMPT_QUEUE_CAP)%nat).
Proof.
  intros Hf s.
  assert (bounded k s) as Hb.
  { subst s. assert (bounded k createPromptScheduler) as H0.
    { exists [], []. unfold PROMPT_QUEUE_CAP. repeat split; try constructor; simpl; lia. }
    assert (sched_wf createPromptScheduler) as Hwf by apply create_wf.
    revert H0 Hwf. generalize createPromptScheduler. induction Hf as [|[d op] l Hop _ IH]; intros s Hb Hwf; [done|].
    apply (IH (sched_step d op s)); [by apply sched_step_bounded | by apply sched_step_wf]. }
  split; [by apply bounded_length|]. intros st Hst.
  destruct Hb as (r & n & -> & _ & _ & _ & Hn & Hs). rewrite Hst in Hs. destruct Hs as (-> & _ & ?).
  cbn [app]. unfold PROMPT_QUEUE_CAP in *. lia.
Qed.

(** A run with a steer that is refused, an edit, a removal, and a queue
    dropped when the harness goes down. *)
Definition sample_run : list (Deps * SchedOp) :=
  let d := sample_deps true false in
  [(d, OpSubmit (sample_prompt 1 "a" true)); (d, OpSubmit (sample_prompt 2 "b" true));
   (d, OpSubmit (sample_prompt 3 "c" true)); (d, OpSubmit (sample_steer 4 "x" "a"));
   (sample_deps true true, OpSteerPoint "s"); (d, OpSubmit (sample_prompt 5 "d" false));
   (d, OpSettleSteer "s" 0 so_refused);
   (d, OpUpdate "s" "b" (fun e => mk_edit None (mk_frame "session/prompt" (Some ["b2"])) None None None));
   (d, OpRemove "s" "c"); (d, OpPromptResponse "s" 1); (d, OpClear)].

Example sample_run_log :
  let s := sched_run sample_run createPromptScheduler in
  delivered_all "s" (sc_log s) = ["a"; "b2"] /\
  returned_all "s" (sc_log s) = ["x"; "b"; "c"; "d"] /\ held "s" s = [].
Proof. vm_compute. done. Qed.


Lemma queue_bounded_witness :
  Forall (fun '(_, op) => op_fresh op) sample_run /\
  (length (queueOf "s" (sched_run sample_run createPromptScheduler)) <= 2 * PROMPT_QUEUE_CAP)%nat.
Proof.
  assert (Forall (fun '(_, op) => op_fresh op) sample_run) as H by (by repeat constructor).
  split; [exact H | exact (proj1 (queue_bounded sample_run "s" H))].
Defined.

(** The queue does pass its cap: prompts that come while a full queue is being
    steered are queued beside it when the steer is refused. *)
Definition overfull_run : list (Deps * SchedOp) :=
  let d := sample_deps true false in
  let more n := map (fun i => (d, OpSubmit (sample_prompt (Z.of_nat i) "p" true))) (seq n 32) in
  (d, OpSubmit (sample_prompt 0 "a" true)) :: more 1%nat
    ++ [(sample_deps true true, OpSteerPoint "s")] ++ more 33%nat ++ [(d, OpSettleSteer "s" 0 so_refused)].

Lemma queue_passes_its_cap :
  length (queueOf "s" (sched_run overfull_run createPromptScheduler)) = (2 * PROMPT_QUEUE_CAP)%nat.
Proof. vm_compute. reflexivity. Qed.

(** A start that fails replaces the queue: with the harness gone, a second
    prompt takes the place of the first, which is neither delivered nor given
    back nor held. *)
Theorem failed_start_discards_queue :
  let gone := sample_deps false false in
  let s := sched_run [(gone, OpSubmit (sample_prompt 1 "a" true)); (gone, OpSubmit (sample_prompt 2 "b" true))]
             createPromptScheduler in
  held "s" s = ["b"] /\ delivered_all "s" (sc_log s) = [] /\ returned_all "s" (sc_log s) = [].
Proof. vm_compute. done. Qed.

(** ** What viewers are shown as starting *)
Lemma firstBatch_followers d s q :
  (forall e, e ∈ q -> dp_canStart d (sc_log s) e = true) ->
  length (fst (takeFollowers d into_start s q)) =
  match findIndex (fun e => negb (is_true_ (ps_steerable e)) || negb (isOrdinary e)) q with
  | None => length q
  | Some i => i
  end.
Proof.
  induction q as [|e q IH]; intros Hc; [done|]. simpl.
  rewrite Hc, orb_false_r, andb_true_r by left.
  destruct (is_true_ (ps_steerable e)), (isOrdinary e); simpl; try done.
  assert (forall e, e ∈ q -> dp_canStart d (sc_log s) e = true) as Hc' by (intros; apply Hc; by right).
  specialize (IH Hc'). destruct (takeFollowers d into_start s q). simpl in *. rewrite IH.
  by destruct (findIndex _ q).
Qed.

(** The prompts a snapshot marks as starting are those the next turn opens
    with: the batch that would start, when the session can take its prompts. *)
Theorem snapshot_marks_next_batch d k s e q :
  nothingAhead k s = true -> queueOf k s = e :: q -> isOrdinary e = true ->
  (forall e', e' ∈ e :: q -> dp_canStart d (sc_log s) e' = true) ->
  map qp_starting (snapshot k s) =
  map (fun _ => true) (fst (takeBatch d into_start s (e :: q))) ++
  map (fun _ => false) (snd (takeBatch d into_start s (e :: q))).
Proof.
  intros Hna Hq Ho Hc.
  assert (length (fst (takeBatch d into_start s (e :: q))) = firstBatchSize (e :: q)) as Hlen.
  { unfold firstBatchSize. rewrite Ho. simpl. destruct (is_true_ (ps_steerable e)) eqn:Es; simpl; [|done].
    rewrite Ho. simpl.
    pose proof (firstBatch_followers d s q (fun e' H => Hc e' ltac:(by right))) as Hf.
    destruct (takeFollowers d into_start s q). simpl in *. rewrite Hf. by destruct (findIndex _ q). }
  unfold snapshot. rewrite Hna, Hq, <- Hlen.
  destruct (takeBatch d into_start s (e :: q)) as [b r] eqn:E.
  destruct (takeBatch_app d _ s e q b r E) as [-> _]. simpl.
  rewrite imap_app, map_app. f_equal; apply list_eq; intros i; rewrite !list_lookup_fmap, list_lookup_imap.
  - destruct (b !! i) eqn:Hi; simpl; [|done]. f_equal. apply Nat.ltb_lt. by eapply lookup_lt_Some.
  - destruct (r !! i) eqn:Hi; simpl; [|done]. f_equal. apply Nat.ltb_ge. unfold compose. lia.
Qed.

Lemma snapshot_marks_next_batch_witness :
  let d := sample_deps true false in
  let e := sample_prompt 1 "a" true in
  let q := [sample_prompt 2 "b" true; sample_prompt 3 "c" false] in
  let s := set_queues [("s", e :: q)] createPromptScheduler in
  nothingAhead "s" s = true /\ queueOf "s" s = e :: q /\ isOrdinary e = true /\
  map qp_starting (snapshot "s" s) =
  map (fun _ => true) (fst (takeBatch d into_start s (e :: q))) ++
  map (fun _ => false) (snd (takeBatch d into_start s (e :: q))).
Proof.
  split; [reflexivity|]. split; [reflexivity|]. split; [reflexivity|].
  apply (snapshot_marks_next_batch (sample_deps true false) "s" _ (sample_prompt 1 "a" true)
           [sample_prompt 2 "b" true; sample_prompt 3 "c" false]); reflexivity.
Defined.
