(* ===== verification/SchedulerLiveness.v ===== *)
(** The prompt scheduler's turns and progress ([PromptScheduler]): turns of a
    session start and end in alternation, a prompt waits only for something,
    and ordinary prompts reach the harness in the order they came. *)
From stdpp Require Import base strings list.
From Stdlib Require Import ZArith Lia.
From S2P Require Import Prelude PromptScheduler SchedulerSteps SchedulerSafety.

#[local] Arguments PROMPT_QUEUE_CAP : simpl never.
#[local] Arguments Nat.leb : simpl never.

(** ** The turns of a session, read off the log *)
Inductive TurnPhase := tp_idle | tp_running | tp_interrupted.

Definition turn_event (k : string) (p : TurnPhase) (ev : SEvent) : option TurnPhase :=
  match ev with
  | EvTurnStarted e =>
      if decide (ps_sessionId e = k)
      then match p with tp_idle => Some tp_running | _ => None end else Some p
  | EvTurnInterrupted j _ =>
      if decide (j = k) then match p with tp_running => Some tp_interrupted | _ => None end else Some p
  | EvTurnEnded j =>
      if decide (j = k) then match p with tp_idle => None | _ => Some tp_idle end else Some p
  | _ => Some p
  end.

Definition turn_phase (k : string) (evs : list SEvent) : option TurnPhase :=
  foldl (fun p ev => p ≫= (fun p => turn_event k p ev)) (Some tp_idle) evs.
Definition turn_phase_from (k : string) (p : TurnPhase) (evs : list SEvent) : option TurnPhase :=
  foldl (fun p ev => p ≫= (fun p => turn_event k p ev)) (Some p) evs.

Definition phase_of (k : string) (s : Sched) : TurnPhase :=
  if om_has k (sc_activeTurns s) then tp_running else tp_idle.

(** An operation's events take the phase of [k] before it to the one after. *)
Definition turns_follow (k : string) (s s' : Sched) : Prop :=
  exists evs, sc_log s' = sc_log s ++ evs /\ turn_phase_from k (phase_of k s) evs = Some (phase_of k s').

Lemma turn_phase_app k p l1 l2 :
  turn_phase_from k p (l1 ++ l2) = turn_phase_from k p l1 ≫= (fun p => turn_phase_from k p l2).
Proof.
  unfold turn_phase_from. rewrite foldl_app. destruct (foldl _ _ l1) as [q|]; simpl; [done|].
  induction l2 as [|ev l2 IH]; simpl; [done|]. exact IH.
Qed.

Lemma turns_follow_refl k s : turns_follow k s s.
Proof. exists []. by rewrite app_nil_r. Qed.
Lemma turns_follow_trans k s1 s2 s3 :
  turns_follow k s1 s2 -> turns_follow k s2 s3 -> turns_follow k s1 s3.
Proof.
  intros (e1 & Hl1 & H1) (e2 & Hl2 & H2). exists (e1 ++ e2). rewrite Hl2, Hl1, app_assoc.
  split; [done|]. by rewrite turn_phase_app, H1.
Qed.

Definition no_turn_event (ev : SEvent) : Prop :=
  match ev with EvTurnStarted _ | EvTurnInterrupted _ _ | EvTurnEnded _ => False | _ => True end.

Lemma no_turn_phase k p evs : Forall no_turn_event evs -> turn_phase_from k p evs = Some p.
Proof.
  unfold turn_phase_from. induction 1 as [|ev evs Hev _ IH]; [done|]. simpl. by destruct ev.
Qed.

Lemma turn_phase_cons k p ev evs :
  turn_phase_from k p (ev :: evs) = turn_event k p ev ≫= (fun p => turn_phase_from k p evs).
Proof. apply (turn_phase_app k p [ev]). Qed.
Lemma no_turn_phase_app k p evs l :
  Forall no_turn_event evs -> turn_phase_from k p (evs ++ l) = turn_phase_from k p l.
Proof. intros. by rewrite turn_phase_app, no_turn_phase. Qed.

(** ** Functions that work on one session and start no turn *)
Record local (k : string) (s s' : Sched) : Prop := {
  lc_queues : forall j, j <> k -> queueOf j s' = queueOf j s;
  lc_steering : forall j, j <> k -> om_get j (sc_steering s') = om_get j (sc_steering s);
  lc_pending : forall j, j <> k -> om_get j (sc_pendingSettings s') = om_get j (sc_pendingSettings s);
  lc_inflight : forall j, j <> k -> om_get j (sc_settingsInFlight s') = om_get j (sc_settingsInFlight s);
  lc_active : forall j, om_has j (sc_activeTurns s') = om_has j (sc_activeTurns s);
  lc_turns : om_keys (sc_activeTurns s') = om_keys (sc_activeTurns s);
  lc_log : exists evs, sc_log s' = sc_log s ++ evs /\ Forall no_turn_event evs;
}.

Lemma local_refl k s : local k s s.
Proof. split; try done. exists []. by rewrite app_nil_r. Qed.
Lemma local_trans k s1 s2 s3 : local k s1 s2 -> local k s2 s3 -> local k s1 s3.
Proof.
  intros [Hq1 Hs1 Hp1 Hi1 Ha1 Hk1 (e1 & Hl1 & Hf1)] [Hq2 Hs2 Hp2 Hi2 Ha2 Hk2 (e2 & Hl2 & Hf2)].
  split; intros; [by rewrite Hq2, Hq1 | by rewrite Hs2, Hs1 | by rewrite Hp2, Hp1
    | by rewrite Hi2, Hi1 | by rewrite Ha2, Ha1 | by rewrite Hk2, Hk1 |].
  exists (e1 ++ e2). rewrite Hl2, Hl1, app_assoc. split; [done|]. by apply Forall_app.
Qed.
Lemma local_follow j k s s' : local k s s' -> turns_follow j s s'.
Proof.
  intros [_ _ _ _ Ha _ (evs & Hl & Hf)]. exists evs. split; [done|].
  unfold phase_of. rewrite Ha. by apply no_turn_phase.
Qed.
Lemma local_foldl {A} k (f : Sched -> A -> Sched) l s :
  (forall s a, a ∈ l -> local k s (f s a)) -> local k s (foldl f s l).
Proof.
  revert s. induction l as [|a l IH]; intros s Hf; simpl; [apply local_refl|].
  eapply local_trans; [apply Hf; left | apply IH; intros; apply Hf; by right].
Qed.

(** One field changed at [k] only, or one event told. *)
Lemma local_tell k ev s : no_turn_event ev -> local k s (tell ev s).
Proof. intros. split; try done. exists [ev]. by repeat constructor. Qed.
Lemma local_tell_all k evs s : Forall no_turn_event evs -> local k s (tell_all evs s).
Proof. intros. split; try done. by exists evs. Qed.
Lemma local_timers k m s : local k s (set_steerTimers m s).
Proof. split; try done. exists []. by rewrite app_nil_r. Qed.
Lemma local_ticket k m s : local k s (set_nextTicket m s).
Proof. split; try done. exists []. by rewrite app_nil_r. Qed.

Lemma local_queues k s m :
  (forall j, j <> k -> om_get j m = om_get j (sc_queues s)) -> local k s (set_queues m s).
Proof.
  intros H. split; simpl; try done; [|exists []; by rewrite app_nil_r].
  intros j Hj. unfold queueOf. simpl. by rewrite H.
Qed.
Lemma local_steering k s m :
  (forall j, j <> k -> om_get j m = om_get j (sc_steering s)) -> local k s (set_steering m s).
Proof. intros H. split; simpl; try done. exists []; by rewrite app_nil_r. Qed.
Lemma local_pending k s m :
  (forall j, j <> k -> om_get j m = om_get j (sc_pendingSettings s)) -> local k s (set_pendingSettings m s).
Proof. intros H. split; simpl; try done. exists []; by rewrite app_nil_r. Qed.
Lemma local_inflight k s m :
  (forall j, j <> k -> om_get j m = om_get j (sc_settingsInFlight s)) -> local k s (set_settingsInFlight m s).
Proof. intros H. split; simpl; try done. exists []; by rewrite app_nil_r. Qed.
Lemma local_active k s m :
  (forall j, om_has j m = om_has j (sc_activeTurns s)) -> om_keys m = om_keys (sc_activeTurns s) ->
  local k s (set_activeTurns m s).
Proof. intros H Hk. split; simpl; try done. exists []; by rewrite app_nil_r. Qed.

Lemma get_set_other {V} j k (v : V) (m : list (string * V)) : j <> k -> om_get j (om_set k v m) = om_get j m.
Proof. intros. autorewrite with dam. by rewrite decide_False. Qed.
Lemma get_delete_other {V} j k (m : list (string * V)) : j <> k -> om_get j (om_delete k m) = om_get j m.
Proof. intros. autorewrite with dam. by rewrite decide_False. Qed.
Lemma get_sod_other {V} j k q (m : list (string * list V)) :
  j <> k -> om_get j (set_or_delete k q m) = om_get j m.
Proof. intros. autorewrite with dam. by rewrite decide_False. Qed.

Create HintDb local.
#[export] Hint Resolve local_refl local_tell local_tell_all local_timers local_ticket local_queues
  local_steering local_pending local_inflight local_active get_set_other get_delete_other
  get_sod_other : local.
#[export] Hint Extern 1 (no_turn_event _) => exact I : local.

(** The settings that wait are of their own session, and a session without
    any has no entry. *)
Definition settings_ok (s : Sched) : Prop :=
  forall k l, om_get k (sc_pendingSettings s) = Some l -> l <> [] /\ own k l.

(** The maps of settings are untouched. *)
Definition same_settings (s s' : Sched) : Prop :=
  sc_pendingSettings s' = sc_pendingSettings s /\ sc_settingsInFlight s' = sc_settingsInFlight s.

Section Local.
Context (d : Deps).

Lemma sendToChannel_local k c m s : local k s (sendToChannel d c m s).
Proof. unfold sendToChannel. case_match; auto with local. Qed.
Lemma sendToChannel_same c m s : same_settings s (sendToChannel d c m s).
Proof. unfold sendToChannel. by case_match. Qed.
Lemma refuse_local k m s e : local k s (refuse d m s e).
Proof. unfold refuse. case_match; [apply sendToChannel_local | apply local_refl]. Qed.
Lemma refuse_same m s e : same_settings s (refuse d m s e).
Proof. unfold refuse. case_match; [apply sendToChannel_same | done]. Qed.

Lemma same_settings_trans s1 s2 s3 : same_settings s1 s2 -> same_settings s2 s3 -> same_settings s1 s3.
Proof. intros [? ?] [? ?]. split; congruence. Qed.
Lemma same_settings_foldl {A} (f : Sched -> A -> Sched) l s :
  (forall s a, same_settings s (f s a)) -> same_settings s (foldl f s l).
Proof.
  intros Hf. revert s. induction l as [|a l IH]; intros s; simpl; [done|].
  eapply same_settings_trans; [apply Hf | apply IH].
Qed.

Lemma refuseSettings_local k m s : local k s (refuseSettings d k m s).
Proof.
  unfold refuseSettings.
  eapply (local_trans _ _ (set_pendingSettings (om_delete k (sc_pendingSettings s)) s));
    [auto with local | apply local_foldl; intros; apply refuse_local].
Qed.
Lemma refuseSettings_maps k m s :
  sc_pendingSettings (refuseSettings d k m s) = om_delete k (sc_pendingSettings s) /\
  sc_settingsInFlight (refuseSettings d k m s) = sc_settingsInFlight s.
Proof.
  unfold refuseSettings. set (s1 := set_pendingSettings _ s).
  apply (same_settings_foldl (refuse d (Some m)) (pendingOf k s) s1). intros. apply refuse_same.
Qed.

Lemma dropAbandonedSettings_local k s : local k s (dropAbandonedSettings d k s).
Proof. unfold dropAbandonedSettings. case_match; auto with local. Qed.

Lemma sendSetting_local k e s : ps_sessionId e = k -> local k s (fst (sendSetting d e s)).
Proof.
  intros <-. unfold sendSetting. destruct (dp_sendToAgent _ _ _); simpl; [|auto with local].
  eapply (local_trans _ _ (tell (EvToAgent (ps_frame e) true) s)); [auto with local|].
  apply local_inflight. simpl. auto with local.
Qed.

Lemma flushSettings_local k s :
  settings_ok s -> local k s (flushSettings d k s).
Proof.
  intros Hok. unfold flushSettings. eapply local_trans; [apply (dropAbandonedSettings_local k)|].
  assert (forall l, om_get k (sc_pendingSettings (dropAbandonedSettings d k s)) = Some l -> own k l) as Hown.
  { intros l. unfold dropAbandonedSettings. destruct (om_get k (sc_pendingSettings s)) as [l'|] eqn:E; simpl.
    - autorewrite with dam. rewrite decide_True by done. intros H.
      assert (own k l') by (by apply (Hok k)).
      assert (own k (List.filter (fun e => dp_isOpen d (sc_log s) (ps_channel e)) l')) as Hf
        by (by apply Forall_List_filter).
      destruct (List.filter _ l'); by simplify_eq.
    - by rewrite E. }
  set (s1 := dropAbandonedSettings d k s) in *. clearbody s1.
  destruct (om_has k _); [auto with local|].
  destruct (om_get k (sc_pendingSettings s1)) as [[|h r]|]; [auto with local | | auto with local].
  destruct (_ || _); [auto with local|].
  assert (ps_sessionId h = k) as Hh by (specialize (Hown _ eq_refl); by inversion Hown).
  pose proof (sendSetting_local k h s1 Hh) as H. destruct (sendSetting d h s1) as [s2 []]; [|done].
  eapply local_trans; [exact H|]. auto with local.
Qed.

Lemma notifyAccepted_local k e b1 b2 s : local k s (notifyAccepted d e b1 b2 s).
Proof. unfold notifyAccepted. repeat case_match; auto using sendToChannel_local with local. Qed.
Lemma notifyAccepted_same e b1 b2 s : same_settings s (notifyAccepted d e b1 b2 s).
Proof. unfold notifyAccepted. repeat case_match; auto using sendToChannel_same; done. Qed.

Lemma has_set_present {V} j k (v v' : V) (m : list (string * V)) :
  om_get k m = Some v' -> om_has j (om_set k v m) = om_has j m.
Proof. intros H. unfold om_has. autorewrite with dam. case_decide; [subst; by rewrite H | done]. Qed.

Lemma joinTurn_local k s e : local k s (joinTurn d k s e).
Proof.
  unfold joinTurn. destruct (ps_steerOnly e).
  - eapply (local_trans _ _ (tell (EvSteered e _) s)); auto with local.
  - eapply local_trans; [apply notifyAccepted_local|].
    eapply local_trans; [|apply local_tell; exact I].
    destruct (om_get k (sc_activeTurns s)) eqn:E; [|auto with local].
    assert (sc_activeTurns (notifyAccepted d e false true s) = sc_activeTurns s) as Hn.
    { unfold notifyAccepted, sendToChannel. repeat case_match; done. }
    apply local_active; rewrite Hn; [intros j; by eapply has_set_present|].
    rewrite om_set_keys, E. by rewrite app_nil_r.
Qed.
Lemma joinTurn_same k s e : same_settings s (joinTurn d k s e).
Proof.
  unfold joinTurn. destruct (ps_steerOnly e); [done|].
  destruct (notifyAccepted_same e false true s) as [H1 H2]. by case_match.
Qed.

Lemma answers_calm a l : Forall no_turn_event (map (fun e => EvAnswer e a) l).
Proof. induction l; by constructor. Qed.

Lemma answerStranded_local k s : local k s (answerStrandedSteers k s).
Proof.
  unfold answerStrandedSteers. destruct (om_get k _); [|auto with local].
  case_match; [auto with local|]. unfold answerSteerOnly. simpl.
  eapply (local_trans _ _ (replaceQueue k _ s)).
  - unfold replaceQueue. eapply local_trans; [|apply local_tell; exact I]. auto with local.
  - apply local_tell_all, answers_calm.
Qed.
Lemma answerStranded_same k s : same_settings s (answerStrandedSteers k s).
Proof. unfold answerStrandedSteers. repeat case_match; done. Qed.

Lemma beginSteer_local k b s : own k b -> local k s (beginSteer d b s).
Proof.
  intros Ho. unfold beginSteer. destruct (leadOf b) as [lead|] eqn:El; [|auto with local].
  rewrite (leadOf_session _ _ k El Ho).
  eapply (local_trans _ _ (set_nextTicket (sc_nextTicket s + 1) s)); [auto with local|].
  eapply local_trans; [|case_match; [apply local_tell; exact I | apply local_refl]].
  apply local_steering. simpl. auto with local.
Qed.
Lemma beginSteer_same b s : same_settings s (beginSteer d b s).
Proof. unfold beginSteer. by repeat case_match. Qed.

Lemma takeBatch_own k into s q b r : own k q -> takeBatch d into s q = (b, r) -> own k b /\ own k r.
Proof.
  destruct q as [|e q]; [intros _ [= <- <-]; split; constructor|]. intros Ho H.
  apply takeBatch_app in H as [Hq _]. rewrite Hq in Ho. by apply own_app in Ho.
Qed.

Lemma steerFromQueue_local k s : sched_wf s -> local k s (steerFromQueue d k s).
Proof.
  intros Hwf. unfold steerFromQueue.
  eapply (local_trans _ _ (clearSteerTimer k s)); [apply local_timers|].
  eapply local_trans; [apply (answerStranded_local k (clearSteerTimer k s))|].
  assert (sched_wf (answerStrandedSteers k (clearSteerTimer k s))) as Hwf1.
  { eapply (prims_wf 0); [|exact Hwf]. eapply (prims_silent_l _ _ _ (clearSteerTimer k s));
      [by apply silent_same | apply answerStranded_prims]. }
  revert Hwf1. generalize (answerStrandedSteers k (clearSteerTimer k s)). intros s1 Hwf1.
  destruct (om_get k (sc_queues s1)) as [[|e q]|] eqn:E; [auto with local | | auto with local].
  destruct (wf_queues s1 Hwf1 k _ E) as [_ Ho].
  destruct (canSteerNow d e s1).
  - destruct (takeBatch d into_steer s1 (e :: q)) as [b r] eqn:Eb.
    apply (takeBatch_own k) in Eb as [Hb _]; [|done].
    eapply local_trans; [|by apply beginSteer_local].
    eapply local_trans; [|apply local_tell; exact I]. auto with local.
  - repeat case_match; auto with local.
Qed.
Lemma steerFromQueue_same k s : same_settings s (steerFromQueue d k s).
Proof.
  unfold steerFromQueue. eapply same_settings_trans; [apply (answerStranded_same k (clearSteerTimer k s))|].
  generalize (answerStrandedSteers k (clearSteerTimer k s)). intros s1.
  destruct (om_get k _) as [[|e q]|]; [done| |done]. destruct (canSteerNow _ _ _).
  - destruct (takeBatch _ _ _ _). match goal with |- same_settings _ (beginSteer _ ?b ?t) => exact (beginSteer_same b t) end.
  - repeat case_match; done.
Qed.

Lemma enqueue_local b e s : local (ps_sessionId e) s (enqueue d e b s).
Proof. unfold enqueue. eapply local_trans; [|apply local_tell; exact I]. auto with local. Qed.
End Local.

(** ** Steps of one session *)
Record others (k : string) (s s' : Sched) : Prop := {
  ot_queues : forall j, j <> k -> queueOf j s' = queueOf j s;
  ot_steering : forall j, j <> k -> om_get j (sc_steering s') = om_get j (sc_steering s);
  ot_pending : forall j, j <> k -> om_get j (sc_pendingSettings s') = om_get j (sc_pendingSettings s);
  ot_inflight : forall j, j <> k -> om_get j (sc_settingsInFlight s') = om_get j (sc_settingsInFlight s);
  ot_active : forall j, j <> k -> om_has j (sc_activeTurns s') = om_has j (sc_activeTurns s);
}.

(** An operation on session [k]: it leaves the others alone, and every
    session's events follow its turns. *)
Definition step_of (k : string) (s s' : Sched) : Prop :=
  others k s s' /\ (forall j, turns_follow j s s') /\
  (NoDup (om_keys (sc_activeTurns s)) -> NoDup (om_keys (sc_activeTurns s'))).

Lemma local_step k s s' : local k s s' -> step_of k s s'.
Proof.
  intros H. split; [destruct H; by split|]. split; [intros; by eapply local_follow|].
  by rewrite (lc_turns _ _ _ H).
Qed.
Lemma step_of_trans k s1 s2 s3 : step_of k s1 s2 -> step_of k s2 s3 -> step_of k s1 s3.
Proof.
  intros [[Hq1 Hs1 Hp1 Hi1 Ha1] [Ht1 Hn1]] [[Hq2 Hs2 Hp2 Hi2 Ha2] [Ht2 Hn2]].
  split; [|split; [intros; by eapply turns_follow_trans | auto]].
  split; intros; [by rewrite Hq2, Hq1 | by rewrite Hs2, Hs1 | by rewrite Hp2, Hp1
    | by rewrite Hi2, Hi1 | by rewrite Ha2, Ha1].
Qed.

Lemma om_has_false {V} k (m : list (string * V)) : om_has k m = false <-> om_get k m = None.
Proof. unfold om_has. by destruct (om_get k m). Qed.

(** A queue that [k]'s prompts wait in without anything being ahead, and a
    setting that waits with nothing in its way. *)
Definition progress_at (ready : list string) (k : string) (s : Sched) : Prop :=
  (queueOf k s <> [] -> nothingAhead k s = false \/ k ∉ ready) /\
  (om_has k (sc_pendingSettings s) = true ->
   om_has k (sc_activeTurns s) = true \/ om_has k (sc_settingsInFlight s) = true \/ k ∉ ready).

Lemma progress_others ready k s s' j :
  others k s s' -> j <> k -> progress_at ready j s -> progress_at ready j s'.
Proof.
  intros [Hq Hs Hp Hi Ha] Hj [H1 H2]. unfold progress_at, nothingAhead, om_has in *.
  specialize (Ha j Hj). unfold om_has in Ha. rewrite Hq, Hs, Hp, Hi, Ha by done. done.
Qed.

(** The harness is up, and a session can start prompts exactly when it is
    ready (it is loaded and registered). *)
Record harness_up (ready : list string) (d : Deps) : Prop := {
  hu_send : forall tr f, dp_sendToAgent d tr f = true;
  hu_start : forall tr e, dp_canStart d tr e = bool_decide (ps_sessionId e ∈ ready);
  hu_loaded : forall loaded tr k, dp_sessionLoaded d = Some loaded -> k ∈ ready -> loaded tr k = true;
}.

Section Progress.
Context (d : Deps).

Lemma start_step e s :
  om_has (ps_sessionId e) (sc_activeTurns s) = false -> step_of (ps_sessionId e) s (fst (start d e s)).
Proof.
  intros Ha. unfold start.
  destruct (dp_sendToAgent d (sc_log s) (ps_frame e)); simpl; [|by apply local_step, local_tell].
  set (s1 := tell (EvTurnStarted e) _).
  assert (step_of (ps_sessionId e) s s1) as H.
  { split.
    - split; simpl; try done. intros j Hj. by rewrite om_has_set, decide_False.
    - split; [|simpl; auto with dam]. intros j. eexists. split; [simpl; by rewrite <- app_assoc|].
      unfold phase_of. simpl. rewrite om_has_set. unfold turn_phase_from. simpl.
      repeat case_decide; subst; try congruence; by rewrite Ha. }
  destruct (ps_promptId e); [|done].
  eapply step_of_trans; [exact H | apply local_step, sendToChannel_local].
Qed.

Lemma start_has e s :
  snd (start d e s) = true -> om_has (ps_sessionId e) (sc_activeTurns (fst (start d e s))) = true.
Proof.
  unfold start. destruct (dp_sendToAgent _ _ _); [|done]. simpl. intros _.
  assert (forall c m s', sc_activeTurns (sendToChannel d c m s') = sc_activeTurns s') as Hc
    by (intros; unfold sendToChannel; by case_match).
  case_match; rewrite ?Hc; simpl; rewrite om_has_set; by rewrite decide_True.
Qed.
Lemma start_same e s : same_settings s (fst (start d e s)).
Proof.
  unfold start. destruct (dp_sendToAgent _ _ _); [|done]. simpl. case_match; [|done].
  match goal with |- same_settings _ (sendToChannel _ ?c ?m ?t) => exact (sendToChannel_same d c m t) end.
Qed.

Lemma settings_ok_same s s' : same_settings s s' -> settings_ok s -> settings_ok s'.
Proof. intros [Hp _] H k l. rewrite Hp. apply H. Qed.

Lemma dropAbandoned_ok k s : settings_ok s -> settings_ok (dropAbandonedSettings d k s).
Proof.
  intros H. unfold dropAbandonedSettings. destruct (om_get k (sc_pendingSettings s)) as [l|] eqn:E; [|done].
  intros j l'. simpl. autorewrite with dam. case_decide; [subst|apply H].
  assert (own k (List.filter (fun e => dp_isOpen d (sc_log s) (ps_channel e)) l)) as Hf
    by (by apply Forall_List_filter, (H k l)).
  destruct (List.filter _ l); [done|]. by intros [= <-].
Qed.

Lemma set_or_delete_ok k rest s :
  settings_ok s -> own k rest ->
  settings_ok (set_pendingSettings (set_or_delete k rest (sc_pendingSettings s)) s).
Proof.
  intros H Ho j l. simpl. autorewrite with dam. case_decide; [subst|apply H].
  destruct rest; [done|]. by intros [= <-].
Qed.

(** After a flush, a setting still waits only behind a turn, behind another
    setting, or for its session to be loaded. *)
Lemma flushSettings_post k s :
  settings_ok s ->
  settings_ok (flushSettings d k s) /\
  forall ready, harness_up ready d ->
    om_has k (sc_pendingSettings (flushSettings d k s)) = true ->
    om_has k (sc_activeTurns (flushSettings d k s)) = true \/
    om_has k (sc_settingsInFlight (flushSettings d k s)) = true \/ k ∉ ready.
Proof.
  intros Hok. unfold flushSettings. pose proof (dropAbandoned_ok k s Hok) as H1.
  set (s1 := dropAbandonedSettings d k s) in *. clearbody s1. clear Hok.
  destruct (om_has k (sc_settingsInFlight s1)) eqn:Ei; [split; [done|]; intros; right; by left|].
  destruct (om_get k (sc_pendingSettings s1)) as [[|h rest]|] eqn:Ep.
  - by apply (H1 k) in Ep as [? _].
  - destruct (H1 k _ Ep) as [_ Ho]. inversion Ho as [|? ? Hh Hrest]; subst.
    set (k := ps_sessionId h) in *.
    destruct (om_has k (sc_activeTurns s1)) eqn:Ea; simpl; [split; [done|]; intros; by left|].
    destruct (sessionLoaded d h s1) eqn:El; simpl.
    + unfold sendSetting. destruct (dp_sendToAgent d (sc_log s1) (ps_frame h)) eqn:Es; simpl.
      * split; [by apply (set_or_delete_ok k rest (set_settingsInFlight _ (tell _ s1)))|].
        intros. right. left. rewrite om_has_set. by rewrite decide_True.
      * split; [done|]. intros ready Hup. by rewrite (hu_send ready d Hup) in Es.
    + split; [done|]. intros ready Hup _. right. right. intros Hin. unfold sessionLoaded in El.
      destruct (dp_sessionLoaded d) as [loaded|] eqn:Ed.
      * by rewrite (hu_loaded ready d Hup loaded _ _ Ed) in El.
      * by rewrite (hu_start ready d Hup), bool_decide_true in El.
  - split; [done|]. intros ready _. unfold om_has. by rewrite Ep.
Qed.

Lemma progress_active ready k s : om_has k (sc_activeTurns s) = true -> progress_at ready k s.
Proof. intros H. split; [|by left]. intros _. left. unfold nothingAhead. by rewrite H. Qed.

Lemma joinTurns_local k s l : local k s (foldl (joinTurn d k) s l).
Proof. apply local_foldl. intros. apply joinTurn_local. Qed.
Lemma joinTurns_same k s l : same_settings s (foldl (joinTurn d k) s l).
Proof. apply same_settings_foldl. intros. apply joinTurn_same. Qed.

(** Starting the batch at the head of [k]'s queue, and what follows. *)
Lemma start_batch_effect k s b r lead :
  sched_wf s -> settings_ok s -> om_get k (sc_queues s) = Some (b ++ r) ->
  om_get k (sc_steering s) = None -> om_has k (sc_activeTurns s) = false ->
  leadOf b = Some lead -> snd (start d lead s) = true ->
  let s1 := tell (EvQueueChanged k) (set_queues (set_or_delete k r (sc_queues (fst (start d lead s))))
                                       (fst (start d lead s))) in
  let s2 := steerFromQueue d k (foldl (joinTurn d k) s1 (tail b)) in
  step_of k s s2 /\ settings_ok s2 /\ om_has k (sc_activeTurns s2) = true.
Proof.
  intros Hwf Hok Hg Hst Ha Hl Hsent s1 s2.
  destruct (wf_queues s Hwf k _ Hg) as [_ Ho]. apply own_app in Ho as [Hb _].
  pose proof (leadOf_session _ _ k Hl Hb) as Hk.
  pose proof (start_step lead s) as H1. rewrite Hk in H1. specialize (H1 Ha).
  pose proof (start_has lead s Hsent) as Ha1. rewrite Hk in Ha1.
  assert (local k (fst (start d lead s)) s1) as H2.
  { eapply local_trans; [|apply local_tell; exact I]. auto with local. }
  pose proof (joinTurns_local k s1 (tail b)) as H3.
  assert (sched_wf s1) as Hwf1.
  { eapply (prims_wf 0); [|exact Hwf]. eapply prims_silent_r; [by eapply start_batch_prims | by apply silent_tell]. }
  assert (sched_wf (foldl (joinTurn d k) s1 (tail b))) as Hwf2.
  { eapply (prims_wf 0); [apply silent_prims, joinTurns_silent | done]. }
  pose proof (steerFromQueue_local d k _ Hwf2) as H4.
  pose proof (local_trans _ _ _ _ (local_trans _ _ _ _ H2 H3) H4) as H5.
  split; [eapply step_of_trans; [exact H1 | by apply local_step]|]. split.
  - eapply settings_ok_same; [apply steerFromQueue_same|].
    eapply settings_ok_same; [apply joinTurns_same|]. exact (settings_ok_same _ _ (start_same lead s) Hok).
  - by rewrite (lc_active _ _ _ H5).
Qed.

Lemma maybeStartNext_effect k s :
  sched_wf s -> settings_ok s ->
  step_of k s (maybeStartNext d k s) /\ settings_ok (maybeStartNext d k s) /\
  forall ready, harness_up ready d -> progress_at ready k (maybeStartNext d k s).
Proof.
  intros Hwf Hok. unfold maybeStartNext.
  pose proof (flushSettings_local d k s Hok) as H1.
  destruct (flushSettings_post k s Hok) as [Hok1 Hpost].
  pose proof (prims_wf _ _ _ _ (silent_prims 0 _ _ (flushSettings_silent d k s)) Hwf) as Hwf1.
  set (s1 := flushSettings d k s) in *. clearbody s1.
  destruct (nothingAhead k s1) eqn:Ena; simpl.
  2: { split; [by apply local_step|]. split; [done|]. intros ready Hup. split; [by left | by apply Hpost]. }
  pose proof (answerStranded_local k s1) as H2.
  pose proof (answerStranded_same k s1) as Hsame.
  assert (nothingAhead k (answerStrandedSteers k s1) = true) as Hna2.
  { rewrite <- Ena. unfold answerStrandedSteers. repeat case_match; done. }
  pose proof (prims_wf _ _ _ _ (answerStranded_prims 0 k s1) Hwf1) as Hwf2.
  pose proof (settings_ok_same _ _ Hsame Hok1) as Hok2.
  pose proof (local_trans _ _ _ _ H1 H2) as H3.
  set (s2 := answerStrandedSteers k s1) in *. clearbody s2. clear Hpost Ena Hok1 Hwf1 H1 H2 Hsame s1.
  apply nothingAhead_true in Hna2 as (Ha & Hst & Hp & Hi).
  destruct (om_get k (sc_queues s2)) as [[|e q]|] eqn:E.
  - by apply (wf_queues s2 Hwf2) in E as [? _].
  - destruct (wf_queues s2 Hwf2 k _ E) as [_ Ho]. inversion Ho as [|? ? He _]; subst.
    set (k := ps_sessionId e) in *.
    destruct (dp_canStart d (sc_log s2) e) eqn:Ecan; simpl negb; cbv iota.
    + destruct (takeBatch d into_start s2 (e :: q)) as [b r] eqn:Eb.
      destruct (takeBatch_app d _ s2 e q b r Eb) as [Hq Hh].
      destruct (leadOf_head e b Hh) as [lead Hl]. rewrite Hl. rewrite Hq in E.
      apply om_has_false in Ha.
      pose proof (start_batch_effect k s2 b r lead Hwf2 Hok2 E Hst Ha Hl) as Hstart.
      pose proof (start_step lead s2) as Hs4. rewrite (leadOf_session b lead k Hl) in Hs4
        by (by rewrite Hq in Ho; apply own_app in Ho as [? _]).
      pose proof (start_same lead s2) as Hsm.
      pose proof (start_spec d lead s2) as (Hsnd & _).
      destruct (start d lead s2) as [s4 sent]. simpl in *. destruct sent.
      * destruct (Hstart eq_refl) as (Hs & Hk & Hact).
        split; [eapply step_of_trans; [by apply local_step | exact Hs]|].
        split; [done|]. intros. by apply progress_active.
      * split; [eapply step_of_trans; [by apply local_step | by apply Hs4]|].
        split; [by eapply settings_ok_same|]. intros ready Hup.
        by rewrite (hu_send ready d Hup) in Hsnd.
    + split; [by apply local_step|]. split; [done|]. intros ready Hup.
      rewrite (hu_start ready d Hup) in Ecan. apply bool_decide_eq_false in Ecan.
      split; [by right|]. rewrite Hp. done.
  - split; [by apply local_step|]. split; [done|]. intros ready _.
    split; [unfold queueOf; by rewrite E|]. by rewrite Hp.
Qed.

(** An operation on [k]: a step of [k] that keeps its progress. *)
Definition effect (k : string) (s s' : Sched) : Prop :=
  step_of k s s' /\ settings_ok s' /\
  forall ready, harness_up ready d -> progress_at ready k s -> progress_at ready k s'.

Lemma effect_refl k s : settings_ok s -> effect k s s.
Proof. intros. split; [apply local_step, local_refl | done]. Qed.
Lemma effect_trans k s1 s2 s3 : effect k s1 s2 -> effect k s2 s3 -> effect k s1 s3.
Proof.
  intros (H1 & _ & Hp1) (H2 & Hok & Hp2). split; [by eapply step_of_trans|]. split; [done|]. eauto.
Qed.
Lemma effect_start k s s1 :
  sched_wf s1 -> settings_ok s1 -> step_of k s s1 -> effect k s (maybeStartNext d k s1).
Proof.
  intros Hwf Hok H. destruct (maybeStartNext_effect k s1 Hwf Hok) as (H1 & Hok1 & Hp).
  split; [by eapply step_of_trans|]. split; [done|]. intros. by apply Hp.
Qed.

(** A local change that touches no setting, empties no wait and ends no steer. *)
Lemma effect_local k s s' :
  local k s s' -> same_settings s s' -> settings_ok s ->
  (om_has k (sc_steering s) = true -> om_has k (sc_steering s') = true) ->
  (queueOf k s' <> [] -> queueOf k s <> [] \/ nothingAhead k s = false \/
     forall ready, harness_up ready d -> k ∉ ready) ->
  effect k s s'.
Proof.
  intros Hl [Hp Hi] Hok Hst Hq. split; [by apply local_step|].
  split; [by apply (settings_ok_same s)|]. intros ready Hup [H1 H2].
  pose proof (lc_active _ _ _ Hl k) as Ha.
  assert (nothingAhead k s = false -> nothingAhead k s' = false) as Hah.
  { unfold nothingAhead. rewrite Hp, Hi, Ha. destruct (om_has k (sc_activeTurns s)); [done|].
    destruct (om_has k (sc_steering s)) eqn:E; [by rewrite Hst|].
    by destruct (om_has k (sc_steering s')). }
  split; [|by rewrite Hp, Hi, Ha].
  intros Hne. destruct (Hq Hne) as [Hq'|[Hq'|Hq']]; [|by left; apply Hah|right; by apply Hq'].
  destruct (H1 Hq'); [left; by apply Hah | by right].
Qed.

Lemma answerStranded_queue k s : queueOf k (answerStrandedSteers k s) <> [] -> queueOf k s <> [].
Proof.
  unfold answerStrandedSteers. destruct (om_get k (sc_queues s)) as [q|] eqn:E; [|done].
  destruct q; [simpl; unfold queueOf; by rewrite E|]. unfold queueOf at 2. rewrite E. done.
Qed.

Lemma beginSteer_has k b s lead :
  leadOf b = Some lead -> ps_sessionId lead = k -> om_has k (sc_steering (beginSteer d b s)) = true.
Proof.
  intros Hl <-. unfold beginSteer. rewrite Hl.
  case_match; simpl; rewrite om_has_set; by rewrite decide_True.
Qed.

Lemma steerFromQueue_keeps k s :
  sched_wf s ->
  (om_has k (sc_steering s) = true -> om_has k (sc_steering (steerFromQueue d k s)) = true) /\
  (queueOf k (steerFromQueue d k s) <> [] -> queueOf k s <> []).
Proof.
  intros Hwf. unfold steerFromQueue.
  pose proof (answerStranded_queue k (clearSteerTimer k s)) as Hq.
  assert (sc_steering (answerStrandedSteers k (clearSteerTimer k s)) = sc_steering s) as Hst.
  { unfold answerStrandedSteers. repeat case_match; done. }
  assert (sched_wf (answerStrandedSteers k (clearSteerTimer k s))) as Hwf1.
  { eapply (prims_wf 0); [|exact Hwf]. eapply (prims_silent_l _ _ _ (clearSteerTimer k s));
      [by apply silent_same | apply answerStranded_prims]. }
  change (queueOf k (clearSteerTimer k s)) with (queueOf k s) in Hq. rewrite <- Hst.
  revert Hq Hwf1. clear Hst. generalize (answerStrandedSteers k (clearSteerTimer k s)). intros s1 Hq Hwf1.
  destruct (om_get k (sc_queues s1)) as [[|e q]|] eqn:E; [by split| |by split].
  destruct (wf_queues s1 Hwf1 k _ E) as [_ Ho].
  assert (queueOf k s <> []) as Hne by (apply Hq; unfold queueOf; by rewrite E).
  destruct (canSteerNow d e s1).
  - destruct (takeBatch d into_steer s1 (e :: q)) as [b r] eqn:Eb.
    destruct (takeBatch_app d _ s1 e q b r Eb) as [Hqq Hh]. destruct (leadOf_head e b Hh) as [lead Hl].
    rewrite Hqq in Ho. apply own_app in Ho as [Hb _].
    split; [|done]. intros _. eapply beginSteer_has; [exact Hl | by eapply leadOf_session].
  - repeat case_match; by split.
Qed.

Lemma steerFromQueue_effect k s : sched_wf s -> settings_ok s -> effect k s (steerFromQueue d k s).
Proof.
  intros Hwf Hok. destruct (steerFromQueue_keeps k s Hwf) as [Hst Hq].
  apply effect_local; [by apply steerFromQueue_local | apply steerFromQueue_same | done | done | by left; auto].
Qed.

Lemma effect_steer k s s1 : effect k s s1 -> sched_wf s1 -> effect k s (steerFromQueue d k s1).
Proof.
  intros H Hwf. eapply effect_trans; [exact H|]. apply steerFromQueue_effect; [done | by destruct H as (_ & ? & _)].
Qed.

(** ** Each operation *)
Lemma enqueue_effect e s :
  settings_ok s ->
  (queueOf (ps_sessionId e) s <> [] \/ nothingAhead (ps_sessionId e) s = false \/
   forall ready, harness_up ready d -> ps_sessionId e ∉ ready) ->
  effect (ps_sessionId e) s (enqueue d e false s).
Proof. intros Hok H. apply effect_local; [apply enqueue_local | done | done | done | done]. Qed.

Lemma steer_if_first_effect k e s s1 :
  effect k s s1 -> sched_wf s1 ->
  effect k s (match queueOf k s1 with
              | first :: _ => if (ps_tag first =? ps_tag e)%Z then steerFromQueue d k s1 else s1
              | [] => s1
              end).
Proof. intros H Hwf. destruct (queueOf k s1); [done|]. case_match; [by apply effect_steer | done]. Qed.

Lemma enqueue_wf e s :
  sched_wf s -> (length (queueOf (ps_sessionId e) s) < PROMPT_QUEUE_CAP)%nat -> sched_wf (enqueue d e false s).
Proof. intros Hwf Hl. eapply (prims_wf 0); [by apply enqueue_prims | done]. Qed.

Lemma beginSteer_effect e s :
  settings_ok s -> effect (ps_sessionId e) s (beginSteer d [e] s).
Proof.
  intros Hok. apply effect_local;
    [by apply beginSteer_local; repeat constructor | apply beginSteer_same | done | |].
  - intros _. by eapply beginSteer_has.
  - intros H. left. revert H. unfold queueOf. by rewrite beginSteer_queues.
Qed.

Lemma must_wait_true e s :
  must_wait d e s = true ->
  nothingAhead (ps_sessionId e) s = false \/ forall ready, harness_up ready d -> ps_sessionId e ∉ ready.
Proof.
  unfold must_wait, nothingAhead. intros H.
  destruct (om_has _ (sc_activeTurns s)); [by left|]. destruct (om_has _ (sc_steering s)); [by left|].
  destruct (om_has _ (sc_pendingSettings s)); [by left|].
  destruct (om_has _ (sc_settingsInFlight s)); [by left|]. simpl in H. right. intros ready Hup.
  rewrite (hu_start ready d Hup) in H. apply negb_true_iff in H. by apply bool_decide_eq_false in H.
Qed.

Lemma notifyAccepted_effect k e b1 b2 s : settings_ok s -> effect k s (notifyAccepted d e b1 b2 s).
Proof.
  intros Hok. destruct (notifyAccepted_silent d e b1 b2 s) as (Hq & Hs & _).
  apply effect_local; [apply notifyAccepted_local | apply notifyAccepted_same | done | by rewrite Hs |].
  intros H. left. by rewrite <- (queueOf_same _ _ _ Hq).
Qed.

Lemma effect_ok k s s' : effect k s s' -> settings_ok s'.
Proof. by intros (_ & ? & _). Qed.

Lemma silent_wf s s' : silent s s' -> sched_wf s -> sched_wf s'.
Proof. intros H. eapply (prims_wf 0), silent_prims, H. Qed.

Lemma tell_effect k ev s : no_turn_event ev -> settings_ok s -> effect k s (tell ev s).
Proof. intros Hev Hok. apply effect_local; try done; [by apply local_tell | by left]. Qed.

Lemma targetLive_waits k target s :
  targetLive k target s = true -> nothingAhead k s = false \/ queueOf k s <> [].
Proof.
  unfold targetLive, activePromptIs, nothingAhead, om_has.
  destruct (om_get k (sc_activeTurns s)); [by left|]. destruct (queueOf k s); [done | by right].
Qed.

Lemma submitSteerOnly_effect e target s :
  sched_wf s -> settings_ok s -> effect (ps_sessionId e) s (fst (submitSteerOnly d e target s)).
Proof.
  intros Hwf Hok. unfold submitSteerOnly. destruct (targetLive _ _ _) eqn:El; simpl; [|by apply tell_effect].
  destruct (_ && _); simpl; [by apply beginSteer_effect|].
  destruct (PROMPT_QUEUE_CAP <=? length (queueOf (ps_sessionId e) s))%nat eqn:Ec; simpl; [by apply tell_effect|].
  apply Nat.leb_gt in Ec. apply steer_if_first_effect; [|by apply enqueue_wf].
  apply enqueue_effect; [done|]. apply targetLive_waits in El as []; auto.
Qed.

(** Waiting in the queue: noted to the sender, and steered when it is first. *)
Lemma submit_waits_effect e s :
  sched_wf s -> settings_ok s -> (length (queueOf (ps_sessionId e) s) < PROMPT_QUEUE_CAP)%nat ->
  must_wait d e s = true ->
  let s1 := notifyAccepted d e true false (enqueue d e false s) in
  effect (ps_sessionId e) s
    (match queueOf (ps_sessionId e) s1 with
     | first :: _ =>
         if (ps_tag first =? ps_tag e)%Z then steerFromQueue d (ps_sessionId e) s1 else s1
     | [] => s1
     end).
Proof.
  intros Hwf Hok Hl Hw s1.
  assert (effect (ps_sessionId e) s (enqueue d e false s)) as H.
  { apply enqueue_effect; [done|]. apply must_wait_true in Hw as []; auto. }
  apply steer_if_first_effect.
  - eapply effect_trans; [exact H|]. apply notifyAccepted_effect. by eapply effect_ok.
  - eapply silent_wf; [apply notifyAccepted_silent | by apply enqueue_wf].
Qed.

Lemma submit_starts_effect e s :
  sched_wf s -> settings_ok s -> must_wait d e s = false ->
  effect (ps_sessionId e) s
    (fst match start d e (notifyAccepted d e false false s) with
         | (s, true) => (s, pf_started)
         | (s, false) =>
             (tell (EvQueueChanged (ps_sessionId e))
                (set_queues (om_set (ps_sessionId e) [with_queuedAt (dp_now d) e] (sc_queues s)) s),
              pf_queued)
         end).
Proof.
  intros Hwf Hok Hw. apply must_wait_false in Hw as (Ha & _).
  pose proof (notifyAccepted_local d (ps_sessionId e) e false false s) as H1.
  pose proof (notifyAccepted_same d e false false s) as Hsm.
  set (s1 := notifyAccepted d e false false s) in *.
  assert (om_has (ps_sessionId e) (sc_activeTurns s1) = false) as Ha1.
  { rewrite (lc_active _ _ _ H1). by apply om_has_false. }
  pose proof (start_step e s1 Ha1) as H2. pose proof (start_has e s1) as H3.
  pose proof (start_same e s1) as H4. pose proof (start_spec d e s1) as (Hsnd & _).
  pose proof (settings_ok_same _ _ Hsm Hok) as Hok1. pose proof (settings_ok_same _ _ H4 Hok1) as Hok2.
  pose proof (step_of_trans _ _ _ _ (local_step _ _ _ H1) H2) as H5.
  destruct (start d e s1) as [s2 []]; simpl in *.
  - split; [done|]. split; [done|]. intros. apply progress_active. by apply H3.
  - split; [|split; [by apply (settings_ok_same s2)|]].
    + eapply step_of_trans; [exact H5|]. apply local_step.
      eapply local_trans; [|apply local_tell; exact I]. auto with local.
    + intros ready Hup. by rewrite (hu_send ready d Hup) in Hsnd.
Qed.

Lemma submit_effect e s : sched_wf s -> settings_ok s -> effect (ps_sessionId e) s (fst (submit d e s)).
Proof.
  intros Hwf Hok. unfold submit. destruct (ps_steerOnly e); [by apply submitSteerOnly_effect|].
  destruct (_ && _); simpl; [by apply beginSteer_effect|].
  fold (must_wait d e s). destruct (must_wait d e s) eqn:Ew; simpl; [|by apply submit_starts_effect].
  destruct (PROMPT_QUEUE_CAP <=? length (queueOf (ps_sessionId e) s))%nat eqn:Ec; simpl.
  - destruct (refuse_silent d None (tell (EvRefused e) s) e) as (Hq & Hs & _).
    apply effect_local; [|apply (refuse_same d None (tell (EvRefused e) s)) | done | by rewrite Hs |].
    + eapply local_trans; [by apply (local_tell _ (EvRefused e))|]. apply refuse_local.
    + intros H. left. rewrite (queueOf_same _ (tell (EvRefused e) s) _ Hq) in H. exact H.
  - apply Nat.leb_gt in Ec. by apply submit_waits_effect.
Qed.

(** Settings *)
Lemma pending_effect k s l :
  settings_ok s -> l <> [] -> own k l ->
  (forall ready, harness_up ready d -> progress_at ready k s ->
     om_has k (sc_activeTurns s) = true \/ om_has k (sc_settingsInFlight s) = true \/ k ∉ ready) ->
  effect k s (set_pendingSettings (om_set k l (sc_pendingSettings s)) s).
Proof.
  intros Hok Hne Ho H. split; [apply local_step; auto with local|]. split.
  - intros j l'. simpl. autorewrite with dam. case_decide; [subst; by intros [= <-] | apply Hok].
  - intros ready Hup Hp. split; [|intros _; simpl; by apply H].
    intros _. left. unfold nothingAhead. simpl. rewrite om_has_set, decide_True by done.
    by rewrite andb_false_r.
Qed.

Lemma submitSetting_effect e s : settings_ok s -> effect (ps_sessionId e) s (fst (submitSetting d e s)).
Proof.
  intros Hok. unfold submitSetting.
  assert (own (ps_sessionId e) (pendingOf (ps_sessionId e) s ++ [e])) as Ho.
  { apply own_app. split; [|by repeat constructor]. unfold pendingOf, own.
    destruct (om_get (ps_sessionId e) (sc_pendingSettings s)) eqn:E; simpl; [|done]. by apply (Hok (ps_sessionId e)). }
  destruct (_ && _) eqn:Ec.
  - rewrite !andb_true_iff, !negb_true_iff in Ec. destruct Ec as [[[Ep Ei] Ea] El].
    unfold sendSetting. destruct (dp_sendToAgent d (sc_log s) (ps_frame e)) eqn:Es; simpl.
    + split; [|split; [exact Hok|]].
      * apply local_step. eapply (local_trans _ _ (tell (EvToAgent (ps_frame e) true) s)); [auto with local|].
        apply local_inflight. simpl. auto with local.
      * intros ready _ _. split; [|intros _; right; left; simpl; by rewrite om_has_set, decide_True].
        intros _. left. unfold nothingAhead. simpl. rewrite om_has_set, decide_True by done.
        by rewrite andb_false_r.
    + apply (effect_trans _ _ (tell (EvToAgent (ps_frame e) false) s)); [by apply tell_effect|].
      apply (pending_effect _ (tell (EvToAgent (ps_frame e) false) s)); [done | by destruct (pendingOf _ _) | done |].
      intros ready Hup. by rewrite (hu_send ready d Hup) in Es.
  - apply pending_effect; [done | by destruct (pendingOf _ s) | done |].
    intros ready Hup [_ H2]. destruct (om_has (ps_sessionId e) (sc_pendingSettings s)); [by apply H2|].
    destruct (om_has (ps_sessionId e) (sc_settingsInFlight s)); [right; by left|].
    destruct (om_has (ps_sessionId e) (sc_activeTurns s)); [by left|]. simpl in Ec.
    right. right. intros Hin. unfold sessionLoaded in Ec.
    destruct (dp_sessionLoaded d) as [loaded|] eqn:Ed.
    + by rewrite (hu_loaded ready d Hup loaded _ _ Ed) in Ec.
    + by rewrite (hu_start ready d Hup), bool_decide_true in Ec.
Qed.

Lemma own_pending k s : settings_ok s -> own k (pendingOf k s).
Proof.
  intros Hok. unfold pendingOf, own. destruct (om_get k (sc_pendingSettings s)) eqn:E; simpl; [|done].
  by apply (Hok k).
Qed.

Lemma submitSettings_effect e es first s :
  sched_wf s -> settings_ok s -> own (ps_sessionId e) es ->
  effect (ps_sessionId e) s (submitSettings d (e :: es) first s).
Proof.
  intros Hwf Hok Ho. unfold submitSettings.
  assert (own (ps_sessionId e) (e :: es)) as Ho' by (by constructor).
  pose proof (own_pending (ps_sessionId e) s Hok) as Hp.
  apply effect_start; [by apply (silent_wf s); [by apply silent_same|] | |apply local_step; auto with local].
  intros j l. simpl. autorewrite with dam. case_decide; [subst|apply Hok]. intros [= <-].
  destruct first; split; [done | by apply (own_app _ (e :: es)) | | by apply own_app].
  intros H. by apply app_eq_nil in H as [_ ?].
Qed.

(** Fewer settings wait. *)
Lemma fewer_settings_effect k kept s :
  settings_ok s -> own k kept -> om_has k (sc_pendingSettings s) = true ->
  effect k s (set_pendingSettings (set_or_delete k kept (sc_pendingSettings s)) s).
Proof.
  intros Hok Ho Hp. split; [apply local_step; auto with local|].
  split; [by apply set_or_delete_ok|]. intros ready Hup [H1 H2]. specialize (H2 Hp).
  split; [|by intros _].
  intros _. unfold nothingAhead. simpl. destruct H2 as [H2|[H2|H2]]; [| |by right]; left; rewrite H2; [done|].
  by rewrite andb_false_r.
Qed.

Lemma dropQueuedSettings_effect k p s : settings_ok s -> effect k s (fst (dropQueuedSettings k p s)).
Proof.
  intros Hok. unfold dropQueuedSettings. destruct (om_get k (sc_pendingSettings s)) as [l|] eqn:E; [|by apply effect_refl].
  case_match; [by apply effect_refl|]. apply fewer_settings_effect; [done| |unfold om_has; by rewrite E].
  apply Forall_List_filter. by apply (Hok k).
Qed.

Lemma onDetached_effect k s : settings_ok s -> effect k s (onDetached d k s).
Proof.
  intros Hok. unfold onDetached, dropAbandonedSettings.
  destruct (om_get k (sc_pendingSettings s)) as [l|] eqn:E; [|by apply effect_refl].
  apply fewer_settings_effect; [done| |unfold om_has; by rewrite E].
  apply Forall_List_filter. by apply (Hok k).
Qed.

Lemma onSettingResponse_effect k id s :
  sched_wf s -> settings_ok s -> effect k s (onSettingResponse d k id s).
Proof.
  intros Hwf Hok. unfold onSettingResponse. destruct (om_get k _); [|by apply effect_refl].
  destruct (om_has id _); [|by apply effect_refl].
  apply effect_start; [by apply (silent_wf s); [by apply silent_same|] | done | apply local_step; auto with local].
Qed.

(** Turns *)
Lemma end_turn_step k t s :
  om_get k (sc_activeTurns s) = Some t ->
  step_of k s (tell (EvTurnEnded k)
                 (clearSteerTimer k (set_activeTurns (om_delete k (sc_activeTurns s)) s))).
Proof.
  intros Ha. split; [|split; [|simpl; auto with dam]].
  - split; simpl; try done. intros j Hj. by rewrite om_has_delete, decide_False.
  - intros j. exists [EvTurnEnded k]. split; [done|].
    unfold phase_of, turn_phase_from. simpl. rewrite om_has_delete.
    repeat case_decide; subst; try congruence. unfold om_has. by rewrite Ha.
Qed.

Lemma onPromptResponse_effect k id s :
  sched_wf s -> settings_ok s -> effect k s (fst (onPromptResponse d k id s)).
Proof.
  intros Hwf Hok. unfold onPromptResponse. destruct (om_get k (sc_activeTurns s)) as [t|] eqn:Ea;
    [|by apply effect_refl]. destruct (_ =? id)%Z; simpl; [|by apply effect_refl].
  pose proof (end_turn_step k t s Ea) as H1. set (s1 := tell (EvTurnEnded k) _) in *.
  assert (sched_wf s1) as Hwf1.
  { apply (silent_wf s); [|done]. split; [done|]. split; [done|]. exists [EvTurnEnded k]. by repeat constructor. }
  pose proof (prims_wf _ _ _ _ (answerStranded_prims 0 k s1) Hwf1) as Hwf2.
  pose proof (step_of_trans _ _ _ _ H1 (local_step _ _ _ (answerStranded_local k s1))) as H2.
  pose proof (settings_ok_same _ _ (answerStranded_same k s1) Hok) as Hok2.
  set (s2 := answerStrandedSteers k s1) in *. clearbody s2. clear Hwf1 H1 s1.
  destruct (length (queueOf k s2) =? 0)%nat eqn:El; simpl; [|by apply effect_start].
  destruct (om_has k (sc_pendingSettings s2)) eqn:Ep; [by apply effect_start|].
  split; [eapply step_of_trans; [exact H2 | apply local_step; auto with local]|]. split; [done|].
  intros ready _ _. split; [|simpl; by rewrite Ep]. unfold queueOf. simpl. autorewrite with dam.
  by rewrite decide_True.
Qed.

Lemma restartTurn_effect k id s : settings_ok s -> effect k s (restartTurn k id s).
Proof.
  intros Hok. unfold restartTurn. destruct (om_get k (sc_activeTurns s)) as [t|] eqn:E; [|by apply effect_refl].
  apply effect_local; try done; [|by left].
  apply local_active; [intros j; by eapply has_set_present|]. rewrite om_set_keys, E. by rewrite app_nil_r.
Qed.

(** A queue changed in place. *)
Lemma requeue_effect k q s :
  settings_ok s -> (q <> [] -> queueOf k s <> []) ->
  effect k s (set_queues (om_set k q (sc_queues s)) s).
Proof.
  intros Hok Hq. apply effect_local; try done; [apply local_queues; auto with local|].
  intros H. left. apply Hq. unfold queueOf in H. simpl in H. autorewrite with dam in H.
  by rewrite decide_True in H.
Qed.
Lemma replaceQueue_effect k q s :
  settings_ok s -> (q <> [] -> queueOf k s <> []) -> effect k s (replaceQueue k q s).
Proof.
  intros Hok Hq. unfold replaceQueue. apply effect_local; try done.
  - eapply local_trans; [|apply local_tell; exact I]. auto with local.
  - intros H. left. apply Hq. unfold queueOf in H. simpl in H. autorewrite with dam in H.
    by rewrite decide_True in H.
Qed.

Lemma findIndex_nonempty {A} (p : A -> bool) l i : findIndex p l = Some i -> l <> [].
Proof. by destruct l. Qed.

Lemma update_effect k p edit s : settings_ok s -> effect k s (fst (update k p edit s)).
Proof.
  intros Hok. unfold update. destruct (findIndex _ _) eqn:E; [|by apply effect_refl].
  apply findIndex_nonempty in E. destruct (_ !! _); simpl; [|by apply effect_refl].
  eapply effect_trans; [|apply tell_effect; [exact I|]]; [|exact Hok].
  eapply effect_trans; [by apply requeue_effect|]. by apply tell_effect.
Qed.

Lemma remove_effect k p s : sched_wf s -> settings_ok s -> effect k s (fst (remove d k p s)).
Proof.
  intros Hwf Hok. pose proof (remove_prims d k p s Hwf) as Hp. revert Hp. unfold remove.
  destruct (findIndex _ _) as [i|] eqn:E; [|intros; by apply effect_refl].
  pose proof (findIndex_nonempty _ _ _ E) as Hne.
  assert (effect k s (tell (EvTaken k (option_list (queueOf k s !! i)))
            (replaceQueue k (base.delete i (queueOf k s)) s))) as H.
  { eapply effect_trans; [by apply replaceQueue_effect|]. by apply tell_effect. }
  intros Hp. simpl in *. destruct (i =? 0)%nat eqn:Ei; [|done].
  apply effect_steer; [done|]. clear Hp.
  apply findIndex_lookup in E as (l1 & e & l2 & Hq & Hi & _).
  split.
  - intros j q. simpl. autorewrite with dam. case_decide; [subst j|apply Hwf].
    intros Hg. assert (own k (base.delete i (queueOf k s))) as Ho.
    { eapply sublist_Forall; [apply sublist_delete | by apply queueOf_sessions]. }
    destruct (base.delete i (queueOf k s)); by simplify_eq.
  - apply Hwf.
  - simpl. apply set_or_delete_NoDup, Hwf.
  - apply Hwf.
Qed.

Lemma adoptSteer_effect k p c s : settings_ok s -> effect k s (adoptSteer k p c s).
Proof.
  intros Hok. unfold adoptSteer. destruct (findIndex _ _) eqn:E; [|by apply effect_refl].
  apply findIndex_nonempty in E. by apply requeue_effect.
Qed.

Lemma steerNow_effect k p s : sched_wf s -> settings_ok s -> effect k s (fst (steerNow d k p s)).
Proof.
  intros Hwf Hok. unfold steerNow. destruct (findIndex _ _) as [i|] eqn:E; [|by apply effect_refl].
  pose proof (findIndex_nonempty _ _ _ E) as Hne. set (q' := map _ _ ++ _).
  assert (Forall2 marked (queueOf k s) q') as Hm.
  { subst q'. rewrite <- (take_drop (S i) (queueOf k s)) at 1.
    apply Forall2_app; [by apply Forall2_marked_map | apply Forall2_marked_refl]. }
  clearbody q'. set (s1 := set_queues (om_set k q' (sc_queues s)) s).
  assert (effect k s (steerFromQueue d k s1)) as H.
  { apply effect_steer; [by apply requeue_effect|]. eapply (prims_wf 0); [by apply mark_prims | done]. }
  revert H. generalize (steerFromQueue d k s1). intros s2 H.
  destruct (_ || _); simpl; [done|]. destruct (queueOf k s !! i); simpl; [|done].
  destruct (om_get k (sc_queues s2)) as [q2|] eqn:Eq; simpl; [|done].
  eapply effect_trans; [exact H|]. apply requeue_effect; [by eapply effect_ok|].
  unfold queueOf. rewrite Eq. simpl. by destruct q2.
Qed.

(** The steer's answer *)
Lemma enqueue_heads_local k l s :
  own k l -> local k s (foldl (fun s e => enqueue d (with_steerRefused e) true s) s (rev l)).
Proof.
  intros Ho. apply local_foldl. intros s' e He. rewrite list_elem_of_In, <- in_rev, <- list_elem_of_In in He.
  pose proof (proj1 (Forall_forall _ _) Ho e He) as Hs. simpl in Hs. rewrite <- Hs.
  apply (enqueue_local d true (with_steerRefused e)).
Qed.

Lemma enqueue_heads_same l s :
  same_settings s (foldl (fun s e => enqueue d (with_steerRefused e) true s) s l).
Proof. by apply same_settings_foldl. Qed.

Lemma settleSteer_effect k t o s : sched_wf s -> settings_ok s -> effect k s (settleSteer d k t o s).
Proof.
  intros Hwf Hok. pose proof (settleSteer_prims d 0 k t o s Hwf) as Hp.
  unfold settleSteer. destruct (om_get k (sc_steering s)) as [st|] eqn:E; [|by apply effect_refl].
  destruct (st_ticket st =? t)%Z; simpl; [|by apply effect_refl].
  destruct (wf_steering s Hwf k st E) as [_ Ho].
  set (s0 := tell (EvSettled (st_lead st) o) (set_steering (om_delete k (sc_steering s)) s)).
  assert (local k s s0) as H0.
  { eapply local_trans; [|apply local_tell; exact I]. auto with local. }
  destruct o.
  - pose proof (local_trans _ _ _ _ H0 (joinTurns_local k s0 (st_batch st))) as H1.
    pose proof (joinTurns_same k s0 (st_batch st)) as Hsm.
    pose proof (settings_ok_same s0 _ Hsm Hok) as Hok1.
    assert (sched_wf (foldl (joinTurn d k) s0 (st_batch st))) as Hwf1.
    { eapply (prims_wf 0); [|exact Hwf]. eapply prims_silent_r; [|apply SchedulerSafety.joinTurns_silent].
      apply prims_one. by eapply (prim_injected _ _ _ k st []). }
    set (s1 := foldl _ s0 _) in *. destruct (om_has k (sc_activeTurns s1)) eqn:Ea; simpl.
    + apply effect_steer; [|done]. split; [by apply local_step|]. split; [done|].
      intros. by apply progress_active.
    + apply effect_start; [done | done | by apply local_step].
  - unfold answerSteerOnly. simpl. set (s1 := tell_all _ s0).
    assert (local k s s1) as H1.
    { eapply local_trans; [exact H0|]. apply local_tell_all, answers_calm. }
    assert (own k (List.filter isOrdinary (st_batch st))) as Hoo by (by apply Forall_List_filter).
    pose proof (enqueue_heads_local k _ s1 Hoo) as H2.
    pose proof (enqueue_heads_same (rev (List.filter isOrdinary (st_batch st))) s1) as Hs2.
    pose proof (settled_back_wf d k st s Hwf E) as Hwf2. cbv zeta in Hwf2. fold s0 s1 in Hwf2.
    set (s2 := foldl _ s1 _) in *.
    set (s3 := foldl _ s2 _).
    assert (local k s2 s3) as H3 by (apply local_foldl; intros; apply notifyAccepted_local).
    assert (same_settings s2 s3) as Hs3 by (apply same_settings_foldl; intros; apply notifyAccepted_same).
    apply effect_start.
    + apply (silent_wf s2); [|done]. apply silent_foldl. intros. apply notifyAccepted_silent.
    + apply (settings_ok_same s2); [done|]. by apply (settings_ok_same s1).
    + apply local_step. eapply local_trans; [exact H1|]. by eapply local_trans.
Qed.

(** ** Operations on several sessions *)
Definition effect_all (s s' : Sched) : Prop :=
  (forall j, turns_follow j s s') /\
  (NoDup (om_keys (sc_activeTurns s)) -> NoDup (om_keys (sc_activeTurns s'))) /\
  settings_ok s' /\
  forall ready, harness_up ready d ->
    (forall j, progress_at ready j s) -> forall j, progress_at ready j s'.

Lemma effect_all_one k s s' : effect k s s' -> effect_all s s'.
Proof.
  intros ((Ho & Ht & Hn) & Hok & Hp). split; [done|]. split; [done|]. split; [done|].
  intros ready Hup Hall j. destruct (decide (j = k)) as [->|Hj]; [by apply Hp|].
  by eapply progress_others.
Qed.
Lemma effect_all_refl s : settings_ok s -> effect_all s s.
Proof. intros. split; [intros; apply turns_follow_refl | done]. Qed.
Lemma effect_all_trans s1 s2 s3 : effect_all s1 s2 -> effect_all s2 s3 -> effect_all s1 s3.
Proof.
  intros (Ht1 & Hn1 & _ & Hp1) (Ht2 & Hn2 & Hok & Hp2).
  split; [intros; by eapply turns_follow_trans|]. split; [auto|]. split; [done|]. eauto.
Qed.

Lemma withdrawFrom_effect c s l k q :
  sched_wf s -> settings_ok s -> om_get k (sc_queues s) = Some q ->
  effect k s (fst (withdrawFrom d c (s, l) (k, q))).
Proof.
  intros Hwf Hok Hg. unfold withdrawFrom. set (mine := fun e => _ && _).
  case_match; [by apply effect_refl|]. simpl. set (kept := List.filter _ q).
  apply effect_steer.
  - eapply effect_trans; [apply replaceQueue_effect; [done|]|].
    + intros _. unfold queueOf. rewrite Hg. simpl. by destruct q.
    + apply tell_effect; [exact I | done].
  - assert (own k kept) as Ho by (apply Forall_List_filter; by apply (wf_queues s Hwf k)).
    pose proof (proj1 (wf_iff s) Hwf) as [Hq Hs]. apply wf_iff. split; [|done]. simpl.
    by apply queues_ok_set_or_delete.
Qed.

Lemma withdraw_effect_aux c entries s l :
  sched_wf s -> settings_ok s -> NoDup (om_keys entries) ->
  (forall k q, (k, q) ∈ entries -> om_get k (sc_queues s) = Some q) ->
  effect_all s (fst (foldl (withdrawFrom d c) (s, l) entries)).
Proof.
  revert s l. induction entries as [|[k q] entries IH]; intros s l Hwf Hok Hnd Hin; [by apply effect_all_refl|].
  inversion Hnd as [|? ? Hk Hnd']; subst.
  pose proof (Hin k q ltac:(left)) as Hg.
  pose proof (withdrawFrom_effect c s l k q Hwf Hok Hg) as H.
  pose proof (withdrawFrom_prims d 0 c s l k q Hwf Hg) as Hp.
  pose proof (withdrawFrom_other d c s l k q) as Ho.
  change (effect_all s (fst (foldl (withdrawFrom d c) (withdrawFrom d c (s, l) (k, q)) entries))).
  destruct (withdrawFrom d c (s, l) (k, q)) as [s1 l1]. cbn [fst] in *.
  eapply effect_all_trans; [by eapply effect_all_one|].
  apply IH; [by eapply prims_wf | by eapply effect_ok | done |].
  intros k' q' Hin'. rewrite Ho; [apply Hin; by right|]. intros ->. apply Hk.
  apply list_elem_of_fmap. by exists (k, q').
Qed.

Lemma withdraw_effect c s : sched_wf s -> settings_ok s -> effect_all s (fst (withdraw d c s)).
Proof.
  intros Hwf Hok. apply withdraw_effect_aux; [done | done | apply Hwf |].
  intros. apply om_in_get; [apply Hwf | done].
Qed.

(** A dropped session has nothing left. *)
Lemma dropQueue_local k c s : local k s (dropQueue d k c s).
Proof.
  unfold dropQueue. set (s1 := refuseSettings _ _ _ _).
  assert (local k s s1) as H.
  { eapply (local_trans _ _ (clearSteerTimer k s)); [apply local_timers | apply refuseSettings_local]. }
  eapply local_trans; [exact H|]. clearbody s1. clear H s. unfold answerSteerOnly.
  set (s2 := set_steering _ s1). assert (local k s1 s2) as H2 by (apply local_steering; auto with local).
  assert (forall a l s', local k s' (tell_all (map (fun e => EvAnswer e a) l) s')) as Hans
    by (intros; apply local_tell_all, answers_calm).
  assert (forall s' m, m = om_delete k (sc_queues s') -> local k s' (set_queues m s')) as Hdel
    by (intros; subst; apply local_queues; auto with local).
  assert (forall s' dropped, local k s'
            (let s := tell (EvQueueChanged k) s' in
             match dropped with [] => s | _ => tell (EvQueueDropped k dropped c) s end)) as Hend.
  { intros s' dropped. simpl. eapply local_trans; [by apply (local_tell _ (EvQueueChanged k))|].
    destruct dropped; auto with local. }
  eapply local_trans; [exact H2|]. clearbody s2. clear H2.
  destruct (om_get k (sc_steering s1)) as [st|]; simpl.
  - eapply local_trans; [|apply Hend]. eapply local_trans; [|by apply Hdel].
    eapply local_trans; [|apply Hans]. apply Hans.
  - destruct (om_get k (sc_queues s2)).
    + eapply local_trans; [|apply Hend]. eapply local_trans; [|by apply Hdel]. apply Hans.
    + eapply local_trans; [|by apply Hdel]. apply Hans.
Qed.

Lemma refuseQueue_local k msg s : local k s (refuseQueue d k msg s).
Proof.
  unfold refuseQueue. set (s1 := refuseSettings _ _ _ _).
  assert (local k s s1) as H.
  { eapply (local_trans _ _ (clearSteerTimer k s)); [apply local_timers | apply refuseSettings_local]. }
  destruct (om_get k (sc_queues s1)) as [q|]; [|exact H].
  unfold answerSteerOnly. eapply local_trans; [exact H|].
  eapply (local_trans _ _ (set_queues (om_delete k (sc_queues s1)) s1)); [auto with local|].
  eapply local_trans; [by apply (local_tell _ (EvQueueChanged k))|].
  eapply local_trans; [apply local_tell_all, answers_calm|].
  apply local_foldl. intros s' e _. eapply local_trans; [by apply (local_tell _ (EvRefused e))|].
  apply refuse_local.
Qed.

Lemma dropQueue_settings k c s :
  sc_pendingSettings (dropQueue d k c s) = om_delete k (sc_pendingSettings s) /\
  sc_settingsInFlight (dropQueue d k c s) = sc_settingsInFlight s.
Proof.
  unfold dropQueue. destruct (refuseSettings_maps d k (dropMessage c) (clearSteerTimer k s)) as [H1 H2].
  revert H1 H2. generalize (refuseSettings d k (dropMessage c) (clearSteerTimer k s)). intros s1 H1 H2.
  unfold answerSteerOnly. destruct (om_get k (sc_steering s1)); simpl; repeat case_match; done.
Qed.

Lemma dropQueue_empties k c s :
  queueOf k (dropQueue d k c s) = [] /\ om_get k (sc_steering (dropQueue d k c s)) = None.
Proof.
  destruct (dropQueue_spec d k c s) as (Hq & Hs & _). unfold queueOf.
  rewrite Hq, Hs. autorewrite with dam. by rewrite !decide_True.
Qed.

Lemma pending_delete_ok k s : settings_ok s -> forall j l, om_get j (om_delete k (sc_pendingSettings s)) = Some l -> l <> [] /\ own j l.
Proof. intros Hok j l. autorewrite with dam. case_decide; [done | apply Hok]. Qed.

(** Nothing of [k] is left to make progress with. *)
Lemma progress_empty ready k s :
  queueOf k s = [] -> om_has k (sc_pendingSettings s) = false -> progress_at ready k s.
Proof. intros Hq Hp. split; [by rewrite Hq | by rewrite Hp]. Qed.

Lemma refuseQueue_effect k msg s : settings_ok s -> effect k s (refuseQueue d k msg s).
Proof.
  intros Hok. split; [apply local_step, refuseQueue_local|].
  assert (sc_pendingSettings (refuseQueue d k msg s) = om_delete k (sc_pendingSettings s) /\
          queueOf k (refuseQueue d k msg s) = []) as [Hp Hq].
  { unfold refuseQueue. destruct (refuseSettings_maps d k msg (clearSteerTimer k s)) as [H1 _].
    revert H1. generalize (refuseSettings d k msg (clearSteerTimer k s)). intros s1 H1.
    destruct (om_get k (sc_queues s1)) as [q|] eqn:E; [|unfold queueOf; by rewrite E].
    unfold answerSteerOnly. set (s2 := tell_all _ _).
    destruct (refusals_log d msg (List.filter isOrdinary q) s2) as (Hq & _).
    assert (same_settings s2 (foldl (fun s e => refuse d (Some msg) (tell (EvRefused e) s) e) s2
              (List.filter isOrdinary q))) as [Hs _].
    { apply same_settings_foldl. intros s' e. exact (refuse_same d (Some msg) (tell (EvRefused e) s') e). }
    split; [by rewrite Hs|]. unfold queueOf. rewrite Hq. simpl. autorewrite with dam. by rewrite decide_True. }
  split; [intros j l; rewrite Hp; by apply pending_delete_ok|]. intros ready _ _.
  apply progress_empty; [done|]. by rewrite Hp, om_has_delete, decide_True.
Qed.

Lemma refuseSettings_active k m s : sc_activeTurns (refuseSettings d k m s) = sc_activeTurns s.
Proof.
  unfold refuseSettings. generalize (pendingOf k s). intros l.
  change (sc_activeTurns s) with (sc_activeTurns (set_pendingSettings (om_delete k (sc_pendingSettings s)) s)).
  generalize (set_pendingSettings (om_delete k (sc_pendingSettings s)) s).
  induction l as [|e l IH]; intros s'; simpl; [done|]. rewrite IH.
  unfold refuse, sendToChannel. repeat case_match; done.
Qed.
Lemma dropQueue_active k c s : sc_activeTurns (dropQueue d k c s) = sc_activeTurns s.
Proof.
  destruct (dropQueue_spec d k c s) as (_ & _ & -> & _). by rewrite refuseSettings_active.
Qed.

Lemma forget_turns k j s : turns_follow j s (forget d k s).
Proof.
  unfold forget. set (s0 := set_settingsInFlight _ (set_activeTurns _ s)).
  destruct (om_get k (sc_activeTurns s)) as [t|] eqn:E.
  - pose proof (dropQueue_local k qd_session_forgotten (tell (EvTurnInterrupted k t) s0)) as H.
    destruct (lc_log _ _ _ H) as (evs & Hl & Hf).
    exists (EvTurnInterrupted k t :: evs ++ [EvTurnEnded k]). split; [simpl; rewrite Hl; simpl; by rewrite <- !app_assoc|].
    unfold phase_of. simpl. rewrite dropQueue_active. simpl. rewrite om_has_delete.
    rewrite turn_phase_cons. simpl. destruct (decide (k = j)) as [->|Hj].
    + rewrite (decide_True (P := j = j)) by done. unfold om_has. rewrite E. simpl.
      rewrite no_turn_phase_app, turn_phase_cons by done. simpl. by rewrite decide_True.
    + rewrite (decide_False (P := j = k)) by congruence. simpl.
      rewrite no_turn_phase_app, turn_phase_cons by done. simpl. by rewrite decide_False.
  - apply (local_follow j k). eapply local_trans; [|apply dropQueue_local].
    apply (local_trans _ _ (set_activeTurns (om_delete k (sc_activeTurns s)) s)).
    + rewrite om_delete_absent by done. apply local_active; done.
    + apply local_inflight. simpl. auto with local.
Qed.

Lemma forget_effect k s : settings_ok s -> effect k s (forget d k s).
Proof.
  intros Hok. unfold forget.
  set (s1 := match om_get k (sc_activeTurns s) with Some t => tell (EvTurnInterrupted k t) _ | None => _ end).
  assert (sc_queues s1 = sc_queues s /\ sc_steering s1 = sc_steering s /\
          sc_pendingSettings s1 = sc_pendingSettings s /\
          sc_settingsInFlight s1 = om_delete k (sc_settingsInFlight s) /\
          sc_activeTurns s1 = om_delete k (sc_activeTurns s)) as (Hq1 & Hs1 & Hp1 & Hi1 & Ha1).
  { subst s1. by destruct (om_get k (sc_activeTurns s)). }
  pose proof (forget_turns k) as Ht.
  pose proof (dropQueue_local k qd_session_forgotten s1) as Hl.
  destruct (dropQueue_settings k qd_session_forgotten s1) as [Hp Hi].
  destruct (dropQueue_empties k qd_session_forgotten s1) as [Hq Hs].
  set (s2 := dropQueue d k qd_session_forgotten s1) in *.
  set (s3 := match om_get k (sc_activeTurns s) with Some _ => tell (EvTurnEnded k) s2 | None => s2 end).
  assert (sc_queues s3 = sc_queues s2 /\ sc_steering s3 = sc_steering s2 /\
          sc_pendingSettings s3 = sc_pendingSettings s2 /\
          sc_settingsInFlight s3 = sc_settingsInFlight s2 /\
          sc_activeTurns s3 = sc_activeTurns s2) as (Hq3 & Hs3 & Hp3 & Hi3 & Ha3).
  { subst s3. by destruct (om_get k (sc_activeTurns s)). }
  split; [split; [|split; [intros j; apply (Ht j s)|]]|split].
  - split; intros j Hj.
    + rewrite (queueOf_same _ _ _ Hq3), (lc_queues _ _ _ Hl) by done. by apply queueOf_same.
    + rewrite Hs3, (lc_steering _ _ _ Hl) by done. by rewrite Hs1.
    + rewrite Hp3, (lc_pending _ _ _ Hl) by done. by rewrite Hp1.
    + rewrite Hi3, (lc_inflight _ _ _ Hl) by done. by rewrite Hi1, get_delete_other.
    + rewrite Ha3, (lc_active _ _ _ Hl), Ha1, om_has_delete. by rewrite decide_False.
  - rewrite Ha3, (lc_turns _ _ _ Hl), Ha1. auto with dam.
  - intros j l. rewrite Hp3, Hp, Hp1. by apply pending_delete_ok.
  - intros ready _ _. apply progress_empty; [by rewrite (queueOf_same _ _ _ Hq3)|].
    by rewrite Hp3, Hp, om_has_delete, decide_True.
Qed.

(** [clear]: every session at once. *)
Lemma tell_each_log (f : string -> Turn -> SEvent) (l : list (string * Turn)) s :
  let s' := foldl (fun s '(k, t) => tell (f k t) s) s l in
  sc_queues s' = sc_queues s /\ sc_pendingSettings s' = sc_pendingSettings s /\
  sc_settingsInFlight s' = sc_settingsInFlight s /\ sc_activeTurns s' = sc_activeTurns s /\
  sc_steering s' = sc_steering s /\
  sc_log s' = sc_log s ++ map (fun '(k, t) => f k t) l.
Proof.
  simpl. revert s. induction l as [|[k t] l IH]; intros s; simpl; [by rewrite app_nil_r|].
  destruct (IH (tell (f k t) s)) as (-> & -> & -> & -> & -> & ->). simpl. by rewrite <- app_assoc.
Qed.

Lemma interrupted_phase j p (l : list (string * Turn)) rest :
  NoDup (om_keys l) -> p = (if om_has j l then tp_running else tp_idle) ->
  turn_phase_from j p (map (fun '(k, t) => EvTurnInterrupted k t) l ++ rest) =
  turn_phase_from j (if om_has j l then tp_interrupted else tp_idle) rest.
Proof.
  revert p. induction l as [|[k t] l IH]; intros p Hnd ->; [done|]. unfold om_keys in Hnd. simpl in Hnd.
  apply NoDup_cons in Hnd as [Hk Hnd]. simpl map. rewrite <- app_comm_cons, turn_phase_cons.
  unfold om_has. simpl. destruct (decide (j = k)) as [->|Hj].
  - rewrite decide_True by done. simpl.
    assert (om_get k l = None) as Hg by (by apply om_get_None_keys).
    clear -Hg. induction l as [|[k' t'] l IH]; [done|]. simpl in *. case_decide as Hd; [done|].
    rewrite turn_phase_cons. simpl. rewrite decide_False by congruence. simpl. by apply IH.
  - rewrite decide_False by congruence. simpl. apply IH; [done|]. unfold om_has. by case_match.
Qed.

Lemma ended_phase j (l : list (string * Turn)) :
  NoDup (om_keys l) ->
  turn_phase_from j (if om_has j l then tp_interrupted else tp_idle) (map (fun '(k, t) => EvTurnEnded k) l) =
  Some tp_idle.
Proof.
  induction l as [|[k t] l IH]; intros Hnd; [done|]. unfold om_keys in Hnd. simpl in Hnd.
  apply NoDup_cons in Hnd as [Hk Hnd]. simpl map. rewrite turn_phase_cons.
  unfold om_has. simpl. destruct (decide (j = k)) as [->|Hj].
  - rewrite decide_True by done. simpl.
    assert (om_has k l = false) as Hg by (by apply om_has_false, om_get_None_keys).
    specialize (IH Hnd). by rewrite Hg in IH.
  - rewrite decide_False by congruence. simpl. apply IH. done.
Qed.

(** A change that leaves every turn alone. *)
Definition mute (s s' : Sched) : Prop :=
  sc_activeTurns s' = sc_activeTurns s /\
  exists evs, sc_log s' = sc_log s ++ evs /\ Forall no_turn_event evs.

Lemma mute_foldl {A} (f : Sched -> A -> Sched) l s : (forall s a, mute s (f s a)) -> mute s (foldl f s l).
Proof.
  intros Hf. revert s. induction l as [|a l IH]; intros s; simpl.
  { split; [done|]. exists []. by rewrite app_nil_r. }
  destruct (Hf s a) as (Ha & e1 & Hl1 & Hf1). destruct (IH (f s a)) as (Ha2 & e2 & Hl2 & Hf2).
  split; [congruence|]. exists (e1 ++ e2). rewrite Hl2, Hl1, app_assoc. split; [done|]. by apply Forall_app.
Qed.
Lemma refuseSettings_mute k m s : mute s (refuseSettings d k m s).
Proof. split; [apply refuseSettings_active | apply (lc_log k), refuseSettings_local]. Qed.
Lemma dropQueue_mute k c s : mute s (dropQueue d k c s).
Proof. split; [apply dropQueue_active | apply (lc_log k), dropQueue_local]. Qed.

Lemma fold_drop_queues c ks s j :
  queueOf j s = [] \/ j ∈ ks -> queueOf j (foldl (fun s k => dropQueue d k c s) s ks) = [].
Proof.
  revert s. induction ks as [|k ks IH]; intros s H; simpl.
  { destruct H as [?|H]; [done|]. by apply not_elem_of_nil in H. }
  apply IH. destruct (decide (j = k)) as [->|Hj]; [left; apply dropQueue_empties|].
  destruct H as [H|H]; [left; by rewrite (lc_queues _ _ _ (dropQueue_local k c s))|].
  apply elem_of_cons in H as [?|?]; [done | by right].
Qed.
Lemma fold_drop_pending c ks s j :
  om_get j (sc_pendingSettings s) = None ->
  om_get j (sc_pendingSettings (foldl (fun s k => dropQueue d k c s) s ks)) = None.
Proof.
  revert s. induction ks as [|k ks IH]; intros s H; simpl; [done|]. apply IH.
  destruct (dropQueue_settings k c s) as [-> _]. autorewrite with dam. by case_decide.
Qed.
Lemma fold_refuse_pending m ks s j :
  om_get j (sc_pendingSettings s) = None \/ j ∈ ks ->
  om_get j (sc_pendingSettings (foldl (fun s k => refuseSettings d k m s) s ks)) = None.
Proof.
  revert s. induction ks as [|k ks IH]; intros s H; simpl.
  { destruct H as [?|H]; [done|]. by apply not_elem_of_nil in H. }
  apply IH. destruct (refuseSettings_maps d k m s) as [-> _]. autorewrite with dam.
  case_decide; [by left|]. destruct H as [?|H]; [by left|]. apply elem_of_cons in H as [?|?]; [done | by right].
Qed.

Lemma clear_effect s :
  NoDup (om_keys (sc_activeTurns s)) -> settings_ok s -> effect_all s (clear d s).
Proof.
  intros Hnd Hok. unfold clear.
  set (s0 := set_settingsInFlight [] (set_steerTimers [] s)).
  pose proof (mute_foldl (fun s k => refuseSettings d k "the setting was not applied: the harness went down" s)
                (om_keys (sc_pendingSettings s0)) s0 (fun _ _ => refuseSettings_mute _ _ _)) as (Ha1 & e1 & Hl1 & Hf1).
  assert (forall j, om_get j (sc_pendingSettings (foldl (fun s k => refuseSettings d k
            "the setting was not applied: the harness went down" s) s0 (om_keys (sc_pendingSettings s0)))) = None) as Hp1.
  { intros j. apply fold_refuse_pending. destruct (om_get j (sc_pendingSettings s0)) eqn:E; [right|by left].
    apply om_get_Some_in in E. apply list_elem_of_fmap. by eexists (_, _). }
  set (s1 := foldl _ s0 _) in *. clearbody s1. simpl in Ha1, Hl1.
  set (active := sc_activeTurns s1) in *.
  destruct (tell_each_log EvTurnInterrupted active (set_activeTurns [] s1)) as (Hq2 & Hp2 & _ & Ha2 & Hs2 & Hl2).
  set (s2 := foldl _ (set_activeTurns [] s1) _) in *. clearbody s2. simpl in *.
  set (ks := js_uniq _).
  pose proof (mute_foldl (fun s k => dropQueue d k qd_scheduler_cleared s) ks s2
                (fun _ _ => dropQueue_mute _ _ _)) as (Ha3 & e3 & Hl3 & Hf3).
  assert (forall j, queueOf j (foldl (fun s k => dropQueue d k qd_scheduler_cleared s) s2 ks) = []) as Hq3.
  { intros j. apply fold_drop_queues. unfold queueOf. destruct (om_get j (sc_queues s2)) eqn:E; [right|by left].
    apply js_uniq_elem, elem_of_app. left. apply om_get_Some_in in E. apply list_elem_of_fmap. by eexists (_, _). }
  assert (forall j, om_get j (sc_pendingSettings (foldl (fun s k => dropQueue d k qd_scheduler_cleared s) s2 ks)) = None) as Hp3.
  { intros j. apply fold_drop_pending. by rewrite Hp2. }
  set (s3 := foldl _ s2 ks) in *. clearbody s3.
  destruct (tell_each_log (fun k _ => EvTurnEnded k) active s3) as (Hq4 & Hp4 & _ & Ha4 & _ & Hl4).
  set (s4 := foldl _ s3 active) in *. clearbody s4.
  split; [|split; [|split]].
  - intros j. exists (e1 ++ map (fun '(k, t) => EvTurnInterrupted k t) active ++ e3
                      ++ map (fun '(k, t) => EvTurnEnded k) active).
    split; [rewrite Hl4, Hl3, Hl2; simpl; rewrite Hl1; by rewrite <- !app_assoc|].
    unfold phase_of. rewrite Ha4, Ha3, Ha2. simpl.
    rewrite no_turn_phase_app, interrupted_phase, no_turn_phase_app by (done || by rewrite Ha1).
    apply ended_phase. by rewrite Ha1.
  - rewrite Ha4, Ha3, Ha2. intros _. constructor.
  - intros j l. by rewrite Hp4, Hp3.
  - intros ready _ _ j. apply progress_empty; [rewrite (queueOf_same _ _ _ Hq4); apply Hq3|].
    apply om_has_false. by rewrite Hp4.
Qed.
End Progress.

(** ** Every operation *)

(** Settings submitted together belong to one session, as the runtime's do. *)
Definition op_ok (op : SchedOp) : Prop :=
  match op with
  | OpSubmitSettings (e :: es) _ => own (ps_sessionId e) es
  | _ => True
  end.

Record sched_ok (s : Sched) : Prop := {
  so_wf : sched_wf s;
  so_settings : settings_ok s;
  so_turns : NoDup (om_keys (sc_activeTurns s));
}.

Lemma sched_step_effect d op s : op_ok op -> sched_ok s -> effect_all d s (sched_step d op s).
Proof.
  intros Hop [Hwf Hok Hnd].
  destruct op; simpl in *;
    try (eapply effect_all_one; first
      [ by apply submit_effect | by apply submitSetting_effect | by apply dropQueuedSettings_effect
      | by apply onSettingResponse_effect | by apply onPromptResponse_effect | by apply onDetached_effect
      | by apply refuseQueue_effect | by apply update_effect | by apply remove_effect
      | by apply steerNow_effect | by apply adoptSteer_effect | by apply restartTurn_effect
      | by apply settleSteer_effect | by apply steerFromQueue_effect | by apply forget_effect
      | by apply effect_start; [..|apply local_step, local_refl] ]).
  - destruct es as [|e es]; [by apply effect_all_refl|].
    eapply effect_all_one. by apply submitSettings_effect.
  - unfold resolveSteer. destruct (om_get _ _); [|by apply effect_all_refl].
    eapply effect_all_one. by apply settleSteer_effect.
  - unfold steerTimerFired. destruct (om_has _ _); [|by apply effect_all_refl].
    eapply effect_all_one. by apply steerFromQueue_effect.
  - by apply withdraw_effect.
  - by apply clear_effect.
Qed.

Lemma sched_step_ok d op s : op_ok op -> sched_ok s -> sched_ok (sched_step d op s).
Proof.
  intros Hop Hs. destruct (sched_step_effect d op s Hop Hs) as (_ & Hn & Hok & _). destruct Hs.
  split; [by apply sched_step_wf | done | by apply Hn].
Qed.

Lemma create_ok : sched_ok createPromptScheduler.
Proof. split; [apply create_wf | done | constructor]. Qed.

(** C19: a session runs one turn at a time, and its observers are told of each
    start and each end: read off the callbacks, starts and ends alternate
    (an interruption comes between), and a turn is on exactly while the
    scheduler holds one. *)
Theorem turns_alternate l k :
  Forall (fun '(_, op) => op_ok op) l ->
  let s := sched_run l createPromptScheduler in
  turn_phase k (sc_log s) = Some (if hasTurnInFlight k s then tp_running else tp_idle).
Proof.
  intros Hl s. subst s.
  assert (turn_phase k (sc_log createPromptScheduler) = Some (phase_of k createPromptScheduler)) as H0 by done.
  pose proof create_ok as Hok. revert H0 Hok. generalize createPromptScheduler.
  induction Hl as [|[d op] l Hop _ IH]; intros s H0 Hok; [exact H0|].
  apply (IH (sched_step d op s)); [|by apply sched_step_ok].
  destruct (sched_step_effect d op s Hop Hok) as (Ht & _). destruct (Ht k) as (evs & -> & Hev).
  change (turn_phase_from k tp_idle (sc_log s ++ evs) = Some (phase_of k (sched_step d op s))).
  rewrite turn_phase_app. change (turn_phase_from k tp_idle (sc_log s)) with (turn_phase k (sc_log s)).
  by rewrite H0.
Qed.

(** ** The scheduler with its environment

    The sessions that can start a prompt change outside the scheduler; when one
    becomes ready the runtime says so ([onSessionReady]). *)
Inductive EnvStep :=
| EnvOp (d : Deps) (op : SchedOp)
| EnvReady (k : string) (d : Deps)
| EnvCold (k : string).

Definition env_step (st : EnvStep) (w : list string * Sched) : list string * Sched :=
  let '(ready, s) := w in
  match st with
  | EnvOp d op => (ready, sched_step d op s)
  | EnvReady k d => (k :: ready, onSessionReady d k s)
  | EnvCold k => (List.filter (fun j => negb (String.eqb j k)) ready, s)
  end.
Definition env_run (l : list EnvStep) : list string * Sched := foldl (fun w st => env_step st w) ([], createPromptScheduler) l.

(** The harness takes what it is sent, and [canStart] says which sessions are
    ready. *)
Fixpoint env_up (l : list EnvStep) (w : list string * Sched) : Prop :=
  match l with
  | [] => True
  | st :: l =>
      match st with
      | EnvOp d op => op_ok op /\ harness_up (fst w) d
      | EnvReady k d => harness_up (k :: fst w) d
      | EnvCold k => True
      end /\ env_up l (env_step st w)
  end.

Definition env_good (w : list string * Sched) : Prop :=
  sched_ok (snd w) /\ forall j, progress_at (fst w) j (snd w).

Lemma progress_ready k ready j s :
  j <> k -> progress_at ready j s -> progress_at (k :: ready) j s.
Proof.
  intros Hj [H1 H2]. assert (j ∉ ready -> j ∉ k :: ready) as Hin by (intros ?; by apply not_elem_of_cons).
  split; intros H; [destruct (H1 H) | destruct (H2 H) as [|[]]]; auto.
Qed.
Lemma progress_cold k ready j s :
  progress_at ready j s -> progress_at (List.filter (fun j => negb (String.eqb j k)) ready) j s.
Proof.
  assert (forall x, x ∉ ready -> x ∉ List.filter (fun j => negb (String.eqb j k)) ready) as Hf.
  { intros x Hx Hin. apply Hx. apply list_elem_of_In, filter_In in Hin as [Hin _]. by apply list_elem_of_In. }
  intros [H1 H2]. split; intros H; [destruct (H1 H) | destruct (H2 H) as [|[]]]; auto.
Qed.

Lemma env_step_good st w :
  env_good w -> (match st with
                 | EnvOp d op => op_ok op /\ harness_up (fst w) d
                 | EnvReady k d => harness_up (k :: fst w) d
                 | EnvCold k => True end) -> env_good (env_step st w).
Proof.
  destruct w as [ready s]. intros [Hok Hp] H. destruct st as [d op|k d|k]; simpl in *.
  - destruct H as [Hop Hup]. split; [by apply sched_step_ok|]. simpl.
    by apply (sched_step_effect d op s Hop Hok).
  - destruct (maybeStartNext_effect d k s (so_wf s Hok) (so_settings s Hok)) as ((Ho & _ & Hn) & Hok' & Hk).
    split; [split; [|done|apply Hn, Hok]|].
    + eapply (prims_wf 0); [apply (maybeStartNext_prims d 0 k s), Hok | apply Hok].
    + intros j. simpl. destruct (decide (j = k)) as [->|Hj]; [by apply Hk|].
      eapply progress_others; [exact Ho | done |]. by apply progress_ready.
  - split; [done|]. intros j. by apply progress_cold.
Qed.

Lemma env_run_good l w : env_good w -> env_up l w -> env_good (foldl (fun w st => env_step st w) w l).
Proof.
  revert w. induction l as [|st l IH]; intros w Hw; simpl; [done|]. intros [H Hl].
  apply IH; [by apply env_step_good | done].
Qed.

Lemma env_start_good : env_good ([], createPromptScheduler).
Proof. split; [apply create_ok|]. intros j. by apply progress_empty. Qed.

(** C12: while the harness is up, a prompt waits only for something: whenever
    prompts are queued in a session that is ready, a turn, a steer or a setting
    of that session is on its way; and a setting waits only for a turn or for
    another setting. *)
Theorem no_idle_waiting l k :
  env_up l ([], createPromptScheduler) ->
  let '(ready, s) := env_run l in
  k ∈ ready ->
  (queueOf k s <> [] -> nothingAhead k s = false) /\
  (om_has k (sc_pendingSettings s) = true ->
   om_has k (sc_activeTurns s) = true \/ om_has k (sc_settingsInFlight s) = true).
Proof.
  intros Hup. pose proof (env_run_good l _ env_start_good Hup) as [_ Hp].
  unfold env_run. destruct (foldl _ _ l) as [ready s]. simpl in Hp. intros Hin.
  destruct (Hp k) as [H1 H2]. split; intros H; [by destruct (H1 H)|]. destruct (H2 H) as [|[]]; auto.
Qed.

(** ** Order *)

(** Operations that neither give a prompt back nor take a steer-only one. *)
Definition op_keeps (op : SchedOp) : bool :=
  match op with
  | OpSubmit e => isOrdinary e
  | OpUpdate _ _ _ | OpRemove _ _ | OpRefuseQueue _ _ | OpForget _ | OpClear => false
  | _ => true
  end.

(** The prompts a run takes in: those not refused because the queue is full. *)
Definition accepted (st : EnvStep) (s : Sched) : list PromptSubmission :=
  match st with
  | EnvOp d (OpSubmit e) => match snd (submit d e s) with pf_refused => [] | _ => [e] end
  | _ => []
  end.
Fixpoint env_accepted (l : list EnvStep) (w : list string * Sched) : list PromptSubmission :=
  match l with
  | [] => []
  | st :: l => accepted st (snd w) ++ env_accepted l (env_step st w)
  end.

Lemma line_silent k s s' : silent s s' -> line k s' = line k s.
Proof.
  intros (Hq & Hs & evs & Hl & Hf). unfold line, held, queued_prompts.
  by rewrite Hl, delivered_app, (quiet_delivered k evs), app_nil_r, (queueOf_same k _ _ Hq),
    (st_prompts_same k _ _ Hs) by done.
Qed.

Lemma ordinary_same s s' :
  sc_queues s' = sc_queues s -> sc_steering s' = sc_steering s -> all_ordinary s -> all_ordinary s'.
Proof.
  intros Hq Hs [H1 H2]. split; [intros j; rewrite (queueOf_same _ _ _ Hq); apply H1 | by rewrite Hs].
Qed.

Lemma submit_full d e s :
  isOrdinary e = true -> length (queueOf (ps_sessionId e) s) <> 0%nat -> must_wait d e s = true ->
  (PROMPT_QUEUE_CAP <= length (queueOf (ps_sessionId e) s))%nat ->
  submit d e s = (refuse d None (tell (EvRefused e) s) e, pf_refused).
Proof.
  intros Ho Hl Hw Hc. unfold submit. unfold isOrdinary in Ho. destruct (ps_steerOnly e); [done|].
  fold (must_wait d e s). rewrite Hw. apply Nat.eqb_neq in Hl. rewrite Hl. simpl.
  apply Nat.leb_le in Hc. by rewrite Hc.
Qed.

Lemma submit_fits d e s :
  isOrdinary e = true ->
  (length (queueOf (ps_sessionId e) s) < PROMPT_QUEUE_CAP)%nat -> snd (submit d e s) <> pf_refused.
Proof.
  intros Ho Hc. unfold submit. unfold isOrdinary in Ho. destruct (ps_steerOnly e); [done|].
  apply Nat.leb_gt in Hc. destruct (_ && _); simpl; [done|]. destruct (_ || _); [by rewrite Hc|].
  by destruct (start _ _ _) as [? []].
Qed.

Lemma sched_step_line_other d op s k :
  op_mode d op s = 0%nat -> op_incoming op s = [] -> accepted (EnvOp d op) s = [] ->
  sched_wf s -> all_ordinary s ->
  line k (sched_step d op s) = line k s ++ prompts_of k (accepted (EnvOp d op) s) /\
  all_ordinary (sched_step d op s).
Proof.
  intros Hm Hi -> Hwf Ho. pose proof (sched_step_prims d op s Hwf) as Hs. rewrite Hm, Hi in Hs.
  by eapply prims_line in Hs.
Qed.

Lemma sched_step_line d op s k ready :
  op_keeps op = true -> harness_up ready d -> sched_wf s -> all_ordinary s ->
  (forall j, progress_at ready j s) ->
  line k (sched_step d op s) = line k s ++ prompts_of k (accepted (EnvOp d op) s) /\
  all_ordinary (sched_step d op s).
Proof.
  intros Hk Hup Hwf Ho Hp.
  destruct op as [e| | | | | | | | | | | | | | | | | | | | |]; simpl in Hk; try done;
    try by apply sched_step_line_other.
  simpl. set (j := ps_sessionId e).
  assert (queueOf j s <> [] -> must_wait d e s = true) as Hwait.
  { intros Hne. destruct (Hp j) as [H1 _]. destruct (must_wait d e s) eqn:E; [done|].
    apply must_wait_false in E as (Ha & Hst & Hpe & Hi & Hc). fold j in Ha, Hst, Hpe, Hi.
    destruct (H1 Hne) as [H|H].
    - unfold nothingAhead, om_has in H, Hpe, Hi. by rewrite Ha, Hst, Hpe, Hi in H.
    - rewrite (hu_start ready d Hup) in Hc. apply bool_decide_eq_true in Hc. done. }
  destruct (decide (PROMPT_QUEUE_CAP <= length (queueOf j s))%nat) as [Hc|Hc].
  - assert (length (queueOf j s) <> 0%nat) as Hl by (unfold PROMPT_QUEUE_CAP in Hc; lia).
    assert (must_wait d e s = true) as Hw by (apply Hwait; by destruct (queueOf j s)).
    rewrite (submit_full d e s Hk Hl Hw Hc). simpl. rewrite app_nil_r.
    pose proof (refuse_silent d None (tell (EvRefused e) s) e) as Hs.
    split; [|destruct Hs as (Hq & Hst & _); by eapply ordinary_same].
    rewrite (line_silent k _ _ Hs). unfold line. simpl. by rewrite delivered_app, app_nil_r.
  - assert (submit_mode d e s = 0%nat) as Hm.
    { unfold submit_mode. rewrite Hk. fold j. simpl. destruct (length (queueOf j s) =? 0)%nat eqn:El; [done|].
      apply Nat.eqb_neq in El. rewrite Hwait by (by destruct (queueOf j s)).
      assert ((PROMPT_QUEUE_CAP <=? length (queueOf j s))%nat = false) as -> by (apply Nat.leb_gt; lia). done. }
    pose proof (submit_prims d e s Hwf) as Hs. rewrite Hm in Hs.
    assert (match snd (submit d e s) with pf_refused => [] | _ => [e] end = [e]) as ->.
    { pose proof (submit_fits d e s Hk ltac:(fold j; lia)). by destruct (snd (submit d e s)). }
    eapply prims_line in Hs; [exact Hs | done | done |]. by repeat constructor.
Qed.

(** C7: while the harness is up and no prompt is taken back, a session's ordinary
    prompts reach the harness in the order they were accepted: what it took,
    then the steer in flight, then the queue, is exactly what was accepted. *)
Theorem prompts_in_order l k :
  env_up l ([], createPromptScheduler) ->
  Forall (fun st => match st with EnvOp _ op => op_keeps op = true | _ => True end) l ->
  let s := snd (env_run l) in
  delivered_all k (sc_log s) ++ held k s =
  prompts_of k (env_accepted l ([], createPromptScheduler)).
Proof.
  intros Hup Hk s. subst s. unfold env_run.
  change (line k (snd (foldl (fun w st => env_step st w) ([], createPromptScheduler) l)) =
          line k (snd (@nil string, createPromptScheduler)) ++
          prompts_of k (env_accepted l ([], createPromptScheduler))).
  assert (all_ordinary (snd (@nil string, createPromptScheduler))) as Ho by done.
  pose proof env_start_good as Hg. revert Ho Hg Hup. generalize (@nil string, createPromptScheduler).
  induction Hk as [|st l Hst _ IH]; intros w Ho Hg Hup; [by rewrite app_nil_r|].
  destruct Hup as [H Hup]. pose proof (env_step_good st w Hg H) as Hg'.
  assert (line k (snd (env_step st w)) = line k (snd w) ++ prompts_of k (accepted st (snd w)) /\
          all_ordinary (snd (env_step st w))) as [Hl Ho'].
  { destruct w as [ready s], Hg as [Hok Hp]. destruct st as [d op|j d|j]; simpl in *.
    - destruct H as [_ Hu]. eapply sched_step_line; [done | done | apply Hok | done | done].
    - pose proof (maybeStartNext_prims d 0 j s (so_wf s Hok)) as Hs.
      eapply prims_line in Hs; [exact Hs | apply Hok | done | done].
    - by rewrite app_nil_r. }
  simpl. rewrite (IH _ Ho' Hg' Hup), Hl, prompts_of_app. by rewrite app_assoc.
Qed.

(** ** Sample runs *)
Lemma turns_alternate_witness :
  Forall (fun '(_, op) => op_ok op) sample_run /\
  hasTurnInFlight "s" (sched_run sample_run createPromptScheduler) = false /\
  (let s := sched_run sample_run createPromptScheduler in
   turn_phase "s" (sc_log s) = Some (if hasTurnInFlight "s" s then tp_running else tp_idle)).
Proof.
  assert (Forall (fun '(_, op) => op_ok op) sample_run) as H by (by repeat constructor).
  split; [exact H|]. split; [vm_compute; reflexivity | exact (turns_alternate sample_run "s" H)].
Defined.

Definition env_deps (ready : list string) (steer_point : bool) : Deps :=
  mk_deps 1000 (fun _ _ => true) None (fun _ e => bool_decide (ps_sessionId e ∈ ready)) None
    (Some (fun _ _ => true)) None true (Some (fun _ _ => steer_point)) None (fun _ _ => true)
    (fun _ => "turn").

Lemma env_deps_up ready b : harness_up ready (env_deps ready b).
Proof. by split. Qed.

(** A prompt and a setting wait for the session; a steer is refused. *)
Definition sample_env : list EnvStep :=
  [EnvOp (env_deps [] false) (OpSubmit (sample_prompt 1 "a" true));
   EnvOp (env_deps [] false) (OpSubmitSetting (sample_setting 9));
   EnvReady "s" (env_deps ["s"] false);
   EnvOp (env_deps ["s"] false) (OpSettingResponse "s" 9);
   EnvOp (env_deps ["s"] false) (OpSubmit (sample_prompt 2 "b" true));
   EnvOp (env_deps ["s"] true) (OpSteerPoint "s");
   EnvOp (env_deps ["s"] false) (OpSubmit (sample_prompt 3 "c" false));
   EnvOp (env_deps ["s"] false) (OpSettleSteer "s" 0 so_refused)].

Lemma sample_env_up : env_up sample_env ([], createPromptScheduler).
Proof.
  repeat (split; [first [apply env_deps_up | split; [exact I | apply env_deps_up]]|]). exact I.
Qed.

Lemma no_idle_waiting_witness :
  env_up sample_env ([], createPromptScheduler) /\
  (let '(ready, s) := env_run sample_env in
   "s" ∈ ready ->
   (queueOf "s" s <> [] -> nothingAhead "s" s = false) /\
   (om_has "s" (sc_pendingSettings s) = true ->
    om_has "s" (sc_activeTurns s) = true \/ om_has "s" (sc_settingsInFlight s) = true)).
Proof. split; [exact sample_env_up | exact (no_idle_waiting sample_env "s" sample_env_up)]. Defined.

Lemma prompts_in_order_witness :
  env_up sample_env ([], createPromptScheduler) /\
  (let s := snd (env_run sample_env) in
   delivered_all "s" (sc_log s) ++ held "s" s =
   prompts_of "s" (env_accepted sample_env ([], createPromptScheduler))).
Proof.
  split; [exact sample_env_up|].
  assert (Forall (fun st => match st with EnvOp _ op => op_keeps op = true | _ => True end) sample_env) as H
    by (by repeat constructor).
  exact (prompts_in_order sample_env "s" sample_env_up H).
Defined.

Example sample_env_state :
  prompts_of "s" (env_accepted sample_env ([], createPromptScheduler)) = ["a"; "b"; "c"] /\
  delivered_all "s" (sc_log (snd (env_run sample_env))) = ["a"] /\
  held "s" (snd (env_run sample_env)) = ["b"; "c"].
Proof. vm_compute. done. Qed.
