(* ===== verification/HarnessLease.v ===== *)
(** The lease of a harness process
    (packages/agent-runtime/src/modules/acp/services/acp-runtime/harness-lease.ts).

    [Lease] holds the variables of [createHarnessLease], each function of the
    source is a definition of the same name, and what the lease does to the
    outside is appended to [ls_log].  A timer is its due time, and firing it is
    a step of its own, as are the end of the spawn work and the exit of the
    process.  A caller of [whenReady] passes a callback; the runtime's two
    ([attach]'s release and [prestart]) ask for the process and send the frames
    buffered so far ([Waiter]). *)
From stdpp Require Import base strings list.
From Stdlib Require Import ZArith.
From S2P Require Import Prelude.
Local Open Scope Z_scope.

(** ** Data *)
Inductive HarnessTeardownReason :=
| td_agent_exited | td_config_recycle | td_env_recycle | td_harness_unresponsive | td_shutdown.

Inductive DeferrableRecycle := dr_config_recycle | dr_env_recycle.

(** The values of [pendingRecycle] other than null. *)
Inductive RecycleReason := rr_owed (r : DeferrableRecycle) | rr_harness_unresponsive.

Record PendingRecycle := mk_pending { pr_reason : DeferrableRecycle; pr_since : Z }.
Record Superseded := mk_superseded { su_reason : option DeferrableRecycle; su_forced : bool }.
Record Waiter := mk_waiter { w_id : Z; w_frames : list Z }.

#[export] Instance DeferrableRecycle_dec : EqDecision DeferrableRecycle.
Proof. solve_decision. Defined.
#[export] Instance RecycleReason_dec : EqDecision RecycleReason.
Proof. solve_decision. Defined.
#[export] Instance HarnessTeardownReason_dec : EqDecision HarnessTeardownReason.
Proof. solve_decision. Defined.

Inductive LEvent :=
| LSpawned (pid : Z)
| LSent (pid : Z) (frame : Z)
| LReleased (waiter : Z)
| LTeardown (reason : HarnessTeardownReason)
| LKilled (pid : Z)
| LHoldStarted (cycle : Z)
| LPendingChange.

(** [HarnessLeaseDeps]: what is fixed for the lease, and what an operation asks. *)
Record LeaseConfig := mk_leaseconfig {
  lc_envReadyAtBoot : bool;
  lc_warmStartTimeoutMs : Z;
  lc_spawnWorkTimeoutMs : Z;
  lc_beforeSpawn : bool;
  lc_envForceRecycleMs : Z;
  lc_callDrainMs : Z;
}.
Record LeaseDeps := mk_leasedeps {
  ld_now : Z;
  ld_busy : bool;
  ld_keptTasks : nat;
  ld_callsInFlight : nat;
}.

Record Lease := mk_lease {
  ls_agent : option Z;
  ls_lastExitCause : option string;
  ls_terminal : bool;
  ls_envReady : bool;
  ls_readyWaiters : list Waiter;
  ls_warmTimer : option Z;
  ls_bootWorkStarted : bool;
  ls_bootWorkDone : bool;
  ls_bootCycle : Z;
  ls_gateOpen : bool;
  ls_bootTimer : option Z;
  ls_pendingRecycle : option RecycleReason;
  ls_owedSince : option Z;
  ls_forceTimer : option Z;
  ls_forceHeld : bool;
  ls_callTimer : option Z;
  ls_supersededRecycle : option Superseded;
  ls_nextPid : Z;
  ls_log : list LEvent;
}.

(** ** Assignments *)
Definition ltell (e : LEvent) (s : Lease) : Lease :=
  mk_lease (ls_agent s) (ls_lastExitCause s) (ls_terminal s) (ls_envReady s) (ls_readyWaiters s)
    (ls_warmTimer s) (ls_bootWorkStarted s) (ls_bootWorkDone s) (ls_bootCycle s) (ls_gateOpen s)
    (ls_bootTimer s) (ls_pendingRecycle s) (ls_owedSince s) (ls_forceTimer s) (ls_forceHeld s)
    (ls_callTimer s) (ls_supersededRecycle s) (ls_nextPid s) (ls_log s ++ [e]).

(** The process and the end of the lease. *)
Definition set_agent a cause terminal pid (s : Lease) : Lease :=
  mk_lease a cause terminal (ls_envReady s) (ls_readyWaiters s)
    (ls_warmTimer s) (ls_bootWorkStarted s) (ls_bootWorkDone s) (ls_bootCycle s) (ls_gateOpen s)
    (ls_bootTimer s) (ls_pendingRecycle s) (ls_owedSince s) (ls_forceTimer s) (ls_forceHeld s)
    (ls_callTimer s) (ls_supersededRecycle s) pid (ls_log s).

(** Waiters and the two timers that release them. *)
Definition set_waiting waiters warm boot (s : Lease) : Lease :=
  mk_lease (ls_agent s) (ls_lastExitCause s) (ls_terminal s) (ls_envReady s) waiters
    warm (ls_bootWorkStarted s) (ls_bootWorkDone s) (ls_bootCycle s) (ls_gateOpen s)
    boot (ls_pendingRecycle s) (ls_owedSince s) (ls_forceTimer s) (ls_forceHeld s)
    (ls_callTimer s) (ls_supersededRecycle s) (ls_nextPid s) (ls_log s).

(** The env, the spawn work and the gate. *)
Definition set_gate env started done cycle open (s : Lease) : Lease :=
  mk_lease (ls_agent s) (ls_lastExitCause s) (ls_terminal s) env (ls_readyWaiters s)
    (ls_warmTimer s) started done cycle open
    (ls_bootTimer s) (ls_pendingRecycle s) (ls_owedSince s) (ls_forceTimer s) (ls_forceHeld s)
    (ls_callTimer s) (ls_supersededRecycle s) (ls_nextPid s) (ls_log s).

(** The recycle that is owed. *)
Definition set_owed pending since superseded (s : Lease) : Lease :=
  mk_lease (ls_agent s) (ls_lastExitCause s) (ls_terminal s) (ls_envReady s) (ls_readyWaiters s)
    (ls_warmTimer s) (ls_bootWorkStarted s) (ls_bootWorkDone s) (ls_bootCycle s) (ls_gateOpen s)
    (ls_bootTimer s) pending since (ls_forceTimer s) (ls_forceHeld s)
    (ls_callTimer s) superseded (ls_nextPid s) (ls_log s).

(** The force timer, its hold and the drain of calls. *)
Definition set_timers force held call (s : Lease) : Lease :=
  mk_lease (ls_agent s) (ls_lastExitCause s) (ls_terminal s) (ls_envReady s) (ls_readyWaiters s)
    (ls_warmTimer s) (ls_bootWorkStarted s) (ls_bootWorkDone s) (ls_bootCycle s) (ls_gateOpen s)
    (ls_bootTimer s) (ls_pendingRecycle s) (ls_owedSince s) force held
    call (ls_supersededRecycle s) (ls_nextPid s) (ls_log s).

(** ** Callers *)
Definition is_some {A} (o : option A) : bool := match o with Some _ => true | None => false end.

Definition ensure (s : Lease) : Lease * bool :=
  if is_some (ls_agent s) then (s, true)
  else if ls_terminal s then (s, false)
  else
    let a := ls_nextPid s in
    (ltell (LSpawned a) (set_agent (Some a) (ls_lastExitCause s) (ls_terminal s) (a + 1) s), true).

Definition pid (s : Lease) : option Z := ls_agent s.
Definition lastExitCause (s : Lease) : option string := ls_lastExitCause s.

Definition send (frame : Z) (s : Lease) : Lease * bool :=
  match ls_agent s with
  | None => (s, false)
  | Some a => (ltell (LSent a frame) s, true)
  end.

(** A released callback: it asks for the process and sends what it buffered. *)
Definition runWaiter (s : Lease) (w : Waiter) : Lease :=
  match ensure (ltell (LReleased (w_id w)) s) with
  | (s, true) => foldl (fun s f => fst (send f s)) s (w_frames w)
  | (s, false) => s
  end.

(** ** The gate callers wait at *)
Definition releaseWaiters (s : Lease) : Lease :=
  let s := set_waiting (ls_readyWaiters s) None None s in
  let s := foldl runWaiter s (ls_readyWaiters s) in
  set_waiting [] (ls_warmTimer s) (ls_bootTimer s) s.

Definition openGate (s : Lease) : Lease :=
  releaseWaiters
    (set_gate (ls_envReady s) (ls_bootWorkStarted s) (ls_bootWorkDone s) (ls_bootCycle s) true s).

Definition releaseIfReady (s : Lease) : Lease :=
  if ls_envReady s && ls_bootWorkDone s then openGate s else s.

Definition finishBootWork (s : Lease) : Lease :=
  releaseIfReady
    (set_gate (ls_envReady s) (ls_bootWorkStarted s) true (ls_bootCycle s) (ls_gateOpen s) s).

Section Operations.
Context (c : LeaseConfig) (d : LeaseDeps).

Definition startBootWork (s : Lease) : Lease :=
  if ls_bootWorkStarted s || ls_bootWorkDone s || negb (ls_envReady s) then s
  else
    let s := set_gate (ls_envReady s) true (ls_bootWorkDone s) (ls_bootCycle s) (ls_gateOpen s) s in
    if negb (lc_beforeSpawn c) then finishBootWork s
    else
      set_waiting (ls_readyWaiters s) (ls_warmTimer s) (Some (ld_now d + lc_spawnWorkTimeoutMs c))
        (ltell (LHoldStarted (ls_bootCycle s)) s).

(** The spawn work of a cycle ended, whichever way. *)
Definition holdSettled (cycle : Z) (s : Lease) : Lease :=
  if cycle =? ls_bootCycle s then finishBootWork s else s.

Definition markEnvReady (s : Lease) : Lease :=
  if ls_envReady s then s
  else
    let s := set_gate true (ls_bootWorkStarted s) (ls_bootWorkDone s) (ls_bootCycle s)
               (ls_gateOpen s) s in
    releaseIfReady (startBootWork (set_waiting (ls_readyWaiters s) None (ls_bootTimer s) s)).

Definition warmTimerFired (s : Lease) : Lease :=
  openGate (set_gate true (ls_bootWorkStarted s) (ls_bootWorkDone s) (ls_bootCycle s)
              (ls_gateOpen s) s).

(** The lease as it is created. *)
Definition createHarnessLease : Lease :=
  let env := lc_envReadyAtBoot c in
  let done := negb (lc_beforeSpawn c) in
  mk_lease None None false env []
    (if env then None else Some (ld_now d + lc_warmStartTimeoutMs c))
    false done 0 (env && done) None None None None false None None 0 [].

Definition whenReady (w : Waiter) (s : Lease) : Lease :=
  let s := startBootWork s in
  if ls_gateOpen s then runWaiter s w
  else if existsb (fun v => w_id v =? w_id w) (ls_readyWaiters s) then s
  else set_waiting (ls_readyWaiters s ++ [w]) (ls_warmTimer s) (ls_bootTimer s) s.

(** What [whenReady] returns. *)
Definition cancelReady (id : Z) (s : Lease) : Lease :=
  set_waiting (List.filter (fun w => negb (w_id w =? id)) (ls_readyWaiters s))
    (ls_warmTimer s) (ls_bootTimer s) s.

(** ** Taking the process back *)
Definition resetPendingRecycle (s : Lease) : Lease :=
  let hadPending := is_some (ls_pendingRecycle s) in
  let s := set_timers None false None (set_owed None None None s) in
  if hadPending then ltell LPendingChange s else s.

Definition oweRecycle (reason : DeferrableRecycle) (forced : bool) (s : Lease) : Lease :=
  let superseded :=
    match ls_pendingRecycle s, ls_supersededRecycle s with
    | Some rr_harness_unresponsive, Some su =>
        Some (mk_superseded (Some (su_reason su ?? reason)) (su_forced su || forced))
    | _, su => su
    end in
  let s := set_owed (ls_pendingRecycle s) (Some (ls_owedSince s ?? ld_now d)) superseded s in
  if is_some (ls_pendingRecycle s) then s
  else
    ltell LPendingChange
      (set_owed (Some (rr_owed reason)) (ls_owedSince s) (ls_supersededRecycle s) s).

Definition clearWarmGate (s : Lease) : Lease := set_waiting [] None None s.

Definition teardown (reason : HarnessTeardownReason) (s : Lease) : Lease :=
  ltell (LTeardown reason) (clearWarmGate (resetPendingRecycle s)).

Definition rearmSpawnWork (s : Lease) : Lease :=
  if negb (lc_beforeSpawn c) then s
  else set_gate (ls_envReady s) false false (ls_bootCycle s + 1) false s.

Definition teardownOf (r : RecycleReason) : HarnessTeardownReason :=
  match r with
  | rr_owed dr_config_recycle => td_config_recycle
  | rr_owed dr_env_recycle => td_env_recycle
  | rr_harness_unresponsive => td_harness_unresponsive
  end.

Definition recycle (s : Lease) : Lease :=
  let reason := ls_pendingRecycle s ?? rr_owed dr_env_recycle in
  let s := resetPendingRecycle s in
  match ls_agent s with
  | None => s
  | Some old =>
      let s := set_agent None (ls_lastExitCause s) (ls_terminal s) (ls_nextPid s) s in
      let s := teardown (teardownOf reason) s in
      let s := if bool_decide (reason = rr_owed dr_env_recycle) then rearmSpawnWork s else s in
      ltell (LKilled old) s
  end.

Definition isUnresponsive (s : Lease) : bool :=
  bool_decide (ls_pendingRecycle s = Some rr_harness_unresponsive).

Definition forceRecycle (s : Lease) : Lease :=
  let s := set_timers None (ls_forceHeld s) (ls_callTimer s) s in
  if isUnresponsive s || (ld_keptTasks d =? 0)%nat then recycle s
  else set_timers (ls_forceTimer s) true (ls_callTimer s) s.

Definition armForce (s : Lease) : Lease :=
  if is_some (ls_forceTimer s) then s
  else set_timers (Some (ld_now d + lc_envForceRecycleMs c)) (ls_forceHeld s) (ls_callTimer s) s.

Definition recycleWhenSettled (s : Lease) : Lease * bool :=
  if ld_busy d then (s, false)
  else if isUnresponsive s || (ld_callsInFlight d =? 0)%nat then (recycle s, true)
  else
    (if is_some (ls_callTimer s) then s
     else set_timers (ls_forceTimer s) (ls_forceHeld s) (Some (ld_now d + lc_callDrainMs c)) s,
     false).

Definition callTimerFired (s : Lease) : Lease :=
  let s := set_timers (ls_forceTimer s) (ls_forceHeld s) None s in
  if ld_busy d then s else recycle s.

(** ** Requests *)
Definition refreshEnv (force : bool) (s : Lease) : Lease :=
  if negb (ls_envReady s) then markEnvReady s
  else if negb (is_some (ls_agent s)) then s
  else
    match recycleWhenSettled (oweRecycle dr_env_recycle force s) with
    | (s, true) => s
    | (s, false) => if force then armForce s else s
    end.

Definition recycleForConfig (s : Lease) : Lease :=
  if negb (is_some (ls_agent s)) then s
  else
    match recycleWhenSettled (oweRecycle dr_config_recycle true s) with
    | (s, true) => s
    | (s, false) => armForce s
    end.

Definition deferrable (p : option RecycleReason) : option DeferrableRecycle :=
  match p with Some (rr_owed r) => Some r | _ => None end.

Definition requestRecycle (s : Lease) : Lease :=
  if negb (is_some (ls_agent s)) then s
  else
    let superseded :=
      if isUnresponsive s then ls_supersededRecycle s
      else Some (mk_superseded (deferrable (ls_pendingRecycle s))
                   (is_some (ls_forceTimer s) || ls_forceHeld s)) in
    let s := ltell LPendingChange
               (set_owed (Some rr_harness_unresponsive) (ls_owedSince s) superseded s) in
    if negb (ld_busy d) then recycle s else armForce s.

Definition cancelRecycleRequest (s : Lease) : Lease :=
  match ls_pendingRecycle s, ls_supersededRecycle s with
  | Some rr_harness_unresponsive, Some restored =>
      let since := if is_some (su_reason restored) then ls_owedSince s else None in
      let s := ltell LPendingChange (set_owed (rr_owed <$> su_reason restored) since None s) in
      if negb (su_forced restored) then set_timers None (ls_forceHeld s) (ls_callTimer s) s else s
  | _, _ => s
  end.

Definition maybeRecycle (s : Lease) : Lease :=
  if negb (is_some (ls_pendingRecycle s)) then s
  else
    match recycleWhenSettled s with
    | (s, true) => s
    | (s, false) =>
        if ls_forceHeld s && (ld_keptTasks d =? 0)%nat then
          armForce (set_timers (ls_forceTimer s) false (ls_callTimer s) s)
        else s
    end.

Definition pending (s : Lease) : option PendingRecycle :=
  match ls_pendingRecycle s with
  | Some (rr_owed r) => Some (mk_pending r (ls_owedSince s ?? ld_now d))
  | _ => None
  end.

Definition recycleNow (s : Lease) : Lease * bool :=
  if negb (is_some (ls_agent s)) || negb (is_some (ls_pendingRecycle s)) then (s, false)
  else (recycle s, true).

Definition shutdown (s : Lease) : Lease :=
  let old := ls_agent s in
  let s := teardown td_shutdown (set_agent None (ls_lastExitCause s) true (ls_nextPid s) s) in
  match old with Some old => ltell (LKilled old) s | None => s end.

(** The exit of a process the lease spawned. *)
Definition agentExited (a : Z) (cause : option string) (s : Lease) : Lease :=
  if bool_decide (ls_agent s = Some a) then
    teardown td_agent_exited (set_agent None cause true (ls_nextPid s) s)
  else s.
End Operations.

(** ** Runs *)
Inductive LeaseOp :=
| op_whenReady (w : Waiter) | op_cancelReady (id : Z) | op_send (frame : Z)
| op_refreshEnv (force : bool) | op_recycleForConfig | op_requestRecycle
| op_cancelRecycleRequest | op_maybeRecycle | op_recycleNow | op_shutdown
| op_holdSettled (cycle : Z) | op_agentExited (a : Z) (cause : option string)
| op_warmTimer | op_bootTimer | op_forceTimer | op_callTimer.

(** A timer fires at or after the time it is due. *)
Definition fires (d : LeaseDeps) (t : option Z) (f : Lease -> Lease) (s : Lease) : Lease :=
  match t with Some due => if due <=? ld_now d then f s else s | None => s end.

Definition lease_step (c : LeaseConfig) (d : LeaseDeps) (op : LeaseOp) (s : Lease) : Lease :=
  match op with
  | op_whenReady w => whenReady c d w s
  | op_cancelReady id => cancelReady id s
  | op_send f => fst (send f s)
  | op_refreshEnv force => refreshEnv c d force s
  | op_recycleForConfig => recycleForConfig c d s
  | op_requestRecycle => requestRecycle c d s
  | op_cancelRecycleRequest => cancelRecycleRequest s
  | op_maybeRecycle => maybeRecycle c d s
  | op_recycleNow => fst (recycleNow c s)
  | op_shutdown => shutdown s
  | op_holdSettled cycle => holdSettled cycle s
  | op_agentExited a cause => agentExited a cause s
  | op_warmTimer => fires d (ls_warmTimer s) warmTimerFired s
  | op_bootTimer => fires d (ls_bootTimer s) openGate s
  | op_forceTimer => fires d (ls_forceTimer s) (forceRecycle c d) s
  | op_callTimer => fires d (ls_callTimer s) (callTimerFired c d) s
  end.

Definition lease_run (c : LeaseConfig) (l : list (LeaseDeps * LeaseOp)) (s : Lease) : Lease :=
  foldl (fun s '(d, op) => lease_step c d op s) s l.

(** ** Examples *)
Definition sample_lease : LeaseConfig := mk_leaseconfig true 30000 10000 true 60000 5000.
Definition at_time (now : Z) (busy : bool) : LeaseDeps := mk_leasedeps now busy 0 0.

Example spawn_work_then_process :
  ls_log (lease_run sample_lease
            [(at_time 0 false, op_whenReady (mk_waiter 1 [7])); (at_time 5 false, op_holdSettled 0)]
            (createHarnessLease sample_lease (at_time 0 false)))
  = [LHoldStarted 0; LReleased 1; LSpawned 0; LSent 0 7].
Proof. reflexivity. Qed.
