(* ===== verification/LeaseSafety.v ===== *)
(** Theorems of the harness lease ([HarnessLease]): its state is well formed
    after any run, a process has one life and one end, callers are let in by a
    deadline, and an owed recycle is neither lost nor invented. *)
From stdpp Require Import base strings list.
From Stdlib Require Import ZArith Lia.
From S2P Require Import Prelude HarnessLease.
Local Open Scope Z_scope.

(** ** The life of processes, read off the log

    The state is the process alive and the one taken back and not yet killed. *)
Definition Life : Type := option Z * option Z.

Definition life_step (st : Life) (e : LEvent) : option Life :=
  match e, st with
  | LSpawned a, (None, None) => Some (Some a, None)
  | LSpawned _, _ => None
  | LSent a _, (Some b, None) => if a =? b then Some st else None
  | LSent _ _, _ => None
  | LTeardown td_agent_exited, (Some _, None) => Some (None, None)
  | LTeardown td_agent_exited, _ => None
  | LTeardown _, (Some a, None) => Some (None, Some a)
  | LTeardown td_shutdown, (None, None) => Some (None, None)
  | LTeardown _, _ => None
  | LKilled a, (None, Some b) => if a =? b then Some (None, None) else None
  | LKilled _, _ => None
  | _, _ => Some st
  end.

Definition life (log : list LEvent) : option Life :=
  foldl (fun st e => st ≫= fun st => life_step st e) (Some (None, None)) log.

Lemma life_snoc log e : life (log ++ [e]) = life log ≫= fun st => life_step st e.
Proof. unfold life. by rewrite foldl_app. Qed.

(** ** Well-formed states *)
Definition owed_reason (s : Lease) : option DeferrableRecycle :=
  match ls_pendingRecycle s with
  | None => None
  | Some (rr_owed r) => Some r
  | Some rr_harness_unresponsive =>
      match ls_supersededRecycle s with Some su => su_reason su | None => None end
  end.

(** The process, the gate and those who wait at it. *)
Record gate_wf (c : LeaseConfig) (s : Lease) : Prop := {
  wf_life : life (ls_log s) = Some (ls_agent s, None);
  wf_terminal : ls_agent s <> None -> ls_terminal s = false;
  wf_agent : ls_agent s <> None -> ls_gateOpen s = true;
  wf_done : ls_envReady s = true -> ls_bootWorkDone s = true -> ls_gateOpen s = true;
  wf_open : ls_gateOpen s = true -> ls_envReady s = true;
  wf_waiters : ls_gateOpen s = true -> ls_readyWaiters s = [];
  wf_warm : ls_terminal s = false -> ls_envReady s = false -> ls_warmTimer s <> None;
  wf_warm_env : ls_envReady s = true -> ls_warmTimer s = None;
  wf_boot : ls_terminal s = false -> ls_envReady s = true -> ls_gateOpen s = false ->
            ls_bootWorkStarted s = true -> ls_bootTimer s <> None;
  wf_boot_env : ls_bootTimer s <> None -> ls_envReady s = true;
  wf_started : ls_readyWaiters s <> [] -> ls_envReady s = true -> ls_bootWorkStarted s = true;
  wf_nohold : lc_beforeSpawn c = false -> ls_bootWorkDone s = true;
  wf_started_env : ls_bootWorkStarted s = true -> ls_envReady s = true;
}.

(** What is owed, and the timers that see to it. *)
Record owed_wf (s : Lease) : Prop := {
  wf_owed : ls_pendingRecycle s <> None -> ls_agent s <> None;
  wf_superseded : ls_supersededRecycle s <> None <-> ls_pendingRecycle s = Some rr_harness_unresponsive;
  wf_since : ls_owedSince s <> None <-> owed_reason s <> None;
  wf_held : ls_forceHeld s = true -> owed_reason s <> None;
  wf_call : ls_callTimer s <> None -> owed_reason s <> None;
  wf_force : ls_forceTimer s <> None -> ls_pendingRecycle s <> None;
  wf_unresponsive : ls_pendingRecycle s = Some rr_harness_unresponsive -> ls_forceTimer s <> None;
  wf_forced : forall su, ls_supersededRecycle s = Some su -> su_forced su = true -> su_reason su <> None;
  wf_config : owed_reason s = Some dr_config_recycle ->
              match ls_supersededRecycle s with
              | Some su => su_forced su = true
              | None => ls_forceTimer s <> None \/ ls_forceHeld s = true
              end;
}.

Definition lease_wf (c : LeaseConfig) (s : Lease) : Prop := gate_wf c s /\ owed_wf s.

Lemma lease_wf_create c d : lease_wf c (createHarnessLease c d).
Proof. destruct c as [[] ? ? [] ? ?]; split; split; simpl; try done; naive_solver. Qed.

(** ** Preservation *)
Ltac gate_facts H :=
  destruct H as [Hlife Hterm Hagent Hdone Hopen Hwait Hwarm Hwarme Hboot Hboote Hstart Hnohold Hstarte].
Ltac owed_facts H :=
  destruct H as [Howed Hsup Hsince Hheld Hcall Hforce Hunresp Hforced Hconf].

Ltac wf_close :=
  unfold owed_reason in *; simpl in *;
  try assumption; try discriminate; try reflexivity; try (intros; congruence); auto;
  try (split; intros; congruence).

(** The gate does not look at what is owed. *)
Lemma gate_wf_set_owed c p t u s : gate_wf c s -> gate_wf c (set_owed p t u s).
Proof. intros H. gate_facts H. by split. Qed.
Lemma gate_wf_set_timers c f h t s : gate_wf c s -> gate_wf c (set_timers f h t s).
Proof. intros H. gate_facts H. by split. Qed.
Lemma gate_wf_tell c s : gate_wf c s -> gate_wf c (ltell LPendingChange s).
Proof. intros H. gate_facts H. split; try done. simpl. by rewrite life_snoc, Hlife. Qed.
Lemma gate_wf_reset c s : gate_wf c s -> gate_wf c (resetPendingRecycle s).
Proof.
  intros. unfold resetPendingRecycle.
  destruct (is_some _); [apply gate_wf_tell|]; by apply gate_wf_set_timers, gate_wf_set_owed.
Qed.
#[local] Hint Resolve gate_wf_set_owed gate_wf_set_timers gate_wf_tell gate_wf_reset : lease.

Lemma owed_wf_reset s : owed_wf (resetPendingRecycle s).
Proof. unfold resetPendingRecycle. destruct (is_some _); split; simpl; try done; naive_solver. Qed.

(** What [resetPendingRecycle] leaves. *)
Lemma reset_fields s :
  ls_agent (resetPendingRecycle s) = ls_agent s /\ ls_pendingRecycle (resetPendingRecycle s) = None /\
  ls_log (resetPendingRecycle s) = ls_log s ++ (if is_some (ls_pendingRecycle s) then [LPendingChange] else []).
Proof. unfold resetPendingRecycle. destruct (is_some _); simpl; by rewrite ?app_nil_r. Qed.

(** The state a recycle leaves: the process is gone, with its reason and its
    kill in the log, and nothing is owed. *)
Lemma recycle_log c s a :
  ls_agent s = Some a ->
  ls_log (recycle c s)
  = ls_log s ++ (if is_some (ls_pendingRecycle s) then [LPendingChange] else [])
      ++ [LTeardown (teardownOf (ls_pendingRecycle s ?? rr_owed dr_env_recycle)); LKilled a].
Proof.
  intros Ha. unfold recycle. destruct (reset_fields s) as (-> & Hp & Hl). rewrite Ha.
  unfold teardown, rearmSpawnWork. unfold resetPendingRecycle in *.
  destruct (ls_pendingRecycle s) as [[[]|]|]; simpl in *; repeat case_match; simpl;
    by rewrite <- ?app_assoc.
Qed.

Lemma recycle_gone c s : ls_agent (recycle c s) = None.
Proof.
  unfold recycle. destruct (reset_fields s) as (Ha & _ & _). rewrite Ha.
  destruct (ls_agent s); [|congruence].
  unfold teardown, rearmSpawnWork, resetPendingRecycle. destruct (is_some (ls_pendingRecycle s));
    repeat case_match; done.
Qed.

Lemma recycle_wf c s : gate_wf c s -> lease_wf c (recycle c s).
Proof.
  intros H. destruct (ls_agent s) as [a|] eqn:Ha.
  2:{ unfold recycle. destruct (reset_fields s) as (-> & _). rewrite Ha.
      split; [by apply gate_wf_reset | apply owed_wf_reset]. }
  pose proof (recycle_log c s a Ha) as Hlog. pose proof (recycle_gone c s) as Hgone.
  assert (life (ls_log (recycle c s)) = Some (None, None)) as Hl.
  { gate_facts H. rewrite Hlog. unfold life. rewrite !foldl_app. unfold life in Hlife. rewrite Hlife, Ha.
    destruct (ls_pendingRecycle s) as [[[]|]|]; simpl; by rewrite Z.eqb_refl. }
  revert Hl Hgone. clear Hlog. unfold recycle. destruct (reset_fields s) as (-> & _). rewrite Ha.
  pose proof (gate_wf_reset _ _ H) as G. gate_facts H. rewrite Ha in *.
  specialize (Hagent ltac:(done)). specialize (Hterm ltac:(done)). specialize (Hopen Hagent).
  unfold teardown, rearmSpawnWork, resetPendingRecycle.
  destruct (lc_beforeSpawn c) eqn:Eb, (ls_pendingRecycle s) as [[[]|]|]; simpl; intros Hl _;
    split; split; simpl; wf_close.
Qed.

(** ** Letting callers in *)
Definition released (log : list LEvent) : list Z :=
  omap (fun e => match e with LReleased w => Some w | _ => None end) log.

Lemma released_app l1 l2 : released (l1 ++ l2) = released l1 ++ released l2.
Proof. apply omap_app. Qed.

(** The same state but for the process and the log. *)
Definition at_process (s : Lease) (a : option Z) (n : Z) (l : list LEvent) : Lease :=
  mk_lease a (ls_lastExitCause s) (ls_terminal s) (ls_envReady s) (ls_readyWaiters s)
    (ls_warmTimer s) (ls_bootWorkStarted s) (ls_bootWorkDone s) (ls_bootCycle s) (ls_gateOpen s)
    (ls_bootTimer s) (ls_pendingRecycle s) (ls_owedSince s) (ls_forceTimer s) (ls_forceHeld s)
    (ls_callTimer s) (ls_supersededRecycle s) n l.

(** [s'] is [s] after its callers [ws] were let in. *)
Definition let_in (ws : list Z) (s s' : Lease) : Prop :=
  exists a n l, s' = at_process s a n l /\ life l = Some (a, None) /\
    released l = released (ls_log s) ++ ws /\
    (ls_terminal s = true -> a = ls_agent s) /\
    (ls_agent s <> None -> a = ls_agent s) /\
    (ls_terminal s = false -> ws <> [] -> a <> None).

Lemma sends_spec fs s a :
  ls_agent s = Some a -> life (ls_log s) = Some (Some a, None) ->
  exists l, foldl (fun s f => fst (send f s)) s fs = at_process s (Some a) (ls_nextPid s) l /\
    life l = Some (Some a, None) /\ released l = released (ls_log s).
Proof.
  revert s. induction fs as [|f fs IH]; intros s Ha Hl; simpl.
  { exists (ls_log s). rewrite <- Ha at 1. by destruct s. }
  assert (fst (send f s) = ltell (LSent a f) s) as -> by (unfold send; by rewrite Ha).
  destruct (IH (ltell (LSent a f) s)) as (l & -> & Hlife & Hr).
  - done.
  - simpl. rewrite life_snoc, Hl. simpl. by rewrite Z.eqb_refl.
  - exists l. split; [done|]. split; [done|]. rewrite Hr. simpl.
    rewrite released_app. simpl. by rewrite app_nil_r.
Qed.

Lemma runWaiter_spec s w :
  life (ls_log s) = Some (ls_agent s, None) -> let_in [w_id w] s (runWaiter s w).
Proof.
  intros Hl. unfold runWaiter, ensure. simpl.
  destruct (ls_agent s) as [a|] eqn:Ha; simpl.
  - destruct (sends_spec (w_frames w) (ltell (LReleased (w_id w)) s) a) as (l & -> & Hlife & Hr).
    { done. }
    { simpl. by rewrite life_snoc, Hl. }
    exists (Some a), (ls_nextPid s), l. rewrite Hr. simpl. rewrite released_app, Ha. by repeat split.
  - destruct (ls_terminal s) eqn:Et.
    + exists None, (ls_nextPid s), (ls_log s ++ [LReleased (w_id w)]).
      rewrite life_snoc, Hl, released_app, Ha, <- Ha. by destruct s; simpl in *; subst.
    + simpl. match goal with |- let_in _ _ (foldl _ ?t _) =>
        destruct (sends_spec (w_frames w) t (ls_nextPid s)) as (l & -> & Hlife & Hr) end.
      { done. }
      { simpl. by rewrite !life_snoc, Hl. }
      exists (Some (ls_nextPid s)), (ls_nextPid s + 1), l. rewrite Hr. simpl.
      rewrite !released_app, app_nil_r, Ha, Et. unfold at_process. simpl. rewrite ?Et. by repeat split.
Qed.

Lemma let_in_nil s : life (ls_log s) = Some (ls_agent s, None) -> let_in [] s s.
Proof.
  intros. exists (ls_agent s), (ls_nextPid s), (ls_log s). rewrite app_nil_r. by destruct s.
Qed.
Lemma let_in_app ws1 ws2 s1 s2 s3 : let_in ws1 s1 s2 -> let_in ws2 s2 s3 -> let_in (ws1 ++ ws2) s1 s3.
Proof.
  intros (a1 & n1 & l1 & -> & L1 & R1 & T1 & A1 & N1) (a2 & n2 & l2 & -> & L2 & R2 & T2 & A2 & N2).
  exists a2, n2, l2. simpl in *. split; [done|]. split; [done|].
  split; [by rewrite R2, R1, app_assoc|]. split; [intros; rewrite T2; tauto|].
  split; [intros Hn; rewrite A2; rewrite A1; tauto|].
  intros Hterm Hne. destruct ws1; simpl in *; [tauto|]. destruct (decide (a1 = None)); [naive_solver|].
  by rewrite A2.
Qed.

Lemma runWaiters_spec ws s :
  life (ls_log s) = Some (ls_agent s, None) -> let_in (map w_id ws) s (foldl runWaiter s ws).
Proof.
  revert s. induction ws as [|w ws IH]; intros s Hl; simpl; [by apply let_in_nil|].
  eapply (let_in_app [w_id w]); [by apply runWaiter_spec|]. apply IH.
  by destruct (runWaiter_spec s w Hl) as (a & n & l & -> & ? & _).
Qed.

(** The state [openGate] lets the callers into. *)
Definition opened (s : Lease) : Lease :=
  set_waiting [] None None
    (set_gate (ls_envReady s) (ls_bootWorkStarted s) (ls_bootWorkDone s) (ls_bootCycle s) true s).

Lemma openGate_let_in s :
  life (ls_log s) = Some (ls_agent s, None) ->
  let_in (map w_id (ls_readyWaiters s)) (opened s) (openGate s).
Proof.
  intros Hl. unfold openGate, releaseWaiters. simpl.
  match goal with |- context [foldl runWaiter ?t _] =>
    destruct (runWaiters_spec (ls_readyWaiters s) t Hl) as (a & n & l & -> & R) end.
  by exists a, n, l.
Qed.

Lemma let_in_wf c ws s s' : lease_wf c s -> ls_gateOpen s = true -> let_in ws s s' -> lease_wf c s'.
Proof.
  intros [G O] Hopen0 (a & n & l & -> & Hl & _ & Ht & Ha & _). gate_facts G. owed_facts O.
  split; split; simpl; wf_close.
  - intros Hne. destruct (ls_terminal s) eqn:E; [|done]. apply Hterm. by rewrite <- Ht.
  - intros Hp. rewrite Ha; auto.
Qed.

(** Opening the gate, whatever the spawn work's state is set to before. *)
Lemma openGate_wf c s started done cycle g :
  lease_wf c s -> (lc_beforeSpawn c = false -> done = true) ->
  lease_wf c (openGate (set_gate true started done cycle g s)).
Proof.
  intros [G O] Hd. eapply let_in_wf, openGate_let_in; [|done|]; [|by destruct G].
  gate_facts G. owed_facts O. split; split; simpl; wf_close.
Qed.

(** A state whose gate parts are read back is itself. *)
Lemma set_gate_id s :
  set_gate (ls_envReady s) (ls_bootWorkStarted s) (ls_bootWorkDone s) (ls_bootCycle s) (ls_gateOpen s) s = s.
Proof. by destruct s. Qed.

Lemma finishBootWork_wf c s started :
  lease_wf c s -> (started = true -> ls_envReady s = true) ->
  lease_wf c (finishBootWork (set_gate (ls_envReady s) started (ls_bootWorkDone s) (ls_bootCycle s)
                               (ls_gateOpen s) s)).
Proof.
  intros H Hst. unfold finishBootWork, releaseIfReady. simpl. rewrite andb_true_r.
  destruct (ls_envReady s) eqn:E.
  - apply (openGate_wf c s started true (ls_bootCycle s) (ls_gateOpen s)); done.
  - destruct H as [G O]. gate_facts G. owed_facts O.
    split; split; simpl; rewrite ?E in *; wf_close.
Qed.


Lemma startBootWork_wf c d s : lease_wf c s -> lease_wf c (startBootWork c d s).
Proof.
  intros H. unfold startBootWork.
  destruct (ls_bootWorkStarted s || ls_bootWorkDone s || negb (ls_envReady s)) eqn:E; [done|].
  apply orb_false_elim in E as [E Ee]. apply orb_false_elim in E as [Es Ed].
  apply negb_false_iff in Ee. destruct (lc_beforeSpawn c) eqn:Eb; simpl.
  - destruct H as [G O]. gate_facts G. owed_facts O. split; split; wf_close.
    by rewrite life_snoc, Hlife.
  - by apply finishBootWork_wf.
Qed.

(** Whoever waits, the spawn work that has to land first is running. *)
Lemma startBootWork_started c d s :
  lease_wf c s -> let s' := startBootWork c d s in
  ls_envReady s' = true -> ls_gateOpen s' = false -> ls_bootWorkStarted s' = true.
Proof.
  intros H s' He Hg. pose proof (startBootWork_wf c d s H) as H'. fold s' in H'.
  destruct (ls_bootWorkDone s') eqn:Ed.
  { destruct H' as [G _]. gate_facts G. rewrite Hdone in Hg; done. }
  revert He Hg Ed. unfold s', startBootWork.
  destruct (ls_bootWorkStarted s) eqn:Es; [done|]. destruct (ls_bootWorkDone s) eqn:Ed; simpl.
  { congruence. }
  destruct (ls_envReady s) eqn:Ee; simpl; [|congruence].
  destruct (lc_beforeSpawn c); simpl; [done|]. unfold finishBootWork, releaseIfReady. simpl.
  destruct (runWaiters_spec (ls_readyWaiters s) s) as (a & n & l & ? & _).
  { by destruct H as [[] _]. }
  intros _ Hg _. exfalso. revert Hg. unfold openGate, releaseWaiters. simpl.
  match goal with |- context [foldl runWaiter ?t _] =>
    destruct (runWaiters_spec (ls_readyWaiters s) t) as (a' & n' & l' & -> & _) end; [|done].
  by destruct H as [[] _].
Qed.

Lemma whenReady_wf c d w s : lease_wf c s -> lease_wf c (whenReady c d w s).
Proof.
  intros H. pose proof (startBootWork_wf c d s H) as H'.
  pose proof (startBootWork_started c d s H) as Hs. unfold whenReady. simpl in *.
  set (s' := startBootWork c d s) in *. destruct (ls_gateOpen s') eqn:Eg.
  - eapply let_in_wf, runWaiter_spec; [done..|]. by destruct H' as [[] _].
  - destruct (existsb _ _); [done|]. destruct H' as [G O]. gate_facts G. owed_facts O.
    split; split; wf_close.
Qed.

Lemma cancelReady_wf c id s : lease_wf c s -> lease_wf c (cancelReady id s).
Proof.
  intros [G O]. gate_facts G. owed_facts O. split; split; wf_close.
  - intros Hg. by rewrite Hwait.
  - intros Hne. apply Hstart. intros E. by rewrite E in Hne.
Qed.

Lemma holdSettled_wf c cycle s : lease_wf c s -> lease_wf c (holdSettled cycle s).
Proof.
  intros H. unfold holdSettled. destruct (_ =? _); [|done].
  rewrite <- (set_gate_id s) at 1. apply finishBootWork_wf; [done|].
  by destruct H as [[] _].
Qed.

Lemma markEnvReady_wf c d s : lease_wf c s -> lease_wf c (markEnvReady c d s).
Proof.
  intros H. unfold markEnvReady. destruct (ls_envReady s) eqn:Ee; [done|].
  assert (ls_bootWorkStarted s = false) as Es.
  { destruct H as [G _]. gate_facts G. destruct (ls_bootWorkStarted s); [|done].
    rewrite Hstarte in Ee; done. }
  unfold startBootWork. simpl. rewrite Es. destruct (ls_bootWorkDone s) eqn:Ed; simpl.
  - apply (openGate_wf c s false true (ls_bootCycle s) (ls_gateOpen s)); done.
  - destruct H as [G O]. gate_facts G. owed_facts O. destruct (lc_beforeSpawn c) eqn:Eb; simpl.
    2:{ by rewrite Hnohold in Ed. }
    unfold releaseIfReady. simpl. split; split; wf_close. by rewrite life_snoc, Hlife.
Qed.

Lemma warmTimerFired_wf c s : lease_wf c s -> lease_wf c (warmTimerFired s).
Proof. intros H. apply openGate_wf; [done|]. by destruct H as [[] _]. Qed.

Lemma bootTimerFired_wf c s : lease_wf c s -> ls_bootTimer s <> None -> lease_wf c (openGate s).
Proof.
  intros H Hb. pose proof (set_gate_id s) as E. destruct H as [G O]. pose proof G as G0. gate_facts G0.
  rewrite (Hboote Hb) in E. rewrite <- E. by apply openGate_wf.
Qed.

(** *** What is owed *)
Lemma oweRecycle_gate c d r f s : gate_wf c s -> gate_wf c (oweRecycle d r f s).
Proof. intros. unfold oweRecycle. destruct (is_some _); auto with lease. Qed.

(** The three shapes of what is owed. *)
Definition owes_nothing (s : Lease) : Prop :=
  ls_pendingRecycle s = None /\ ls_supersededRecycle s = None /\ ls_owedSince s = None /\
  ls_forceTimer s = None /\ ls_forceHeld s = false /\ ls_callTimer s = None.
Definition owes (r : DeferrableRecycle) (s : Lease) : Prop :=
  ls_pendingRecycle s = Some (rr_owed r) /\ ls_supersededRecycle s = None /\
  ls_owedSince s <> None /\
  (r = dr_config_recycle -> ls_forceTimer s <> None \/ ls_forceHeld s = true).
Definition gives_up (su : Superseded) (s : Lease) : Prop :=
  ls_pendingRecycle s = Some rr_harness_unresponsive /\ ls_supersededRecycle s = Some su /\
  ls_forceTimer s <> None /\
  (su_forced su = true -> su_reason su <> None) /\
  (su_reason su = Some dr_config_recycle -> su_forced su = true) /\
  (ls_owedSince s <> None <-> su_reason su <> None) /\
  (ls_forceHeld s = true -> su_reason su <> None) /\
  (ls_callTimer s <> None -> su_reason su <> None).

Lemma owed_cases s :
  owed_wf s <->
  (ls_pendingRecycle s <> None -> ls_agent s <> None) /\
  (owes_nothing s \/ (exists r, owes r s) \/ (exists su, gives_up su s)).
Proof.
  split.
  - intros O. owed_facts O. unfold owed_reason in *. split; [done|].
    destruct (ls_pendingRecycle s) as [[r|]|] eqn:Ep.
    + right; left. exists r. destruct (ls_supersededRecycle s) eqn:Es.
      { discriminate (proj1 Hsup ltac:(done)). }
      repeat split; [done..|by apply Hsince|]. intros ->. auto.
    + right; right. destruct (ls_supersededRecycle s) as [su|] eqn:Es.
      2:{ by destruct (proj2 Hsup eq_refl). }
      exists su. repeat split; auto; by apply Hsince.
    + left. destruct (ls_supersededRecycle s) eqn:Es; [discriminate (proj1 Hsup ltac:(done))|].
      repeat split; try done.
      * destruct (ls_owedSince s); [|done]. by destruct (proj1 Hsince ltac:(done)).
      * destruct (ls_forceTimer s); [|done]. by destruct Hforce.
      * destruct (ls_forceHeld s); [|done]. by destruct Hheld.
      * destruct (ls_callTimer s); [|done]. by destruct Hcall.
  - intros [Ha [(Hp & Hs & Hd & Hf & Hh & Hc)|[(r & Hp & Hs & Hd & Hf)|
                (su & Hp & Hs & Hf & H1 & H2 & H3 & H4 & H5)]]];
      split; unfold owed_reason; rewrite ?Hp, ?Hs, ?Hd, ?Hc in *; wf_close; try done; try naive_solver.
Qed.

(** The end of [refreshEnv] and of [recycleForConfig]. *)
Definition settle_or_arm (c : LeaseConfig) (d : LeaseDeps) (r : DeferrableRecycle) (force : bool)
    (s : Lease) : Lease :=
  match recycleWhenSettled c d (oweRecycle d r force s) with
  | (s, true) => s
  | (s, false) => if force then armForce c d s else s
  end.

Lemma armForce_gate c d s : gate_wf c s -> gate_wf c (armForce c d s).
Proof. intros. unfold armForce. destruct (is_some _); auto with lease. Qed.
#[local] Hint Resolve oweRecycle_gate armForce_gate : lease.

(** A recycle that is owed, with the force timer armed when it is forced. *)
Definition owed_armed (c : LeaseConfig) (d : LeaseDeps) (r : DeferrableRecycle) (force : bool)
    (s : Lease) : Lease :=
  let s := oweRecycle d r force s in if force then armForce c d s else s.

Lemma owed_armed_owed c d r force s :
  owed_wf s -> ls_agent s <> None -> (r = dr_config_recycle -> force = true) ->
  owed_wf (owed_armed c d r force s).
Proof.
  rewrite !owed_cases. intros [_ O] Ha Hr. unfold owed_armed, oweRecycle, armForce.
  destruct O as [(Hp & Hs & Hd & Hf & Hh & Hc)|[(r0 & Hp & Hs & Hd & Hf)|
                (su & Hp & Hs & Hf & H1 & H2 & H3 & H4 & H5)]]; rewrite Hp, Hs; simpl.
  - rewrite Hf. split; [by destruct force|]. right; left. exists r.
    destruct force; repeat split; simpl; try done; [by left|]. intros ->. by specialize (Hr eq_refl).
  - split; [by destruct force, (ls_forceTimer s)|]. right; left. exists r0.
    destruct force, (ls_forceTimer s) eqn:Ef; repeat split; simpl; rewrite ?Ef; try done;
      intros; auto; by left.
  - split; [by destruct force, (ls_forceTimer s)|]. right; right.
    exists (mk_superseded (Some (su_reason su ?? r)) (su_forced su || force)).
    destruct (ls_forceTimer s) as [ft|] eqn:Eft; [|done].
    destruct force; unfold gives_up; simpl; rewrite ?Eft; repeat split; try done;
      destruct su as [[rs|] fo]; simpl in *; intros; simplify_eq; auto;
      rewrite ?orb_true_r; auto; first [by rewrite H2 | by specialize (Hr eq_refl)].
Qed.

(** The drain of calls may start when a recycle is owed. *)
Definition drain (t : Z) (s : Lease) : Lease :=
  set_timers (ls_forceTimer s) (ls_forceHeld s) (Some t) s.

Lemma drain_wf c t s :
  lease_wf c s -> isUnresponsive s = false -> ls_pendingRecycle s <> None -> lease_wf c (drain t s).
Proof.
  intros [G O] Hu Hp. split; [unfold drain; auto with lease|].
  apply bool_decide_eq_false in Hu. rewrite owed_cases in *. destruct O as [Ha O]. split; [done|].
  destruct O as [(? & _)|[(r & ? & ? & ? & ?)|(su & ? & _)]]; [done| |done].
  right; left. by exists r.
Qed.

Lemma armForce_drain c d t s : armForce c d (drain t s) = drain t (armForce c d s).
Proof. unfold armForce, drain. simpl. by destruct (is_some _). Qed.

Lemma oweRecycle_pending d r f s :
  ls_pendingRecycle (oweRecycle d r f s) = Some (ls_pendingRecycle s ?? rr_owed r).
Proof. unfold oweRecycle. by destruct (ls_pendingRecycle s) as [[]|]. Qed.

Lemma armForce_pending c d s : ls_pendingRecycle (armForce c d s) = ls_pendingRecycle s.
Proof. unfold armForce. by destruct (is_some _). Qed.

Lemma settle_or_arm_wf c d r force s :
  lease_wf c s -> ls_agent s <> None -> (r = dr_config_recycle -> force = true) ->
  lease_wf c (settle_or_arm c d r force s).
Proof.
  intros [G O] Ha Hr. unfold settle_or_arm, recycleWhenSettled.
  assert (lease_wf c (owed_armed c d r force s)) as W.
  { split; [unfold owed_armed; destruct force; auto with lease | by apply owed_armed_owed]. }
  destruct (ld_busy d); [exact W|].
  destruct (isUnresponsive _ || _) eqn:Eu; [apply recycle_wf; auto with lease|].
  destruct (is_some (ls_callTimer _)); [exact W|]. fold (drain (ld_now d + lc_callDrainMs c)
    (oweRecycle d r force s)). rewrite armForce_drain.
  apply orb_false_elim in Eu as [Eu _]. unfold isUnresponsive in Eu.
  rewrite oweRecycle_pending in Eu.
  unfold owed_armed in W. destruct force; apply drain_wf; try done; unfold isUnresponsive;
    by rewrite ?armForce_pending, oweRecycle_pending.
Qed.

Lemma refreshEnv_wf c d force s : lease_wf c s -> lease_wf c (refreshEnv c d force s).
Proof.
  intros H. unfold refreshEnv. destruct (negb (ls_envReady s)); [by apply markEnvReady_wf|].
  destruct (ls_agent s) eqn:Ea; [|done]. simpl. apply (settle_or_arm_wf c d dr_env_recycle force); [done| |done].
  by rewrite Ea.
Qed.

Lemma recycleForConfig_wf c d s : lease_wf c s -> lease_wf c (recycleForConfig c d s).
Proof.
  intros H. unfold recycleForConfig. destruct (ls_agent s) eqn:Ea; [|done]. simpl.
  apply (settle_or_arm_wf c d dr_config_recycle true); [done| |done]. by rewrite Ea.
Qed.

Lemma requestRecycle_wf c d s : lease_wf c s -> lease_wf c (requestRecycle c d s).
Proof.
  intros [G O]. unfold requestRecycle. destruct (ls_agent s) eqn:Ea; [|done]. simpl.
  destruct (ld_busy d); simpl; [|apply recycle_wf; auto with lease].
  split; [auto with lease|]. rewrite owed_cases in *. destruct O as [Hag O].
  assert (forall X, ls_agent X = ls_agent s -> ls_agent (armForce c d X) <> None) as Hx.
  { intros X E. unfold armForce. destruct (is_some _); simpl; rewrite E, Ea; done. }
  split; [intros _; by apply Hx|]. right; right. clear Hx.
  unfold isUnresponsive, armForce.
  destruct O as [(Hp & Hs & Hd & Hf & Hh & Hc)|[(r & Hp & Hs & Hd & Hf)|
                (su & Hp & Hs & Hf & H1 & H2 & H3 & H4 & H5)]]; simpl; rewrite Hp, ?Hs; simpl.
  - rewrite Hf, Hh. exists (mk_superseded None false). by repeat split; simpl.
  - exists (mk_superseded (Some r) (is_some (ls_forceTimer s) || ls_forceHeld s)).
    destruct (ls_forceTimer s) eqn:Eft, (ls_forceHeld s) eqn:Efh; unfold gives_up; simpl; rewrite ?Eft, ?Efh;
      repeat split; try done; intros; simplify_eq; by destruct Hf.
  - exists su. destruct (ls_forceTimer s) eqn:Eft; [|done]. unfold gives_up; simpl. rewrite Eft.
    repeat split; try done; by apply H3.
Qed.

Lemma cancelRecycleRequest_wf c s : lease_wf c s -> lease_wf c (cancelRecycleRequest s).
Proof.
  intros [G O]. unfold cancelRecycleRequest. destruct (ls_pendingRecycle s) as [[|]|] eqn:Ep; [done| |done].
  destruct (ls_supersededRecycle s) as [su|] eqn:Es; [|done].
  split; [destruct (su_forced su); cbn [negb]; auto with lease|]. rewrite owed_cases in *. destruct O as [Hag O].
  destruct O as [(? & _)|[(r & ? & ?)|(su' & Hp & Hs & Hf & H1 & H2 & H3 & H4 & H5)]]; [congruence..|].
  assert (su' = su) as -> by congruence. rewrite Ep in Hag. specialize (Hag ltac:(done)).
  split; [by destruct (su_forced su)|]. destruct su as [[r|] fo]; simpl in *.
  - right; left. exists r. destruct fo; repeat split; simpl; try done; try (by apply H3); [by left|].
    intros ->. by specialize (H2 eq_refl).
  - left. destruct fo; [by destruct (H1 eq_refl)|]. repeat split; simpl; try done.
    + destruct (ls_forceHeld s); [by destruct (H4 eq_refl) | done].
    + destruct (ls_callTimer s); [by destruct (H5 ltac:(done)) | done].
Qed.

(** The state [recycleWhenSettled] leaves. *)
Lemma recycleWhenSettled_wf c d s :
  lease_wf c s -> ls_pendingRecycle s <> None -> lease_wf c (fst (recycleWhenSettled c d s)).
Proof.
  intros H Hp. unfold recycleWhenSettled. destruct (ld_busy d); [done|].
  destruct (isUnresponsive s || _) eqn:Eu; [by apply recycle_wf, H|].
  apply orb_false_elim in Eu as [Eu _]. destruct (is_some (ls_callTimer s)); [done|].
  by apply (drain_wf c (ld_now d + lc_callDrainMs c)).
Qed.

(** The hold ends: the force timer starts over. *)
Lemma unhold_wf c d s :
  lease_wf c s -> ls_pendingRecycle s <> None ->
  lease_wf c (armForce c d (set_timers (ls_forceTimer s) false (ls_callTimer s) s)).
Proof.
  intros [G O] Hp. split; [auto with lease|]. rewrite owed_cases in *. destruct O as [Ha O].
  split; [unfold armForce; destruct (is_some _); simpl; auto|].
  destruct O as [(? & _)|[(r & Hr & Hs & Hd & Hf)|(su & Hr & Hs & Hf & H1 & H2 & H3 & H4 & H5)]]; [done| |].
  - right; left. exists r. unfold armForce. simpl. destruct (ls_forceTimer s) eqn:Ef;
      repeat split; simpl; rewrite ?Ef; try done; intros; by left.
  - right; right. exists su. unfold armForce. simpl. destruct (ls_forceTimer s) eqn:Ef; [|done].
    unfold gives_up; simpl; rewrite ?Ef; repeat split; try done; by apply H3.
Qed.

Lemma maybeRecycle_wf c d s : lease_wf c s -> lease_wf c (maybeRecycle c d s).
Proof.
  intros H. unfold maybeRecycle. destruct (ls_pendingRecycle s) eqn:Ep; [|done]. simpl.
  pose proof (recycleWhenSettled_wf c d s H ltac:(by rewrite Ep)) as W.
  destruct (recycleWhenSettled c d s) as [s' []] eqn:E; [done|]. simpl in W.
  destruct (ls_forceHeld s' && _); [|done]. apply unhold_wf; [done|].
  unfold recycleWhenSettled in E. repeat case_match; simplify_eq; simpl; congruence.
Qed.

Lemma forceRecycle_wf c d s :
  lease_wf c s -> ls_forceTimer s <> None -> lease_wf c (forceRecycle c d s).
Proof.
  intros [G O] Ht. unfold forceRecycle.
  destruct (isUnresponsive _ || _) eqn:Eu; [apply recycle_wf; auto with lease|].
  apply orb_false_elim in Eu as [Eu _]. apply bool_decide_eq_false in Eu. simpl in Eu.
  split; [auto with lease|]. rewrite owed_cases in *. destruct O as [Ha O]. split; [done|].
  destruct O as [(_ & _ & _ & ? & _)|[(r & Hr & Hs & Hd & Hf)|(su & ? & _)]]; [done| |done].
  right; left. exists r. repeat split; try done. by right.
Qed.

Lemma callTimerFired_wf c d s : lease_wf c s -> lease_wf c (callTimerFired c d s).
Proof.
  intros [G O]. unfold callTimerFired. destruct (ld_busy d); [|apply recycle_wf; auto with lease].
  split; [auto with lease|]. owed_facts O. split; wf_close.
Qed.

(** The end of the lease, by an exit or by [shutdown]. *)
Definition ended (cause : option string) (reason : HarnessTeardownReason) (killed : option Z) (s : Lease)
  : Lease :=
  let s := teardown reason (set_agent None cause true (ls_nextPid s) s) in
  match killed with Some a => ltell (LKilled a) s | None => s end.

Lemma ended_log cause reason killed s :
  ls_log (ended cause reason killed s)
  = ls_log s ++ (if is_some (ls_pendingRecycle s) then [LPendingChange] else [])
      ++ LTeardown reason :: match killed with Some a => [LKilled a] | None => [] end.
Proof.
  unfold ended, teardown, resetPendingRecycle. simpl.
  destruct (is_some (ls_pendingRecycle s)), killed; simpl; by rewrite <- ?app_assoc.
Qed.

Lemma ended_wf c cause reason killed s :
  gate_wf c s ->
  life (ls_log (ended cause reason killed s)) = Some (None, None) ->
  lease_wf c (ended cause reason killed s).
Proof.
  intros G. gate_facts G. unfold ended, teardown, resetPendingRecycle.
  destruct killed, (is_some _); intros Hl; split; split; wf_close.
Qed.

Lemma agentExited_wf c a cause s : lease_wf c s -> lease_wf c (agentExited a cause s).
Proof.
  intros [G O]. unfold agentExited. destruct (bool_decide_reflect (ls_agent s = Some a)) as [Ha|]; [|done].
  apply (ended_wf c cause td_agent_exited None); [done|]. rewrite ended_log. unfold life.
  rewrite !foldl_app. destruct G as [Hl]. unfold life in Hl. rewrite Hl, Ha.
  by destruct (is_some _).
Qed.

Lemma shutdown_wf c s : lease_wf c s -> lease_wf c (shutdown s).
Proof.
  intros [G O]. apply (ended_wf c (ls_lastExitCause s) td_shutdown (ls_agent s)); [done|].
  rewrite ended_log. unfold life. rewrite !foldl_app. destruct G as [Hl]. unfold life in Hl. rewrite Hl.
  destruct (is_some _), (ls_agent s) as [a|]; simpl; by rewrite ?Z.eqb_refl.
Qed.

Lemma send_wf c f s : lease_wf c s -> lease_wf c (fst (send f s)).
Proof.
  intros [G O]. unfold send. destruct (ls_agent s) as [a|] eqn:Ea; [|done].
  split; [|by owed_facts O; split]. gate_facts G. split; wf_close.
  rewrite life_snoc, Hlife, Ea. simpl. by rewrite Z.eqb_refl.
Qed.

Lemma lease_step_wf c d op s : lease_wf c s -> lease_wf c (lease_step c d op s).
Proof.
  intros H. destruct op; simpl.
  - by apply whenReady_wf.
  - by apply cancelReady_wf.
  - by apply send_wf.
  - by apply refreshEnv_wf.
  - by apply recycleForConfig_wf.
  - by apply requestRecycle_wf.
  - by apply cancelRecycleRequest_wf.
  - by apply maybeRecycle_wf.
  - unfold recycleNow. destruct (_ || _); [done|]. by apply recycle_wf, H.
  - by apply shutdown_wf.
  - by apply holdSettled_wf.
  - by apply agentExited_wf.
  - unfold fires. repeat case_match; try done. by apply warmTimerFired_wf.
  - unfold fires. repeat case_match; try done. apply bootTimerFired_wf; [done|congruence].
  - unfold fires. repeat case_match; try done. apply forceRecycle_wf; [done|congruence].
  - unfold fires. repeat case_match; try done. by apply callTimerFired_wf.
Qed.

(** A state some run of the lease reaches. *)
Definition lease_reachable (c : LeaseConfig) (s : Lease) : Prop :=
  exists d0 l, s = lease_run c l (createHarnessLease c d0).

Lemma lease_run_wf c l s : lease_wf c s -> lease_wf c (lease_run c l s).
Proof.
  revert s. induction l as [|[d op] l IH]; intros s H; simpl; [done|]. by apply IH, lease_step_wf.
Qed.

Lemma reachable_wf c s : lease_reachable c s -> lease_wf c s.
Proof. intros (d0 & l & ->). apply lease_run_wf, lease_wf_create. Qed.

(** ** Theorems *)

(** C4: In every run: a process is spawned only when none is alive and the last one
    taken back was killed; frames go to the process alive; every process ends
    once, by its exit, a recycle or a shutdown; and one taken back is killed. *)
Theorem one_life_per_process c d0 l :
  let s := lease_run c l (createHarnessLease c d0) in life (ls_log s) = Some (ls_agent s, None).
Proof.
  intros s. assert (lease_wf c s) as [[] _]; [|done]. apply reachable_wf. by exists d0, l.
Qed.

(** C20: While callers wait and the lease is not over, one of two timers is armed,
    and when it fires every caller is let in, once, in the order they came, with a
    process. *)
Theorem callers_have_a_deadline c s :
  lease_reachable c s -> ls_terminal s = false -> ls_readyWaiters s <> [] ->
  exists op t,
    (op = op_warmTimer /\ ls_warmTimer s = Some t \/ op = op_bootTimer /\ ls_bootTimer s = Some t) /\
    forall d, t <= ld_now d ->
      let s' := lease_step c d op s in
      ls_readyWaiters s' = [] /\ ls_agent s' <> None /\
      released (ls_log s') = released (ls_log s) ++ map w_id (ls_readyWaiters s).
Proof.
  intros Hr Ht Hw. destruct (reachable_wf c s Hr) as [G _]. gate_facts G.
  assert (ls_gateOpen s = false) as Hg by (destruct (ls_gateOpen s); naive_solver).
  assert (forall X, ls_terminal X = false -> life (ls_log X) = life (ls_log s) -> ls_agent X = ls_agent s ->
    ls_log X = ls_log s -> ls_readyWaiters X = ls_readyWaiters s ->
    ls_readyWaiters (openGate X) = [] /\ ls_agent (openGate X) <> None /\
    released (ls_log (openGate X)) = released (ls_log s) ++ map w_id (ls_readyWaiters s)) as Hopens.
  { intros X XT XL XA XG XW. destruct (openGate_let_in X) as (a & n & l & -> & _ & Hrel & _ & _ & Ha).
    { by rewrite XL, XA. }
    simpl in *. rewrite Hrel, XG, XW. split_and!; [done| |done]. apply Ha; [done|].
    rewrite XW. by destruct (ls_readyWaiters s). }
  destruct (ls_envReady s) eqn:Ee.
  - destruct (ls_bootTimer s) as [t|] eqn:Eb.
    2:{ by destruct (Hboot Ht eq_refl Hg (Hstart Hw eq_refl)). }
    exists op_bootTimer, t. split; [by right|]. intros d Hd. simpl. rewrite Eb. unfold fires.
    rewrite (proj2 (Z.leb_le _ _) Hd). by apply Hopens.
  - destruct (ls_warmTimer s) as [t|] eqn:Eb; [|by destruct (Hwarm Ht eq_refl)].
    exists op_warmTimer, t. split; [by left|]. intros d Hd. simpl. rewrite Eb. unfold fires.
    rewrite (proj2 (Z.leb_le _ _) Hd). by apply Hopens.
Qed.

Definition cold_lease : LeaseConfig := mk_leaseconfig false 30000 10000 true 60000 5000.

Lemma callers_have_a_deadline_witness :
  exists op t, (op = op_warmTimer /\ Some 30000 = Some t \/ op = op_bootTimer /\ None = Some t) /\
    forall d, t <= ld_now d ->
      let s' := lease_step cold_lease d op
        (lease_run cold_lease [(at_time 3 false, op_whenReady (mk_waiter 1 []))]
           (createHarnessLease cold_lease (at_time 0 false))) in
      ls_readyWaiters s' = [] /\ ls_agent s' <> None /\ released (ls_log s') = [] ++ [1].
Proof.
  apply (callers_have_a_deadline cold_lease
    (lease_run cold_lease [(at_time 3 false, op_whenReady (mk_waiter 1 []))]
       (createHarnessLease cold_lease (at_time 0 false)))).
  - by eexists _, _.
  - reflexivity.
  - discriminate.
Defined.

(** The log of a recycle, as an operation that recycles sees it. *)
Lemma recycle_ends c s r a :
  ls_agent s = Some a -> ls_pendingRecycle s = Some r ->
  ls_agent (recycle c s) = None /\ ls_pendingRecycle (recycle c s) = None /\
  ls_log (recycle c s) = ls_log s ++ [LPendingChange; LTeardown (teardownOf r); LKilled a].
Proof.
  intros Ha Hp. split; [apply recycle_gone|]. split; [|by rewrite (recycle_log c s a Ha), Hp].
  unfold recycle. destruct (reset_fields s) as (-> & _ & _). rewrite Ha.
  unfold teardown, resetPendingRecycle, rearmSpawnWork. repeat case_match; done.
Qed.

Lemma isUnresponsive_of s r :
  ls_pendingRecycle s = Some r -> isUnresponsive s = bool_decide (r = rr_harness_unresponsive).
Proof. unfold isUnresponsive. intros ->. apply bool_decide_ext. split; congruence. Qed.

(** A recycle that is forced lands when its timer fires, whatever runs, unless
    a kept task would die for an env or config change: then it stays owed, and
    the first idle moment, or the force timer started over once the tasks are
    gone, takes the process back with the same reason. *)
Theorem forced_recycle_lands c d s t :
  lease_reachable c s -> ls_forceTimer s = Some t -> t <= ld_now d ->
  exists r a, ls_pendingRecycle s = Some r /\ ls_agent s = Some a /\
  let s' := lease_step c d op_forceTimer s in
  if bool_decide (r = rr_harness_unresponsive) || (ld_keptTasks d =? 0)%nat then
    ls_agent s' = None /\
    ls_log s' = ls_log s ++ [LPendingChange; LTeardown (teardownOf r); LKilled a]
  else
    ls_agent s' = Some a /\ ls_log s' = ls_log s /\ ls_pendingRecycle s' = Some r /\
    forall d', ld_keptTasks d' = 0%nat ->
      let s2 := lease_step c d' op_maybeRecycle s' in
      if negb (ld_busy d') && (ld_callsInFlight d' =? 0)%nat then
        ls_log s2 = ls_log s ++ [LPendingChange; LTeardown (teardownOf r); LKilled a]
      else ls_agent s2 = Some a /\ ls_forceTimer s2 = Some (ld_now d' + lc_envForceRecycleMs c).
Proof.
  intros Hr Ht Hd. destruct (reachable_wf c s Hr) as [_ O]. owed_facts O.
  destruct (ls_pendingRecycle s) as [r|] eqn:Hp; [|by destruct (Hforce ltac:(by rewrite Ht))].
  destruct (ls_agent s) as [a|] eqn:Ha; [|by destruct (Howed ltac:(done))].
  exists r, a. split; [done|]. split; [done|]. simpl. rewrite Ht. unfold fires.
  rewrite (proj2 (Z.leb_le _ _) Hd). unfold forceRecycle.
  rewrite (isUnresponsive_of (set_timers None (ls_forceHeld s) (ls_callTimer s) s) r Hp).
  destruct (bool_decide (r = rr_harness_unresponsive) || _) eqn:E.
  { destruct (recycle_ends c (set_timers None (ls_forceHeld s) (ls_callTimer s) s) r a Ha Hp)
      as (E1 & _ & E2). split; [exact E1 | exact E2]. }
  apply orb_false_elim in E as [Eu _]. split_and!; [done..|]. intros d' Hk.
  unfold maybeRecycle. simpl. rewrite Hp. simpl. unfold recycleWhenSettled.
  match goal with |- context [isUnresponsive ?x] => rewrite (isUnresponsive_of x r Hp), Eu end.
  destruct (ld_busy d'); simpl; [by rewrite Hk|].
  destruct (ld_callsInFlight d' =? 0)%nat; simpl.
  - match goal with |- context [recycle c ?x] => apply (recycle_ends c x r a Ha Hp) end.
  - destruct (is_some (ls_callTimer s)); simpl; by rewrite Hk.
Qed.

Definition held_lease : Lease :=
  lease_run sample_lease
    [(at_time 0 false, op_whenReady (mk_waiter 1 [])); (at_time 1 false, op_holdSettled 0);
     (at_time 2 true, op_recycleForConfig)]
    (createHarnessLease sample_lease (at_time 0 false)).

Lemma forced_recycle_lands_witness :
  exists r a, Some (rr_owed dr_config_recycle) = Some r /\ Some 0 = Some a /\
    let s' := lease_step sample_lease (mk_leasedeps 60002 true 1 0) op_forceTimer held_lease in
    ls_agent s' = Some a /\ ls_log s' = ls_log held_lease /\ ls_pendingRecycle s' = Some r /\
    forall d', ld_keptTasks d' = 0%nat ->
      let s2 := lease_step sample_lease d' op_maybeRecycle s' in
      if negb (ld_busy d') && (ld_callsInFlight d' =? 0)%nat then
        ls_log s2 = ls_log held_lease ++ [LPendingChange; LTeardown (teardownOf r); LKilled a]
      else ls_agent s2 = Some a /\ ls_forceTimer s2 = Some (ld_now d' + 60000).
Proof.
  destruct (forced_recycle_lands sample_lease (mk_leasedeps 60002 true 1 0) held_lease 60002)
    as (r & a & Hp & Ha & H).
  - by eexists _, _.
  - reflexivity.
  - vm_compute. discriminate.
  - exists r, a. split; [exact Hp|]. split; [exact Ha|].
    injection Hp as <-. injection Ha as <-. exact H.
Defined.

(** Letting callers in keeps the process that is alive. *)
Definition keeps_process (a : Z) (s : Lease) : Prop :=
  ls_agent s = Some a /\ life (ls_log s) = Some (Some a, None).

Lemma let_in_keeps a ws s s' : keeps_process a s -> let_in ws s s' -> keeps_process a s'.
Proof.
  intros [Ha Hl] (b & n & l & -> & Hlb & _ & _ & Hb & _). unfold keeps_process. simpl.
  rewrite Hlb, Hb; by rewrite Ha.
Qed.
Lemma openGate_keeps a s : keeps_process a s -> keeps_process a (openGate s).
Proof.
  intros H. destruct H as [Ha Hl]. eapply (let_in_keeps a _ (opened s)), openGate_let_in; [done|].
  by rewrite Ha.
Qed.
Lemma finishBootWork_keeps a s : keeps_process a s -> keeps_process a (finishBootWork s).
Proof.
  intros H. unfold finishBootWork, releaseIfReady. destruct (_ && _); [by apply openGate_keeps | done].
Qed.
Lemma startBootWork_keeps c d a s : keeps_process a s -> keeps_process a (startBootWork c d s).
Proof.
  intros H. unfold startBootWork. destruct (_ || _); [done|].
  destruct (negb (lc_beforeSpawn c)); [by apply finishBootWork_keeps|]. destruct H as [Ha Hl].
  split; [done|]. simpl. by rewrite life_snoc, Hl.
Qed.
Lemma whenReady_keeps c d w a s : keeps_process a s -> keeps_process a (whenReady c d w s).
Proof.
  intros H. pose proof (startBootWork_keeps c d a s H) as H'. unfold whenReady.
  destruct (ls_gateOpen _); [|by destruct (existsb _ _)].
  eapply let_in_keeps, runWaiter_spec; [done|]. destruct H' as [Ha Hl]. by rewrite Ha.
Qed.
Lemma fires_keeps d t f a s :
  keeps_process a s -> keeps_process a (f s) -> keeps_process a (fires d t f s).
Proof. intros. unfold fires. destruct t; [by destruct (_ <=? _)|done]. Qed.
#[local] Hint Resolve openGate_keeps finishBootWork_keeps whenReady_keeps : lease.

(** Timers, prompts to look again and requests to apply now take no process
    back unless a recycle is owed: every teardown of a live process is an exit, a
    shutdown, a request made in that very step, or what was owed. *)
Theorem no_unowed_recycle c d op s a :
  lease_reachable c s -> ls_agent s = Some a -> ls_agent (lease_step c d op s) <> Some a ->
  match op with
  | op_agentExited b _ => b = a
  | op_shutdown | op_refreshEnv _ | op_recycleForConfig | op_requestRecycle => True
  | op_maybeRecycle | op_recycleNow | op_forceTimer | op_callTimer => ls_pendingRecycle s <> None
  | _ => False
  end.
Proof.
  intros Hr Ha Hne. destruct (reachable_wf c s Hr) as [G O].
  assert (keeps_process a s) as K by (split; [done|]; destruct G as [Hl]; by rewrite Hl, Ha).
  owed_facts O. assert (forall s', keeps_process a s' -> ls_agent s' <> Some a -> False) as Kn.
  { intros s' [? _]. tauto. }
  destruct op; simpl in *; try done.
  - eapply Kn, Hne. auto with lease.
  - revert Hne. unfold send. rewrite Ha. simpl. by rewrite Ha.
  - revert Hne. unfold cancelRecycleRequest. repeat case_match; simpl; congruence.
  - intros Hp. revert Hne. unfold maybeRecycle. by rewrite Hp.
  - intros Hp. revert Hne. unfold recycleNow. by rewrite Hp, orb_true_r.
  - eapply Kn, Hne. unfold holdSettled. destruct (_ =? _); auto with lease.
  - unfold agentExited in Hne. case_bool_decide; congruence.
  - eapply Kn, Hne. apply fires_keeps; [done|]. by apply openGate_keeps.
  - eapply Kn, Hne. apply fires_keeps; auto with lease.
  - unfold fires in Hne. destruct (ls_forceTimer s); [auto|done].
  - unfold fires in Hne. destruct (ls_callTimer s) eqn:Ec; [|done]. intros Hp.
    apply Hcall; [done|]. unfold owed_reason. by rewrite Hp.
Qed.

Lemma no_unowed_recycle_witness : Some (rr_owed dr_config_recycle) <> None.
Proof.
  apply (no_unowed_recycle sample_lease (at_time 9 false) op_maybeRecycle held_lease 0).
  - by eexists _, _.
  - reflexivity.
  - vm_compute. discriminate.
Defined.

(** A request to give up an unresponsive harness that is called off leaves
    what was owed as it was: the same recycle, since the same time, with its
    drain and its hold, and forced exactly when it was. *)
Theorem request_then_cancel c d s :
  lease_reachable c s -> ls_agent s <> None -> ld_busy d = true ->
  ls_pendingRecycle s <> Some rr_harness_unresponsive ->
  let s' := cancelRecycleRequest (requestRecycle c d s) in
  ls_agent s' = ls_agent s /\ ls_pendingRecycle s' = ls_pendingRecycle s /\
  (forall d', pending d' s' = pending d' s) /\
  ls_supersededRecycle s' = ls_supersededRecycle s /\
  ls_forceHeld s' = ls_forceHeld s /\ ls_callTimer s' = ls_callTimer s /\
  ls_forceTimer s' =
    (if is_some (ls_forceTimer s) then ls_forceTimer s
     else if ls_forceHeld s then Some (ld_now d + lc_envForceRecycleMs c) else None).
Proof.
  intros Hr Ha Hb Hp. destruct (reachable_wf c s Hr) as [_ O]. apply owed_cases in O as [_ O].
  destruct (ls_agent s) as [a|] eqn:Ea; [|done]. unfold requestRecycle. rewrite Ea. simpl.
  assert (isUnresponsive s = false) as -> by (by apply bool_decide_eq_false).
  rewrite Hb. simpl. unfold armForce, cancelRecycleRequest, pending. simpl.
  destruct O as [(Eo & Es & Ed & Ef & Eh & Ec)|[(r & Eo & Es & Ed & Ef)|(su & ? & _)]]; [| |done].
  - rewrite Eo, Ef, Eh. simpl. by rewrite Es, Ea.
  - rewrite Eo. destruct (ls_forceTimer s) eqn:Et, (ls_forceHeld s) eqn:Eh; simpl; rewrite ?Eo, ?Et, ?Eh; simpl;
      rewrite ?Es, ?Ea, ?Et, ?Eh; done.
Qed.

Lemma request_then_cancel_witness :
  ls_forceTimer (cancelRecycleRequest (requestRecycle sample_lease (at_time 9 true) held_lease))
  = Some 60002.
Proof.
  apply (request_then_cancel sample_lease (at_time 9 true) held_lease).
  - by eexists _, _.
  - vm_compute. discriminate.
  - reflexivity.
  - vm_compute. discriminate.
Defined.

(** Behind an env recycle the spawn work runs again: the next caller waits for
    it, and neither the work's own earlier run ending late nor another caller
    lets it through. *)
Theorem env_recycle_reruns_spawn_work c d1 d2 s w :
  lease_reachable c s -> lc_beforeSpawn c = true -> ls_agent s <> None ->
  ls_pendingRecycle s = Some (rr_owed dr_env_recycle) ->
  let s1 := recycle c s in
  let s2 := whenReady c d2 w (lease_step c d1 (op_holdSettled (ls_bootCycle s)) s1) in
  ls_gateOpen s1 = false /\ ls_agent s2 = None /\ ls_readyWaiters s2 = [w] /\
  ls_bootTimer s2 = Some (ld_now d2 + lc_spawnWorkTimeoutMs c) /\
  ls_log s2 = ls_log s1 ++ [LHoldStarted (ls_bootCycle s + 1)] /\
  lease_step c d2 (op_holdSettled (ls_bootCycle s)) s2 = s2.
Proof.
  intros Hr Hb Ha Hp s1 s2. destruct (reachable_wf c s Hr) as [G _]. gate_facts G.
  destruct (ls_agent s) as [a|] eqn:Ea; [|done]. specialize (Hagent ltac:(done)). specialize (Hopen Hagent).
  assert (ls_agent s1 = None /\ ls_envReady s1 = true /\ ls_bootWorkStarted s1 = false /\
          ls_bootWorkDone s1 = false /\ ls_bootCycle s1 = ls_bootCycle s + 1 /\
          ls_gateOpen s1 = false /\ ls_readyWaiters s1 = []) as (F1 & F2 & F3 & F4 & F5 & F6 & F7).
  { unfold s1, recycle, teardown, rearmSpawnWork, resetPendingRecycle. rewrite Hp. simpl.
    rewrite Ea. simpl. rewrite Hb. simpl. done. }
  assert (forall d, lease_step c d (op_holdSettled (ls_bootCycle s)) s1 = s1) as E1.
  { intros d. simpl. unfold holdSettled. rewrite F5, (proj2 (Z.eqb_neq _ _)); [done|lia]. }
  assert (s2 = set_waiting [w] (ls_warmTimer s1) (Some (ld_now d2 + lc_spawnWorkTimeoutMs c))
                 (ltell (LHoldStarted (ls_bootCycle s + 1))
                    (set_gate true true false (ls_bootCycle s + 1) false s1))) as E2.
  { unfold s2. rewrite E1. unfold whenReady, startBootWork. rewrite F2, F3, F4, F5, F6, Hb. simpl.
    by rewrite F7. }
  rewrite E2. clearbody s1. clear E2 E1 s2. split; [done|]. split; [done|]. split_and!; [done..|].
  simpl. unfold holdSettled. simpl. rewrite (proj2 (Z.eqb_neq _ _)); [done|lia].
Qed.

(** The process of the sample, with an env change owed. *)
Definition env_owed_lease : Lease :=
  lease_run sample_lease
    [(at_time 0 false, op_whenReady (mk_waiter 1 [])); (at_time 1 false, op_holdSettled 0);
     (at_time 2 true, op_refreshEnv false)]
    (createHarnessLease sample_lease (at_time 0 false)).

Lemma env_recycle_reruns_spawn_work_witness :
  let s2 := whenReady sample_lease (at_time 5 false) (mk_waiter 2 [])
    (lease_step sample_lease (at_time 4 false) (op_holdSettled 0) (recycle sample_lease env_owed_lease)) in
  ls_bootTimer s2 = Some 10005.
Proof.
  apply (env_recycle_reruns_spawn_work sample_lease (at_time 4 false) (at_time 5 false) env_owed_lease
           (mk_waiter 2 [])).
  - by eexists _, _.
  - reflexivity.
  - vm_compute. discriminate.
  - reflexivity.
Defined.

(** An env change that comes while a config change is owed is applied without
    the spawn work: the process is taken back once, for the config, and the next
    caller gets a process at once; had the env change come alone, it would have
    waited for the work. *)
Theorem env_behind_config_skips_spawn_work :
  let after reqs :=
    lease_run sample_lease
      ([(at_time 0 false, op_whenReady (mk_waiter 1 [])); (at_time 1 false, op_holdSettled 0)] ++ reqs ++
       [(at_time 9 false, op_maybeRecycle); (at_time 10 false, op_whenReady (mk_waiter 2 []))])
      (createHarnessLease sample_lease (at_time 0 false)) in
  let env := (at_time 3 true, op_refreshEnv true) in
  ls_log (after [(at_time 2 true, op_recycleForConfig); env])
  = [LHoldStarted 0; LReleased 1; LSpawned 0; LPendingChange; LPendingChange;
     LTeardown td_config_recycle; LKilled 0; LReleased 2; LSpawned 1] /\
  ls_log (after [env])
  = [LHoldStarted 0; LReleased 1; LSpawned 0; LPendingChange; LPendingChange;
     LTeardown td_env_recycle; LKilled 0; LHoldStarted 1].
Proof. split; reflexivity. Qed.
