(* ===== verification/AcpFrames.v ===== *)
(** JSON-RPC frames of the agent protocol, as the runtime reads and rewrites them
    (packages/api-server-api/src/modules/acp/types.ts, modules/approvals/format.ts,
    packages/agent-runtime/src/modules/acp/domain/{attribution, mappers,
    harness-state, cut-tool-calls}.ts).

    [json] is a value of [JSON.parse]; an object is its properties in order.  A
    line that parses is its value ([ln_json]), one that does not is its text;
    what [JSON.stringify] writes is the value again.  Numbers are integers. *)
From stdpp Require Import base strings list pretty.
From Stdlib Require Import ZArith.
From S2P Require Import Prelude JsString.
Local Open Scope string_scope.

(** ** Values *)
Inductive json :=
| jnull | jbool (b : bool) | jnum (z : Z) | jstr (s : string)
| jarr (l : list json) | jobj (l : list (string * json)).

Inductive Line := ln_json (j : json) | ln_text (s : string).

(** [typeof v === "object" && v !== null]: arrays are objects too. *)
Definition isNonNullObject (v : option json) : bool :=
  match v with Some (jarr _) | Some (jobj _) => true | _ => false end.

(** [v[key]] of a value that is an object; [None] is [undefined]. *)
Definition prop (key : string) (v : json) : option json :=
  match v with jobj l => om_get key l | _ => None end.

(** [a?.key] *)
Definition oprop (key : string) (v : option json) : option json := v ≫= prop key.

Definition str_of (v : option json) : option string :=
  match v with Some (jstr s) => Some s | _ => None end.

(** [v === s] *)
Definition is_str (s : string) (v : option json) : bool := ostr_eqb (str_of v) s.

(** [{ ...v, [key]: x }] of a value that is an object. *)
Definition with_prop (key : string) (x : json) (v : json) : json :=
  match v with jobj l => jobj (om_set key x l) | _ => jobj [(key, x)] end.

(** [isNonNullObject(v) ? v : {}] as a spread sees it. *)
Definition object_or_empty (v : option json) : json :=
  match v with Some (jobj l) => jobj l | _ => jobj [] end.

(** ** Reading a frame *)
Definition paramsOf (frame : option json) : option json :=
  if isNonNullObject frame then
    let p := oprop "params" frame in if isNonNullObject p then p else None
  else None.

Definition resultOf (frame : option json) : option json :=
  if isNonNullObject frame then
    let r := oprop "result" frame in if isNonNullObject r then r else None
  else None.

Definition sessionUpdateOf (frame : option json) : option json :=
  if negb (isNonNullObject frame) || negb (is_str "session/update" (oprop "method" frame)) then None
  else
    let params := paramsOf frame in
    let update := oprop "update" params in
    if isNonNullObject update then update else None.

Definition stringAt (value : option json) (key : string) : option string :=
  str_of (if isNonNullObject value then oprop key value else None).

Definition parseFrame (line : Line) : option json :=
  match line with
  | ln_json j => if isNonNullObject (Some j) then Some j else None
  | ln_text _ => None
  end.

Definition isRequest (msg : option json) : bool :=
  isNonNullObject msg && bool_decide (is_Some (oprop "id" msg))
  && bool_decide (is_Some (str_of (oprop "method" msg))).

Definition isResponse (msg : option json) : bool :=
  isNonNullObject msg && bool_decide (is_Some (oprop "id" msg))
  && negb (bool_decide (is_Some (oprop "method" msg)))
  && (bool_decide (is_Some (oprop "result" msg)) || bool_decide (is_Some (oprop "error" msg))).

(** ** Approval requests and their answers (attribution.ts, format.ts) *)
Definition permissionRequestParamsOf (line : Line) : option json :=
  match line with
  | ln_text _ => None
  | ln_json j =>
      if negb (isNonNullObject (Some j))
         || negb (is_str "session/request_permission" (prop "method" j)) then None
      else if isNonNullObject (prop "params" j) then prop "params" j else None
  end.

Definition toolCallIdIn (params : json) : option string :=
  let toolCall := prop "toolCall" params in
  match str_of (if isNonNullObject toolCall then oprop "toolCallId" toolCall else None) with
  | Some id => if truthy id then Some id else None
  | None => None
  end.

Definition approvalToolCallIdOf (requestLine : Line) : option string :=
  permissionRequestParamsOf requestLine ≫= toolCallIdIn.

Inductive VerdictKind := vk_allow_once | vk_allow_always | vk_reject_once | vk_reject_always.

Definition kindOfName (v : option json) : option VerdictKind :=
  if is_str "allow_once" v then Some vk_allow_once
  else if is_str "allow_always" v then Some vk_allow_always
  else if is_str "reject_once" v then Some vk_reject_once
  else if is_str "reject_always" v then Some vk_reject_always
  else None.

(** The options of a request under the ids the harness gave them: the later of
    two with one id stands, at the place of the first. *)
Definition permissionOptionKindsOf (raw : option json) : list (string * VerdictKind) :=
  foldl (fun m option =>
           match str_of (prop "optionId" option) with
           | Some id =>
               if truthy id then
                 match kindOfName (prop "kind" option) with
                 | Some kind => om_set id kind m
                 | None => m
                 end
               else m
           | None => m
           end)
    [] (match raw with Some (jarr l) => l | _ => [] end).

Record PlatformVerdict := mk_verdict { pv_toolCallId : string; pv_kind : VerdictKind; pv_by : string }.

Definition verdictOf (requestLine : Line) (result : option json) (by_ : string) : option PlatformVerdict :=
  match permissionRequestParamsOf requestLine with
  | None => None
  | Some params =>
      match toolCallIdIn params with
      | None => None
      | Some toolCallId =>
          let outcome := if isNonNullObject result then oprop "outcome" result else None in
          if negb (isNonNullObject outcome) || negb (is_str "selected" (oprop "outcome" outcome)) then None
          else
            match str_of (oprop "optionId" outcome) with
            | None => None
            | Some optionId =>
                match om_get optionId (permissionOptionKindsOf (prop "options" params)) with
                | Some kind => Some (mk_verdict toolCallId kind by_)
                | None => None
                end
            end
      end
  end.

(** An object without a property. *)
Definition without_prop (key : string) (v : json) : json :=
  match v with jobj l => jobj (om_delete key l) | _ => jobj [] end.

Definition has_props (v : json) : bool := match v with jobj (_ :: _) => true | _ => false end.

Definition withoutAnsweredBy (frame : json) : json :=
  match prop "result" frame with
  | Some result =>
      if negb (isNonNullObject (Some result)) then frame
      else
        match prop "_meta" result with
        | Some _meta =>
            if negb (isNonNullObject (Some _meta)) then frame
            else if negb (bool_decide (is_Some (prop "platform" _meta))) then frame
            else
              let meta := without_prop "platform" _meta in
              let rest := without_prop "_meta" result in
              with_prop "result" (if has_props meta then with_prop "_meta" meta rest else rest) frame
        | None => frame
        end
  | None => frame
  end.

(** ** Errors of the provider (mappers.ts) *)
Definition AUTH_ERROR_HINT : string :=
  "The provider rejected the key this agent uses — it may be wrong, revoked or expired. In Settings › Providers, replace the key or recheck it with Recheck keys if shown, then send the message again.".
Definition newline : string := String (Ascii.ascii_of_N 10) "".
Definition AUTH_HINT : string := AUTH_ERROR_HINT ++ newline ++ newline ++ "Error: ".
Definition AUTH_ERROR : string := "authentication_error".

(** [v?.includes?.(needle)] *)
Definition includes_of (needle : string) (v : option json) : bool :=
  match v with
  | Some (jstr s) => str_includes s needle
  | Some (jarr l) => existsb (fun x => is_str needle (Some x)) l
  | _ => false
  end.

(** The text of a value, as [+] appends it; in an array null is left empty. *)
Fixpoint text_of (v : json) : string :=
  match v with
  | jnull => "null"
  | jbool b => if b then "true" else "false"
  | jnum z => pretty z
  | jstr s => s
  | jarr l => str_join "," (map (fun x => match x with jnull => "" | _ => text_of x end) l)
  | jobj _ => "[object Object]"
  end.

Definition hinted (v : option json) : json := jstr (AUTH_HINT ++ text_of (v ?? jnull)).

(** [msg.a.b. ... = x], where the path is there. *)
Fixpoint set_path (path : list string) (x : json) (v : json) : json :=
  match path with
  | [] => x
  | key :: path =>
      match prop key v with
      | Some inner => with_prop key (set_path path x inner) v
      | None => v
      end
  end.

Definition get_path (path : list string) (v : json) : option json :=
  foldl (fun v key => oprop key v) (Some v) path.

(** The line is searched for the word first, which decides nothing more: the
    word is in the line when it is in one of its texts. *)
Definition rewriteAuthError (line : Line) : Line :=
  match line with
  | ln_text _ => line
  | ln_json msg =>
      let own := ["error"; "message"] in
      let nested := ["params"; "error"; "message"] in
      let chunk := ["params"; "update"; "content"; "text"] in
      if includes_of AUTH_ERROR (get_path own msg) then
        ln_json (set_path own (hinted (get_path own msg)) msg)
      else if includes_of AUTH_ERROR (get_path nested msg) then
        ln_json (set_path nested (hinted (get_path nested msg)) msg)
      else if match str_of (get_path chunk msg) with
              | Some text => str_includes text AUTH_ERROR | None => false end then
        ln_json (set_path chunk (hinted (get_path chunk msg)) msg)
      else line
  end.

Definition LOST_SESSION_MARKERS : list string := ["Session not found"; "process exited unexpectedly"].

Definition jsonRpcErrorDetails (data : option json) : option string :=
  match data with
  | Some (jstr s) => if truthy s then Some s else None
  | Some (jobj _ as o) =>
      match str_of (prop "details" o) with
      | Some details => if truthy details then Some details else None
      | None => None
      end
  | _ => None
  end.

Definition harnessLostSession (frame : option json) : bool :=
  let error := oprop "error" frame in
  if negb (isNonNullObject error) then false
  else
    existsb (fun text =>
        match text with
        | Some text => existsb (str_includes text) LOST_SESSION_MARKERS
        | None => false
        end)
      [str_of (oprop "message" error); jsonRpcErrorDetails (oprop "data" error)].

Definition rewriteCwd (frame : json) (workingDir : string) : json :=
  if negb (isNonNullObject (Some frame)) then frame
  else
    match prop "params" frame with
    | Some p =>
        if negb (isNonNullObject (Some p)) then frame
        else if negb (bool_decide (is_Some (prop "cwd" p))) then frame
        else with_prop "params" (with_prop "cwd" (jstr workingDir) p) frame
    | None => frame
    end.

(** ** The harness's own state (harness-state.ts) *)
Definition STATE_FILTER : json :=
  jobj [("type", jstr "system"); ("subtype", jstr "session_state_changed")].
Definition SESSION_OPENING_METHODS : list string := ["session/new"; "session/load"; "session/resume"].

Record HarnessStateReport := mk_statereport { hr_sessionId : string; hr_busy : bool }.

Definition isStateFilter (filter : json) : bool :=
  isNonNullObject (Some filter) && is_str "system" (prop "type" filter)
  && is_str "session_state_changed" (prop "subtype" filter)
  && negb (bool_decide (is_Some (prop "origin" filter))).

Definition withStateFilter (current : option json) : json :=
  match current with
  | Some (jbool true) => jbool true
  | _ =>
      let filters := match current with Some (jarr l) => l | _ => [] end in
      jarr (if existsb isStateFilter filters then filters else filters ++ [STATE_FILTER])
  end.

Definition requestState (frame : json) : json :=
  if negb (isNonNullObject (Some frame)) then frame
  else
    match str_of (prop "method" frame) with
    | Some method =>
        if negb (bool_decide (method ∈ SESSION_OPENING_METHODS)) then frame
        else
          let params := object_or_empty (prop "params" frame) in
          let meta := object_or_empty (prop "_meta" params) in
          let claudeCode := object_or_empty (prop "claudeCode" meta) in
          with_prop "params"
            (with_prop "_meta"
               (with_prop "claudeCode"
                  (with_prop "emitRawSDKMessages"
                     (withStateFilter (prop "emitRawSDKMessages" claudeCode)) claudeCode)
                  meta)
               params)
            frame
    | None => frame
    end.

Definition readState (frame : json) : option HarnessStateReport :=
  if negb (isNonNullObject (Some frame)) || negb (is_str "_claude/sdkMessage" (prop "method" frame))
  then None
  else
    let params := prop "params" frame in
    match str_of (if isNonNullObject params then oprop "sessionId" params else None) with
    | None => None
    | Some sessionId =>
        let message := oprop "message" params in
        if negb (isNonNullObject message) || negb (is_str "system" (oprop "type" message))
           || negb (is_str "session_state_changed" (oprop "subtype" message)) then None
        else
          match str_of (oprop "state" message) with
          | Some state => Some (mk_statereport sessionId (negb (String.eqb state "idle")))
          | None => None
          end
    end.

(** ** Tool calls a steer cut (cut-tool-calls.ts) *)
Definition cutToolCallFrame (sessionId toolCallId : string) : json :=
  jobj [("jsonrpc", jstr "2.0"); ("method", jstr "session/update");
        ("params", jobj [("sessionId", jstr sessionId);
          ("update", jobj [("sessionUpdate", jstr "tool_call_update"); ("toolCallId", jstr toolCallId);
            ("status", jstr "failed");
            ("_meta", jobj [("platform", jobj [("cutBySteer", jbool true)])])])])].

Definition withCutMark (line : Line) (cut : list string) : Line :=
  match cut with
  | [] => line
  | _ =>
      match parseFrame line with
      | None => line
      | Some frame =>
          match sessionUpdateOf (Some frame) with
          | None => line
          | Some update =>
              match str_of (prop "toolCallId" update) with
              | Some toolCallId =>
                  if negb (is_str "failed" (prop "status" update)) || negb (bool_decide (toolCallId ∈ cut))
                  then line
                  else
                    let meta := object_or_empty (prop "_meta" update) in
                    let platform := object_or_empty (prop "platform" meta) in
                    ln_json (set_path ["params"; "update"]
                      (with_prop "_meta" (with_prop "platform"
                         (with_prop "cutBySteer" (jbool true) platform) meta) update) frame)
              | None => line
              end
          end
      end
  end.

(** ** Theorems *)
Lemma prop_with_prop key key' x v :
  prop key' (with_prop key x v)
  = if decide (key' = key) then Some x else match v with jobj l => om_get key' l | _ => None end.
Proof.
  unfold with_prop. destruct v; simpl; rewrite ?om_get_set; try done; by case_decide.
Qed.

Lemma with_prop_same key v x : prop key v = Some x -> with_prop key x v = v.
Proof.
  destruct v as [| | | | |l]; simpl; try done. intros H. f_equal.
  induction l as [|[k y] l IH]; simpl in *; [done|]. case_decide as E; [congruence|]. by rewrite IH.
Qed.

Lemma with_prop_idem key x y v : with_prop key x (with_prop key y v) = with_prop key x v.
Proof.
  unfold with_prop. destruct v as [| | | | |l]; simpl; rewrite ?decide_True by done; try done. f_equal.
  induction l as [|[k z] l IH]; simpl; [by rewrite decide_True|].
  case_decide as E; simpl; [by rewrite decide_True|]. rewrite decide_False by done. by rewrite IH.
Qed.

Lemma object_or_empty_with key x v : object_or_empty (Some (with_prop key x v)) = with_prop key x v.
Proof. by destruct v. Qed.

Lemma isNonNullObject_with key x v : isNonNullObject (Some (with_prop key x v)) = true.
Proof. by destruct v. Qed.

Lemma withStateFilter_idem v : withStateFilter (Some (withStateFilter v)) = withStateFilter v.
Proof.
  unfold withStateFilter. destruct v as [[|[]| | |l|]|]; simpl; try done.
  destruct (existsb isStateFilter l) eqn:E; simpl; [by rewrite E|].
  by rewrite existsb_app, orb_true_r.
Qed.

(** Asking for the harness's state reports is done once: a frame that already
    asks is left as it is, so a frame relayed twice asks once. *)
Theorem state_asked_once frame : requestState (requestState frame) = requestState frame.
Proof.
  unfold requestState at 2 3. destruct (negb (isNonNullObject (Some frame))) eqn:Eo.
  { unfold requestState. by rewrite Eo. }
  destruct (str_of (prop "method" frame)) as [method|] eqn:Em.
  2:{ unfold requestState. by rewrite Eo, Em. }
  destruct (negb (bool_decide (method ∈ SESSION_OPENING_METHODS))) eqn:Eop.
  { unfold requestState. by rewrite Eo, Em, Eop. }
  unfold requestState. rewrite isNonNullObject_with. simpl negb.
  rewrite (prop_with_prop "params" "method"), decide_False by done.
  change (match frame with jobj l => om_get "method" l | _ => None end) with (prop "method" frame).
  rewrite Em, Eop. cbn [negb].
  repeat (rewrite prop_with_prop, decide_True by done; rewrite ?object_or_empty_with, ?with_prop_idem).
  by rewrite withStateFilter_idem.
Qed.

Lemma str_of_Some v s : str_of v = Some s -> v = Some (jstr s).
Proof. destruct v as [[]|]; simpl; congruence. Qed.
Lemma is_str_Some s v : is_str s v = true -> v = Some (jstr s).
Proof.
  unfold is_str. destruct (str_of v) eqn:E; simpl; [|done]. intros <-%String.eqb_eq. by apply str_of_Some.
Qed.

(** The options a kind is offered under. *)
Lemma option_kinds_offered raw id kind :
  om_get id (permissionOptionKindsOf raw) = Some kind ->
  exists l option, raw = Some (jarr l) /\ option ∈ l /\
    prop "optionId" option = Some (jstr id) /\ kindOfName (prop "kind" option) = Some kind.
Proof.
  unfold permissionOptionKindsOf.
  set (l := match raw with Some (jarr l) => l | _ => [] end).
  assert (forall l0 m, om_get id (foldl (fun m option =>
           match str_of (prop "optionId" option) with
           | Some id => if truthy id then match kindOfName (prop "kind" option) with
                                          | Some kind => om_set id kind m | None => m end else m
           | None => m end) m l0) = Some kind ->
    om_get id m = Some kind \/ exists option, option ∈ l0 /\
      prop "optionId" option = Some (jstr id) /\ kindOfName (prop "kind" option) = Some kind) as Hgen.
  { induction l0 as [|o l0 IH]; intros m H; simpl in H; [by left|].
    destruct (IH _ H) as [Hm|(o' & Ho & ?)]; [|right; exists o'; split; [by right|done]].
    destruct (str_of (prop "optionId" o)) as [i|] eqn:Ei; [|by left].
    destruct (truthy i); [|by left]. destruct (kindOfName _) as [k|] eqn:Ek; [|by left].
    rewrite om_get_set in Hm. case_decide as E; [|by left]. right. exists o. split; [by left|].
    subst i. simplify_eq. split; [|done]. by apply str_of_Some. }
  intros H. destruct (Hgen _ _ H) as [?|(o & Ho & ? & ?)]; [done|].
  unfold l in Ho. destruct raw as [[| | | |l'|]|]; try by apply elem_of_nil in Ho.
  by exists l', o.
Qed.

(** A verdict is recorded only for a tool call approval that was answered with
    an option the request offered, under the kind the harness gave that option:
    a cancel, a made-up option or another request records none. *)
Theorem verdict_is_of_an_offered_option line result by_ v :
  verdictOf line result by_ = Some v ->
  approvalToolCallIdOf line = Some (pv_toolCallId v) /\ pv_by v = by_ /\
  exists request id options option,
    line = ln_json request /\
    oprop "outcome" (oprop "outcome" result) = Some (jstr "selected") /\
    oprop "optionId" (oprop "outcome" result) = Some (jstr id) /\
    oprop "options" (prop "params" request) = Some (jarr options) /\ option ∈ options /\
    prop "optionId" option = Some (jstr id) /\ kindOfName (prop "kind" option) = Some (pv_kind v).
Proof.
  unfold verdictOf, approvalToolCallIdOf. intros H.
  destruct (permissionRequestParamsOf line) as [params|] eqn:Ep; [|done]. simpl.
  destruct (toolCallIdIn params) as [tc|] eqn:Et; [|done].
  set (out := if isNonNullObject result then oprop "outcome" result else None) in *.
  destruct (negb (isNonNullObject out)) eqn:E1; [done|].
  destruct (negb (is_str "selected" (oprop "outcome" out))) eqn:E2; [done|]. simpl in H.
  destruct (str_of (oprop "optionId" out)) as [id|] eqn:Ei; [|done].
  destruct (om_get id _) as [kind|] eqn:Ek; [|done]. simplify_eq. simpl.
  split; [done|]. split; [done|].
  destruct (option_kinds_offered _ _ _ Ek) as (options & o & Eo & Ho & Hid & Hk).
  assert (exists request, line = ln_json request /\ prop "params" request = Some params) as (request & -> & Epar).
  { unfold permissionRequestParamsOf in Ep. destruct line as [j|]; [|done]. exists j. split; [done|].
    destruct (_ || _); [done|]. by destruct (isNonNullObject (prop "params" j)). }
  assert (out = oprop "outcome" result) as Eout.
  { unfold out in *. by destruct (isNonNullObject result). }
  rewrite Eout in *. apply negb_false_iff, is_str_Some in E2. apply str_of_Some in Ei.
  exists request, id, options, o. rewrite Epar. simpl. by rewrite Eo.
Qed.

Definition sample_request : json :=
  jobj [("method", jstr "session/request_permission"); ("params", jobj [
    ("toolCall", jobj [("toolCallId", jstr "t1")]);
    ("options", jarr [jobj [("optionId", jstr "a"); ("kind", jstr "allow_once")];
                      jobj [("optionId", jstr "r"); ("kind", jstr "reject_once")]])])].
Definition sample_answer (id : string) : json :=
  jobj [("outcome", jobj [("outcome", jstr "selected"); ("optionId", jstr id)])].

Lemma verdict_is_of_an_offered_option_witness :
  approvalToolCallIdOf (ln_json sample_request) = Some "t1" /\
  verdictOf (ln_json sample_request) (Some (sample_answer "x")) "ann" = None.
Proof.
  split; [|reflexivity].
  apply (verdict_is_of_an_offered_option (ln_json sample_request) (Some (sample_answer "r")) "ann"
           (mk_verdict "t1" vk_reject_once "ann") eq_refl).
Defined.
