(* ===== verification/AgentRequests.v ===== *)
(** Requests of an agent that wait for a person
    (packages/agent-runtime/src/modules/acp/services/acp-runtime/pending-agent-requests.ts),
    and what makes them right: one outcome each, the first answer stands, and a
    question nobody can see does not wait forever.

    [AgentReqs] holds the two maps; what the holder tells the harness, the
    channels and its observer is appended to [aq_log]. *)
From stdpp Require Import base strings list.
From Stdlib Require Import ZArith Lia.
From S2P Require Import Prelude JsString AcpFrames.
Local Open Scope Z_scope.

Inductive JsonRpcId := id_num (z : Z) | id_str (s : string).
#[export] Instance JsonRpcId_dec : EqDecision JsonRpcId.
Proof. solve_decision. Defined.

Record PendingRequest := mk_request {
  rq_sessionId : option string;
  rq_line : Line;
  rq_unwatched : bool;
}.

Record JsonRpcResponse := mk_response {
  rs_id : JsonRpcId;
  rs_result : option json;
  rs_error : option json;
}.

Inductive AEvent :=
| AHeld (id : JsonRpcId) (sessionId : string) (line : Line)
| AWaiting (id : JsonRpcId) (sessionId : string) (line : Line)
| AAnswered (id : JsonRpcId) (sessionId : string) (result : option json)
| AAbandoned (id : JsonRpcId) (sessionId : string)
| AToAgent (frame : JsonRpcResponse)
| AToChannel (channel : string) (line : Line)
| AExpired.

Record ReqDeps := mk_reqdeps {
  rd_now : Z;
  rd_orphanTtlMs : Z;
  rd_channelsFor : option string -> list string;
  rd_isOpen : string -> bool;
}.

Record AgentReqs := mk_agentreqs {
  aq_pending : list (JsonRpcId * PendingRequest);
  aq_expiryTimers : list (string * Z);
  aq_log : list AEvent;
}.

Record AnsweredRequest := mk_answered { an_sessionId : option string; an_line : Line }.

Definition createPendingAgentRequests : AgentReqs := mk_agentreqs [] [] [].

Definition set_pending p (s : AgentReqs) : AgentReqs := mk_agentreqs p (aq_expiryTimers s) (aq_log s).
Definition set_timers t (s : AgentReqs) : AgentReqs := mk_agentreqs (aq_pending s) t (aq_log s).
Definition atell (es : list AEvent) (s : AgentReqs) : AgentReqs :=
  mk_agentreqs (aq_pending s) (aq_expiryTimers s) (aq_log s ++ es).

(** [req.sessionId === sessionId] *)
Definition ofSession (sessionId : string) (kv : JsonRpcId * PendingRequest) : bool :=
  ostr_eqb (rq_sessionId kv.2) sessionId.

Definition hasFor (sessionId : string) (s : AgentReqs) : bool :=
  existsb (ofSession sessionId) (aq_pending s).

Definition clearExpiryTimer (sessionId : string) (s : AgentReqs) : AgentReqs :=
  set_timers (om_delete sessionId (aq_expiryTimers s)) s.

Definition isUnannounced (sessionId : string) (kv : JsonRpcId * PendingRequest) : bool :=
  ofSession sessionId kv && negb (rq_unwatched kv.2).

Definition announceUnwatched (sessionId : string) (s : AgentReqs) : AgentReqs :=
  atell (map (fun kv => AWaiting kv.1 sessionId (rq_line kv.2))
           (List.filter (isUnannounced sessionId) (aq_pending s)))
    (set_pending
       (map (fun kv => if isUnannounced sessionId kv
                       then (kv.1, mk_request (rq_sessionId kv.2) (rq_line kv.2) true) else kv)
          (aq_pending s)) s).

(** [abandoned] of the source, as the events it causes. *)
Definition abandoned (kv : JsonRpcId * PendingRequest) : list AEvent :=
  match rq_sessionId kv.2 with Some sessionId => [AAbandoned kv.1 sessionId] | None => [] end.

Definition error_of (message : string) : json :=
  jobj [("code"%string, jnum (-32000)); ("message"%string, jstr message)].

Definition abortRequestsOf (sessionId message : string) (s : AgentReqs) : AgentReqs * nat :=
  let aborted := List.filter (ofSession sessionId) (aq_pending s) in
  (foldl (fun s kv =>
            atell (AToAgent (mk_response kv.1 None (Some (error_of message))) :: abandoned kv)
              (set_pending (om_delete kv.1 (aq_pending s)) s)) s aborted,
   length aborted).

Definition EXPIRED_MESSAGE : string := "Permission request expired: no client connected".
Definition RESET_MESSAGE : string := "Permission request cancelled: session reset".
Definition CANCELLED : json :=
  jobj [("outcome"%string, jobj [("outcome"%string, jstr "cancelled")])].

(** The timer of a session fires. *)
Definition expire (sessionId : string) (s : AgentReqs) : AgentReqs :=
  let '(s, expired) := abortRequestsOf sessionId EXPIRED_MESSAGE (clearExpiryTimer sessionId s) in
  if (0 <? expired)%nat then atell [AExpired] s else s.

Section Operations.
Context (d : ReqDeps).

Definition hasOpenChannel (sessionId : string) : bool :=
  existsb (rd_isOpen d) (rd_channelsFor d (Some sessionId)).

Definition updateExpiryTimer (sessionId : string) (s : AgentReqs) : AgentReqs :=
  let shouldRun := hasFor sessionId s && negb (hasOpenChannel sessionId) in
  if shouldRun then
    let s := announceUnwatched sessionId s in
    if om_has sessionId (aq_expiryTimers s) then s
    else set_timers (om_set sessionId (rd_now d + rd_orphanTtlMs d) (aq_expiryTimers s)) s
  else clearExpiryTimer sessionId s.

Definition onAgentRequest (id : JsonRpcId) (sessionId : option string) (line : Line) (s : AgentReqs)
  : AgentReqs :=
  let s := set_pending (om_set id (mk_request sessionId line false) (aq_pending s)) s in
  let s := match sessionId with Some sid => atell [AHeld id sid line] s | None => s end in
  let out := rewriteAuthError line in
  let s := atell (map (fun c => AToChannel c out)
                    (List.filter (rd_isOpen d) (rd_channelsFor d sessionId))) s in
  match sessionId with Some sid => updateExpiryTimer sid s | None => s end.

Definition answer (frame : JsonRpcResponse) (s : AgentReqs) : AgentReqs * option AnsweredRequest :=
  match om_get (rs_id frame) (aq_pending s) with
  | None => (s, None)
  | Some req =>
      let s := set_pending (om_delete (rs_id frame) (aq_pending s)) s in
      let s := match rq_sessionId req with Some sid => updateExpiryTimer sid s | None => s end in
      let s := atell [AToAgent frame] s in
      let s := match rq_sessionId req with
               | Some sid => atell [AAnswered (rs_id frame) sid (rs_result frame)] s
               | None => s
               end in
      (s, Some (mk_answered (rq_sessionId req) (rq_line req)))
  end.

Definition onEngaged (channel sessionId : string) (s : AgentReqs) : AgentReqs :=
  updateExpiryTimer sessionId
    (atell (map (fun kv => AToChannel channel (rewriteAuthError (rq_line kv.2)))
              (List.filter (fun kv => ofSession sessionId kv && rd_isOpen d channel) (aq_pending s))) s).

Definition reassess (sessionId : string) (s : AgentReqs) : AgentReqs := updateExpiryTimer sessionId s.

Definition cancelOne (sessionId : string) (acc : AgentReqs * list string)
    (kv : JsonRpcId * PendingRequest) : AgentReqs * list string :=
  let '(s, ids) := acc in
  if negb (ofSession sessionId kv) then acc
  else
    match approvalToolCallIdOf (rq_line kv.2) with
    | None => acc
    | Some toolCallId =>
        (atell [AToAgent (mk_response kv.1 (Some CANCELLED) None);
                AAnswered kv.1 sessionId (Some CANCELLED)]
           (set_pending (om_delete kv.1 (aq_pending s)) s),
         ids ++ [toolCallId])
    end.

Definition cancelApprovals (sessionId : string) (s : AgentReqs) : AgentReqs * list string :=
  let '(s, toolCallIds) := foldl (cancelOne sessionId) (s, []) (aq_pending s) in
  (updateExpiryTimer sessionId s, toolCallIds).

Definition any (s : AgentReqs) : bool := (0 <? length (aq_pending s))%nat.
Definition size (s : AgentReqs) : nat := length (aq_pending s).

Definition forget (sessionId : string) (s : AgentReqs) : AgentReqs :=
  fst (abortRequestsOf sessionId RESET_MESSAGE (clearExpiryTimer sessionId s)).

Definition clear (s : AgentReqs) : AgentReqs :=
  set_timers [] (set_pending [] (atell (flat_map abandoned (aq_pending s)) s)).
End Operations.

(** ** Runs *)
Inductive ReqOp :=
| ro_request (id : JsonRpcId) (sessionId : option string) (line : Line)
| ro_answer (frame : JsonRpcResponse) | ro_engaged (channel sessionId : string)
| ro_reassess (sessionId : string) | ro_cancelApprovals (sessionId : string)
| ro_forget (sessionId : string) | ro_clear | ro_timer (sessionId : string).

(** A timer fires when it is armed and due. *)
Definition req_step (d : ReqDeps) (op : ReqOp) (s : AgentReqs) : AgentReqs :=
  match op with
  | ro_request id sessionId line => onAgentRequest d id sessionId line s
  | ro_answer frame => fst (answer d frame s)
  | ro_engaged channel sessionId => onEngaged d channel sessionId s
  | ro_reassess sessionId => reassess d sessionId s
  | ro_cancelApprovals sessionId => fst (cancelApprovals d sessionId s)
  | ro_forget sessionId => forget sessionId s
  | ro_clear => clear s
  | ro_timer sessionId =>
      match om_get sessionId (aq_expiryTimers s) with
      | Some due => if due <=? rd_now d then expire sessionId s else s
      | None => s
      end
  end.

Definition req_run (l : list (ReqDeps * ReqOp)) (s : AgentReqs) : AgentReqs :=
  foldl (fun s '(d, op) => req_step d op s) s l.

(** The harness does not use the id of a request it still waits on again. *)
Fixpoint ids_fresh (l : list (ReqDeps * ReqOp)) (s : AgentReqs) : bool :=
  match l with
  | [] => true
  | (d, op) :: l =>
      match op with
      | ro_request id _ _ => negb (om_has id (aq_pending s))
      | _ => true
      end && ids_fresh l (req_step d op s)
  end.

(** ** Every operation is made of three steps *)

(** What a request is, apart from whether it was announced. *)
Definition shape (s : AgentReqs) : list (JsonRpcId * (option string * Line)) :=
  map (fun kv => (kv.1, (rq_sessionId kv.2, rq_line kv.2))) (aq_pending s).

Definition is_quiet (e : AEvent) : Prop :=
  match e with AWaiting _ _ _ | AToChannel _ _ | AExpired => True | _ => False end.

(** How the observer hears of an end. *)
Definition outcome_of (id : JsonRpcId) (sessionId : option string) (e : list AEvent) : Prop :=
  match sessionId with
  | Some sid => e = [AAbandoned id sid] \/ exists r, e = [AAnswered id sid r]
  | None => e = []
  end.

Inductive rstep : list JsonRpcId -> AgentReqs -> AgentReqs -> Prop :=
| rstep_quiet s s' es :
    shape s' = shape s -> aq_log s' = aq_log s ++ es -> Forall is_quiet es -> rstep [] s s'
| rstep_ask id sessionId line s s' :
    om_get id (shape s) = None ->
    shape s' = shape s ++ [(id, (sessionId, line))] ->
    aq_log s' = aq_log s ++ match sessionId with Some sid => [AHeld id sid line] | None => [] end ->
    rstep [id] s s'
| rstep_close id sessionId line frame qs es s s' :
    om_get id (shape s) = Some (sessionId, line) -> shape s' = om_delete id (shape s) ->
    rs_id frame = id -> outcome_of id sessionId es -> Forall is_quiet qs ->
    aq_log s' = aq_log s ++ qs ++ AToAgent frame :: es -> rstep [] s s'.

Inductive rsteps : list JsonRpcId -> AgentReqs -> AgentReqs -> Prop :=
| rsteps_refl s : rsteps [] s s
| rsteps_step l1 l2 s1 s2 s3 : rstep l1 s1 s2 -> rsteps l2 s2 s3 -> rsteps (l1 ++ l2) s1 s3.

Lemma rsteps_one l s s' : rstep l s s' -> rsteps l s s'.
Proof. intros H. rewrite <- (app_nil_r l). eapply rsteps_step; [done|constructor]. Qed.
Lemma rsteps_trans l1 l2 s1 s2 s3 : rsteps l1 s1 s2 -> rsteps l2 s2 s3 -> rsteps (l1 ++ l2) s1 s3.
Proof.
  induction 1; [done|]. intros. rewrite <- app_assoc. eapply rsteps_step; [done|auto].
Qed.
Lemma rsteps_quiet s s' es :
  shape s' = shape s -> aq_log s' = aq_log s ++ es -> Forall is_quiet es -> rsteps [] s s'.
Proof. intros. by eapply rsteps_one, rstep_quiet. Qed.

(** *** Maps under [shape] *)
Lemma shape_get id s :
  om_get id (shape s) = (fun r => (rq_sessionId r, rq_line r)) <$> om_get id (aq_pending s).
Proof.
  unfold shape. induction (aq_pending s) as [|[k r] m IH]; simpl; [done|]. by case_decide.
Qed.
Lemma shape_delete id s : shape (set_pending (om_delete id (aq_pending s)) s) = om_delete id (shape s).
Proof.
  unfold shape. simpl. induction (aq_pending s) as [|[k r] m IH]; simpl; [done|].
  case_decide; simpl; [done|]. by rewrite IH.
Qed.
Lemma shape_ask id r s :
  om_get id (aq_pending s) = None ->
  shape (set_pending (om_set id r (aq_pending s)) s)
  = shape s ++ [(id, (rq_sessionId r, rq_line r))].
Proof.
  unfold shape. simpl. induction (aq_pending s) as [|[k r'] m IH]; simpl; [done|].
  case_decide; simpl; [done|]. intros. by rewrite IH.
Qed.

Lemma hasFor_shape sid s :
  hasFor sid s = existsb (fun kv => ostr_eqb kv.2.1 sid) (shape s).
Proof. unfold hasFor, shape. induction (aq_pending s); simpl; [done|]. by f_equal. Qed.

(** *** The operations *)
Lemma announce_shape sid s : shape (announceUnwatched sid s) = shape s.
Proof.
  unfold shape, announceUnwatched. simpl. rewrite map_map. apply map_ext.
  intros kv. by destruct (isUnannounced sid kv).
Qed.

(** A step that only talks. *)
Definition talks (s s' : AgentReqs) : Prop :=
  shape s' = shape s /\ exists es, aq_log s' = aq_log s ++ es /\ Forall is_quiet es.

Lemma talks_steps s s' : talks s s' -> rsteps [] s s'.
Proof. intros (? & es & ? & ?). by eapply rsteps_quiet. Qed.

Lemma quiet_map {A} (f : A -> AEvent) l : (forall a, is_quiet (f a)) -> Forall is_quiet (map f l).
Proof. intros. induction l; simpl; by constructor. Qed.

Lemma update_talks d sid s : talks s (updateExpiryTimer d sid s).
Proof.
  unfold updateExpiryTimer. destruct (_ && _).
  - assert (talks s (announceUnwatched sid s)) as H.
    { split; [apply announce_shape|]. eexists. split; [reflexivity|]. by apply quiet_map. }
    by destruct (om_has _ _).
  - split; [done|]. exists []. by rewrite app_nil_r.
Qed.

Lemma channels_quiet s es :
  Forall is_quiet es -> rsteps [] s (atell es s).
Proof. intros. by eapply rsteps_quiet. Qed.

Lemma ask_steps d id sid line s :
  om_has id (aq_pending s) = false -> rsteps [id] s (onAgentRequest d id sid line s).
Proof.
  intros Hf. unfold onAgentRequest.
  assert (om_get id (aq_pending s) = None) as Hn by (unfold om_has in Hf; by case_match).
  set (s1 := set_pending (om_set id (mk_request sid line false) (aq_pending s)) s).
  set (s2 := match sid with Some x => atell [AHeld id x line] s1 | None => s1 end).
  assert (rstep [id] s s2) as H.
  { apply (rstep_ask id sid line).
    - by rewrite shape_get, Hn.
    - pose proof (shape_ask id (mk_request sid line false) s Hn). unfold s2. by destruct sid.
    - unfold s2. destruct sid; simpl; by rewrite ?app_nil_r. }
  eapply (rsteps_trans [id] []); [by apply rsteps_one|].
  destruct sid; [eapply (rsteps_trans [] []); [|apply talks_steps, update_talks]|];
    apply channels_quiet; by apply quiet_map.
Qed.

Lemma answer_steps d frame s : rsteps [] s (fst (answer d frame s)).
Proof.
  unfold answer. destruct (om_get (rs_id frame) (aq_pending s)) as [req|] eqn:E; [|constructor].
  destruct (rq_sessionId req) as [sid|] eqn:Es; simpl.
  - set (s1 := set_pending _ s). destruct (update_talks d sid s1) as (Hs & qs & Hl & Hq).
    eapply rsteps_one, (rstep_close (rs_id frame) (Some sid) (rq_line req) frame qs
      [AAnswered (rs_id frame) sid (rs_result frame)]); try done.
    + by rewrite shape_get, E, <- Es.
    + rewrite <- shape_delete. exact Hs.
    + right. by eexists.
    + simpl. rewrite Hl, <- !app_assoc. done.
  - eapply rsteps_one, (rstep_close (rs_id frame) None (rq_line req) frame [] []); try done.
    + by rewrite shape_get, E, <- Es.
    + exact (shape_delete (rs_id frame) s).
Qed.

Lemma close_one_steps kv message s :
  om_get kv.1 (aq_pending s) = Some kv.2 ->
  rsteps [] s (atell (AToAgent (mk_response kv.1 None (Some (error_of message))) :: abandoned kv)
                 (set_pending (om_delete kv.1 (aq_pending s)) s)).
Proof.
  intros Hg. eapply rsteps_one, (rstep_close kv.1 (rq_sessionId kv.2) (rq_line kv.2)
    (mk_response kv.1 None (Some (error_of message))) [] (abandoned kv)); try done.
  - by rewrite shape_get, Hg.
  - exact (shape_delete kv.1 s).
  - unfold abandoned, outcome_of. destruct (rq_sessionId kv.2); [by left|done].
Qed.

Lemma aborts_steps message l s :
  NoDup (om_keys l) -> (forall kv, kv ∈ l -> om_get kv.1 (aq_pending s) = Some kv.2) ->
  rsteps [] s (foldl (fun s kv =>
            atell (AToAgent (mk_response kv.1 None (Some (error_of message))) :: abandoned kv)
              (set_pending (om_delete kv.1 (aq_pending s)) s)) s l).
Proof.
  revert s. induction l as [|kv l IH]; intros s Hnd Hin; simpl; [constructor|].
  inversion Hnd; subst. eapply (rsteps_trans [] []); [apply close_one_steps, Hin; by left|].
  apply IH; [done|]. intros kv' Hkv. simpl. rewrite om_get_delete, decide_False; [apply Hin; by right|].
  intros E. apply H1. rewrite <- E. apply list_elem_of_fmap. by exists kv'.
Qed.

Definition reqs_wf (s : AgentReqs) : Prop := NoDup (om_keys (aq_pending s)).

Lemma filter_keys_NoDup {K V} (p : K * V -> bool) (m : list (K * V)) :
  NoDup (om_keys m) -> NoDup (om_keys (List.filter p m)).
Proof.
  unfold om_keys. induction m as [|kv m IH]; simpl; [done|]. intros H. inversion H; subst.
  destruct (p kv); simpl; [constructor|]; auto. intros Hin. apply H2.
  apply list_elem_of_fmap in Hin as (kv' & -> & Hf). apply list_elem_of_fmap. exists kv'.
  split; [done|]. by apply list_elem_of_In, List.filter_In in Hf as [?%list_elem_of_In _].
Qed.

Lemma abort_steps sid message s : reqs_wf s -> rsteps [] s (fst (abortRequestsOf sid message s)).
Proof.
  intros Hw. apply aborts_steps; [by apply filter_keys_NoDup|]. intros [k r] Hkv.
  apply list_elem_of_In, List.filter_In in Hkv as [?%list_elem_of_In _]. by apply om_in_get.
Qed.

Lemma cancels_steps sid l acc :
  NoDup (om_keys l) -> (forall kv, kv ∈ l -> om_get kv.1 (aq_pending acc.1) = Some kv.2) ->
  rsteps [] acc.1 (foldl (cancelOne sid) acc l).1.
Proof.
  revert acc. induction l as [|kv l IH]; intros [s ids] Hnd Hin; simpl; [constructor|].
  inversion Hnd; subst.
  destruct (ofSession sid kv) eqn:Eo; simpl; [|apply (IH (s, ids)); [done|]; intros; apply Hin; by right].
  destruct (approvalToolCallIdOf (rq_line kv.2)) as [tc|];
    [|apply (IH (s, ids)); [done|]; intros; apply Hin; by right].
  set (s1 := atell _ _). eapply (rsteps_trans [] [] s s1).
  - eapply rsteps_one, (rstep_close kv.1 (Some sid) (rq_line kv.2)
      (mk_response kv.1 (Some CANCELLED) None) [] [AAnswered kv.1 sid (Some CANCELLED)]); try done.
    + rewrite shape_get, Hin by (by left). simpl. unfold ofSession in Eo.
      destruct (rq_sessionId kv.2); simpl in Eo; [|done]. by apply String.eqb_eq in Eo as ->.
    + exact (shape_delete kv.1 s).
    + right. by eexists.
  - apply (IH (s1, ids ++ [tc])); [done|]. intros kv' Hkv. simpl.
    rewrite om_get_delete, decide_False; [apply Hin; by right|].
    intros E. apply H1. rewrite <- E. apply list_elem_of_fmap. by exists kv'.
Qed.

Lemma clear_abort_steps sid message s :
  reqs_wf s -> rsteps [] s (fst (abortRequestsOf sid message (clearExpiryTimer sid s))).
Proof.
  intros Hw. eapply (rsteps_trans [] []); [|by apply abort_steps].
  apply (rsteps_quiet _ _ []); simpl; by rewrite ?app_nil_r.
Qed.

Definition asks (op : ReqOp) : list JsonRpcId :=
  match op with ro_request id _ _ => [id] | _ => [] end.

(** The step relation of every operation but [clear]. *)
Lemma req_step_steps d op s :
  reqs_wf s -> op <> ro_clear -> (forall id, id ∈ asks op -> om_has id (aq_pending s) = false) ->
  rsteps (asks op) s (req_step d op s).
Proof.
  intros Hw Hc Hf. destruct op; simpl in *; try done.
  - apply ask_steps, Hf. by left.
  - apply answer_steps.
  - unfold onEngaged. eapply (rsteps_trans [] []); [|apply talks_steps, update_talks].
    apply channels_quiet; by apply quiet_map.
  - apply talks_steps, update_talks.
  - unfold cancelApprovals.
    pose proof (cancels_steps sessionId (aq_pending s) (s, []) Hw) as H. simpl in H.
    destruct (foldl _ _ _) as [s1 ids]. simpl.
    eapply (rsteps_trans [] []); [|apply talks_steps, update_talks]. apply H.
    intros [k r] Hkv. by apply om_in_get.
  - by apply clear_abort_steps.
  - destruct (om_get _ _); [|constructor]. destruct (_ <=? _); [|constructor]. unfold expire.
    pose proof (clear_abort_steps sessionId EXPIRED_MESSAGE s Hw) as H1.
    destruct (abortRequestsOf _ _ _) as [s1 n]. simpl in H1.
    destruct (0 <? n)%nat; [|done]. eapply (rsteps_trans [] []); [exact H1|].
    by apply channels_quiet, Forall_singleton.
Qed.

(** ** Counting *)
Definition held_of (id : JsonRpcId) (e : AEvent) : bool :=
  match e with AHeld i _ _ => bool_decide (i = id) | _ => false end.
Definition ended_of (id : JsonRpcId) (e : AEvent) : bool :=
  match e with AAnswered i _ _ | AAbandoned i _ => bool_decide (i = id) | _ => false end.
Definition reply_of (id : JsonRpcId) (e : AEvent) : bool :=
  match e with AToAgent f => bool_decide (rs_id f = id) | _ => false end.
Definition asked (id : JsonRpcId) (l : list JsonRpcId) : nat :=
  length (List.filter (fun i => bool_decide (i = id)) l).

(** Open questions of an id: of a session, or at all. *)
Definition open_of (id : JsonRpcId) (s : AgentReqs) : nat :=
  match om_get id (shape s) with Some (Some _, _) => 1 | _ => 0 end.
Definition waits (id : JsonRpcId) (s : AgentReqs) : nat :=
  match om_get id (shape s) with Some _ => 1 | None => 0 end.

Lemma asked_app id l1 l2 : asked id (l1 ++ l2) = (asked id l1 + asked id l2)%nat.
Proof. unfold asked. by rewrite List.filter_app, length_app. Qed.

Lemma count_quiet p l :
  Forall is_quiet l -> (forall e, is_quiet e -> p e = false) -> count p l = 0%nat.
Proof. intros Hl Hp. apply count_zero. eapply Forall_impl; [exact Hl | exact Hp]. Qed.

Lemma quiet_counts id e :
  is_quiet e -> held_of id e = false /\ ended_of id e = false /\ reply_of id e = false.
Proof. by destruct e. Qed.

(** The two balances, and that an id names one request. *)
Definition balanced (id : JsonRpcId) (n : nat) (s : AgentReqs) : Prop :=
  count (held_of id) (aq_log s) = (count (ended_of id) (aq_log s) + open_of id s)%nat /\
  (count (reply_of id) (aq_log s) + waits id s = n)%nat.

Lemma decide_bool_eq {A} (id i : JsonRpcId) (x y : A) :
  (if decide (id = i) then x else y) = if bool_decide (i = id) then x else y.
Proof. case_decide; case_bool_decide; congruence. Qed.

Lemma rstep_balanced id l n s s' :
  rstep l s s' -> balanced id n s -> balanced id (n + asked id l) s'.
Proof.
  intros H [Hh Hr]. unfold balanced, open_of, waits in *.
  destruct H as [s s' es Hs Hl Hq|i sid line s s' Hn Hs Hl|i sid line frame qs es s s' Hg Hs Hf Ho Hq Hl].
  - rewrite Hs, Hl, !count_app. rewrite !(count_quiet _ es Hq); [unfold asked; simpl; lia| | |];
      intros e He; by destruct (quiet_counts id e He) as (? & ? & ?).
  - rewrite Hs, Hl, !count_app, om_get_app. unfold asked. simpl. rewrite (decide_bool_eq id i).
    destruct (bool_decide (i = id)) eqn:Eb; simpl.
    + apply bool_decide_eq_true in Eb as ->. rewrite Hn in *.
      destruct sid; rewrite ?count_cons, ?count_nil; simpl; rewrite ?bool_decide_eq_true_2 by done; lia.
    + destruct (om_get id (shape s)), sid; rewrite ?count_cons, ?count_nil; simpl; rewrite ?Eb; lia.
  - rewrite Hs, Hl, !count_app, om_get_delete, !count_cons. unfold asked. simpl.
    rewrite !(count_quiet _ qs Hq); [|intros e He; by destruct (quiet_counts id e He) as (? & ? & ?)..].
    rewrite Hf, (decide_bool_eq id i). destruct (bool_decide (i = id)) eqn:Eb; simpl.
    + apply bool_decide_eq_true in Eb as ->. rewrite Hg in *.
      destruct sid; simpl in Ho; [destruct Ho as [->|[r ->]]|subst es];
        rewrite ?count_cons, ?count_nil; simpl; rewrite ?bool_decide_eq_true_2 by done; lia.
    + destruct sid; simpl in Ho; [destruct Ho as [->|[r ->]]|subst es];
        rewrite ?count_cons, ?count_nil; simpl; rewrite ?Eb; lia.
Qed.

Lemma rsteps_balanced id l n s s' :
  rsteps l s s' -> balanced id n s -> balanced id (n + asked id l) s'.
Proof.
  intros H. revert n. induction H as [s|l1 l2 s1 s2 s3 H _ IH]; intros n Hb.
  - by rewrite Nat.add_0_r.
  - rewrite asked_app, Nat.add_assoc. eapply IH, rstep_balanced; done.
Qed.

Lemma shape_keys s : om_keys (shape s) = om_keys (aq_pending s).
Proof. unfold shape, om_keys. by rewrite map_map. Qed.

Lemma rsteps_wf l s s' : rsteps l s s' -> reqs_wf s -> reqs_wf s'.
Proof.
  unfold reqs_wf. rewrite <- !shape_keys.
  induction 1 as [|l1 l2 s1 s2 s3 H _ IH]; [done|]. intros Hw. apply IH. clear IH.
  destruct H as [s s' es Hs|i sid line s s' Hn Hs|i sid line frame qs es s s' Hg Hs]; rewrite Hs; auto with dam.
  unfold om_keys. rewrite map_app. apply NoDup_app. split; [done|]. split; [|apply NoDup_singleton].
  intros k Hk Hin. apply list_elem_of_singleton in Hin as ->. by apply om_get_None_keys in Hn.
Qed.

(** What [clear] tells of the requests it drops. *)
Lemma count_abandoned id m :
  NoDup (om_keys m) ->
  count (ended_of id) (flat_map abandoned m)
  = match om_get id m with Some r => (if rq_sessionId r then 1 else 0)%nat | None => 0%nat end.
Proof.
  induction m as [|[k r] m IH]; simpl; [done|]. intros Hnd. inversion Hnd as [|? ? Hni Hnd']; subst.
  rewrite count_app, IH by done. unfold abandoned at 1. simpl. case_decide as E.
  - subst k. assert (om_get id m = None) as -> by (by apply om_get_None_keys).
    destruct (rq_sessionId r); rewrite ?count_cons, ?count_nil; simpl; [|done].
    by rewrite bool_decide_eq_true_2.
  - destruct (rq_sessionId r); rewrite ?count_cons, ?count_nil; simpl; [|done].
    by rewrite bool_decide_eq_false_2 by congruence.
Qed.

Lemma clear_balanced id n s :
  reqs_wf s -> balanced id n s -> balanced id (n - waits id s) (clear s) /\ reqs_wf (clear s).
Proof.
  intros Hw [Hh Hr]. split; [|apply NoDup_nil_2]. unfold clear. simpl.
  assert (forall p, (forall kv, Forall (fun e => p e = false) (abandoned kv)) ->
            count p (flat_map abandoned (aq_pending s)) = 0%nat) as Hz.
  { intros p Hp. induction (aq_pending s) as [|kv m IHm]; simpl; [done|]. rewrite count_app, IHm.
    specialize (Hp kv). unfold count. induction Hp as [|e es He _ IHe]; simpl; [done|]. by rewrite He. }
  unfold balanced, open_of, waits in *. simpl. rewrite !count_app.
  rewrite (count_abandoned id _ Hw). rewrite shape_get in *. simpl in *.
  rewrite !Hz; [|intros kv; unfold abandoned; destruct (rq_sessionId kv.2); repeat constructor..].
  destruct (om_get id (aq_pending s)) as [r|]; simpl in *; [destruct (rq_sessionId r)|]; simpl in *; lia.
Qed.

Definition asked_by (id : JsonRpcId) (l : list (ReqDeps * ReqOp)) : nat :=
  asked id (flat_map (fun x => asks x.2) l).

Lemma req_run_balanced id l s n :
  reqs_wf s -> ids_fresh l s = true -> balanced id n s ->
  reqs_wf (req_run l s) /\
  exists m, (m <= n + asked_by id l)%nat /\ balanced id m (req_run l s) /\
    ((forall d op, (d, op) ∈ l -> op <> ro_clear) -> m = (n + asked_by id l)%nat).
Proof.
  revert s n. induction l as [|[d op] l IH]; intros s n Hw Hf Hb; simpl.
  { split; [done|]. exists n. unfold asked_by, asked. simpl. split; [lia|]. split; [done|lia]. }
  simpl in Hf. apply andb_true_iff in Hf as [Ha Hf].
  unfold asked_by. simpl. rewrite asked_app. fold (asked_by id l).
  assert (op = ro_clear \/ op <> ro_clear) as [->|Hne] by (destruct op; auto; by right).
  - destruct (clear_balanced id n s Hw Hb) as [Hb' Hw'].
    destruct (IH (clear s) _ Hw' Hf Hb') as (? & m & Hm & ? & _).
    split; [done|]. exists m. simpl. split; [unfold asked; simpl; lia|]. split; [done|].
    intros Hc. by destruct (Hc d ro_clear); [left|].
  - assert (rsteps (asks op) s (req_step d op s)) as Hs.
    { apply req_step_steps; [done..|]. intros i Hi. destruct op; simpl in *; try by apply elem_of_nil in Hi.
      apply list_elem_of_singleton in Hi as ->. by apply negb_true_iff in Ha. }
    destruct (IH _ _ (rsteps_wf _ _ _ Hs Hw) Hf (rsteps_balanced id _ n _ _ Hs Hb))
      as (? & m & Hm & ? & He).
    split; [done|]. exists m. simpl. split; [lia|]. split; [done|]. intros Hc.
    rewrite He; [lia|]. intros d' op' Hin. apply (Hc d' op'). by right.
Qed.

(** C22: A question of the harness has exactly one end.  As long as the harness does
    not reuse the id of a question it still waits on, in every run: a question of
    a session is open, or was answered or abandoned once, never twice; and the
    harness gets at most one answer to each, exactly one when it stays up. *)
Theorem one_end_per_question l id :
  ids_fresh l createPendingAgentRequests = true ->
  let s := req_run l createPendingAgentRequests in
  count (held_of id) (aq_log s) = (count (ended_of id) (aq_log s) + open_of id s)%nat /\
  (count (reply_of id) (aq_log s) + waits id s <= asked_by id l)%nat /\
  ((forall d op, (d, op) ∈ l -> op <> ro_clear) ->
   (count (reply_of id) (aq_log s) + waits id s = asked_by id l)%nat).
Proof.
  intros Hf s.
  destruct (req_run_balanced id l createPendingAgentRequests 0 (NoDup_nil_2) Hf) as (_ & m & Hm & [Hh Hr] & He).
  { done. }
  fold s in Hh, Hr. split; [done|]. split; [lia|]. intros Hc. rewrite He in Hr by done. lia.
Qed.

(** ** Questions nobody can see *)
Lemma aborts_effect message l s :
  let s' := foldl (fun s kv =>
              atell (AToAgent (mk_response kv.1 None (Some (error_of message))) :: abandoned kv)
                (set_pending (om_delete kv.1 (aq_pending s)) s)) s l in
  aq_log s' = aq_log s ++
    flat_map (fun kv => AToAgent (mk_response kv.1 None (Some (error_of message))) :: abandoned kv) l /\
  aq_expiryTimers s' = aq_expiryTimers s /\
  forall kv, kv ∈ aq_pending s' <-> kv ∈ aq_pending s /\ Forall (fun kv' => kv.1 <> kv'.1) l.
Proof.
  revert s. induction l as [|kv l IH]; intros s; simpl.
  { rewrite app_nil_r. split; [done|]. split; [done|]. intros kv. split; [|tauto]. by split. }
  destruct (IH (atell (AToAgent (mk_response kv.1 None (Some (error_of message))) :: abandoned kv)
                (set_pending (om_delete kv.1 (aq_pending s)) s))) as (Hl & Ht & Hp).
  split; [rewrite Hl; simpl; by rewrite <- app_assoc|]. split; [by rewrite Ht|].
  intros kv'. rewrite Hp. simpl. rewrite om_delete_in, Forall_cons. tauto.
Qed.

Lemma hasFor_true sid s : hasFor sid s = true <-> exists kv, kv ∈ aq_pending s /\ ofSession sid kv = true.
Proof. unfold hasFor. rewrite existsb_exists. by setoid_rewrite list_elem_of_In. Qed.

Lemma abort_effect sid message s :
  let s' := fst (abortRequestsOf sid message s) in
  aq_expiryTimers s' = aq_expiryTimers s /\
  (forall kv, kv ∈ aq_pending s' <-> kv ∈ aq_pending s /\
     Forall (fun kv' => kv.1 <> kv'.1) (List.filter (ofSession sid) (aq_pending s))) /\
  hasFor sid s' = false.
Proof.
  destruct (aborts_effect message (List.filter (ofSession sid) (aq_pending s)) s) as (_ & Ht & Hp).
  split; [exact Ht|]. split; [exact Hp|]. destruct (hasFor sid _) eqn:E; [|done].
  apply hasFor_true in E as (kv & Hin & Ho). apply Hp in Hin as [Hin Hall].
  rewrite Forall_forall in Hall. by destruct (Hall kv); [apply elem_filter|].
Qed.

(** A question is due to expire only while its session has one. *)
Definition timers_wf (s : AgentReqs) : Prop :=
  forall sid, om_has sid (aq_expiryTimers s) = true -> hasFor sid s = true.

Lemma hasFor_talks sid s s' : talks s s' -> hasFor sid s' = hasFor sid s.
Proof. intros [H _]. by rewrite !hasFor_shape, H. Qed.

Lemma update_armed d sid sid' s :
  om_has sid' (aq_expiryTimers (updateExpiryTimer d sid s))
  = if decide (sid' = sid) then hasFor sid s && negb (hasOpenChannel d sid)
    else om_has sid' (aq_expiryTimers s).
Proof.
  unfold updateExpiryTimer. destruct (hasFor sid s && negb (hasOpenChannel d sid)).
  - simpl. destruct (om_has sid (aq_expiryTimers s)) eqn:E; simpl.
    + case_decide; [congruence|done].
    + by rewrite om_has_set.
  - simpl. by rewrite om_has_delete.
Qed.

(** [s] may have lost questions of [sid] and none of another session. *)
Lemma update_timers_wf d sid s :
  (forall sid', sid' <> sid -> om_has sid' (aq_expiryTimers s) = true -> hasFor sid' s = true) ->
  timers_wf (updateExpiryTimer d sid s).
Proof.
  intros H sid'. rewrite update_armed, (hasFor_talks _ _ _ (update_talks d sid s)).
  case_decide as E; [subst|by apply H]. intros Ha. by apply andb_true_iff in Ha as [? _].
Qed.

Lemma same_id s kv kv' :
  reqs_wf s -> kv ∈ aq_pending s -> kv' ∈ aq_pending s -> kv.1 = kv'.1 -> kv = kv'.
Proof.
  destruct kv as [k r], kv' as [k' r']. simpl. intros Hw H H' <-.
  apply om_in_get in H, H'; [|done..]. by simplify_eq.
Qed.

Lemma other_session sid sid' kv : sid' <> sid -> ofSession sid' kv = true -> ofSession sid kv = false.
Proof.
  unfold ofSession. destruct (rq_sessionId kv.2) as [x|]; simpl; [|done].
  intros Hne ->%String.eqb_eq. by apply String.eqb_neq.
Qed.

(** Closing a question of one session leaves the others'. *)
Lemma hasFor_delete sid sid' id r s :
  reqs_wf s -> om_get id (aq_pending s) = Some r -> rq_sessionId r = Some sid -> sid' <> sid ->
  hasFor sid' s = true -> hasFor sid' (set_pending (om_delete id (aq_pending s)) s) = true.
Proof.
  intros Hw Hg Hr Hne (kv & Hin & Ho)%hasFor_true. apply hasFor_true. exists kv. split; [|done].
  simpl. apply om_delete_in. split; [done|]. intros E.
  assert (kv = (id, r)) as -> by (apply (same_id s); [done..|by apply om_get_Some_in|done]).
  apply (other_session sid) in Ho; [|done]. unfold ofSession in Ho. simpl in Ho. rewrite Hr in Ho. simpl in Ho.
  by rewrite String.eqb_refl in Ho.
Qed.

Lemma clear_abort_timers sid message s :
  reqs_wf s -> timers_wf s ->
  timers_wf (fst (abortRequestsOf sid message (clearExpiryTimer sid s))).
Proof.
  intros Hw Ht sid'. destruct (abort_effect sid message (clearExpiryTimer sid s)) as (Et & Hp & _).
  rewrite Et. simpl. rewrite om_has_delete. case_decide as E; [done|]. intros Ha.
  apply Ht, hasFor_true in Ha as (kv & Hin & Ho). apply hasFor_true. exists kv. split; [|done].
  apply Hp. split; [done|]. apply Forall_forall. intros kv' Hkv'. apply elem_filter in Hkv' as [Hin' Ho'].
  intros Ek. simpl in Hin'. rewrite (same_id s kv kv') in Ho by done.
  by rewrite (other_session sid sid') in Ho'.
Qed.

Lemma cancels_timers sid l acc :
  NoDup (om_keys l) -> (forall kv, kv ∈ l -> om_get kv.1 (aq_pending acc.1) = Some kv.2) ->
  reqs_wf acc.1 ->
  (forall sid', sid' <> sid -> om_has sid' (aq_expiryTimers acc.1) = true -> hasFor sid' acc.1 = true) ->
  let s' := (foldl (cancelOne sid) acc l).1 in
  forall sid', sid' <> sid -> om_has sid' (aq_expiryTimers s') = true -> hasFor sid' s' = true.
Proof.
  revert acc. induction l as [|kv l IH]; intros [s ids] Hnd Hin Hw Ht; simpl; [done|].
  inversion Hnd as [|? ? Hni Hnd']; subst.
  destruct (ofSession sid kv) eqn:Eo; simpl; [|apply (IH (s, ids)); try done; intros; apply Hin; by right].
  destruct (approvalToolCallIdOf (rq_line kv.2)) as [tc|];
    [|apply (IH (s, ids)); try done; intros; apply Hin; by right].
  assert (om_get kv.1 (aq_pending s) = Some kv.2) as Hg by (apply Hin; by left).
  assert (rq_sessionId kv.2 = Some sid) as Es.
  { unfold ofSession in Eo. destruct (rq_sessionId kv.2); simpl in Eo; [|done].
    by apply String.eqb_eq in Eo as ->. }
  apply (IH (_, ids ++ [tc])); [done| | |]; simpl.
  - intros kv' Hkv. rewrite om_get_delete, decide_False; [apply Hin; by right|].
    intros E. apply Hni. rewrite <- E. apply list_elem_of_fmap. by exists kv'.
  - by apply om_delete_NoDup.
  - intros sid' Hne Ha. exact (hasFor_delete sid sid' _ _ s Hw Hg Es Hne (Ht sid' Hne Ha)).
Qed.

Lemma req_step_timers d op s :
  reqs_wf s -> timers_wf s -> (forall id, id ∈ asks op -> om_has id (aq_pending s) = false) ->
  timers_wf (req_step d op s).
Proof.
  intros Hw Ht Hf. destruct op; simpl in *.
  - assert (om_get id (aq_pending s) = None) as Hn.
    { specialize (Hf id ltac:(by left)). unfold om_has in Hf. by case_match. }
    assert (forall sid' s2, shape s2 = shape s ++ [(id, (sessionId, line))] ->
              hasFor sid' s = true -> hasFor sid' s2 = true) as Hk.
    { intros sid' s2 Hs. rewrite !hasFor_shape, Hs, existsb_app. by intros ->. }
    unfold onAgentRequest. pose proof (shape_ask id (mk_request sessionId line false) s Hn) as Hs.
    destruct sessionId as [sid|].
    + apply update_timers_wf. intros sid' _ Ha. by apply (Hk _ _ Hs), Ht.
    + intros sid' Ha. by apply (Hk _ _ Hs), Ht.
  - unfold answer. destruct (om_get (rs_id frame) (aq_pending s)) as [r|] eqn:Eg; [|done].
    destruct (rq_sessionId r) as [sid|] eqn:Er.
    + apply update_timers_wf. intros sid' Hne Ha. by apply (hasFor_delete sid sid' _ r), Ht.
    + intros sid' Ha. apply Ht, hasFor_true in Ha as (kv & Hin & Ho). apply hasFor_true.
      exists kv. split; [|done]. apply om_delete_in. split; [done|]. intros E.
      assert (kv = (rs_id frame, r)) as -> by (apply (same_id s); [done..|by apply om_get_Some_in|done]).
      unfold ofSession in Ho. simpl in Ho. by rewrite Er in Ho.
  - apply update_timers_wf. intros sid' _ Ha. by apply Ht.
  - apply update_timers_wf. intros sid' _ Ha. by apply Ht.
  - unfold cancelApprovals.
    pose proof (cancels_timers sessionId (aq_pending s) (s, []) Hw) as H. simpl in H.
    destruct (foldl _ _ _) as [s1 ids]. simpl in *. apply update_timers_wf, H; [|done|].
    + intros [k r] Hkv. by apply om_in_get.
    + intros sid' _. apply Ht.
  - by apply clear_abort_timers.
  - intros sid'. by unfold om_has.
  - destruct (om_get _ _); [|done]. destruct (_ <=? _); [|done]. unfold expire.
    pose proof (clear_abort_timers sessionId EXPIRED_MESSAGE s Hw Ht) as H.
    destruct (abortRequestsOf _ _ _) as [s1 n]. simpl in H. by destruct (0 <? n)%nat.
Qed.

Lemma req_run_timers l s :
  reqs_wf s -> timers_wf s -> ids_fresh l s = true ->
  reqs_wf (req_run l s) /\ timers_wf (req_run l s).
Proof.
  revert s. induction l as [|[d op] l IH]; intros s Hw Ht Hf; simpl; [done|].
  simpl in Hf. apply andb_true_iff in Hf as [Ha Hf].
  assert (forall i, i ∈ asks op -> om_has i (aq_pending s) = false) as Hfr.
  { intros i Hi. destruct op; simpl in *; try by apply elem_of_nil in Hi.
    apply list_elem_of_singleton in Hi as ->. by apply negb_true_iff in Ha. }
  apply IH; [|by apply req_step_timers|done].
  assert (op = ro_clear \/ op <> ro_clear) as [->|Hne] by (destruct op; auto; by right); [apply NoDup_nil_2|].
  eapply rsteps_wf, Hw. by apply req_step_steps.
Qed.

(** The operations after which the runtime has looked at who can see a session. *)
Definition looks_at (op : ReqOp) : option string :=
  match op with
  | ro_request _ sessionId _ => sessionId
  | ro_engaged _ sessionId | ro_reassess sessionId | ro_cancelApprovals sessionId => Some sessionId
  | _ => None
  end.

Lemma update_idem_armed d sid s :
  hasFor sid (updateExpiryTimer d sid s) = true -> hasOpenChannel d sid = false ->
  (exists due, om_get sid (aq_expiryTimers (updateExpiryTimer d sid s)) = Some due /\
     due = om_get sid (aq_expiryTimers s) ?? (rd_now d + rd_orphanTtlMs d)) /\
  Forall (fun kv => ofSession sid kv = true -> rq_unwatched kv.2 = true)
    (aq_pending (updateExpiryTimer d sid s)).
Proof.
  rewrite (hasFor_talks _ _ _ (update_talks d sid s)). intros Hh Ho. unfold updateExpiryTimer.
  rewrite Hh, Ho. cbn [negb andb]. split.
  - unfold om_has. simpl. destruct (om_get sid (aq_expiryTimers s)) as [due|] eqn:E; simpl; [by exists due|].
    rewrite om_get_set, decide_True by done. by eexists.
  - assert (Forall (fun kv => ofSession sid kv = true -> rq_unwatched kv.2 = true)
              (aq_pending (announceUnwatched sid s))) as H; [|by destruct (om_has _ _)].
    simpl. rewrite Forall_fmap. apply Forall_forall. intros kv _. simpl.
    destruct (isUnannounced sid kv) eqn:E; simpl; [done|]. intros Hs. unfold isUnannounced in E.
    rewrite Hs in E. by apply negb_false_iff in E.
Qed.

Lemma looks_update d op s sid :
  looks_at op = Some sid -> exists s0, req_step d op s = updateExpiryTimer d sid s0 /\
    aq_expiryTimers s0 = aq_expiryTimers s.
Proof.
  destruct op; simpl; intros E; simplify_eq;
    try (eexists; split; [reflexivity|done]).
  - unfold cancelApprovals. destruct (foldl _ _ _) as [s1 ids] eqn:Ef. simpl. exists s1. split; [done|].
    assert (forall l acc, aq_expiryTimers (foldl (cancelOne sid) acc l).1 = aq_expiryTimers acc.1) as H.
    { induction l as [|kv l IH]; intros [s' i']; simpl; [done|]. rewrite IH.
      unfold cancelOne. by destruct (negb _), (approvalToolCallIdOf (rq_line kv.2)). }
    specialize (H (aq_pending s) (s, [])). by rewrite Ef in H.
Qed.

(** A question nobody can see ends.  Once the runtime has looked and no channel
    of the session is open, every question of it was announced as waiting and a
    timer is armed, which a later look does not push back; when it fires, the
    harness gets an error for each of them, the observer hears that each was
    abandoned, and none is left. *)
Theorem unseen_questions_expire l d op sid :
  ids_fresh l createPendingAgentRequests = true ->
  let s := req_run l createPendingAgentRequests in
  looks_at op = Some sid -> (forall id, id ∈ asks op -> om_has id (aq_pending s) = false) ->
  let s1 := req_step d op s in
  hasFor sid s1 = true -> hasOpenChannel d sid = false ->
  exists due,
    om_get sid (aq_expiryTimers s1) = Some due /\
    due = om_get sid (aq_expiryTimers s) ?? (rd_now d + rd_orphanTtlMs d) /\
    Forall (fun kv => ofSession sid kv = true -> rq_unwatched kv.2 = true) (aq_pending s1) /\
    forall d', due <= rd_now d' ->
      let s2 := req_step d' (ro_timer sid) s1 in
      hasFor sid s2 = false /\ om_get sid (aq_expiryTimers s2) = None /\
      aq_log s2 = aq_log s1 ++
        flat_map (fun kv => AToAgent (mk_response kv.1 None (Some (error_of EXPIRED_MESSAGE))) :: abandoned kv)
          (List.filter (ofSession sid) (aq_pending s1)) ++ [AExpired].
Proof.
  intros Hf s Hl Ha s1 Hh Ho.
  destruct (looks_update d op s sid Hl) as (s0 & E1 & E2). fold s1 in E1.
  destruct (update_idem_armed d sid s0) as [(due & Hd & Hdue) Hu]; [by rewrite <- E1|done|].
  rewrite <- E1, E2 in *. exists due. split; [done|]. split; [done|]. split; [done|].
  intros d' Hd' s2. unfold s2. simpl. rewrite Hd, (proj2 (Z.leb_le _ _) Hd'). unfold expire.
  destruct (abort_effect sid EXPIRED_MESSAGE (clearExpiryTimer sid s1)) as (Et & _ & Eh).
  destruct (aborts_effect EXPIRED_MESSAGE (List.filter (ofSession sid) (aq_pending s1))
              (clearExpiryTimer sid s1)) as (El & _ & _).
  unfold abortRequestsOf in *. simpl in *.
  assert (0 < length (List.filter (ofSession sid) (aq_pending s1)))%nat as Hpos.
  { apply hasFor_true in Hh as (kv & Hin & Hs). assert (kv ∈ List.filter (ofSession sid) (aq_pending s1)) as Hx
      by (by apply elem_filter). destruct (List.filter _ _); [by apply elem_of_nil in Hx|simpl; lia]. }
  rewrite (proj2 (Nat.ltb_lt _ _) Hpos). split; [exact Eh|]. simpl. rewrite Et. simpl.
  rewrite om_get_delete, decide_True by done. split; [done|]. rewrite El. by rewrite <- app_assoc.
Qed.

Definition alone : ReqDeps := mk_reqdeps 0 60000 (fun _ => []) (fun _ => false).
Definition seen_by_one : ReqDeps := mk_reqdeps 0 60000 (fun _ => ["c"%string]) (fun _ => true).

Lemma unseen_questions_expire_witness :
  exists due, Some 60000 = Some due /\
    let s1 := req_step alone (ro_request (id_num 1) (Some "s"%string) (ln_text "q"))
                createPendingAgentRequests in
    aq_log (req_step (mk_reqdeps 60000 60000 (fun _ => []) (fun _ => false)) (ro_timer "s") s1)
    = aq_log s1 ++
      [AToAgent (mk_response (id_num 1) None (Some (error_of EXPIRED_MESSAGE)));
       AAbandoned (id_num 1) "s"; AExpired].
Proof.
  destruct (unseen_questions_expire [] alone (ro_request (id_num 1) (Some "s"%string) (ln_text "q")) "s")
    as (due & Hd & _ & _ & H); [reflexivity|reflexivity| |reflexivity|reflexivity|].
  - intros id _. reflexivity.
  - exists due. split; [exact Hd|].
    apply (H (mk_reqdeps 60000 60000 (fun _ => []) (fun _ => false))).
    injection Hd as <-. vm_compute. discriminate.
Defined.

Lemma one_end_per_question_witness :
  let s := req_run [(seen_by_one, ro_request (id_num 1) (Some "s"%string) (ln_text "q"));
                    (seen_by_one, ro_answer (mk_response (id_num 1) (Some jnull) None));
                    (seen_by_one, ro_answer (mk_response (id_num 1) (Some (jbool true)) None))]
             createPendingAgentRequests in
  (count (reply_of (id_num 1)) (aq_log s) + waits (id_num 1) s = 1)%nat.
Proof.
  apply one_end_per_question; [reflexivity|].
  intros d op H. repeat (apply elem_of_cons in H as [H|H]; [by injection H as _ ->|]).
  by apply elem_of_nil in H.
Defined.
