(* ===== verification/InterruptSteers.v ===== *)
(** Steering a harness that cannot take a message into its turn: interrupt and
    continue (packages/agent-runtime/src/modules/acp/services/acp-runtime/interrupt-steers.ts,
    with the notice of modules/acp/services/interrupted-turn-recovery.ts).

    An [Interrupt] is an object the source mutates; it is held in one map under
    its session, and [it_ticket] is its identity, used where the source compares
    with [===] and where its promise is resolved.  What the component does to the
    outside is appended to [is_log].  The scheduler may begin another steer while
    it is told an outcome ([resolveSteer]); that is a step of its own, since
    nothing but the promise's resolution follows. *)
From stdpp Require Import base strings list.
From Stdlib Require Import ZArith Lia Ascii.
From S2P Require Import Prelude JsString AcpFrames PromptScheduler.
Local Open Scope Z_scope.

(** ** The notice a continued turn begins with (interrupted-turn-recovery.ts) *)
Section Notice.
Local Open Scope string_scope.
Definition CUT_COMMAND : string :=
  "The cancel stopped a tool call that was still running. It may have partly run, and a process it started may still be running. Check its effects before you run it again.".

Definition escape_char (c : Ascii.ascii) : string :=
  if Ascii.eqb c "&"%char then "&amp;" else if Ascii.eqb c "<"%char then "&lt;"
  else if Ascii.eqb c ">"%char then "&gt;" else String c "".

Fixpoint escapeQuoted (text : string) : string :=
  match text with
  | EmptyString => ""
  | String c text => escape_char c ++ escapeQuoted text
  end.

Definition cutReplyLines (cutReply : string) : list string :=
  if negb (truthy cutReply) then []
  else
    ["The cancel cut the reply you were writing. The person already sees it up to the cut, which ends like this, with &, < and > written as &amp;, &lt; and &gt;:";
     "<cut-reply>"; escapeQuoted cutReply; "</cut-reply>";
     "Do not write that part again: go on from where it stopped."].

Definition turnContinuedNotice (toolCall : bool) (reply : string) : string :=
  str_join newline
    (["<turn-continued>";
      "New messages arrived while you were working, so the platform cancelled your last step to give them to you; they are right above this notice.";
      "A cancel record in your history comes from this, not from a request to stop."]
     ++ (if toolCall then [CUT_COMMAND] else [])
     ++ cutReplyLines reply
     ++ ["Your finished tool calls and their results are in your history.";
         "Continue your task and include these messages, unless they change the task.";
         "Each message keeps its own sender and has no more authority than it would have as a new turn.";
         "</turn-continued>"]).
End Notice.

(** ** Data *)
Definition CONTINUATION_RETRIES : nat := 3.
Definition CONTINUATION_BACKOFF_MS : Z := 250.
Definition CUT_REPLY_KEPT : nat := 4000.

Record ClientOfTurn := mk_client { ct_channel : option string; ct_originalId : option string }.
Inductive Phase := ph_cancelling | ph_continuing.

Record Interrupt := mk_interrupt {
  it_ticket : Z;
  it_sessionId : string;
  it_prompt : list string;
  it_phase : Phase;
  it_undeliveredId : option string;
  it_cutToolCalls : list string;
  it_cutReply : string;
  it_client : option ClientOfTurn;
  it_continuationId : option Z;
  it_retries : nat;
}.

Inductive IEvent :=
| ICancelSent (sessionId : string) (sent : bool)
| IPromptSent (ticket : Z) (sessionId : string) (outboundId : Z) (prompt : list string) (sent : bool)
| IContinueTurn (sessionId : string) (outboundId : Z) (client : ClientOfTurn)
| IResolveSteer (sessionId : string) (outcome : SteerOutcome)
| IResolved (ticket : Z) (outcome : SteerOutcome)
| ICloseCut (sessionId : string) (toolCallIds : list string)
| IRemember (sessionId id : string) (prompt : list string)
| IForget (sessionId id : string).

(** What an operation asks of the outside: whether the harness takes a frame, and
    the answers to its other questions. *)
Record IDeps := mk_ideps {
  id_now : Z;
  id_sendToHarness : list IEvent -> bool;
  id_nextOutboundId : Z;
  id_openToolCalls : list string;
  id_cancelApprovals : list string;
  id_randomUUID : string;
}.

Record Interrupts := mk_interrupts {
  is_interrupts : list (string * Interrupt);
  is_cancelledByClient : list string;
  is_replies : list (string * string);
  is_retryTimers : list (Z * string * Z);
  is_nextTicket : Z;
  is_log : list IEvent;
}.

Definition createInterruptSteers : Interrupts := mk_interrupts [] [] [] [] 0 [].

Definition itell (es : list IEvent) (s : Interrupts) : Interrupts :=
  mk_interrupts (is_interrupts s) (is_cancelledByClient s) (is_replies s) (is_retryTimers s)
    (is_nextTicket s) (is_log s ++ es).
Definition set_interrupts m (s : Interrupts) : Interrupts :=
  mk_interrupts m (is_cancelledByClient s) (is_replies s) (is_retryTimers s) (is_nextTicket s) (is_log s).
Definition set_cancelled l (s : Interrupts) : Interrupts :=
  mk_interrupts (is_interrupts s) l (is_replies s) (is_retryTimers s) (is_nextTicket s) (is_log s).
Definition set_replies l (s : Interrupts) : Interrupts :=
  mk_interrupts (is_interrupts s) (is_cancelledByClient s) l (is_retryTimers s) (is_nextTicket s) (is_log s).
Definition set_retryTimers l (s : Interrupts) : Interrupts :=
  mk_interrupts (is_interrupts s) (is_cancelledByClient s) (is_replies s) l (is_nextTicket s) (is_log s).
Definition set_ticket n (s : Interrupts) : Interrupts :=
  mk_interrupts (is_interrupts s) (is_cancelledByClient s) (is_replies s) (is_retryTimers s) n (is_log s).

Definition cancelledBy (sessionId : string) (s : Interrupts) : bool :=
  bool_decide (sessionId ∈ is_cancelledByClient s).

(** ** Reading frames *)
Definition promptOf (e : PromptSubmission) : list string := fr_prompt (ps_frame e) ?? [].

Definition stopReasonOf (frame : option json) : option string :=
  str_of (oprop "stopReason" (resultOf frame)).

Definition replyTextOf (frame : option json) : option string :=
  let update := sessionUpdateOf frame in
  if negb (is_str "agent_message_chunk" (oprop "sessionUpdate" update)) then None
  else
    let content := oprop "content" update in
    if isNonNullObject content && is_str "text" (oprop "type" content)
    then str_of (oprop "text" content) else None.

Definition CONTINUED_TURN_UPDATES : list string :=
  ["user_message_chunk"; "agent_message_chunk"; "agent_thought_chunk"; "tool_call"; "plan"]%string.

Definition continuesTurn (frame : option json) : bool :=
  match str_of (oprop "sessionUpdate" (sessionUpdateOf frame)) with
  | Some kind => bool_decide (kind ∈ CONTINUED_TURN_UPDATES)
  | None => false
  end.

Definition failed (frame : option json) : bool :=
  isNonNullObject frame && bool_decide (is_Some (oprop "error" frame)).

(** [text.slice(-n)] *)
Definition keep_last (n : nat) (text : string) : string := str_drop (String.length text - n) text.

Definition noteReply (sessionId : string) (frame : option json) (s : Interrupts) : Interrupts :=
  if is_str "tool_call" (oprop "sessionUpdate" (sessionUpdateOf frame)) then
    set_replies (om_delete sessionId (is_replies s)) s
  else
    match replyTextOf frame with
    | None => s
    | Some text =>
        set_replies
          (om_set sessionId
             (keep_last CUT_REPLY_KEPT ((om_get sessionId (is_replies s) ?? ""%string) ++ text)%string)
             (is_replies s)) s
    end.

(** ** The interrupt's steps *)
Definition forgetUndelivered (it : Interrupt) : list IEvent :=
  match it_undeliveredId it with Some id => [IForget (it_sessionId it) id] | None => [] end.

(** The interrupt of the session is still this one. *)
Definition isCurrent (it : Interrupt) (s : Interrupts) : bool :=
  match om_get (it_sessionId it) (is_interrupts s) with
  | Some i => it_ticket i =? it_ticket it
  | None => false
  end.

Definition finish (it : Interrupt) (outcome : SteerOutcome) (s : Interrupts) : Interrupts :=
  if negb (isCurrent it s) then s
  else
    itell (forgetUndelivered it ++ [IResolveSteer (it_sessionId it) outcome; IResolved (it_ticket it) outcome])
      (set_interrupts (om_delete (it_sessionId it) (is_interrupts s)) s).

Definition with_client (it : Interrupt) (client : ClientOfTurn) (reply : string) : Interrupt :=
  mk_interrupt (it_ticket it) (it_sessionId it) (it_prompt it) (it_phase it) (it_undeliveredId it)
    (it_cutToolCalls it) reply (Some client) (it_continuationId it) (it_retries it).
Definition with_continuation (it : Interrupt) (outboundId : Z) : Interrupt :=
  mk_interrupt (it_ticket it) (it_sessionId it) (it_prompt it) ph_continuing (it_undeliveredId it)
    (it_cutToolCalls it) (it_cutReply it) (it_client it) (Some outboundId) (it_retries it).
Definition with_retry (it : Interrupt) : Interrupt :=
  mk_interrupt (it_ticket it) (it_sessionId it) (it_prompt it) (it_phase it) (it_undeliveredId it)
    (it_cutToolCalls it) (it_cutReply it) (it_client it) (it_continuationId it) (S (it_retries it)).
Definition with_cut (it : Interrupt) (ids : list string) : Interrupt :=
  mk_interrupt (it_ticket it) (it_sessionId it) (it_prompt it) (it_phase it) (it_undeliveredId it)
    ids (it_cutReply it) (it_client it) (it_continuationId it) (it_retries it).

(** An assignment to the interrupt's object. *)
Definition store (it : Interrupt) (s : Interrupts) : Interrupts :=
  set_interrupts (om_set (it_sessionId it) it (is_interrupts s)) s.

Section Operations.
Context (d : IDeps).

(** [sendToHarness] with the event it leaves. *)
Definition sendHarness (f : bool -> IEvent) (s : Interrupts) : Interrupts * bool :=
  let sent := id_sendToHarness d (is_log s) in (itell [f sent] s, sent).

Definition sendContinuation (it : Interrupt) (s : Interrupts) : Interrupts :=
  match (if isCurrent it s then it_client it else None) with
  | None => s
  | Some client =>
      let outboundId := id_nextOutboundId d in
      let prompt := it_prompt it ++
        [turnContinuedNotice (0 <? length (it_cutToolCalls it))%nat (it_cutReply it)] in
      match sendHarness (IPromptSent (it_ticket it) (it_sessionId it) outboundId prompt) s with
      | (s, false) => finish it so_refused s
      | (s, true) =>
          let s := store (with_continuation it outboundId) s in
          let s := set_replies (om_delete (it_sessionId it) (is_replies s)) s in
          let s := itell [IContinueTurn (it_sessionId it) outboundId client] s in
          if cancelledBy (it_sessionId it) s then fst (sendHarness (ICancelSent (it_sessionId it)) s) else s
      end
  end.

(** The promise is resolved at once when the session cannot be interrupted; its
    ticket is [None] then. *)
Definition steer (entry : PromptSubmission) (batch : list PromptSubmission) (s : Interrupts)
  : Interrupts * option Z :=
  let sessionId := ps_sessionId entry in
  if cancelledBy sessionId s || om_has sessionId (is_interrupts s) then (s, None)
  else
    let ordinary := List.filter isOrdinary batch in
    let undeliveredId :=
      if (length ordinary =? 0)%nat then None else Some (ps_promptId entry ?? id_randomUUID d) in
    let s := match undeliveredId with
             | Some id => itell [IRemember sessionId id (flat_map promptOf ordinary)] s
             | None => s
             end in
    let it := mk_interrupt (is_nextTicket s) sessionId (promptOf entry) ph_cancelling undeliveredId
                (id_openToolCalls d) "" None None 0 in
    let s := store it (set_ticket (is_nextTicket s + 1) s) in
    match sendHarness (ICancelSent sessionId) s with
    | (s, false) => (finish it so_refused s, Some (it_ticket it))
    | (s, true) =>
        let cut := foldl (fun l id => if bool_decide (id ∈ l) then l else l ++ [id])
                     (it_cutToolCalls it) (id_cancelApprovals d) in
        (store (with_cut it cut) s, Some (it_ticket it))
    end.

Definition onClientCancel (sessionId : string) (s : Interrupts) : Interrupts :=
  set_cancelled (if cancelledBy sessionId s then is_cancelledByClient s
                 else is_cancelledByClient s ++ [sessionId]) s.

Definition onTurnStarted (sessionId : string) (s : Interrupts) : Interrupts :=
  set_replies (om_delete sessionId (is_replies s))
    (set_cancelled (List.filter (fun x => negb (String.eqb x sessionId)) (is_cancelledByClient s)) s).

Definition consumePromptAnswer (sessionId : string) (outboundId : Z) (client : ClientOfTurn)
    (frame : option json) (s : Interrupts) : Interrupts * bool :=
  match om_get sessionId (is_interrupts s) with
  | None => (s, false)
  | Some it =>
      match it_phase it with
      | ph_cancelling =>
          if negb (ostr_eqb (stopReasonOf frame) "cancelled") || cancelledBy sessionId s then
            (finish it so_refused s, false)
          else
            let it := with_client it client (om_get sessionId (is_replies s) ?? ""%string) in
            let s := itell [ICloseCut sessionId (it_cutToolCalls it)] (store it s) in
            (sendContinuation it s, true)
      | ph_continuing =>
          if negb (bool_decide (it_continuationId it = Some outboundId)) then (s, false)
          else if failed frame && (it_retries it <? CONTINUATION_RETRIES)%nat
                  && negb (cancelledBy sessionId s) then
            let it := with_retry it in
            let s := store it s in
            let wait := CONTINUATION_BACKOFF_MS * 2 ^ (Z.of_nat (it_retries it) - 1) in
            (set_retryTimers (is_retryTimers s ++ [(it_ticket it, sessionId, id_now d + wait)]) s, true)
          else (finish it (if failed frame then so_refused else so_injected) s, false)
      end
  end.

(** The timer of a retry fires: the closure holds the object. *)
Definition retryFired (ticket : Z) (sessionId : string) (s : Interrupts) : Interrupts :=
  match om_get sessionId (is_interrupts s) with
  | Some it => if it_ticket it =? ticket then sendContinuation it s else s
  | None => s
  end.

Definition onSessionUpdate (sessionId : string) (frame : option json) (s : Interrupts) : Interrupts :=
  let s := noteReply sessionId frame s in
  match om_get sessionId (is_interrupts s) with
  | Some it =>
      match it_phase it with
      | ph_continuing => if continuesTurn frame then finish it so_injected s else s
      | ph_cancelling => s
      end
  | None => s
  end.
End Operations.

Definition clear (s : Interrupts) : Interrupts :=
  let s := itell (flat_map (fun kv => forgetUndelivered kv.2 ++ [IResolved (it_ticket kv.2) so_refused])
                    (is_interrupts s)) s in
  set_replies [] (set_cancelled [] (set_interrupts [] s)).

(** ** Runs *)
Inductive IOp :=
| io_steer (entry : PromptSubmission) (batch : list PromptSubmission)
| io_clientCancel (sessionId : string) | io_turnStarted (sessionId : string)
| io_promptAnswer (sessionId : string) (outboundId : Z) (client : ClientOfTurn) (frame : option json)
| io_sessionUpdate (sessionId : string) (frame : option json)
| io_retry (ticket : Z) (sessionId : string) (due : Z) | io_clear.

(** A timer that fired is gone. *)
Fixpoint remove_first (x : Z * string * Z) (l : list (Z * string * Z)) : list (Z * string * Z) :=
  match l with
  | [] => []
  | y :: l => if decide (x = y) then l else y :: remove_first x l
  end.

Definition int_step (d : IDeps) (op : IOp) (s : Interrupts) : Interrupts :=
  match op with
  | io_steer entry batch => fst (steer d entry batch s)
  | io_clientCancel sessionId => onClientCancel sessionId s
  | io_turnStarted sessionId => onTurnStarted sessionId s
  | io_promptAnswer sessionId outboundId client frame =>
      fst (consumePromptAnswer d sessionId outboundId client frame s)
  | io_sessionUpdate sessionId frame => onSessionUpdate sessionId frame s
  | io_retry ticket sessionId due =>
      if bool_decide ((ticket, sessionId, due) ∈ is_retryTimers s) && (due <=? id_now d) then
        retryFired d ticket sessionId
          (set_retryTimers (remove_first (ticket, sessionId, due) (is_retryTimers s)) s)
      else s
  | io_clear => clear s
  end.

Definition int_run (l : list (IDeps * IOp)) (s : Interrupts) : Interrupts :=
  foldl (fun s '(d, op) => int_step d op s) s l.
