(* ===== verification/InterruptSafety.v ===== *)
(** Theorems of interrupt and continue ([InterruptSteers]): every steer gets one
    outcome, its messages are written down until it has one, the harness is asked
    a bounded number of times, and only a harness that took the messages makes a
    steer injected. *)
From stdpp Require Import base strings list.
From Stdlib Require Import ZArith Lia.
From S2P Require Import Prelude JsString AcpFrames PromptScheduler InterruptSteers.
Local Open Scope Z_scope.

#[local] Arguments bool_decide : simpl never.

(** ** What the log counts *)
Definition resolved_of (t : Z) (e : IEvent) : bool :=
  match e with IResolved i _ => i =? t | _ => false end.
Definition try_of (t : Z) (e : IEvent) : bool :=
  match e with IPromptSent i _ _ _ _ => i =? t | _ => false end.
Definition remember_of (sid id : string) (e : IEvent) : bool :=
  match e with IRemember x i _ => String.eqb x sid && String.eqb i id | _ => false end.
Definition forget_of (sid id : string) (e : IEvent) : bool :=
  match e with IForget x i => String.eqb x sid && String.eqb i id | _ => false end.

(** The interrupts and the retry timers of a ticket. *)
Definition current (t : Z) (s : Interrupts) : nat :=
  length (List.filter (fun kv => it_ticket kv.2 =? t) (is_interrupts s)).
Definition timers_of (t : Z) (s : Interrupts) : nat :=
  length (List.filter (fun x => x.1.1 =? t) (is_retryTimers s)).
Definition tries (t : Z) (s : Interrupts) : nat := count (try_of t) (is_log s).

(** The harness took the messages of a steer. *)
Definition taken (t : Z) (log : list IEvent) : Prop :=
  exists sid outboundId prompt, IPromptSent t sid outboundId prompt true ∈ log.

Definition unwritten (sid id : string) (s : Interrupts) : nat :=
  match om_get sid (is_interrupts s) with
  | Some it => if bool_decide (it_undeliveredId it = Some id) then 1%nat else 0%nat
  | None => 0%nat
  end.

(** ** Well-formed states *)
Record it_ok (s : Interrupts) (sid : string) (it : Interrupt) : Prop := {
  io_session : it_sessionId it = sid;
  io_ticket : 0 <= it_ticket it < is_nextTicket s;
  io_retries : (it_retries it <= CONTINUATION_RETRIES)%nat;
  io_phase :
    match it_phase it with
    | ph_cancelling => tries (it_ticket it) s = 0%nat /\ timers_of (it_ticket it) s = 0%nat
    | ph_continuing =>
        it_client it <> None /\ taken (it_ticket it) (is_log s) /\
        (tries (it_ticket it) s + timers_of (it_ticket it) s <= 1 + it_retries it)%nat
    end;
}.

(** [x]: the session an operation is busy with. *)
Record int_wf_but (x : option string) (s : Interrupts) : Prop := {
  iw_nodup : NoDup (om_keys (is_interrupts s));
  iw_each : forall sid it, (sid, it) ∈ is_interrupts s -> x <> Some sid -> it_ok s sid it;
  iw_next : 0 <= is_nextTicket s;
  iw_ledger : forall t,
    (count (resolved_of t) (is_log s) + current t s)%nat
    = if (0 <=? t) && (t <? is_nextTicket s) then 1%nat else 0%nat;
  iw_unwritten : forall sid id,
    count (remember_of sid id) (is_log s) = (count (forget_of sid id) (is_log s) + unwritten sid id s)%nat;
  iw_tries : forall t, (tries t s <= 1 + CONTINUATION_RETRIES)%nat;
  iw_new : forall t, is_nextTicket s <= t -> tries t s = 0%nat /\ timers_of t s = 0%nat;
  iw_injected : forall t, IResolved t so_injected ∈ is_log s -> taken t (is_log s);
}.
Definition int_wf : Interrupts -> Prop := int_wf_but None.

Lemma int_wf_weaken x s : int_wf s -> int_wf_but x s.
Proof. intros [W1 W2 W3 W4 W5 W6 W7 W8]. split; try done. intros. by apply W2. Qed.

Lemma int_wf_create : int_wf createInterruptSteers.
Proof.
  split; simpl; try done.
  - apply NoDup_nil_2.
  - intros sid it H. by apply elem_of_nil in H.
  - intros t. unfold current. simpl. destruct (0 <=? t) eqn:E; simpl; [|done].
    by rewrite (proj2 (Z.ltb_ge _ _)) by lia.
  - intros t. unfold tries. simpl. rewrite count_nil. lia.
  - intros t H. by apply elem_of_nil in H.
Qed.

(** *** Talking *)
Definition is_talk (e : IEvent) : Prop :=
  match e with ICancelSent _ _ | IContinueTurn _ _ _ | ICloseCut _ _ => True | _ => False end.

Lemma talk_counts p es :
  Forall is_talk es -> (forall e, is_talk e -> p e = false) -> count p es = 0%nat.
Proof.
  intros He Hp. apply count_zero. eapply Forall_impl; [exact He | exact Hp].
Qed.

(** Two states alike but for what no claim here reads. *)
Definition same_but (es : list IEvent) (s s' : Interrupts) : Prop :=
  is_interrupts s' = is_interrupts s /\ is_retryTimers s' = is_retryTimers s /\
  is_nextTicket s' = is_nextTicket s /\ is_log s' = is_log s ++ es.

Lemma taken_app t l1 l2 : taken t l1 -> taken t (l1 ++ l2).
Proof. intros (sid & o & p & H). exists sid, o, p. apply elem_of_app. by left. Qed.

Lemma int_wf_talk x s s' es :
  same_but es s s' -> Forall is_talk es -> int_wf_but x s -> int_wf_but x s'.
Proof.
  intros (Hi & Ht & Hn & Hl) He [W1 W2 W3 W4 W5 W6 W7 W8].
  assert (forall p, (forall e, is_talk e -> p e = false) -> count p (is_log s') = count p (is_log s)) as Hc.
  { intros p Hp. rewrite Hl, count_app, (talk_counts p es He Hp). lia. }
  assert (forall t, tries t s' = tries t s) as Htr by (intros; apply Hc; by intros []).
  split; unfold current, timers_of, unwritten in *; rewrite ?Hi, ?Ht, ?Hn; try done.
  - intros sid it Hin Hx. destruct (W2 sid it Hin Hx) as [O1 O2 O3 O4].
    split; rewrite ?Hn; try done. unfold timers_of in *. rewrite Htr, Ht, Hl.
    destruct (it_phase it); [done|]. destruct O4 as (? & ? & ?). split; [done|].
    split; [by apply taken_app|done].
  - intros t. rewrite Hc by (by intros []). apply W4.
  - intros sid id. rewrite !Hc by (by intros []). apply W5.
  - intros t. by rewrite Htr.
  - intros t Hge. by rewrite Htr; apply W7.
  - intros t. rewrite Hl. intros [H|H]%elem_of_app; [by apply taken_app, W8|].
    rewrite Forall_forall in He. by apply He in H.
Qed.

(** *** Ends *)
Lemma forgets_count (p : IEvent -> bool) it es :
  (forall sid id, p (IForget sid id) = false) -> count p (forgetUndelivered it ++ es) = count p es.
Proof.
  intros Hp. rewrite count_app. unfold forgetUndelivered.
  destruct (it_undeliveredId it); rewrite ?count_cons, ?count_nil, ?Hp; done.
Qed.

Lemma finish_wf it o s :
  om_get (it_sessionId it) (is_interrupts s) = Some it ->
  (o = so_injected -> taken (it_ticket it) (is_log s)) ->
  int_wf_but (Some (it_sessionId it)) s -> int_wf (finish it o s).
Proof.
  intros Hg Ho [W1 W2 W3 W4 W5 W6 W7 W8]. unfold finish, isCurrent. rewrite Hg, Z.eqb_refl. simpl.
  set (evs := forgetUndelivered it ++ [IResolveSteer (it_sessionId it) o; IResolved (it_ticket it) o]).
  assert (forall t, count (try_of t) evs = 0%nat) as Etry by (intros; by apply forgets_count).
  assert (forall t, count (resolved_of t) evs = if it_ticket it =? t then 1%nat else 0%nat) as Eres.
  { intros t. unfold evs. rewrite forgets_count by done. rewrite !count_cons, count_nil. simpl.
    by destruct (_ =? _). }
  assert (forall sid id, count (remember_of sid id) evs = 0%nat) as Erem by (intros; by apply forgets_count).
  assert (forall sid id, count (forget_of sid id) evs
    = if String.eqb (it_sessionId it) sid && bool_decide (it_undeliveredId it = Some id) then 1%nat else 0%nat) as Efor.
  { intros sid id. unfold evs. rewrite count_app, !count_cons, count_nil. unfold forgetUndelivered.
    case_bool_decide as E.
    - rewrite E, count_cons, count_nil. simpl. rewrite String.eqb_refl. by destruct (String.eqb _ _).
    - rewrite andb_false_r. destruct (it_undeliveredId it) as [u|]; [|done]. rewrite count_cons, count_nil. simpl.
      rewrite (proj2 (String.eqb_neq u id)) by congruence. by rewrite andb_false_r. }
  split; simpl.
  - by apply om_delete_NoDup.
  - intros sid it' Hin _. apply om_delete_in in Hin as [Hin Hne].
    destruct (W2 sid it' Hin) as [O1 O2 O3 O4]; [simpl in Hne; congruence|]. split; simpl; try done.
    unfold tries, timers_of in *. simpl. rewrite count_app, Etry, Nat.add_0_r.
    destruct (it_phase it'); [done|]. destruct O4 as (? & ? & ?). split; [done|].
    split; [by apply taken_app|done].
  - done.
  - intros t. rewrite count_app, Eres, <- W4. unfold current. simpl.
    rewrite (om_count_delete (fun kv => it_ticket kv.2 =? t) (it_sessionId it) it (is_interrupts s) W1 Hg). simpl.
    destruct (it_ticket it =? t); lia.
  - intros sid id. rewrite !count_app, Erem, Efor, W5. unfold unwritten. simpl.
    rewrite om_get_delete. destruct (String.eqb_spec (it_sessionId it) sid) as [<-|Hne].
    + rewrite Hg, decide_True by done. simpl. lia.
    + rewrite decide_False by congruence. simpl. lia.
  - intros t. unfold tries. simpl. rewrite count_app, Etry. specialize (W6 t). unfold tries in W6. lia.
  - intros t Hge. unfold tries, timers_of in *. simpl. rewrite count_app, Etry, Nat.add_0_r. by apply W7.
  - intros t [Hin|Hin]%elem_of_app; [by apply taken_app, W8|]. apply taken_app.
    unfold evs, forgetUndelivered in Hin. destruct (it_undeliveredId it);
      repeat (apply elem_of_cons in Hin as [Hin|Hin]; [simplify_eq; auto|]); try by apply elem_of_nil in Hin.
Qed.

(** *** Changing the interrupt of a session *)
Lemma elem_set {V} k v k' v' (m : list (string * V)) :
  NoDup (om_keys m) -> (k', v') ∈ om_set k v m -> (k' = k /\ v' = v) \/ (k' <> k /\ (k', v') ∈ m).
Proof.
  intros Hnd Hin. apply om_in_get in Hin; [|by apply om_set_NoDup]. rewrite om_get_set in Hin.
  case_decide; [left; by simplify_eq|]. right. split; [done|]. by apply om_get_Some_in.
Qed.

Lemma count_set {V} (p : string * V -> bool) k v v' (m : list (string * V)) :
  om_get k m = Some v -> p (k, v') = p (k, v) ->
  length (List.filter p (om_set k v' m)) = length (List.filter p m).
Proof.
  induction m as [|[k' w] m IH]; simpl; [done|]. case_decide as E.
  - intros ? Hp. simplify_eq. simpl. rewrite Hp. by destruct (p (k', v)).
  - intros Hg Hp. simpl. destruct (p (k', w)); simpl; by rewrite IH.
Qed.

(** The assignment keeps the object's identity and what is written down for it. *)
Lemma store_wf it it' s :
  om_get (it_sessionId it') (is_interrupts s) = Some it ->
  it_ticket it' = it_ticket it -> it_undeliveredId it' = it_undeliveredId it ->
  it_ok s (it_sessionId it') it' ->
  int_wf_but (Some (it_sessionId it')) s -> int_wf (store it' s).
Proof.
  intros Hg Ht Hu Hok [W1 W2 W3 W4 W5 W6 W7 W8]. split; simpl; try done.
  - by apply om_set_NoDup.
  - intros sid it2 Hin _. apply elem_set in Hin as [[-> ->]|[Hne Hin]]; [|  |done].
    + by destruct Hok.
    + destruct (W2 sid it2 Hin) as [O1 O2 O3 O4]; [congruence|]. by split.
  - intros t. rewrite <- W4. f_equal. unfold current. simpl.
    rewrite (count_set _ _ it); [done|done|]. simpl. by rewrite Ht.
  - intros sid id. rewrite W5. f_equal. unfold unwritten. simpl. rewrite om_get_set.
    case_decide; [|done]. subst. by rewrite Hg, Hu.
Qed.

(** A ticket is one object. *)
Lemma ticket_inj x s sid it sid' it' :
  int_wf_but x s -> om_get sid (is_interrupts s) = Some it -> (sid', it') ∈ is_interrupts s ->
  sid' <> sid -> 0 <= it_ticket it -> it_ticket it' <> it_ticket it.
Proof.
  intros [W1 _ _ W4 _ _ _ _] Hg Hin Hne Hpos Heq. specialize (W4 (it_ticket it)).
  unfold current in W4. rewrite (om_count_delete _ sid it _ W1 Hg) in W4. simpl in W4. rewrite Z.eqb_refl in W4.
  assert ((sid', it') ∈ List.filter (fun kv => it_ticket kv.2 =? it_ticket it)
            (om_delete sid (is_interrupts s))) as Hx.
  { apply elem_filter. rewrite om_delete_in. simpl. rewrite Heq, Z.eqb_refl. done. }
  destruct (List.filter _ (om_delete _ _)); [by apply elem_of_nil in Hx|]. simpl in W4.
  destruct (_ && _); lia.
Qed.

(** A step that counts for the interrupt of one session only: a try, or a change
    of its timers. *)
Lemma int_wf_own sid it s s' es :
  om_get sid (is_interrupts s) = Some it -> 0 <= it_ticket it < is_nextTicket s ->
  is_interrupts s' = is_interrupts s -> is_nextTicket s' = is_nextTicket s ->
  is_log s' = is_log s ++ es ->
  Forall (fun e => exists i o p b, e = IPromptSent (it_ticket it) i o p b) es ->
  (forall t, t <> it_ticket it -> timers_of t s' = timers_of t s) ->
  (tries (it_ticket it) s' <= 1 + CONTINUATION_RETRIES)%nat ->
  int_wf_but (Some sid) s -> int_wf_but (Some sid) s'.
Proof.
  intros Hg Htk Hi Hn Hl Hes Htm Htr W. pose proof W as W0. destruct W as [W1 W2 W3 W4 W5 W6 W7 W8].
  assert (forall p, (forall i o q b, p (IPromptSent (it_ticket it) i o q b) = false) ->
            count p (is_log s') = count p (is_log s)) as Hc.
  { intros p Hp. rewrite Hl, count_app, (count_zero p es); [lia|].
    eapply Forall_impl; [exact Hes|]. intros e (i & o & q & b & ->). apply Hp. }
  assert (forall t, t <> it_ticket it -> tries t s' = tries t s) as Htr'.
  { intros t Hne. apply Hc. intros. simpl. by apply Z.eqb_neq. }
  split; unfold current, unwritten in *; rewrite ?Hi, ?Hn; try done.
  - intros sid' it' Hin Hx. destruct (W2 sid' it' Hin Hx) as [O1 O2 O3 O4].
    assert (it_ticket it' <> it_ticket it) as Hne.
    { eapply (ticket_inj (Some sid) s sid it sid' it'); try done; [congruence|lia]. }
    split; rewrite ?Hn; try done. rewrite Htr', Htm by done. destruct (it_phase it'); [done|].
    destruct O4 as (? & ? & ?). split; [done|]. split; [|done]. rewrite Hl. by apply taken_app.
  - intros t. rewrite Hc by done. apply W4.
  - intros a b. rewrite !Hc by done. apply W5.
  - intros t. destruct (decide (t = it_ticket it)) as [->|]; [done|]. by rewrite Htr'.
  - intros t Hge. rewrite Htr', Htm by lia. by apply W7.
  - intros t. rewrite Hl. intros [H|H]%elem_of_app; [by apply taken_app, W8|].
    rewrite Forall_forall in Hes. by apply Hes in H as (? & ? & ? & ? & ?).
Qed.

(** *** The operations *)
Lemma talk_wf x e s : is_talk e -> int_wf_but x s -> int_wf_but x (itell [e] s).
Proof. intros. eapply (int_wf_talk x s _ [e]); [done|by constructor|done]. Qed.

Lemma sendContinuation_wf d it s :
  om_get (it_sessionId it) (is_interrupts s) = Some it -> it_client it <> None ->
  0 <= it_ticket it < is_nextTicket s -> (it_retries it <= CONTINUATION_RETRIES)%nat ->
  (tries (it_ticket it) s + timers_of (it_ticket it) s <= it_retries it)%nat ->
  int_wf_but (Some (it_sessionId it)) s -> int_wf (sendContinuation d it s).
Proof.
  intros Hg Hc Ht Hr Hready W. unfold sendContinuation, isCurrent. rewrite Hg, Z.eqb_refl.
  destruct (it_client it) as [client|] eqn:Ec; [|done]. unfold sendHarness.
  set (sent := id_sendToHarness d (is_log s)).
  set (ev := IPromptSent _ _ _ _ sent). set (s1 := itell [ev] s).
  assert (tries (it_ticket it) s1 = S (tries (it_ticket it) s)) as Etr.
  { unfold tries, s1. simpl. rewrite count_app, count_cons, count_nil. simpl. rewrite Z.eqb_refl. lia. }
  assert (int_wf_but (Some (it_sessionId it)) s1) as W1.
  { eapply (int_wf_own (it_sessionId it) it s s1 [ev]); try done; [|rewrite Etr; lia].
    repeat constructor. by eexists _, _, _, _. }
  destruct sent eqn:Es; [|by apply finish_wf].
  set (it' := with_continuation it (id_nextOutboundId d)).
  assert (int_wf (store it' s1)) as W2.
  { apply (store_wf it); try done. split; simpl; try done. rewrite Ec. split; [done|]. split.
    - exists (it_sessionId it), (id_nextOutboundId d). eexists. apply elem_of_app. right. by left.
    - rewrite Etr. unfold timers_of in *. simpl. lia. }
  set (s3 := itell _ _).
  assert (int_wf s3) as W3.
  { eapply (int_wf_talk None (store it' s1) s3); [by repeat split|by repeat constructor|done]. }
  clearbody s3. destruct (cancelledBy _ s3); [|done]. by apply talk_wf.
Qed.

Lemma current_ok s sid it :
  int_wf s -> om_get sid (is_interrupts s) = Some it -> it_ok s sid it /\ it_sessionId it = sid.
Proof.
  intros [W1 W2] Hg. assert (it_ok s sid it) as H by (apply W2; [by apply om_get_Some_in|done]).
  split; [done|]. by destruct H.
Qed.

Lemma om_set_absent {V} k (v : V) (m : list (string * V)) :
  om_get k m = None -> om_set k v m = m ++ [(k, v)].
Proof. induction m as [|[k' w] m IH]; simpl; [done|]. case_decide; [done|]. intros. by rewrite IH. Qed.

Lemma steer_wf d entry batch s : int_wf s -> int_wf (fst (steer d entry batch s)).
Proof.
  intros W. unfold steer.
  destruct (cancelledBy _ s || om_has _ _) eqn:Eg; [done|]. apply orb_false_elim in Eg as [_ Eg].
  assert (om_get (ps_sessionId entry) (is_interrupts s) = None) as Hn by (unfold om_has in Eg; by case_match).
  set (sid := ps_sessionId entry) in *. set (ordinary := List.filter isOrdinary batch).
  set (u := if (length ordinary =? 0)%nat then None else _).
  set (rem := match u with Some id => [IRemember sid id (flat_map promptOf ordinary)] | None => [] end).
  assert (match u with Some id => itell [IRemember sid id (flat_map promptOf ordinary)] s | None => s end
          = itell rem s) as ->.
  { unfold rem. destruct u; [done|]. unfold itell. rewrite app_nil_r. by destruct s. }
  simpl is_nextTicket.
  set (it := mk_interrupt _ _ _ _ _ _ _ _ _ _).
  set (s1 := store it _).
  assert (int_wf s1) as W1.
  { destruct W as [W1 W2 W3 W4 W5 W6 W7 W8].
    assert (is_interrupts s1 = is_interrupts s ++ [(sid, it)]) as Ei by (by apply om_set_absent).
    assert (forall p, (forall i q, p (IRemember sid i q) = false) -> count p (is_log s1) = count p (is_log s)) as Hc.
    { intros p Hp. unfold s1. simpl. rewrite count_app. unfold rem.
      destruct u; rewrite ?count_cons, ?count_nil, ?Hp; simpl; lia. }
    destruct (W7 (is_nextTicket s)) as [Ht0 Hm0]; [lia|].
    split; try done.
    - unfold s1. simpl. by apply om_set_NoDup.
    - intros sid' it' Hin _. rewrite Ei in Hin. apply elem_of_app in Hin as [Hin|Hin].
      + destruct (W2 sid' it' Hin) as [O1 O2 O3 O4]; [done|]. split; try done; [simpl; lia|].
        unfold tries. rewrite Hc by done. unfold timers_of in *. simpl. destruct (it_phase it'); [done|].
        destruct O4 as (? & ? & ?). split; [done|]. split; [by apply taken_app|done].
      + apply list_elem_of_singleton in Hin. simplify_eq. split; simpl; try done; [lia|unfold CONTINUATION_RETRIES; lia|].
        unfold tries. rewrite Hc by done. split; [exact Ht0 | exact Hm0].
    - simpl. lia.
    - intros t. rewrite Hc by done. unfold current. rewrite Ei, List.filter_app, length_app.
      specialize (W4 t). unfold current in W4. simpl in *.
      destruct (is_nextTicket s =? t) eqn:E; simpl.
      + apply Z.eqb_eq in E as <-. rewrite Z.ltb_irrefl, andb_false_r in W4.
        rewrite (proj2 (Z.leb_le _ _) W3), (proj2 (Z.ltb_lt _ _)) by lia. simpl. lia.
      + rewrite Nat.add_0_r, W4. apply Z.eqb_neq in E. f_equal. f_equal.
        destruct (t <? is_nextTicket s) eqn:E1, (t <? is_nextTicket s + 1) eqn:E2; lia.
    - intros a b. unfold unwritten. rewrite Ei, om_get_app. unfold s1. simpl. rewrite !count_app.
      specialize (W5 a b). unfold unwritten in W5.
      assert (count (forget_of a b) rem = 0%nat) as -> by (unfold rem; by destruct u).
      destruct (decide (a = sid)) as [->|Hne].
      + rewrite Hn in *. simpl. unfold rem. destruct u as [i|]; rewrite ?count_cons, ?count_nil; simpl.
        * rewrite String.eqb_refl. simpl.
          destruct (String.eqb_spec i b) as [->|Hib]; case_bool_decide; simplify_eq; lia.
        * lia.
      + assert (count (remember_of a b) rem = 0%nat) as ->.
        { unfold rem. destruct u; [|done]. rewrite count_cons, count_nil. simpl.
          by rewrite (proj2 (String.eqb_neq _ _)). }
        destruct (om_get a (is_interrupts s)); lia.
    - intros t. unfold tries. rewrite Hc by done. apply W6.
    - intros t Hge. unfold tries. rewrite Hc by done. unfold timers_of. simpl in *. apply W7. lia.
    - intros t. unfold s1. simpl. intros [H|H]%elem_of_app; [by apply taken_app, W8|].
      unfold rem in H. destruct u; [|by apply elem_of_nil in H]. by apply list_elem_of_singleton in H. }
  assert (om_get sid (is_interrupts s1) = Some it) as Hg.
  { unfold s1. simpl. by rewrite om_get_set, decide_True. }
  clearbody s1. unfold sendHarness.
  generalize (id_sendToHarness d (is_log s1)) as sent. intros sent.
  pose proof (talk_wf None (ICancelSent sid sent) s1 I W1) as W2.
  set (s2 := itell [ICancelSent sid sent] s1) in *.
  assert (om_get sid (is_interrupts s2) = Some it) as Hg2 by done. clearbody s2.
  destruct sent; [|apply finish_wf; [done|done|by apply int_wf_weaken]]. simpl fst.
  destruct (current_ok s2 sid it W2 Hg2) as [[O1 O2 O3 O4] _].
  apply (store_wf it); try done. by apply int_wf_weaken.
Qed.

Lemma consume_wf d sid o client frame s : int_wf s -> int_wf (fst (consumePromptAnswer d sid o client frame s)).
Proof.
  intros W. unfold consumePromptAnswer. destruct (om_get sid (is_interrupts s)) as [it|] eqn:Hg; [|done].
  destruct (current_ok s sid it W Hg) as [[O1 O2 O3 O4] Es]. rewrite <- Es in Hg. pose proof (int_wf_weaken (Some (it_sessionId it)) s W) as Wb.
  destruct (it_phase it) eqn:Ep.
  - destruct (_ || _); simpl; [by apply finish_wf|].
    set (it1 := with_client _ _ _).
    assert (int_wf (store it1 s)) as W1.
    { apply (store_wf it); try done. split; simpl; try done. by rewrite Ep. }
    set (s2 := itell _ _).
    assert (int_wf s2) as W2 by (by apply talk_wf).
    apply sendContinuation_wf; try done.
    + unfold s2. simpl. by rewrite om_get_set, decide_True.
    + unfold s2, tries, timers_of. simpl. destruct O4 as [Ht Hm]. unfold tries, timers_of in *.
      rewrite count_app, Ht, Hm. simpl. lia.
    + by apply int_wf_weaken.
  - destruct O4 as (Hc & Htk & Hle). destruct (negb _); [done|].
    destruct (failed frame && _ && _) eqn:Ef; simpl; [|apply finish_wf; [done| |done]].
    + apply andb_true_iff in Ef as [Ef _]. apply andb_true_iff in Ef as [_ Ef]. apply Nat.ltb_lt in Ef.
      set (it1 := with_retry it). set (x := (it_ticket it, sid, _)).
      set (s1 := set_retryTimers (is_retryTimers s ++ [x]) s).
      assert (int_wf_but (Some (it_sessionId it)) s1) as W1.
      { eapply (int_wf_own (it_sessionId it) it s s1 []); try done.
        - simpl. by rewrite app_nil_r.
        - intros t Hne. unfold timers_of. simpl. rewrite List.filter_app, length_app. simpl.
          rewrite (proj2 (Z.eqb_neq _ _)) by congruence. simpl. lia.
        - destruct W as [_ _ _ _ _ W6 _ _]. apply W6. }
      apply (store_wf it it1 s1); try done. split; simpl; try done. rewrite Ep. split; [done|]. split; [done|].
      unfold tries, timers_of in *. simpl. rewrite List.filter_app, length_app. simpl.
      rewrite Z.eqb_refl. simpl. lia.
    + destruct (failed frame); [done|]. done.
Qed.

Lemma timers_remove_first t x l :
  x ∈ l -> length (List.filter (fun y : Z * string * Z => y.1.1 =? t) l)
  = ((if (x.1.1 =? t)%Z then 1 else 0)
     + length (List.filter (fun y => (y.1.1 =? t)%Z) (remove_first x l)))%nat.
Proof.
  induction l as [|y l IH]; intros Hin; [by apply elem_of_nil in Hin|]. simpl. case_decide as E.
  - subst. by destruct (_ =? _).
  - apply elem_of_cons in Hin as [?|Hin]; [done|]. simpl.
    destruct (y.1.1 =? t); simpl; rewrite (IH Hin); lia.
Qed.

Lemma retry_wf d t sid due s :
  int_wf s -> (t, sid, due) ∈ is_retryTimers s ->
  int_wf (retryFired d t sid (set_retryTimers (remove_first (t, sid, due) (is_retryTimers s)) s)).
Proof.
  intros W Hin. set (s1 := set_retryTimers _ s).
  assert (forall t', timers_of t' s = ((if (t =? t')%Z then 1 else 0) + timers_of t' s1)%nat) as Htm.
  { intros t'. unfold timers_of. simpl. by rewrite (timers_remove_first t' (t, sid, due)). }
  assert (int_wf s1) as W1.
  { destruct W as [W1 W2 W3 W4 W5 W6 W7 W8]. split; try done.
    - intros a it Ha Hx. destruct (W2 a it Ha Hx) as [O1 O2 O3 O4]. split; try done.
      rewrite (Htm (it_ticket it)) in O4. unfold tries in *. simpl. destruct (it_phase it); [lia|].
      destruct O4 as (? & ? & ?). split; [done|]. split; [done|lia].
    - intros t' Hge. destruct (W7 t' Hge) as [? Hz]. rewrite Htm in Hz. split; [done|lia]. }
  unfold retryFired. simpl. destruct (om_get sid (is_interrupts s)) as [it|] eqn:Hg; [|done].
  destruct (it_ticket it =? t) eqn:Et; [|done]. apply Z.eqb_eq in Et.
  destruct (current_ok s sid it W Hg) as [[O1 O2 O3 O4] Es].
  destruct (current_ok s1 sid it W1 Hg) as [[P1 P2 P3 P4] _].
  specialize (Htm t). rewrite Z.eqb_refl in Htm.
  destruct (it_phase it); [destruct O4 as [_ Hz]; rewrite Et in Hz; lia|].
  apply sendContinuation_wf; try done.
  - by rewrite Es.
  - by destruct O4.
  - destruct O4 as (_ & _ & O4). rewrite Et in *. unfold tries in *. simpl. lia.
  - by apply int_wf_weaken.
Qed.

Lemma update_wf sid frame s : int_wf s -> int_wf (onSessionUpdate sid frame s).
Proof.
  intros W. unfold onSessionUpdate.
  assert (int_wf (noteReply sid frame s) /\ is_log (noteReply sid frame s) = is_log s /\
          is_interrupts (noteReply sid frame s) = is_interrupts s) as (W1 & El & Ei).
  { unfold noteReply. destruct (is_str _ _); [|destruct (replyTextOf frame)]; try done;
      (split; [|done]); eapply (int_wf_talk None s _ []); try done; repeat split; simpl; by rewrite ?app_nil_r. }
  destruct (om_get sid _) as [it|] eqn:Hg; [|done]. destruct (it_phase it) eqn:Ep; [done|].
  destruct (continuesTurn frame); [|done]. destruct (current_ok _ _ _ W1 Hg) as [[O1 O2 O3 O4] Es].
  rewrite Ep in O4. destruct O4 as (_ & Htk & _). apply finish_wf; [by rewrite Es|done|by apply int_wf_weaken].
Qed.

(** *** The end of the harness *)
Definition drops (kv : string * Interrupt) : list IEvent :=
  forgetUndelivered kv.2 ++ [IResolved (it_ticket kv.2) so_refused].

Lemma drops_silent p kv :
  (forall sid id, p (IForget sid id) = false) -> (forall t o, p (IResolved t o) = false) ->
  count p (drops kv) = 0%nat.
Proof. intros Hf Hr. unfold drops. rewrite forgets_count by done. by rewrite count_cons, count_nil, Hr. Qed.

Lemma count_drops_none p m :
  (forall sid id, p (IForget sid id) = false) -> (forall t o, p (IResolved t o) = false) ->
  count p (flat_map drops m) = 0%nat.
Proof.
  intros. induction m as [|kv m IH]; [done|]. simpl. by rewrite count_app, IH, drops_silent.
Qed.

Lemma count_drops_resolved t m :
  count (resolved_of t) (flat_map drops m) = length (List.filter (fun kv => it_ticket kv.2 =? t) m).
Proof.
  induction m as [|kv m IH]; [done|]. simpl. rewrite count_app, IH. unfold drops.
  rewrite forgets_count, count_cons, count_nil by done. simpl. destruct (_ =? _); simpl; lia.
Qed.

Lemma count_drops_forget sid id m :
  NoDup (om_keys m) -> (forall k it, (k, it) ∈ m -> it_sessionId it = k) ->
  count (forget_of sid id) (flat_map drops m)
  = match om_get sid m with
    | Some it => if bool_decide (it_undeliveredId it = Some id) then 1%nat else 0%nat
    | None => 0%nat
    end.
Proof.
  induction m as [|[k it] m IH]; [done|]. intros Hnd Hk. simpl.
  apply NoDup_cons in Hnd as [Hni Hnd]. rewrite count_app, IH; [|done|intros; apply Hk; by right].
  assert (it_sessionId it = k) as Es by (apply Hk; by left).
  assert (count (forget_of sid id) (drops (k, it))
          = if String.eqb k sid && bool_decide (it_undeliveredId it = Some id) then 1%nat else 0%nat) as ->.
  { unfold drops, forgetUndelivered. simpl. rewrite Es.
    destruct (it_undeliveredId it) as [u|] eqn:Eu; rewrite ?count_app, ?count_cons, ?count_nil; simpl.
    - destruct (String.eqb k sid); simpl; [|done].
      destruct (String.eqb_spec u id); case_bool_decide; simplify_eq; done.
    - by rewrite andb_false_r. }
  case_decide as E.
  - subst sid. rewrite String.eqb_refl.
    assert (om_get k m = None) as -> by (by apply om_get_None_keys). simpl. lia.
  - rewrite (proj2 (String.eqb_neq k sid)) by congruence. done.
Qed.

Lemma clear_wf s : int_wf s -> int_wf (clear s).
Proof.
  intros [W1 W2 W3 W4 W5 W6 W7 W8].
  change (clear s) with (set_replies [] (set_cancelled [] (set_interrupts []
    (itell (flat_map drops (is_interrupts s)) s)))).
  assert (forall t, count (try_of t) (flat_map drops (is_interrupts s)) = 0%nat) as Et.
  { intros t. by apply count_drops_none. }
  split; simpl; try done.
  - apply NoDup_nil_2.
  - intros sid it H. by apply elem_of_nil in H.
  - intros t. unfold current. simpl. rewrite count_app, <- W4.
    rewrite (count_drops_resolved t (is_interrupts s)). unfold current. lia.
  - intros sid id. rewrite !count_app, W5. unfold unwritten. simpl.
    rewrite (count_drops_none (remember_of sid id)) by done.
    rewrite (count_drops_forget sid id (is_interrupts s) W1); [lia|].
    intros k it Hin. by destruct (W2 k it Hin).
  - intros t. unfold tries. simpl. rewrite count_app, Et. specialize (W6 t). unfold tries in W6. lia.
  - intros t Hge. unfold tries, timers_of in *. simpl. rewrite count_app, Et, Nat.add_0_r. by apply W7.
  - intros t [H|H]%elem_of_app; apply taken_app; [by apply W8|]. exfalso.
    apply list_elem_of_In, in_flat_map in H as (kv & _ & H%list_elem_of_In).
    unfold drops, forgetUndelivered in H.
    destruct (it_undeliveredId kv.2); repeat (apply elem_of_cons in H as [H|H]; [done|]); by apply elem_of_nil in H.
Qed.

Lemma int_step_wf d op s : int_wf s -> int_wf (int_step d op s).
Proof.
  intros W. destruct op; simpl.
  - by apply steer_wf.
  - eapply (int_wf_talk None s _ []); [|constructor|done]. repeat split; simpl; by rewrite ?app_nil_r.
  - eapply (int_wf_talk None s _ []); [|constructor|done]. repeat split; simpl; by rewrite ?app_nil_r.
  - by apply consume_wf.
  - by apply update_wf.
  - destruct (bool_decide_reflect ((ticket, sessionId, due) ∈ is_retryTimers s)); [|done]. simpl.
    destruct (_ <=? _); [by apply retry_wf|done].
  - by apply clear_wf.
Qed.

Lemma int_run_wf l : int_wf (int_run l createInterruptSteers).
Proof.
  assert (forall s, int_wf s -> int_wf (int_run l s)) as H; [|apply H, int_wf_create].
  induction l as [|[d op] l IH]; intros s W; [done|]. simpl. by apply IH, int_step_wf.
Qed.

(** ** Theorems *)

(** C31: In every run, a steer that interrupts the turn is still out or was given
    one outcome, never two; and it is called injected only if the harness took a
    prompt with its messages. *)
Theorem steer_has_one_outcome l t :
  let s := int_run l createInterruptSteers in
  (count (resolved_of t) (is_log s) + current t s)%nat
  = (if (0 <=? t) && (t <? is_nextTicket s) then 1%nat else 0%nat) /\
  (IResolved t so_injected ∈ is_log s ->
   exists sid outboundId prompt, IPromptSent t sid outboundId prompt true ∈ is_log s).
Proof. intros s. destruct (int_run_wf l) as [_ _ _ W4 _ _ _ W8]. split; [apply W4 | apply W8]. Qed.

(** The messages of a steer are written down as undelivered exactly as long as
    the steer is out, so a crash in between loses none and a later start finds
    none that was settled. *)
Theorem undelivered_while_out l sid id :
  let s := int_run l createInterruptSteers in
  count (remember_of sid id) (is_log s)
  = (count (forget_of sid id) (is_log s) +
     match om_get sid (is_interrupts s) with
     | Some it => if bool_decide (it_undeliveredId it = Some id) then 1%nat else 0%nat
     | None => 0%nat
     end)%nat.
Proof. intros s. destruct (int_run_wf l) as [_ _ _ _ W5 _ _ _]. apply W5. Qed.

(** However often the harness fails, a steer's messages are offered to it at
    most four times. *)
Theorem harness_is_asked_four_times l t :
  (count (try_of t) (is_log (int_run l createInterruptSteers)) <= 4)%nat.
Proof. destruct (int_run_wf l) as [_ _ _ _ _ W6 _ _]. apply W6. Qed.
