(* ===== verification/SessionList.v ===== *)
(** The list of an agent's sessions
    (packages/agent-runtime/src/modules/acp/domain/session-list.ts,
    packages/agent-runtime-api/src/modules/sessions/session-query.ts,
    packages/ui/src/modules/sessions/lib/sidebar-session-window.ts): what the
    harness lists and what the runtime recorded, composed, filtered, served in
    pages, and read page after page by the sidebar.

    Times are ISO strings, compared by code unit as the source does. *)
From stdpp Require Import base strings list sorting.
From Stdlib Require Import ZArith Lia.
From S2P Require Import Prelude JsString.
Local Open Scope string_scope.

(** ** Data *)
Inductive SessionMode := sm_chat | sm_terminal.
Inductive SessionType :=
| st_regular | st_channel_slack | st_channel_telegram | st_schedule_cron | st_schedule_once
| st_cli_run | st_invocation | st_artifact.
Inductive SessionCategory := sc_terminal | sc_channels | sc_scheduled | sc_runs | sc_chats.
#[export] Instance SessionCategory_dec : EqDecision SessionCategory.
Proof. solve_decision. Defined.

#[export] Instance SessionMode_dec : EqDecision SessionMode.
Proof. solve_decision. Defined.
#[export] Instance SessionType_dec : EqDecision SessionType.
Proof. solve_decision. Defined.

Record Sender := mk_sender { sd_sub : string; sd_email : option string }.

Record ListedHarnessSession := mk_listed {
  lh_sessionId : string;
  lh_title : option string;
  lh_updatedAt : option string;
}.

(** [follows] may be absent, null, or a name. *)
Record SessionMeta := mk_meta {
  me_mode : option string;
  me_type : option string;
  me_scheduleId : option string;
  me_initialization : option bool;
  me_purpose : option string;
  me_threadTs : option string;
  me_harness : option string;
  me_provider : option string;
  me_model : option string;
  me_settings : option (list (string * string));
  me_follows : option (option string);
  me_title : option string;
  me_customTitle : option string;
}.

Record SessionMetaLike := mk_entry {
  en_meta : SessionMeta;
  en_createdAt : string;
  en_lastActivityAt : option string;
  en_seenAt : option string;
  en_runStartedAt : option string;
  en_runTotalMs : option Z;
  en_runCount : option Z;
  en_starter : option Sender;
  en_continuedScheduleIds : option (list string);
}.

Record Session := mk_session {
  se_sessionId : string;
  se_mode : SessionMode;
  se_type : SessionType;
  se_createdAt : string;
  se_updatedAt : option string;
  se_title : option string;
  se_customTitle : option string;
  se_autoTitle : option string;
  se_scheduleId : option string;
  se_continuedScheduleIds : option (list string);
  se_initialization : bool;
  se_purpose : option string;
  se_threadTs : option string;
  se_seenAt : option string;
  se_runStartedAt : option string;
  se_runTotalMs : option Z;
  se_runCount : option Z;
  se_running : bool;
  se_harness : option string;
  se_provider : option string;
  se_model : option string;
  se_settings : option (list (string * string));
  se_follows : option (option string);
  se_startedBy : option Sender;
}.

Record SessionListPredicates := mk_predicates {
  lp_isTombstoned : string -> bool;
  lp_isRunning : string -> bool;
  lp_platformSessionOf : option (string -> option string);
}.

Definition EPOCH : string := "1970-01-01T00:00:00.000Z".

(** ** Composing the list *)
Definition asMode (value : option string) : SessionMode :=
  if ostr_eqb value "terminal" then sm_terminal else sm_chat.

Definition asType (value : option string) : SessionType :=
  if ostr_eqb value "channel_slack" then st_channel_slack
  else if ostr_eqb value "channel_telegram" then st_channel_telegram
  else if ostr_eqb value "schedule_cron" then st_schedule_cron
  else if ostr_eqb value "schedule_once" then st_schedule_once
  else if ostr_eqb value "cli_run" then st_cli_run
  else if ostr_eqb value "invocation" then st_invocation
  else if ostr_eqb value "artifact" then st_artifact
  else st_regular.

(** [a ?? b] between two values that may be missing. *)
Definition or_else {A} (a b : option A) : option A := match a with Some _ => a | None => b end.

Definition fromEntry (sessionId : string) (entry : SessionMetaLike)
    (listed : option ListedHarnessSession) (running : bool) : Session :=
  let meta := en_meta entry in
  let listedTitle := listed ≫= lh_title in
  mk_session sessionId (asMode (me_mode meta)) (asType (me_type meta)) (en_createdAt entry)
    (or_else (en_lastActivityAt entry) (listed ≫= lh_updatedAt))
    (or_else (me_customTitle meta) (or_else listedTitle (me_title meta)))
    (me_customTitle meta)
    (or_else listedTitle (me_title meta))
    (me_scheduleId meta) (en_continuedScheduleIds entry)
    (match me_initialization meta with Some b => b | None => false end)
    (me_purpose meta) (me_threadTs meta) (en_seenAt entry) (en_runStartedAt entry)
    (en_runTotalMs entry) (en_runCount entry) running
    (me_harness meta) (me_provider meta) (me_model meta) (me_settings meta) (me_follows meta)
    (en_starter entry).

Definition fromHarnessOnly (listed : ListedHarnessSession) (running : bool) : Session :=
  mk_session (lh_sessionId listed) sm_terminal st_regular (lh_updatedAt listed ?? EPOCH)
    (lh_updatedAt listed) (lh_title listed) None (lh_title listed) None None false None None None
    None None None running None None None None None None.

Section Compose.
Context (entries : list (string * SessionMetaLike)) (p : SessionListPredicates).

(** [platformSessionOf?.(id)] *)
Definition pinOf (id : string) : option string :=
  match lp_platformSessionOf p with Some f => f id | None => None end.

Definition platformId (h : ListedHarnessSession) : string :=
  pinOf (lh_sessionId h) ?? lh_sessionId h.

(** One turn of the first loop: the ids listed so far, and the list. *)
Definition composeListed (acc : list string * list Session) (h : ListedHarnessSession)
  : list string * list Session :=
  let '(seen, composed) := acc in
  let sessionId := platformId h in
  if lp_isTombstoned p sessionId || bool_decide (sessionId ∈ seen) then acc
  else
    let session := mk_listed sessionId (lh_title h) (lh_updatedAt h) in
    ((seen ++ [sessionId])%list,
     (composed ++
       [match om_get sessionId entries with
        | Some entry => fromEntry sessionId entry (Some session) (lp_isRunning p sessionId)
        | None => fromHarnessOnly session (lp_isRunning p sessionId)
        end])%list).

(** One turn of the second loop. *)
Definition composeEntry (seen : list string) (kv : string * SessionMetaLike) : list Session :=
  if bool_decide (kv.1 ∈ seen) || lp_isTombstoned p kv.1 || bool_decide (is_Some (pinOf kv.1)) then []
  else [fromEntry kv.1 kv.2 None (lp_isRunning p kv.1)].

Definition composeSessionList (listed : list ListedHarnessSession) : list Session :=
  let '(seen, composed) := foldl composeListed ([], []) listed in
  (composed ++ flat_map (composeEntry seen) entries)%list.
End Compose.

Record SessionDirectoryEntry := mk_directory_entry {
  di_sessionId : string;
  di_mode : SessionMode;
  di_type : SessionType;
  di_createdAt : string;
}.

Definition sessionDirectoryEntries (entries : list (string * SessionMetaLike)) (isTombstoned : string -> bool)
  : list SessionDirectoryEntry :=
  map (fun kv => mk_directory_entry kv.1 (asMode (me_mode (en_meta kv.2))) (asType (me_type (en_meta kv.2)))
                   (en_createdAt kv.2))
    (List.filter (fun kv => negb (isTombstoned kv.1)) entries).

(** ** Queries and pages *)
Record SessionListCursor := mk_cursor { cu_activityAt : string; cu_sessionId : string }.

Record SessionListQuery := mk_query {
  qy_categories : option (list SessionCategory);
  qy_sessionId : option string;
  qy_scheduleId : option string;
  qy_after : option SessionListCursor;
  qy_limit : option nat;
}.

Record SessionPage := mk_page { pg_sessions : list Session; pg_nextCursor : option SessionListCursor }.

Definition sessionCategoryOf (s : Session) : SessionCategory :=
  match se_mode s with
  | sm_terminal => sc_terminal
  | sm_chat =>
      match se_type s with
      | st_channel_slack | st_channel_telegram | st_artifact => sc_channels
      | st_schedule_cron | st_schedule_once => sc_scheduled
      | st_cli_run | st_invocation => sc_runs
      | st_regular => sc_chats
      end
  end.

Definition sessionMatchesQuery (s : Session) (q : SessionListQuery) : bool :=
  match qy_categories q with Some cs => bool_decide (sessionCategoryOf s ∈ cs) | None => true end
  && match qy_sessionId q with Some id => String.eqb (se_sessionId s) id | None => true end
  && match qy_scheduleId q with
     | Some id =>
         ostr_eqb (se_scheduleId s) id
         || match se_continuedScheduleIds s with Some ids => bool_decide (id ∈ ids) | None => false end
     | None => true
     end.

Definition activityAt (s : Session) : string := se_updatedAt s ?? se_createdAt s.
Definition compareCodeUnits : string -> string -> Z := code_unit_compare.

Definition compareToCursor (s : Session) (cursor : SessionListCursor) : Z :=
  cmp_or (compareCodeUnits (cu_activityAt cursor) (activityAt s))
    (compareCodeUnits (se_sessionId s) (cu_sessionId cursor)).

Definition cursorOf (s : Session) : SessionListCursor := mk_cursor (activityAt s) (se_sessionId s).

Definition afterCursor (after : option SessionListCursor) (s : Session) : bool :=
  match after with Some c => (0 <? compareToCursor s c)%Z | None => true end.

Definition compareSessions (a b : Session) : Z := compareToCursor a (cursorOf b).

Definition pageSessions (sessions : list Session) (q : SessionListQuery) : SessionPage :=
  let ordered := js_sort compareSessions
    (List.filter (fun s => sessionMatchesQuery s q && afterCursor (qy_after q) s) sessions) in
  match qy_limit q with
  | None => mk_page ordered None
  | Some limit =>
      if (length ordered <=? limit)%nat then mk_page ordered None
      else
        let page := take limit ordered in
        mk_page page (cursorOf <$> last page)
  end.

(** ** The sidebar's reader *)
#[export] Instance SessionListCursor_dec : EqDecision SessionListCursor.
Proof. solve_decision. Defined.

(** The cursor to ask the next page with, from the pages read and the cursor the
    last of them was asked with. Two cursors print the same when they are equal. *)
Definition nextSessionCursor (pages : list SessionPage) (lastCursor : option SessionListCursor)
  : option SessionListCursor :=
  match last pages with
  | None => None
  | Some lastPage =>
      match pg_nextCursor lastPage with
      | None => None
      | Some nextCursor =>
          if bool_decide (lastCursor = Some nextCursor) then None
          else
            let seen := flat_map (fun p => map se_sessionId (pg_sessions p)) (removelast pages) in
            if existsb (fun s => negb (bool_decide (se_sessionId s ∈ seen))) (pg_sessions lastPage)
            then Some nextCursor else None
      end
  end.

Definition with_after (after : option SessionListCursor) (q : SessionListQuery) : SessionListQuery :=
  mk_query (qy_categories q) (qy_sessionId q) (qy_scheduleId q) after (qy_limit q).
Definition with_limit (limit : option nat) (q : SessionListQuery) : SessionListQuery :=
  mk_query (qy_categories q) (qy_sessionId q) (qy_scheduleId q) (qy_after q) limit.

(** At most [rounds] pages of an unchanging list, each asked with the cursor
    [nextSessionCursor] gives for the pages before it. *)
Fixpoint readPages (rounds : nat) (sessions : list Session) (q : SessionListQuery)
    (pages : list SessionPage) (cursor : option SessionListCursor) : list SessionPage :=
  match rounds with
  | O => pages
  | S rounds =>
      let pages := (pages ++ [pageSessions sessions (with_after cursor q)])%list in
      match nextSessionCursor pages cursor with
      | Some next => readPages rounds sessions q pages (Some next)
      | None => pages
      end
  end.

(** ** The order of the list *)
#[export] Instance compareSessions_order : CmpOrder compareSessions.
Proof.
  assert (CmpOrder code_unit_compare) as H by apply (@localeCompare_order code_unit_locale).
  apply cmp_or_order; [|by apply cmp_via].
  by apply (cmp_flip_order (fun a b => code_unit_compare (activityAt a) (activityAt b))), cmp_via.
Qed.

Lemma code_unit_zero a b : code_unit_compare a b = 0%Z -> a = b.
Proof.
  unfold code_unit_compare. destruct (String.compare a b) eqn:E; [|done..].
  intros _. by apply String.compare_eq_iff in E.
Qed.

(** Two sessions tie only when they are the same id. *)
Lemma compareSessions_zero a b : compareSessions a b = 0%Z -> se_sessionId a = se_sessionId b.
Proof.
  unfold compareSessions, compareToCursor, cmp_or. simpl.
  destruct (compareCodeUnits _ _ =? 0)%Z eqn:E; intros H.
  - by apply code_unit_zero.
  - apply Z.eqb_neq in E. congruence.
Qed.

Definition distinct (l : list Session) : Prop := NoDup (map se_sessionId l).

Lemma distinct_inj l a b : distinct l -> a ∈ l -> b ∈ l -> se_sessionId a = se_sessionId b -> a = b.
Proof.
  unfold distinct. intros Hd Ha Hb E.
  apply list_elem_of_lookup in Ha as [i Hi]. apply list_elem_of_lookup in Hb as [j Hj].
  assert (i = j) as ->; [|congruence].
  eapply (NoDup_lookup (map se_sessionId l)); [done|..].
  - by apply list_lookup_fmap_Some_2.
  - rewrite E. by apply list_lookup_fmap_Some_2.
Qed.

Lemma filter_distinct f l : distinct l -> distinct (List.filter f l).
Proof.
  unfold distinct. induction l as [|s l IH]; simpl; [done|]. intros [Hni Hnd]%NoDup_cons.
  destruct (f s); simpl; [constructor|]; auto. intros Hin. apply Hni.
  apply list_elem_of_fmap in Hin as (s' & -> & Hf). apply elem_filter in Hf as [Hf _].
  by apply list_elem_of_fmap_2.
Qed.

Lemma sort_distinct l : distinct l -> distinct (js_sort compareSessions l).
Proof. unfold distinct. by rewrite js_sort_perm. Qed.

(** What comes after a session in the sorted list is what its cursor asks for. *)
Lemma after_is_rest pre x rest :
  distinct (pre ++ x :: rest) -> StronglySorted (cmp_le compareSessions) (pre ++ x :: rest) ->
  List.filter (afterCursor (Some (cursorOf x))) (pre ++ x :: rest) = rest.
Proof.
  intros Hd Hs. rewrite List.filter_app. simpl.
  assert (forall y, (0 <? compareToCursor y (cursorOf x))%Z = (0 <? compareSessions y x)%Z) as E by done.
  rewrite (filter_none _ pre), E; simpl.
  - pose proof (cmp_refl compareSessions x) as ->. simpl. apply filter_all, Forall_forall. intros y Hy. simpl.
    rewrite E. apply Z.ltb_lt.
    assert (compareSessions x y <= 0)%Z as Hle.
    { apply StronglySorted_app_1_r in Hs. apply StronglySorted_inv in Hs as [_ Hall].
      rewrite Forall_forall in Hall. by apply Hall. }
    pose proof (cmp_antisym x y) as Ha. destruct (decide (compareSessions x y = 0)%Z) as [Hz|]; [|lia].
    exfalso. apply compareSessions_zero in Hz. unfold distinct in Hd. rewrite map_app in Hd.
    apply NoDup_app in Hd as (_ & _ & Hd). simpl in Hd. apply NoDup_cons in Hd as [Hni _].
    apply Hni. rewrite Hz. by apply list_elem_of_fmap_2.
  - apply Forall_forall. intros y Hy. simpl. rewrite E. apply Z.ltb_ge.
    by eapply (StronglySorted_app_1_elem_of (cmp_le compareSessions) pre (x :: rest)); [exact Hs|exact Hy|left].
Qed.

Lemma sorted_unique l1 l2 :
  distinct l1 -> StronglySorted (cmp_le compareSessions) l1 ->
  StronglySorted (cmp_le compareSessions) l2 -> l1 ≡ₚ l2 -> l1 = l2.
Proof.
  intros Hd H1 H2 Hp. eapply StronglySorted_unique_strong; [|done|done|done].
  intros a b Ha Hb Hab Hba. apply (distinct_inj l1); [done|done|by rewrite Hp|].
  apply compareSessions_zero. unfold cmp_le in *. pose proof (cmp_antisym a b). lia.
Qed.

(** ** Reading page after page *)
Section Reading.
Local Open Scope nat_scope.
Context (sessions : list Session) (q : SessionListQuery) (k : nat).
Hypothesis sessions_distinct : distinct sessions.
Hypothesis limit_is : qy_limit q = Some k.
Hypothesis limit_pos : 0 < k.

(** All that the query asks for, in order. *)
Definition wholeList : list Session :=
  js_sort compareSessions (List.filter (fun s => sessionMatchesQuery s q) sessions).

Lemma wholeList_distinct : distinct wholeList.
Proof. by apply sort_distinct, filter_distinct. Qed.

Lemma wholeList_sorted : StronglySorted (cmp_le compareSessions) wholeList.
Proof. apply js_sort_sorted. apply _. Qed.

Definition cursor_after (pre : list Session) : option SessionListCursor := cursorOf <$> last pre.

Lemma matches_with_after c s : sessionMatchesQuery s (with_after c q) = sessionMatchesQuery s q.
Proof. done. Qed.

(** What a query with the cursor after [pre] finds. *)
Lemma ordered_after pre rest :
  wholeList = (pre ++ rest)%list ->
  js_sort compareSessions
    (List.filter (fun s => sessionMatchesQuery s (with_after (cursor_after pre) q)
                           && afterCursor (cursor_after pre) s) sessions) = rest.
Proof.
  intros E. pose proof wholeList_distinct as Hd. pose proof wholeList_sorted as Hs. rewrite E in Hd, Hs.
  apply sorted_unique; [by apply sort_distinct, filter_distinct|apply js_sort_sorted; apply _| |].
  - by apply StronglySorted_app_1_r in Hs.
  - rewrite js_sort_perm, filter_and.
    rewrite (filter_perm _ _ (pre ++ rest)) by (rewrite <- E; symmetry; apply js_sort_perm).
    unfold cursor_after. destruct pre as [|x pre _] using rev_ind; [|].
    + simpl. by rewrite filter_all by (apply Forall_forall; done).
    + rewrite last_snoc. simpl. rewrite <- (assoc_L (++)) in *. simpl in *. by rewrite after_is_rest.
Qed.

Lemma page_after pre rest :
  wholeList = (pre ++ rest)%list ->
  pageSessions sessions (with_after (cursor_after pre) q) =
    if length rest <=? k then mk_page rest None else mk_page (take k rest) (cursor_after (take k rest)).
Proof. intros E. unfold pageSessions. simpl. rewrite limit_is, (ordered_after pre rest E). done. Qed.

Definition listed_by (pages : list SessionPage) : list Session := flat_map pg_sessions pages.

Lemma listed_by_snoc pages p : listed_by (pages ++ [p]) = (listed_by pages ++ pg_sessions p)%list.
Proof. unfold listed_by. rewrite flat_map_app. simpl. by rewrite app_nil_r. Qed.

Lemma seen_ids pages :
  flat_map (fun p => map se_sessionId (pg_sessions p)) pages = map se_sessionId (listed_by pages).
Proof. unfold listed_by. induction pages as [|p pages IH]; simpl; [done|]. by rewrite map_app, IH. Qed.

Lemma last_take_some (rest : list Session) : k < length rest -> exists x, last (take k rest) = Some x.
Proof.
  intros H. destruct (last (take k rest)) eqn:E; [by eexists|].
  apply last_None in E. apply (f_equal length) in E. rewrite length_take in E. simpl in E. lia.
Qed.

(** The reader goes on exactly while the page carries a cursor. *)
Lemma next_after pages pre rest :
  listed_by pages = pre -> wholeList = (pre ++ rest)%list ->
  nextSessionCursor (pages ++ [pageSessions sessions (with_after (cursor_after pre) q)]) (cursor_after pre)
  = if length rest <=? k then None else cursor_after (pre ++ take k rest).
Proof.
  intros Hp E. rewrite (page_after pre rest E). unfold nextSessionCursor. rewrite last_snoc, removelast_last.
  destruct (length rest <=? k) eqn:Hl; [done|]. apply Nat.leb_gt in Hl. simpl.
  destruct (last_take_some rest Hl) as [x Hx].
  assert (cursor_after (pre ++ take k rest) = Some (cursorOf x)) as ->.
  { unfold cursor_after. by rewrite last_app, Hx. }
  unfold cursor_after at 1. rewrite Hx. simpl.
  pose proof wholeList_distinct as Hd. rewrite E in Hd. unfold distinct in Hd. rewrite map_app in Hd.
  apply NoDup_app in Hd as (_ & Hd & _).
  assert (x ∈ take k rest) as Hin by (by apply last_Some_elem_of).
  assert (se_sessionId x ∉ map se_sessionId pre) as Hnew.
  { intros H. apply (Hd _ H). apply list_elem_of_fmap_2. rewrite <- (take_drop k rest). apply elem_of_app. by left. }
  rewrite bool_decide_false.
  - rewrite seen_ids, Hp. replace (existsb _ _) with true; [done|]. symmetry. apply existsb_exists.
    exists x. rewrite bool_decide_false by done. split; [by apply list_elem_of_In|done].
  - unfold cursor_after. destruct (last pre) as [y|] eqn:Ey; simpl; [|done]. intros [= _ H]. apply Hnew.
    rewrite <- H. apply list_elem_of_fmap_2. by apply last_Some_elem_of.
Qed.

Definition pages_fit (pages : list SessionPage) : Prop := Forall (fun p => length (pg_sessions p) <= k) pages.

Lemma read_rest rounds : forall pages pre rest,
  listed_by pages = pre -> wholeList = (pre ++ rest)%list -> length rest < rounds -> pages_fit pages ->
  let all := readPages rounds sessions q pages (cursor_after pre) in
  listed_by all = wholeList /\ pages_fit all /\ (pg_nextCursor <$> last all) = Some None.
Proof.
  induction rounds as [|rounds IH]; intros pages pre rest Hp E Hr Hf; [lia|]. simpl.
  rewrite (next_after pages pre rest Hp E). rewrite (page_after pre rest E).
  destruct (length rest <=? k) eqn:Hl.
  - apply Nat.leb_le in Hl. rewrite listed_by_snoc, Hp, last_snoc. simpl. split_and!; [done| |done].
    apply Forall_app_2; [done|]. by repeat constructor.
  - apply Nat.leb_gt in Hl. destruct (last_take_some rest Hl) as [x Hx].
    assert (cursor_after (pre ++ take k rest) = Some (cursorOf x)) as Hc.
    { unfold cursor_after. by rewrite last_app, Hx. }
    rewrite Hc, <- Hc. apply (IH _ _ (drop k rest)).
    + by rewrite listed_by_snoc, Hp.
    + by rewrite <- (assoc_L (++)), take_drop.
    + rewrite length_drop. lia.
    + apply Forall_app_2; [done|]. constructor; [|done]. simpl. rewrite length_take. lia.
Qed.
End Reading.

(** ** What the composed list holds *)
Section Composed.
Context (entries : list (string * SessionMetaLike)) (p : SessionListPredicates).
Local Open Scope list_scope.

Lemma fromEntry_id id entry listed running : se_sessionId (fromEntry id entry listed running) = id.
Proof. done. Qed.

(** A turn of the first loop keeps the ids listed and the list in step. *)
Definition in_step (acc : list string * list Session) : Prop :=
  map se_sessionId acc.2 = acc.1 /\ NoDup acc.1 /\ Forall (fun id => lp_isTombstoned p id = false) acc.1.

Lemma composeListed_step acc h : in_step acc -> in_step (composeListed entries p acc h).
Proof.
  destruct acc as [seen composed]. unfold in_step. simpl. intros (E & Hn & Ht).
  destruct (lp_isTombstoned p (platformId p h)) eqn:Et; simpl; [done|].
  case_bool_decide as Hs; simpl; [done|]. split_and!.
  - rewrite map_app, E. simpl. by destruct (om_get _ entries).
  - apply NoDup_app. split_and!; [done| |apply NoDup_singleton]. intros x Hx Hy.
    apply list_elem_of_singleton in Hy as ->. done.
  - apply Forall_app_2; [done|]. by repeat constructor.
Qed.

Lemma composeListed_grows acc h x : x ∈ acc.1 -> x ∈ (composeListed entries p acc h).1.
Proof.
  destruct acc as [seen composed]. simpl. intros H. destruct (_ || _); simpl; [done|]. apply elem_of_app. by left.
Qed.

(** The ids the first loop lists: those the harness lists, by platform id, that are not tombstoned. *)
Lemma composeListed_ids h acc x :
  x ∈ (composeListed entries p acc h).1 <->
  x ∈ acc.1 \/ x = platformId p h /\ lp_isTombstoned p x = false.
Proof.
  destruct acc as [seen composed]. simpl. destruct (lp_isTombstoned p (platformId p h)) eqn:Et; simpl.
  - split; [by left|]. intros [H|[-> H]]; [done|congruence].
  - case_bool_decide as Hs; simpl; [split; [by left|by intros [H|[-> H]]]|].
    rewrite elem_of_app, list_elem_of_singleton. split; [|naive_solver].
    intros [H| ->]; [by left|by right].
Qed.

Lemma composeListed_all listed acc :
  in_step acc ->
  in_step (foldl (composeListed entries p) acc listed) /\
  forall x, x ∈ (foldl (composeListed entries p) acc listed).1 <->
            x ∈ acc.1 \/ x ∈ map (platformId p) listed /\ lp_isTombstoned p x = false.
Proof.
  revert acc. induction listed as [|h listed IH]; intros acc Hs; simpl.
  - split; [done|]. intros x. split; [by left|]. intros [H|[H _]]; [done|by apply elem_of_nil in H].
  - destruct (IH _ (composeListed_step acc h Hs)) as [H1 H2]. split; [done|]. intros x.
    rewrite H2, composeListed_ids, elem_of_cons. naive_solver.
Qed.

Definition own_entry (seen : list string) (id : string) : bool :=
  negb (bool_decide (id ∈ seen) || lp_isTombstoned p id || bool_decide (is_Some (pinOf p id))).

Lemma composeEntry_ids seen l :
  map se_sessionId (flat_map (composeEntry p seen) l) = List.filter (own_entry seen) (map fst l).
Proof.
  induction l as [|[id e] l IH]; simpl; [done|]. rewrite map_app, IH. unfold composeEntry, own_entry at 2. simpl.
  by destruct (_ || _ || _).
Qed.

Lemma composed_ids listed :
  exists seen, NoDup seen /\
    (forall x, x ∈ seen <-> x ∈ map (platformId p) listed /\ lp_isTombstoned p x = false) /\
    map se_sessionId (composeSessionList entries p listed) =
      seen ++ List.filter (own_entry seen) (map fst entries).
Proof.
  unfold composeSessionList. destruct (composeListed_all listed ([], [])) as [(E & Hn & _) Hx].
  { split_and!; [done|constructor|constructor]. }
  destruct (foldl _ _ _) as [seen composed]. simpl in *. exists seen. split_and!; [done| |].
  - intros x. rewrite Hx. split; [|by right]. intros [H|H]; [by apply elem_of_nil in H|done].
  - by rewrite map_app, E, composeEntry_ids.
Qed.
Lemma session_ids_distinct listed :
  NoDup (map fst entries) -> NoDup (map se_sessionId (composeSessionList entries p listed)).
Proof.
  intros Hd. destruct (composed_ids listed) as (seen & Hn & Hs & ->).
  apply NoDup_app. split_and!; [done| |by apply filter_NoDup]. intros x Hx [_ Hf]%elem_filter.
  unfold own_entry in Hf. by rewrite bool_decide_true in Hf.
Qed.
End Composed.

(** ** Properties *)

(** However the harness's listing and the runtime's records overlap, the
    list names each session once. It names exactly the sessions that are not
    tombstoned and that the harness lists, under the id the platform gives them,
    or that the runtime recorded under an id no terminal session is pinned to. *)
Theorem session_listed_once entries p listed :
  NoDup (map fst entries) ->
  NoDup (map se_sessionId (composeSessionList entries p listed)) /\
  forall id, id ∈ map se_sessionId (composeSessionList entries p listed) <->
    lp_isTombstoned p id = false /\
    (id ∈ map (platformId p) listed \/ id ∈ map fst entries /\ pinOf p id = None).
Proof.
  intros Hd. split; [by apply session_ids_distinct|].
  destruct (composed_ids entries p listed) as (seen & Hn & Hs & ->). intros id.
  rewrite elem_of_app, elem_filter, Hs. unfold own_entry.
  assert (bool_decide (is_Some (pinOf p id)) = false <-> pinOf p id = None) as Hpin.
  { rewrite bool_decide_eq_false, eq_None_not_Some. done. }
  rewrite negb_true_iff, !orb_false_iff, bool_decide_eq_false, Hpin, Hs. split; [naive_solver|].
  intros [Ht [H|[H Hp]]]; [by left|].
  destruct (decide (id ∈ map (platformId p) listed)); [by left|]. right. naive_solver.
Qed.

Definition example_meta : SessionMeta :=
  mk_meta None None None None None None None None None None None None None.
Definition example_entries : list (string * SessionMetaLike) :=
  [ ("a", mk_entry example_meta "2024-01-01" (Some "2024-02-01") None None None None None None)
  ; ("b", mk_entry example_meta "2024-01-02" None None None None None None None)
  ; ("gone", mk_entry example_meta "2024-01-03" None None None None None None None)
  ; ("pinned", mk_entry example_meta "2024-01-04" None None None None None None None) ]%list.
Definition example_predicates : SessionListPredicates :=
  mk_predicates (fun id => String.eqb id "gone") (fun id => String.eqb id "a")
    (Some (fun id => if String.eqb id "pinned" then Some "a" else None)).
Definition example_listed : list ListedHarnessSession :=
  [ mk_listed "a" None None; mk_listed "pinned" (Some "again") None
  ; mk_listed "h" (Some "from the harness") (Some "2024-03-01"); mk_listed "gone" None None ]%list.

Lemma example_keys : NoDup (map fst example_entries).
Proof. apply (bool_decide_unpack (NoDup (map fst example_entries))). by vm_compute. Qed.

Lemma session_listed_once_witness :
  NoDup (map se_sessionId (composeSessionList example_entries example_predicates example_listed)) /\
  map se_sessionId (composeSessionList example_entries example_predicates example_listed)
    = ["a"; "h"; "b"]%list.
Proof.
  split; [|reflexivity]. apply (session_listed_once example_entries example_predicates example_listed).
  exact example_keys.
Defined.

(** C37: a reader that asks for page after page, each time with the cursor the
    sidebar takes from the pages it holds, comes to an end within one page per
    session and has then read every session the query asks for exactly once, in
    the order one unlimited query would give, with no page over the limit. *)
Theorem pages_list_everything entries p listed q k rounds :
  NoDup (map fst entries) -> qy_limit q = Some k -> 0 < k ->
  let sessions := composeSessionList entries p listed in
  length sessions < rounds ->
  let pages := readPages rounds sessions q []%list None in
  flat_map pg_sessions pages = pg_sessions (pageSessions sessions (with_limit None (with_after None q))) /\
  NoDup (map se_sessionId (flat_map pg_sessions pages)) /\
  Forall (fun page => length (pg_sessions page) <= k) pages /\
  (pg_nextCursor <$> last pages) = Some None.
Proof.
  intros Hd Hk Hpos sessions Hr pages.
  assert (distinct sessions) as Hs by (by apply session_ids_distinct).
  assert (length (wholeList sessions q) < rounds) as Hlen.
  { unfold wholeList. rewrite js_sort_length. eapply Nat.le_lt_trans; [apply List.filter_length_le|exact Hr]. }
  destruct (read_rest sessions q k Hs Hk Hpos rounds []%list []%list (wholeList sessions q)) as (H1 & H2 & H3);
    [done|done|exact Hlen|constructor|].
  change (flat_map pg_sessions pages = wholeList sessions q) in H1. rewrite H1.
  split_and!; [|by apply wholeList_distinct|exact H2|exact H3]. unfold wholeList, pageSessions. simpl.
  f_equal. rewrite filter_and. by rewrite (filter_all (afterCursor None)) by (apply Forall_forall; done).
Qed.

Definition example_query (after : option SessionListCursor) (limit : option nat) : SessionListQuery :=
  mk_query None None None after limit.
Definition example_sessions : list Session :=
  composeSessionList example_entries example_predicates example_listed.

Lemma pages_list_everything_witness :
  map (fun page => map se_sessionId (pg_sessions page))
    (readPages 4 example_sessions (example_query None (Some 1)) []%list None) = [["h"]; ["a"]; ["b"]]%list /\
  (pg_nextCursor <$> last (readPages 4 example_sessions (example_query None (Some 1)) []%list None)) = Some None.
Proof.
  split; [reflexivity|].
  refine (proj2 (proj2 (proj2 (pages_list_everything example_entries example_predicates example_listed
    (example_query None (Some 1)) 1 4 example_keys eq_refl _ _)))); vm_compute; lia.
Defined.
