(* ===== verification/ReplayTail.v ===== *)
(** The newest frames of a session's replay
    (packages/agent-runtime/src/modules/acp/domain/replay-tail.ts): where a
    replay cut to a number of frames starts, so that no message is split and no
    tool call is parted from its updates, and where a history read starts. *)
From stdpp Require Import base strings list.
From Stdlib Require Import ZArith Lia.
From S2P Require Import Prelude JsString AcpFrames.
Local Open Scope nat_scope.

(** ** Shapes of frames *)
Inductive FrameShape :=
| fs_chunk (run : string)
| fs_tool_call (toolCallId : string)
| fs_tool_call_update (toolCallId : string)
| fs_other.
#[export] Instance FrameShape_dec : EqDecision FrameShape.
Proof. solve_decision. Defined.

Definition CHUNK_UPDATES : list string :=
  ["user_message_chunk"; "agent_message_chunk"; "agent_thought_chunk"]%string.

Definition updateOf (line : Line) : option json :=
  match parseFrame line with
  | None => None
  | Some frame =>
      if negb (is_str "session/update" (prop "method" frame)) then None
      else
        match prop "params" frame with
        | Some params =>
            if negb (isNonNullObject (Some params)) then None
            else if isNonNullObject (prop "update" params) then prop "update" params else None
        | None => None
        end
  end.

Definition shapeOf (line : Line) : FrameShape :=
  match updateOf line with
  | None => fs_other
  | Some update =>
      match str_of (prop "sessionUpdate" update) with
      | None => fs_other
      | Some kind =>
          if bool_decide (kind ∈ CHUNK_UPDATES) then
            fs_chunk (kind ++ ":" ++ (str_of (prop "messageId" update) ?? ""))%string
          else
            match str_of (prop "toolCallId" update) with
            | Some toolCallId =>
                if String.eqb kind "tool_call" then fs_tool_call toolCallId
                else if String.eqb kind "tool_call_update" then fs_tool_call_update toolCallId
                else fs_other
            | None => fs_other
            end
      end
  end.

(** ** Where the tail starts *)
Section Tail.
Context (frames : list Line).

Definition shapeAt (i : nat) : FrameShape :=
  match frames !! i with Some line => shapeOf line | None => fs_other end.

Definition continuesRun (i : nat) : bool :=
  match shapeAt i, shapeAt (i - 1) with
  | fs_chunk here, fs_chunk before => String.eqb here before
  | _, _ => false
  end.

(** [Set.add] and [Set.delete]. *)
Definition set_add (x : string) (l : list string) : list string := if decide (x ∈ l) then l else l ++ [x].
Definition set_del (x : string) (l : list string) : list string :=
  List.filter (fun y => negb (String.eqb y x)) l.

Definition include (ignored : list string) (i : nat) (unopened : list string) : list string :=
  match shapeAt i with
  | fs_tool_call id => set_del id unopened
  | fs_tool_call_update id => if bool_decide (id ∈ ignored) then unopened else set_add id unopened
  | _ => unopened
  end.

(** The frames from [start + n - 1] down to [start]. *)
Fixpoint includeDown (ignored : list string) (start n : nat) (unopened : list string) : list string :=
  match n with
  | O => unopened
  | S n => includeDown ignored start n (include ignored (start + n) unopened)
  end.

(** The [while] loop. *)
Fixpoint walkFrom (ignored : list string) (start : nat) (unopened : list string) : nat * list string :=
  match start with
  | O => (O, unopened)
  | S before =>
      if negb (length unopened =? 0) || continuesRun start
      then walkFrom ignored before (include ignored before unopened)
      else (start, unopened)
  end.

Definition walkBack (cut : nat) (ignored : list string) : nat * list string :=
  walkFrom ignored cut (includeDown ignored cut (length frames - cut) []).

Definition tailStart (size : nat) : nat :=
  if length frames <=? size then 0
  else
    let cut := length frames - size in
    let '(start, unopened) := walkBack cut [] in
    if length unopened =? 0 then start else fst (walkBack cut unopened).

(** ** Where a history read starts *)
Definition kindAt (j : nat) : option json :=
  match frames !! j with Some line => oprop "sessionUpdate" (updateOf line) | None => None end.

(** Before the first frame the kind is null, which no frame's kind is taken for. *)
Definition opensUserTurn (i : nat) : bool :=
  is_str "user_message_chunk" (kindAt i)
  && match i with O => true | S before => negb (is_str "user_message_chunk" (kindAt before)) end.

Fixpoint lastOpening (i : nat) : option nat :=
  if opensUserTurn i then Some i else match i with O => None | S i => lastOpening i end.

Definition historyTailStart (tail : nat) : nat :=
  let start := tailStart tail in
  match lastOpening start with Some i => i | None => start end.
End Tail.

(** ** What the walk knows *)
Section Walk.
Context (frames : list Line).
Notation shape := (shapeAt frames).

(** No tool call [id] in [[s, k)]. *)
Definition uncalled (s k : nat) (id : string) : Prop :=
  forall j, s <= j -> j < k -> shape j <> fs_tool_call id.

(** An update of [id] from [s] on that no tool call from [s] on precedes. *)
Definition unopened_at (s : nat) (id : string) : Prop :=
  exists k, s <= k /\ shape k = fs_tool_call_update id /\ uncalled s k id.

(** Some update of [id] has no tool call before it in the whole replay. *)
Definition lost (id : string) : Prop := unopened_at 0 id.

Definition tracks (ignored : list string) (s : nat) (u : list string) : Prop :=
  forall id, id ∈ u <-> id ∉ ignored /\ unopened_at s id.

Lemma elem_set_add x y l : y ∈ set_add x l <-> y = x \/ y ∈ l.
Proof.
  unfold set_add. case_decide; [naive_solver|]. rewrite elem_of_app, list_elem_of_singleton. naive_solver.
Qed.

Lemma elem_set_del x y l : y ∈ set_del x l <-> y <> x /\ y ∈ l.
Proof.
  unfold set_del. rewrite elem_filter, negb_true_iff, String.eqb_neq. naive_solver.
Qed.

Lemma shape_some i x : shape i = x -> x <> fs_other -> i < length frames.
Proof.
  unfold shapeAt. destruct (frames !! i) eqn:E; [|congruence]. intros _ _. by eapply lookup_lt_Some.
Qed.

Lemma tracks_end ignored : tracks ignored (length frames) [].
Proof.
  intros id. split; [by intros ?%elem_of_nil|]. intros [_ (k & Hk & Hs & _)].
  apply shape_some in Hs; [lia|done].
Qed.

Lemma uncalled_down s k id : uncalled s k id <-> (s < k -> shape s <> fs_tool_call id) /\ uncalled (S s) k id.
Proof.
  unfold uncalled. split; [intros H; split; intros; apply H; lia|]. intros [H1 H2] j Hj Hk.
  destruct (decide (j = s)) as [->|]; [by apply H1|]. apply H2; lia.
Qed.

Lemma unopened_down s id :
  unopened_at s id <->
  shape s = fs_tool_call_update id \/ shape s <> fs_tool_call id /\ unopened_at (S s) id.
Proof.
  unfold unopened_at. split.
  - intros (k & Hk & Hs & Hu). destruct (decide (k = s)) as [->|]; [by left|]. right.
    apply uncalled_down in Hu as [H1 H2]. split; [apply H1; lia|]. exists k. split_and!; [lia|done|done].
  - intros [H|[H (k & Hk & Hs & Hu)]].
    + exists s. split_and!; [lia|done|]. intros j; lia.
    + exists k. split_and!; [lia|done|]. apply uncalled_down. done.
Qed.

Lemma include_tracks ignored s u :
  tracks ignored (S s) u -> tracks ignored s (include frames ignored s u).
Proof.
  intros H id. unfold include. rewrite unopened_down.
  destruct (shape s) as [|c|c|] eqn:E.
  - rewrite (H id). naive_solver.
  - rewrite elem_set_del, (H id). split; [naive_solver|]. intros (H1 & [?|[H2 H3]]); [done|].
    split_and!; [congruence|done|done].
  - case_bool_decide as Hi.
    + rewrite (H id). naive_solver.
    + rewrite elem_set_add, (H id). naive_solver.
  - rewrite (H id). naive_solver.
Qed.

Lemma includeDown_tracks ignored start n u :
  tracks ignored (start + n) u -> tracks ignored start (includeDown frames ignored start n u).
Proof.
  revert u. induction n as [|n IH]; intros u H; simpl; [by rewrite Nat.add_0_r in H|].
  apply IH. apply include_tracks. by rewrite Nat.add_succ_r in H.
Qed.

(** The walk stops at a place that is whole, and passed only places that are not. *)
Lemma walkFrom_spec ignored start u :
  tracks ignored start u ->
  let '(s, u') := walkFrom frames ignored start u in
  s <= start /\ tracks ignored s u' /\
  (s <> 0 -> u' = [] /\ continuesRun frames s = false) /\
  forall i, s < i -> i <= start ->
    continuesRun frames i = true \/ exists id, id ∉ ignored /\ unopened_at i id.
Proof.
  revert u. induction start as [|start IH]; intros u H; simpl.
  { split_and!; [lia|done|done|]. intros i ? ?; lia. }
  destruct (negb (length u =? 0) || continuesRun frames (S start)) eqn:E.
  - specialize (IH _ (include_tracks _ _ _ H)). destruct (walkFrom _ _ _ _) as [s u'].
    destruct IH as (H1 & H2 & H3 & H4). split_and!; [lia|done|done|]. intros i Hi Hle.
    destruct (decide (i = S start)) as [->|]; [|apply H4; lia].
    apply orb_true_iff in E as [E|E]; [|by left]. right. destruct u as [|id u]; [done|].
    exists id. apply H. by left.
  - apply orb_false_iff in E as [E1 E2]. apply negb_false_iff, Nat.eqb_eq in E1. destruct u; [|done].
    split_and!; [lia|done|done|]. intros i; lia.
Qed.

Lemma walkBack_spec ignored cut :
  cut <= length frames ->
  let '(s, u) := walkBack frames cut ignored in
  s <= cut /\ tracks ignored s u /\ (s <> 0 -> u = [] /\ continuesRun frames s = false) /\
  forall i, s < i -> i <= cut ->
    continuesRun frames i = true \/ exists id, id ∉ ignored /\ unopened_at i id.
Proof.
  intros Hc. apply walkFrom_spec, includeDown_tracks.
  replace (cut + (length frames - cut)) with (length frames) by lia. apply tracks_end.
Qed.
End Walk.

(** ** Whole places to start *)

(** Starting at [i] splits a message, or parts a tool call from a later update. *)
Definition splits (frames : list Line) (i : nat) : Prop :=
  continuesRun frames i = true \/
  exists id j k, j < i /\ i <= k /\ shapeAt frames j = fs_tool_call id /\
    shapeAt frames k = fs_tool_call_update id /\ uncalled frames i k id.

(** Between two places a tool call is made or it is not. *)
Lemma called_or_not frames s k id :
  uncalled frames s k id \/ exists j, s <= j /\ j < k /\ shapeAt frames j = fs_tool_call id.
Proof.
  destruct (decide (Exists (fun j => shapeAt frames j = fs_tool_call id) (seq s (k - s)))) as [He|He].
  - right. apply Exists_exists in He as (j & Hj & Hc). apply elem_of_seq in Hj. exists j. split_and!; [lia..|done].
  - left. intros j Hj Hk E. apply He, Exists_exists. exists j. split; [apply elem_of_seq; lia|done].
Qed.

Lemma not_lost_called frames k id :
  ~ lost frames id -> shapeAt frames k = fs_tool_call_update id ->
  exists j, j < k /\ shapeAt frames j = fs_tool_call id.
Proof.
  intros Hn Hk. destruct (called_or_not frames 0 k id) as [Hu|(j & _ & ?)]; [|by exists j].
  exfalso. apply Hn. exists k. split_and!; [lia|done..].
Qed.

Lemma unopened_lower frames s i id :
  s <= i -> unopened_at frames i id -> ~ unopened_at frames s id -> splits frames i.
Proof.
  intros Hs (k & Hk & Hsh & Hu) Hn. right.
  destruct (called_or_not frames s k id) as [H|(j & Hj & Hjk & Hc)].
  - exfalso. apply Hn. exists k. split_and!; [lia|done..].
  - exists id, j, k. split_and!; [|done..]. destruct (decide (j < i)); [done|]. exfalso.
    by apply (Hu j); [lia..|].
Qed.

(** A place that leaves only lost calls unopened keeps the calls of all others. *)
Lemma opened_calls frames t :
  (forall id, unopened_at frames t id -> lost frames id) ->
  forall k id, t <= k -> shapeAt frames k = fs_tool_call_update id -> ~ lost frames id ->
    exists j, t <= j /\ j < k /\ shapeAt frames j = fs_tool_call id.
Proof.
  intros Ht k id Hk Hs Hn. destruct (called_or_not frames t k id) as [Hu|]; [|done].
  exfalso. apply Hn, Ht. by exists k.
Qed.

Lemma tracks_nil frames ignored s :
  tracks frames ignored s [] -> forall id, id ∉ ignored -> ~ unopened_at frames s id.
Proof. intros H id Hi Hu. assert (id ∈ @nil string) as []%elem_of_nil. by apply H. Qed.

(** A replay of the newest frames keeps at least that many, starts at its
    first frame or at one that does not go on a message, and with every update
    of a tool call it keeps the call, but for calls some update of which stands
    before any call in the whole replay. It starts no earlier than it must:
    every later start in reach splits a message or parts a tool call from its
    updates. *)
Theorem tail_starts_whole frames size :
  let start := tailStart frames size in
  start <= length frames - size /\
  (start = 0 \/ continuesRun frames start = false) /\
  (forall k id, start <= k -> shapeAt frames k = fs_tool_call_update id -> ~ lost frames id ->
     exists j, start <= j /\ j < k /\ shapeAt frames j = fs_tool_call id) /\
  (forall i, start < i -> i <= length frames - size -> splits frames i).
Proof.
  intros start. subst start. unfold tailStart.
  destruct (length frames <=? size) eqn:El.
  { apply Nat.leb_le in El. split_and!; [lia|by left| |intros i; lia].
    intros k id _ Hs Hn. destruct (not_lost_called frames k id) as (j & ? & ?); [done..|].
    exists j. split_and!; [lia|done..]. }
  set (cut := length frames - size).
  pose proof (walkBack_spec frames [] cut ltac:(lia)) as H.
  destruct (walkBack frames cut []) as [s u]. destruct H as (H1 & H2 & H3 & H4).
  destruct (length u =? 0) eqn:Eu.
  - apply Nat.eqb_eq in Eu. destruct u; [|done].
    assert (forall id, ~ unopened_at frames s id) as Hs.
    { intros id. apply (tracks_nil _ _ _ H2), not_elem_of_nil. }
    split_and!; [done| | |].
    + destruct (decide (s = 0)); [by left|right; by apply H3].
    + apply opened_calls. intros id Hid. by destruct (Hs id).
    + intros i Hi Hle. destruct (H4 i Hi Hle) as [|(id & _ & Hid)]; [by left|].
      apply (unopened_lower frames s i id); [lia|done..].
  - assert (s = 0) as -> by (destruct (decide (s = 0)) as [|Hs]; [done|]; by destruct (H3 Hs) as [-> _]).
    assert (forall id, id ∈ u <-> lost frames id) as Hlost.
    { intros id. rewrite (H2 id). split; [by intros []|]. split; [apply not_elem_of_nil|done]. }
    pose proof (walkBack_spec frames u cut ltac:(lia)) as H.
    destruct (walkBack frames cut u) as [t v]. destruct H as (T1 & T2 & T3 & T4). simpl.
    assert (v = []) as ->.
    { destruct (decide (t = 0)) as [->|Ht]; [|by apply T3]. destruct v as [|id v]; [done|]. exfalso.
      assert (id ∈ id :: v) as Hin by left. apply T2 in Hin as [Hni Hu]. apply Hni, Hlost. exact Hu. }
    split_and!; [done| | |].
    + destruct (decide (t = 0)); [by left|right; by apply T3].
    + apply opened_calls. intros id Hid. apply Hlost. destruct (decide (id ∈ u)); [done|].
      by destruct (tracks_nil _ _ _ T2 id).
    + intros i Hi Hle. destruct (T4 i Hi Hle) as [|(id & Hni & Hid)]; [by left|].
      apply (unopened_lower frames 0 i id); [lia|done|]. intros Hl. by apply Hni, Hlost.
Qed.

(** ** A history read *)

Lemma lastOpening_spec frames i :
  match lastOpening frames i with
  | Some j => j <= i /\ opensUserTurn frames j = true /\
              forall k, j < k -> k <= i -> opensUserTurn frames k = false
  | None => forall k, k <= i -> opensUserTurn frames k = false
  end.
Proof.
  induction i as [|i IH]; simpl.
  - destruct (opensUserTurn frames 0) eqn:E; [split_and!; [lia|done|intros; lia]|].
    intros k Hk. by replace k with 0 by lia.
  - destruct (opensUserTurn frames (S i)) eqn:E; [split_and!; [lia|done|intros; lia]|].
    destruct (lastOpening frames i) as [j|].
    + destruct IH as (H1 & H2 & H3). split_and!; [lia|done|]. intros k Hj Hk.
      destruct (decide (k = S i)) as [->|]; [done|]. apply H3; lia.
    + intros k Hk. destruct (decide (k = S i)) as [->|]; [done|]. apply IH; lia.
Qed.

(** A history read keeps the replay's tail whole and begins at the prompt that
    opens its turn, the last one at or before the tail's start; with no prompt
    there it begins at the tail itself. *)
Theorem history_starts_at_prompt frames tail :
  let start := historyTailStart frames tail in
  start <= tailStart frames tail /\
  (opensUserTurn frames start = true \/
   start = tailStart frames tail /\ forall k, k <= start -> opensUserTurn frames k = false) /\
  forall k, start < k -> k <= tailStart frames tail -> opensUserTurn frames k = false.
Proof.
  intros start. subst start. unfold historyTailStart. pose proof (lastOpening_spec frames (tailStart frames tail)) as H.
  destruct (lastOpening _ _) as [i|]; [|split_and!; [done|by right|intros; lia]].
  destruct H as (H1 & H2 & H3). split_and!; [done|by left|done].
Qed.

(** ** Concrete replays *)
Definition update_line (kind : string) (field value : string) : Line :=
  ln_json (jobj [("method", jstr "session/update");
    ("params", jobj [("update", jobj [("sessionUpdate", jstr kind); (field, jstr value)])])]%string).
Definition chunk_line (message : string) : Line := update_line "agent_message_chunk" "messageId" message.
Definition prompt_line (message : string) : Line := update_line "user_message_chunk" "messageId" message.
Definition call_line (id : string) : Line := update_line "tool_call" "toolCallId" id.
Definition call_update_line (id : string) : Line := update_line "tool_call_update" "toolCallId" id.

Example tail_of_a_turn :
  let frames := [prompt_line "p"; call_line "t"; chunk_line "a"; chunk_line "b"; chunk_line "b"; call_update_line "t"] in
  tailStart frames 1 = 1 /\ tailStart (take 5 frames) 1 = 3 /\ historyTailStart frames 1 = 0.
Proof. vm_compute. done. Qed.

(** A call that some update precedes counts as lost, and its later updates can
    be parted from it, although it is among the frames. *)
Example call_after_its_update_is_parted :
  let frames := [call_update_line "x"; call_line "x"; call_update_line "x"; call_update_line "y"] in
  tailStart frames 2 = 2 /\ shapeAt frames 1 = fs_tool_call "x" /\
  shapeAt frames 2 = fs_tool_call_update "x".
Proof. vm_compute. done. Qed.
