(* ===== verification/ReplayCut.v ===== *)
(** Cutting a session's history where a message is rewritten, forked or taken
    back (packages/agent-runtime/src/modules/acp/domain/rewrite-cut.ts, with
    [stripContinuedFrom] of domain/continued-from.ts), and what the cut keeps. *)
From stdpp Require Import base strings list.
From Stdlib Require Import ZArith Lia Ascii.
From S2P Require Import Prelude JsString AcpFrames ReplayTail.
Local Open Scope nat_scope.

(** ** Text of a message *)
Definition CONTINUED_OPEN : string := "<continued-from".
Definition CONTINUED_CLOSE : string := "</continued-from>".

(** What follows the first character [c]. *)
Fixpoint after_char (c : ascii) (s : string) : option string :=
  match s with
  | EmptyString => None
  | String x s => if Ascii.eqb x c then Some s else after_char c s
  end.

(** What follows the first occurrence of [sub]. *)
Fixpoint after_first (sub s : string) : option string :=
  if startsWith s sub then Some (str_drop (String.length sub) s)
  else match s with EmptyString => None | String _ s => after_first sub s end.

(** A match of the block's pattern at the start of [s], and what follows it. *)
Definition after_block (s : string) : option string :=
  if negb (startsWith s CONTINUED_OPEN) then None
  else
    let body :=
      match str_drop (String.length CONTINUED_OPEN) s with
      | String c rest =>
          if Ascii.eqb c ">" then Some rest else if is_ws c then after_char ">" rest else None
      | EmptyString => None
      end in
    match body with
    | Some body => trimStart <$> after_first CONTINUED_CLOSE body
    | None => None
    end.

(** Every match is removed, left to right; [skip] characters are of a match. *)
Fixpoint stripFrom (skip : nat) (s : string) : string :=
  match s with
  | EmptyString => EmptyString
  | String c rest =>
      match skip with
      | S skip => stripFrom skip rest
      | O =>
          match after_block s with
          | Some tail => stripFrom (String.length s - String.length tail - 1) rest
          | None => String c (stripFrom O rest)
          end
      end
  end.

Definition stripContinuedFrom (text : string) : string := stripFrom O text.

(** [text.replace(/\s+/g, " ")] *)
Fixpoint collapse_ws (in_ws : bool) (s : string) : string :=
  match s with
  | EmptyString => EmptyString
  | String c rest =>
      if is_ws c then (if in_ws then collapse_ws true rest else String " " (collapse_ws true rest))
      else String c (collapse_ws false rest)
  end.

(** ** Frames and messages *)
Inductive RewriteCut :=
| cut_start
| cut_after (entry : string) (batch : option string)
| cut_missing
| cut_absent.

Record UpdateFrame := mk_update { uf_line : Line; uf_update : json; uf_platform : json }.

Definition updateFrameOf (line : Line) : option UpdateFrame :=
  match parseFrame line with
  | None => None
  | Some frame =>
      if negb (is_str "session/update" (prop "method" frame)) then None
      else
        match prop "params" frame with
        | Some params =>
            if negb (isNonNullObject (Some params)) then None
            else
              match prop "update" params with
              | Some update =>
                  if isNonNullObject (Some update) then
                    Some (mk_update line update
                            (object_or_empty (prop "platform" (object_or_empty (prop "_meta" params)))))
                  else None
              | None => None
              end
        | None => None
        end
  end.

Definition updateFramesOf (lines : list Line) : list UpdateFrame := omap updateFrameOf lines.

Definition textOf (update : json) : string :=
  let content := prop "content" update in
  if isNonNullObject content && is_str "text" (oprop "type" content)
  then str_of (oprop "text" content) ?? ""%string else ""%string.

Record UserMessage := mk_message { um_ids : list string; um_text : string; um_first : nat }.

(** The id of a user's message chunk. *)
Definition userChunkId (frame : UpdateFrame) : option string :=
  if is_str "user_message_chunk" (prop "sessionUpdate" (uf_update frame))
  then str_of (prop "messageId" (uf_update frame)) else None.

(** The messages still to come from [index] on; [open] is the one being read. *)
Fixpoint messagesFrom (index : nat) (open : option UserMessage) (frames : list UpdateFrame)
  : list UserMessage :=
  match frames with
  | [] => option_list open
  | frame :: frames =>
      match userChunkId frame with
      | None => option_list open ++ messagesFrom (S index) None frames
      | Some id =>
          let m := match open with
                   | Some m => mk_message (set_add id (um_ids m)) (um_text m ++ textOf (uf_update frame)) (um_first m)
                   | None => mk_message [id] (textOf (uf_update frame)) index
                   end in
          messagesFrom (S index) (Some m) frames
      end
  end.

Definition normalText (m : UserMessage) : UserMessage :=
  mk_message (um_ids m) (trim (collapse_ws false (stripContinuedFrom (um_text m)))) (um_first m).

Definition userMessagesOf (frames : list UpdateFrame) : list UserMessage :=
  map normalText (messagesFrom 0 None frames).

Definition holds (messageId : string) (m : UserMessage) : bool := bool_decide (messageId ∈ um_ids m).
Definition sameText (text : string) (m : UserMessage) : bool := String.eqb (um_text m) text.

(** [find] with what follows the message found. *)
Fixpoint find_rest {A} (p : A -> bool) (l : list A) : option (A * list A) :=
  match l with
  | [] => None
  | x :: l => if p x then Some (x, l) else find_rest p l
  end.

Definition laterWithSameText (after : list UserMessage) (text : string) : nat :=
  length (List.filter (sameText text) after).

Definition historyMessageFor (history log : list UserMessage) (messageId : string) : option UserMessage :=
  match find (holds messageId) history with
  | Some direct => Some direct
  | None =>
      match find_rest (holds messageId) log with
      | None => None
      | Some (sent, after) =>
          if negb (truthy (um_text sent)) then None
          else
            let later := laterWithSameText after (um_text sent) in
            let same := List.filter (sameText (um_text sent)) history in
            if later <? length same then same !! (length same - 1 - later) else None
      end
  end.

(** ** Cuts *)
Definition entryOf (f : UpdateFrame) : option string := str_of (prop "entry" (uf_platform f)).
Definition isStamped (f : UpdateFrame) : bool := bool_decide (is_Some (entryOf f)).

Definition cutAbove (frames : list UpdateFrame) (index : nat) : RewriteCut :=
  match find isStamped (rev (take index frames)) with
  | None => cut_start
  | Some above => cut_after (entryOf above ?? ""%string) (frames !! index ≫= entryOf)
  end.

Definition rewriteCutOf (historyLines logLines : list Line) (messageId : string) : option RewriteCut :=
  let frames := updateFramesOf historyLines in
  if negb (existsb isStamped frames) then None
  else
    match historyMessageFor (userMessagesOf frames) (userMessagesOf (updateFramesOf logLines)) messageId with
    | None => Some cut_missing
    | Some target => Some (cutAbove frames (um_first target))
    end.

Definition AGENT_OUTPUT : list string :=
  ["agent_message_chunk"; "agent_thought_chunk"; "tool_call"; "tool_call_update"; "plan"]%string.

(** [AGENT_OUTPUT.has(String(v))]: an array of one name reads as the name. *)
Definition isAgentOutput (f : UpdateFrame) : bool :=
  match prop "sessionUpdate" (uf_update f) with
  | Some v => bool_decide (text_of v ∈ AGENT_OUTPUT)
  | None => false
  end.

Definition takeBackCutOf (historyLines logLines : list Line) (messageId : string) : option RewriteCut :=
  let frames := updateFramesOf historyLines in
  if negb (existsb isStamped frames) then None
  else
    match last (userMessagesOf frames) with
    | None => Some cut_absent
    | Some newest =>
        let sent := find (holds messageId) (userMessagesOf (updateFramesOf logLines)) in
        let holdsMessage :=
          holds messageId newest
          || match sent with
             | Some sent => truthy (um_text sent) && str_includes (um_text newest) (um_text sent)
             | None => false
             end in
        let answered := existsb isAgentOutput (drop (um_first newest) frames) in
        Some (if negb holdsMessage then cut_absent
              else if answered then cut_missing
              else cutAbove frames (um_first newest))
    end.

(** ** Times of a copy *)
(** [a === b] of two parsed values: two objects are never the same one. *)
Definition strict_eq (a b : option json) : bool :=
  match a, b with
  | None, None | Some jnull, Some jnull => true
  | Some (jbool a), Some (jbool b) => Bool.eqb a b
  | Some (jnum a), Some (jnum b) => Z.eqb a b
  | Some (jstr a), Some (jstr b) => String.eqb a b
  | _, _ => false
  end.

Definition sameFrame (a b : UpdateFrame) : bool :=
  strict_eq (prop "sessionUpdate" (uf_update a)) (prop "sessionUpdate" (uf_update b))
  && String.eqb (textOf (uf_update a)) (textOf (uf_update b)).

Definition withAt (line : Line) (at_ : string) : Line :=
  match line with
  | ln_text _ => line
  | ln_json frame =>
      let params := prop "params" frame ?? jnull in
      let meta := object_or_empty (prop "_meta" params) in
      ln_json (with_prop "params"
        (with_prop "_meta"
           (with_prop "platform" (with_prop "at" (jstr at_) (object_or_empty (prop "platform" meta))) meta)
           params) frame)
  end.

Definition atOf (f : UpdateFrame) : option string := str_of (prop "at" (uf_platform f)).

(** [original] is what of the original's frames is still to be compared, [None]
    once the two differed. *)
Fixpoint retime (original : option (list UpdateFrame)) (copyLines : list Line) : list Line :=
  match copyLines with
  | [] => []
  | line :: rest =>
      match original, updateFrameOf line with
      | Some original, Some frame =>
          match original with
          | source :: original =>
              if sameFrame frame source then
                match atOf source with
                | Some at_ =>
                    (if negb (bool_decide (atOf frame = Some at_)) then withAt line at_ else line)
                | None => line
                end :: retime (Some original) rest
              else line :: retime None rest
          | [] => line :: retime None rest
          end
      | _, _ => line :: retime original rest
      end
  end.

Definition withOriginalTimes (copyLines originalLines : list Line) : list Line :=
  retime (Some (updateFramesOf originalLines)) copyLines.

(** ** The batches of a history *)
Section Batches.
Context (all : list UpdateFrame).

Definition chunkAt (i : nat) : option string := all !! i ≫= userChunkId.

(** The frames [[a, b)] are user chunks, and the frame before them is not. *)
Definition run_from (a b : nat) : Prop :=
  a < b /\ b <= length all /\ (forall i, a <= i -> i < b -> is_Some (chunkAt i)) /\
  (forall i, a = S i -> chunkAt i = None).

(** [m] has read the run up to [b]. *)
Definition reads (m : UserMessage) (b : nat) : Prop :=
  run_from (um_first m) b /\
  forall id, id ∈ um_ids m <-> exists i, um_first m <= i /\ i < b /\ chunkAt i = Some id.

(** [m] is a batch: a longest run of user chunks with the ids they carry. *)
Definition is_batch (m : UserMessage) : Prop := exists b, reads m b /\ chunkAt b = None.

Lemma reads_more m b id text :
  reads m b -> chunkAt b = Some id -> reads (mk_message (set_add id (um_ids m)) text (um_first m)) (S b).
Proof.
  intros [(H1 & H2 & H3 & H4) Hi] Hc.
  assert (b < length all) as Hb.
  { unfold chunkAt in Hc. destruct (all !! b) eqn:E; [|done]. by eapply lookup_lt_Some. }
  split; simpl.
  - split_and!; [lia|lia| |done]. intros i Ha Hlt. destruct (decide (i = b)) as [->|]; [by rewrite Hc|].
    apply H3; lia.
  - intros id'. rewrite elem_set_add, Hi. split.
    + intros [->|(i & ? & ? & ?)]; [exists b; split_and!; [lia|lia|done]|exists i; split_and!; [lia|lia|done]].
    + intros (i & ? & ? & Hid). destruct (decide (i = b)) as [->|]; [left; congruence|].
      right. exists i. split_and!; [lia|lia|done].
Qed.

Lemma reads_new b id text :
  chunkAt b = Some id -> (forall i, b = S i -> chunkAt i = None) -> reads (mk_message [id] text b) (S b).
Proof.
  intros Hc Hp. assert (b < length all) as Hb.
  { unfold chunkAt in Hc. destruct (all !! b) eqn:E; [|done]. by eapply lookup_lt_Some. }
  split; simpl.
  - split_and!; [lia|lia| |done]. intros i Ha Hlt. by replace i with b by lia.
  - intros id'. rewrite list_elem_of_singleton. split.
    + intros ->. exists b. split_and!; [lia|lia|done].
    + intros (i & ? & ? & Hid). assert (i = b) as -> by lia. congruence.
Qed.

Definition open_ok (index : nat) (open : option UserMessage) : Prop :=
  match open with
  | Some m => reads m index
  | None => forall i, index = S i -> chunkAt i = None
  end.

Lemma messagesFrom_batches frames : forall index open,
  drop index all = frames -> index <= length all -> open_ok index open ->
  Forall is_batch (messagesFrom index open frames).
Proof.
  induction frames as [|f frames IH]; intros index open Hd Hl Ho; simpl.
  - assert (chunkAt index = None) as Hend.
    { unfold chunkAt. assert (all !! index = None) as ->; [|done].
      apply lookup_ge_None. apply (f_equal length) in Hd. rewrite length_drop in Hd. simpl in Hd. lia. }
    destruct open as [m|]; simpl; [|constructor]. constructor; [by exists index|constructor].
  - assert (all !! index = Some f) as Hf.
    { rewrite <- (Nat.add_0_r index), <- lookup_drop, Hd. done. }
    assert (chunkAt index = userChunkId f) as Hc by (unfold chunkAt; by rewrite Hf).
    assert (drop (S index) all = frames) as Hd'.
    { replace (S index) with (index + 1) by lia. by rewrite <- drop_drop, Hd. }
    assert (S index <= length all) as Hl' by (apply lookup_lt_Some in Hf; lia).
    destruct (userChunkId f) as [id|].
    + apply IH; [done..|]. destruct open as [m|]; simpl in *; [by apply reads_more|by apply reads_new].
    + apply Forall_app. split.
      * destruct open as [m|]; simpl; [|constructor]. constructor; [by exists index|constructor].
      * apply IH; [done..|]. intros i [= <-]. done.
Qed.

Lemma userMessagesOf_batches : Forall is_batch (userMessagesOf all).
Proof.
  unfold userMessagesOf. apply Forall_fmap. eapply Forall_impl; [|by intros m H; exact H].
  apply messagesFrom_batches; [done|lia|]. intros i Hi. lia.
Qed.
End Batches.

(** ** Where a cut falls *)

(** The cut right above place [t]: nothing from [t] on is kept, and of the
    stamped frames above [t] none is lost. *)
Definition right_above (frames : list UpdateFrame) (t : nat) (cut : RewriteCut) : Prop :=
  match cut with
  | cut_start => forall i, i < t -> frames !! i ≫= entryOf = None
  | cut_after entry batch =>
      (exists i, i < t /\ frames !! i ≫= entryOf = Some entry /\
         forall j, i < j -> j < t -> frames !! j ≫= entryOf = None) /\
      batch = frames !! t ≫= entryOf
  | _ => False
  end.

Lemma stamped_entry f : isStamped f = true <-> is_Some (entryOf f).
Proof. unfold isStamped. by rewrite bool_decide_eq_true. Qed.

(** The last frame of a list that is stamped. *)
Lemma find_last_stamped (l : list UpdateFrame) :
  match find isStamped (rev l) with
  | None => forall i, l !! i ≫= entryOf = None
  | Some f => exists i, l !! i = Some f /\ is_Some (entryOf f) /\
                forall j, i < j -> l !! j ≫= entryOf = None
  end.
Proof.
  induction l as [|f l IH] using rev_ind; simpl; [done|].
  rewrite rev_app_distr. simpl. destruct (isStamped f) eqn:E.
  - exists (length l). rewrite lookup_app_r, Nat.sub_diag by lia. split_and!; [done|by apply stamped_entry|].
    intros j Hj. rewrite (lookup_ge_None_2 (l ++ [f])); [done|]. rewrite length_app. simpl. lia.
  - assert (entryOf f = None) as Hn.
    { destruct (entryOf f) eqn:Ee; [|done]. assert (isStamped f = true); [|congruence].
      apply stamped_entry. by rewrite Ee. }
    assert (forall j, l !! j ≫= entryOf = None -> (l ++ [f]) !! j ≫= entryOf = None) as Hj.
    { intros j H. destruct (decide (j < length l)); [by rewrite lookup_app_l|].
      destruct (decide (j = length l)) as [->|]; [rewrite lookup_app_r, Nat.sub_diag by lia; exact Hn|].
      rewrite (lookup_ge_None_2 (l ++ [f])); [done|]. rewrite length_app. simpl. lia. }
    destruct (find isStamped (rev l)) as [g|].
    + destruct IH as (i & Hi & Hs & Hrest). exists i. split_and!; [|done|].
      * rewrite lookup_app_l; [done|]. by eapply lookup_lt_Some.
      * intros j Hij. apply Hj, Hrest, Hij.
    + intros i. apply Hj, IH.
Qed.

Lemma cutAbove_right_above frames t : right_above frames t (cutAbove frames t).
Proof.
  unfold cutAbove. pose proof (find_last_stamped (take t frames)) as H.
  destruct (find isStamped (rev (take t frames))) as [f|]; simpl.
  - destruct H as (i & Hi & [e He] & Hrest). split; [|done]. rewrite He. simpl.
    apply lookup_take_Some in Hi as [Hf Hlt]. exists i. split_and!; [done|by rewrite Hf|].
    intros j Hij Hjt. specialize (Hrest j Hij). rewrite lookup_take_lt in Hrest by done. exact Hrest.
  - intros i Hi. specialize (H i). rewrite lookup_take_lt in H by done. exact H.
Qed.

Lemma find_rest_split {A} (p : A -> bool) l x r :
  find_rest p l = Some (x, r) -> p x = true /\ exists l1, l = l1 ++ x :: r.
Proof.
  induction l as [|y l IH]; simpl; [done|]. destruct (p y) eqn:E.
  - intros [= -> ->]. split; [done|]. by exists [].
  - intros H. destruct (IH H) as (Hp & l1 & ->). split; [done|]. by exists (y :: l1).
Qed.

(** The element of a filtered list that has [n] others after it. *)
Lemma filter_nth_from_end {A} (p : A -> bool) l n x :
  n < length (List.filter p l) -> List.filter p l !! (length (List.filter p l) - 1 - n) = Some x ->
  p x = true /\ exists l1 l2, l = l1 ++ x :: l2 /\ length (List.filter p l2) = n.
Proof.
  induction l as [|y l IH]; simpl; [lia|]. destruct (p y) eqn:E; simpl; intros Hn Hx.
  - destruct (decide (n = length (List.filter p l))) as [->|].
    + rewrite Nat.sub_0_r, Nat.sub_diag in Hx. injection Hx as ->. split; [done|]. by exists [], l.
    + rewrite Nat.sub_0_r in Hx.
      destruct (length (List.filter p l) - n) as [|k] eqn:Ek; [lia|]. simpl in Hx.
      destruct IH as (Hp & l1 & l2 & -> & <-); [lia|by replace (_ - 1 - n) with k by lia|]. split; [done|]. by exists (y :: l1), l2.
  - destruct IH as (Hp & l1 & l2 & -> & <-); [done..|]. split; [done|]. by exists (y :: l1), l2.
Qed.

(** A batch stands for a message the client names: it carries the id, or no
    batch does and it is the one with the text of the message the log echoed
    under the id that as many batches of that text follow as follow the echo. *)
Definition stands_for (history log : list UserMessage) (messageId : string) (m : UserMessage) : Prop :=
  messageId ∈ um_ids m \/
  (forall m', m' ∈ history -> messageId ∉ um_ids m') /\
  exists l1 sent l2 h1 h2,
    log = l1 ++ sent :: l2 /\ history = h1 ++ m :: h2 /\
    messageId ∈ um_ids sent /\ um_text sent <> ""%string /\ um_text m = um_text sent /\
    laterWithSameText h2 (um_text sent) = laterWithSameText l2 (um_text sent).

Lemma historyMessageFor_stands history log messageId m :
  historyMessageFor history log messageId = Some m -> m ∈ history /\ stands_for history log messageId m.
Proof.
  unfold historyMessageFor. destruct (find (holds messageId) history) as [direct|] eqn:Ed.
  { intros [= ->]. apply List.find_some in Ed as [Hin Hh]. apply list_elem_of_In in Hin. split; [done|].
    left. by apply bool_decide_eq_true in Hh. }
  destruct (find_rest (holds messageId) log) as [[sent after]|] eqn:Es; [|done].
  destruct (negb (truthy (um_text sent))) eqn:Et; [done|].
  apply negb_false_iff, truthy_spec in Et.
  destruct (_ <? _) eqn:El; [|done]. apply Nat.ltb_lt in El. intros Hm.
  destruct (filter_nth_from_end _ _ _ _ El Hm) as (Hp & h1 & h2 & -> & Hl).
  apply find_rest_split in Es as (Hh & l1 & ->). apply bool_decide_eq_true in Hh.
  split; [apply elem_of_app; right; by left|]. right. split.
  - intros m' Hin Hid. apply list_elem_of_In in Hin. pose proof (List.find_none _ _ Ed _ Hin) as Hn.
    unfold holds in Hn. by rewrite bool_decide_true in Hn.
  - exists l1, sent, after, h1, h2. split_and!; try done. by apply String.eqb_eq in Hp.
Qed.

(** A rewind or a fork cuts right above the batch of user messages that
    stands for the message named: nothing of the batch is kept, and of the
    harness's entries above it none is lost. *)
Theorem rewrite_cuts_above_batch historyLines logLines messageId cut :
  rewriteCutOf historyLines logLines messageId = Some cut -> cut <> cut_missing ->
  let frames := updateFramesOf historyLines in
  exists m, m ∈ userMessagesOf frames /\ is_batch frames m /\
    stands_for (userMessagesOf frames) (userMessagesOf (updateFramesOf logLines)) messageId m /\
    right_above frames (um_first m) cut.
Proof.
  intros H Hc frames. unfold rewriteCutOf in H. fold frames in H.
  destruct (negb _); [done|]. destruct (historyMessageFor _ _ _) as [m|] eqn:E; [|congruence].
  injection H as <-. apply historyMessageFor_stands in E as [Hin Hs]. exists m. split_and!; [done| |done|].
  - pose proof (userMessagesOf_batches frames) as Hb. rewrite Forall_forall in Hb. by apply Hb.
  - apply cutAbove_right_above.
Qed.

(** Taking back a message cuts right above the newest batch of user
    messages, and only when that batch holds the message and the agent wrote
    nothing since. *)
Theorem take_back_cuts_newest historyLines logLines messageId cut :
  takeBackCutOf historyLines logLines messageId = Some cut -> cut <> cut_missing -> cut <> cut_absent ->
  let frames := updateFramesOf historyLines in
  exists m, last (userMessagesOf frames) = Some m /\ is_batch frames m /\
    (messageId ∈ um_ids m \/
     exists sent, sent ∈ userMessagesOf (updateFramesOf logLines) /\ messageId ∈ um_ids sent /\
       um_text sent <> ""%string /\ str_includes (um_text m) (um_text sent) = true) /\
    (forall i f, um_first m <= i -> frames !! i = Some f -> isAgentOutput f = false) /\
    right_above frames (um_first m) cut.
Proof.
  intros H Hm Ha frames. unfold takeBackCutOf in H. fold frames in H.
  destruct (negb _); [done|]. destruct (last (userMessagesOf frames)) as [m|] eqn:E; [|congruence].
  destruct (negb (_ || _)) eqn:Eh; [congruence|]. destruct (existsb _ (drop _ _)) eqn:Eo; [congruence|].
  injection H as <-. exists m. split_and!; [done| | | |apply cutAbove_right_above].
  - pose proof (userMessagesOf_batches frames) as Hb. rewrite Forall_forall in Hb.
    by apply Hb, last_Some_elem_of.
  - apply negb_false_iff, orb_true_iff in Eh as [Hh|Hs]; [left; by apply bool_decide_eq_true in Hh|]. right.
    destruct (find _ _) as [sent|] eqn:Ef; [|done]. apply andb_true_iff in Hs as [Ht Hi].
    apply List.find_some in Ef as [Hin Hh]. exists sent. split_and!; [by apply list_elem_of_In| |by apply truthy_spec|done].
    by apply bool_decide_eq_true in Hh.
  - intros i f Hi Hf. destruct (isAgentOutput f) eqn:Ea; [|done]. exfalso.
    assert (existsb isAgentOutput (drop (um_first m) frames) = true); [|congruence].
    apply existsb_exists. exists f. split; [|done]. apply list_elem_of_In, list_elem_of_lookup.
    exists (i - um_first m). rewrite lookup_drop. by replace (um_first m + (i - um_first m)) with i by lia.
Qed.

(** ** The times of a copy *)

Lemma method_is_object frame s : is_str s (prop "method" frame) = true -> exists l, frame = jobj l.
Proof. destruct frame; simpl; try done. by eexists. Qed.

Lemma update_is_object params : isNonNullObject (prop "update" params) = true -> exists l, params = jobj l.
Proof. destruct params; simpl; try done. by eexists. Qed.

Lemma updateFrameOf_withAt line f at_ :
  updateFrameOf line = Some f ->
  updateFrameOf (withAt line at_) =
    Some (mk_update (withAt line at_) (uf_update f) (with_prop "at" (jstr at_) (uf_platform f))).
Proof.
  unfold updateFrameOf, parseFrame. destruct line as [frame|]; [|done].
  destruct (isNonNullObject (Some frame)); [|done].
  destruct (is_str "session/update" (prop "method" frame)) eqn:Em; cbn [negb]; [|done].
  destruct (method_is_object _ _ Em) as [l ->].
  destruct (prop "params" (jobj l)) as [params|] eqn:Ep; [|done].
  destruct (isNonNullObject (Some params)) eqn:Eo; cbn [negb]; [|done].
  destruct (prop "update" params) as [update|] eqn:Eu; [|done].
  destruct (isNonNullObject (Some update)) eqn:Ei; [|done]. intros [= <-]. unfold withAt.
  rewrite Ep. cbn [nullish].
  destruct (update_is_object params) as [lp ->]; [by rewrite Eu|].
  rewrite isNonNullObject_with. rewrite prop_with_prop, decide_False by done.
  change (om_get "method" l) with (prop "method" (jobj l)). rewrite Em. cbn [negb].
  rewrite prop_with_prop, decide_True by done. rewrite isNonNullObject_with. cbn [negb].
  rewrite prop_with_prop, decide_False by done. change (om_get "update" lp) with (prop "update" (jobj lp)).
  rewrite Eu, Ei. rewrite prop_with_prop, decide_True by done.
  rewrite object_or_empty_with, prop_with_prop, decide_True by done. by rewrite object_or_empty_with.
Qed.

(** The first [n] frames of both say the same. *)
Definition agree (n : nat) (copy original : list UpdateFrame) : Prop :=
  n <= length original /\
  forall i f o, i < n -> copy !! i = Some f -> original !! i = Some o -> sameFrame f o = true.

Lemma agree_cons n f copy o original :
  agree (S n) (f :: copy) (o :: original) <-> sameFrame f o = true /\ agree n copy original.
Proof.
  unfold agree. simpl. split.
  - intros [Hl H]. split; [by apply (H 0); [lia|..]|]. split; [lia|].
    intros i f' o' Hi. apply (H (S i)). lia.
  - intros (Hs & Hl & H). split; [lia|]. intros [|i] f' o' Hi; simpl; [by intros [= <-] [= <-]|].
    apply H. lia.
Qed.

Lemma retime_none lines : retime None lines = lines.
Proof. induction lines as [|line lines IH]; simpl; [done|]. by rewrite IH. Qed.

(** What a frame at place [k] becomes. *)
Definition retimed (copy original : list UpdateFrame) (k : nat) (f g : UpdateFrame) : Prop :=
  uf_update g = uf_update f /\
  (agree (S k) copy original /\ atOf g = match original !! k ≫= atOf with Some t => Some t | None => atOf f end
   \/ ~ agree (S k) copy original /\ g = f).

Lemma retimed_later copy original f o k :
  sameFrame f o = true -> forall x y, retimed copy original k x y -> retimed (f :: copy) (o :: original) (S k) x y.
Proof.
  intros Hs x y [Hu H]. split; [done|]. simpl. rewrite !agree_cons. naive_solver.
Qed.

Lemma retime_frames lines : forall original k f,
  updateFramesOf lines !! k = Some f ->
  exists g, updateFramesOf (retime (Some original) lines) !! k = Some g /\
    retimed (updateFramesOf lines) original k f g.
Proof.
  induction lines as [|line lines IH]; intros original k f; [done|].
  unfold updateFramesOf. simpl. fold updateFramesOf.
  destruct (updateFrameOf line) as [c|] eqn:Ec; simpl.
  2:{ rewrite Ec. apply IH. }
  destruct original as [|o original].
  { simpl. rewrite Ec, retime_none. intros Hk. exists f. split; [exact Hk|]. split; [done|]. right.
    split; [|done]. intros [H _]. simpl in H. lia. }
  destruct (sameFrame c o) eqn:Es.
  2:{ simpl. rewrite Ec, retime_none. intros Hk. exists f. split; [exact Hk|]. split; [done|]. right.
      split; [|done]. intros [_ H]. specialize (H 0 c o ltac:(lia) eq_refl eq_refl). congruence. }
  set (line' := match atOf o with
                | Some at_ => if negb (bool_decide (atOf c = Some at_)) then withAt line at_ else line
                | None => line end).
  assert (exists g, updateFrameOf line' = Some g /\ uf_update g = uf_update c /\
            atOf g = match atOf o with Some t => Some t | None => atOf c end) as (g & Hg & Hu & Ht).
  { subst line'. destruct (atOf o) as [t|] eqn:Eo; [|by exists c].
    case_bool_decide as Et; simpl; [by exists c|].
    eexists. split; [by apply updateFrameOf_withAt|]. split; [done|].
    unfold atOf. simpl. by rewrite prop_with_prop, decide_True. }
  change (match atOf o with
          | Some at_ => if negb (bool_decide (atOf c = Some at_)) then withAt line at_ else line
          | None => line end) with line'.
  simpl. rewrite Hg. simpl. destruct k as [|k]; simpl.
  - intros [= <-]. exists g. split; [done|]. split; [done|]. left. split; [|exact Ht].
    apply agree_cons. split; [done|]. split; [lia|]. intros i; lia.
  - intros Hk. destruct (IH original k f Hk) as (g' & Hg' & Hr). exists g'. split; [exact Hg'|].
    by apply retimed_later.
Qed.

Lemma retime_lines lines : forall original i line,
  lines !! i = Some line ->
  exists line', retime original lines !! i = Some line' /\
    (line' = line \/ exists t, line' = withAt line t /\ is_Some (updateFrameOf line)).
Proof.
  induction lines as [|l lines IH]; intros original i line; [done|].
  destruct i as [|i]; simpl.
  - intros [= ->]. destruct original as [[|o original]|], (updateFrameOf line) as [c|] eqn:Ec; simpl; try by eauto.
    destruct (sameFrame c o); simpl; [|by eauto]. destruct (atOf o) as [t|]; [|by eauto].
    destruct (negb _); [|by eauto]. eexists. split; [done|]. right. by eauto.
  - intros H. destruct original as [[|o original]|], (updateFrameOf l) as [c|]; simpl; try by apply IH.
    destruct (sameFrame c o); simpl; by apply IH.
Qed.

(** A forked copy takes the times of the session it was cut from, frame for
    frame while the two say the same, and from the first difference on keeps its
    own; nothing but times changes, and no line that is no update. *)
Theorem copy_takes_original_times copyLines originalLines :
  let out := withOriginalTimes copyLines originalLines in
  length out = length copyLines /\
  (forall i line, copyLines !! i = Some line ->
     exists line', out !! i = Some line' /\
       (line' = line \/ exists t, line' = withAt line t /\ is_Some (updateFrameOf line))) /\
  (forall k f, updateFramesOf copyLines !! k = Some f ->
     exists g, updateFramesOf out !! k = Some g /\
       retimed (updateFramesOf copyLines) (updateFramesOf originalLines) k f g).
Proof.
  intros out. subst out. unfold withOriginalTimes. split_and!.
  - generalize (Some (updateFramesOf originalLines)).
    induction copyLines as [|l lines IH]; intros original; simpl; [done|].
    destruct original as [[|o original]|], (updateFrameOf l) as [c|]; simpl; rewrite ?IH; try done.
    destruct (sameFrame c o); simpl; by rewrite IH.
  - intros i line. apply retime_lines.
  - intros k f. apply retime_frames.
Qed.

(** ** A concrete history *)
Definition history_line (kind id text : string) (entry : option string) : Line :=
  ln_json (jobj [("method", jstr "session/update");
    ("params", jobj (
       (match entry with
        | Some e => [("_meta", jobj [("platform", jobj [("entry", jstr e); ("at", jstr e)])])]
        | None => []
        end) ++
       [("update", jobj [("sessionUpdate", jstr kind); ("messageId", jstr id);
           ("content", jobj [("type", jstr "text"); ("text", jstr text)])])])%list)])%string.
Definition sample_history : list Line :=
  [ history_line "user_message_chunk" "h1" "hello" (Some "e1");
    history_line "agent_message_chunk" "h2" "hi" (Some "e2");
    history_line "user_message_chunk" "h3" "do  it" (Some "e3");
    history_line "user_message_chunk" "h4" " now" None;
    history_line "agent_message_chunk" "h5" "done" (Some "e4") ]%string.
Definition sample_log : list Line :=
  [ history_line "user_message_chunk" "p1" "hello" None;
    history_line "user_message_chunk" "p0" "<continued-from label='x'>old</continued-from> " None;
    history_line "agent_message_chunk" "a" "hi" None;
    history_line "user_message_chunk" "p2" "do it now" None ]%string.

Example cut_by_text :
  rewriteCutOf sample_history sample_log "p2" = Some (cut_after "e2" (Some "e3")) /\
  rewriteCutOf sample_history sample_log "h1" = Some cut_start /\
  rewriteCutOf sample_history sample_log "other" = Some cut_missing /\
  takeBackCutOf sample_history sample_log "p2" = Some cut_missing /\
  takeBackCutOf (take 4 sample_history) sample_log "p2" = Some (cut_after "e2" (Some "e3")).
Proof. vm_compute. done. Qed.

Lemma rewrite_cuts_above_batch_witness :
  exists m, m ∈ userMessagesOf (updateFramesOf sample_history) /\
    is_batch (updateFramesOf sample_history) m /\
    stands_for (userMessagesOf (updateFramesOf sample_history))
      (userMessagesOf (updateFramesOf sample_log)) "p2" m /\
    right_above (updateFramesOf sample_history) (um_first m) (cut_after "e2" (Some "e3")).
Proof.
  apply (rewrite_cuts_above_batch sample_history sample_log "p2" (cut_after "e2" (Some "e3")));
    [vm_compute; reflexivity|discriminate].
Defined.

Lemma take_back_cuts_newest_witness :
  exists m, last (userMessagesOf (updateFramesOf (take 4 sample_history))) = Some m /\
    is_batch (updateFramesOf (take 4 sample_history)) m /\
    ("p2"%string ∈ um_ids m \/
     exists sent, sent ∈ userMessagesOf (updateFramesOf sample_log) /\ "p2"%string ∈ um_ids sent /\
       um_text sent <> ""%string /\ str_includes (um_text m) (um_text sent) = true) /\
    (forall i f, um_first m <= i -> updateFramesOf (take 4 sample_history) !! i = Some f -> isAgentOutput f = false) /\
    right_above (updateFramesOf (take 4 sample_history)) (um_first m) (cut_after "e2" (Some "e3")).
Proof.
  apply (take_back_cuts_newest (take 4 sample_history) sample_log "p2" (cut_after "e2" (Some "e3")));
    [vm_compute; reflexivity|discriminate|discriminate].
Defined.
