(* ===== verification/ServedSteers.v ===== *)
(** Steering requests served once
    (packages/agent-runtime/src/modules/acp/services/acp-runtime/served-steers.ts),
    and what makes them right: one answer for all who ask, the first answer
    stands, and the memory of a session is bounded.

    [Served] holds the map of maps.  An event of [sv_log] notes the steer it is
    about; [SAsked], [SLost] and a reply to a closed channel have no effect
    outside. *)
From stdpp Require Import base strings list.
From Stdlib Require Import ZArith Lia.
From S2P Require Import Prelude JsString AcpFrames AgentRequests PromptScheduler.
Local Open Scope nat_scope.

Definition ANSWERS_KEPT_PER_SESSION : nat := 64.
Definition PROMPT_QUEUE_FULL_CODE : string := "PROMPT_QUEUE_FULL".
Definition PROMPT_QUEUE_FULL_MESSAGE : string := "prompt queue full".

#[export] Instance SteerOnlyAnswer_dec : EqDecision SteerOnlyAnswer.
Proof. solve_decision. Defined.

Record Waiter := mk_swaiter { sw_channel : string; sw_id : JsonRpcId }.
#[export] Instance Waiter_dec : EqDecision Waiter.
Proof. solve_decision. Defined.

Record ServedSteer := mk_served { ss_answer : option SteerOnlyAnswer; ss_waiters : list Waiter }.

Inductive SEvent :=
| SAsked (w : Waiter)
| SReply (sessionId promptId : string) (w : Waiter) (answer : SteerOnlyAnswer) (frame : option json)
| SLost (w : Waiter).

Record Served := mk_servedsteers {
  sv_steers : list (string * list (string * ServedSteer));
  sv_log : list SEvent;
}.

Definition createServedSteers : Served := mk_servedsteers [] [].

Definition id_json (id : JsonRpcId) : json := match id with id_num z => jnum z | id_str s => jstr s end.

Definition replyOf (id : JsonRpcId) (answer : SteerOnlyAnswer) : json :=
  let frame body := jobj (("jsonrpc", jstr "2.0") :: ("id", id_json id) :: body)%string in
  let prompt_required reason :=
    frame [("result", jobj [("outcome", jstr "promptRequired"); ("reason", jstr reason)])]%string in
  match answer with
  | sa_injected => frame [("result", jobj [("outcome", jstr "injected")])]%string
  | sa_noRunningTurn => prompt_required "noRunningTurn"%string
  | sa_notYourTurn => prompt_required "notYourTurn"%string
  | sa_queueFull =>
      frame [("error", jobj [("code", jnum (-32000)); ("message", jstr PROMPT_QUEUE_FULL_MESSAGE);
                ("data", jobj [("code", jstr PROMPT_QUEUE_FULL_CODE)])])]%string
  end.

Section Operations.
Context (isOpen : string -> bool).

Definition reply (sessionId promptId : string) (w : Waiter) (answer : SteerOnlyAnswer) : SEvent :=
  SReply sessionId promptId w answer
    (if isOpen (sw_channel w) then Some (replyOf (sw_id w) answer) else None).

Definition servedOf (sessionId : string) (s : Served) : list (string * ServedSteer) :=
  om_get sessionId (sv_steers s) ?? [].

Definition put (sessionId : string) (served : list (string * ServedSteer)) (es : list SEvent)
    (s : Served) : Served :=
  mk_servedsteers (om_set sessionId served (sv_steers s)) (sv_log s ++ es).

Definition isAnswered (kv : string * ServedSteer) : bool := bool_decide (is_Some (ss_answer kv.2)).

Definition keepNewest (served : list (string * ServedSteer)) : list (string * ServedSteer) :=
  let answered := List.filter isAnswered served in
  foldl (fun served kv => om_delete kv.1 served) served
    (take (length answered - ANSWERS_KEPT_PER_SESSION) answered).

Definition replyKnown (sessionId promptId : string) (w : Waiter) (s : Served) : Served * bool :=
  match (om_get sessionId (sv_steers s) ≫= fun served => om_get promptId served) ≫= ss_answer with
  | Some answer =>
      (mk_servedsteers (sv_steers s) (sv_log s ++ [SAsked w; reply sessionId promptId w answer]), true)
  | None => (s, false)
  end.

Definition join (sessionId promptId : string) (w : Waiter) (s : Served) : Served * bool :=
  let served := servedOf sessionId s in
  match om_get promptId served with
  | None => (put sessionId (om_set promptId (mk_served None [w]) served) [SAsked w] s, false)
  | Some known =>
      (match ss_answer known with
       | None => put sessionId (om_set promptId (mk_served None (ss_waiters known ++ [w])) served) [SAsked w] s
       | Some answer => put sessionId served [SAsked w; reply sessionId promptId w answer] s
       end, true)
  end.

Definition settle (sessionId promptId : string) (answer : SteerOnlyAnswer) (s : Served) : Served :=
  match om_get sessionId (sv_steers s) with
  | None => s
  | Some served =>
      match om_get promptId served with
      | None => s
      | Some steer =>
          match ss_answer steer with
          | Some _ => s
          | None =>
              put sessionId (keepNewest (om_set promptId (mk_served (Some answer) []) served))
                (map (fun w => reply sessionId promptId w answer) (ss_waiters steer)) s
          end
      end
  end.

(** The waiters of an object nobody holds any more. *)
Definition lost (served : list (string * ServedSteer)) : list SEvent :=
  flat_map (fun kv => map SLost (ss_waiters kv.2)) served.

Definition drop (sessionId promptId : string) (s : Served) : Served :=
  match om_get sessionId (sv_steers s) with
  | None => s
  | Some served =>
      put sessionId (om_delete promptId served)
        (match om_get promptId served with Some steer => map SLost (ss_waiters steer) | None => [] end) s
  end.

Definition forget (sessionId : string) (s : Served) : Served :=
  mk_servedsteers (om_delete sessionId (sv_steers s)) (sv_log s ++ lost (servedOf sessionId s)).
End Operations.

Inductive ServedOp :=
| sv_replyKnown (sessionId promptId : string) (w : Waiter)
| sv_join (sessionId promptId : string) (w : Waiter)
| sv_settle (sessionId promptId : string) (answer : SteerOnlyAnswer)
| sv_drop (sessionId promptId : string)
| sv_forget (sessionId : string).

Definition served_step (isOpen : string -> bool) (op : ServedOp) (s : Served) : Served :=
  match op with
  | sv_replyKnown k p w => fst (replyKnown isOpen k p w s)
  | sv_join k p w => fst (join isOpen k p w s)
  | sv_settle k p a => settle isOpen k p a s
  | sv_drop k p => drop k p s
  | sv_forget k => forget k s
  end.

Definition served_run (l : list ((string -> bool) * ServedOp)) (s : Served) : Served :=
  foldl (fun s '(isOpen, op) => served_step isOpen op s) s l.

(** ** Invariants *)

(** An answered steer has no waiters, and at most 64 of a session are answered. *)
Definition steer_ok (kv : string * ServedSteer) : Prop := is_Some (ss_answer kv.2) -> ss_waiters kv.2 = [].

Definition session_ok (served : list (string * ServedSteer)) : Prop :=
  NoDup (om_keys served) /\ Forall steer_ok served /\
  length (List.filter isAnswered served) <= ANSWERS_KEPT_PER_SESSION.

Definition served_ok (s : Served) : Prop :=
  NoDup (om_keys (sv_steers s)) /\ Forall (fun kv => session_ok kv.2) (sv_steers s).

Lemma set_Forall {V} (P : string * V -> Prop) k v (m : list (string * V)) :
  P (k, v) -> Forall P m -> Forall P (om_set k v m).
Proof.
  intros Hv. induction 1 as [|[k' v'] m Hx Hm IH]; simpl; [by repeat constructor|].
  case_decide as E; simplify_eq; by constructor.
Qed.

Lemma delete_Forall {V} (P : string * V -> Prop) k (m : list (string * V)) :
  Forall P m -> Forall P (om_delete k m).
Proof. rewrite !Forall_forall. intros H kv Hin. apply H. by apply om_delete_in in Hin as [? _]. Qed.

Lemma get_Forall {V} (P : string * V -> Prop) k v (m : list (string * V)) :
  Forall P m -> om_get k m = Some v -> P (k, v).
Proof. rewrite Forall_forall. intros H Hg. apply H. by apply om_get_Some_in. Qed.

Lemma count_om_set {V} (p : string * V -> bool) k v (m : list (string * V)) :
  NoDup (om_keys m) ->
  count p (om_set k v m) =
    count p m - (match om_get k m with Some v' => if p (k, v') then 1 else 0 | None => 0 end)
    + (if p (k, v) then 1 else 0).
Proof.
  induction m as [|[k' v'] m IH]; simpl; intros Hd; [rewrite !count_cons, count_nil; lia|].
  apply NoDup_cons in Hd as [Hn Hd]. case_decide as E.
  - subst k'. rewrite !count_cons. destruct (p (k, v')); lia.
  - rewrite !count_cons, IH by done. destruct (om_get k m) as [x|] eqn:Eg; [|lia].
    destruct (p (k, x)) eqn:Ep; [|lia].
    assert (1 <= count p m); [|lia]. unfold count. apply om_get_Some_in in Eg.
    assert ((k, x) ∈ List.filter p m) as Hin by (by apply elem_filter).
    destruct (List.filter p m); [by apply elem_of_nil in Hin|simpl; lia].
Qed.

(** *** keepNewest *)
Lemma deletes_elem {V} (ks : list (string * V)) : forall (m : list (string * V)) (kv : string * V),
  kv ∈ foldl (fun served kv => om_delete kv.1 served) m ks <-> kv ∈ m /\ kv.1 ∉ om_keys ks.
Proof.
  induction ks as [|k ks IH]; intros m kv; simpl; [split; [intros; split; [done|apply not_elem_of_nil]|by intros []]|].
  rewrite IH, om_delete_in, not_elem_of_cons. naive_solver.
Qed.

Lemma deletes_NoDup {V} (ks : list (string * V)) : forall (m : list (string * V)),
  NoDup (om_keys m) -> NoDup (om_keys (foldl (fun served kv => om_delete kv.1 served) m ks)).
Proof. induction ks as [|k ks IH]; intros m H; simpl; [done|]. by apply IH, om_delete_NoDup. Qed.

Lemma key_inj {V} (m : list (string * V)) a b : NoDup (om_keys m) -> a ∈ m -> b ∈ m -> a.1 = b.1 -> a = b.
Proof.
  intros Hd Ha Hb E. destruct a as [k v], b as [k' v']. simpl in E. subst k'.
  pose proof (om_in_get _ _ _ Hd Ha). pose proof (om_in_get _ _ _ Hd Hb). congruence.
Qed.

(** What is answered and not among the newest 64 is forgotten; what waits stays. *)
Lemma keepNewest_elem served kv :
  NoDup (om_keys served) ->
  (kv ∈ keepNewest served <->
   kv ∈ served /\
   kv ∉ take (length (List.filter isAnswered served) - ANSWERS_KEPT_PER_SESSION) (List.filter isAnswered served)).
Proof.
  intros Hd. unfold keepNewest. rewrite deletes_elem. split; intros [Hin Hn]; (split; [done|]).
  - intros Ht. apply Hn. by apply list_elem_of_fmap_2.
  - intros Hk. apply list_elem_of_fmap in Hk as (kv' & E & Ht). apply Hn.
    assert (kv' ∈ served) as Hin'.
    { apply elem_of_take in Ht as (i & Hi & _). apply list_elem_of_lookup_2 in Hi.
      by apply elem_filter in Hi as [? _]. }
    by rewrite (key_inj served kv kv').
Qed.

Lemma NoDup_pairs {V} (m : list (string * V)) : NoDup (om_keys m) -> NoDup m.
Proof. intros H. by eapply NoDup_fmap_1. Qed.

Lemma keepNewest_ok served :
  NoDup (om_keys served) -> Forall steer_ok served -> session_ok (keepNewest served).
Proof.
  intros Hd Hs. split_and!; [by apply deletes_NoDup| |].
  - rewrite Forall_forall in *. intros kv Hin. apply Hs. by apply keepNewest_elem in Hin as [? _].
  - set (ans := List.filter isAnswered served). set (n := length ans - ANSWERS_KEPT_PER_SESSION).
    transitivity (length (skipn n ans)).
    2:{ rewrite length_drop. unfold n, ANSWERS_KEPT_PER_SESSION. lia. }
    apply submseteq_length, NoDup_submseteq.
    + apply filter_NoDup, NoDup_pairs, deletes_NoDup, Hd.
    + intros kv [Hin Ha]%elem_filter. apply keepNewest_elem in Hin as [Hin Hn]; [|done].
      assert (kv ∈ ans) as Hk by (by apply elem_filter).
      rewrite <- (take_drop n ans) in Hk. apply elem_of_app in Hk as [|]; [done|done].
Qed.

(** *** The operations *)
Lemma waiting_ok p ws : steer_ok (p, mk_served None ws).
Proof. by intros [? [=]]. Qed.

Lemma session_ok_set_waiting served p ws :
  session_ok served -> (forall steer, om_get p served = Some steer -> ss_answer steer = None) ->
  session_ok (om_set p (mk_served None ws) served).
Proof.
  intros (Hd & Hs & Hl) Hg. split_and!; [by apply om_set_NoDup|apply set_Forall; [apply waiting_ok|done]|].
  change (length (List.filter isAnswered ?l)) with (count isAnswered l).
  rewrite count_om_set by done. unfold isAnswered at 3. simpl. fold (count isAnswered served) in Hl.
  change (length (List.filter isAnswered served)) with (count isAnswered served) in Hl. lia.
Qed.

Lemma servedOf_ok k s : served_ok s -> session_ok (servedOf k s).
Proof.
  intros [_ H]. unfold servedOf. destruct (om_get k (sv_steers s)) as [served|] eqn:E; simpl.
  - exact (get_Forall _ _ _ _ H E).
  - split_and!; [constructor|constructor|simpl; unfold ANSWERS_KEPT_PER_SESSION; lia].
Qed.

Lemma put_ok k served es s : session_ok served -> served_ok s -> served_ok (put k served es s).
Proof. intros H [Hd Hf]. split; simpl; [by apply om_set_NoDup|by apply set_Forall]. Qed.

Lemma served_step_ok isOpen op s : served_ok s -> served_ok (served_step isOpen op s).
Proof.
  intros Hok. destruct op as [k p w|k p w|k p a|k p|k]; simpl.
  - unfold replyKnown. by destruct (_ ≫= ss_answer).
  - unfold join. pose proof (servedOf_ok k s Hok) as Hs.
    destruct (om_get p (servedOf k s)) as [known|] eqn:E; simpl.
    + destruct (ss_answer known) eqn:Ea; apply put_ok; try done.
      apply session_ok_set_waiting; [done|]. intros st Hst. congruence.
    + apply put_ok; [|done]. apply session_ok_set_waiting; [done|]. congruence.
  - unfold settle. destruct (om_get k (sv_steers s)) as [served|] eqn:Ek; [|done].
    destruct (om_get p served) as [steer|] eqn:Ep; [|done]. destruct (ss_answer steer); [done|].
    apply put_ok; [|done]. destruct Hok as [_ Hf]. destruct (get_Forall _ _ _ _ Hf Ek) as (Hd & Hs & _).
    apply keepNewest_ok; [by apply om_set_NoDup|]. by apply set_Forall.
  - unfold drop. destruct (om_get k (sv_steers s)) as [served|] eqn:Ek; [|done]. apply put_ok; [|done].
    destruct Hok as [_ Hf]. destruct (get_Forall _ _ _ _ Hf Ek) as (Hd & Hs & Hl).
    split_and!; [by apply om_delete_NoDup|by apply delete_Forall|].
    etransitivity; [|exact Hl]. apply submseteq_length, NoDup_submseteq.
    + apply filter_NoDup, NoDup_pairs, om_delete_NoDup, Hd.
    + intros kv [Hin Ha]%elem_filter. apply elem_filter. split; [|done]. by apply om_delete_in in Hin as [? _].
  - destruct Hok as [Hd Hf]. split; simpl; [by apply om_delete_NoDup|by apply delete_Forall].
Qed.

Lemma create_served_ok : served_ok createServedSteers.
Proof. split; constructor. Qed.

Lemma served_run_ok l : served_ok (served_run l createServedSteers).
Proof.
  unfold served_run. pose proof create_served_ok as H. revert H. generalize createServedSteers.
  induction l as [|[isOpen op] l IH]; intros s H; simpl; [done|]. by apply IH, served_step_ok.
Qed.

(** *** Who waits, who was answered *)
Section Splits.
Context {V A : Type} (f : string * V -> list A).
Implicit Types m : list (string * V).

Lemma om_split k v m :
  NoDup (om_keys m) -> om_get k m = Some v -> flat_map f m ≡ₚ f (k, v) ++ flat_map f (om_delete k m).
Proof.
  induction m as [|[k' v'] m IH]; simpl; [done|]. intros [Hn Hd]%NoDup_cons H. case_decide as E; simplify_eq.
  - rewrite om_delete_none; [done|]. by apply om_get_None_keys.
  - simpl. rewrite (IH Hd H). solve_Permutation.
Qed.

Lemma om_set_split k v m :
  NoDup (om_keys m) -> flat_map f (om_set k v m) ≡ₚ f (k, v) ++ flat_map f (om_delete k m).
Proof.
  induction m as [|[k' v'] m IH]; simpl; [done|]. intros [Hn Hd]%NoDup_cons. case_decide as E; simplify_eq; simpl.
  - rewrite om_delete_none; [done|]. by apply om_get_None_keys.
  - rewrite (IH Hd). solve_Permutation.
Qed.

Lemma deletes_silent (ks : list (string * V)) : forall m,
  NoDup (om_keys m) -> (forall kv, kv ∈ m -> kv.1 ∈ om_keys ks -> f kv = []) ->
  flat_map f (foldl (fun m kv => om_delete kv.1 m) m ks) ≡ₚ flat_map f m.
Proof.
  induction ks as [|[k v] ks IH]; intros m Hd Hf; simpl; [done|]. rewrite IH.
  - destruct (om_get k m) as [x|] eqn:E; [|by rewrite om_delete_none].
    rewrite (om_split k x m Hd E), (Hf (k, x)); [done|by apply om_get_Some_in|by left].
  - by apply om_delete_NoDup.
  - intros kv Hin Hk. apply Hf; [by apply om_delete_in in Hin as [? _]|by right].
Qed.
End Splits.

Definition waiters_of (kv : string * ServedSteer) : list Waiter := ss_waiters kv.2.
Definition waiting_in (kv : string * list (string * ServedSteer)) : list Waiter := flat_map waiters_of kv.2.
Definition waiting (s : Served) : list Waiter := flat_map waiting_in (sv_steers s).

Definition asked_by (e : SEvent) : list Waiter := match e with SAsked w => [w] | _ => [] end.
Definition replied_by (e : SEvent) : list Waiter := match e with SReply _ _ w _ _ => [w] | _ => [] end.
Definition lost_by (e : SEvent) : list Waiter := match e with SLost w => [w] | _ => [] end.

(** Everyone who asked was answered, waits, or asked about a steer that was let go. *)
Definition in_balance (s : Served) : Prop :=
  flat_map asked_by (sv_log s) ≡ₚ
  flat_map replied_by (sv_log s) ++ flat_map lost_by (sv_log s) ++ waiting s.

Lemma flat_map_singles {A B C} (f : B -> list C) (g : A -> B) (h : A -> C) l :
  (forall a, f (g a) = [h a]) -> flat_map f (map g l) = map h l.
Proof. intros H. induction l as [|a l IH]; simpl; [done|]. by rewrite H, IH. Qed.

Lemma flat_map_silent {A B C} (f : B -> list C) (g : A -> B) l :
  (forall a, f (g a) = []) -> flat_map f (map g l) = [].
Proof. intros H. induction l as [|a l IH]; simpl; [done|]. by rewrite H, IH. Qed.

(** Who waits: those of one session and the others. *)
Lemma waiting_split k s :
  NoDup (om_keys (sv_steers s)) ->
  waiting s ≡ₚ flat_map waiters_of (servedOf k s) ++ flat_map waiting_in (om_delete k (sv_steers s)).
Proof.
  intros Hd. unfold waiting, servedOf. destruct (om_get k (sv_steers s)) as [old|] eqn:E; simpl.
  - by rewrite (om_split waiting_in k old).
  - by rewrite om_delete_none.
Qed.

Lemma put_waiting k served es s :
  NoDup (om_keys (sv_steers s)) ->
  waiting (put k served es s) ≡ₚ flat_map waiters_of served ++ flat_map waiting_in (om_delete k (sv_steers s)).
Proof. intros Hd. unfold waiting. simpl. by rewrite om_set_split. Qed.

(** A write that answers, loses or takes up exactly the difference keeps the balance. *)
Lemma put_balance k served es s :
  NoDup (om_keys (sv_steers s)) -> in_balance s ->
  flat_map asked_by es ++ flat_map waiters_of (servedOf k s) ≡ₚ
  flat_map replied_by es ++ flat_map lost_by es ++ flat_map waiters_of served ->
  in_balance (put k served es s).
Proof.
  intros Hd Hb He. unfold in_balance in *. rewrite (put_waiting k served es s Hd). simpl. rewrite !flat_map_app.
  rewrite (waiting_split k s Hd) in Hb. set (rest := flat_map waiting_in _) in *.
  assert (flat_map asked_by (sv_log s) ++ flat_map asked_by es ≡ₚ
    flat_map replied_by (sv_log s) ++ flat_map lost_by (sv_log s) ++ rest ++
      (flat_map asked_by es ++ flat_map waiters_of (servedOf k s))) as H by (rewrite Hb; solve_Permutation).
  rewrite H, He. solve_Permutation.
Qed.

Lemma servedOf_some k served s : om_get k (sv_steers s) = Some served -> servedOf k s = served.
Proof. unfold servedOf. by intros ->. Qed.

Lemma keepNewest_waiters served :
  NoDup (om_keys served) -> Forall steer_ok served ->
  flat_map waiters_of (keepNewest served) ≡ₚ flat_map waiters_of served.
Proof.
  intros Hd Hs. apply deletes_silent; [done|]. intros kv Hin Hk.
  apply list_elem_of_fmap in Hk as (kv' & E & Ht).
  assert (kv' ∈ List.filter isAnswered served) as Ha.
  { apply elem_of_take in Ht as (i & Hi & _). by eapply list_elem_of_lookup_2. }
  apply elem_filter in Ha as [Hin' Ha]. rewrite (key_inj served kv kv') by done.
  rewrite Forall_forall in Hs. apply (Hs kv' Hin'). unfold isAnswered in Ha.
  by apply bool_decide_eq_true in Ha.
Qed.

Lemma lost_waiters served : flat_map lost_by (lost served) = flat_map waiters_of served.
Proof.
  unfold lost. induction served as [|kv l IH]; simpl; [done|]. rewrite flat_map_app, IH.
  rewrite (flat_map_singles _ _ id) by done. by rewrite map_id.
Qed.

Lemma lost_silent {A} (f : SEvent -> list A) served : (forall w, f (SLost w) = []) -> flat_map f (lost served) = [].
Proof.
  intros H. unfold lost. induction served as [|kv l IH]; simpl; [done|]. by rewrite flat_map_app, IH, flat_map_silent.
Qed.

Lemma served_step_balance isOpen op s :
  served_ok s -> in_balance s -> in_balance (served_step isOpen op s).
Proof.
  intros Hok Hb. pose proof Hok as [Hd Hf].
  destruct op as [k p w|k p w|k p a|k p|k]; simpl.
  - unfold replyKnown. destruct (_ ≫= ss_answer); [|done]. unfold in_balance, waiting in *. simpl.
    rewrite !flat_map_app. simpl. rewrite Hb. solve_Permutation.
  - unfold join. destruct (servedOf_ok k s Hok) as (Hdk & Hsk & _).
    destruct (om_get p (servedOf k s)) as [known|] eqn:E; simpl.
    + destruct (ss_answer known) eqn:Ea; (apply put_balance; [done..|]); [done|].
      rewrite om_set_split, (om_split waiters_of p known (servedOf k s)) by done. unfold waiters_of at 1 3. simpl.
      solve_Permutation.
    + apply put_balance; [done..|]. rewrite om_set_split by done. rewrite om_delete_none by done. done.
  - unfold settle. destruct (om_get k (sv_steers s)) as [served|] eqn:Ek; [|done].
    destruct (om_get p served) as [steer|] eqn:Ep; [|done]. destruct (ss_answer steer); [done|].
    destruct (get_Forall _ _ _ _ Hf Ek) as (Hdk & Hsk & _). apply put_balance; [done..|].
    rewrite (servedOf_some k served s Ek), keepNewest_waiters by (first [by apply om_set_NoDup | by apply set_Forall]).
    rewrite om_set_split, (om_split waiters_of p steer served) by done.
    rewrite (flat_map_silent asked_by), (flat_map_silent lost_by), (flat_map_singles replied_by _ id) by done.
    by rewrite map_id.
  - unfold drop. destruct (om_get k (sv_steers s)) as [served|] eqn:Ek; [|done].
    destruct (get_Forall _ _ _ _ Hf Ek) as (Hdk & Hsk & _). apply put_balance; [done..|].
    rewrite (servedOf_some k served s Ek). destruct (om_get p served) as [steer|] eqn:Ep.
    + rewrite (om_split waiters_of p steer served) by done.
      rewrite (flat_map_silent asked_by), (flat_map_silent replied_by), (flat_map_singles lost_by _ id) by done.
      by rewrite map_id.
    + by rewrite om_delete_none.
  - unfold forget, in_balance in *. simpl. rewrite !flat_map_app.
    rewrite !(lost_silent asked_by), !(lost_silent replied_by), lost_waiters by done.
    rewrite (waiting_split k s Hd) in Hb. unfold waiting. simpl. rewrite !app_nil_r, Hb. solve_Permutation.
Qed.

(** ** Theorems *)

(** Everyone who asks about a steer is answered once, still waits, or asked
    about a steer that was dropped or forgotten; and no session keeps more than
    64 answers, whatever is asked. *)
Theorem everyone_is_answered_once l :
  let s := served_run l createServedSteers in
  flat_map asked_by (sv_log s) ≡ₚ flat_map replied_by (sv_log s) ++ flat_map lost_by (sv_log s) ++ waiting s /\
  forall k, count isAnswered (servedOf k s) <= ANSWERS_KEPT_PER_SESSION.
Proof.
  intros s. split; [|intros k; by apply (servedOf_ok k), served_run_ok].
  assert (in_balance s); [|done]. subst s. unfold served_run.
  pose proof create_served_ok as Hok. assert (in_balance createServedSteers) as Hb by (unfold in_balance; done).
  revert Hok Hb. generalize createServedSteers.
  induction l as [|[isOpen op] l IH]; intros s Hok Hb; simpl; [done|].
  apply IH; [by apply served_step_ok|by apply served_step_balance].
Qed.

Definition answerOf (k p : string) (s : Served) : option SteerOnlyAnswer :=
  (om_get k (sv_steers s) ≫= fun served => om_get p served) ≫= ss_answer.

(** The operations that may make the runtime forget an answer. *)
Definition may_forget (k p : string) (op : ServedOp) (s : Served) : Prop :=
  match op with
  | sv_drop k' p' => k' = k /\ p' = p
  | sv_forget k' => k' = k
  | sv_settle k' p' _ => k' = k /\ p' <> p /\ count isAnswered (servedOf k s) = ANSWERS_KEPT_PER_SESSION
  | _ => False
  end.

(** What an operation tells about a steer. *)
Definition told (k p : string) (es : list SEvent) : list SteerOnlyAnswer :=
  flat_map (fun e => match e with
                     | SReply k' p' _ a _ => if decide (k' = k /\ p' = p) then [a] else []
                     | _ => []
                     end) es.

Lemma told_replies k p k' p' ws isOpen a :
  Forall (eq a) (told k' p' (map (fun w => reply isOpen k p w a) ws)).
Proof.
  unfold told, reply. induction ws as [|w ws IH]; simpl; [constructor|]. case_decide; simpl; [by constructor|done].
Qed.

Lemma answerOf_put k p k' served es s :
  answerOf k p (put k' served es s) =
    if decide (k = k') then om_get p served ≫= ss_answer else answerOf k p s.
Proof.
  unfold answerOf, put. simpl. rewrite om_get_set. by case_decide.
Qed.

Lemma answerOf_servedOf k p s : answerOf k p s = om_get p (servedOf k s) ≫= ss_answer.
Proof. unfold answerOf, servedOf. by destruct (om_get k (sv_steers s)). Qed.

Lemma keepNewest_get served :
  NoDup (om_keys served) -> count isAnswered served <= ANSWERS_KEPT_PER_SESSION ->
  keepNewest served = served.
Proof.
  intros Hd Hc. unfold keepNewest. unfold count in Hc.
  by replace (length (List.filter isAnswered served) - ANSWERS_KEPT_PER_SESSION) with 0 by lia.
Qed.

(** The first answer of a steer stands: once it is answered, every later request
    for it is told the same, and it is told nothing else. It is forgotten only
    when it is dropped, its session is forgotten, or another steer of a session
    that keeps 64 answers is answered. *)
Theorem first_answer_stands l isOpen op k p a :
  let s := served_run l createServedSteers in
  answerOf k p s = Some a ->
  let s' := served_step isOpen op s in
  exists es, sv_log s' = sv_log s ++ es /\ Forall (eq a) (told k p es) /\
    (answerOf k p s' = Some a \/ may_forget k p op s).
Proof.
  intros s Ha s'. assert (served_ok s) as Hok by apply served_run_ok. subst s'. clearbody s.
  rewrite answerOf_servedOf in Ha. destruct (servedOf_ok k s Hok) as (Hdk & Hsk & Hlk).
  destruct op as [k' p' w|k' p' w|k' p' a'|k' p'|k']; simpl.
  - unfold replyKnown, told, reply. fold (answerOf k' p' s). destruct (answerOf k' p' s) as [b|] eqn:Eb; simpl.
    + eexists. split; [done|]. split.
      * simpl. case_decide as E; simpl; [|constructor]. destruct E as [-> ->].
        rewrite answerOf_servedOf in Eb. repeat constructor. congruence.
      * left. unfold answerOf. simpl. fold (answerOf k p s). by rewrite answerOf_servedOf.
    + exists []. rewrite app_nil_r. split_and!; [done|constructor|left; by rewrite answerOf_servedOf].
  - unfold join, told, reply. destruct (om_get p' (servedOf k' s)) as [known|] eqn:Ek; simpl.
    + destruct (ss_answer known) as [b|] eqn:Eb; simpl; (eexists; split; [done|]); split.
      * simpl. case_decide as E; simpl; [|constructor]. destruct E as [-> ->].
        rewrite Ek in Ha. simpl in Ha. repeat constructor. congruence.
      * left. rewrite answerOf_put. case_decide; [by subst|by rewrite answerOf_servedOf].
      * constructor.
      * left. rewrite answerOf_put. case_decide; [subst|by rewrite answerOf_servedOf].
        rewrite om_get_set. case_decide; [subst|done]. rewrite Ek in Ha. simpl in Ha. congruence.
    + eexists. split; [done|]. split; [constructor|]. left. rewrite answerOf_put.
      case_decide; [subst|by rewrite answerOf_servedOf]. rewrite om_get_set. case_decide; [subst|done].
      by rewrite Ek in Ha.
  - unfold settle, told, reply.
    assert (exists es, sv_log s = sv_log s ++ es /\ Forall (eq a) (told k p es) /\
      (answerOf k p s = Some a \/ k' = k /\ p' <> p /\ count isAnswered (servedOf k s) = ANSWERS_KEPT_PER_SESSION)) as Hsame.
    { exists []. rewrite app_nil_r, answerOf_servedOf. split_and!; [done|constructor|by left]. }
    destruct (om_get k' (sv_steers s)) as [served|] eqn:Es; [|done].
    destruct (om_get p' served) as [steer|] eqn:Ep; [|done].
    destruct (ss_answer steer) eqn:Est; [done|]. simpl.
    eexists. split; [done|]. rewrite answerOf_put.
    destruct (decide (k = k')) as [->|Hk].
    2:{ split; [|left; by rewrite answerOf_servedOf]. induction (ss_waiters steer) as [|w ws IH]; simpl; [constructor|].
        rewrite decide_False; [done|]. intros [? _]. congruence. }
    rewrite (servedOf_some k' served s Es) in *.
    assert (p' <> p) as Hp by (intros ->; rewrite Ep in Ha; simpl in Ha; congruence).
    split.
    + induction (ss_waiters steer) as [|w ws IH]; simpl; [constructor|].
      rewrite decide_False; [done|]. intros [_ ?]. congruence.
    + destruct (decide (count isAnswered served = ANSWERS_KEPT_PER_SESSION)) as [|Hc]; [by right|]. left.
      rewrite keepNewest_get; [rewrite om_get_set, decide_False by congruence; done|by apply om_set_NoDup|].
      rewrite count_om_set by done. rewrite Ep. unfold isAnswered at 2 3. simpl.
      change (length (List.filter isAnswered served)) with (count isAnswered served) in Hlk. rewrite Est.
      destruct (bool_decide _); lia.
  - unfold drop, told. destruct (om_get k' (sv_steers s)) as [served|] eqn:Es.
    2:{ exists []. rewrite app_nil_r, answerOf_servedOf. split_and!; [done|constructor|by left]. }
    eexists. split; [done|]. split.
    { destruct (om_get p' served) as [st|]; [|constructor]. induction (ss_waiters st); simpl; first [constructor|done]. }
    rewrite answerOf_put. destruct (decide (k = k')) as [->|]; [|left; by rewrite answerOf_servedOf].
    rewrite (servedOf_some k' served s Es) in Ha. rewrite om_get_delete. case_decide; [by right|by left].
  - unfold told. eexists. split; [done|]. split.
    { unfold lost. induction (servedOf k' s) as [|kv m IH]; simpl; [constructor|].
      rewrite flat_map_app, flat_map_silent by done. done. }
    destruct (decide (k' = k)) as [->|]; [by right|left]. unfold answerOf. simpl. rewrite om_get_delete, decide_False by done.
    fold (answerOf k p s). by rewrite answerOf_servedOf.
Qed.

(** The answers kept are those of the newest steers, not the newest answers: a
    steer that waited while 64 later ones were answered is forgotten as soon as
    it is answered, and one sent again is served anew. *)
Definition steer_name (n : nat) : string := String (Ascii.ascii_of_nat n) EmptyString.
Definition late_answer_run : list ((string -> bool) * ServedOp) :=
  map (pair (fun _ => true))
    (map (fun n => sv_join "s" (steer_name n) (mk_swaiter "c" (id_num (Z.of_nat n)))) (seq 0 65)
     ++ map (fun n => sv_settle "s" (steer_name n) sa_injected) (seq 1 64 ++ [0])).

Theorem late_answer_is_forgotten :
  let s := served_run late_answer_run createServedSteers in
  last (sv_log s) = Some (SReply "s" (steer_name 0) (mk_swaiter "c" (id_num 0)) sa_injected
                            (Some (replyOf (id_num 0) sa_injected))) /\
  snd (replyKnown (fun _ => true) "s" (steer_name 0) (mk_swaiter "c" (id_num 65)) s) = false /\
  snd (join (fun _ => true) "s" (steer_name 0) (mk_swaiter "c" (id_num 65)) s) = false.
Proof. vm_compute. done. Qed.

Lemma first_answer_stands_witness :
  let s := served_run [((fun _ => true), sv_join "s" "p" (mk_swaiter "c" (id_num 1)));
                       ((fun _ => true), sv_settle "s" "p" sa_injected)] createServedSteers in
  exists es, sv_log (served_step (fun _ => true) (sv_join "s" "p" (mk_swaiter "c" (id_num 2))) s) = sv_log s ++ es /\
    Forall (eq sa_injected) (told "s" "p" es) /\
    (answerOf "s" "p" (served_step (fun _ => true) (sv_join "s" "p" (mk_swaiter "c" (id_num 2))) s) = Some sa_injected
     \/ may_forget "s" "p" (sv_join "s" "p" (mk_swaiter "c" (id_num 2))) s).
Proof.
  apply (first_answer_stands [((fun _ => true), sv_join "s" "p" (mk_swaiter "c" (id_num 1)));
                       ((fun _ => true), sv_settle "s" "p" sa_injected)] (fun _ => true)
           (sv_join "s" "p" (mk_swaiter "c" (id_num 2))) "s" "p" sa_injected). reflexivity.
Defined.
