(* ===== verification/HarnessActivity.v ===== *)
(** Whether the harness works on its own
    (packages/agent-runtime/src/modules/acp/services/acp-runtime/harness-activity.ts),
    and what makes it right: a session told busy is told idle once, never while
    a tool call is open, and a silent one is not busy for ever.

    A timer is its due time; firing it is a step of its own. *)
From stdpp Require Import base strings list.
From Stdlib Require Import ZArith Lia.
From S2P Require Import Prelude JsString.
Local Open Scope Z_scope.

Definition DEFAULT_PRESUME_IDLE_MS : Z := 10 * 60 * 1000.

Record ToolCallState := mk_toolcall { tc_toolCallId : string; tc_started : bool; tc_settled : bool }.
Record BusySession := mk_busy { bs_timer : Z; bs_openCalls : list string }.

Inductive HEvent := HBusy (sessionId : string) | HIdle (sessionId : string).

Record Activity := mk_activity { ha_busy : list (string * BusySession); ha_log : list HEvent }.
Definition createHarnessActivity : Activity := mk_activity [] [].

(** What an operation reads: the clock and [mayPresumeIdle]. *)
Record HDeps := mk_hdeps { hd_now : Z; hd_mayPresumeIdle : string -> bool; hd_presumeIdleMs : option Z }.

Section Operations.
Context (d : HDeps).

Definition presumeIdleMs : Z := hd_presumeIdleMs d ?? DEFAULT_PRESUME_IDLE_MS.

Definition arm (sessionId : string) (entry : BusySession) (s : Activity) : Activity :=
  mk_activity (om_set sessionId (mk_busy (hd_now d + presumeIdleMs) (bs_openCalls entry)) (ha_busy s)) (ha_log s).

Definition settle (sessionId : string) (s : Activity) : Activity :=
  if om_has sessionId (ha_busy s)
  then mk_activity (om_delete sessionId (ha_busy s)) (ha_log s ++ [HIdle sessionId]) else s.

Definition presumeIdle (sessionId : string) (s : Activity) : Activity :=
  match om_get sessionId (ha_busy s) with
  | None => s
  | Some entry =>
      if (0 <? length (bs_openCalls entry))%nat || negb (hd_mayPresumeIdle d sessionId)
      then arm sessionId entry s else settle sessionId s
  end.

Definition report (sessionId : string) (isBusy : bool) (s : Activity) : Activity :=
  if negb isBusy then settle sessionId s
  else
    match om_get sessionId (ha_busy s) with
    | Some existing => arm sessionId existing s
    | None =>
        let s := arm sessionId (mk_busy 0 []) s in
        mk_activity (ha_busy s) (ha_log s ++ [HBusy sessionId])
    end.

Definition noteUpdate (sessionId : string) (call : option ToolCallState) (s : Activity) : Activity :=
  match om_get sessionId (ha_busy s) with
  | None => s
  | Some entry =>
      let calls :=
        match call with
        | None => bs_openCalls entry
        | Some call =>
            if tc_settled call
            then List.filter (fun id => negb (String.eqb id (tc_toolCallId call))) (bs_openCalls entry)
            else if decide (tc_toolCallId call ∈ bs_openCalls entry) then bs_openCalls entry
            else bs_openCalls entry ++ [tc_toolCallId call]
        end in
      arm sessionId (mk_busy (bs_timer entry) calls) s
  end.

Definition isBusy (sessionId : string) (s : Activity) : bool := om_has sessionId (ha_busy s).
Definition busySessions (s : Activity) : list string := om_keys (ha_busy s).

Definition forget (sessionId : string) (s : Activity) : Activity :=
  mk_activity (om_delete sessionId (ha_busy s)) (ha_log s).

Definition clear (s : Activity) : Activity := mk_activity [] (ha_log s).

(** The timer of a session, when it is due. *)
Definition timerFired (sessionId : string) (s : Activity) : Activity :=
  match om_get sessionId (ha_busy s) with
  | Some entry => if bs_timer entry <=? hd_now d then presumeIdle sessionId s else s
  | None => s
  end.
End Operations.

Inductive ActivityOp :=
| ha_report (sessionId : string) (isBusy : bool)
| ha_noteUpdate (sessionId : string) (call : option ToolCallState)
| ha_timer (sessionId : string)
| ha_forget (sessionId : string)
| ha_clear.

Definition activity_step (d : HDeps) (op : ActivityOp) (s : Activity) : Activity :=
  match op with
  | ha_report k b => report d k b s
  | ha_noteUpdate k c => noteUpdate d k c s
  | ha_timer k => timerFired d k s
  | ha_forget k => forget k s
  | ha_clear => clear s
  end.

Definition activity_run (l : list (HDeps * ActivityOp)) (s : Activity) : Activity :=
  foldl (fun s '(d, op) => activity_step d op s) s l.

(** ** What is told *)

Definition about (k : string) (op : ActivityOp) : bool :=
  match op with
  | ha_report k' _ | ha_noteUpdate k' _ | ha_timer k' | ha_forget k' => String.eqb k' k
  | ha_clear => true
  end.

Lemma isBusy_arm d k k' entry s :
  isBusy k (arm d k' entry s) = if decide (k = k') then true else isBusy k s.
Proof. unfold isBusy, arm. simpl. by rewrite om_has_set. Qed.

Lemma busy_get k s : isBusy k s = true <-> is_Some (om_get k (ha_busy s)).
Proof. unfold isBusy, om_has. destruct (om_get k _); split; done. Qed.

(** An operation on another session leaves a session alone. *)
Lemma step_other d op s k :
  about k op = false -> om_get k (ha_busy (activity_step d op s)) = om_get k (ha_busy s).
Proof.
  destruct op as [k' b|k' c|k'|k'|]; simpl; try done; intros Hk%String.eqb_neq.
  - unfold report, settle, arm. destruct b; simpl.
    + destruct (om_get k' (ha_busy s)); simpl; by rewrite om_get_set, decide_False.
    + destruct (om_has k' _); simpl; [|done]. by rewrite om_get_delete, decide_False.
  - unfold noteUpdate, arm. destruct (om_get k' (ha_busy s)); simpl; [|done]. by rewrite om_get_set, decide_False.
  - unfold timerFired, presumeIdle, settle, arm. destruct (om_get k' (ha_busy s)); [|done].
    destruct (_ <=? _); [|done]. destruct (_ || _); simpl; [by rewrite om_get_set, decide_False|].
    destruct (om_has k' _); simpl; [|done]. by rewrite om_get_delete, decide_False.
  - by rewrite om_get_delete, decide_False.
Qed.

(** Why a session is taken for idle. *)
Definition idle_cause (d : HDeps) (op : ActivityOp) (k : string) (s : Activity) : Prop :=
  op = ha_report k false \/
  op = ha_timer k /\ exists entry, om_get k (ha_busy s) = Some entry /\
    bs_timer entry <= hd_now d /\ bs_openCalls entry = [] /\ hd_mayPresumeIdle d k = true.

(** What an operation on the session [k] tells. *)
Definition tells (d : HDeps) (op : ActivityOp) (k : string) (s s' : Activity) : Prop :=
  (ha_log s' = ha_log s /\ (isBusy k s' = isBusy k s \/ op = ha_forget k /\ isBusy k s' = false
                            \/ op = ha_clear /\ isBusy k s' = false)) \/
  (ha_log s' = ha_log s ++ [HBusy k] /\ op = ha_report k true /\ isBusy k s = false /\ isBusy k s' = true) \/
  (ha_log s' = ha_log s ++ [HIdle k] /\ idle_cause d op k s /\ isBusy k s = true /\ isBusy k s' = false).

Lemma settle_tells d op k s :
  idle_cause d op k s -> tells d op k s (settle k s).
Proof.
  intros Hc. unfold settle. destruct (om_has k (ha_busy s)) eqn:E; [|left; split; [done|by left]].
  right. right. simpl. split_and!; [done|done|done|]. unfold isBusy. simpl.
  by rewrite om_has_delete, decide_True.
Qed.

Lemma same_tells d op k s s' :
  ha_log s' = ha_log s -> isBusy k s' = isBusy k s -> tells d op k s s'.
Proof. intros H1 H2. left. split; [done|by left]. Qed.

Lemma own_step_tells d op s k :
  about k op = true -> op <> ha_clear -> tells d op k s (activity_step d op s).
Proof.
  destruct op as [k' b|k' c|k'|k'|]; simpl; try done; intros ->%String.eqb_eq _.
  - unfold report. destruct b; simpl; [|by apply settle_tells; left].
    destruct (om_get k (ha_busy s)) as [entry|] eqn:E.
    + apply same_tells; [done|]. rewrite isBusy_arm, decide_True by done. symmetry. apply busy_get. by rewrite E.
    + right. left. simpl. split_and!; [done|done|by unfold isBusy, om_has; rewrite E|].
      unfold isBusy. simpl. by rewrite om_has_set, decide_True.
  - unfold noteUpdate. destruct (om_get k (ha_busy s)) as [entry|] eqn:E; [|by apply same_tells].
    apply same_tells; [done|]. rewrite isBusy_arm, decide_True by done. symmetry. apply busy_get. by rewrite E.
  - unfold timerFired, presumeIdle. destruct (om_get k (ha_busy s)) as [entry|] eqn:E; [|by apply same_tells].
    destruct (bs_timer entry <=? hd_now d) eqn:Et; [|by apply same_tells].
    destruct (_ || _) eqn:Eo.
    + apply same_tells; [done|]. rewrite isBusy_arm, decide_True by done. symmetry. apply busy_get. by rewrite E.
    + apply settle_tells. right. split; [done|]. exists entry. apply orb_false_iff in Eo as [Eo Em].
      apply Z.leb_le in Et. apply negb_false_iff in Em. split_and!; [done..| |done].
      by destruct (bs_openCalls entry).
  - left. split; [done|]. right. left. split; [done|]. unfold isBusy. simpl. by rewrite om_has_delete, decide_True.
Qed.

(** A session is told busy when the harness first reports it busy, and idle
    once: when the harness reports it idle, or when its backstop fires with no
    tool call open and nothing that forbids to presume it idle. Nothing else
    is told of it, only a forgotten session, or a clear, ends it untold, and an
    operation on another session tells of that one. *)
Theorem busy_is_told_once d op s k :
  tells d op k s (activity_step d op s) \/
  (exists k', k' <> k /\ tells d op k' s (activity_step d op s)) /\
    isBusy k (activity_step d op s) = isBusy k s.
Proof.
  destruct (about k op) eqn:Ea.
  - left. destruct op as [k' b|k' c|k'|k'|]; try by apply own_step_tells.
    left. split; [done|]. right. by right.
  - right. split; [|pose proof (step_other d op s k Ea) as Hg; unfold isBusy, om_has; by rewrite Hg].
    assert (exists k', k' <> k /\ about k' op = true /\ op <> ha_clear) as (k' & Hk & Ha & Hc).
    { destruct op as [k' b|k' c|k'|k'|]; simpl in *; try done; apply String.eqb_neq in Ea;
        exists k'; split_and!; try done; apply str_eqb_refl. }
    exists k'. split; [done|]. by apply own_step_tells.
Qed.

(** The backstop is set by the last thing heard of a session. *)
Definition hears (k : string) (op : ActivityOp) : bool :=
  match op with
  | ha_report k' b => String.eqb k' k && b
  | ha_noteUpdate k' _ => String.eqb k' k
  | _ => false
  end.

Lemma heard_arms d op s k :
  hears k op = true -> isBusy k (activity_step d op s) = true ->
  exists entry, om_get k (ha_busy (activity_step d op s)) = Some entry /\
                bs_timer entry = hd_now d + presumeIdleMs d.
Proof.
  destruct op as [k' b|k' c|k'|k'|]; simpl; try done.
  - intros [->%String.eqb_eq ->]%andb_true_iff. unfold report. simpl.
    destruct (om_get k (ha_busy s)); simpl; intros _; rewrite om_get_set, decide_True by done; by eexists.
  - intros ->%String.eqb_eq. unfold noteUpdate. destruct (om_get k (ha_busy s)) eqn:E.
    + intros _. simpl. rewrite om_get_set, decide_True by done. by eexists.
    + unfold isBusy, om_has. by rewrite E.
Qed.

(** Nothing is heard of [k], and its timer fires only before it is due. *)
Definition silent (k : string) (due : Z) (st : HDeps * ActivityOp) : Prop :=
  about k st.2 = false \/ st.2 = ha_timer k /\ hd_now st.1 < due.

Lemma silent_keeps k entry l s :
  Forall (silent k (bs_timer entry)) l -> om_get k (ha_busy s) = Some entry ->
  om_get k (ha_busy (activity_run l s)) = Some entry.
Proof.
  intros Hl. revert s. induction Hl as [|[d op] l Hop _ IH]; intros s Hg; [done|].
  change (om_get k (ha_busy (activity_run l (activity_step d op s))) = Some entry). apply IH.
  destruct Hop as [Ha|[Ho Hd]]; simpl in *; [by rewrite step_other|]. subst op. simpl. unfold timerFired.
  rewrite Hg. by rewrite (proj2 (Z.leb_gt _ _) Hd).
Qed.

(** A busy session of which nothing more is heard is idle when the backstop's
    period after the last thing heard is over, unless a tool call is open or
    something forbids it, and then its timer is armed anew. *)
Theorem silent_session_ends d op s k l d' :
  hears k op = true -> isBusy k (activity_step d op s) = true ->
  let due := hd_now d + presumeIdleMs d in
  Forall (silent k due) l -> due <= hd_now d' ->
  let before := activity_run l (activity_step d op s) in
  let after := activity_step d' (ha_timer k) before in
  exists entry, om_get k (ha_busy before) = Some entry /\
    if (0 <? length (bs_openCalls entry))%nat || negb (hd_mayPresumeIdle d' k)
    then exists entry', om_get k (ha_busy after) = Some entry' /\ ha_log after = ha_log before /\
           bs_timer entry' = hd_now d' + presumeIdleMs d'
    else isBusy k after = false /\ ha_log after = ha_log before ++ [HIdle k].
Proof.
  intros Hh Hb due Hl Hd before after. destruct (heard_arms d op s k Hh Hb) as (entry & He & Ht).
  assert (om_get k (ha_busy before) = Some entry) as Hk.
  { apply silent_keeps; [|done]. by rewrite Ht. }
  exists entry. split; [done|]. subst after. simpl. unfold timerFired, presumeIdle. rewrite Hk.
  rewrite (proj2 (Z.leb_le _ _)) by (rewrite Ht; exact Hd).
  destruct (_ || _).
  - eexists. simpl. by rewrite om_get_set, decide_True.
  - unfold settle, om_has. rewrite Hk. simpl. split; [|done]. unfold isBusy. simpl.
    by rewrite om_has_delete, decide_True.
Qed.

Definition at_ms (now : Z) : HDeps := mk_hdeps now (fun _ => true) None.

Lemma silent_session_ends_witness :
  exists entry, Some (mk_busy 600100 []) = Some entry /\
    if (0 <? length (bs_openCalls entry))%nat || negb true
    then exists entry', om_get "s" (ha_busy (activity_step (at_ms 600100) (ha_timer "s")
           (activity_run [(at_ms 200, ha_report "t" true)] (activity_step (at_ms 100) (ha_report "s" true) createHarnessActivity))))
           = Some entry' /\ [HBusy "s"; HBusy "t"; HIdle "s"] = [HBusy "s"; HBusy "t"] /\ bs_timer entry' = 1200100
    else isBusy "s" (activity_step (at_ms 600100) (ha_timer "s")
           (activity_run [(at_ms 200, ha_report "t" true)] (activity_step (at_ms 100) (ha_report "s" true) createHarnessActivity))) = false
         /\ [HBusy "s"; HBusy "t"; HIdle "s"] = [HBusy "s"; HBusy "t"] ++ [HIdle "s"].
Proof.
  apply (silent_session_ends (at_ms 100) (ha_report "s" true) createHarnessActivity "s"
    [(at_ms 200, ha_report "t" true)] (at_ms 600100)); [reflexivity|reflexivity| |vm_compute; discriminate].
  constructor; [by left|constructor].
Defined.
