(* ===== verification/ConversationQueue.v ===== *)
(** One conversation's messages as turns and steers
    (packages/api-server/src/modules/channels/infrastructure/conversation-queue.ts,
    channels/domain/turn-coalescing.ts), and what makes the queue right.

    The source is asynchronous code over shared variables.  [CQ] holds the
    variables and, for each of the two asynchronous functions, the [await] it
    stands at ([Drain], [Cycle]); between two awaits the code runs alone.  An
    event resumes one of them or calls the queue.  The runtime may deliver
    events in any order; one that nothing waits for changes nothing.  What the
    queue tells its surface is appended to [cq_log]. *)
From stdpp Require Import base strings list.
From Stdlib Require Import ZArith Lia.
From S2P Require Import Prelude JsString.
Local Open Scope nat_scope.

(** ** Coalescing (turn-coalescing.ts) *)
Definition DEFAULT_MAX_COALESCED_BATCH : nat := 20.
Definition DEFAULT_SETTLE_MS : Z := 400.
Definition SETTLE_ROUNDS_CAP : nat := 6.

Definition settleRoundsRemaining (roundsTaken batchSize : nat) (maxBatch : option nat) : bool :=
  (roundsTaken <? SETTLE_ROUNDS_CAP) && (batchSize <? maxBatch ?? DEFAULT_MAX_COALESCED_BATCH).

Inductive CoalescedDelivery (T : Type) :=
| cd_start (batch remaining : list T)
| cd_steer (batch remaining : list T)
| cd_hold.
Arguments cd_start {T} batch remaining.
Arguments cd_steer {T} batch remaining.
Arguments cd_hold {T}.

Record CoalescingState (T : Type) := mk_coalescing {
  cs_pending : list T;
  cs_turnInFlight : bool;
  cs_steerable : bool;
  cs_canSteer : option (T -> bool);
  cs_maxBatch : option nat;
}.
Arguments mk_coalescing {T} cs_pending cs_turnInFlight cs_steerable cs_canSteer cs_maxBatch.
Arguments cs_pending {T} c.
Arguments cs_turnInFlight {T} c.
Arguments cs_steerable {T} c.
Arguments cs_canSteer {T} c.
Arguments cs_maxBatch {T} c.

(** The leading run of messages that may join, at most [cap]. *)
Fixpoint leadingRun {T} (canSteer : option (T -> bool)) (cap : nat) (l : list T) : list T :=
  match cap, l with
  | S cap, item :: l =>
      if match canSteer with Some f => f item | None => true end
      then item :: leadingRun canSteer cap l else []
  | _, _ => []
  end.

Definition planCoalescedDelivery {T} (state : CoalescingState T) : CoalescedDelivery T :=
  let pending := cs_pending state in
  if length pending =? 0 then cd_hold
  else if cs_turnInFlight state && negb (cs_steerable state) then cd_hold
  else
    let cap := Nat.max 1 (cs_maxBatch state ?? DEFAULT_MAX_COALESCED_BATCH) in
    if cs_turnInFlight state then
      let batch := leadingRun (cs_canSteer state) cap pending in
      if length batch =? 0 then cd_hold else cd_steer batch (drop (length batch) pending)
    else cd_start (take cap pending) (drop cap pending).

(** ** The queue *)
Inductive SteerResult := sr_injected | sr_refused | sr_unsupported | sr_failed.
Definition STEER_GRACE_MS : Z := 15000.

(** Where [drain] stands: not called, at the delay of [settle], at the end of
    [settle], at the end of the steer cycle numbered so, at the end of a turn. *)
Inductive Drain (T : Type) :=
| dr_idle
| dr_settling (rounds seen : nat)
| dr_settled
| dr_waiting (cycle : nat)
| dr_turn (batch : list T).
Arguments dr_idle {T}.
Arguments dr_settling {T} rounds seen.
Arguments dr_settled {T}.
Arguments dr_waiting {T} cycle.
Arguments dr_turn {T} batch.

(** The steer under way: [held], with the request it repeats. *)
Record Held (T : Type) := mk_held {
  he_batch : list T;
  he_target : string;
  he_promptId : string;
  he_targetPromptId : string;
  he_retried : bool;
  he_withdrawn : bool;
}.
Arguments mk_held {T} he_batch he_target he_promptId he_targetPromptId he_retried he_withdrawn.
Arguments he_batch {T} h.
Arguments he_target {T} h.
Arguments he_promptId {T} h.
Arguments he_targetPromptId {T} h.
Arguments he_retried {T} h.
Arguments he_withdrawn {T} h.

(** Where a steer cycle stands: at an answer, or at the callback behind its end. *)
Inductive Cycle (T : Type) := cy_none | cy_steering (h : Held T) | cy_done.
Arguments cy_none {T}.
Arguments cy_steering {T} h.
Arguments cy_done {T}.

Inductive QEvent (T : Type) :=
| QSteer (target : string) (batch : list T) (promptId targetPromptId : string)
| QSteered (batch : list T)
| QTurn (batch : list T)
| QTurnSettled (batch : list T)
| QAbort
| QEmpty
| QError.
Arguments QSteer {T} target batch promptId targetPromptId.
Arguments QSteered {T} batch.
Arguments QTurn {T} batch.
Arguments QTurnSettled {T} batch.
Arguments QAbort {T}.
Arguments QEmpty {T}.
Arguments QError {T}.

Record CQ (T : Type) := mk_cq {
  cq_pending : list T;
  cq_drain : Drain T;
  cq_sessionId : option string;
  cq_targetPromptId : option string;
  cq_cycle : Cycle T;
  cq_cycles : nat;
  cq_steeringUnsupported : bool;
  cq_log : list (QEvent T);
}.
Arguments mk_cq {T} cq_pending cq_drain cq_sessionId cq_targetPromptId cq_cycle cq_cycles cq_steeringUnsupported cq_log.
Arguments cq_pending {T} c.
Arguments cq_drain {T} c.
Arguments cq_sessionId {T} c.
Arguments cq_targetPromptId {T} c.
Arguments cq_cycle {T} c.
Arguments cq_cycles {T} c.
Arguments cq_steeringUnsupported {T} c.
Arguments cq_log {T} c.

Definition createConversationQueue {T} : CQ T := mk_cq [] dr_idle None None cy_none 0 false [].

Section Queue.
Context {T : Type}.
Implicit Types s : CQ T.

(** What the caller supplies. *)
Record QDeps := mk_qdeps { qd_settleMs : Z; qd_canSteer : option (T -> bool) }.
Context (d : QDeps).

Definition set_pending p s := mk_cq p (cq_drain s) (cq_sessionId s) (cq_targetPromptId s) (cq_cycle s) (cq_cycles s) (cq_steeringUnsupported s) (cq_log s).
Definition set_drain x s := mk_cq (cq_pending s) x (cq_sessionId s) (cq_targetPromptId s) (cq_cycle s) (cq_cycles s) (cq_steeringUnsupported s) (cq_log s).
Definition set_session i p s := mk_cq (cq_pending s) (cq_drain s) i p (cq_cycle s) (cq_cycles s) (cq_steeringUnsupported s) (cq_log s).
Definition set_cycle c n s := mk_cq (cq_pending s) (cq_drain s) (cq_sessionId s) (cq_targetPromptId s) c n (cq_steeringUnsupported s) (cq_log s).
Definition set_unsupported b s := mk_cq (cq_pending s) (cq_drain s) (cq_sessionId s) (cq_targetPromptId s) (cq_cycle s) (cq_cycles s) b (cq_log s).
Definition qtell e s := mk_cq (cq_pending s) (cq_drain s) (cq_sessionId s) (cq_targetPromptId s) (cq_cycle s) (cq_cycles s) (cq_steeringUnsupported s) (cq_log s ++ [e]).

Definition draining s : bool := match cq_drain s with dr_idle => false | _ => true end.
Definition cycleRuns s : bool := match cq_cycle s with cy_none => false | _ => true end.

(** The loop of [settle], from its test on. *)
Definition settleLoop (rounds : nat) (seen : option nat) s : CQ T :=
  let n := length (cq_pending s) in
  if negb (bool_decide (seen = Some n)) && settleRoundsRemaining rounds n None
  then set_drain (dr_settling (S rounds) n) s
  else set_drain dr_settled s.

Definition settle s : CQ T :=
  if (qd_settleMs d <=? 0)%Z then set_drain dr_settled s else settleLoop 0 None s.

(** [drain] up to its first await. *)
Definition drain s : CQ T := if draining s then s else settle s.

(** The [finally] of [drain]. *)
Definition drainEnds s : CQ T :=
  let s := set_drain dr_idle s in
  if negb (length (cq_pending s) =? 0) then drain s
  else if cycleRuns s then s else qtell QEmpty s.

(** The loop of [drain], from the plan on. *)
Definition compose s : CQ T :=
  match planCoalescedDelivery (mk_coalescing (cq_pending s) false false None None) with
  | cd_start batch remaining =>
      qtell (QTurn batch) (set_drain (dr_turn batch) (set_pending remaining s))
  | _ => drainEnds s
  end.

(** The loop of [drain], from its test on. *)
Definition drainLoop s : CQ T :=
  if length (cq_pending s) =? 0 then drainEnds s
  else if cycleRuns s then set_drain (dr_waiting (cq_cycles s)) s
  else compose s.

(** The loop of [runSteerCycle], from its test on; [uuid] is the next id minted. *)
Definition cycleLoop (uuid : string) s : CQ T :=
  if cq_steeringUnsupported s then set_cycle cy_done (cq_cycles s) s
  else
    match cq_sessionId s, cq_targetPromptId s with
    | Some target, Some turnPromptId =>
        match planCoalescedDelivery (mk_coalescing (cq_pending s) true true (qd_canSteer d) None) with
        | cd_steer batch remaining =>
            qtell (QSteer target batch uuid turnPromptId)
              (set_cycle (cy_steering (mk_held batch target uuid turnPromptId false false)) (cq_cycles s)
                 (set_pending remaining s))
        | _ => set_cycle cy_done (cq_cycles s) s
        end
    | _, _ => set_cycle cy_done (cq_cycles s) s
    end.

(** A new cycle takes the next number. *)
Definition steerPending (uuid : string) s : CQ T :=
  if cycleRuns s then s else cycleLoop uuid (set_cycle (cq_cycle s) (S (cq_cycles s)) s).

Definition submit (uuid : string) (message : T) s : CQ T :=
  let s := set_pending (cq_pending s ++ [message]) s in
  if draining s then steerPending uuid s else drain s.

Definition heldSteer s : list T :=
  match cq_cycle s with cy_steering h => he_batch h | _ => [] end.

Definition abortSteer s : CQ T :=
  match cq_cycle s with
  | cy_steering h =>
      qtell QAbort
        (set_cycle (cy_steering (mk_held (he_batch h) (he_target h) (he_promptId h) (he_targetPromptId h)
                                   (he_retried h) true)) (cq_cycles s) s)
  | _ => s
  end.

(** The grace of [steersSettled] is over. *)
Definition graceFired s : CQ T := match cq_cycle s with cy_steering _ => qtell QAbort s | _ => s end.

(** A steer's answer; a thrown one is [sr_failed] and told. *)
Definition steerAnswered (uuid : string) (result : SteerResult) (threw : bool) s : CQ T :=
  match cq_cycle s with
  | cy_steering h =>
      let s := if threw then qtell QError s else s in
      let again := match result with sr_failed => negb (he_retried h) && negb (he_withdrawn h) | _ => false end in
      if again then
        qtell (QSteer (he_target h) (he_batch h) (he_promptId h) (he_targetPromptId h))
          (set_cycle (cy_steering (mk_held (he_batch h) (he_target h) (he_promptId h) (he_targetPromptId h) true
                                     (he_withdrawn h))) (cq_cycles s) s)
      else
        let s := match result with sr_unsupported => set_unsupported true s | _ => s end in
        match result with
        | sr_injected => cycleLoop uuid (qtell (QSteered (he_batch h)) s)
        | _ => set_cycle cy_done (cq_cycles s) (set_pending (he_batch h ++ cq_pending s) s)
        end
  | _ => s
  end.

(** The [finally] behind a cycle. *)
Definition cycleEnded s : CQ T :=
  match cq_cycle s with
  | cy_done =>
      let s := set_cycle cy_none (cq_cycles s) s in
      if negb (draining s) && negb (length (cq_pending s) =? 0) then drain s else s
  | _ => s
  end.

Definition delayOver s : CQ T :=
  match cq_drain s with
  | dr_settling rounds seen => settleLoop rounds (Some seen) s
  | _ => s
  end.

(** [drain] goes on behind [settle], or behind the cycle it waited for. *)
Definition drainResumes s : CQ T :=
  match cq_drain s with
  | dr_settled => drainLoop s
  | dr_waiting n => if cycleRuns s && (n =? cq_cycles s) then s else compose s
  | _ => s
  end.

Definition onSession (id : string) (promptId : option string) s : CQ T :=
  match cq_drain s with dr_turn _ => set_session (Some id) promptId s | _ => s end.

(** A turn ends, or throws: then [drain]'s loop is left. *)
Definition turnEnded (threw : bool) s : CQ T :=
  match cq_drain s with
  | dr_turn batch =>
      let s := qtell (QTurnSettled batch) (set_session None None s) in
      if threw then drainEnds (qtell QError s) else drainLoop s
  | _ => s
  end.
End Queue.
Arguments QDeps : clear implicits.

Inductive QOp (T : Type) :=
| qo_submit (uuid : string) (message : T)
| qo_abortSteer
| qo_graceFired
| qo_steerAnswered (uuid : string) (result : SteerResult) (threw : bool)
| qo_cycleEnded
| qo_delayOver
| qo_drainResumes
| qo_onSession (id : string) (promptId : option string)
| qo_turnEnded (threw : bool).
Arguments qo_submit {T} uuid message.
Arguments qo_abortSteer {T}.
Arguments qo_graceFired {T}.
Arguments qo_steerAnswered {T} uuid result threw.
Arguments qo_cycleEnded {T}.
Arguments qo_delayOver {T}.
Arguments qo_drainResumes {T}.
Arguments qo_onSession {T} id promptId.
Arguments qo_turnEnded {T} threw.

Definition cq_step {T} (d : QDeps T) (op : QOp T) (s : CQ T) : CQ T :=
  match op with
  | qo_submit uuid m => submit d uuid m s
  | qo_abortSteer => abortSteer s
  | qo_graceFired => graceFired s
  | qo_steerAnswered uuid r threw => steerAnswered d uuid r threw s
  | qo_cycleEnded => cycleEnded d s
  | qo_delayOver => delayOver s
  | qo_drainResumes => drainResumes d s
  | qo_onSession id p => onSession id p s
  | qo_turnEnded threw => turnEnded d threw s
  end.

Definition cq_run {T} (d : QDeps T) (l : list (QOp T)) (s : CQ T) : CQ T :=
  foldl (fun s op => cq_step d op s) s l.

(** ** Plans *)

Lemma leadingRun_prefix {T} f cap (l : list T) :
  exists n, leadingRun f cap l = take n l /\ n <= cap /\ length (leadingRun f cap l) = n.
Proof.
  revert cap. induction l as [|x l IH]; intros cap; [exists 0; destruct cap; split_and!; (done || lia)|].
  destruct cap as [|cap]; [exists 0; split_and!; (done || lia)|]. simpl.
  destruct (match f with Some f => f x | None => true end); [|exists 0; split_and!; [done|lia|done]].
  destruct (IH cap) as (n & E & Hn & Hl). exists (S n). simpl. rewrite E in Hl. rewrite E, Hl. split_and!; [done|lia|done].
Qed.

Lemma leadingRun_joins {T} (f : T -> bool) cap l : Forall (fun x => f x = true) (leadingRun (Some f) cap l).
Proof.
  revert cap. induction l as [|x l IH]; intros [|cap]; simpl; try constructor.
  destruct (f x) eqn:E; constructor; auto.
Qed.

(** A plan splits what waits: a batch from its head, and the rest in order. A
    batch is never empty and never over the cap, and a steered one holds only
    messages that may join. *)
Lemma plan_splits {T} (state : CoalescingState T) :
  match planCoalescedDelivery state with
  | cd_start batch remaining =>
      cs_turnInFlight state = false /\ cs_pending state = batch ++ remaining /\ batch <> [] /\
      length batch <= Nat.max 1 (cs_maxBatch state ?? DEFAULT_MAX_COALESCED_BATCH)
  | cd_steer batch remaining =>
      cs_turnInFlight state = true /\ cs_pending state = batch ++ remaining /\ batch <> [] /\
      length batch <= Nat.max 1 (cs_maxBatch state ?? DEFAULT_MAX_COALESCED_BATCH) /\
      match cs_canSteer state with Some f => Forall (fun x => f x = true) batch | None => True end
  | cd_hold => True
  end.
Proof.
  destruct state as [pending inFlight steerable canSteer maxBatch]. unfold planCoalescedDelivery. simpl.
  set (cap := Nat.max 1 _). assert (1 <= cap) as Hcap by (subst cap; lia).
  destruct pending as [|x pending]; [done|]. cbn [length Nat.eqb]. destruct inFlight; simpl.
  - destruct steerable; simpl; [|done]. destruct (length (leadingRun _ _ _) =? 0) eqn:E; [done|].
    destruct (leadingRun_prefix canSteer cap (x :: pending)) as (n & Hp & Hn & Hl).
    split_and!; [done| | |lia|].
    + rewrite Hl, Hp. by rewrite take_drop.
    + intros H. by rewrite H in E.
    + destruct canSteer; [apply leadingRun_joins|done].
  - split_and!; [done|by rewrite take_drop| |rewrite length_take; lia]. destruct cap; [lia|done].
Qed.

(** ** What was handed over *)
Section Order.
Context {T : Type} (d : QDeps T).
Implicit Types s : CQ T.

Definition handed_by (e : QEvent T) : list T :=
  match e with QSteered batch | QTurn batch => batch | _ => [] end.
Definition handed s : list T := flat_map handed_by (cq_log s).

(** Everything submitted, as the queue holds it. *)
Definition all_of s : list T := handed s ++ heldSteer s ++ cq_pending s.

(** Outside a turn there is no session to steer; a cycle that holds a batch is
    the one the drain waits for. *)
Definition cq_wf s : Prop :=
  ((forall batch, cq_drain s <> dr_turn batch) -> cq_sessionId s = None) /\
  (forall n, cq_drain s = dr_waiting n ->
     n <= cq_cycles s /\ forall h, cq_cycle s = cy_steering h -> cq_cycles s = n).

Lemma handed_tell e s : handed (qtell e s) = handed s ++ handed_by e.
Proof. unfold handed. simpl. rewrite flat_map_app. simpl. by rewrite app_nil_r. Qed.

(** A step keeps the order and the shape. *)
Definition keeps s s' : Prop := cq_wf s' /\ all_of s' = all_of s.

Lemma idle_keeps s s' :
  (forall n, cq_drain s' <> dr_waiting n) -> (forall batch, cq_drain s' <> dr_turn batch) ->
  cq_sessionId s' = None -> all_of s' = all_of s -> keeps s s'.
Proof. intros H1 H2 H3 H4. split; [|done]. split; [done|]. intros n Hn. by destruct (H1 n). Qed.

Lemma settleLoop_keeps rounds seen s :
  cq_sessionId s = None -> keeps s (settleLoop rounds seen s).
Proof. intros H. unfold settleLoop. destruct (_ && _); by apply idle_keeps. Qed.

Lemma settle_keeps s : cq_sessionId s = None -> keeps s (settle d s).
Proof. intros H. unfold settle. destruct (_ <=? _)%Z; [by apply idle_keeps|by apply settleLoop_keeps]. Qed.

Lemma drain_keeps s :
  (draining s = true -> cq_wf s) -> cq_sessionId s = None -> keeps s (drain d s).
Proof.
  intros Hw Hs. unfold drain. destruct (draining s); [split; [by apply Hw|done]|by apply settle_keeps].
Qed.

Lemma drainEnds_keeps s : cq_sessionId s = None -> keeps s (drainEnds d s).
Proof.
  intros Hs. unfold drainEnds. destruct (negb _).
  - destruct (drain_keeps (set_drain dr_idle s)) as [Hw He]; [done|done|]. split; [done|]. by rewrite He.
  - assert (all_of (set_drain dr_idle s) = all_of s) as E by done.
    destruct (cycleRuns _); apply idle_keeps; try done.
    unfold all_of. rewrite handed_tell. simpl. by rewrite app_nil_r.
Qed.

Lemma compose_keeps s :
  cq_sessionId s = None -> heldSteer s = [] -> keeps s (compose d s).
Proof.
  intros Hs Hh. unfold compose.
  pose proof (plan_splits (mk_coalescing (cq_pending s) false false None None)) as Hp. simpl in Hp.
  destruct (planCoalescedDelivery _) as [batch remaining|batch remaining|]; try by apply drainEnds_keeps.
  destruct Hp as (_ & Hp & _). split; [split; [done|by intros n [=]]|].
  unfold all_of. rewrite handed_tell. simpl.
  change (heldSteer (qtell _ _)) with (heldSteer s). rewrite Hh, Hp. simpl. by rewrite <- (assoc_L (++)).
Qed.

Lemma drainLoop_keeps s :
  cq_sessionId s = None -> keeps s (drainLoop d s).
Proof.
  intros Hs. unfold drainLoop. destruct (_ =? 0); [by apply drainEnds_keeps|].
  destruct (cycleRuns s) eqn:Ec.
  - split; [|done]. split; simpl; [done|]. intros n [= <-]. split; [done|]. done.
  - apply compose_keeps; [done|]. unfold cycleRuns in Ec. unfold heldSteer. by destruct (cq_cycle s).
Qed.

Lemma cycleLoop_keeps uuid s s0 :
  cq_drain s = cq_drain s0 -> cq_sessionId s = cq_sessionId s0 ->
  (forall n, cq_drain s = dr_waiting n -> n <= cq_cycles s) ->
  cq_wf s0 -> handed s ++ cq_pending s = all_of s0 -> keeps s0 (cycleLoop d uuid s).
Proof.
  intros Hd Hi Hn Hwf Ha.
  assert (keeps s0 (set_cycle cy_done (cq_cycles s) s)) as Hdone.
  { split; [|unfold all_of; simpl; exact Ha]. split; simpl; [rewrite Hd, Hi; by apply Hwf|].
    intros n Hw. split; [by apply Hn|done]. }
  unfold cycleLoop. destruct (cq_steeringUnsupported s); [done|].
  destruct (cq_sessionId s) as [target|] eqn:Es; [|done].
  destruct (cq_targetPromptId s) as [turn|]; [|done].
  pose proof (plan_splits (mk_coalescing (cq_pending s) true true (qd_canSteer d) None)) as Hp. simpl in Hp.
  destruct (planCoalescedDelivery _) as [batch remaining|batch remaining|]; try done.
  destruct Hp as (_ & Hp & _). split.
  - split; simpl; [rewrite Hd, Es, Hi; by apply Hwf|]. intros n Hw. exfalso.
    destruct Hwf as [Hs _]. rewrite <- Hi in Hs. specialize (Hs). rewrite <- Hd, Hw in Hs.
    by specialize (Hs ltac:(done)).
  - unfold all_of. rewrite handed_tell. simpl. rewrite app_nil_r.
    change (handed s ++ batch ++ remaining = all_of s0). by rewrite <- Hp.
Qed.

Lemma cycleRuns_none s : cycleRuns s = false -> heldSteer s = [] /\ forall h, cq_cycle s <> cy_steering h.
Proof. unfold cycleRuns, heldSteer. destruct (cq_cycle s); try done. Qed.

Lemma steerPending_keeps uuid s : cq_wf s -> keeps s (steerPending d uuid s).
Proof.
  intros Hwf. unfold steerPending. destruct (cycleRuns s) eqn:Ec; [done|].
  destruct (cycleRuns_none s Ec) as [Hh _]. apply cycleLoop_keeps; try done.
  - intros n Hn. simpl in *. destruct Hwf as [_ Hw]. destruct (Hw n Hn) as [? _]. lia.
  - unfold all_of. by rewrite Hh.
Qed.

Lemma keeps_refl s : cq_wf s -> keeps s s.
Proof. done. Qed.

Lemma not_draining_session s : cq_wf s -> draining s = false -> cq_sessionId s = None.
Proof. intros [H _] Hd. apply H. intros batch E. unfold draining in Hd. by rewrite E in Hd. Qed.

Lemma steerAnswered_keeps uuid r threw s : cq_wf s -> keeps s (steerAnswered d uuid r threw s).
Proof.
  intros Hwf. unfold steerAnswered. destruct (cq_cycle s) as [|h|] eqn:Ec; [done| |done].
  set (s1 := if threw then qtell QError s else s).
  assert (cq_wf s1 /\ all_of s1 = all_of s /\ cq_cycle s1 = cy_steering h) as (Hwf1 & Ha1 & Ec1).
  { subst s1. destruct threw; [|done]. split_and!; [done| |done]. unfold all_of. rewrite handed_tell. simpl.
    by rewrite app_nil_r. }
  clearbody s1. rewrite <- Ha1 || idtac.
  assert (heldSteer s1 = he_batch h) as Hh by (unfold heldSteer; by rewrite Ec1).
  assert (forall n, cq_drain s1 = dr_waiting n -> n <= cq_cycles s1) as Hn.
  { intros n Hn. destruct Hwf1 as [_ Hw]. by destruct (Hw n Hn). }
  assert (forall s', keeps s1 s' -> keeps s s') as Htr by (intros s' [? E]; split; [done|by rewrite E]).
  apply Htr.
  destruct (match r with sr_failed => _ | _ => false end) eqn:Eag.
  - split.
    + destruct Hwf1 as [H1 H2]. split; [done|]. simpl. intros n E. destruct (H2 n E) as [? H3].
      split; [done|]. intros h' _. by eapply H3.
    + unfold all_of. rewrite handed_tell. simpl. rewrite app_nil_r, Hh. done.
  - assert (forall s2, cq_drain s2 = cq_drain s1 -> cq_sessionId s2 = cq_sessionId s1 -> cq_cycles s2 = cq_cycles s1 ->
      cq_pending s2 = cq_pending s1 -> cq_log s2 = cq_log s1 ->
      keeps s1 (set_cycle cy_done (cq_cycles s2) (set_pending (he_batch h ++ cq_pending s2) s2))) as Hback.
    { intros s2 E1 E2 E3 E4 E5. split.
      - split; simpl; [rewrite E1, E2; by apply Hwf1|]. intros n E. rewrite E1 in E. rewrite E3.
        split; [by apply Hn|done].
      - unfold all_of, handed. simpl. rewrite E5, E4, Hh. done. }
    destruct r; [|by apply Hback..]. apply cycleLoop_keeps; try done.
    rewrite handed_tell. unfold all_of. rewrite Hh. simpl. by rewrite <- (assoc_L (++)).
Qed.

Lemma cycleEnded_keeps s : cq_wf s -> keeps s (cycleEnded d s).
Proof.
  intros Hwf. unfold cycleEnded. destruct (cq_cycle s) eqn:Ec; try done.
  set (s1 := set_cycle cy_none (cq_cycles s) s).
  assert (keeps s s1) as [H1 H2].
  { split.
    - destruct Hwf as [Ha Hb]. split; [done|]. simpl. intros n E. destruct (Hb n E) as [? _]. done.
    - unfold all_of, heldSteer. simpl. by rewrite Ec. }
  destruct (negb (draining s1) && _) eqn:E; [|done].
  apply andb_true_iff in E as [E _]. apply negb_true_iff in E.
  destruct (drain_keeps s1) as [H3 H4]; [by rewrite E|by apply not_draining_session|].
  split; [done|]. by rewrite H4.
Qed.

Lemma delayOver_keeps s : cq_wf s -> keeps s (delayOver s).
Proof.
  intros Hwf. unfold delayOver. destruct (cq_drain s) eqn:E; try done. apply settleLoop_keeps.
  apply Hwf. intros batch. by rewrite E.
Qed.

Lemma drainResumes_keeps s : cq_wf s -> keeps s (drainResumes d s).
Proof.
  intros Hwf. unfold drainResumes.
  destruct (cq_drain s) as [| | |n|] eqn:E; try done.
  - apply drainLoop_keeps. apply Hwf. intros batch. by rewrite E.
  - destruct (cycleRuns s && (n =? cq_cycles s)) eqn:Er; [done|]. apply compose_keeps.
    + apply Hwf. intros batch. by rewrite E.
    + unfold heldSteer. destruct (cq_cycle s) as [|h|] eqn:Ec; try done. exfalso.
      destruct Hwf as [_ Hw]. destruct (Hw n E) as [_ Hc]. rewrite (Hc h Ec) in Er.
      unfold cycleRuns in Er. rewrite Ec, Nat.eqb_refl in Er. done.
Qed.

Lemma turnEnded_keeps threw s : cq_wf s -> keeps s (turnEnded d threw s).
Proof.
  intros Hwf. unfold turnEnded. destruct (cq_drain s) as [| | | |batch] eqn:E; try done.
  set (s1 := qtell (QTurnSettled batch) (set_session None None s)).
  assert (all_of s1 = all_of s) as Ha.
  { unfold all_of, s1. rewrite handed_tell. simpl. by rewrite app_nil_r. }
  destruct threw.
  - destruct (drainEnds_keeps (qtell QError s1)) as [H1 H2]; [done|]. split; [done|]. rewrite H2, <- Ha.
    unfold all_of. rewrite handed_tell. simpl. by rewrite app_nil_r.
  - destruct (drainLoop_keeps s1) as [H1 H2]; [done|]. split; [done|]. by rewrite H2.
Qed.

Definition submitted_by (op : QOp T) : list T := match op with qo_submit _ m => [m] | _ => [] end.

Lemma cq_step_order op s :
  cq_wf s -> cq_wf (cq_step d op s) /\ all_of (cq_step d op s) = all_of s ++ submitted_by op.
Proof.
  intros Hwf.
  assert (forall s', keeps s s' -> cq_wf s' /\ all_of s' = all_of s ++ []) as Hk
    by (intros s' [H1 H2]; by rewrite app_nil_r).
  destruct op as [uuid m| | |uuid r threw| | | |id p|threw]; simpl; try apply Hk.
  - unfold submit. set (s1 := set_pending (cq_pending s ++ [m]) s).
    assert (cq_wf s1 /\ all_of s1 = all_of s ++ [m]) as [Hw1 <-].
    { split; [done|]. unfold all_of, s1. simpl. by rewrite <- !(assoc_L (++)). }
    destruct (draining s1) eqn:E; [by apply steerPending_keeps|].
    apply drain_keeps; [by rewrite E|by apply not_draining_session].
  - unfold abortSteer. destruct (cq_cycle s) as [|h|] eqn:Ec; try done. split.
    + destruct Hwf as [H1 H2]. split; [done|]. simpl. intros n E. destruct (H2 n E) as [? H3].
      split; [done|]. intros h' _. by eapply H3.
    + unfold all_of. rewrite handed_tell. simpl. rewrite app_nil_r. unfold heldSteer. by rewrite Ec.
  - unfold graceFired. destruct (cq_cycle s) as [|h|] eqn:Ec; try done. split; [done|].
    unfold all_of. rewrite handed_tell. simpl. by rewrite app_nil_r.
  - by apply steerAnswered_keeps.
  - by apply cycleEnded_keeps.
  - by apply delayOver_keeps.
  - by apply drainResumes_keeps.
  - unfold onSession. destruct (cq_drain s) eqn:E; try done. split; [|done]. split; simpl.
    + intros H. by destruct (H _ E).
    + intros n Hn. congruence.
  - by apply turnEnded_keeps.
Qed.

Lemma cq_run_order l s :
  cq_wf s -> cq_wf (cq_run d l s) /\ all_of (cq_run d l s) = all_of s ++ flat_map submitted_by l.
Proof.
  revert s. induction l as [|op l IH]; intros s Hwf; simpl; [by rewrite app_nil_r|].
  destruct (cq_step_order op s Hwf) as [H1 H2]. destruct (IH _ H1) as [H3 H4]. split; [done|].
  etransitivity; [exact H4|]. rewrite H2. by rewrite <- (assoc_L (++)).
Qed.

Lemma create_cq_wf : cq_wf createConversationQueue.
Proof. split; [done|by intros n [=]]. Qed.
End Order.

(** ** One turn at a time *)
Section Turns.
Context {T : Type} (d : QDeps T).
Implicit Types s : CQ T.

(** Whether a turn is on, read off the log; nothing when two overlap. *)
Definition turn_step (on : option bool) (e : QEvent T) : option bool :=
  match e, on with
  | QTurn _, Some false => Some true
  | QTurnSettled _, Some true => Some false
  | QTurn _, _ | QTurnSettled _, _ => None
  | _, _ => on
  end.
Definition turn_on (log : list (QEvent T)) : option bool := foldl turn_step (Some false) log.

Definition inTurn s : bool := match cq_drain s with dr_turn _ => true | _ => false end.
Definition turn_ok s : Prop := turn_on (cq_log s) = Some (inTurn s).
Definition between_turns s : Prop := turn_on (cq_log s) = Some false.

Lemma turn_on_tell e s : turn_on (cq_log (qtell e s)) = turn_step (turn_on (cq_log s)) e.
Proof. unfold turn_on. simpl. by rewrite foldl_app. Qed.

Lemma settleLoop_turn rounds seen s : between_turns s -> turn_ok (settleLoop rounds seen s).
Proof. intros H. unfold settleLoop. by destruct (_ && _). Qed.

Lemma settle_turn s : between_turns s -> turn_ok (settle d s).
Proof. intros H. unfold settle. destruct (_ <=? _)%Z; [done|by apply settleLoop_turn]. Qed.

Lemma turn_ok_idle s : turn_ok s -> draining s = false -> between_turns s.
Proof.
  unfold turn_ok, inTurn, draining, between_turns. intros H E. by destruct (cq_drain s).
Qed.

Lemma drain_turn s : turn_ok s -> turn_ok (drain d s).
Proof.
  intros H. unfold drain. destruct (draining s) eqn:E; [done|]. by apply settle_turn, turn_ok_idle.
Qed.

Lemma drainEnds_turn s : between_turns s -> turn_ok (drainEnds d s).
Proof.
  intros H. unfold drainEnds. destruct (negb _); [by apply drain_turn|].
  destruct (cycleRuns _); [done|]. unfold turn_ok. rewrite turn_on_tell. simpl. by rewrite H.
Qed.

Lemma compose_turn s : between_turns s -> turn_ok (compose d s).
Proof.
  intros H. unfold compose. destruct (planCoalescedDelivery _); try by apply drainEnds_turn.
  unfold turn_ok. rewrite turn_on_tell. simpl. by rewrite H.
Qed.

Lemma drainLoop_turn s : between_turns s -> turn_ok (drainLoop d s).
Proof.
  intros H. unfold drainLoop. destruct (_ =? 0); [by apply drainEnds_turn|].
  destruct (cycleRuns s); [done|by apply compose_turn].
Qed.

Lemma cycleLoop_turn uuid s : turn_ok s -> turn_ok (cycleLoop d uuid s).
Proof.
  intros H. unfold cycleLoop. destruct (cq_steeringUnsupported s); [done|].
  destruct (cq_sessionId s); [|done]. destruct (cq_targetPromptId s); [|done].
  destruct (planCoalescedDelivery _); try done. unfold turn_ok. rewrite turn_on_tell. simpl. by rewrite H.
Qed.

Lemma cq_step_turn op s : turn_ok s -> turn_ok (cq_step d op s).
Proof.
  intros H. assert (forall e, (forall on, turn_step on e = on) -> turn_ok (qtell e s)) as Hq.
  { intros e He. unfold turn_ok. by rewrite turn_on_tell, He. }
  destruct op as [uuid m| | |uuid r threw| | | |id p|threw]; simpl.
  - unfold submit. destruct (draining _); [|by apply drain_turn].
    unfold steerPending. destruct (cycleRuns _); [done|by apply cycleLoop_turn].
  - unfold abortSteer. destruct (cq_cycle s) as [|h|]; try done. unfold turn_ok. rewrite turn_on_tell. simpl.
    by rewrite H.
  - unfold graceFired. destruct (cq_cycle s); try done. by apply Hq.
  - unfold steerAnswered. destruct (cq_cycle s) as [|h|]; try done.
    assert (turn_ok (if threw then qtell QError s else s)) as H1 by (destruct threw; [by apply Hq|done]).
    set (s1 := if threw then qtell QError s else s) in *. clearbody s1.
    destruct (match r with sr_failed => _ | _ => false end).
    + unfold turn_ok. rewrite turn_on_tell. simpl. by rewrite H1.
    + destruct r; try done. apply cycleLoop_turn. unfold turn_ok. rewrite turn_on_tell. simpl. by rewrite H1.
  - unfold cycleEnded. destruct (cq_cycle s); try done. destruct (_ && _); [by apply drain_turn|done].
  - unfold delayOver. destruct (cq_drain s) eqn:E; try done. apply settleLoop_turn.
    unfold turn_ok, inTurn in H. by rewrite E in H.
  - unfold drainResumes. destruct (cq_drain s) eqn:E; try done;
      unfold turn_ok, inTurn in H; rewrite E in H; [by apply drainLoop_turn|].
    destruct (_ && _); [unfold turn_ok, inTurn; by rewrite E|by apply compose_turn].
  - unfold onSession. by destruct (cq_drain s) eqn:E; unfold turn_ok, inTurn in *; simpl; rewrite ?E in *.
  - unfold turnEnded. destruct (cq_drain s) as [| | | |batch] eqn:E; try done.
    unfold turn_ok, inTurn in H. rewrite E in H.
    assert (between_turns (qtell (QTurnSettled batch) (set_session None None s))) as H1.
    { unfold between_turns. rewrite turn_on_tell. simpl. by rewrite H. }
    destruct threw; [|by apply drainLoop_turn]. apply drainEnds_turn. unfold between_turns.
    rewrite turn_on_tell. by rewrite H1.
Qed.

Lemma cq_run_turn l s : turn_ok s -> turn_ok (cq_run d l s).
Proof. revert s. induction l as [|op l IH]; intros s H; simpl; [done|]. by apply IH, cq_step_turn. Qed.
End Turns.

(** ** Nothing is stranded *)
Section Progress.
Context {T : Type} (d : QDeps T).
Implicit Types s : CQ T.

(** What waits has someone to take it up. *)
Definition taken_up s : Prop := cq_pending s <> [] -> draining s = true \/ cycleRuns s = true.

Lemma settleLoop_draining rounds seen s : draining (settleLoop rounds seen s) = true.
Proof. unfold settleLoop. by destruct (_ && _). Qed.

Lemma drain_draining s : draining (drain d s) = true.
Proof.
  unfold drain. destruct (draining s) eqn:E; [done|]. unfold settle.
  destruct (_ <=? _)%Z; [done|apply settleLoop_draining].
Qed.

Lemma drainEnds_taken s : taken_up (drainEnds d s).
Proof.
  unfold drainEnds. destruct (negb _) eqn:E.
  - intros _. left. apply drain_draining.
  - apply negb_false_iff, Nat.eqb_eq in E. simpl in E. intros H. exfalso.
    destruct (cycleRuns _); simpl in H; by destruct (cq_pending s).
Qed.

Lemma compose_taken s : taken_up (compose d s).
Proof.
  unfold compose. destruct (planCoalescedDelivery _); try by apply drainEnds_taken. intros _. by left.
Qed.

Lemma drainLoop_taken s : taken_up (drainLoop d s).
Proof.
  unfold drainLoop. destruct (_ =? 0); [apply drainEnds_taken|]. destruct (cycleRuns s) eqn:E; [|apply compose_taken].
  intros _. by left.
Qed.

Lemma cycleLoop_runs uuid s : cycleRuns (cycleLoop d uuid s) = true.
Proof.
  unfold cycleLoop. destruct (cq_steeringUnsupported s); [done|].
  destruct (cq_sessionId s); [|done]. destruct (cq_targetPromptId s); [|done].
  by destruct (planCoalescedDelivery _).
Qed.

Lemma cq_step_taken op s : taken_up s -> taken_up (cq_step d op s).
Proof.
  intros H. destruct op as [uuid m| | |uuid r threw| | | |id p|threw]; simpl.
  - unfold submit. destruct (draining (set_pending _ s)) eqn:E; [|intros _; left; apply drain_draining].
    intros _. right. unfold steerPending. destruct (cycleRuns (set_pending _ s)) eqn:Ec; [done|apply cycleLoop_runs].
  - unfold abortSteer. destruct (cq_cycle s) as [|h|]; [done|intros _; by right|done].
  - unfold graceFired. destruct (cq_cycle s) as [|h|] eqn:E; [done| |done].
    intros _. right. unfold cycleRuns. simpl. by rewrite E.
  - unfold steerAnswered. destruct (cq_cycle s) as [|h|]; [done| |done]. intros _. right.
    destruct (match r with sr_failed => _ | _ => false end); [done|]. destruct r; try done. apply cycleLoop_runs.
  - unfold cycleEnded. destruct (cq_cycle s) eqn:Ec; try done. destruct (_ && _) eqn:E.
    + intros _. left. apply drain_draining.
    + intros Hp. left. simpl in *. apply andb_false_iff in E as [E|E]; apply negb_false_iff in E; [done|].
      apply Nat.eqb_eq in E. simpl in E. by destruct (cq_pending s).
  - unfold delayOver. destruct (cq_drain s); try done. intros _. left. apply settleLoop_draining.
  - unfold drainResumes. destruct (cq_drain s); try done; [apply drainLoop_taken|].
    destruct (_ && _); [done|apply compose_taken].
  - unfold onSession. by destruct (cq_drain s).
  - unfold turnEnded. destruct (cq_drain s); try done. destruct threw; [apply drainEnds_taken|apply drainLoop_taken].
Qed.

Lemma cq_run_taken l s : taken_up s -> taken_up (cq_run d l s).
Proof. revert s. induction l as [|op l IH]; intros s H; simpl; [done|]. by apply IH, cq_step_taken. Qed.

(** The queue is done: nothing waits, nothing runs. *)
Definition at_rest s : Prop := cq_pending s = [] /\ cq_drain s = dr_idle /\ cq_cycle s = cy_none.
Definition no_submit (op : QOp T) : Prop := match op with qo_submit _ _ => False | _ => True end.
Definition rests s : Prop := exists l, Forall no_submit l /\ at_rest (cq_run d l s).

Lemma rests_step op s : no_submit op -> rests (cq_step d op s) -> rests s.
Proof. intros Ho (l & Hl & H). exists (op :: l). split; [by constructor|done]. Qed.

Lemma drainEnds_rests s : cq_pending s = [] -> cq_cycle s = cy_none -> at_rest (drainEnds d s).
Proof.
  intros Hp Hc. unfold drainEnds. simpl. rewrite Hp. simpl. unfold cycleRuns. simpl. rewrite Hc. done.
Qed.

(** Composing takes a batch off what waits. *)
Lemma compose_smaller s :
  cq_pending s <> [] ->
  exists batch, cq_drain (compose d s) = dr_turn batch /\ cq_cycle (compose d s) = cq_cycle s /\
    length (cq_pending (compose d s)) < length (cq_pending s).
Proof.
  intros Hp. unfold compose, planCoalescedDelivery. simpl.
  destruct (cq_pending s) as [|x l] eqn:E; [done|]. simpl. eexists. split_and!; [done|done|].
  rewrite length_drop. lia.
Qed.

Lemma rests_no_cycle n : forall s,
  length (cq_pending s) <= n -> cq_cycle s = cy_none -> taken_up s -> rests s.
Proof.
  induction n as [n IH] using lt_wf_ind. intros s Hn Hc Ht.
  assert (forall s1, cq_pending s1 = cq_pending s -> cq_cycle s1 = cy_none -> rests (compose d s1) \/ cq_pending s = []) as Hcomp.
  { intros s1 Hp1 Hc1. destruct (cq_pending s) as [|x l] eqn:Ep; [by right|left].
    destruct (compose_smaller s1) as (batch & Hd & Hcy & Hl); [by rewrite Hp1|].
    apply (IH (length (cq_pending (compose d s1)))).
    - rewrite Hp1 in Hl. simpl in *. lia.
    - done.
    - by rewrite Hcy.
    - intros _. left. unfold draining. by rewrite Hd. }
  assert (forall s1, cq_pending s1 = cq_pending s -> cq_cycle s1 = cy_none -> rests (drainLoop d s1)) as Hloop.
  { intros s1 Hp1 Hc1. unfold drainLoop. rewrite Hp1. destruct (Hcomp s1 Hp1 Hc1) as [Hr|Hp].
    - destruct (length (cq_pending s) =? 0) eqn:E0.
      + exists []. split; [constructor|]. apply drainEnds_rests; [|done]. rewrite Hp1. by destruct (cq_pending s).
      + unfold cycleRuns. by rewrite Hc1.
    - rewrite Hp. simpl. exists []. split; [constructor|]. apply drainEnds_rests; [by rewrite Hp1|done]. }
  assert (forall s1, cq_drain s1 = dr_settled -> cq_pending s1 = cq_pending s -> cq_cycle s1 = cy_none -> rests s1) as Hset.
  { intros s1 Hd1 Hp1 Hc1. apply (rests_step qo_drainResumes); [done|]. simpl. unfold drainResumes. rewrite Hd1.
    by apply Hloop. }
  destruct (cq_drain s) as [|rounds seen| |m|batch] eqn:Ed.
  - exists []. split; [constructor|]. split_and!; try done. simpl. destruct (cq_pending s) eqn:Ep; [done|].
    destruct (Ht ltac:(by rewrite Ep)) as [H|H]; exfalso; [unfold draining in H; by rewrite Ed in H|].
    unfold cycleRuns in H. by rewrite Hc in H.
  - apply (rests_step qo_delayOver); [done|]. simpl. unfold delayOver. rewrite Ed. unfold settleLoop.
    destruct (_ && _); [|by apply Hset].
    apply (rests_step qo_delayOver); [done|]. simpl. unfold delayOver, settleLoop. simpl.
    rewrite bool_decide_true by done. simpl. by apply Hset.
  - by apply Hset.
  - apply (rests_step qo_drainResumes); [done|]. simpl. unfold drainResumes. rewrite Ed.
    unfold cycleRuns. rewrite Hc. simpl. destruct (Hcomp s eq_refl Hc) as [|Hp]; [done|].
    unfold compose, planCoalescedDelivery. simpl. rewrite Hp. simpl.
    exists []. split; [constructor|]. by apply drainEnds_rests.
  - apply (rests_step (qo_turnEnded false)); [done|]. simpl. unfold turnEnded. rewrite Ed. by apply Hloop.
Qed.

Lemma rests_any s : taken_up s -> rests s.
Proof.
  intros Ht.
  assert (forall s1, taken_up s1 -> cq_cycle s1 = cy_done -> rests s1) as Hdone.
  { intros s1 Ht1 Hc1. apply (rests_step qo_cycleEnded); [done|].
    pose proof (cq_step_taken qo_cycleEnded s1 Ht1) as Ht2. simpl in *.
    eapply rests_no_cycle; [done| |done]. unfold cycleEnded. rewrite Hc1.
    destruct (_ && _); [|done]. unfold drain, settle, settleLoop. repeat case_match; done. }
  destruct (cq_cycle s) as [|h|] eqn:Ec.
  - by eapply rests_no_cycle.
  - apply (rests_step (qo_steerAnswered "" sr_refused false)); [done|].
    apply Hdone; [by apply cq_step_taken|]. simpl. unfold steerAnswered. by rewrite Ec.
  - by apply Hdone.
Qed.
End Progress.

(** ** Theorems *)

(** C21: a conversation's messages are handed to the agent, in a turn or in a
    steer it took, once each and in the order they came: what was handed over,
    the steer that is out, and what waits are together exactly what was
    submitted, however turns, steers and arrivals interleave. *)
Theorem messages_keep_their_order {T} (d : QDeps T) l :
  let s := cq_run d l createConversationQueue in
  handed s ++ heldSteer s ++ cq_pending s = flat_map submitted_by l.
Proof. intros s. by destruct (cq_run_order d l createConversationQueue create_cq_wf) as [_ H]. Qed.

(** A conversation runs one turn at a time: read off what the surface is
    told, turns start and settle in alternation, and one is on exactly while
    the queue waits for it. *)
Theorem one_turn_at_a_time {T} (d : QDeps T) l :
  let s := cq_run d l createConversationQueue in
  turn_on (cq_log s) = Some (match cq_drain s with dr_turn _ => true | _ => false end).
Proof. by apply (cq_run_turn d l createConversationQueue). Qed.

(** No message is stranded: whatever happened before, once nothing more is
    submitted, a finite run of answers, delays and turn ends brings the queue to
    rest with every message handed over. *)
Theorem queue_comes_to_rest {T} (d : QDeps T) l :
  exists l', Forall no_submit l' /\
    let s := cq_run d (l ++ l') createConversationQueue in
    at_rest s /\ handed s = flat_map submitted_by l.
Proof.
  assert (taken_up (cq_run d l createConversationQueue)) as Ht by (apply cq_run_taken; intros []; done).
  destruct (rests_any d _ Ht) as (l' & Hl & Hr). exists l'. split; [done|].
  assert (cq_run d (l ++ l') createConversationQueue = cq_run d l' (cq_run d l createConversationQueue)) as E
    by (unfold cq_run; by rewrite foldl_app).
  simpl. rewrite E. split; [done|]. destruct Hr as (Hp & _ & Hc).
  destruct (cq_run_order d (l ++ l') createConversationQueue create_cq_wf) as [_ H]. rewrite E in H.
  unfold all_of in H. rewrite Hp in H. unfold heldSteer in H. rewrite Hc in H. simpl in H. rewrite app_nil_r in H.
  rewrite H, flat_map_app. assert (flat_map submitted_by l' = []) as ->; [|by rewrite app_nil_r].
  clear -Hl. induction Hl as [|op l' Ho _ IH]; [done|]. simpl. rewrite IH. by destruct op.
Qed.

(** A burst becomes one turn, a message that comes meanwhile joins it, and one
    the agent declines goes first in the next. *)
Definition sample_deps : QDeps nat := mk_qdeps 400 (Some (fun n => negb (n =? 9))).
Definition sample_run : list (QOp nat) :=
  [ qo_submit "" 1; qo_submit "" 2; qo_delayOver; qo_delayOver; qo_cycleEnded; qo_drainResumes;
    qo_onSession "s" (Some "p"); qo_submit "u3" 3; qo_submit "" 4; qo_steerAnswered "u4" sr_injected false;
    qo_turnEnded false; qo_submit "" 5; qo_steerAnswered "" sr_refused false; qo_cycleEnded; qo_delayOver;
    qo_delayOver; qo_drainResumes ]%string.

Example sample_queue :
  cq_log (cq_run sample_deps sample_run createConversationQueue) =
    [ QTurn [1; 2]; QSteer "s" [3] "u3" "p"; QSteered [3]; QSteer "s" [4] "u4" "p"; QTurnSettled [1; 2];
      QTurn [4; 5] ]%string.
Proof. reflexivity. Qed.

(** The queue tells that it is empty at the end of a drain, unless a steer is
    still out: when that steer is then taken, nothing tells it. *)
Example empty_is_not_told :
  let s := cq_run sample_deps
    [ qo_submit "" 1; qo_delayOver; qo_delayOver; qo_drainResumes; qo_onSession "s" (Some "p"); qo_submit "u" 2;
      qo_turnEnded true; qo_steerAnswered "" sr_injected false; qo_cycleEnded ]%string createConversationQueue in
  at_rest s /\ cq_log s = [ QTurn [1]; QSteer "s" [2] "u" "p"; QTurnSettled [1]; QError; QSteered [2] ]%string.
Proof. vm_compute. done. Qed.
