(* ===== verification/LeaderLease.v ===== *)
(** The leader lease of the api-server's replicas
    (packages/api-server/src/core/leader-lease.ts).

    One replica is modelled with the Lease object on the API server, which
    other replicas may write at any moment.  The source is asynchronous code
    over shared variables; [LL] holds the variables, and what each running call
    waits for: a campaign at [CPhase], the transition under way at [TPhase], a
    [stop()] at [SPhase], a release of the Lease at [Rel].  Between two awaits
    the code runs alone.  An event answers a call, or goes on with code whose
    promise is settled; events come in any order, and one that nothing waits for
    changes nothing.  An API call may fail before its effect or after it.

    The clock is the replica's own, given with each event.  [ll_log] notes what
    the theorems read: the foreign leases read, and the takeovers.
    The roles have names of their own. *)
From stdpp Require Import base strings list.
From Stdlib Require Import ZArith Lia.
From S2P Require Import Prelude JsString.
Local Open Scope nat_scope.

(** ** The Lease on the API server *)
Record LeaseObj := mk_lease {
  lo_holderIdentity : option string;
  lo_renewTime : string;
  lo_leaseTransitions : option Z;
  lo_version : nat;
}.

Inductive Release := rl_reading | rl_deleting (version : nat).

(** ** The replica *)
Inductive Outcome := oc_won (won : bool) | oc_threw.

Inductive CPhase :=
| cp_reading (recreate : bool)
| cp_creating (recreate : bool)
| cp_replacing (recreate : bool) (version : nat) (mine : bool)
| cp_settled (o : Outcome)
| cp_waiting (slot : nat) (thenRelease : bool)
| cp_releasing (r : Release).

Record Campaign := mk_campaign {
  ca_id : nat;
  ca_generation : nat;
  ca_starter : bool;
  ca_phase : CPhase;
}.

(** A role being stopped: has its stop been tried before? *)
Record Stopping := mk_stopping { sg_role : string; sg_retried : bool }.

Inductive TPhase :=
| tp_starting (waiting failed : list string)
| tp_rollback (stopping : list Stopping)
| tp_stopping (stopping : list Stopping)
| tp_releasing (r : Release).

Inductive SPhase := sp_claims (ids : list nat) | sp_waiting (slot : nat) | sp_releasing (r : Release).

Inductive LEvent :=
| LRead (now : Z) (holder : option string) (renew : string)
| LTakeover (now : Z) (holder : option string) (renew : string).

Record Seen := mk_seen { sn_holder : option string; sn_renew : string; sn_at : Z }.

Record LL := mk_ll {
  ll_held : bool;
  ll_generation : nat;
  ll_timers : list nat;
  ll_timer : option nat;
  ll_seen : option Seen;
  ll_acquireFailures : nat;
  ll_backoffUntil : Z;
  ll_running : list string;
  ll_stopFailed : list string;
  ll_campaignFailures : nat;
  ll_campaigns : list Campaign;
  ll_queue : list (nat * bool);
  ll_active : option (nat * TPhase);
  ll_slots : nat;
  ll_stops : list SPhase;
  ll_ids : nat;
  ll_lease : option LeaseObj;
  ll_versions : nat;
  ll_log : list LEvent;
}.

Record LLConfig := mk_llconfig { lc_identity : string; lc_roles : list string; lc_ttlMs : Z }.

Definition createLeaderLease (lease : option LeaseObj) : LL :=
  mk_ll false 0 [] None None 0 0 [] [] 0 [] [] None 0 [] 0 lease
    (match lease with Some l => S (lo_version l) | None => 0 end) [].

(** How the API server answers: as it should, with an error after the effect,
    or with an error before it. *)
Inductive Answer := an_ok | an_lost | an_error.

(** The status of a call: done, 404, 409, or another failure. *)
Inductive Status := ok_200 | no_404 | no_409 | no_other.

Section Replica.
Context (c : LLConfig).
Implicit Types s : LL.

Definition set_held b s := mk_ll b (ll_generation s) (ll_timers s) (ll_timer s) (ll_seen s) (ll_acquireFailures s) (ll_backoffUntil s) (ll_running s) (ll_stopFailed s) (ll_campaignFailures s) (ll_campaigns s) (ll_queue s) (ll_active s) (ll_slots s) (ll_stops s) (ll_ids s) (ll_lease s) (ll_versions s) (ll_log s).
Definition set_generation g l t s := mk_ll (ll_held s) g l t (ll_seen s) (ll_acquireFailures s) (ll_backoffUntil s) (ll_running s) (ll_stopFailed s) (ll_campaignFailures s) (ll_campaigns s) (ll_queue s) (ll_active s) (ll_slots s) (ll_stops s) (ll_ids s) (ll_lease s) (ll_versions s) (ll_log s).
Definition set_seen x s := mk_ll (ll_held s) (ll_generation s) (ll_timers s) (ll_timer s) x (ll_acquireFailures s) (ll_backoffUntil s) (ll_running s) (ll_stopFailed s) (ll_campaignFailures s) (ll_campaigns s) (ll_queue s) (ll_active s) (ll_slots s) (ll_stops s) (ll_ids s) (ll_lease s) (ll_versions s) (ll_log s).
Definition set_backoff f u s := mk_ll (ll_held s) (ll_generation s) (ll_timers s) (ll_timer s) (ll_seen s) f u (ll_running s) (ll_stopFailed s) (ll_campaignFailures s) (ll_campaigns s) (ll_queue s) (ll_active s) (ll_slots s) (ll_stops s) (ll_ids s) (ll_lease s) (ll_versions s) (ll_log s).
Definition set_roles r f s := mk_ll (ll_held s) (ll_generation s) (ll_timers s) (ll_timer s) (ll_seen s) (ll_acquireFailures s) (ll_backoffUntil s) r f (ll_campaignFailures s) (ll_campaigns s) (ll_queue s) (ll_active s) (ll_slots s) (ll_stops s) (ll_ids s) (ll_lease s) (ll_versions s) (ll_log s).
Definition set_campaignFailures n s := mk_ll (ll_held s) (ll_generation s) (ll_timers s) (ll_timer s) (ll_seen s) (ll_acquireFailures s) (ll_backoffUntil s) (ll_running s) (ll_stopFailed s) n (ll_campaigns s) (ll_queue s) (ll_active s) (ll_slots s) (ll_stops s) (ll_ids s) (ll_lease s) (ll_versions s) (ll_log s).
Definition set_campaigns l n s := mk_ll (ll_held s) (ll_generation s) (ll_timers s) (ll_timer s) (ll_seen s) (ll_acquireFailures s) (ll_backoffUntil s) (ll_running s) (ll_stopFailed s) (ll_campaignFailures s) l (ll_queue s) (ll_active s) (ll_slots s) (ll_stops s) n (ll_lease s) (ll_versions s) (ll_log s).
Definition set_queue q a n s := mk_ll (ll_held s) (ll_generation s) (ll_timers s) (ll_timer s) (ll_seen s) (ll_acquireFailures s) (ll_backoffUntil s) (ll_running s) (ll_stopFailed s) (ll_campaignFailures s) (ll_campaigns s) q a n (ll_stops s) (ll_ids s) (ll_lease s) (ll_versions s) (ll_log s).
Definition set_stops l s := mk_ll (ll_held s) (ll_generation s) (ll_timers s) (ll_timer s) (ll_seen s) (ll_acquireFailures s) (ll_backoffUntil s) (ll_running s) (ll_stopFailed s) (ll_campaignFailures s) (ll_campaigns s) (ll_queue s) (ll_active s) (ll_slots s) l (ll_ids s) (ll_lease s) (ll_versions s) (ll_log s).
Definition set_lease l n s := mk_ll (ll_held s) (ll_generation s) (ll_timers s) (ll_timer s) (ll_seen s) (ll_acquireFailures s) (ll_backoffUntil s) (ll_running s) (ll_stopFailed s) (ll_campaignFailures s) (ll_campaigns s) (ll_queue s) (ll_active s) (ll_slots s) (ll_stops s) (ll_ids s) l n (ll_log s).
Definition note e s := mk_ll (ll_held s) (ll_generation s) (ll_timers s) (ll_timer s) (ll_seen s) (ll_acquireFailures s) (ll_backoffUntil s) (ll_running s) (ll_stopFailed s) (ll_campaignFailures s) (ll_campaigns s) (ll_queue s) (ll_active s) (ll_slots s) (ll_stops s) (ll_ids s) (ll_lease s) (ll_versions s) (ll_log s ++ [e]).

(** *** Calls of the API *)

(** A write that the server accepts, for [an_ok] and [an_lost]. *)
Definition written (a : Answer) (l : option LeaseObj) s : LL :=
  match a with an_error => s | _ => set_lease l (S (ll_versions s)) s end.
Definition status_of (a : Answer) (st : Status) : Status := match a with an_ok => st | _ => no_other end.

(** What a campaign writes: itself, and its own clock. *)
Definition spec (renew : string) (transitions : option Z) s : LeaseObj :=
  mk_lease (Some (lc_identity c)) renew transitions (ll_versions s).

Definition createNamespacedLease (a : Answer) (renew : string) s : LL * Status :=
  match ll_lease s with
  | None => (written a (Some (spec renew None s)) s, status_of a ok_200)
  | Some _ => (s, status_of a no_409)
  end.

Definition replaceNamespacedLease (a : Answer) (renew : string) (version : nat) (mine : bool) s : LL * Status :=
  match ll_lease s with
  | None => (s, status_of a no_404)
  | Some l =>
      if lo_version l =? version then
        (written a (Some (spec renew
           (if mine then lo_leaseTransitions l else Some ((lo_leaseTransitions l ?? 0) + 1)%Z) s)) s,
         status_of a ok_200)
      else (s, status_of a no_409)
  end.

(** Deletion under the precondition that the Lease is the one read. *)
Definition deleteNamespacedLease (a : Answer) (version : nat) s : LL :=
  match ll_lease s with
  | Some l =>
      if lo_version l =? version
      then match a with an_error => s | _ => set_lease None (ll_versions s) s end else s
  | None => s
  end.

(** *** Releasing the Lease *)

(** [releaseLease] up to its first await: nothing when some role may still serve. *)
Definition releaseLease s : option Release :=
  match ll_stopFailed s with [] => Some rl_reading | _ => None end.

(** Its answers; [None] is its end. *)
Definition releaseAnswered (a : Answer) (r : Release) s : LL * option Release :=
  match r with
  | rl_reading =>
      (s, match a, ll_lease s with
          | an_ok, Some l =>
              if ostr_eqb (lo_holderIdentity l) (lc_identity c) then Some (rl_deleting (lo_version l)) else None
          | _, _ => None
          end)
  | rl_deleting version => (deleteNamespacedLease a version s, None)
  end.

(** *** Transitions *)

(** [transitionTo]: the transition takes the next place in the chain. *)
Definition transitionTo (next : bool) s : LL * nat :=
  (set_queue (ll_queue s ++ [(ll_slots s, next)]) (ll_active s) (S (ll_slots s)) s, ll_slots s).

(** The place of a transition is settled when it and all before it are over. *)
Definition slotDone (slot : nat) s : bool :=
  match ll_active s with
  | Some (active, _) => slot <? active
  | None => match ll_queue s with (first, _) :: _ => slot <? first | [] => true end
  end.

Definition set_active (a : option TPhase) (slot : nat) s : LL :=
  set_queue (ll_queue s) (pair slot <$> a) (ll_slots s) s.

Definition endTransition s : LL := set_queue (ll_queue s) None (ll_slots s) s.

(** [stopRole] of each role: none counts as running from here on. *)
Definition stopRoles (roles : list string) s : LL * list Stopping :=
  (set_roles (List.filter (fun r => negb (bool_decide (r ∈ roles))) (ll_running s)) (ll_stopFailed s) s,
   map (fun r => mk_stopping r false) roles).

(** The end of a release, or its next call, inside a transition. *)
Definition releaseInTransition (slot : nat) (r : option Release) s : LL :=
  match r with Some r => set_active (Some (tp_releasing r)) slot s | None => endTransition s end.

(** What follows the roll-back of a failed start. *)
Definition rolledBack (now : Z) (slot : nat) s : LL :=
  let failures := S (ll_acquireFailures s) in
  let s := set_backoff failures (now + lc_ttlMs c * Z.of_nat (Nat.min failures 4))%Z s in
  let s := set_held false s in
  releaseInTransition slot (releaseLease s) s.

Definition allStopped (now : Z) (slot : nat) (rollback : bool) (stopping : list Stopping) s : LL :=
  match stopping with
  | [] => if rollback then rolledBack now slot s else endTransition s
  | _ => set_active (Some ((if rollback then tp_rollback else tp_stopping) stopping)) slot s
  end.

(** [startAll], once every role has answered. *)
Definition allStarted (now : Z) (slot : nat) (waiting failed : list string) s : LL :=
  match waiting with
  | [] =>
      match failed with
      | [] => endTransition (set_backoff 0 (ll_backoffUntil s) s)
      | _ =>
          let '(s, stopping) := stopRoles (lc_roles c) s in
          allStopped now slot true stopping s
      end
  | _ => set_active (Some (tp_starting waiting failed)) slot s
  end.

(** The next transition of the chain begins. *)
Definition beginTransition (now : Z) s : LL :=
  match ll_active s, ll_queue s with
  | None, (slot, next) :: rest =>
      let s := set_queue rest None (ll_slots s) s in
      if Bool.eqb (ll_held s) next then s
      else
        let s := set_held next s in
        if next then allStarted now slot (lc_roles c) [] s
        else
          let '(s, stopping) :=
            stopRoles (List.filter (fun r => bool_decide (r ∈ ll_running s)) (lc_roles c)) s in
          allStopped now slot false stopping s
  | _, _ => s
  end.

Definition without (role : string) (l : list string) : list string :=
  List.filter (fun r => negb (String.eqb r role)) l.

(** [onAcquired] of a role settles. *)
Definition roleStarted (now : Z) (role : string) (ok : bool) s : LL :=
  match ll_active s with
  | Some (slot, tp_starting waiting failed) =>
      if bool_decide (role ∈ waiting) then
        let s := if ok then set_roles (without role (ll_running s) ++ [role]) (ll_stopFailed s) s else s in
        allStarted now slot (without role waiting) (if ok then failed else failed ++ [role]) s
      else s
  | _ => s
  end.

(** [onLost] of a role settles: a failed one is tried once more. *)
Definition stopSettled (role : string) (ok : bool) (stopping : list Stopping) s : LL * list Stopping :=
  match List.find (fun g => String.eqb (sg_role g) role) stopping with
  | None => (s, stopping)
  | Some g =>
      let rest := List.filter (fun g => negb (String.eqb (sg_role g) role)) stopping in
      if ok then (set_roles (ll_running s) (without role (ll_stopFailed s)) s, rest)
      else if sg_retried g then
        (set_roles (ll_running s) (without role (ll_stopFailed s) ++ [role]) s, rest)
      else (s, mk_stopping role true :: rest)
  end.

Definition roleStopped (now : Z) (role : string) (ok : bool) s : LL :=
  match ll_active s with
  | Some (slot, tp_rollback stopping) =>
      let '(s, stopping) := stopSettled role ok stopping s in allStopped now slot true stopping s
  | Some (slot, tp_stopping stopping) =>
      let '(s, stopping) := stopSettled role ok stopping s in allStopped now slot false stopping s
  | _ => s
  end.

Definition transitionReleased (a : Answer) s : LL :=
  match ll_active s with
  | Some (slot, tp_releasing r) =>
      let '(s, r) := releaseAnswered a r s in releaseInTransition slot r s
  | _ => s
  end.

(** *** Campaigns *)

(** The timers that run: the one [timer] holds is last; those before it were
    set by an earlier [start()] and are not cleared any more. *)
Definition timers s : list nat := ll_timers s ++ match ll_timer s with Some g => [g] | None => [] end.

Definition put_campaign (ca : Campaign) (p : CPhase) s : LL :=
  set_campaigns (map (fun x => if ca_id x =? ca_id ca then mk_campaign (ca_id ca) (ca_generation ca) (ca_starter ca) p else x)
                   (ll_campaigns s)) (ll_ids s) s.

(** A campaign is over; behind the one [start()] awaits, the timer is set. *)
Definition endCampaign (ca : Campaign) s : LL :=
  let s := set_campaigns (List.filter (fun x => negb (ca_id x =? ca_id ca)) (ll_campaigns s)) (ll_ids s) s in
  if ca_starter ca && (ca_generation ca =? ll_generation s)
  then set_generation (ll_generation s) (timers s) (Some (ll_generation s)) s else s.

Definition campaign (now : Z) (generation : nat) (starter : bool) s : LL :=
  let ca := mk_campaign (ll_ids s) generation starter (cp_reading true) in
  let s := set_campaigns (ll_campaigns s ++ [ca]) (S (ll_ids s)) s in
  if (now <? ll_backoffUntil s)%Z then endCampaign ca s else s.

(** The [catch] of [claim]. *)
Definition claimFailed (st : Status) (recreate : bool) : CPhase :=
  match st with
  | no_404 => if recreate then cp_reading false else cp_settled (oc_won false)
  | no_409 => cp_settled (oc_won false)
  | _ => cp_settled oc_threw
  end.

(** [claim], behind its read. *)
Definition claimRead (now : Z) (recreate : bool) s : LL * CPhase :=
  match ll_lease s with
  | None => (s, cp_creating recreate)
  | Some current =>
      if ostr_eqb (lo_holderIdentity current) (lc_identity c)
      then (s, cp_replacing recreate (lo_version current) true)
      else
        let holder := lo_holderIdentity current in
        let renew := lo_renewTime current in
        let observed :=
          match ll_seen s with
          | Some seen =>
              if bool_decide (sn_holder seen = holder) && String.eqb (sn_renew seen) renew
              then seen else mk_seen holder renew now
          | None => mk_seen holder renew now
          end in
        let s := note (LRead now holder renew) (set_seen (Some observed) s) in
        if (now - sn_at observed <? lc_ttlMs c)%Z then (s, cp_settled (oc_won false))
        else (note (LTakeover now holder renew) s, cp_replacing recreate (lo_version current) false)
  end.

(** An answer to a campaign's call; [renew] is what its clock writes. *)
Definition claimAnswered (now : Z) (a : Answer) (renew : string) (p : CPhase) s : LL * CPhase :=
  match p with
  | cp_reading recreate =>
      match a with
      | an_ok => claimRead now recreate s
      | _ => (s, claimFailed no_other recreate)
      end
  | cp_creating recreate =>
      let '(s, st) := createNamespacedLease a renew s in
      (s, match st with ok_200 => cp_settled (oc_won true) | _ => claimFailed st recreate end)
  | cp_replacing recreate version mine =>
      let '(s, st) := replaceNamespacedLease a renew version mine s in
      (s, match st with ok_200 => cp_settled (oc_won true) | _ => claimFailed st recreate end)
  | _ => (s, p)
  end.

Definition find_campaign (id : nat) s : option Campaign :=
  List.find (fun x => ca_id x =? id) (ll_campaigns s).

Definition isClaiming (p : CPhase) : bool :=
  match p with cp_reading _ | cp_creating _ | cp_replacing _ _ _ => true | _ => false end.

Definition apiAnswered (now : Z) (id : nat) (a : Answer) (renew : string) s : LL :=
  match find_campaign id s with
  | None => s
  | Some ca =>
      match ca_phase ca with
      | cp_releasing r =>
          match releaseAnswered a r s with
          | (s, Some r) => put_campaign ca (cp_releasing r) s
          | (s, None) => endCampaign ca s
          end
      | p => let '(s, p) := claimAnswered now a renew p s in put_campaign ca p s
      end
  end.

(** [campaign] goes on behind its claim, or behind the transition it awaits. *)
Definition campaignResumes (id : nat) s : LL :=
  match find_campaign id s with
  | None => s
  | Some ca =>
      match ca_phase ca with
      | cp_settled o =>
          if negb (ca_generation ca =? ll_generation s) then endCampaign ca s
          else
            match o with
            | oc_won won =>
                let '(s, slot) := transitionTo won (set_campaignFailures 0 s) in
                put_campaign ca (cp_waiting slot false) s
            | oc_threw =>
                let s := set_campaignFailures (S (ll_campaignFailures s)) s in
                if ll_held s && (2 <=? ll_campaignFailures s) then
                  let '(s, slot) := transitionTo false s in
                  put_campaign ca (cp_waiting slot true) s
                else endCampaign ca s
            end
      | cp_waiting slot thenRelease =>
          if negb (slotDone slot s) then s
          else if thenRelease then
            match releaseLease s with
            | Some r => put_campaign ca (cp_releasing r) s
            | None => endCampaign ca s
            end
          else endCampaign ca s
      | _ => s
      end
  end.

(** *** start and stop *)
Definition start (now : Z) s : LL := campaign now (ll_generation s) true s.

(** A timer fires: the campaign keeps the generation it was set under. *)
Definition tick (now : Z) (timer : nat) s : LL :=
  match timers s !! timer with
  | Some generation => campaign now generation false s
  | None => s
  end.

Definition stop s : LL :=
  let s := set_generation (S (ll_generation s)) (ll_timers s) None s in
  set_stops (ll_stops s ++ [sp_claims (map ca_id (List.filter (fun x => isClaiming (ca_phase x)) (ll_campaigns s)))]) s.

Definition claimSettled s (id : nat) : bool :=
  match find_campaign id s with Some ca => negb (isClaiming (ca_phase ca)) | None => true end.

Definition put_stop (n : nat) (p : SPhase) s : LL := set_stops (<[n := p]> (ll_stops s)) s.

(** A [stop()] goes on: [None] ends it. *)
Definition stopResumes (n : nat) s : LL :=
  match ll_stops s !! n with
  | Some (sp_claims ids) =>
      if forallb (claimSettled s) ids then
        let '(s, slot) := transitionTo false s in put_stop n (sp_waiting slot) s
      else s
  | Some (sp_waiting slot) =>
      if slotDone slot s then
        match releaseLease s with
        | Some r => put_stop n (sp_releasing r) s
        | None => set_stops (delete n (ll_stops s)) s
        end
      else s
  | _ => s
  end.

Definition stopReleased (a : Answer) (n : nat) s : LL :=
  match ll_stops s !! n with
  | Some (sp_releasing r) =>
      match releaseAnswered a r s with
      | (s, Some r) => put_stop n (sp_releasing r) s
      | (s, None) => set_stops (delete n (ll_stops s)) s
      end
  | _ => s
  end.

Definition isLeader s : bool := ll_held s.
Definition isRunning (role : string) s : bool := ll_held s && bool_decide (role ∈ ll_running s).

(** Another replica writes the Lease, or removes it. *)
Definition otherWrites (l : option (option string * string * option Z)) s : LL :=
  set_lease ((fun x => mk_lease x.1.1 x.1.2 x.2 (ll_versions s)) <$> l) (S (ll_versions s)) s.
End Replica.

Inductive LLOp :=
| lo_start
| lo_tick (timer : nat)
| lo_stop
| lo_apiAnswered (id : nat) (a : Answer) (renew : string)
| lo_campaignResumes (id : nat)
| lo_beginTransition
| lo_roleStarted (role : string) (ok : bool)
| lo_roleStopped (role : string) (ok : bool)
| lo_transitionReleased (a : Answer)
| lo_stopResumes (n : nat)
| lo_stopReleased (a : Answer) (n : nat)
| lo_otherWrites (l : option (option string * string * option Z)).

Definition ll_step (c : LLConfig) (now : Z) (op : LLOp) (s : LL) : LL :=
  match op with
  | lo_start => start now s
  | lo_tick t => tick now t s
  | lo_stop => stop s
  | lo_apiAnswered id a renew => apiAnswered c now id a renew s
  | lo_campaignResumes id => campaignResumes id s
  | lo_beginTransition => beginTransition c now s
  | lo_roleStarted r ok => roleStarted c now r ok s
  | lo_roleStopped r ok => roleStopped c now r ok s
  | lo_transitionReleased a => transitionReleased c a s
  | lo_stopResumes n => stopResumes n s
  | lo_stopReleased a n => stopReleased c a n s
  | lo_otherWrites l => otherWrites l s
  end.

Definition ll_run (c : LLConfig) (l : list (Z * LLOp)) (s : LL) : LL :=
  foldl (fun s '(now, op) => ll_step c now op s) s l.
