(* ===== verification/LeaderSafety.v ===== *)
(** The leader lease: one set of roles, all or none; a stop that is final; a
    challenger that waits.  Theorems on [LeaderLease]. *)
From stdpp Require Import base strings list.
From Stdlib Require Import ZArith Lia.
From S2P Require Import Prelude JsString LeaderLease.
Local Open Scope nat_scope.

(** ** All roles or none *)

(** The state of the roles, by the phase of the transition under way. *)
Definition roles_agree (c : LLConfig) (s : LL) : Prop :=
  (forall r, r ∈ ll_running s -> r ∈ lc_roles c) /\
  match ll_active s with
  | None => if ll_held s then forall r, r ∈ lc_roles c -> r ∈ ll_running s else ll_running s = []
  | Some (_, tp_starting waiting failed) =>
      ll_held s = true /\ (forall r, r ∈ waiting -> r ∈ lc_roles c) /\
      forall r, r ∈ lc_roles c -> r ∈ waiting \/ r ∈ failed \/ r ∈ ll_running s
  | Some (_, tp_rollback _) => ll_held s = true /\ ll_running s = []
  | Some (_, (tp_stopping _ | tp_releasing _)) => ll_held s = false /\ ll_running s = []
  end.

(** The parts the roles depend on. *)
Definition same_roles (s s' : LL) : Prop :=
  ll_held s' = ll_held s /\ ll_running s' = ll_running s /\ ll_active s' = ll_active s.

Lemma same_roles_agree c s s' : same_roles s s' -> roles_agree c s -> roles_agree c s'.
Proof. intros (H1 & H2 & H3) H. unfold roles_agree in *. by rewrite H1, H2, H3. Qed.

Lemma same_roles_refl s : same_roles s s.
Proof. done. Qed.
Lemma same_roles_trans s1 s2 s3 : same_roles s1 s2 -> same_roles s2 s3 -> same_roles s1 s3.
Proof. intros (?&?&?) (?&?&?). split_and!; congruence. Qed.

Create HintDb lease.
#[export] Hint Resolve same_roles_refl : lease.

(** Case analysis of an operation, one branch of its code after another. *)
Ltac ll_cases :=
  repeat match goal with
  | |- context [let '(_, _) := ?x in _] => destruct x eqn:?
  | |- context [match ?x with _ => _ end] => destruct x eqn:?
  | H : (_, _) = (_, _) |- _ => simplify_eq H; intros; subst
  end; simpl in *.

Lemma written_same a l s : same_roles s (written a l s).
Proof. by destruct a. Qed.
Lemma delete_same a v s : same_roles s (deleteNamespacedLease a v s).
Proof. unfold deleteNamespacedLease. by ll_cases. Qed.
Lemma release_same c a r s : same_roles s (releaseAnswered c a r s).1.
Proof. destruct r; simpl; [done | apply delete_same]. Qed.
Lemma endCampaign_same ca s : same_roles s (endCampaign ca s).
Proof. unfold endCampaign. by ll_cases. Qed.
Lemma campaign_same now g b s : same_roles s (campaign now g b s).
Proof. unfold campaign. ll_cases; [apply (endCampaign_same (mk_campaign _ _ _ _) (set_campaigns _ _ _)) | done]. Qed.

Lemma claimAnswered_same c now a renew p s : same_roles s (claimAnswered c now a renew p s).1.
Proof.
  destruct p; try done; simpl.
  - destruct a; try done. unfold claimRead. by ll_cases.
  - unfold createNamespacedLease. destruct (ll_lease s); [done|]. simpl. apply written_same.
  - unfold replaceNamespacedLease. destruct (ll_lease s) as [l|]; [|done].
    destruct (lo_version l =? version); [apply written_same | done].
Qed.

(** What never touches the roles. *)
Definition no_transition (op : LLOp) : bool :=
  match op with
  | lo_beginTransition | lo_roleStarted _ _ | lo_roleStopped _ _ | lo_transitionReleased _ => false
  | _ => true
  end.

Lemma other_steps_same c now op s : no_transition op = true -> same_roles s (ll_step c now op s).
Proof.
  destruct op; try discriminate; intros _; simpl.
  - apply campaign_same.
  - unfold tick. destruct (_ !! _); [apply campaign_same | done].
  - done.
  - unfold apiAnswered. destruct (find_campaign id s) as [ca|]; [|done].
    destruct (ca_phase ca) as [| | | | |r] eqn:Hp.
    6: { pose proof (release_same c a r s) as H. destruct (releaseAnswered c a r s) as [s' [r'|]]; simpl in H;
         [done | eapply same_roles_trans; [exact H | apply endCampaign_same]]. }
    all: match goal with |- context [claimAnswered ?c ?n ?a ?r ?p ?s] =>
           pose proof (claimAnswered_same c n a r p s) as H;
           destruct (claimAnswered c n a r p s) as [s' p'] end; done.
  - unfold campaignResumes. destruct (find_campaign id s) as [ca|]; [|done].
    destruct (ca_phase ca) as [| | |o|slot b|]; try done.
    + destruct (negb _); [apply endCampaign_same|]. destruct o; [done|].
      destruct (_ && _); [done | apply (endCampaign_same ca (set_campaignFailures _ s))].
    + destruct (negb _), b; try done; [|apply endCampaign_same].
      destruct (releaseLease s); [done | apply endCampaign_same].
  - unfold stopResumes. destruct (_ !! _) as [[]|]; try done; [by destruct (forallb _ _)|].
    destruct (slotDone _ _); [|done]. by destruct (releaseLease s).
  - unfold stopReleased. destruct (_ !! _) as [[]|]; try done.
    pose proof (release_same c a r s) as H. by destruct (releaseAnswered c a r s) as [s' [r'|]].
  - done.
Qed.

(** **** The steps of a transition *)
Lemma without_elem x r l : x ∈ without r l <-> x ∈ l /\ x <> r.
Proof.
  unfold without. rewrite elem_filter. destruct (String.eqb_spec x r); simpl; naive_solver.
Qed.

Lemma allStopped_agree c now slot rollback stopping s :
  ll_running s = [] -> ll_held s = rollback -> roles_agree c (allStopped c now slot rollback stopping s).
Proof.
  intros Hr Hh. unfold allStopped, rolledBack, releaseInTransition, releaseLease, roles_agree.
  destruct stopping, rollback; simpl; rewrite ?Hh, ?Hr.
  2, 3, 4: split; [intros ? H; by apply elem_of_nil in H | done].
  destruct (ll_stopFailed s); simpl; rewrite ?Hr; split; try done; intros ? H; by apply elem_of_nil in H.
Qed.

Lemma stopRoles_running roles s :
  (forall r, r ∈ ll_running s -> r ∈ roles) -> ll_running (stopRoles roles s).1 = [].
Proof.
  intros H. simpl. apply filter_none, Forall_forall. intros r Hr.
  rewrite bool_decide_eq_true_2; [done | auto].
Qed.

Lemma allStarted_agree c now slot waiting failed s :
  (forall r, r ∈ ll_running s -> r ∈ lc_roles c) -> ll_held s = true ->
  (forall r, r ∈ waiting -> r ∈ lc_roles c) ->
  (forall r, r ∈ lc_roles c -> r ∈ waiting \/ r ∈ failed \/ r ∈ ll_running s) ->
  roles_agree c (allStarted c now slot waiting failed s).
Proof.
  intros Hsub Hh Hw Hall. unfold allStarted. destruct waiting as [|w ws]; [|by split].
  destruct failed as [|f fs].
  - split; [done|]. simpl. rewrite Hh. intros r Hr.
    destruct (Hall r Hr) as [H | [H | H]]; [by apply elem_of_nil in H..|done].
  - pose proof (stopRoles_running (lc_roles c) s Hsub) as He.
    destruct (stopRoles (lc_roles c) s) as [s' stopping] eqn:E. simpl in He.
    apply allStopped_agree; [done | unfold stopRoles in E; injection E as <- _; done].
Qed.

Lemma stopSettled_same role ok stopping s :
  same_roles s (stopSettled role ok stopping s).1.
Proof. unfold stopSettled. ll_cases; done. Qed.

Lemma ll_step_agree c now op s : roles_agree c s -> roles_agree c (ll_step c now op s).
Proof.
  destruct (no_transition op) eqn:E; [apply same_roles_agree; by apply other_steps_same|].
  intros [Hsub H]. destruct op; try discriminate; simpl.
  - unfold beginTransition. destruct (ll_active s) as [[]|] eqn:Ha; [split; rewrite ?Ha; done|].
    destruct (ll_queue s) as [|[slot next] rest]; [split; rewrite ?Ha; done|].
    simpl. destruct (Bool.eqb (ll_held s) next) eqn:Hn; [by split|]. apply eqb_false_iff in Hn.
    destruct next.
    + apply allStarted_agree; simpl; auto.
    + pose proof (stopRoles_running (List.filter (fun r => bool_decide (r ∈ ll_running s)) (lc_roles c)) s) as He.
      apply allStopped_agree; [|done]. apply He. intros r Hr. apply elem_filter.
      split; [auto | by apply bool_decide_eq_true_2].
  - unfold roleStarted. destruct (ll_active s) as [[slot []]|] eqn:Ha; try (split; rewrite ?Ha; done).
    case_bool_decide as Hw; [|split; rewrite ?Ha; done]. destruct H as (Hh & Hin & Hall).
    apply allStarted_agree.
    + destruct ok; [|done]. simpl. intros r. rewrite elem_of_app, list_elem_of_singleton, without_elem.
      intros [[] | ->]; auto.
    + by destruct ok.
    + intros r [Hr _]%without_elem. by apply Hin.
    + intros r Hr. rewrite without_elem. destruct (decide (r = role)) as [->|Hne].
      * destruct ok; simpl; rewrite ?elem_of_app, ?list_elem_of_singleton; auto.
      * destruct (Hall r Hr) as [?|[?|?]]; destruct ok; simpl;
          rewrite ?elem_of_app, ?without_elem; naive_solver.
  - unfold roleStopped. destruct (ll_active s) as [[slot []]|] eqn:Ha; try (split; rewrite ?Ha; done);
      destruct H as [Hh Hr];
      pose proof (stopSettled_same role ok stopping s) as (H1 & H2 & _);
      destruct (stopSettled role ok stopping s) as [s' st]; simpl in H1, H2;
      apply allStopped_agree; congruence.
  - unfold transitionReleased. destruct (ll_active s) as [[slot []]|] eqn:Ha; try (split; rewrite ?Ha; done).
    destruct H as [Hh Hr]. pose proof (release_same c a r s) as (H1 & H2 & _).
    destruct (releaseAnswered c a r s) as [s' [r'|]]; simpl in H1, H2; unfold roles_agree; simpl;
      rewrite H1, H2, Hh, Hr; split_and!; try done; intros ? Hx; by apply elem_of_nil in Hx.
Qed.

(** An invariant of the steps holds along a run. *)
Lemma ll_run_ind c (P : LL -> Prop) (ok : LLOp -> bool) ops s :
  (forall now op s, ok op = true -> P s -> P (ll_step c now op s)) ->
  forallb (fun x => ok x.2) ops = true -> P s -> P (ll_run c ops s).
Proof.
  intros Hstep. revert s. induction ops as [|[now op] ops IH]; intros s Hops Hs; [done|].
  simpl in *. apply andb_prop in Hops as [? ?]. apply IH; auto.
Qed.

Lemma ll_run_agree c lease ops : roles_agree c (ll_run c ops (createLeaderLease lease)).
Proof.
  apply (ll_run_ind c _ (fun _ => true)).
  - intros now op s _. apply ll_step_agree.
  - by apply forallb_forall.
  - split; [|done]. intros ? H; by apply elem_of_nil in H.
Qed.

(** Who has stood down runs nothing. *)
Lemma agree_held c s : roles_agree c s -> ll_held s = false -> ll_running s = [].
Proof.
  intros [_ H] Hf. rewrite Hf in H. destruct (ll_active s) as [[? []]|]; naive_solver.
Qed.

(** The roles start and stop together: whatever the API server answers and
    whichever roles fail, when no transition is under way a replica that holds
    the Lease runs every role and one that does not runs none; and a replica
    that has stood down runs none even while roles are still being stopped. *)
Theorem all_roles_or_none c lease ops :
  let s := ll_run c ops (createLeaderLease lease) in
  (ll_active s = None -> forall role, role ∈ lc_roles c -> isRunning role s = isLeader s) /\
  (isLeader s = false -> ll_running s = []).
Proof.
  intros s. pose proof (ll_run_agree c lease ops) as HA. fold s in HA. destruct (HA) as [Hsub H].
  unfold isRunning, isLeader. split.
  - intros Ha role Hr. rewrite Ha in H. destruct (ll_held s); [|done].
    by rewrite bool_decide_eq_true_2 by auto.
  - by apply (agree_held c).
Qed.

(** ** Stopping is not outrun *)

(** The chain of transitions: places are given in order. *)
Definition chain_ok (s : LL) : Prop :=
  exists begun,
    map fst (ll_queue s) = seq begun (ll_slots s - begun) /\ begun <= ll_slots s /\
    (forall a p, ll_active s = Some (a, p) -> a < begun).

(** From place [k] on only stand-downs are queued; behind it the replica has
    stood down. *)
Definition stands_down (k : nat) (s : LL) : Prop :=
  (forall j b, (j, b) ∈ ll_queue s -> k <= j -> b = false) /\
  (forall p, head (ll_queue s) = p -> k < (fst <$> p) ?? (ll_slots s) -> ll_held s = false).

(** Campaigns and timers of generations before [n]. *)
Definition gens_below (n : nat) (s : LL) : Prop :=
  Forall (fun ca => ca_generation ca < n) (ll_campaigns s) /\ Forall (fun g => g < n) (timers s).

(** What a step does to the chain. *)
Inductive chain_move (s s' : LL) : Prop :=
| cm_same :
    ll_queue s' = ll_queue s -> ll_slots s' = ll_slots s ->
    (forall a p, ll_active s' = Some (a, p) -> exists p', ll_active s = Some (a, p')) ->
    ll_held s' = ll_held s \/ ll_held s' = false -> chain_move s s'
| cm_push b :
    ll_queue s' = ll_queue s ++ [(ll_slots s, b)] -> ll_slots s' = S (ll_slots s) ->
    ll_active s' = ll_active s -> ll_held s' = ll_held s ->
    (b = true -> exists ca, ca ∈ ll_campaigns s /\ ca_generation ca = ll_generation s) ->
    chain_move s s'
| cm_begin k next :
    ll_queue s = (k, next) :: ll_queue s' -> ll_slots s' = ll_slots s ->
    (forall a p, ll_active s' = Some (a, p) -> a = k) ->
    ll_held s' = next \/ ll_held s' = false -> chain_move s s'.

Lemma chain_move_ok s s' : chain_move s s' -> chain_ok s -> chain_ok s'.
Proof.
  intros Hm (n & Hq & Hle & Ha). destruct Hm as [E1 E2 Hact _ | b E1 E2 E3 _ _ | k next E1 E2 Hact _].
  - exists n. rewrite E1, E2. split_and!; try done. intros a p [p' Hp]%Hact. eauto.
  - exists n. rewrite E1, E2, E3. split_and!; [|lia|done].
    rewrite map_app, Hq. replace (S (ll_slots s) - n) with (S (ll_slots s - n)) by lia.
    rewrite seq_S. simpl. do 2 f_equal. lia.
  - rewrite E1 in Hq. simpl in Hq.
    destruct (ll_slots s - n) as [|m] eqn:En; [done|]. simpl in Hq. injection Hq as -> Hq.
    exists (S n). rewrite E2. split_and!; [|lia|].
    + rewrite Hq. f_equal. lia.
    + intros a p ->%Hact. lia.
Qed.

Lemma stands_down_move k s s' :
  chain_move s s' -> chain_ok s -> gens_below (ll_generation s) s ->
  k <= ll_slots s -> stands_down k s -> stands_down k s'.
Proof.
  intros Hm (n & Hq & Hle & Ha) [Hg _] Hk [Hf Hh].
  destruct Hm as [E1 E2 _ E4 | b E1 E2 _ E4 Hb | j next E1 E2 _ E4].
  - split; [by rewrite E1|]. intros p. rewrite E1, E2. intros Hp Hlt.
    specialize (Hh p Hp Hlt). destruct E4; congruence.
  - assert (b = false) as ->.
    { destruct b; [|done]. destruct (Hb eq_refl) as (ca & Hca & Hgen).
      rewrite Forall_forall in Hg. specialize (Hg ca Hca). lia. }
    split.
    + rewrite E1. intros j b [Hj | Hj%list_elem_of_singleton]%elem_of_app; [eauto | congruence].
    + intros p. rewrite E1, E2, E4. intros <- Hlt. apply (Hh _ eq_refl).
      destruct (ll_queue s) as [|[]] eqn:Eq; simpl in *; [|done].
      destruct (ll_slots s - n) as [|m] eqn:En; [|done]. lia.
  - split.
    + intros i b Hi. apply Hf. rewrite E1. by right.
    + intros p <- Hlt. rewrite E1 in Hq. simpl in Hq.
      destruct (ll_slots s - n) as [|m] eqn:En; [done|]. simpl in Hq. injection Hq as -> Hq.
      assert (k <= n) as Hkn.
      { destruct (ll_queue s') as [|[i b] q]; simpl in *.
        - destruct m; [|done]. rewrite E2 in Hlt. lia.
        - destruct m; [done|]. simpl in Hq. injection Hq as -> _. lia. }
      assert (next = false) as -> by (apply (Hf n); [rewrite E1; left | lia]).
      destruct E4; done.
Qed.

(** What the pieces of a step leave alone. *)
Definition same_chain (s s' : LL) : Prop :=
  same_roles s s' /\ ll_queue s' = ll_queue s /\ ll_slots s' = ll_slots s /\
  ll_generation s' = ll_generation s /\ ll_campaigns s' = ll_campaigns s /\ timers s' = timers s /\
  ll_stops s' = ll_stops s.

Lemma same_chain_refl s : same_chain s s.
Proof. done. Qed.

Lemma release_chain c a r s : same_chain s (releaseAnswered c a r s).1.
Proof. destruct r; simpl; [done|]. unfold deleteNamespacedLease. by ll_cases. Qed.

Lemma claim_chain c now a renew p s : same_chain s (claimAnswered c now a renew p s).1.
Proof.
  destruct p; try done; simpl.
  - destruct a; try done. unfold claimRead. by ll_cases.
  - unfold createNamespacedLease. destruct (ll_lease s); [done|]. by destruct a.
  - unfold replaceNamespacedLease. destruct (ll_lease s) as [l|]; [|done].
    destruct (lo_version l =? version); [|done]. by destruct a.
Qed.

Lemma stopSettled_chain role ok stopping s : same_chain s (stopSettled role ok stopping s).1.
Proof. unfold stopSettled. by ll_cases. Qed.

Lemma same_chain_gens n s s' : same_chain s s' -> gens_below n s -> gens_below n s'.
Proof. intros (_ & _ & _ & _ & H1 & H2 & _). unfold gens_below. by rewrite H1, H2. Qed.

Lemma same_chain_move s s' : same_chain s s' -> chain_move s s'.
Proof.
  intros ((Hh & _ & Ha) & Hq & Hs & _). apply cm_same; try done; [|by left].
  intros a p Hp. exists p. congruence.
Qed.

(** A phase of the transition at [slot] gives another of it, or ends it. *)
Definition goes_on (slot : nat) (s s' : LL) : Prop :=
  ll_queue s' = ll_queue s /\ ll_slots s' = ll_slots s /\
  (forall a p, ll_active s' = Some (a, p) -> a = slot) /\ (ll_held s' = ll_held s \/ ll_held s' = false) /\
  ll_campaigns s' = ll_campaigns s /\ timers s' = timers s /\ ll_generation s' = ll_generation s /\
  ll_stops s' = ll_stops s.

Lemma allStopped_goes_on c now slot rollback stopping s :
  goes_on slot s (allStopped c now slot rollback stopping s).
Proof.
  unfold allStopped, rolledBack, releaseInTransition, releaseLease, goes_on.
  destruct stopping, rollback; simpl; [destruct (ll_stopFailed s)|..]; simpl; split_and!; auto; congruence.
Qed.

Lemma allStarted_goes_on c now slot waiting failed s :
  goes_on slot s (allStarted c now slot waiting failed s).
Proof.
  unfold allStarted. destruct waiting as [|w ws]; [|unfold goes_on; simpl; split_and!; auto; congruence].
  destruct failed as [|f fs]; [unfold goes_on; simpl; split_and!; auto; congruence|].
  apply (allStopped_goes_on c now slot true _ (stopRoles (lc_roles c) s).1).
Qed.

Lemma goes_on_move slot p s s1 s' :
  ll_active s = Some (slot, p) ->
  ll_queue s1 = ll_queue s -> ll_slots s1 = ll_slots s -> ll_held s1 = ll_held s ->
  goes_on slot s1 s' -> chain_move s s'.
Proof.
  intros Ha E1 E2 E3 (H1 & H2 & H3 & H4 & _). apply cm_same; try congruence.
  intros a p' ->%H3. eauto.
Qed.

(** *** Campaigns *)
Lemma put_campaign_gens n ca p s :
  ca_generation ca < n -> gens_below n s -> gens_below n (put_campaign ca p s).
Proof.
  intros Hca [H Ht]. split; [|done]. simpl. apply Forall_map.
  eapply Forall_impl; [exact H|]. intros x Hx. simpl. by destruct (_ =? _).
Qed.

Lemma endCampaign_gens n ca s :
  ca_generation ca < n -> gens_below n s -> gens_below n (endCampaign ca s).
Proof.
  intros Hca [H Ht].
  assert (Forall (fun x => ca_generation x < n) (List.filter (fun x => negb (ca_id x =? ca_id ca)) (ll_campaigns s))) as Hf.
  { rewrite Forall_forall in *. intros x [Hx _]%elem_filter. auto. }
  unfold endCampaign. simpl. destruct (ca_starter ca); simpl; [|by split].
  destruct (Nat.eqb_spec (ca_generation ca) (ll_generation s)) as [E|]; [|by split].
  split; [done|]. simpl. apply Forall_app. split; [done|]. constructor; [lia | done].
Qed.

Lemma campaign_gens n now g b s : g < n -> gens_below n s -> gens_below n (campaign now g b s).
Proof.
  intros Hg [H Ht]. unfold campaign.
  assert (gens_below n (set_campaigns (ll_campaigns s ++ [mk_campaign (ll_ids s) g b (cp_reading true)])
                          (S (ll_ids s)) s)) as Hb.
  { split; [|done]. simpl. apply Forall_app. split; [done|]. by constructor. }
  destruct (_ <? _)%Z; [by apply endCampaign_gens | done].
Qed.

Lemma find_campaign_in id s ca : find_campaign id s = Some ca -> ca ∈ ll_campaigns s.
Proof. intros H%List.find_some. apply list_elem_of_In, H. Qed.

Lemma gens_of_found n id s ca : find_campaign id s = Some ca -> gens_below n s -> ca_generation ca < n.
Proof. intros H%find_campaign_in [Hg _]. rewrite Forall_forall in Hg. auto. Qed.

Definition is_start (op : LLOp) : bool := match op with lo_start => true | _ => false end.

Lemma goes_on_gens n slot s s' : goes_on slot s s' -> gens_below n s -> gens_below n s'.
Proof. intros (_ & _ & _ & _ & H1 & H2 & _). unfold gens_below. by rewrite H1, H2. Qed.

(** Whatever runs, no campaign of a later generation appears. *)
Lemma ll_step_gens n c now op s :
  is_start op = false -> gens_below n s -> gens_below n (ll_step c now op s).
Proof.
  intros Hop Hg. destruct op; try discriminate; simpl.
  - unfold tick. destruct (_ !! _) as [g|] eqn:Eg; [|done].
    apply campaign_gens; [|done]. destruct Hg as [_ Ht]. by apply (Forall_lookup_1 _ _ _ _ Ht Eg).
  - destruct Hg as [H [Ht _]%Forall_app]. split; [done|]. apply Forall_app. by split.
  - unfold apiAnswered. destruct (find_campaign id s) as [ca|] eqn:Ef; [|done].
    pose proof (gens_of_found n id s ca Ef Hg) as Hca.
    destruct (ca_phase ca) as [| | | | |r] eqn:Hp.
    6: { pose proof (release_chain c a r s) as H. destruct (releaseAnswered c a r s) as [s' [r'|]]; simpl in H;
         apply (same_chain_gens n) in H; auto using put_campaign_gens, endCampaign_gens. }
    all: match goal with |- context [claimAnswered ?c ?n ?a ?r ?p ?s] =>
           pose proof (claim_chain c n a r p s) as H; destruct (claimAnswered c n a r p s) as [s' p'] end;
         apply (same_chain_gens n) in H; auto using put_campaign_gens.
  - unfold campaignResumes. destruct (find_campaign id s) as [ca|] eqn:Ef; [|done].
    pose proof (gens_of_found n id s ca Ef Hg) as Hca.
    destruct (ca_phase ca) as [| | |o|slot b|]; try done.
    + destruct (negb _); [by apply endCampaign_gens|]. destruct o; [by apply put_campaign_gens|].
      destruct (_ && _); [by apply put_campaign_gens | by apply endCampaign_gens].
    + destruct (negb _), b; try done; [|by apply endCampaign_gens].
      destruct (releaseLease s); [by apply put_campaign_gens | by apply endCampaign_gens].
  - unfold beginTransition. destruct (ll_active s); [done|].
    destruct (ll_queue s) as [|[slot next] rest]; [done|]. simpl. destruct (Bool.eqb _ _); [done|].
    destruct next; [eapply goes_on_gens; [apply allStarted_goes_on | done]
                   | eapply goes_on_gens; [apply allStopped_goes_on | done]].
  - unfold roleStarted. destruct (ll_active s) as [[slot []]|]; try done. case_bool_decide; [|done].
    eapply goes_on_gens; [apply allStarted_goes_on | by destruct ok].
  - unfold roleStopped. destruct (ll_active s) as [[slot []]|]; try done;
      pose proof (same_chain_gens n _ _ (stopSettled_chain role ok stopping s) Hg) as H;
      destruct (stopSettled role ok stopping s) as [s' st]; simpl in H;
      (eapply goes_on_gens; [apply allStopped_goes_on | done]).
  - unfold transitionReleased. destruct (ll_active s) as [[slot []]|]; try done.
    pose proof (same_chain_gens n _ _ (release_chain c a r s) Hg) as H.
    by destruct (releaseAnswered c a r s) as [s' [r'|]].
  - unfold stopResumes. destruct (_ !! _) as [[]|]; try done; [by destruct (forallb _ _)|].
    destruct (slotDone _ _); [|done]. by destruct (releaseLease s).
  - unfold stopReleased. destruct (_ !! _) as [[]|]; try done.
    pose proof (same_chain_gens n _ _ (release_chain c a r s) Hg) as H.
    by destruct (releaseAnswered c a r s) as [s' [r'|]].
  - done.
Qed.

Lemma same_roles_queue_move s s' :
  same_roles s s' -> ll_queue s' = ll_queue s -> ll_slots s' = ll_slots s -> chain_move s s'.
Proof.
  intros (Hh & _ & Ha) Hq Hs. apply cm_same; try done; [|by left].
  intros a p Hp. exists p. congruence.
Qed.

Lemma endCampaign_move ca s : chain_move s (endCampaign ca s).
Proof. apply same_roles_queue_move; [apply endCampaign_same | unfold endCampaign; by ll_cases..]. Qed.

Lemma campaign_move now g b s : chain_move s (campaign now g b s).
Proof.
  apply same_roles_queue_move; [apply campaign_same | unfold campaign, endCampaign; by ll_cases..].
Qed.

(** Behind a step that leaves the chain alone. *)
Lemma chain_move_after s s1 s' : same_chain s s1 -> chain_move s1 s' -> chain_move s s'.
Proof.
  intros ((Hh & _ & Ha) & Hq & Hs & Hg & Hc & _) [H1 H2 H3 H4 | b H1 H2 H3 H4 H5 | k next H1 H2 H3 H4].
  - apply cm_same; try congruence. intros a p [p' Hp]%H3. exists p'. congruence.
  - apply (cm_push _ _ b); try congruence. by rewrite <- Hc, <- Hg.
  - eapply (cm_begin _ _ k next); congruence || done.
Qed.

(** Every step is a move of the chain. *)
Lemma ll_step_move c now op s : chain_move s (ll_step c now op s).
Proof.
  destruct op; simpl.
  - apply campaign_move.
  - unfold tick. destruct (_ !! _); [apply campaign_move | by apply same_chain_move].
  - by apply same_roles_queue_move.
  - unfold apiAnswered. destruct (find_campaign id s) as [ca|]; [|by apply same_chain_move].
    destruct (ca_phase ca) as [| | | | |r] eqn:Hp.
    6: { pose proof (release_chain c a r s) as H. destruct (releaseAnswered c a r s) as [s' [r'|]]; simpl in H;
         (eapply chain_move_after; [exact H|]); [by apply same_roles_queue_move | apply endCampaign_move]. }
    all: match goal with |- context [claimAnswered ?c ?n ?a ?r ?p ?s] =>
           pose proof (claim_chain c n a r p s) as H; destruct (claimAnswered c n a r p s) as [s' p'] end;
         eapply chain_move_after; [exact H | by apply same_roles_queue_move].
  - unfold campaignResumes. destruct (find_campaign id s) as [ca|] eqn:Ef; [|by apply same_chain_move].
    apply find_campaign_in in Ef.
    destruct (ca_phase ca) as [| | |o|slot b|]; try (by apply same_chain_move).
    + destruct (Nat.eqb_spec (ca_generation ca) (ll_generation s)) as [E|]; simpl; [|apply endCampaign_move].
      destruct o as [won|]; [apply (cm_push _ _ won); eauto|].
      destruct (_ && _); [by apply (cm_push _ _ false)|].
      eapply chain_move_after; [|apply endCampaign_move]. done.
    + destruct (negb _), b; try (by apply same_chain_move); [|apply endCampaign_move].
      destruct (releaseLease s); [by apply same_roles_queue_move | apply endCampaign_move].
  - unfold beginTransition. destruct (ll_active s) eqn:Ha; [by apply same_chain_move|].
    destruct (ll_queue s) as [|[slot next] rest] eqn:Eq; [by apply same_chain_move|]. simpl.
    destruct (Bool.eqb (ll_held s) next) eqn:En.
    { apply eqb_prop in En. apply (cm_begin _ _ slot next); simpl; auto. congruence. }
    assert (forall s1 s', ll_queue s1 = rest -> ll_slots s1 = ll_slots s -> ll_held s1 = next ->
              goes_on slot s1 s' -> chain_move s s') as Hgo.
    { intros s1 s' E1 E2 E3 (H1 & H2 & H3 & H4 & _). apply (cm_begin _ _ slot next); simpl; try congruence; done. }
    destruct next; [eapply Hgo; [..|apply allStarted_goes_on] | eapply Hgo; [..|apply allStopped_goes_on]]; done.
  - unfold roleStarted. destruct (ll_active s) as [[slot p]|] eqn:Ha; [|by apply same_chain_move].
    destruct p; try (by apply same_chain_move). case_bool_decide; [|by apply same_chain_move].
    eapply (goes_on_move slot); [exact Ha|..|apply allStarted_goes_on]; by destruct ok.
  - unfold roleStopped. destruct (ll_active s) as [[slot p]|] eqn:Ha; [|by apply same_chain_move].
    destruct p; try (by apply same_chain_move);
      pose proof (stopSettled_chain role ok stopping s) as ((? & _) & ? & ? & _);
      destruct (stopSettled role ok stopping s) as [s' st]; simpl in *;
      (eapply (goes_on_move slot); [exact Ha|..|apply allStopped_goes_on]); done.
  - unfold transitionReleased. destruct (ll_active s) as [[slot p]|] eqn:Ha; [|by apply same_chain_move].
    destruct p; try (by apply same_chain_move).
    pose proof (release_chain c a r s) as ((? & _) & ? & ? & _).
    destruct (releaseAnswered c a r s) as [s' r']; simpl in *.
    apply (goes_on_move slot _ s s' _ Ha); try done.
    destruct r'; simpl; unfold goes_on; simpl; split_and!; auto; congruence.
  - unfold stopResumes. destruct (_ !! _) as [[]|]; try (by apply same_chain_move).
    + destruct (forallb _ _); [by apply (cm_push _ _ false) | by apply same_chain_move].
    + destruct (slotDone _ _); [|by apply same_chain_move].
      destruct (releaseLease s); by apply same_roles_queue_move.
  - unfold stopReleased. destruct (_ !! _) as [[]|]; try (by apply same_chain_move).
    pose proof (release_chain c a r s) as H.
    destruct (releaseAnswered c a r s) as [s' [r'|]]; eapply chain_move_after; try exact H;
      by apply same_roles_queue_move.
  - by apply same_chain_move.
Qed.

(** *** The stops that wait for a transition *)
Definition stops_ok (s : LL) : Prop := forall k, sp_waiting k ∈ ll_stops s -> k < ll_slots s.

Lemma chain_move_slots s s' : chain_move s s' -> ll_slots s <= ll_slots s'.
Proof. intros []; lia. Qed.

(** What only a stop changes. *)
Definition same_stops (s s' : LL) : Prop := ll_stops s' = ll_stops s /\ ll_generation s' = ll_generation s.

Lemma same_chain_stops s s' : same_chain s s' -> same_stops s s'.
Proof. by intros (_ & _ & _ & ? & _ & _ & ?). Qed.

Lemma goes_on_stops slot s s' : goes_on slot s s' -> same_stops s s'.
Proof. by intros (_ & _ & _ & _ & _ & _ & ? & ?). Qed.

Lemma same_stops_trans s1 s2 s3 : same_stops s1 s2 -> same_stops s2 s3 -> same_stops s1 s3.
Proof. intros [] []. split; congruence. Qed.

Lemma endCampaign_stops s0 ca s : same_stops s0 s -> same_stops s0 (endCampaign ca s).
Proof. intros H. eapply same_stops_trans; [exact H|]. unfold endCampaign, same_stops. by ll_cases. Qed.

Lemma campaign_stops now g b s : same_stops s (campaign now g b s).
Proof. unfold campaign. destruct (_ <? _)%Z; [by apply endCampaign_stops | done]. Qed.

Definition of_stop (op : LLOp) : bool :=
  match op with lo_stop | lo_stopResumes _ | lo_stopReleased _ _ => true | _ => false end.

Lemma ll_step_stops c now op s : of_stop op = false -> same_stops s (ll_step c now op s).
Proof.
  destruct op; try discriminate; intros _; simpl.
  - apply campaign_stops.
  - unfold tick. destruct (_ !! _); [apply campaign_stops | done].
  - unfold apiAnswered. destruct (find_campaign id s) as [ca|]; [|done].
    destruct (ca_phase ca) as [| | | | |r] eqn:Hp.
    6: { pose proof (same_chain_stops _ _ (release_chain c a r s)) as H.
         destruct (releaseAnswered c a r s) as [s' [r'|]]; [done | by apply endCampaign_stops]. }
    all: match goal with |- context [claimAnswered ?c ?n ?a ?r ?p ?s] =>
           pose proof (same_chain_stops _ _ (claim_chain c n a r p s)) as H;
           destruct (claimAnswered c n a r p s) as [s' p'] end; done.
  - unfold campaignResumes. destruct (find_campaign id s) as [ca|]; [|done].
    destruct (ca_phase ca) as [| | |o|slot b|]; try done.
    + destruct (negb _); [by apply endCampaign_stops|]. destruct o; [done|].
      destruct (_ && _); [done | by apply endCampaign_stops].
    + destruct (negb _), b; try done; [|by apply endCampaign_stops].
      destruct (releaseLease s); [done | by apply endCampaign_stops].
  - unfold beginTransition. destruct (ll_active s); [done|].
    destruct (ll_queue s) as [|[slot next] rest]; [done|]. simpl. destruct (Bool.eqb _ _); [done|].
    destruct next; [exact (goes_on_stops _ _ _ (allStarted_goes_on c now slot _ _ _))
                   | exact (goes_on_stops _ _ _ (allStopped_goes_on c now slot _ _ _))].
  - unfold roleStarted. destruct (ll_active s) as [[slot []]|]; try done. case_bool_decide; [|done].
    eapply same_stops_trans; [|apply (goes_on_stops slot), allStarted_goes_on]. by destruct ok.
  - unfold roleStopped. destruct (ll_active s) as [[slot []]|]; try done;
      pose proof (same_chain_stops _ _ (stopSettled_chain role ok stopping s)) as H;
      destruct (stopSettled role ok stopping s) as [s' st];
      (eapply same_stops_trans; [exact H | apply (goes_on_stops slot), allStopped_goes_on]).
  - unfold transitionReleased. destruct (ll_active s) as [[slot []]|]; try done.
    pose proof (same_chain_stops _ _ (release_chain c a r s)) as H.
    by destruct (releaseAnswered c a r s) as [s' [r'|]].
  - done.
Qed.

Lemma ll_step_generation c now op s : ll_generation s <= ll_generation (ll_step c now op s).
Proof.
  destruct (of_stop op) eqn:Ho; [|destruct (ll_step_stops c now op s Ho) as [_ ->]; done].
  destruct op; try discriminate; simpl.
  - lia.
  - unfold stopResumes. destruct (_ !! _) as [[]|]; try done; [by destruct (forallb _ _)|].
    destruct (slotDone _ _); [|done]. by destruct (releaseLease s).
  - unfold stopReleased. destruct (_ !! _) as [[]|]; try done.
    pose proof (same_chain_stops _ _ (release_chain c a r s)) as [_ H].
    destruct (releaseAnswered c a r s) as [s' [r'|]]; simpl in *; lia.
Qed.

Lemma stops_ok_incl s s' :
  (forall k, sp_waiting k ∈ ll_stops s' -> sp_waiting k ∈ ll_stops s \/ k < ll_slots s') ->
  ll_slots s <= ll_slots s' -> stops_ok s -> stops_ok s'.
Proof. intros H Hle Hs k Hk. destruct (H k Hk) as [Hin|]; [specialize (Hs k Hin); lia | done]. Qed.

Lemma insert_waiting n p k (l : list SPhase) :
  sp_waiting k ∈ <[n := p]> l -> sp_waiting k ∈ l \/ p = sp_waiting k.
Proof.
  intros [i Hi]%list_elem_of_lookup. apply list_lookup_insert_Some in Hi as [(_ & -> & _) | [_ Hi]]; [by right|].
  left. by apply list_elem_of_lookup_2 in Hi.
Qed.

Lemma delete_waiting n k (l : list SPhase) : sp_waiting k ∈ delete n l -> sp_waiting k ∈ l.
Proof. intros H. eapply elem_of_submseteq; [exact H | apply sublist_submseteq, sublist_delete]. Qed.

Lemma ll_step_stops_ok c now op s : stops_ok s -> stops_ok (ll_step c now op s).
Proof.
  intros Hs. pose proof (chain_move_slots _ _ (ll_step_move c now op s)) as Hle.
  destruct (of_stop op) eqn:Ho.
  2: { apply (stops_ok_incl s); [|done..]. destruct (ll_step_stops c now op s Ho) as [-> _]. auto. }
  apply (stops_ok_incl s); [|done..]. clear Hle Hs. destruct op; try discriminate; simpl; intros k.
  - intros [H | H%list_elem_of_singleton]%elem_of_app; [by left | done].
  - unfold stopResumes. destruct (ll_stops s !! n) as [[ids|slot|r]|]; auto.
    + destruct (forallb _ ids); [|by left]. simpl. intros [H | H]%insert_waiting; [by left|].
      injection H as ->. right. lia.
    + destruct (slotDone slot s); [|by left]. destruct (releaseLease s); simpl.
      * intros [H | H]%insert_waiting; [by left | done].
      * intros H%delete_waiting. by left.
  - unfold stopReleased. destruct (ll_stops s !! n) as [[ids|slot|r]|]; auto.
    pose proof (release_chain c a r s) as (_ & _ & _ & _ & _ & _ & H).
    destruct (releaseAnswered c a r s) as [s' [r'|]]; simpl in *; rewrite H.
    + intros [Hk | Hk]%insert_waiting; [by left | done].
    + intros Hk%delete_waiting. by left.
Qed.

(** The replica a stop leaves behind, until it is started again. *)
Definition after_stop (k n : nat) (s : LL) : Prop :=
  chain_ok s /\ stops_ok s /\ stands_down k s /\ gens_below n s /\ n <= ll_generation s /\ k <= ll_slots s.

Lemma after_stop_step k n c now op s :
  is_start op = false -> after_stop k n s -> after_stop k n (ll_step c now op s).
Proof.
  intros Hop (Hc & Hs & Hd & Hg & Hn & Hk). pose proof (ll_step_move c now op s) as Hm.
  pose proof (chain_move_slots _ _ Hm). pose proof (ll_step_generation c now op s).
  assert (gens_below (ll_generation s) s) as Hg'.
  { destruct Hg as [H1 H2]. split; (eapply Forall_impl; [eassumption|]); simpl; lia. }
  split_and!; try lia; eauto using chain_move_ok, ll_step_stops_ok, stands_down_move, ll_step_gens.
Qed.

Lemma ll_step_gens_all c now op s :
  gens_below (S (ll_generation s)) s ->
  gens_below (S (ll_generation (ll_step c now op s))) (ll_step c now op s).
Proof.
  intros Hg. pose proof (ll_step_generation c now op s) as Hle.
  assert (gens_below (S (ll_generation s)) (ll_step c now op s)) as [H1 H2].
  { destruct (is_start op) eqn:E; [|by apply ll_step_gens]. destruct op; try discriminate.
    apply campaign_gens; [lia | done]. }
  split; (eapply Forall_impl; [eassumption|]); simpl; lia.
Qed.

Definition reached_ok (s : LL) : Prop := chain_ok s /\ stops_ok s /\ gens_below (S (ll_generation s)) s.

Lemma ll_run_reached c lease ops : reached_ok (ll_run c ops (createLeaderLease lease)).
Proof.
  apply (ll_run_ind c _ (fun _ => true)).
  - intros now op s _ (H1 & H2 & H3). split_and!.
    + eapply chain_move_ok; [apply ll_step_move | done].
    + by apply ll_step_stops_ok.
    + by apply ll_step_gens_all.
  - by apply forallb_forall.
  - split_and!; [|intros k H; by apply elem_of_nil in H | by split; constructor].
    exists 0. split_and!; done.
Qed.

Lemma stop_after s : reached_ok s -> after_stop (ll_slots s) (S (ll_generation s)) (stop s).
Proof.
  intros (Hc & Hs & Hg).
  assert (chain_ok (stop s)) as Hc' by (eapply chain_move_ok; [by apply (ll_step_move (mk_llconfig "" [] 0) 0%Z lo_stop)|done]).
  split_and!; try done.
  - by apply (ll_step_stops_ok (mk_llconfig "" [] 0) 0%Z lo_stop).
  - destruct Hc as (n & Hq & Hle & _). simpl in *. split; simpl.
    + intros j b Hj Hlt. apply (list_elem_of_fmap_2 fst) in Hj.
      change (fst <$> ll_queue s) with (map fst (ll_queue s)) in Hj. rewrite Hq in Hj.
      apply elem_of_seq in Hj. simpl in Hj. lia.
    + intros p <-. destruct (ll_queue s) as [|[j b] q]; simpl in *; [lia|].
      destruct (ll_slots s - n) eqn:En; [done|]. simpl in Hq. injection Hq as -> _. lia.
  - by apply (ll_step_gens _ (mk_llconfig "" [] 0) 0%Z lo_stop).
Qed.

Lemma slotDone_begun s slot :
  chain_ok s -> slot < ll_slots s -> slotDone slot s = true ->
  slot < (fst <$> head (ll_queue s)) ?? (ll_slots s).
Proof.
  intros (n & Hq & Hle & Ha) Hlt. unfold slotDone.
  destruct (ll_active s) as [[a p]|] eqn:Ea.
  - specialize (Ha _ _ eq_refl). intros H%Nat.ltb_lt.
    destruct (ll_queue s) as [|[j b] q]; simpl in *; [done|].
    destruct (ll_slots s - n); [done|]. injection Hq as -> _. lia.
  - destruct (ll_queue s) as [|[j b] q]; simpl; [done|]. intros H%Nat.ltb_lt. done.
Qed.

(** Stood down for good. *)
Definition down (n : nat) (s : LL) : Prop :=
  ll_held s = false /\ (forall j b, (j, b) ∈ ll_queue s -> b = false) /\
  gens_below n s /\ n <= ll_generation s.

Lemma down_step n c now op s : is_start op = false -> down n s -> down n (ll_step c now op s).
Proof.
  intros Hop (Hh & Hq & Hg & Hn). pose proof (ll_step_generation c now op s).
  assert (ll_held (ll_step c now op s) = false /\
          forall j b, (j, b) ∈ ll_queue (ll_step c now op s) -> b = false) as [H1 H2];
    [|split_and!; eauto using ll_step_gens; lia].
  destruct (ll_step_move c now op s) as [E1 _ _ E4 | b E1 _ _ E4 Hb | k next E1 _ _ E4].
  - rewrite E1. split; [destruct E4; congruence | done].
  - assert (b = false) as ->.
    { destruct b; [|done]. destruct (Hb eq_refl) as (ca & Hca & Hgen).
      destruct Hg as [Hg _]. rewrite Forall_forall in Hg. specialize (Hg ca Hca). lia. }
    rewrite E1, E4. split; [done|]. intros j b [Hj | Hj%list_elem_of_singleton]%elem_of_app; [eauto | congruence].
  - split.
    + destruct E4 as [->|]; [|done]. apply (Hq k). rewrite E1. left.
    + intros j b Hj. apply (Hq j). rewrite E1. by right.
Qed.

Lemma slot_done_down k n slot s :
  after_stop k n s -> k <= slot -> sp_waiting slot ∈ ll_stops s -> slotDone slot s = true -> down n s.
Proof.
  intros (Hc & Hs & [Hd1 Hd2] & Hg & Hn & _) Hk Hin Hdone.
  pose proof (slotDone_begun s slot Hc (Hs _ Hin) Hdone) as Hb.
  split_and!; try done; [apply (Hd2 _ eq_refl); lia|].
  intros j b Hj. apply (Hd1 j b Hj). destruct Hc as (m & Hq & _).
  pose proof (list_elem_of_fmap_2 fst _ _ Hj) as Hj'. change (fst <$> ll_queue s) with (map fst (ll_queue s)) in Hj'.
  rewrite Hq in Hj'. apply elem_of_seq in Hj'. simpl in Hj'.
  destruct (ll_queue s) as [|[i b'] q]; [by apply elem_of_nil in Hj|]. simpl in Hb, Hq.
  destruct (ll_slots s - m); [done|]. injection Hq as -> _. lia.
Qed.

(** C17: A stop is not outrun: in any life of the replica, once a transition
    queued behind a call of [stop()] is over, whatever claims were still on
    their way when it was called, and whatever they are answered, the replica
    is not the leader and runs no role, at any later moment before it is
    started again. *)
Theorem stop_is_not_outrun c lease ops0 ops1 ops2 slot :
  let s0 := ll_run c ops0 (createLeaderLease lease) in
  let s1 := ll_run c ops1 (stop s0) in
  let s2 := ll_run c ops2 s1 in
  forallb (fun x => negb (is_start x.2)) (ops1 ++ ops2) = true ->
  sp_waiting slot ∈ ll_stops s1 -> ll_slots s0 <= slot -> slotDone slot s1 = true ->
  isLeader s2 = false /\ ll_running s2 = [].
Proof.
  intros s0 s1 s2 Hops Hin Hk Hdone. rewrite forallb_app in Hops. apply andb_prop in Hops as [H1 H2].
  assert (after_stop (ll_slots s0) (S (ll_generation s0)) s1) as Ha.
  { eapply (ll_run_ind c _ (fun op => negb (is_start op))); [|exact H1|].
    - intros now op s Hop%negb_true_iff. by apply after_stop_step.
    - apply stop_after, ll_run_reached. }
  assert (down (S (ll_generation s0)) s2) as (Hh & _).
  { eapply (ll_run_ind c _ (fun op => negb (is_start op))); [|exact H2|].
    - intros now op s Hop%negb_true_iff. by apply down_step.
    - by apply (slot_done_down (ll_slots s0) _ slot). }
  split; [exact Hh|]. apply (agree_held c); [|exact Hh].
  eapply (ll_run_ind c _ (fun _ => true)); [intros now op s _; apply ll_step_agree | by apply forallb_forall|].
  eapply (ll_run_ind c _ (fun _ => true)); [intros now op s _; apply ll_step_agree | by apply forallb_forall|].
  apply (ll_step_agree c 0%Z lo_stop), ll_run_agree.
Qed.

(** A replica with one role, that holds the Lease and has a claim on its way. *)
Definition one_role : LLConfig := mk_llconfig "me" ["slack"%string] 30000.
Definition leading : list (Z * LLOp) :=
  [(0, lo_start); (0, lo_apiAnswered 0 an_ok ""); (0, lo_apiAnswered 0 an_ok "t0"); (0, lo_campaignResumes 0);
   (0, lo_beginTransition); (0, lo_roleStarted "slack" true); (0, lo_campaignResumes 0); (10000, lo_tick 0)]%Z.

Lemma stop_is_not_outrun_witness :
  let s0 := ll_run one_role leading (createLeaderLease None) in
  let ops1 := [(10001, lo_apiAnswered 1 an_ok ""); (10002, lo_apiAnswered 1 an_ok "t1"); (10002, lo_stopResumes 0);
               (10002, lo_beginTransition); (10003, lo_roleStopped "slack" true)]%Z in
  let ops2 := [(10003, lo_campaignResumes 1); (10003, lo_stopResumes 0); (10004, lo_stopReleased an_ok 0)]%Z in
  isRunning "slack" s0 = true /\
  let s2 := ll_run one_role ops2 (ll_run one_role ops1 (stop s0)) in
  isLeader s2 = false /\ ll_running s2 = [].
Proof.
  intros s0 ops1 ops2. split; [by vm_compute|].
  apply (stop_is_not_outrun one_role None leading ops1 ops2 1); [reflexivity | vm_compute; left | vm_compute; lia | reflexivity].
Defined.

(** ** A challenger waits *)

(** The reads since which the Lease has stood as [sn] says. *)
Definition stands_since (l : list LEvent) (sn : option Seen) : Prop :=
  match sn with
  | None => True
  | Some sn =>
      exists l0 lm, l = l0 ++ LRead (sn_at sn) (sn_holder sn) (sn_renew sn) :: lm /\
        forall t h r, LRead t h r ∈ lm -> h = sn_holder sn /\ r = sn_renew sn
  end.

Definition waited (ttl : Z) (l : list LEvent) : Prop :=
  forall l1 now h r l2, l = l1 ++ LTakeover now h r :: l2 ->
  exists l0 t lm, l1 = l0 ++ LRead t h r :: lm /\ (t + ttl <= now)%Z /\
    forall t' h' r', LRead t' h' r' ∈ lm -> h' = h /\ r' = r.

Definition watch_ok (c : LLConfig) (s : LL) : Prop :=
  stands_since (ll_log s) (ll_seen s) /\ waited (lc_ttlMs c) (ll_log s).

Lemma waited_read ttl l now h r : waited ttl l -> waited ttl (l ++ [LRead now h r]).
Proof.
  intros Hw l1 t h' r' l2 E. destruct l2 as [|e l2 _] using rev_ind.
  - apply app_inj_tail in E as [_ ?]. done.
  - rewrite app_comm_cons, app_assoc in E. apply app_inj_tail in E as [-> _].
    destruct (Hw _ _ _ _ _ eq_refl) as (l0 & t0 & lm & -> & ? & ?). eauto 10.
Qed.

Lemma waited_takeover ttl l now sn :
  stands_since l (Some sn) -> (sn_at sn + ttl <= now)%Z -> waited ttl l ->
  waited ttl (l ++ [LTakeover now (sn_holder sn) (sn_renew sn)]).
Proof.
  intros (l0 & lm & El & Hlm) Hle Hw l1 t h r l2 E. destruct l2 as [|e l2 _] using rev_ind.
  - apply app_inj_tail in E as [<- E]. injection E as <- <- <-. eauto 10.
  - rewrite app_comm_cons, app_assoc in E. apply app_inj_tail in E as [-> _].
    destruct (Hw _ _ _ _ _ eq_refl) as (l0' & t0 & lm' & -> & ? & ?). eauto 10.
Qed.

(** The watch after one more read of a foreign Lease. *)
Lemma stands_read l sn now h r :
  stands_since l sn ->
  let seen :=
    match sn with
    | Some seen => if bool_decide (sn_holder seen = h) && String.eqb (sn_renew seen) r then seen else mk_seen h r now
    | None => mk_seen h r now
    end in
  stands_since (l ++ [LRead now h r]) (Some seen) /\ sn_holder seen = h /\ sn_renew seen = r.
Proof.
  intros H seen.
  assert (stands_since (l ++ [LRead now h r]) (Some (mk_seen h r now))) as Hnew.
  { exists l, []. split; [done|]. intros ? ? ? Hx. by apply elem_of_nil in Hx. }
  unfold seen. destruct sn as [sn|]; [|done].
  case_bool_decide as Eh; simpl; [|done]. destruct (String.eqb_spec (sn_renew sn) r) as [Er|]; [|done].
  split; [|done]. destruct H as (l0 & lm & -> & Hlm). exists l0, (lm ++ [LRead now h r]). split; [by rewrite <- app_assoc|].
  intros t h' r' [Hx | Hx%list_elem_of_singleton]%elem_of_app; [eauto | naive_solver].
Qed.

Definition same_watch (s s' : LL) : Prop := ll_seen s' = ll_seen s /\ ll_log s' = ll_log s.

Lemma same_watch_trans s1 s2 s3 : same_watch s1 s2 -> same_watch s2 s3 -> same_watch s1 s3.
Proof. intros [] []. split; congruence. Qed.

Lemma endCampaign_watch s0 ca s : same_watch s0 s -> same_watch s0 (endCampaign ca s).
Proof. intros H. eapply same_watch_trans; [exact H|]. unfold endCampaign, same_watch. by ll_cases. Qed.

Lemma campaign_watch now g b s : same_watch s (campaign now g b s).
Proof. unfold campaign. destruct (_ <? _)%Z; [by apply endCampaign_watch | done]. Qed.

Lemma release_watch c a r s : same_watch s (releaseAnswered c a r s).1.
Proof. destruct r; simpl; [done|]. unfold deleteNamespacedLease. by ll_cases. Qed.

Lemma allStopped_watch c now slot b st s : same_watch s (allStopped c now slot b st s).
Proof.
  unfold allStopped, rolledBack, releaseInTransition, releaseLease.
  destruct st, b; simpl; try done. by destruct (ll_stopFailed s).
Qed.

Lemma allStarted_watch c now slot w f s : same_watch s (allStarted c now slot w f s).
Proof.
  unfold allStarted. destruct w; [|done]. destruct f; [done|].
  apply (allStopped_watch c now slot true _ (stopRoles (lc_roles c) s).1).
Qed.

Lemma stopSettled_watch role ok stopping s : same_watch s (stopSettled role ok stopping s).1.
Proof. unfold stopSettled. by ll_cases. Qed.

Definition is_answer (op : LLOp) : bool := match op with lo_apiAnswered _ _ _ => true | _ => false end.

Lemma ll_step_watch c now op s : is_answer op = false -> same_watch s (ll_step c now op s).
Proof.
  destruct op; try discriminate; intros _; simpl.
  - apply campaign_watch.
  - unfold tick. destruct (_ !! _); [apply campaign_watch | done].
  - done.
  - unfold campaignResumes. destruct (find_campaign id s) as [ca|]; [|done].
    destruct (ca_phase ca) as [| | |o|slot b|]; try done.
    + destruct (negb _); [by apply endCampaign_watch|]. destruct o; [done|].
      destruct (_ && _); [done | by apply endCampaign_watch].
    + destruct (negb _), b; try done; [|by apply endCampaign_watch].
      destruct (releaseLease s); [done | by apply endCampaign_watch].
  - unfold beginTransition. destruct (ll_active s); [done|].
    destruct (ll_queue s) as [|[slot next] rest]; [done|]. simpl. destruct (Bool.eqb _ _); [done|].
    destruct next; (eapply same_watch_trans; [|apply allStarted_watch || apply allStopped_watch]); done.
  - unfold roleStarted. destruct (ll_active s) as [[slot []]|]; try done. case_bool_decide; [|done].
    eapply same_watch_trans; [|apply allStarted_watch]. by destruct ok.
  - unfold roleStopped. destruct (ll_active s) as [[slot []]|]; try done;
      pose proof (stopSettled_watch role ok stopping s) as H; destruct (stopSettled role ok stopping s) as [s' st];
      (eapply same_watch_trans; [exact H | apply allStopped_watch]).
  - unfold transitionReleased. destruct (ll_active s) as [[slot []]|]; try done.
    pose proof (release_watch c a r s) as H. by destruct (releaseAnswered c a r s) as [s' [r'|]].
  - unfold stopResumes. destruct (_ !! _) as [[]|]; try done; [by destruct (forallb _ _)|].
    destruct (slotDone _ _); [|done]. by destruct (releaseLease s).
  - unfold stopReleased. destruct (_ !! _) as [[]|]; try done.
    pose proof (release_watch c a r s) as H. by destruct (releaseAnswered c a r s) as [s' [r'|]].
  - done.
Qed.

Lemma watch_same c s s' : same_watch s s' -> watch_ok c s -> watch_ok c s'.
Proof. intros [H1 H2]. unfold watch_ok. by rewrite H1, H2. Qed.

Lemma claimAnswered_watch c now a renew p s :
  watch_ok c s -> watch_ok c (claimAnswered c now a renew p s).1.
Proof.
  intros [Hs Hw]. destruct p; try done; simpl.
  - destruct a; try done. unfold claimRead. destruct (ll_lease s) as [l|]; [|done].
    destruct (ostr_eqb _ _); [done|].
    destruct (stands_read _ _ now (lo_holderIdentity l) (lo_renewTime l) Hs) as (H1 & H2 & H3).
    cbv zeta. match goal with |- context [set_seen (Some ?x)] => set (seen := x) in * end.
    destruct (Z.ltb_spec (now - sn_at seen) (lc_ttlMs c)); (split; simpl; [|auto using waited_read]).
    + done.
    + destruct H1 as (l0 & lm & E & Hlm). exists l0, (lm ++ [LTakeover now (lo_holderIdentity l) (lo_renewTime l)]).
      fold seen in E. rewrite E, <- app_assoc. split; [done|].
      intros t h r [Hx | Hx%list_elem_of_singleton]%elem_of_app; [eauto | done].
    + fold seen in H1, H2, H3. rewrite <- H2 at 2. rewrite <- H3 at 2.
      apply waited_takeover; [done | lia | by apply waited_read].
  - unfold createNamespacedLease. destruct (ll_lease s); [done|]. by destruct a.
  - unfold replaceNamespacedLease. destruct (ll_lease s) as [l|]; [|done].
    destruct (lo_version l =? version); [|done]. by destruct a.
Qed.

Lemma ll_step_watch_ok c now op s : watch_ok c s -> watch_ok c (ll_step c now op s).
Proof.
  intros H. destruct (is_answer op) eqn:E; [|exact (watch_same _ _ _ (ll_step_watch c now op s E) H)].
  destruct op; try discriminate. simpl. unfold apiAnswered.
  destruct (find_campaign id s) as [ca|]; [|done].
  destruct (ca_phase ca) as [| | | | |r] eqn:Hp.
  6: { pose proof (watch_same c _ _ (release_watch c a r s) H) as H'.
       destruct (releaseAnswered c a r s) as [s' [r'|]]; [done|].
       exact (watch_same _ _ _ (endCampaign_watch s' ca s' (conj eq_refl eq_refl)) H'). }
  all: match goal with |- context [claimAnswered ?c ?n ?a ?r ?p ?s] =>
         pose proof (claimAnswered_watch c n a r p s H) as H'; destruct (claimAnswered c n a r p s) as [s' p'] end; done.
Qed.

(** A challenger takes the Lease over from another holder only after it has
    stood unchanged for a full duration of the challenger's own clock: some read
    of it lies that far back, and every read since has seen the same holder and
    the same renewal. *)
Theorem challenger_waits c lease ops l1 now holder renew l2 :
  ll_log (ll_run c ops (createLeaderLease lease)) = l1 ++ LTakeover now holder renew :: l2 ->
  exists l0 at_ lm,
    l1 = l0 ++ LRead at_ holder renew :: lm /\ (at_ + lc_ttlMs c <= now)%Z /\
    forall t h r, LRead t h r ∈ lm -> h = holder /\ r = renew.
Proof.
  assert (watch_ok c (ll_run c ops (createLeaderLease lease))) as [_ Hw]; [|intros E; exact (Hw _ _ _ _ _ E)].
  apply (ll_run_ind c _ (fun _ => true)); [intros; by apply ll_step_watch_ok | by apply forallb_forall|].
  split; [done|]. intros l ? ? ? ? E. by destruct l.
Qed.

(** The Lease of another, read at 0 and again a duration later. *)
Definition other_lease : option LeaseObj := Some (mk_lease (Some "other"%string) "r1" (Some 2%Z) 7).
Definition challenge : list (Z * LLOp) :=
  [(0, lo_start); (0, lo_apiAnswered 0 an_ok ""); (0, lo_campaignResumes 0); (0, lo_beginTransition); (0, lo_campaignResumes 0);
   (30000, lo_tick 0); (30000, lo_apiAnswered 1 an_ok ""); (30000, lo_apiAnswered 1 an_ok "t1")]%Z.

Lemma challenger_waits_witness :
  let s := ll_run one_role challenge (createLeaderLease other_lease) in
  ll_log s = [LRead 0 (Some "other"%string) "r1"; LRead 30000 (Some "other"%string) "r1";
              LTakeover 30000 (Some "other"%string) "r1"] /\
  lo_leaseTransitions <$> ll_lease s = Some (Some 3%Z) /\
  exists l0 at_ lm,
    [LRead 0 (Some "other"%string) "r1"; LRead 30000 (Some "other"%string) "r1"] = l0 ++ LRead at_ (Some "other"%string) "r1" :: lm /\
    (at_ + lc_ttlMs one_role <= 30000)%Z /\ forall t h r, LRead t h r ∈ lm -> h = Some "other"%string /\ r = "r1"%string.
Proof.
  intros s. split; [by vm_compute|]. split; [by vm_compute|].
  apply (challenger_waits one_role other_lease challenge _ 30000 (Some "other"%string) "r1" []). by vm_compute.
Defined.

(** ** Two answers at once *)

(** Two claims of the leader fail while a third is on its way: the replica
    queues a stand-down and awaits it; the third claim then wins, and queues a
    start; the stand-down done, the first call goes on to [releaseLease()] and
    deletes the Lease just won.  The replica leads without a Lease, and any
    other may create one at once. *)
Example leads_without_lease :
  let c := one_role in
  let s := ll_run c (leading ++
    [(20000, lo_tick 0); (30000, lo_tick 0); (30001, lo_apiAnswered 1 an_error ""); (30001, lo_campaignResumes 1);
     (30002, lo_apiAnswered 2 an_error ""); (30002, lo_campaignResumes 2); (30002, lo_beginTransition);
     (30003, lo_apiAnswered 3 an_ok ""); (30004, lo_apiAnswered 3 an_ok "t3"); (30004, lo_campaignResumes 3);
     (30005, lo_roleStopped "slack" true); (30005, lo_campaignResumes 2); (30005, lo_beginTransition);
     (30006, lo_roleStarted "slack" true); (30006, lo_apiAnswered 2 an_ok ""); (30007, lo_apiAnswered 2 an_ok "")]%Z)
    (createLeaderLease None) in
  isRunning "slack" s = true /\ ll_active s = None /\ ll_lease s = None.
Proof. by vm_compute. Qed.
