(* ===== verification/Documents.v ===== *)
(** The runtime's documents on its own disk
    (packages/agent-runtime/src/core/document-store.ts), and two of them: the
    prompts that never reached the harness (infrastructure/undelivered-prompt-store.ts)
    and the outcomes of finished runs (infrastructure/run-result-store.ts); with
    the cap on pasted images (api-server-api modules/acp/types.ts,
    capInlineImages).

    A document is what is on the disk and what the process holds in memory; a
    write that finds no space left stays in memory only.  A document read from the disk is
    the one written there: the schemas accept what the stores write.  Sizes are
    lengths of the JSON text, as in the source. *)
From stdpp Require Import base strings list sorting pretty sets.
From Stdlib Require Import ZArith Lia Bool.
From S2P Require Import Prelude JsString SpendLimits AcpFrames.
Local Open Scope Z_scope.

(** ** A document *)
Record Doc (T : Type) := mk_doc { doc_disk : T; doc_cache : T }.
Arguments mk_doc {T} _ _.
Arguments doc_disk {T} _.
Arguments doc_cache {T} _.

Definition openJsonFile {T} (disk : T) : Doc T := mk_doc disk disk.
Definition doc_read {T} (d : Doc T) : T := doc_cache d.
(** [full]: the disk has no space left. *)
Definition doc_write {T} (full : bool) (next : T) (d : Doc T) : Doc T :=
  mk_doc (if full then doc_disk d else next) next.

(** ** [JSON.stringify] of a value *)
Fixpoint JSON_stringify (j : json) : string :=
  match j with
  | jnull => "null"
  | jbool b => if b then "true" else "false"
  | jnum z => pretty z
  | jstr s => json_string s
  | jarr l => "[" +:+ str_join "," (map JSON_stringify l) +:+ "]"
  | jobj l => "{" +:+ str_join "," (map (fun kv => json_string kv.1 +:+ ":" +:+ JSON_stringify kv.2) l) +:+ "}"
  end%string.

Definition str_len (s : string) : Z := Z.of_nat (String.length s).

(** ** Prompts that never reached the harness *)
Inductive PromptBlock :=
| pb_text (text : string)
| pb_image (data mimeType : string)
| pb_resource_link (uri name : string) (mimeType : option string) (size : option Z).

Record PlatformUndeliveredPrompt := mk_undelivered {
  up_id : string;
  up_recordedAt : string;
  up_blocks : list PromptBlock;
  up_droppedAttachments : list string;
  up_reason : option string;
}.

(** The object literal of a list of optional fields. *)
Definition obj_of (fields : list (string * option json)) : json :=
  jobj (omap (fun kv => pair kv.1 <$> kv.2) fields).

Definition block_json (b : PromptBlock) : json :=
  match b with
  | pb_text t => obj_of [("type", Some (jstr "text")); ("text", Some (jstr t))]
  | pb_image d m => obj_of [("type", Some (jstr "image")); ("data", Some (jstr d)); ("mimeType", Some (jstr m))]
  | pb_resource_link u n m s =>
      obj_of [("type", Some (jstr "resource_link")); ("uri", Some (jstr u)); ("name", Some (jstr n));
              ("mimeType", jstr <$> m); ("size", jnum <$> s)]
  end%string.

Definition prompt_json (p : PlatformUndeliveredPrompt) : json :=
  obj_of [("id", Some (jstr (up_id p))); ("recordedAt", Some (jstr (up_recordedAt p)));
          ("blocks", Some (jarr (map block_json (up_blocks p))));
          ("droppedAttachments", Some (jarr (map jstr (up_droppedAttachments p))));
          ("reason", jstr <$> up_reason p)]%string.

Definition UNDELIVERED_INLINE_IMAGE_BYTES_CAP : Z := 4 * 1024 * 1024.

Record Capping := mk_capping {
  cp_kept : list PromptBlock;
  cp_dropped : list string;
  cp_inlineBytes : Z;
  cp_images : Z;
}.

(** One round of the loop of [capInlineImages]. *)
Definition capBlock (c : Capping) (block : PromptBlock) : Capping :=
  match block with
  | pb_image data _ =>
      let images := cp_images c + 1 in
      if UNDELIVERED_INLINE_IMAGE_BYTES_CAP <? cp_inlineBytes c + str_len data
      then mk_capping (cp_kept c) (cp_dropped c ++ ["pasted image " +:+ pretty images]%string) (cp_inlineBytes c) images
      else mk_capping (cp_kept c ++ [block]) (cp_dropped c) (cp_inlineBytes c + str_len data) images
  | _ => mk_capping (cp_kept c ++ [block]) (cp_dropped c) (cp_inlineBytes c) (cp_images c)
  end.

Definition capInlineImages (blocks : list PromptBlock) : list PromptBlock * list string :=
  let c := foldl capBlock (mk_capping [] [] 0 0) blocks in (cp_kept c, cp_dropped c).

Definition BYTES_CAP : Z := 16 * 1024 * 1024.

(** *** Room in a document of sessions

    Both stores make room alike: [text] is the JSON of an entry, [age] what the
    entries are ordered by, oldest first. *)
Section WithinCap.
Context `{!Locale} {E : Type} (text : E -> json) (age : E -> string) (cap : Z).
Implicit Types (sessions : list (string * E)).

Definition bytesOf sessions : Z := str_len (JSON_stringify (jobj (map (fun kv => (kv.1, text kv.2)) sessions))).

Definition byAge (a b : string * E) : Z := localeCompare (age a.2) (age b.2).

(** The loop that deletes, one stale session after another, until the rest fits. *)
Fixpoint evict (stale : list (string * E)) sessions : list (string * E) :=
  match stale with
  | [] => sessions
  | (sessionId, _) :: stale =>
      let next := om_delete sessionId sessions in
      if bytesOf next <=? cap then next else evict stale next
  end.

Definition staleOf sessions (keep : string) : list (string * E) :=
  js_sort byAge (List.filter (fun kv => negb (String.eqb kv.1 keep)) sessions).

Definition withinCap sessions (keep : string) : list (string * E) :=
  if bytesOf sessions <=? cap then sessions else evict (staleOf sessions keep) sessions.
End WithinCap.

(** *** The undelivered prompts *)
Definition SessionEntry : Type := list PlatformUndeliveredPrompt.
Definition UndeliveredStore : Type := Doc (list (string * SessionEntry)).

Definition entry_json (e : SessionEntry) : json := jobj [("prompts"%string, jarr (map prompt_json e))].

(** [a < b] on strings. *)
Definition str_lt (a b : string) : bool := match String.compare a b with Lt => true | _ => false end.

Definition earliest (e : SessionEntry) : string :=
  foldl (fun least p => if str_lt (up_recordedAt p) least then up_recordedAt p else least)
    (match e with p :: _ => up_recordedAt p | [] => ""%string end) e.

Section UndeliveredPromptStore.
Context `{!Locale}.
Implicit Types (d : UndeliveredStore).

Definition readFor (sessionId : string) d : list PlatformUndeliveredPrompt :=
  om_get sessionId (doc_read d) ?? [].

Definition freshOf (existing prompts : list PlatformUndeliveredPrompt) : list PlatformUndeliveredPrompt :=
  List.filter (fun p => negb (existsb (fun e => String.eqb (up_id e) (up_id p)) existing)) prompts.

Definition stamp (now : string) (p : PlatformUndeliveredPrompt) : PlatformUndeliveredPrompt :=
  mk_undelivered (up_id p) (if truthy (up_recordedAt p) then up_recordedAt p else now)
    (up_blocks p) (up_droppedAttachments p) (up_reason p).

Definition remember (full : bool) (now sessionId : string) (prompts : list PlatformUndeliveredPrompt) d : UndeliveredStore :=
  match prompts with
  | [] => d
  | _ =>
      let sessions := doc_read d in
      let existing := om_get sessionId sessions ?? [] in
      match freshOf existing prompts with
      | [] => d
      | fresh =>
          let stamped := map (stamp now) fresh in
          doc_write full (withinCap entry_json earliest BYTES_CAP (om_set sessionId (existing ++ stamped) sessions) sessionId) d
      end
  end.

Definition forget (full : bool) (sessionId id : string) d : UndeliveredStore * bool :=
  match om_get sessionId (doc_read d) with
  | None => (d, false)
  | Some existing =>
      let kept := List.filter (fun p => negb (String.eqb (up_id p) id)) existing in
      if (length kept =? length existing)%nat then (d, false)
      else
        let next := match kept with
                    | [] => om_delete sessionId (doc_read d)
                    | _ => om_set sessionId kept (doc_read d)
                    end in
        (doc_write full next d, true)
  end.

Definition forgetSession (full : bool) (sessionId : string) d : UndeliveredStore :=
  match om_get sessionId (doc_read d) with
  | None => d
  | Some _ => doc_write full (om_delete sessionId (doc_read d)) d
  end.
End UndeliveredPromptStore.

(** ** The outcomes of finished runs *)
Record PlatformRunResult := mk_runresult {
  rr_promptId : option string;
  rr_stopReason : option string;
  rr_finalText : string;
  rr_truncated : bool;
  rr_endedAt : string;
}.

Definition nullable_json (s : option string) : option json := Some (from_option jstr jnull s).
Definition result_json (r : PlatformRunResult) : json :=
  obj_of [("promptId", nullable_json (rr_promptId r)); ("stopReason", nullable_json (rr_stopReason r));
          ("finalText", Some (jstr (rr_finalText r))); ("truncated", Some (jbool (rr_truncated r)));
          ("endedAt", Some (jstr (rr_endedAt r)))]%string.

Module RunResults.
Section Store.
Context `{!Locale}.
Definition RunResultStore : Type := Doc (list (string * PlatformRunResult)).
Implicit Types (d : RunResultStore).

Definition readFor (sessionId : string) d : option PlatformRunResult := om_get sessionId (doc_read d).

Definition record (full : bool) (sessionId : string) (result : PlatformRunResult) d : RunResultStore :=
  doc_write full (withinCap result_json rr_endedAt BYTES_CAP (om_set sessionId result (doc_read d)) sessionId) d.

Definition forgetSession (full : bool) (sessionId : string) d : RunResultStore :=
  match om_get sessionId (doc_read d) with
  | None => d
  | Some _ => doc_write full (om_delete sessionId (doc_read d)) d
  end.
End Store.
End RunResults.

(** ** Making room *)
Section WithinCapSafety.
Context `{!Locale} {E : Type} (text : E -> json) (age : E -> string) (cap : Z).
Implicit Types (sessions : list (string * E)).

#[local] Instance byAge_order : CmpOrder (byAge age).
Proof. apply (cmp_via localeCompare (fun kv : string * E => age kv.2)), localeCompare_order. Qed.

(** The sessions without the given ones. *)
Definition less (gone : list string) sessions : list (string * E) :=
  List.filter (fun kv => negb (bool_decide (kv.1 ∈ gone))) sessions.

Lemma less_nil sessions : less [] sessions = sessions.
Proof. apply filter_all, Forall_forall. intros kv _. by rewrite bool_decide_eq_false_2 by apply not_elem_of_nil. Qed.

Lemma less_delete k sessions : om_delete k sessions = less [k] sessions.
Proof.
  induction sessions as [|[k' e] l IH]; [done|]. unfold less in *. simpl.
  destruct (decide (k = k')) as [->|Hne].
  - rewrite bool_decide_eq_true_2 by constructor. done.
  - rewrite bool_decide_eq_false_2; [by rewrite IH|]. rewrite list_elem_of_singleton. congruence.
Qed.

Lemma less_less g1 g2 sessions : less g2 (less g1 sessions) = less (g1 ++ g2) sessions.
Proof.
  unfold less. rewrite <- filter_and. apply List.filter_ext. intros kv.
  rewrite <- negb_orb. f_equal. rewrite <- bool_decide_or. apply bool_decide_ext. rewrite elem_of_app. done.
Qed.

(** What the loop deletes is a beginning of the stale sessions; it ends when the
    rest fits, or with no stale session left, and not before. *)
Lemma evict_spec stale sessions :
  exists gone rest,
    map fst stale = gone ++ rest /\ evict text cap stale sessions = less gone sessions /\
    (rest = [] \/ bytesOf text (less gone sessions) <= cap) /\
    (forall g1 g2, gone = g1 ++ g2 -> g1 <> [] -> g2 <> [] -> cap < bytesOf text (less g1 sessions)).
Proof.
  revert sessions. induction stale as [|[k e] stale IH]; intros sessions; simpl.
  - exists [], []. split_and!; [done | by rewrite less_nil | by left |]. intros [|] ? E0 ?; done.
  - rewrite less_delete. destruct (Z.leb_spec (bytesOf text (less [k] sessions)) cap) as [Hle|Hlt].
    + exists [k], (map fst stale). split_and!; [done..| by right |].
      intros [|? [|]] [|] E0 ? ?; simplify_eq; done.
    + destruct (IH (less [k] sessions)) as (gone & rest & E0 & E1 & Hend & Hmin).
      exists (k :: gone), rest. rewrite less_less in E1, Hend. simpl in *. split_and!; [by rewrite E0 | exact E1 | exact Hend |].
      intros [|? g1] g2 Eg Hg1 Hg2; [done|]. simpl in Eg. injection Eg as <- ->. destruct g1 as [|x g1]; [done|].
      specialize (Hmin (x :: g1) g2 eq_refl ltac:(done) Hg2). by rewrite less_less in Hmin.
Qed.

Lemma filter_neq_keys keep sessions kv :
  kv ∈ List.filter (fun kv => negb (String.eqb kv.1 keep)) sessions <-> kv ∈ sessions /\ kv.1 <> keep.
Proof. rewrite elem_filter, negb_true_iff, String.eqb_neq. done. Qed.

Lemma staleOf_elem sessions keep kv : kv ∈ staleOf age sessions keep <-> kv ∈ sessions /\ kv.1 <> keep.
Proof. unfold staleOf. rewrite js_sort_elem. apply filter_neq_keys. Qed.

(** Making room keeps whole sessions: what is left is the document less some
    sessions, each kept one with all it held; the one being written is never
    among them; the rest fits unless that one is alone; no session goes while an
    older one stays; and none goes once the rest fits. *)
Theorem room_is_made_oldest_first sessions keep :
  NoDup (om_keys sessions) ->
  exists gone,
    withinCap text age cap sessions keep = less gone sessions /\ keep ∉ gone /\
    (bytesOf text (less gone sessions) <= cap \/ forall k, k ∈ om_keys (less gone sessions) -> k = keep) /\
    (forall k e k' e', (k, e) ∈ sessions -> k ∈ gone -> (k', e') ∈ sessions -> k' ∉ gone -> k' <> keep ->
       localeCompare (age e) (age e') <= 0) /\
    (forall g1 g2, gone = g1 ++ g2 -> g2 <> [] -> cap < bytesOf text (less g1 sessions)).
Proof.
  intros HN. unfold withinCap. destruct (Z.leb_spec (bytesOf text sessions) cap) as [Hle|Hlt].
  { exists []. rewrite less_nil. split_and!; [done | apply not_elem_of_nil | by left | |].
    - intros ? ? ? ? _ Hx. by apply elem_of_nil in Hx.
    - intros [|] [|] ? ?; done. }
  destruct (evict_spec (staleOf age sessions keep) sessions) as (gone & rest & E0 & E1 & Hend & Hmin).
  exists gone. rewrite E1.
  assert (forall k, k ∈ gone \/ k ∈ rest <-> k ∈ om_keys sessions /\ k <> keep) as Hin.
  { intros k. rewrite <- elem_of_app, <- E0. change (map fst ?l) with (fst <$> l). rewrite list_elem_of_fmap. split.
    - intros ([k' e] & -> & [H1 H2]%staleOf_elem). split; [apply (list_elem_of_fmap_2 fst _ _ H1) | done].
    - intros [([k' e] & -> & H1)%list_elem_of_fmap H2]. exists (k', e). by rewrite staleOf_elem. }
  split_and!; [done | | | |].
  - intros Hx. destruct (proj1 (Hin keep) (or_introl Hx)) as [_ ?]. done.
  - destruct Hend as [->|]; [right|by left]. intros k ([k' e] & -> & [H1 H2]%elem_filter)%list_elem_of_fmap.
    apply negb_true_iff, bool_decide_eq_false_1 in H2. simpl in *.
    destruct (decide (k' = keep)) as [|Hne]; [done|].
    destruct (proj2 (Hin k') (conj (list_elem_of_fmap_2 fst _ _ H1) Hne)) as [|Hx]; [done|]. by apply elem_of_nil in Hx.
  - intros k e k' e' Hk Hg Hk' Hng Hne'.
    destruct (proj2 (Hin k') (conj (list_elem_of_fmap_2 fst _ _ Hk') Hne')) as [|Hr]; [done|].
    pose proof (js_sort_sorted (byAge age) (List.filter (fun kv => negb (String.eqb kv.1 keep)) sessions)) as Hs.
    fold (staleOf age sessions keep) in Hs.
    change (map fst (staleOf age sessions keep)) with (fst <$> staleOf age sessions keep) in E0.
    apply fmap_app_inv in E0 as (l1 & l2 & -> & -> & E0).
    assert (forall kv, kv ∈ l1 ++ l2 -> kv ∈ sessions) as Hall by (intros kv; rewrite <- E0; by intros [? _]%staleOf_elem).
    assert (forall k e l, l ⊆ l1 ++ l2 -> (k, e) ∈ sessions -> k ∈ fst <$> l -> (k, e) ∈ l) as Hback.
    { intros k0 e0 l Hsub Hin0 ([k1 e1] & -> & Hl)%list_elem_of_fmap. simpl in *.
      pose proof (om_in_get _ _ _ HN Hin0) as G0. pose proof (om_in_get _ _ _ HN (Hall _ (Hsub _ Hl))) as G1. congruence. }
    rewrite E0 in Hs. apply (StronglySorted_app_1_elem_of (cmp_le (byAge age)) l1 l2 (k, e) (k', e') Hs).
    + apply Hback; [set_solver | done | done].
    + apply Hback; [set_solver | done | done].
  - intros [|x g1] g2 Eg Hg2; [by rewrite less_nil | by apply (Hmin (x :: g1) g2)].
Qed.
End WithinCapSafety.

(** Three sessions and room for two: the oldest one goes. *)
Lemma room_is_made_oldest_first_witness :
  let text := fun s : string => jstr s in
  let sessions := [("new", "2026-02"); ("old", "2026-01"); ("mid", "2026-03")]%string in
  NoDup (om_keys sessions) /\
  @withinCap code_unit_locale _ text (fun s => s) 40 sessions "mid" = [("new", "2026-02"); ("mid", "2026-03")]%string /\
  exists gone, @withinCap code_unit_locale _ text (fun s => s) 40 sessions "mid" = less gone sessions /\ "mid"%string ∉ gone.
Proof.
  intros text sessions. assert (NoDup (om_keys sessions)) as HN by (apply (bool_decide_unpack _); by vm_compute).
  split_and!; [done | by vm_compute |].
  destruct (@room_is_made_oldest_first code_unit_locale _ text (fun s => s) 40 sessions "mid" HN) as (gone & H1 & H2 & _).
  by exists gone.
Defined.

(** ** Capping pasted images *)
Definition isImage (b : PromptBlock) : bool := match b with pb_image _ _ => true | _ => false end.
Definition imageLen (b : PromptBlock) : Z := match b with pb_image d _ => str_len d | _ => 0 end.


Lemma capBlock_cases c b :
  cp_inlineBytes c <= UNDELIVERED_INLINE_IMAGE_BYTES_CAP ->
  (exists n, capBlock c b = mk_capping (cp_kept c ++ [b]) (cp_dropped c) (cp_inlineBytes c + imageLen b) n /\
     cp_inlineBytes c + imageLen b <= UNDELIVERED_INLINE_IMAGE_BYTES_CAP) \/
  (exists n name, capBlock c b = mk_capping (cp_kept c) (cp_dropped c ++ [name]) (cp_inlineBytes c) n /\
     isImage b = true /\ UNDELIVERED_INLINE_IMAGE_BYTES_CAP < cp_inlineBytes c + imageLen b).
Proof.
  intros Hc. destruct b as [t|d m|]; simpl; rewrite ?Z.add_0_r; [left; eauto | | left; eauto].
  destruct (Z.ltb_spec UNDELIVERED_INLINE_IMAGE_BYTES_CAP (cp_inlineBytes c + str_len d)); [right | left]; eauto 6.
Qed.

Lemma capBlock_spec blocks c :
  cp_inlineBytes c <= UNDELIVERED_INLINE_IMAGE_BYTES_CAP ->
  let c' := foldl capBlock c blocks in
  exists kept dropped,
    cp_kept c' = cp_kept c ++ kept /\ cp_dropped c' = cp_dropped c ++ dropped /\
    kept `sublist_of` blocks /\
    List.filter (fun b => negb (isImage b)) kept = List.filter (fun b => negb (isImage b)) blocks /\
    (length (List.filter isImage kept) + length dropped = length (List.filter isImage blocks))%nat /\
    cp_inlineBytes c + sumZ imageLen kept <= UNDELIVERED_INLINE_IMAGE_BYTES_CAP /\
    (cp_inlineBytes c + sumZ imageLen blocks <= UNDELIVERED_INLINE_IMAGE_BYTES_CAP -> kept = blocks).
Proof.
  revert c. induction blocks as [|b blocks IH]; intros c Hc c'.
  { exists [], []. simpl. rewrite !app_nil_r. split_and!; try done; simpl; lia. }
  assert (0 <= sumZ imageLen blocks) as Hnn by (apply sumZ_nonneg; intros [] _; simpl; unfold str_len; lia).
  subst c'. simpl. destruct (capBlock_cases c b Hc) as [(n & E0 & Hle) | (n & name & E0 & Hi & Hlt)];
    rewrite E0;
    (match goal with |- context [foldl capBlock ?c1 blocks] => destruct (IH c1 ltac:(simpl; assumption)) as (kept & dropped & H1 & H2 & H3 & H4 & H5 & H6 & H7) end);
    simpl in *; clear IH E0.
  - exists (b :: kept), dropped. rewrite H1, H2, <- app_assoc. split_and!; try done.
    + by constructor.
    + simpl. by destruct (isImage b); simpl; rewrite H4.
    + simpl. destruct (isImage b); simpl; lia.
    + simpl. lia.
    + intros Hall. rewrite H7; [done | lia].
  - exists kept, (name :: dropped). rewrite H1, H2, <- app_assoc, Hi. simpl. split_and!; try done.
    + by constructor.
    + lia.
    + intros Hall. lia.
Qed.

(** Capping drops whole images only, and no block of another kind: what is
    left is the prompt in its order less some images, one name for each; the
    images left are within the cap; and none is dropped when all are within it. *)
Theorem images_are_capped blocks :
  let '(kept, dropped) := capInlineImages blocks in
  kept `sublist_of` blocks /\
  List.filter (fun b => negb (isImage b)) kept = List.filter (fun b => negb (isImage b)) blocks /\
  (length (List.filter isImage kept) + length dropped = length (List.filter isImage blocks))%nat /\
  sumZ imageLen kept <= UNDELIVERED_INLINE_IMAGE_BYTES_CAP /\
  (sumZ imageLen blocks <= UNDELIVERED_INLINE_IMAGE_BYTES_CAP -> kept = blocks).
Proof.
  unfold capInlineImages.
  destruct (capBlock_spec blocks (mk_capping [] [] 0 0) ltac:(done)) as (kept & dropped & H1 & H2 & H3 & H4 & H5 & H6 & H7).
  rewrite H1, H2. simpl in *. by split_and!.
Qed.

(** ** What a session is left with *)
Lemma om_get_less {E} gone k (sessions : list (string * E)) :
  om_get k (less gone sessions) = if bool_decide (k ∈ gone) then None else om_get k sessions.
Proof.
  induction sessions as [|[k' e] l IH]; unfold less in *; simpl; [by case_bool_decide|].
  destruct (bool_decide (k' ∈ gone)) eqn:Eb; simpl; destruct (decide (k = k')) as [->|].
  - rewrite IH, Eb. done.
  - rewrite IH. done.
  - by rewrite Eb.
  - rewrite IH. done.
Qed.

Lemma withinCap_get `{!Locale} {E} (text : E -> json) age cap sessions keep k :
  om_get k (withinCap text age cap sessions keep) = om_get k sessions \/
  (k <> keep /\ om_get k (withinCap text age cap sessions keep) = None).
Proof.
  unfold withinCap. destruct (_ <=? _); [by left|].
  destruct (evict_spec text cap (staleOf age sessions keep) sessions) as (gone & rest & E0 & -> & _).
  rewrite om_get_less. case_bool_decide as Hk; [right | by left]. split; [|done]. intros ->.
  assert (keep ∈ map fst (staleOf age sessions keep)) as ([k e] & -> & [_ Hne]%staleOf_elem)%list_elem_of_fmap
    by (rewrite E0; apply elem_of_app; by left). done.
Qed.

(** What is remembered for a session is held whole, behind what was held for
    it before and none of it twice, whatever room it takes and even with the
    disk full; another session keeps all it had, or loses all of it to make
    room. *)
Theorem remembered_whole `{!Locale} full now sessionId prompts d :
  readFor sessionId (remember full now sessionId prompts d) =
    readFor sessionId d ++ map (stamp now) (freshOf (readFor sessionId d) prompts) /\
  forall other, other <> sessionId ->
    readFor other (remember full now sessionId prompts d) = readFor other d \/
    readFor other (remember full now sessionId prompts d) = [].
Proof.
  assert (forall l : list PlatformUndeliveredPrompt, l ++ [] = l) as Happ by apply app_nil_r.
  unfold remember. destruct prompts as [|p ps]; [simpl; rewrite Happ; auto|].
  unfold readFor at 2 3. set (existing := om_get sessionId (doc_read d) ?? []).
  destruct (freshOf existing (p :: ps)) as [|f fs] eqn:Ef; [simpl; rewrite Happ; auto|].
  unfold readFor, doc_read, doc_write. simpl doc_cache.
  set (new := om_set _ _ _). split.
  - destruct (withinCap_get entry_json earliest BYTES_CAP new sessionId sessionId) as [-> | [? _]]; [|done].
    unfold new. rewrite om_get_set, decide_True by done. done.
  - intros other Hne. destruct (withinCap_get entry_json earliest BYTES_CAP new sessionId other) as [-> | [_ ->]]; [left|by right].
    unfold new. by rewrite om_get_set, decide_False by done.
Qed.
