(* ===== verification/TurnRecovery.v ===== *)
(** Turns an abnormal death cut short
    (packages/agent-runtime/src/modules/acp/infrastructure/active-turn-store.ts,
    services/interrupted-turn-recovery.ts, recoverInterruptedTurns).

    A life of the machine is modelled: processes that end at any moment, each of
    which opens the document of its predecessor.  [recoverInterruptedTurns] awaits one thing,
    the start of a turn by the Trigger Session Driver; between two starts it
    runs alone, and while a start is awaited turns begin and end, sessions are
    deleted and the process may die.  What the driver starts is outside; it
    answers with the session it started, which for a new session is none that
    this process inherited, or fails.

    [rt_log] notes what the theorems read: processes, turns recorded and ended,
    starts by recovery. *)
From stdpp Require Import base strings list sets.
From Stdlib Require Import ZArith Lia.
From S2P Require Import Prelude JsString Documents.
Local Open Scope nat_scope.

(** ** The markers *)
Record Marker := mk_marker {
  ma_startedAt : string;
  ma_attempts : nat;
  ma_stopped : bool;
  ma_prompt : option PlatformUndeliveredPrompt;
}.

Definition Markers : Type := list (string * Marker).

Record ActiveTurnStore := mk_store {
  as_doc : Doc Markers;
  as_inherited : list string;
  as_resuming : list string;
  as_chains : list (string * nat);
}.

Definition createActiveTurnStore (disk : Markers) : ActiveTurnStore :=
  mk_store (openJsonFile disk) (om_keys disk) [] [].

Definition sessions (s : ActiveTurnStore) : Markers := doc_read (as_doc s).

(** [Set.prototype.delete] *)
Definition set_del (x : string) (l : list string) : list string :=
  List.filter (fun y => negb (String.eqb y x)) l.

Section Store.
Implicit Types (s : ActiveTurnStore).

Definition with_doc (full : bool) (next : Markers) s : ActiveTurnStore :=
  mk_store (doc_write full next (as_doc s)) (as_inherited s) (as_resuming s) (as_chains s).

Definition record (full : bool) (now sessionId : string) (prompt : option PlatformUndeliveredPrompt) s : ActiveTurnStore :=
  let carried := om_get sessionId (as_chains s) in
  let '(attempts, resuming) :=
    match carried with
    | Some a => (a, as_resuming s)
    | None =>
        if includes (as_resuming s) sessionId
        then ((ma_attempts <$> om_get sessionId (sessions s)) ?? 0, set_del sessionId (as_resuming s))
        else (0, as_resuming s)
    end in
  with_doc full (om_set sessionId (mk_marker now attempts false prompt) (sessions s))
    (mk_store (as_doc s) (set_del sessionId (as_inherited s)) resuming (om_delete sessionId (as_chains s))).

Definition remove (full : bool) (sessionId : string) s : ActiveTurnStore :=
  let s := mk_store (as_doc s) (set_del sessionId (as_inherited s)) (set_del sessionId (as_resuming s))
             (om_delete sessionId (as_chains s)) in
  match om_get sessionId (sessions s) with
  | None => s
  | Some _ => with_doc full (om_delete sessionId (sessions s)) s
  end.

Definition promptOf (sessionId : string) s : option PlatformUndeliveredPrompt :=
  om_get sessionId (sessions s) ≫= ma_prompt.

Definition set_attempts (attempts : nat) (m : Marker) : Marker :=
  mk_marker (ma_startedAt m) attempts (ma_stopped m) (ma_prompt m).

Definition bumpAttempts (full : bool) (sessionId : string) s : ActiveTurnStore :=
  match om_get sessionId (sessions s) with
  | None => s
  | Some existing =>
      with_doc full (om_set sessionId (set_attempts (S (ma_attempts existing)) existing) (sessions s))
        (mk_store (as_doc s) (as_inherited s) (set_del sessionId (as_resuming s) ++ [sessionId]) (as_chains s))
  end.

Definition carryAttempts (full : bool) (sessionId : string) (attempts : nat) s : ActiveTurnStore :=
  match attempts with
  | 0 => s
  | _ =>
      let s := mk_store (as_doc s) (as_inherited s) (as_resuming s) (om_set sessionId attempts (as_chains s)) in
      match om_get sessionId (sessions s) with
      | None => s
      | Some existing => with_doc full (om_set sessionId (set_attempts attempts existing) (sessions s)) s
      end
  end.

Definition stopMarker (m : Marker) : Marker := mk_marker (ma_startedAt m) (ma_attempts m) true (ma_prompt m).

Definition markStopped (full : bool) s : ActiveTurnStore :=
  let live := List.filter (fun sid => negb (includes (as_inherited s) sid)) (om_keys (sessions s)) in
  match live with
  | [] => s
  | _ => with_doc full (map (fun kv => (kv.1, if includes live kv.1 then stopMarker kv.2 else kv.2)) (sessions s)) s
  end.

Definition leftovers s : Markers := List.filter (fun kv => includes (as_inherited s) kv.1) (sessions s).
End Store.

(** ** What recovery asks of the session metadata *)
Record RunEntry := mk_runentry { re_unstored : bool; re_type : option string; re_scheduleId : option string }.

Class MetadataStore (M : Type) := {
  isTombstoned : string -> M -> bool;
  entryOf : string -> M -> option RunEntry;
  tombstone : bool -> string -> M -> M;
  reopen : M -> M;
}.

(** ** Recovery *)
Definition MAX_RESUME_ATTEMPTS : nat := 5.
Definition SCHEDULED_SESSION_TYPES : list string := ["schedule_cron"; "schedule_once"]%string.

Definition newline : Ascii.ascii := Ascii.ascii_of_N 10.

Definition promptText (p : PlatformUndeliveredPrompt) : string :=
  str_join (String newline (String newline "")) (omap (fun b => match b with pb_text t => Some t | _ => None end) (up_blocks p)).

(** How a session is started again: its turn goes on, with the notice that says
    why it stopped, or its task runs again in a new session. *)
Inductive Start := st_resume (stopped : bool) | st_rerun (task : string) (scheduleId : option string).

Inductive Recovery :=
| rv_idle
| rv_running (todo : list string)
| rv_awaiting (sessionId : string) (attempts : nat) (start : Start) (todo : list string).

Inductive RTEvent :=
| RBoot
| RStop
| RTurn (sessionId : string)
| REnd (sessionId : string)
| RStart (sessionId : string) (start : Start)
| RCarry (sessionId : string).

Record RT (M : Type) := mk_rt {
  rt_store : ActiveTurnStore;
  rt_meta : M;
  rt_recovery : Recovery;
  rt_bound : list (string * string);
  rt_log : list RTEvent;
}.
Arguments mk_rt {M} _ _ _ _ _.
Arguments rt_store {M} _.
Arguments rt_meta {M} _.
Arguments rt_recovery {M} _.
Arguments rt_bound {M} _.
Arguments rt_log {M} _.

Inductive RTOp :=
| ro_boot
| ro_recover
| ro_next (full : bool)
| ro_started (full : bool) (rerun : string)
| ro_startFailed (full : bool)
| ro_turn (full : bool) (now sessionId : string) (prompt : option PlatformUndeliveredPrompt)
| ro_end (full : bool) (sessionId : string)
| ro_shutdown (full : bool)
| ro_retire (full : bool) (sessionId : string).

Section Recovery.
Context {M : Type} `{!MetadataStore M}.
Implicit Types (r : RT M).

Definition with_store (s : ActiveTurnStore) (e : list RTEvent) r : RT M :=
  mk_rt s (rt_meta r) (rt_recovery r) (rt_bound r) (rt_log r ++ e).
Definition with_recovery (v : Recovery) r : RT M :=
  mk_rt (rt_store r) (rt_meta r) v (rt_bound r) (rt_log r).
Definition with_meta (m : M) r : RT M :=
  mk_rt (rt_store r) m (rt_recovery r) (rt_bound r) (rt_log r).
Definition with_bound (scheduleId sessionId : string) r : RT M :=
  mk_rt (rt_store r) (rt_meta r) (rt_recovery r) (om_set scheduleId sessionId (rt_bound r)) (rt_log r).

(** A turn begins or ends in this process. *)
Definition turnStarts (full : bool) (now sessionId : string) (prompt : option PlatformUndeliveredPrompt) r : RT M :=
  with_store (record full now sessionId prompt (rt_store r)) [RTurn sessionId] r.
Definition turnEnds (full : bool) (sessionId : string) r : RT M :=
  with_store (remove full sessionId (rt_store r)) [REnd sessionId] r.

(** What recovery does for a marker it may start again. *)
Definition startOf (marker : Marker) (entry : option RunEntry) : Start :=
  let task := match ma_prompt marker with Some p => promptText p | None => ""%string end in
  match entry with
  | Some e =>
      if re_unstored e && truthy task && includes SCHEDULED_SESSION_TYPES (re_type e ?? ""%string)
      then st_rerun task (re_scheduleId e)
      else st_resume (ma_stopped marker)
  | None => st_resume (ma_stopped marker)
  end.

(** One round of the loop, up to its await. *)
Definition next (full : bool) r : RT M :=
  match rt_recovery r with
  | rv_running [] => with_recovery rv_idle r
  | rv_running (sessionId :: todo) =>
      let r := with_recovery (rv_running todo) r in
      match om_get sessionId (leftovers (rt_store r)) with
      | None => r
      | Some marker =>
          if MAX_RESUME_ATTEMPTS <=? ma_attempts marker then r
          else if isTombstoned sessionId (rt_meta r) then turnEnds full sessionId r
          else
            let start := startOf marker (entryOf sessionId (rt_meta r)) in
            with_recovery (rv_awaiting sessionId (ma_attempts marker) start todo)
              (with_store (bumpAttempts full sessionId (rt_store r)) [RStart sessionId start] r)
      end
  | _ => r
  end.

(** The driver answers with the session it started. *)
Definition started (full : bool) (rerun : string) r : RT M :=
  match rt_recovery r with
  | rv_awaiting sessionId attempts (st_resume _) todo => with_recovery (rv_running todo) r
  | rv_awaiting sessionId attempts (st_rerun _ scheduleId) todo =>
      if includes (as_inherited (rt_store r)) rerun then r
      else
        let r := with_store (carryAttempts full rerun (attempts + 1) (rt_store r)) [RCarry rerun] r in
        let r := with_meta (tombstone full sessionId (rt_meta r)) r in
        let r := turnEnds full sessionId r in
        let r := match scheduleId with Some i => if truthy i then with_bound i rerun r else r | None => r end in
        with_recovery (rv_running todo) r
  | _ => r
  end.

Definition startFailed (full : bool) r : RT M :=
  match rt_recovery r with
  | rv_awaiting sessionId _ (st_resume _) todo => with_recovery (rv_running todo) (turnEnds full sessionId r)
  | rv_awaiting _ _ (st_rerun _ _) todo => with_recovery (rv_running todo) r
  | _ => r
  end.

(** A new process: the stores are opened on what is on the disk. *)
Definition boot r : RT M :=
  mk_rt (createActiveTurnStore (doc_disk (as_doc (rt_store r)))) (reopen (rt_meta r)) rv_idle (rt_bound r) (rt_log r ++ [RBoot]).

Definition recover r : RT M :=
  match rt_recovery r with
  | rv_idle => with_recovery (rv_running (om_keys (leftovers (rt_store r)))) r
  | _ => r
  end.

Definition rt_step (op : RTOp) r : RT M :=
  match op with
  | ro_boot => boot r
  | ro_recover => recover r
  | ro_next full => next full r
  | ro_started full rerun => started full rerun r
  | ro_startFailed full => startFailed full r
  | ro_turn full now sessionId prompt => turnStarts full now sessionId prompt r
  | ro_end full sessionId => turnEnds full sessionId r
  | ro_shutdown full => with_store (markStopped full (rt_store r)) [RStop] r
  | ro_retire full sessionId => turnEnds full sessionId (with_meta (tombstone full sessionId (rt_meta r)) r)
  end.

Definition rt_run (ops : list RTOp) r : RT M := foldl (fun r op => rt_step op r) r ops.

Definition newMachine (m : M) : RT M := mk_rt (createActiveTurnStore []) m rv_idle [] [].
End Recovery.

(** ** What one interruption costs

    Read off the log: how often recovery has started the work a session's
    marker stands for, and whether the turn it started has not been recorded
    yet; [in_last] is the count at its last start. *)
Record Counts := mk_counts { cn_starts : string -> nat; cn_pending : string -> bool; cn_last : nat }.

Definition count_event (c : Counts) (e : RTEvent) : Counts :=
  match e with
  | RBoot => mk_counts (cn_starts c) (fun _ => false) (cn_last c)
  | RStop => c
  | RTurn s =>
      mk_counts (fun x => if String.eqb x s then (if cn_pending c s then cn_starts c s else 0) else cn_starts c x)
        (fun x => if String.eqb x s then false else cn_pending c x) (cn_last c)
  | REnd s =>
      mk_counts (fun x => if String.eqb x s then 0 else cn_starts c x)
        (fun x => if String.eqb x s then false else cn_pending c x) (cn_last c)
  | RStart s _ =>
      mk_counts (fun x => if String.eqb x s then S (cn_starts c s) else cn_starts c x)
        (fun x => if String.eqb x s then true else cn_pending c x) (S (cn_starts c s))
  | RCarry s =>
      mk_counts (fun x => if String.eqb x s then cn_last c else cn_starts c x)
        (fun x => if String.eqb x s then true else cn_pending c x) (cn_last c)
  end.

Definition counts (log : list RTEvent) : Counts :=
  foldl count_event (mk_counts (fun _ => 0) (fun _ => false) 0) log.

(** The starts of the work a session stands for since a turn of its own began
    or ended. *)
Definition starts_of (sessionId : string) (log : list RTEvent) : nat := cn_starts (counts log) sessionId.

(** ** The counts and the markers agree *)
Definition counted (s : ActiveTurnStore) (c : Counts) : Prop :=
  doc_disk (as_doc s) = sessions s /\
  (forall x m, om_get x (sessions s) = Some m -> cn_starts c x <= ma_attempts m) /\
  (forall x, cn_pending c x = true ->
     (x ∈ as_resuming s /\ is_Some (om_get x (sessions s))) \/ is_Some (om_get x (as_chains s))) /\
  (forall x a, om_get x (as_chains s) = Some a -> cn_starts c x <= a /\ x ∉ as_inherited s) /\
  (forall x, cn_starts c x <= MAX_RESUME_ATTEMPTS) /\ cn_last c <= MAX_RESUME_ATTEMPTS.

Lemma set_del_elem x y l : x ∈ set_del y l <-> x ∈ l /\ x <> y.
Proof. unfold set_del. rewrite elem_filter, negb_true_iff, String.eqb_neq. done. Qed.

Lemma includes_false {A} `{EqDecision A} (l : list A) x : includes l x = false <-> x ∉ l.
Proof. rewrite <- not_true_iff_false, includes_spec. done. Qed.

(** Case analysis on what an event says of a session. *)
Ltac event_cases :=
  repeat match goal with
  | |- context [String.eqb ?x ?x] => rewrite (String.eqb_refl x)
  | |- context [decide (?x = ?x)] => rewrite (decide_True (P := x = x)) by done
  | H : ?x <> ?y |- context [String.eqb ?x ?y] => rewrite (proj2 (String.eqb_neq x y) H)
  | H : ?x <> ?y |- context [decide (?x = ?y)] => rewrite (decide_False (P := x = y)) by done
  | |- context [String.eqb ?x ?y] => destruct (String.eqb_spec x y) as [->|?]
  | |- context [decide (?x = ?y)] => destruct (decide (x = y)) as [->|?]
  end.

Lemma counted_record now x prompt s c :
  counted s c -> counted (record false now x prompt s) (count_event c (RTurn x)).
Proof.
  intros (H1 & H2 & H3 & H4 & H5 & H6). unfold record.
  assert (forall att res,
    (cn_pending c x = true -> cn_starts c x <= att) ->
    (forall y, y <> x -> y ∈ as_resuming s -> y ∈ res) ->
    counted (with_doc false (om_set x (mk_marker now att false prompt) (sessions s))
               (mk_store (as_doc s) (set_del x (as_inherited s)) res (om_delete x (as_chains s))))
            (count_event c (RTurn x))) as Hgo.
  { intros att res Hatt Hres. unfold counted, with_doc, sessions. simpl. split_and!; [done | | | | |done].
    - intros y m. rewrite om_get_set. event_cases; [|eauto]. intros [= <-]. simpl.
      destruct (cn_pending c x); [auto | lia].
    - intros y. event_cases; [done|]. intros [[Hr Hm] | Hc]%H3; [left|right].
      + split; [auto|]. by rewrite om_get_set, decide_False by done.
      + by rewrite om_get_delete, decide_False by done.
    - intros y a. rewrite om_get_delete. event_cases; [done|]. intros [? ?]%H4. split; [done|]. by rewrite set_del_elem; intros [].
    - intros y. event_cases; [|done]. destruct (cn_pending c x); [done | lia]. }
  destruct (om_get x (as_chains s)) as [a|] eqn:Ec.
  - apply Hgo; [intros _; by apply (H4 x a) | done].
  - destruct (includes (as_resuming s) x) eqn:Er.
    + apply Hgo; [|intros y Hne Hy; by apply set_del_elem].
      intros [[_ [m Hm]] | [a Ha]]%H3; [|congruence]. rewrite Hm. simpl. eauto.
    + apply Hgo; [|done]. apply includes_false in Er. intros [[? _] | [a Ha]]%H3; [done | congruence].
Qed.

Lemma counted_remove x s c : counted s c -> counted (remove false x s) (count_event c (REnd x)).
Proof.
  intros (H1 & H2 & H3 & H4 & H5 & H6). unfold remove. simpl.
  assert (forall d : Doc Markers, doc_disk d = doc_read d -> doc_read d = om_delete x (sessions s) ->
    counted (mk_store d (set_del x (as_inherited s)) (set_del x (as_resuming s)) (om_delete x (as_chains s)))
            (count_event c (REnd x))) as Hgo.
  { intros d Hd1 Hd2. unfold counted, sessions. simpl. rewrite Hd1, Hd2. split_and!; [done | | | | |done].
    - intros y m. rewrite om_get_delete. event_cases; [done | eauto].
    - intros y. event_cases; [done|]. intros [[Hr Hm] | Hc]%H3; [left|right].
      + split; [by apply set_del_elem|]. by rewrite om_get_delete, decide_False by done.
      + by rewrite om_get_delete, decide_False by done.
    - intros y a. rewrite om_get_delete. event_cases; [done|]. intros [? ?]%H4. split; [done|]. by rewrite set_del_elem; intros [].
    - intros y. event_cases; [lia | done]. }
  unfold sessions in *. simpl. destruct (om_get x (doc_read (as_doc s))) eqn:Em; simpl; [by apply Hgo|].
  apply Hgo; [done | by rewrite om_delete_none].
Qed.

Lemma counted_bump x m start s c :
  counted s c -> om_get x (sessions s) = Some m -> x ∈ as_inherited s -> ma_attempts m < MAX_RESUME_ATTEMPTS ->
  counted (bumpAttempts false x s) (count_event c (RStart x start)) /\
  cn_last (count_event c (RStart x start)) <= ma_attempts m + 1.
Proof.
  intros (H1 & H2 & H3 & H4 & H5 & H6) Hm Hi Hlt. pose proof (H2 x m Hm) as Hc.
  split; [|simpl; lia]. unfold bumpAttempts. rewrite Hm. unfold counted, with_doc, sessions. simpl.
  split_and!; [done | | | | |lia].
  - intros y m'. rewrite om_get_set. event_cases; [|eauto]. intros [= <-]. simpl. lia.
  - intros y. rewrite om_get_set, elem_of_app, list_elem_of_singleton, set_del_elem. event_cases; [intros _; left; eauto|].
    intros [[? ?] | ?]%H3; auto.
  - intros y a Ha. destruct (H4 y a Ha) as [? ?]. event_cases; [done|]. done.
  - intros y. event_cases; [lia | done].
Qed.

Lemma counted_carry x n s c :
  counted s c -> x ∉ as_inherited s -> cn_last c <= S n ->
  counted (carryAttempts false x (S n) s) (count_event c (RCarry x)).
Proof.
  intros (H1 & H2 & H3 & H4 & H5 & H6) Hi Hlast. unfold carryAttempts. simpl.
  assert (forall d : Doc Markers, doc_disk d = doc_read d ->
    (forall y m, om_get y (doc_read d) = Some m -> if String.eqb y x then ma_attempts m = S n else om_get y (sessions s) = Some m) ->
    (forall y, is_Some (om_get y (sessions s)) -> is_Some (om_get y (doc_read d))) ->
    counted (mk_store d (as_inherited s) (as_resuming s) (om_set x (S n) (as_chains s))) (count_event c (RCarry x))) as Hgo.
  { intros d Hd1 Hd2 Hd3. unfold counted, sessions. simpl. split_and!; [done | | | | |done].
    - intros y m Hy%Hd2. event_cases; [lia | eauto].
    - intros y. rewrite om_get_set. event_cases; [by right; eexists|]. intros [[? ?] | ?]%H3; auto.
    - intros y a. rewrite om_get_set. event_cases; [|eauto]. intros [= <-]. done.
    - intros y. event_cases; [lia | done]. }
  unfold sessions in *. simpl. destruct (om_get x (doc_read (as_doc s))) as [m|] eqn:Em; simpl.
  - apply Hgo; [done | |].
    + intros y m'. simpl. rewrite om_get_set. event_cases; [by intros [= <-] | done].
    + intros y Hy. simpl. rewrite om_get_set. event_cases; [by eexists | done].
  - apply Hgo; [done | | done]. intros y m' Hy. event_cases; congruence.
Qed.

Lemma counted_boot s c :
  counted s c -> counted (createActiveTurnStore (doc_disk (as_doc s))) (count_event c RBoot).
Proof.
  intros (H1 & H2 & _ & _ & H5 & H6). unfold counted, sessions. simpl. rewrite H1.
  by split_and!.
Qed.

Lemma om_get_map_snd {A} (f : string -> A -> A) k (l : list (string * A)) :
  om_get k (map (fun kv => (kv.1, f kv.1 kv.2)) l) = f k <$> om_get k l.
Proof. induction l as [|[k' v] l IH]; [done|]. simpl. by destruct (decide (k = k')) as [->|]. Qed.

Lemma counted_stop s c : counted s c -> counted (markStopped false s) c.
Proof.
  intros (H1 & H2 & H3 & H4 & H5 & H6). unfold markStopped.
  destruct (List.filter _ (om_keys (sessions s))) as [|l ls]; [done|].
  set (live := l :: ls). unfold counted, with_doc, sessions in *. simpl.
  set (f := fun x m => if includes live x then stopMarker m else m).
  change (map _ _) with (map (fun kv : string * Marker => (kv.1, f kv.1 kv.2)) (doc_read (as_doc s))).
  split_and!; try done.
  - intros x m. rewrite om_get_map_snd. destruct (om_get x (doc_read (as_doc s))) as [m'|] eqn:Em; [|done].
    intros [= <-]. specialize (H2 x m' Em). unfold f. by destruct (includes live x).
  - intros x Hx. rewrite om_get_map_snd. destruct (H3 x Hx) as [[? [m Hm]] | ?]; [left | by right].
    split; [done|]. rewrite Hm. by eexists.
Qed.

Lemma leftovers_get x m s : om_get x (leftovers s) = Some m -> om_get x (sessions s) = Some m /\ x ∈ as_inherited s.
Proof.
  unfold leftovers. induction (sessions s) as [|[k v] l IH]; [done|]. simpl.
  destruct (includes (as_inherited s) k) eqn:Ei; simpl; destruct (decide (x = k)) as [->|]; auto.
  - intros [= ->]. by apply includes_spec in Ei.
  - intros Hl. destruct (IH Hl) as [_ Hx]. apply includes_spec in Hx. congruence.
Qed.

(** ** The life of the machine *)
Section Life.
Context {M : Type} `{!MetadataStore M}.
Implicit Types (r : RT M).

(** The disk has room for every write of the operation. *)
Definition has_room (op : RTOp) : bool :=
  match op with
  | ro_boot | ro_recover => true
  | ro_next full | ro_started full _ | ro_startFailed full | ro_turn full _ _ _ | ro_end full _
  | ro_shutdown full | ro_retire full _ => negb full
  end.

Definition rt_counted r : Prop :=
  counted (rt_store r) (counts (rt_log r)) /\
  match rt_recovery r with
  | rv_awaiting _ attempts _ _ => cn_last (counts (rt_log r)) <= S attempts
  | _ => True
  end.

Lemma counts_snoc log e : counts (log ++ [e]) = count_event (counts log) e.
Proof. unfold counts. by rewrite foldl_app. Qed.

(** No event but a start moves the count of the last start. *)
Lemma last_kept c e : match e with RStart _ _ => True | _ => cn_last (count_event c e) = cn_last c end.
Proof. by destruct e. Qed.

Lemma next_counted r : rt_counted r -> rt_counted (next false r).
Proof.
  intros [Hc Hr]. unfold next. destruct (rt_recovery r) as [|[|x todo]|] eqn:Er; try (by split; rewrite ?Er).
  cbv zeta. simpl rt_store. simpl rt_meta.
  destruct (om_get x (leftovers (rt_store r))) as [m|] eqn:Em; [|by split].
  destruct (leftovers_get x m _ Em) as [Hm Hi].
  destruct (Nat.leb_spec MAX_RESUME_ATTEMPTS (ma_attempts m)) as [|Hlt]; [by split|].
  destruct (isTombstoned x (rt_meta r)); unfold rt_counted; simpl; rewrite counts_snoc.
  - split; [by apply counted_remove | done].
  - destruct (counted_bump x m (startOf m (entryOf x (rt_meta r))) _ _ Hc Hm Hi Hlt) as [? ?]. split; [done | lia].
Qed.

Lemma started_counted rerun r : rt_counted r -> rt_counted (started false rerun r).
Proof.
  intros [Hc Hr]. unfold started. destruct (rt_recovery r) as [| |x n [b|task sch] todo] eqn:Er; try (by split; rewrite ?Er).
  destruct (includes _ rerun) eqn:Ei; [by split; rewrite ?Er|]. apply includes_false in Ei.
  replace (n + 1) with (S n) by lia.
  assert (counted (remove false x (carryAttempts false rerun (S n) (rt_store r)))
            (counts ((rt_log r ++ [RCarry rerun]) ++ [REnd x]))) as H.
  { rewrite !counts_snoc. apply counted_remove. by apply counted_carry. }
  destruct sch as [i|]; [destruct (truthy i)|]; (split; [exact H | done]).
Qed.

Lemma rt_step_counted op r : has_room op = true -> rt_counted r -> rt_counted (rt_step op r).
Proof.
  intros Hop [Hc Hr]. destruct op as [| |full|full rerun|full|full now x prompt|full x|full|full x]; simpl in Hop; simpl;
    try (destruct full; [discriminate|]).
  - split; simpl; [|done]. rewrite counts_snoc. by apply counted_boot.
  - unfold recover. destruct (rt_recovery r) eqn:Er; split; rewrite ?Er; done.
  - by apply next_counted.
  - by apply started_counted.
  - unfold startFailed. destruct (rt_recovery r) as [| |x n [b|task sch] todo] eqn:Er; try (by split; rewrite ?Er).
    split; simpl; [|done]. rewrite counts_snoc. by apply counted_remove.
  - split; simpl; rewrite counts_snoc; [by apply counted_record | done].
  - split; simpl; rewrite counts_snoc; [by apply counted_remove | done].
  - split; simpl; rewrite counts_snoc; [by apply counted_stop | done].
  - split; simpl; rewrite counts_snoc; [by apply counted_remove | done].
Qed.

Lemma rt_run_ind (P : RT M -> Prop) (ok : RTOp -> bool) ops r :
  (forall op r, ok op = true -> P r -> P (rt_step op r)) ->
  forallb ok ops = true -> P r -> P (rt_run ops r).
Proof.
  intros Hstep. revert r. induction ops as [|op ops IH]; intros r Hops Hr; [done|].
  simpl in *. apply andb_prop in Hops as [? ?]. apply IH; auto.
Qed.

Lemma newMachine_counted m : rt_counted (newMachine m).
Proof.
  split; [|done]. unfold counted. simpl. split_and!; try done; unfold MAX_RESUME_ATTEMPTS; intros; lia.
Qed.


(** *** What a new process finds *)

(** The turn of a session, off the log: whether one was cut short, and if so
    whether its process was told to stop; [ts_live]: in this very process. *)
Record TurnSeen := mk_seen { ts_turn : option bool; ts_live : bool }.

Definition see (sessionId : string) (t : TurnSeen) (e : RTEvent) : TurnSeen :=
  match e with
  | RBoot => mk_seen (ts_turn t) false
  | RStop => if ts_live t then mk_seen ((fun _ => true) <$> ts_turn t) true else t
  | RTurn s => if String.eqb sessionId s then mk_seen (Some false) true else t
  | REnd s => if String.eqb sessionId s then mk_seen None false else t
  | _ => t
  end.

Definition turn_seen (sessionId : string) (log : list RTEvent) : TurnSeen :=
  foldl (see sessionId) (mk_seen None false) log.

Definition seen_ok (s : ActiveTurnStore) (seen : string -> TurnSeen) : Prop :=
  doc_disk (as_doc s) = sessions s /\
  forall x,
    ma_stopped <$> om_get x (sessions s) = ts_turn (seen x) /\
    (x ∈ as_inherited s -> ts_live (seen x) = false) /\
    (is_Some (om_get x (sessions s)) -> x ∉ as_inherited s -> ts_live (seen x) = true).

Lemma seen_ok_ext s f g : (forall x, f x = g x) -> seen_ok s f -> seen_ok s g.
Proof. intros H [H1 H2]. split; [done|]. intros x. rewrite <- H. apply H2. Qed.

(** Writes that keep who is inherited, and every marker's session and stop. *)
Lemma seen_ok_same s s' f :
  doc_disk (as_doc s') = sessions s' -> as_inherited s' = as_inherited s ->
  (forall x, ma_stopped <$> om_get x (sessions s') = ma_stopped <$> om_get x (sessions s)) ->
  seen_ok s f -> seen_ok s' f.
Proof.
  intros H1 H2 H3 [_ H]. split; [done|]. intros x. destruct (H x) as (Ha & Hb & Hc).
  rewrite H3, H2. split_and!; [done.. |]. intros Hm. apply Hc.
  specialize (H3 x). destruct (om_get x (sessions s)); [done|]. destruct Hm as [m Hm]. by rewrite Hm in H3.
Qed.

Lemma record_seen now x prompt s f :
  seen_ok s f -> seen_ok (record false now x prompt s) (fun y => see y (f y) (RTurn x)).
Proof.
  intros [Hd H]. unfold record.
  assert (forall att res, seen_ok (with_doc false (om_set x (mk_marker now att false prompt) (sessions s))
    (mk_store (as_doc s) (set_del x (as_inherited s)) res (om_delete x (as_chains s)))) (fun y => see y (f y) (RTurn x))) as Hgo.
  { intros att res. split; [done|]. intros y. destruct (H y) as (Ha & Hb & Hc). unfold sessions. simpl.
    rewrite om_get_set, set_del_elem. event_cases; [naive_solver|]. split_and!; [done | naive_solver |].
    intros Hm Hn. apply Hc; [done|]. intros Hi. by apply Hn. }
  destruct (om_get x (as_chains s)); [apply Hgo|]. destruct (includes (as_resuming s) x); apply Hgo.
Qed.

Lemma remove_seen x s f :
  seen_ok s f -> seen_ok (remove false x s) (fun y => see y (f y) (REnd x)).
Proof.
  intros [Hd H]. unfold remove, sessions in *. simpl.
  assert (forall d : Doc Markers, doc_disk d = doc_read d -> doc_read d = om_delete x (doc_read (as_doc s)) ->
    seen_ok (mk_store d (set_del x (as_inherited s)) (set_del x (as_resuming s)) (om_delete x (as_chains s)))
      (fun y => see y (f y) (REnd x))) as Hgo.
  { intros d Hd1 Hd2. unfold seen_ok, sessions. simpl. rewrite Hd1, Hd2. split; [done|]. intros y.
    destruct (H y) as (Ha & Hb & Hc). rewrite om_get_delete, set_del_elem. event_cases; [naive_solver|].
    split_and!; [done | naive_solver |]. intros Hm Hn. apply Hc; [done|]. intros Hi. by apply Hn. }
  destruct (om_get x (doc_read (as_doc s))) eqn:Em; [by apply Hgo|]. apply Hgo; [done | by rewrite om_delete_none].
Qed.

Lemma bump_seen x s f : seen_ok s f -> seen_ok (bumpAttempts false x s) f.
Proof.
  intros H. pose proof (proj1 H) as Hd. unfold bumpAttempts. destruct (om_get x (sessions s)) as [m|] eqn:Em; [|done].
  apply (seen_ok_same s); [done | done | | exact H]. intros y. unfold sessions at 1. simpl. rewrite om_get_set.
  event_cases; [by rewrite Em | done].
Qed.

Lemma carry_seen x n s f : seen_ok s f -> seen_ok (carryAttempts false x n s) f.
Proof.
  intros H. pose proof (proj1 H) as Hd. unfold carryAttempts. destruct n as [|n]; [done|]. unfold sessions in *. simpl.
  destruct (om_get x (doc_read (as_doc s))) as [m|] eqn:Em; (apply (seen_ok_same s); [done | done | | exact H]); [|done].
  intros y. unfold sessions. simpl. rewrite om_get_set. event_cases; [by rewrite Em | done].
Qed.

Lemma boot_seen s f :
  seen_ok s f -> seen_ok (createActiveTurnStore (doc_disk (as_doc s))) (fun y => see y (f y) RBoot).
Proof.
  intros [Hd H]. split; [done|]. intros x. destruct (H x) as (Ha & _).
  change (sessions (createActiveTurnStore (doc_disk (as_doc s)))) with (doc_disk (as_doc s)). simpl. rewrite Hd.
  split_and!; [done | done |]. intros [m Hm] Hn. apply (om_get_None_keys x) in Hn. congruence.
Qed.

Lemma stop_seen s f :
  seen_ok s f -> seen_ok (markStopped false s) (fun y => see y (f y) RStop).
Proof.
  intros [Hd H]. unfold markStopped.
  set (live := List.filter _ (om_keys (sessions s))).
  assert (forall y, includes live y = true <-> is_Some (om_get y (sessions s)) /\ y ∉ as_inherited s) as Hlive.
  { intros y. rewrite includes_spec. unfold live. rewrite elem_filter, negb_true_iff, includes_false.
    pose proof (om_get_None_keys y (sessions s)) as Hk. destruct (om_get y (sessions s)) as [m|].
    - split; [intros []; eauto|]. intros [_ ?]. split; [|done]. destruct (decide (y ∈ om_keys (sessions s))); [done|].
      by apply Hk in n.
    - split; [intros [Hy _] | intros [[] _]; done]. by apply Hk in Hy. }
  set (next := map (fun kv => (kv.1, if includes live kv.1 then stopMarker kv.2 else kv.2)) (sessions s)).
  assert (forall y, om_get y next = (fun m => if includes live y then stopMarker m else m) <$> om_get y (sessions s)) as Hget
    by (intros y; apply (om_get_map_snd (fun k m => if includes live k then stopMarker m else m))).
  assert (seen_ok (with_doc false next s) (fun y => see y (f y) RStop)) as Hall.
  { split; [done|]. intros y. destruct (H y) as (Ha & Hb & Hc).
    change (sessions (with_doc false next s)) with next. rewrite Hget. simpl.
    destruct (includes live y) eqn:El.
    - apply Hlive in El as [[m Hm] Hn]. rewrite Hm in *. rewrite (Hc (ex_intro _ m eq_refl) Hn). simpl in *.
      rewrite <- Ha. split_and!; [done | intros Hi; by destruct Hn | done].
    - assert (is_Some (om_get y (sessions s)) -> y ∈ as_inherited s) as Hinh.
      { intros Hm. destruct (decide (y ∈ as_inherited s)); [done|].
        rewrite <- not_true_iff_false, Hlive in El. by destruct El. }
      destruct (om_get y (sessions s)) as [m|] eqn:Em.
      + rewrite (Hb (Hinh (ex_intro _ m eq_refl))). split_and!; [done | done |]. intros _ Hx. destruct Hx. by apply Hinh.
      + simpl in *. destruct (ts_live (f y)) eqn:Et; simpl; rewrite <- ?Ha, ?Et;
          (split_and!; [done | intros Hi; by specialize (Hb Hi) | intros []; done]). }
  clearbody next. clearbody live. destruct live as [|l ls]; [|exact Hall].
  apply (seen_ok_same (with_doc false next s)); [done | done | | exact Hall].
  intros y. change (sessions (with_doc false next s)) with next. rewrite Hget. simpl. by destruct (om_get y (sessions s)).
Qed.

Definition rt_seen r : Prop := seen_ok (rt_store r) (fun x => turn_seen x (rt_log r)).

Lemma rt_seen_snoc s r e m v b :
  seen_ok s (fun x => see x (turn_seen x (rt_log r)) e) -> rt_seen (mk_rt s m v b (rt_log r ++ [e])).
Proof. apply seen_ok_ext. intros x. unfold turn_seen. simpl. by rewrite foldl_app. Qed.

Lemma turnEnds_seen x r : rt_seen r -> rt_seen (turnEnds false x r).
Proof. intros H. apply rt_seen_snoc. by apply remove_seen. Qed.

Lemma rt_step_seen op r : has_room op = true -> rt_seen r -> rt_seen (rt_step op r).
Proof.
  intros Hop H. destruct op as [| |full|full rerun|full|full now x prompt|full x|full|full x]; simpl in Hop; simpl;
    try (destruct full; [discriminate|]).
  - apply rt_seen_snoc. by apply boot_seen.
  - unfold recover. by destruct (rt_recovery r).
  - unfold next. destruct (rt_recovery r) as [|[|x todo]|]; try done. cbv zeta. simpl rt_store. simpl rt_meta.
    destruct (om_get x (leftovers (rt_store r))) as [m|]; [|done]. destruct (_ <=? _); [done|].
    destruct (isTombstoned x (rt_meta r)); [by apply turnEnds_seen|].
    apply rt_seen_snoc. by apply bump_seen.
  - unfold started. destruct (rt_recovery r) as [| |x n [b|task sch] todo]; try done.
    destruct (includes _ rerun); [done|].
    assert (rt_seen (with_store (carryAttempts false rerun (n + 1) (rt_store r)) [RCarry rerun] r)) as H'
      by (apply rt_seen_snoc; by apply carry_seen).
    destruct sch as [i|]; [destruct (truthy i)|]; exact (turnEnds_seen x _ H').
  - unfold startFailed. destruct (rt_recovery r) as [| |x n [b|task sch] todo]; try done. by apply (turnEnds_seen x r).
  - apply rt_seen_snoc. by apply record_seen.
  - by apply turnEnds_seen.
  - apply rt_seen_snoc. by apply stop_seen.
  - by apply (turnEnds_seen x (with_meta _ r)).
Qed.

(** A new process finds exactly the turns that were cut short: while the
    disk takes what is written to it, the leftovers of a process that starts are
    the sessions with a turn begun and not ended since, in any process before
    it, each told from the others by whether its own process was asked to stop. *)
Theorem leftovers_are_the_cut_turns m ops sessionId :
  forallb has_room ops = true ->
  let r := rt_run ops (newMachine m) in
  ma_stopped <$> om_get sessionId (leftovers (rt_store (boot r))) = ts_turn (turn_seen sessionId (rt_log r)).
Proof.
  intros Hops r. assert (rt_seen r) as [Hd H].
  { apply (rt_run_ind _ has_room); [apply rt_step_seen | done | split; [done|]].
    intros x. simpl. split_and!; [done | intros Hx; by apply elem_of_nil in Hx | intros []; done]. }
  destruct (H sessionId) as (<- & _). do 2 f_equal. simpl. unfold leftovers. rewrite Hd. simpl.
  apply filter_all, Forall_forall. intros kv Hkv. apply includes_spec. apply (list_elem_of_fmap_2 fst _ _ Hkv).
Qed.

(** *** Live work is left alone *)

(** The sessions with a turn begun or ended in the process now running. *)
Definition touch (l : list string) (e : RTEvent) : list string :=
  match e with RBoot => [] | RTurn s | REnd s => s :: l | _ => l end.
Definition touched (log : list RTEvent) : list string := foldl touch [] log.

Definition rt_apart r : Prop :=
  (forall x, x ∈ touched (rt_log r) -> x ∉ as_inherited (rt_store r)) /\
  (forall l1 x start l2, rt_log r = l1 ++ RStart x start :: l2 -> x ∉ touched l1).

Lemma apart_snoc s r e m v b :
  rt_apart r ->
  (forall x, x ∈ as_inherited s -> e <> RBoot -> x ∈ as_inherited (rt_store r)) ->
  (match e with RTurn x | REnd x => x ∉ as_inherited s | RStart x _ => x ∈ as_inherited (rt_store r) | _ => True end) ->
  rt_apart (mk_rt s m v b (rt_log r ++ [e])).
Proof.
  intros [H1 H2] Hs He. split; simpl.
  - intros x. unfold touched. rewrite foldl_app. simpl. fold (touched (rt_log r)).
    destruct e as [| |y|y|y st|y]; simpl; rewrite ?elem_of_cons.
    + intros Hx. by apply elem_of_nil in Hx.
    + intros Hx Hi. apply (H1 x Hx). by apply Hs.
    + intros [->|Hx] Hi; [done|]. apply (H1 x Hx). by apply Hs.
    + intros [->|Hx] Hi; [done|]. apply (H1 x Hx). by apply Hs.
    + intros Hx Hi. apply (H1 x Hx). by apply Hs.
    + intros Hx Hi. apply (H1 x Hx). by apply Hs.
  - intros l1 x start l2 E. destruct l2 as [|e' l2 _] using rev_ind.
    + apply app_inj_tail in E as [<- ->]. intros Hx. by apply (H1 x Hx).
    + rewrite app_comm_cons, app_assoc in E. apply app_inj_tail in E as [E _]. by apply (H2 l1 x start l2).
Qed.

Lemma record_inherited full now x prompt s : as_inherited (record full now x prompt s) = set_del x (as_inherited s).
Proof. unfold record. destruct (om_get x (as_chains s)); [done|]. by destruct (includes (as_resuming s) x). Qed.
Lemma remove_inherited full x s : as_inherited (remove full x s) = set_del x (as_inherited s).
Proof. unfold remove. by destruct (om_get _ _). Qed.
Lemma bump_inherited full x s : as_inherited (bumpAttempts full x s) = as_inherited s.
Proof. unfold bumpAttempts. by destruct (om_get _ _). Qed.
Lemma carry_inherited full x n s : as_inherited (carryAttempts full x n s) = as_inherited s.
Proof. unfold carryAttempts. destruct n; [done|]. by destruct (om_get _ _). Qed.
Lemma stop_inherited full s : as_inherited (markStopped full s) = as_inherited s.
Proof. unfold markStopped. by destruct (List.filter _ _). Qed.

Lemma turnEnds_apart full x r : rt_apart r -> rt_apart (turnEnds full x r).
Proof.
  intros H. apply apart_snoc; [done | |]; rewrite remove_inherited.
  - by intros y [? _]%set_del_elem.
  - by intros [_ ?]%set_del_elem.
Qed.

Lemma rt_step_apart op r : rt_apart r -> rt_apart (rt_step op r).
Proof.
  intros H. destruct op as [| |full|full rerun|full|full now x prompt|full x|full|full x]; simpl.
  - apply apart_snoc; done.
  - unfold recover. by destruct (rt_recovery r).
  - unfold next. destruct (rt_recovery r) as [|[|x todo]|]; try done. cbv zeta. simpl rt_store. simpl rt_meta.
    destruct (om_get x (leftovers (rt_store r))) as [m|] eqn:Em; [|done]. destruct (_ <=? _); [done|].
    destruct (isTombstoned x (rt_meta r)); [by apply turnEnds_apart|].
    apply apart_snoc; [done | | by apply (leftovers_get x m)]. intros y. simpl. by rewrite bump_inherited.
  - unfold started. destruct (rt_recovery r) as [| |x n [b|task sch] todo]; try done.
    destruct (includes _ rerun); [done|].
    assert (rt_apart (with_store (carryAttempts full rerun (n + 1) (rt_store r)) [RCarry rerun] r)) as H'
      by (apply apart_snoc; [done | by rewrite carry_inherited | done]).
    destruct sch as [i|]; [destruct (truthy i)|]; exact (turnEnds_apart full x _ H').
  - unfold startFailed. destruct (rt_recovery r) as [| |x n [b|task sch] todo]; try done. by apply (turnEnds_apart full x r).
  - apply apart_snoc; [done | |]; rewrite record_inherited; [by intros y [? _]%set_del_elem | by intros [_ ?]%set_del_elem].
  - by apply turnEnds_apart.
  - apply apart_snoc; [done | by rewrite stop_inherited | done].
  - by apply (turnEnds_apart full x (with_meta _ r)).
Qed.

(** Recovery leaves live work alone: whatever happens while it awaits a
    start, and whatever fails, it starts no session that has begun or ended a
    turn in the process it runs in. *)
Theorem live_work_is_left_alone m ops l1 sessionId start l2 :
  rt_log (rt_run ops (newMachine m)) = l1 ++ RStart sessionId start :: l2 ->
  sessionId ∉ touched l1.
Proof.
  assert (rt_apart (rt_run ops (newMachine m))) as [_ H]; [|apply H].
  apply (rt_run_ind _ (fun _ => true)); [intros; by apply rt_step_apart | by apply forallb_forall |].
  split; [intros x Hx; by apply elem_of_nil in Hx | intros [|] ? ? ? E; done].
Qed.
End Life.

(** ** A life to run *)

(** Session metadata on a disk with room: entries and tombstones. *)
#[export] Instance plain_metadata : MetadataStore (list (string * RunEntry) * list string) := {|
  isTombstoned x m := includes m.2 x;
  entryOf x m := om_get x m.1;
  tombstone _ x m := (om_delete x m.1, m.2 ++ [x]);
  reopen m := m;
|}.

(** A chat whose resumed turn dies with every process, and a scheduled session
    cut on its first turn, before the harness stored it. *)
Definition sick_meta : list (string * RunEntry) * list string :=
  ([("chat", mk_runentry false None None); ("nightly", mk_runentry true (Some "schedule_cron") (Some "sch1"))], [])%string.
Definition nightly_task : PlatformUndeliveredPrompt := mk_undelivered "p1" "t0" [pb_text "tidy up"] [] None.

Definition sick_boot (full : bool) : list RTOp :=
  [ro_boot; ro_recover; ro_next full; ro_started false ""; ro_turn false "t1" "chat" None; ro_next full].
Definition sick_life : list RTOp :=
  [ro_turn false "t0" "chat" None; ro_turn false "t0" "nightly" (Some nightly_task); ro_shutdown false;
   ro_boot; ro_recover; ro_next false; ro_started false ""; ro_turn false "t1" "chat" None; ro_next false;
   ro_started false "nightly2"; ro_turn false "t1" "nightly2" (Some nightly_task)]%string
  ++ concat (replicate 4 (sick_boot false)) ++ [ro_boot; ro_recover; ro_next false].


Lemma leftovers_are_the_cut_turns_witness :
  let ops := [ro_turn false "t0" "chat" None; ro_turn false "t0" "nightly" (Some nightly_task);
              ro_end false "nightly"; ro_shutdown false]%string in
  let r := rt_run ops (newMachine sick_meta) in
  forallb has_room ops = true /\ ts_turn (turn_seen "chat" (rt_log r)) = Some true /\
  ma_stopped <$> om_get "chat"%string (leftovers (rt_store (boot r))) = ts_turn (turn_seen "chat" (rt_log r)).
Proof.
  intros ops r. split; [by vm_compute|]. split; [by vm_compute|].
  apply (leftovers_are_the_cut_turns sick_meta ops "chat"). by vm_compute.
Defined.

Lemma live_work_is_left_alone_witness :
  let ops := [ro_turn false "t0" "chat" None; ro_boot; ro_recover; ro_next false]%string in
  rt_log (rt_run ops (newMachine sick_meta)) = [RTurn "chat"; RBoot; RStart "chat" (st_resume false)]%string /\
  "chat"%string ∉ touched [RTurn "chat"; RBoot]%string.
Proof.
  intros ops. split; [by vm_compute|].
  apply (live_work_is_left_alone sick_meta ops _ _ (st_resume false) []). by vm_compute.
Defined.

(** With the disk full the attempts stay in memory only: every process finds the
    count of the first, and resumes the session again. *)
Example full_disk_loops :
  let life := [ro_turn false "t0" "chat" None]%string ++
    concat (replicate 8 [ro_boot; ro_recover; ro_next true; ro_started true ""; ro_turn true "t1" "chat" None])%string in
  starts_of "chat" (rt_log (rt_run life (newMachine sick_meta))) = 8 /\
  ma_attempts <$> om_get "chat"%string (doc_disk (as_doc (rt_store (rt_run life (newMachine sick_meta))))) = Some 0.
Proof. by vm_compute. Qed.
