(* ===== verification/TtlMaps.v ===== *)
(** Maps whose entries expire (packages/api-server/src/core/ttl-map.ts, and the
    store kept in memory of core/ttl-store.ts), and the limit they carry on
    posts that start turns (modules/channels/domain/bot-post-rate-limit.ts).

    A map is its entries in insertion order.  The clock is read once for each
    operation. *)
From stdpp Require Import base strings list.
From Stdlib Require Import ZArith Lia.
From S2P Require Import Prelude.
Local Open Scope Z_scope.

(** ** [createTtlMap] *)
Definition DEFAULT_MAX_ENTRIES : nat := 5000.

Section TtlMap.
Context {K V : Type} `{EqDecision K} (ttlMs : Z) (maxEntries : nat).
Definition TtlEntries : Type := list (K * (V * Z)).
Implicit Types (m : TtlEntries) (k : K).

Definition ttl_get (k : K) (now : Z) m : TtlEntries * option V :=
  match om_get k m with
  | None => (m, None)
  | Some (v, expiresAt) => if expiresAt <=? now then (om_delete k m, None) else (m, Some v)
  end.

(** The sweep from the front: it stops at the first live entry. *)
Fixpoint sweep (at_ : Z) m : TtlEntries :=
  match m with
  | [] => []
  | (stale, (v, expiresAt)) :: m' => if at_ <? expiresAt then m else sweep at_ m'
  end.

Definition ttl_set (k : K) (v : V) (writtenAt : option Z) (now : Z) m : TtlEntries :=
  let m := if negb (om_has k m) && (maxEntries <=? length m)%nat then sweep now m else m in
  om_delete k m ++ [(k, (v, (writtenAt ?? now) + ttlMs))].

Definition ttl_delete (k : K) m : TtlEntries := om_delete k m.

(** *** Operations, and what they answer *)
Inductive TtlOp :=
| to_get (k : K)
| to_set (k : K) (v : V) (writtenAt : option Z)
| to_delete (k : K).

Definition ttl_step (now : Z) (op : TtlOp) m : TtlEntries * option V :=
  match op with
  | to_get k => ttl_get k now m
  | to_set k v w => (ttl_set k v w now m, None)
  | to_delete k => (ttl_delete k m, None)
  end.

Fixpoint ttl_run (ops : list (Z * TtlOp)) m : TtlEntries * list (option V) :=
  match ops with
  | [] => (m, [])
  | (now, op) :: ops =>
      let '(m, a) := ttl_step now op m in
      let '(m, l) := ttl_run ops m in (m, a :: l)
  end.

(** *** The reference: a function from keys, in which nothing is swept *)
Definition Reference : Type := K -> option (V * Z).

Definition ref_step (now : Z) (op : TtlOp) (r : Reference) : Reference * option V :=
  match op with
  | to_get k => (r, match r k with Some (v, e) => if e <=? now then None else Some v | None => None end)
  | to_set k v w => ((fun x => if decide (x = k) then Some (v, (w ?? now) + ttlMs) else r x), None)
  | to_delete k => ((fun x => if decide (x = k) then None else r x), None)
  end.

Fixpoint ref_run (ops : list (Z * TtlOp)) (r : Reference) : list (option V) :=
  match ops with
  | [] => []
  | (now, op) :: ops => let '(r, a) := ref_step now op r in a :: ref_run ops r
  end.

(** The clock does not go back. *)
Fixpoint clock_forward (from : Z) {O} (ops : list (Z * O)) : Prop :=
  match ops with
  | [] => True
  | (now, _) :: ops => from <= now /\ clock_forward now ops
  end.

(** The map and the reference, from [now] on: what has expired may be gone. *)
Definition ttl_agrees (now : Z) m (r : Reference) : Prop :=
  NoDup (om_keys m) /\
  forall k, om_get k m = r k \/ (om_get k m = None /\ exists v e, r k = Some (v, e) /\ e <= now).

Lemma sweep_tail at_ m : exists gone, m = gone ++ sweep at_ m /\ Forall (fun kv => kv.2.2 <= at_) gone.
Proof.
  induction m as [|[k [v e]] m (gone & E & H)]; simpl; [by exists []|].
  destruct (Z.ltb_spec at_ e); [by exists []|].
  exists ((k, (v, e)) :: gone). split; [by rewrite E at 1|]. by constructor.
Qed.

Lemma sweep_agrees now m r : ttl_agrees now m r -> ttl_agrees now (sweep now m) r.
Proof.
  intros [HN H]. destruct (sweep_tail now m) as (gone & E & Hg).
  assert (NoDup (om_keys gone ++ om_keys (sweep now m))) as HN'.
  { unfold om_keys in *. by rewrite <- map_app, <- E. }
  split; [by apply NoDup_app in HN' as (_ & _ & ?)|]. intros k.
  specialize (H k). rewrite E, om_get_app in H.
  destruct (om_get k gone) as [[v e]|] eqn:Eg; [|done].
  pose proof (om_get_Some_in _ _ _ Eg) as Hin. rewrite Forall_forall in Hg. specialize (Hg _ Hin). simpl in Hg.
  assert (om_get k (sweep now m) = None) as ->.
  { apply om_get_None_keys. intros Hk. apply NoDup_app in HN' as (_ & Hd & _). apply (Hd k); [|done].
    apply (list_elem_of_fmap_2 fst _ _ Hin). }
  right. split; [done|]. destruct H as [H | [? _]]; [|done]. eauto.
Qed.

Lemma agrees_later now now' m r : now <= now' -> ttl_agrees now m r -> ttl_agrees now' m r.
Proof.
  intros Hle [HN H]. split; [done|]. intros k. destruct (H k) as [?|(? & v & e & ? & ?)]; [by left|].
  right. split; [done|]. exists v, e. split; [done | lia].
Qed.

Lemma delete_agrees now k m r :
  ttl_agrees now m r -> ttl_agrees now (om_delete k m) (fun x => if decide (x = k) then None else r x).
Proof.
  intros [HN H]. split; [by apply om_delete_NoDup|]. intros x. rewrite om_get_delete.
  destruct (decide (x = k)); [by left | apply H].
Qed.

Lemma ttl_step_agrees now op m r :
  ttl_agrees now m r ->
  let '(m', a) := ttl_step now op m in
  let '(r', a') := ref_step now op r in
  a = a' /\ ttl_agrees now m' r'.
Proof.
  intros Ha. destruct op as [k|k v w|k]; simpl.
  - pose proof Ha as [HN H]. unfold ttl_get. destruct (H k) as [E|(E & v & e & Er & Hle)].
    + rewrite E. destruct (r k) as [[v e]|] eqn:Er; [|done].
      destruct (Z.leb_spec e now); [|done]. split; [done|]. split; [by apply om_delete_NoDup|].
      intros x. rewrite om_get_delete. destruct (decide (x = k)) as [->|]; [right; eauto | apply H].
    + rewrite E, Er. destruct (Z.leb_spec e now); [done | lia].
  - split; [done|]. unfold ttl_set.
    set (m1 := if negb (om_has k m) && (maxEntries <=? length m)%nat then sweep now m else m).
    assert (ttl_agrees now m1 r) as [HN H] by (unfold m1; destruct (_ && _); [by apply sweep_agrees | done]).
    split.
    + unfold om_keys. rewrite map_app. apply NoDup_app. split; [by apply om_delete_NoDup|]. split; [|apply NoDup_singleton].
      intros x Hx ->%list_elem_of_singleton. simpl in Hx.
      change (map fst (om_delete k m1)) with (om_keys (om_delete k m1)) in Hx.
      rewrite om_delete_keys in Hx. by apply list_elem_of_filter in Hx as [? _].
    + intros x. rewrite om_get_app, om_get_delete. destruct (decide (x = k)) as [->|Hne].
      * left. simpl. by rewrite decide_True.
      * specialize (H x). destruct (om_get x m1) eqn:Ex; simpl; by rewrite ?decide_False.
  - split; [done|]. by apply delete_agrees.
Qed.

Lemma ttl_run_agrees from ops m r :
  clock_forward from ops -> ttl_agrees from m r -> (ttl_run ops m).2 = ref_run ops r.
Proof.
  revert from m r. induction ops as [|[now op] ops IH]; intros from m r Hc Ha; [done|].
  simpl in *. destruct Hc as [Hle Hc]. pose proof (ttl_step_agrees now op m r (agrees_later _ _ _ _ Hle Ha)) as H.
  destruct (ttl_step now op m) as [m' a], (ref_step now op r) as [r' a']. destruct H as [-> H].
  specialize (IH now m' r' Hc H). destruct (ttl_run ops m') as [m'' l]. simpl in *. by rewrite IH.
Qed.
End TtlMap.
Arguments TtlEntries : clear implicits.
Arguments TtlOp : clear implicits.

(** C39: Whatever is swept to make room, a map with a clock that does not go back
    answers each [get] as one that keeps everything would: the value last set, until
    its time is over, and nothing after that or after a delete. *)
Theorem ttl_map_forgets_only_the_expired {K V} `{EqDecision K} (ttlMs : Z) (maxEntries : nat) (from : Z)
    (ops : list (Z * TtlOp K V)) :
  clock_forward from ops ->
  (ttl_run ttlMs maxEntries ops []).2 = ref_run ttlMs ops (fun _ => None).
Proof.
  intros Hc. apply (ttl_run_agrees _ _ from); [done|]. split; [constructor | by left].
Qed.

Lemma ttl_map_forgets_only_the_expired_witness :
  let ops := [(0, to_set "a" 1 None); (1, to_set "b" 2 None); (5, to_get "a"); (12, to_set "c" 3 None);
              (12, to_get "a"); (12, to_get "b"); (12, to_get "c")]%string in
  (ttl_run 10 2 ops []).2 = [None; None; Some 1; None; None; None; Some 3] /\
  (ttl_run 10 2 ops []).2 = ref_run 10 ops (fun _ => None).
Proof.
  intros ops. split; [by vm_compute|]. apply (ttl_map_forgets_only_the_expired 10 2 0). simpl. lia.
Defined.

(** ** [createMemoryTtlStore] *)
Section MemoryTtlStore.
Context {V : Type} (ttlMs : Z).
Definition MemEntries : Type := list (string * (V * Z)).
Implicit Types (m : MemEntries).

Definition live (key : string) (now : Z) m : MemEntries * option (V * Z) :=
  match om_get key m with
  | None => (m, None)
  | Some e => if e.2 <? now then (om_delete key m, None) else (m, Some e)
  end.

Definition store_set (key : string) (value : V) (now : Z) m : MemEntries := om_set key (value, now + ttlMs) m.
Definition store_peek (key : string) (now : Z) m : MemEntries * option V :=
  let '(m, e) := live key now m in (m, fst <$> e).
Definition store_consume (key : string) (now : Z) m : MemEntries * option V :=
  let '(m, e) := live key now m in (om_delete key m, fst <$> e).
Definition store_delete (key : string) m : MemEntries := om_delete key m.

Inductive StoreOp :=
| sx_set (key : string) (value : V)
| sx_peek (key : string)
| sx_consume (key : string)
| sx_delete (key : string).

Definition store_step (now : Z) (op : StoreOp) m : MemEntries * option V :=
  match op with
  | sx_set k v => (store_set k v now m, None)
  | sx_peek k => store_peek k now m
  | sx_consume k => store_consume k now m
  | sx_delete k => (store_delete k m, None)
  end.

Fixpoint store_run (ops : list (Z * StoreOp)) m : MemEntries * list (option V) :=
  match ops with
  | [] => (m, [])
  | (now, op) :: ops =>
      let '(m, a) := store_step now op m in
      let '(m, l) := store_run ops m in (m, a :: l)
  end.
End MemoryTtlStore.
Arguments MemEntries : clear implicits.
Arguments StoreOp : clear implicits.

(** What is answered to [consume] of a key, and how often it was set. *)
Definition answered {V} (key : string) (op : StoreOp V) (a : option V) : nat :=
  match op, a with sx_consume k, Some _ => if String.eqb k key then 1 else 0 | _, _ => 0 end%nat.
Definition was_set {V} (key : string) (op : StoreOp V) : nat :=
  match op with sx_set k _ => if String.eqb k key then 1 else 0 | _ => 0 end%nat.

Definition answers_of {V} (key : string) (ops : list (Z * StoreOp V)) (l : list (option V)) : nat :=
  foldr (fun x n => answered key x.1.2 x.2 + n)%nat 0%nat (combine ops l).
Definition sets_of {V} (key : string) (ops : list (Z * StoreOp V)) : nat :=
  foldr (fun x n => was_set key x.2 + n)%nat 0%nat ops.

Definition held_of {V} (key : string) (m : MemEntries V) : nat := if om_has key m then 1%nat else 0%nat.

Lemma held_le_one {V} key (m : MemEntries V) : (held_of key m <= 1)%nat.
Proof. unfold held_of. destruct (om_has key m); lia. Qed.

Lemma live_cases {V} k now (m : MemEntries V) :
  (exists e, om_get k m = Some e /\ now <= e.2 /\ live k now m = (m, Some e)) \/
  live k now m = (om_delete k m, None).
Proof.
  unfold live. destruct (om_get k m) as [e|] eqn:E.
  - destruct (Z.ltb_spec e.2 now); [by right | left; eauto].
  - right. by rewrite om_delete_none.
Qed.

Lemma held_delete {V} key k (m : MemEntries V) :
  held_of key (om_delete k m) = if String.eqb k key then 0%nat else held_of key m.
Proof.
  unfold held_of. rewrite om_has_delete. destruct (String.eqb_spec k key) as [->|]; [by rewrite decide_True|].
  by rewrite decide_False by congruence.
Qed.

(** A step gives out at most what it takes away. *)
Lemma store_step_once {V} ttl key now op (m : MemEntries V) :
  let '(m', a) := store_step ttl now op m in
  (answered key op a + held_of key m' <= held_of key m + was_set key op)%nat.
Proof.
  pose proof (held_le_one key m) as H1. destruct op as [k v|k|k|k]; simpl.
  - unfold held_of, store_set. rewrite om_has_set. destruct (String.eqb_spec k key) as [->|].
    + rewrite decide_True by done. destruct (om_has key m); lia.
    + rewrite decide_False by congruence. lia.
  - unfold store_peek. destruct (live_cases k now m) as [(e & E & _ & ->) | ->]; simpl; [lia|].
    rewrite held_delete. destruct (String.eqb k key); lia.
  - unfold store_consume. destruct (live_cases k now m) as [(e & E & _ & ->) | ->]; simpl; rewrite !held_delete.
    + destruct (String.eqb_spec k key) as [->|]; [|lia]. unfold held_of, om_has. rewrite E. lia.
    + destruct (String.eqb k key); lia.
  - unfold store_delete. rewrite held_delete. destruct (String.eqb k key); lia.
Qed.

(** A value kept for one use is used once: however often a key is consumed,
    looked at or deleted, no more uses are answered than values were set. *)
Theorem consumed_once {V} (ttlMs : Z) (ops : list (Z * StoreOp V)) (key : string) :
  (answers_of key ops (store_run ttlMs ops []).2 <= sets_of key ops)%nat.
Proof.
  assert (forall m : MemEntries V,
    answers_of key ops (store_run ttlMs ops m).2 <= held_of key m + sets_of key ops)%nat as H; [|apply (H [])].
  induction ops as [|[now op] ops IH]; intros m; [unfold answers_of; simpl; lia|].
  simpl. pose proof (store_step_once ttlMs key now op m) as Hs.
  destruct (store_step ttlMs now op m) as [m' a]. specialize (IH m').
  destruct (store_run ttlMs ops m') as [m'' l]. unfold answers_of, sets_of in *. simpl in *. lia.
Qed.

(** ** Posts of bots *)
Definition BOT_POST_TURNS_PER_WINDOW : nat := 10.
Definition BOT_POST_WINDOW_MS : Z := 60 * 1000.
Definition BOT_POST_COOLDOWN_MS : Z := 5 * 60 * 1000.
Definition PRUNE_ABOVE : nat := 5000.

Inductive BotPostAdmission := bp_admitted | bp_tripped | bp_paused.
Record ConversationState := mk_convstate { cs_admittedAt : list Z; cs_pausedUntil : option Z }.

Record BotPostOpts := mk_bpopts { bo_limit : option nat; bo_windowMs : option Z; bo_cooldownMs : option Z }.
Definition bp_limit (o : BotPostOpts) : nat := bo_limit o ?? BOT_POST_TURNS_PER_WINDOW.
Definition bp_windowMs (o : BotPostOpts) : Z := bo_windowMs o ?? BOT_POST_WINDOW_MS.
Definition bp_cooldownMs (o : BotPostOpts) : Z := bo_cooldownMs o ?? BOT_POST_COOLDOWN_MS.

Section BotPosts.
Context (o : BotPostOpts).
Definition BotPostRateLimit : Type := TtlEntries string ConversationState.
Implicit Types (m : BotPostRateLimit).

(** The map holds a state as long as it matters. *)
Definition bp_ttl : Z := Z.max (bp_windowMs o) (bp_cooldownMs o).

Definition pausedAt (at_ : Z) (state : option ConversationState) : bool :=
  match state ≫= cs_pausedUntil with Some u => at_ <? u | None => false end.

(** The posts admitted in the window that ends now; after a pause it is empty. *)
Definition inWindow (at_ : Z) (state : option ConversationState) : list Z :=
  List.filter (fun t => at_ - bp_windowMs o <? t)
    (match state ≫= cs_pausedUntil with None => (cs_admittedAt <$> state) ?? [] | Some _ => [] end).

Definition admitBotPost (conversation : string) (at_ : Z) m : BotPostRateLimit * BotPostAdmission :=
  let '(m, state) := ttl_get conversation at_ m in
  if pausedAt at_ state then (m, bp_paused)
  else
    let admittedAt := inWindow at_ state in
    let set s := ttl_set bp_ttl PRUNE_ABOVE conversation s None at_ m in
    if (bp_limit o <=? length admittedAt)%nat
    then (set (mk_convstate [] (Some (at_ + bp_cooldownMs o))), bp_tripped)
    else (set (mk_convstate (admittedAt ++ [at_]) None), bp_admitted).

(** A worker's life: the posts of bots as they come, and what each is told. *)
Fixpoint posts_run (posts : list (Z * string)) m : BotPostRateLimit * list (Z * string * BotPostAdmission) :=
  match posts with
  | [] => (m, [])
  | (at_, conversation) :: posts =>
      let '(m, a) := admitBotPost conversation at_ m in
      let '(m, l) := posts_run posts m in (m, (at_, conversation, a) :: l)
  end.

(** The posts of a conversation admitted so far, oldest first. *)
Definition admitted_in (conversation : string) (l : list (Z * string * BotPostAdmission)) : list Z :=
  omap (fun x => match x.2 with
                 | bp_admitted => if String.eqb x.1.2 conversation then Some x.1.1 else None
                 | _ => None end) l.

(** Those in the window that ends at [t]. *)
Definition window (t : Z) (l : list Z) : list Z := List.filter (fun x => (t - bp_windowMs o <? x) && (x <=? t)) l.

(** The state kept for a conversation, given its posts admitted, if one was ever
    kept; it may have expired. *)
Definition state_ok (now : Z) (admitted : list Z) (e : option (ConversationState * Z)) : Prop :=
  Forall (fun t => t <= now) admitted /\
  (forall t, (length (window t admitted) <= bp_limit o)%nat) /\
  match e with
  | None => admitted = []
  | Some (st, expires) =>
      exists w, w <= now /\ expires = w + bp_ttl /\ Forall (fun t => t <= w) admitted /\
        match cs_pausedUntil st with
        | Some u => u = w + bp_cooldownMs o
        | None => cs_admittedAt st = List.filter (fun t => w - bp_windowMs o <? t) admitted
        end
  end.

Definition bp_ok (now : Z) (log : list (Z * string * BotPostAdmission)) m (r : Reference) : Prop :=
  ttl_agrees now m r /\ forall c, state_ok now (admitted_in c log) (r c).

(** The step on the reference. *)
Definition ref_get (c : string) (at_ : Z) (r : Reference) : option ConversationState :=
  match r c with Some (v, e) => if e <=? at_ then None else Some v | None => None end.

Definition ref_admit (c : string) (at_ : Z) (r : @Reference string ConversationState) : Reference * BotPostAdmission :=
  let state := ref_get c at_ r in
  if pausedAt at_ state then (r, bp_paused)
  else
    let admittedAt := inWindow at_ state in
    let set s : Reference := fun x => if decide (x = c) then Some (s, at_ + bp_ttl) else r x in
    if (bp_limit o <=? length admittedAt)%nat
    then (set (mk_convstate [] (Some (at_ + bp_cooldownMs o))), bp_tripped)
    else (set (mk_convstate (admittedAt ++ [at_]) None), bp_admitted).

Lemma admit_agrees c at_ m r :
  ttl_agrees at_ m r ->
  (admitBotPost c at_ m).2 = (ref_admit c at_ r).2 /\ ttl_agrees at_ (admitBotPost c at_ m).1 (ref_admit c at_ r).1.
Proof.
  intros Ha. unfold admitBotPost, ref_admit.
  pose proof (ttl_step_agrees bp_ttl PRUNE_ABOVE at_ (to_get c) m r Ha) as H. simpl in H.
  destruct (ttl_get c at_ m) as [m1 state]. destruct H as [-> H1]. fold (ref_get c at_ r).
  destruct (pausedAt at_ (ref_get c at_ r)); [done|].
  destruct (_ <=? _)%nat; simpl; (split; [done|]);
    match goal with |- ttl_agrees _ (ttl_set _ _ _ ?s _ _ _) _ =>
      exact (proj2 (ttl_step_agrees bp_ttl PRUNE_ABOVE at_ (to_set c s None) m1 r H1)) end.
Qed.

Hypothesis Hwindow : 0 < bp_windowMs o <= bp_cooldownMs o.

Lemma filter_past (now lo : Z) l : Forall (fun t => t <= now) l -> now <= lo -> List.filter (fun t => lo <? t) l = [].
Proof.
  intros H Hle. apply filter_none. eapply Forall_impl; [exact H|]. simpl. intros t Ht. apply Z.ltb_ge. lia.
Qed.

(** What is looked at are the posts admitted in the window that ends now. *)
Lemma inWindow_admitted now c at_ log (r : @Reference string ConversationState) :
  state_ok now (admitted_in c log) (r c) -> now <= at_ -> pausedAt at_ (ref_get c at_ r) = false ->
  inWindow at_ (ref_get c at_ r) = List.filter (fun t => at_ - bp_windowMs o <? t) (admitted_in c log).
Proof.
  intros (Hnow & _ & Hst) Hle Hp. unfold ref_get, inWindow, pausedAt in *.
  destruct (r c) as [[st e]|]; [|by rewrite Hst].
  destruct Hst as (w & Hw & -> & Hall & Hst).
  destruct (Z.leb_spec (w + bp_ttl) at_) as [He|He]; simpl in *.
  - rewrite (filter_past w _ (admitted_in c log)); [done | done | unfold bp_ttl in He; lia].
  - destruct (cs_pausedUntil st) as [u|].
    + rewrite (filter_past w _ (admitted_in c log)); [done | done |]. apply Z.ltb_ge in Hp. lia.
    + rewrite Hst, <- filter_and. apply List.filter_ext. intros t.
      destruct (Z.ltb_spec (at_ - bp_windowMs o) t); [|by rewrite ?andb_false_r]. rewrite ?andb_true_r. simpl. apply Z.ltb_lt. lia.
Qed.

Lemma window_app t l1 l2 : window t (l1 ++ l2) = window t l1 ++ window t l2.
Proof. apply List.filter_app. Qed.

Lemma filter_length_le {A} (f g : A -> bool) l :
  (forall x, f x = true -> g x = true) -> (length (List.filter f l) <= length (List.filter g l))%nat.
Proof.
  intros H. induction l as [|x l IH]; [done|]. simpl.
  destruct (f x) eqn:Ef; [rewrite (H x Ef); simpl; lia|]. destruct (g x); simpl; lia.
Qed.

Lemma admitted_in_snoc c log t c' a :
  admitted_in c (log ++ [(t, c', a)]) =
  admitted_in c log ++ match a with bp_admitted => if String.eqb c' c then [t] else [] | _ => [] end.
Proof. unfold admitted_in. rewrite omap_app. f_equal. destruct a; [|done..]. simpl. by destruct (String.eqb c' c). Qed.

Lemma state_later now now' adm e : now <= now' -> state_ok now adm e -> state_ok now' adm e.
Proof.
  intros Hle (H1 & H2 & H3). split_and!; [|done|].
  - eapply Forall_impl; [exact H1|]. simpl. lia.
  - destruct e as [[st x]|]; [|done]. destruct H3 as (w & ? & H3). exists w. split; [lia | done].
Qed.

Lemma ref_admit_ok now c at_ log r :
  (forall c, state_ok now (admitted_in c log) (r c)) -> now <= at_ ->
  forall c', state_ok at_ (admitted_in c' (log ++ [(at_, c, (ref_admit c at_ r).2)])) ((ref_admit c at_ r).1 c').
Proof.
  intros H Hle c'. pose proof (state_later _ at_ _ _ Hle (H c')) as Hc'.
  rewrite admitted_in_snoc. unfold ref_admit.
  destruct (pausedAt at_ (ref_get c at_ r)) eqn:Ep; simpl; [by rewrite app_nil_r|].
  pose proof (inWindow_admitted now c at_ log r (H c) Hle Ep) as Ew.
  destruct (Nat.leb_spec (bp_limit o) (length (inWindow at_ (ref_get c at_ r)))) as [Hl|Hl]; simpl.
  - rewrite app_nil_r. destruct (decide (c' = c)) as [->|]; [|done].
    destruct Hc' as (H1 & H2 & _). split_and!; [done..|]. exists at_. by split_and!.
  - destruct (String.eqb_spec c c') as [<-|Hne]; simpl.
    2: { rewrite app_nil_r, decide_False by congruence. done. }
    rewrite decide_True by done. destruct Hc' as (H1 & H2 & _). split_and!.
    + apply Forall_app. split; [done|]. by repeat constructor.
    + intros t. rewrite window_app, length_app.
      change (window t [at_]) with (if (t - bp_windowMs o <? at_) && (at_ <=? t) then [at_] else []).
      specialize (H2 t). destruct (Z.leb_spec at_ t) as [Ht|Ht]; [|rewrite andb_false_r; simpl; lia].
      rewrite andb_true_r. rewrite Ew in Hl. assert (length (window t (admitted_in c log)) <
        bp_limit o)%nat as Hlt; [|destruct (_ <? at_); simpl; lia].
      eapply Nat.le_lt_trans; [|exact Hl]. apply filter_length_le. intros x [Hx _]%andb_prop.
      apply Z.ltb_lt in Hx. apply Z.ltb_lt. lia.
    + exists at_. split_and!; [lia | done | |].
      * apply Forall_app. split; [done|]. by repeat constructor.
      * simpl. rewrite Ew, List.filter_app. simpl. by rewrite (proj2 (Z.ltb_lt _ _)) by lia.
Qed.

Lemma posts_run_ok now posts log m r :
  clock_forward now posts -> bp_ok now log m r ->
  exists now' r', bp_ok now' (log ++ (posts_run posts m).2) (posts_run posts m).1 r'.
Proof.
  revert now log m r. induction posts as [|[at_ c] posts IH]; intros now log m r Hc [Hm Hr].
  { exists now, r. simpl. by rewrite app_nil_r. }
  destruct Hc as [Hle Hc]. simpl.
  destruct (admit_agrees c at_ m r (agrees_later _ _ _ _ Hle Hm)) as [Ea Hm'].
  pose proof (ref_admit_ok now c at_ log r Hr Hle) as Hr'.
  destruct (admitBotPost c at_ m) as [m' a], (ref_admit c at_ r) as [r' a']. simpl in *. subst a'.
  destruct (IH at_ (log ++ [(at_, c, a)]) m' r' Hc (conj Hm' Hr')) as (now' & r'' & H).
  destruct (posts_run posts m') as [m'' l]. simpl in *. exists now', r''. by rewrite <- app_assoc in H.
Qed.
End BotPosts.

(** No echo loop: whatever bots post, and whatever the map gives up to make
    room, no window of a conversation has more posts admitted than the limit,
    given a pause at least as long as the window. *)
Theorem bot_posts_are_bounded (o : BotPostOpts) (from : Z) (posts : list (Z * string)) (conversation : string) (t : Z) :
  0 < bp_windowMs o <= bp_cooldownMs o -> clock_forward from posts ->
  (length (window o t (admitted_in conversation (posts_run o posts []).2)) <= bp_limit o)%nat.
Proof.
  intros Hw Hc. destruct (posts_run_ok o Hw from posts [] [] (fun _ => None) Hc) as (now & r & _ & H).
  - split; [split; [constructor | by left]|]. intros c. split_and!; [constructor | intros t'; simpl; lia | done].
  - apply (H conversation).
Qed.

(** Twelve posts in a second, and two more after the pause. *)
Definition echo : list (Z * string) :=
  map (fun i => (Z.of_nat i * 100, "C1"%string)) (seq 0 12) ++ [(400000, "C1"%string); (400001, "C1"%string)].

Lemma bot_posts_are_bounded_witness :
  let o := mk_bpopts None None None in
  map snd (posts_run o echo []).2 = replicate 10 bp_admitted ++ [bp_tripped; bp_paused; bp_admitted; bp_admitted] /\
  (length (window o 1000 (admitted_in "C1" (posts_run o echo []).2)) <= 10)%nat.
Proof.
  intros o. split; [by vm_compute|]. apply (bot_posts_are_bounded o 0); vm_compute; intuition congruence.
Defined.

(** ** A pause *)
Section Pause.
Context (o : BotPostOpts).

Lemma posts_run_from now posts m t c a :
  clock_forward now posts -> (t, c, a) ∈ (posts_run o posts m).2 -> now <= t.
Proof.
  revert now m. induction posts as [|[at_ c'] posts IH]; intros now m Hc Hin; [by apply elem_of_nil in Hin|].
  simpl in *. destruct Hc as [Hle Hc]. destruct (admitBotPost o c' at_ m) as [m' a'].
  specialize (IH at_ m' Hc). destruct (posts_run o posts m') as [m'' l]. simpl in *.
  apply elem_of_cons in Hin as [[= -> -> ->] | Hin]; [done|]. specialize (IH Hin). lia.
Qed.

Lemma paused_until now posts m (r : @Reference string ConversationState) c u e t a :
  clock_forward now posts -> ttl_agrees now m r -> r c = Some (mk_convstate [] (Some u), e) -> u <= e ->
  (t, c, a) ∈ (posts_run o posts m).2 -> t < u -> a = bp_paused.
Proof.
  revert now m r. induction posts as [|[at_ c'] posts IH]; intros now m r Hc Hm Hr Hu Hin Ht; [by apply elem_of_nil in Hin|].
  simpl in *. destruct Hc as [Hle Hc].
  destruct (admit_agrees o c' at_ m r (agrees_later _ _ _ _ Hle Hm)) as [Ea Hm'].
  pose proof (posts_run_from at_ posts (admitBotPost o c' at_ m).1 t c a Hc) as Hfrom.
  destruct (admitBotPost o c' at_ m) as [m' a'] eqn:Eadm. specialize (IH at_ m').
  assert (at_ <= t) as Hat.
  { simpl in Hfrom. destruct (posts_run o posts m') as [m'' l]. simpl in *. apply elem_of_cons in Hin as [[= -> -> ->] | Hin]; [lia | auto]. }
  assert ((ref_admit o c' at_ r).1 c = r c /\ (c' = c -> a' = bp_paused)) as [Hsame Hp].
  { simpl in Ea. rewrite Ea. unfold ref_admit. destruct (decide (c' = c)) as [->|Hne].
    - unfold ref_get. rewrite Hr. rewrite (proj2 (Z.leb_gt e at_)) by lia. unfold pausedAt. simpl.
      rewrite (proj2 (Z.ltb_lt at_ u)) by lia. done.
    - split; [|congruence]. destruct (pausedAt _ _); [done|]. destruct (_ <=? _)%nat; simpl; by rewrite decide_False by congruence. }
  specialize (IH _ Hc Hm'). rewrite Hsame in IH. specialize (IH Hr Hu).
  destruct (posts_run o posts m') as [m'' l]. simpl in *.
  apply elem_of_cons in Hin as [[= -> -> ->] | Hin]; auto.
Qed.

Lemma paused_after_trip now posts m (r : @Reference string ConversationState) l1 at_ c l2 t a :
  clock_forward now posts -> ttl_agrees now m r ->
  (posts_run o posts m).2 = l1 ++ (at_, c, bp_tripped) :: l2 ->
  (t, c, a) ∈ l2 -> t < at_ + bp_cooldownMs o -> a = bp_paused.
Proof.
  revert now m r l1. induction posts as [|[at' c'] posts IH]; intros now m r l1 Hc Hm E Hin Ht; [by destruct l1|].
  simpl in *. destruct Hc as [Hle Hc].
  destruct (admit_agrees o c' at' m r (agrees_later _ _ _ _ Hle Hm)) as [Ea Hm'].
  destruct (admitBotPost o c' at' m) as [m' a'] eqn:Eadm. simpl in Ea, Hm'.
  specialize (IH at' m' (ref_admit o c' at' r).1). destruct (posts_run o posts m') as [m'' l] eqn:Erun. simpl in E.
  destruct l1 as [|x l1]; simpl in E; [injection E as -> -> -> -> | injection E as Ex E].
  - apply (paused_until at_ posts m' (ref_admit o c at_ r).1 c (at_ + bp_cooldownMs o) (at_ + bp_ttl o) t a); try done.
    + revert Ea. unfold ref_admit. destruct (pausedAt _ _); [done|]. destruct (_ <=? _)%nat; [|done].
      intros _. simpl. by rewrite decide_True.
    + unfold bp_ttl. lia.
    + by rewrite Erun.
  - by apply (IH l1 Hc Hm').
Qed.
End Pause.

(** A conversation hears once that its bots were paused: after a post that
    tripped the limit every post of theirs is turned down in silence until the
    pause is over. *)
Theorem pause_is_told_once (o : BotPostOpts) (from : Z) (posts : list (Z * string)) l1 at_ conversation l2 t a :
  clock_forward from posts ->
  (posts_run o posts []).2 = l1 ++ (at_, conversation, bp_tripped) :: l2 ->
  (t, conversation, a) ∈ l2 -> t < at_ + bp_cooldownMs o -> a = bp_paused.
Proof.
  intros Hc. apply (paused_after_trip o from posts [] (fun _ => None)); [done|].
  split; [constructor | by left].
Qed.

Lemma pause_is_told_once_witness :
  let o := mk_bpopts (Some 1%nat) None None in
  let posts := [(0, "C1"); (5, "C1"); (6, "C1")]%string in
  (posts_run o posts []).2 = [(0, "C1", bp_admitted)]%string ++ (5, "C1", bp_tripped)%string :: [(6, "C1", bp_paused)]%string /\
  bp_paused = bp_paused.
Proof.
  intros o posts. split; [by vm_compute|].
  apply (pause_is_told_once o 0 posts [(0, "C1", bp_admitted)]%string 5 "C1" [(6, "C1", bp_paused)]%string 6 bp_paused);
    [simpl; lia | by vm_compute | left | by vm_compute].
Defined.
