(* ===== verification/Contributions.v ===== *)
(** What an agent's runtime is to hold, and what it can take
    (packages/api-server/src/modules/runtime-delivery/domain/capability-filter.ts,
    contribution-hash.ts).

    A contribution is a JSON object with a ["kind"], as the api-server keeps and
    sends it.  SHA-256 is an argument. *)
From stdpp Require Import base strings list sorting pretty.
From Stdlib Require Import ZArith Lia.
From S2P Require Import Prelude JsString SpendLimits AcpFrames Documents.
Local Open Scope string_scope.

(** ** Kinds *)
Definition Contribution : Type := json.
Definition kindOf (c : json) : string := match prop "kind" c with Some (jstr s) => s | _ => "" end.

Record RuntimeEvent := mk_event {
  ev_id : string;
  ev_kind : string;
  ev_payload : json;
  ev_version : nat;
  ev_expiresAt : Z;
}.

Record AgentCapabilities := mk_caps {
  cp_contributions : list string;
  cp_events : list string;
  cp_harnesses : option (list string);
}.

Definition HOST_RAIL_KINDS : list string := ["egress-allow"; "egress-inject"; "egress-sign"].

Record CapabilityFilterResult := mk_filtered {
  fr_contributions : list Contribution;
  fr_events : list RuntimeEvent;
  fr_droppedContributionKinds : list string;
  fr_droppedEventKinds : list string;
}.

Definition filterByCapabilities (capabilities : AgentCapabilities)
    (contributions : list Contribution) (events : list RuntimeEvent) : CapabilityFilterResult :=
  let allowedContrib c := includes (cp_contributions capabilities) (kindOf c) in
  let allowedEvent e := includes (cp_events capabilities) (ev_kind e) in
  mk_filtered (List.filter allowedContrib contributions) (List.filter allowedEvent events)
    (js_uniq (map kindOf (List.filter (fun c => negb (allowedContrib c) && negb (includes HOST_RAIL_KINDS (kindOf c))) contributions)))
    (js_uniq (map ev_kind (List.filter (fun e => negb (allowedEvent e)) events))).

(** [typeof k === "string"] *)
Definition sortedKinds (value : option json) : list string :=
  match value with
  | Some (jarr l) => js_sort code_unit_compare (js_uniq (omap (fun j => match j with jstr s => Some s | _ => None end) l))
  | _ => []
  end.

Definition strings_json (l : list string) : json := jarr (map jstr l).

Definition advertisedKindsKey (capabilities : option json) : string :=
  let record := capabilities ?? jnull in
  JSON_stringify (jarr [strings_json (sortedKinds (prop "contributions" record));
                        strings_json (sortedKinds (prop "events" record))]).

Definition advertisedKindsChanged (prev next : option json) : bool :=
  negb (String.eqb (advertisedKindsKey prev) (advertisedKindsKey next)).

Definition kindSetChanged (prev next : list string) : bool :=
  negb (String.eqb (JSON_stringify (strings_json (sortedKinds (Some (strings_json prev)))))
                   (JSON_stringify (strings_json (sortedKinds (Some (strings_json next)))))).

(** ** The hash of the contributions *)
Definition byKey (a b : string * json) : Z := code_unit_compare a.1 b.1.

Fixpoint sortKeys (value : json) : json :=
  match value with
  | jarr l => jarr (map sortKeys l)
  | jobj l => jobj (js_sort byKey (map (fun kv => (kv.1, sortKeys kv.2)) l))
  | _ => value
  end.

(** [`${v}`] of a field that is a string or a number; [""] where the source
    writes [?? ""]. *)
Definition field (key : string) (c : json) : string :=
  match prop key c with Some (jstr s) => s | Some (jnum z) => pretty z | _ => "" end.

Definition keyFor (c : Contribution) : string :=
  let kind := kindOf c in
  if String.eqb kind "env" then "env:" ++ field "name" c
  else if includes HOST_RAIL_KINDS kind
  then kind ++ ":" ++ field "host" c ++ ":" ++ field "port" c ++ ":" ++ field "pathPattern" c
  else if String.eqb kind "file" then "file:" ++ field "path" c
  else if String.eqb kind "mcp-entry" then "mcp-entry:" ++ field "name" c
  else "skill-ref:" ++ field "name" c ++ "@" ++ field "version" c ++ "@" ++ field "sourceUrl" c ++ "@" ++ field "path" c.

Definition canonicalize (c : Contribution) : string * string * json :=
  let value := sortKeys c in (keyFor c, JSON_stringify value, value).

Definition byCanonical (a b : string * string * json) : Z :=
  cmp_or (code_unit_compare a.1.1 b.1.1) (code_unit_compare a.1.2 b.1.2).

Section Hash.
Context (sha256 : string -> string).
Definition contributionHash (contributions : list Contribution) : string :=
  let sorted := js_sort byCanonical (map canonicalize contributions) in
  sha256 (JSON_stringify (jarr (map (fun s => s.2) sorted))).
End Hash.

(** ** What the hash does not see *)
#[export] Instance code_unit_order : CmpOrder code_unit_compare := @localeCompare_order code_unit_locale.

#[export] Instance byKey_order : CmpOrder byKey.
Proof. apply (cmp_via code_unit_compare fst), code_unit_order. Qed.

#[export] Instance byCanonical_order : CmpOrder byCanonical.
Proof.
  apply (cmp_or_order (fun a b : string * string * json => code_unit_compare a.1.1 b.1.1)
           (fun a b : string * string * json => code_unit_compare a.1.2 b.1.2));
    [apply (cmp_via code_unit_compare (fun a : string * string * json => a.1.1))
    |apply (cmp_via code_unit_compare (fun a : string * string * json => a.1.2))]; apply code_unit_order.
Qed.

Lemma code_units_equal a b : code_unit_compare a b = 0%Z -> a = b.
Proof.
  unfold code_unit_compare. destruct (String.compare a b) eqn:E; try done. intros _. by apply String.compare_eq_iff.
Qed.

(** What is sorted depends on the members alone, as far as the comparison sees. *)
Lemma js_sort_canonical {A B} (cmp : A -> A -> Z) `{!CmpOrder cmp} (f : A -> B) l l' :
  (forall x y, cmp x y = 0%Z -> f x = f y) ->
  (forall x y x', f x = f x' -> cmp x y = cmp x' y) ->
  (forall x y y', f y = f y' -> cmp x y = cmp x y') ->
  map f l ≡ₚ map f l' -> map f (js_sort cmp l) = map f (js_sort cmp l').
Proof.
  intros H0 H1 H2 Hp.
  set (R := fun b b' => exists x y, b = f x /\ b' = f y /\ (cmp x y <= 0)%Z).
  assert (forall l, StronglySorted R (map f (js_sort cmp l))) as Hs.
  { intros l0. pose proof (js_sort_sorted cmp l0) as H. induction H as [|x l1 Hs IH Hall]; simpl; constructor; [done|].
    apply Forall_map. eapply Forall_impl; [exact Hall|]. intros y Hy. by exists x, y. }
  assert (AntiSymm (=) R) as HR.
  { intros b b' (x & y & -> & -> & Hxy) (y' & x' & Ey & Ex & Hyx). apply H0.
    rewrite (H1 y' x' y) in Hyx by done. rewrite (H2 y x' x) in Hyx by done.
    pose proof (cmp_antisym (cmp := cmp) x y). lia. }
  apply (StronglySorted_unique R); [by apply Hs..|].
  change (map f) with (fmap (M := list) f). by rewrite !js_sort_perm.
Qed.

Lemma canonical_text c : (canonicalize c).1.2 = JSON_stringify (canonicalize c).2.
Proof. done. Qed.

Lemma canonical_texts l : map (fun s => JSON_stringify s.2) (js_sort byCanonical (map canonicalize l)) =
  map (fun s => s.1.2) (js_sort byCanonical (map canonicalize l)).
Proof.
  apply map_ext_in. intros s Hs%list_elem_of_In. apply js_sort_elem in Hs.
  apply list_elem_of_fmap in Hs as (c & -> & _). done.
Qed.

(** The text that is hashed, from the sorted keys and texts. *)
Lemma hash_text_perm l l' :
  map canonicalize l ≡ₚ map canonicalize l' ->
  JSON_stringify (jarr (map (fun s => s.2) (js_sort byCanonical (map canonicalize l)))) =
  JSON_stringify (jarr (map (fun s => s.2) (js_sort byCanonical (map canonicalize l')))).
Proof.
  intros Hp. simpl. do 2 f_equal. f_equal. rewrite !map_map, !canonical_texts.
  assert (map fst (js_sort byCanonical (map canonicalize l)) = map fst (js_sort byCanonical (map canonicalize l'))) as E.
  { apply js_sort_canonical; [apply byCanonical_order | | | |].
    - intros [[k t] v] [[k' t'] v']. unfold byCanonical, cmp_or. simpl.
      destruct (Z.eqb_spec (code_unit_compare k k') 0) as [->%code_units_equal|]; [|done]. by intros ->%code_units_equal.
    - by intros [[k t] v] [[k' t'] v'] [[k2 t2] v2] [= -> ->].
    - by intros [[k t] v] [[k' t'] v'] [[k2 t2] v2] [= -> ->].
    - change (map fst) with (fmap (M := list) (@fst (string * string) json)). by rewrite Hp. }
  rewrite <- !(map_map fst snd), E. done.
Qed.

Lemma om_get_perm {V} k (l l' : list (string * V)) : NoDup (om_keys l) -> l ≡ₚ l' -> om_get k l = om_get k l'.
Proof.
  intros HN Hp.
  assert (NoDup (om_keys l')) as HN'.
  { unfold om_keys in *. change (map fst) with (fmap (M := list) (@fst string V)) in *. by rewrite <- Hp. }
  destruct (om_get k l) as [v|] eqn:E.
  - symmetry. apply om_in_get; [done|]. rewrite <- Hp. by apply om_get_Some_in.
  - destruct (om_get k l') as [v|] eqn:E'; [|done].
    apply om_get_Some_in in E'. rewrite <- Hp in E'. apply (om_in_get _ _ _ HN) in E'. congruence.
Qed.

(** The order of the fields of an object. *)
Lemma canonicalize_fields f f' : NoDup (om_keys f) -> f ≡ₚ f' -> canonicalize (jobj f) = canonicalize (jobj f').
Proof.
  intros HN Hp. unfold canonicalize.
  assert (forall k, prop k (jobj f) = prop k (jobj f')) as Hprop by (intros k; by apply om_get_perm).
  assert (sortKeys (jobj f) = sortKeys (jobj f')) as ->.
  { simpl. f_equal. set (g := map (fun kv => (kv.1, sortKeys kv.2))).
    assert (om_keys (g f) = om_keys f) as Hk by (unfold om_keys, g; rewrite map_map; done).
    assert (g f ≡ₚ g f') as Hg by (unfold g; change (map ?h) with (fmap (M := list) h); by rewrite Hp).
    apply (StronglySorted_unique_strong (cmp_le byKey)); [|apply (js_sort_sorted byKey)..|by rewrite !js_sort_perm].
    intros [k1 v1] [k2 v2] H1 H2 H3 H4. apply js_sort_elem in H1, H2. rewrite <- Hg in H2.
    assert (k1 = k2) as <-.
    { apply code_units_equal. pose proof (cmp_antisym (cmp := byKey) (k1, v1) (k2, v2)). unfold cmp_le, byKey in *. simpl in *. lia. }
    rewrite <- Hk in HN. apply (om_in_get _ _ _ HN) in H1, H2. congruence. }
  assert (keyFor (jobj f) = keyFor (jobj f')) as ->; [|done].
  unfold keyFor, kindOf, field. by rewrite !Hprop.
Qed.

(** The hash sees neither the order of the contributions nor that of a
    contribution's fields: two states with the same contributions are not taken
    for a change. *)
Theorem hash_ignores_order (sha256 : string -> string) (l l1 l' : list (list (string * json))) :
  Forall (fun f => NoDup (om_keys f)) l -> Forall2 Permutation l l1 -> l1 ≡ₚ l' ->
  contributionHash sha256 (map jobj l) = contributionHash sha256 (map jobj l').
Proof.
  intros HN H2 Hp. unfold contributionHash. f_equal. apply hash_text_perm.
  assert (map canonicalize (map jobj l) = map canonicalize (map jobj l1)) as ->.
  { clear Hp. induction H2 as [|f f' l l1 Hf H2 IH]; [done|]. apply Forall_cons in HN as [HN HN']. simpl.
    by rewrite (canonicalize_fields f f'), IH. }
  change (map ?h) with (fmap (M := list) h). by rewrite Hp.
Qed.

Lemma hash_ignores_order_witness :
  let env := [("kind", jstr "env"); ("name", jstr "A"); ("placeholder", jstr "1")] in
  let env' := [("placeholder", jstr "1"); ("kind", jstr "env"); ("name", jstr "A")] in
  let file := [("kind", jstr "file"); ("path", jstr "~/x")] in
  let l := [env; file] in let l1 := [env'; file] in let l' := [file; env'] in
  contributionHash (fun s => s) (map jobj l) <> contributionHash (fun s => s) (map jobj [env]) /\
  contributionHash (fun s => s) (map jobj l) = contributionHash (fun s => s) (map jobj l').
Proof.
  intros env env' file l l1 l'. split; [by vm_compute|].
  apply (hash_ignores_order (fun s => s) l l1 l').
  - repeat constructor; apply (bool_decide_unpack _); by vm_compute.
  - repeat constructor. unfold env, env'. solve_Permutation.
  - apply Permutation_swap.
Defined.

(** Nothing is lost in silence: what the runtime cannot take is left out and
    reported by its kind, unless the platform itself enforces that kind; all
    else is delivered, in order. *)
Theorem delivered_or_reported caps contributions events :
  let r := filterByCapabilities caps contributions events in
  fr_contributions r `sublist_of` contributions /\ fr_events r `sublist_of` events /\
  (forall c, c ∈ contributions -> c ∈ fr_contributions r \/ kindOf c ∈ fr_droppedContributionKinds r \/ kindOf c ∈ HOST_RAIL_KINDS) /\
  (forall e, e ∈ events -> e ∈ fr_events r \/ ev_kind e ∈ fr_droppedEventKinds r) /\
  (forall k, k ∈ fr_droppedContributionKinds r ->
     (exists c, c ∈ contributions /\ kindOf c = k) /\ (forall c, c ∈ fr_contributions r -> kindOf c <> k)) /\
  NoDup (fr_droppedContributionKinds r) /\ NoDup (fr_droppedEventKinds r).
Proof.
  assert (forall A (f : A -> bool) (l : list A), List.filter f l `sublist_of` l) as Hsub.
  { intros A f l. induction l as [|x l IH]; simpl; [done|]. destruct (f x); by constructor. }
  assert (forall A (g : A -> string) (p : A -> bool) l x, x ∈ l -> p x = true -> g x ∈ js_uniq (map g (List.filter p l))) as Hin.
  { intros A g p l x Hx Hp. apply js_uniq_elem. apply (list_elem_of_fmap_2 g). by apply elem_filter. }
  simpl. split_and!; [apply Hsub | apply Hsub | | | | apply js_uniq_NoDup | apply js_uniq_NoDup].
  - intros c Hc. destruct (includes (cp_contributions caps) (kindOf c)) eqn:E; [left; by apply elem_filter|].
    destruct (includes HOST_RAIL_KINDS (kindOf c)) eqn:Eh; [right; right; by apply includes_spec|].
    right. left. apply Hin; [done|]. by rewrite E, Eh.
  - intros e He. destruct (includes (cp_events caps) (ev_kind e)) eqn:E; [left; by apply elem_filter|].
    right. apply Hin; [done|]. by rewrite E.
  - intros k Hk. apply (proj1 (js_uniq_elem _ _)), list_elem_of_fmap in Hk as (c & -> & [Hc Hp]%elem_filter).
    apply andb_prop in Hp as [Hp _]. apply negb_true_iff in Hp. split; [eauto|].
    intros c' [_ Hc']%elem_filter E. congruence.
Qed.
