(* ===== verification/RuntimeChannel.v ===== *)
(** Applying desired state in an agent's runtime
    (packages/agent-runtime/src/modules/runtime-channel/service.ts,
    dispatcher.ts, event-loop.ts, state-store.ts).

    The service does one [applyState] at a time, so one is a single step here.
    What the drivers and the event handlers do is outside: an operation says, in
    [Doings], which of them fail and what time it is; beside the state the model
    keeps what each driver wrote last ([rc_disk]) and the event runs that
    succeeded ([rc_runs]).  Event ids end in digits, as those the api-server
    makes do. *)
From stdpp Require Import base strings list sets.
From Stdlib Require Import ZArith Lia Ascii.
From S2P Require Import Prelude JsString AcpFrames Documents Contributions.
Local Open Scope nat_scope.

(** ** The record of what was applied *)
Record RuntimeState := mk_rstate {
  rs_lastAppliedVersion : nat;
  rs_lastAppliedHash : option string;
  rs_bindingsFingerprint : option string;
  rs_eventRuns : list (string * Z);
}.

Definition initialState : RuntimeState := mk_rstate 0 None None [].

(** [createStateStore]: what is on the disk, and whether it still holds. *)
Definition forgets (state : RuntimeState) (fingerprint : option string) (envReady : bool) (envStale : option string) : bool :=
  if rs_lastAppliedVersion state =? 0 then false
  else negb (bool_decide (fingerprint = rs_bindingsFingerprint state)) || negb envReady
       || match envStale with Some reason => truthy reason | None => false end.

Definition createStateStore (bindingsFingerprint : option string) (envReady : bool) (envStale : option string)
    (state : RuntimeState) : RuntimeState :=
  let fingerprint := match bindingsFingerprint with Some f => Some f | None => rs_bindingsFingerprint state end in
  if forgets state fingerprint envReady envStale
  then mk_rstate 0 None fingerprint (rs_eventRuns state)
  else if negb (bool_decide (fingerprint = rs_bindingsFingerprint state))
  then mk_rstate (rs_lastAppliedVersion state) (rs_lastAppliedHash state) fingerprint (rs_eventRuns state)
  else state.

(** ** Events *)

(** [Number] of a text of digits; of nothing, 0. *)
Fixpoint digits_value (acc : Z) (s : string) : option Z :=
  match s with
  | EmptyString => Some acc
  | String c s => if is_digit c then digits_value (10 * acc + (chr_code c - 48))%Z s else None
  end.

(** The last separator of an id: what stands before and behind it. *)
Fixpoint lastSplit (s : string) : option (string * string) :=
  match s with
  | EmptyString => None
  | String c s' =>
      match lastSplit s' with
      | Some (k, t) => Some (String c k, t)
      | None => if Ascii.eqb c ":" then Some (EmptyString, s') else None
      end
  end.

Definition dropLast (s : string) : string := String.substring 0 (String.length s - 1) s.

(** With no separator [id.slice(0, -1)] is the id without its last character,
    and [id.slice(0)] the id. *)
Definition splitEventId (id : string) : string * option Z :=
  match lastSplit id with
  | Some (key, rest) => (key, digits_value 0 rest)
  | None => (dropLast id, digits_value 0 id)
  end.

Definition workspaceMutationEventKinds : list string := ["workspace-seed"; "workspace-command"]%string.
Definition isWorkspaceMutationEventKind (kind : string) : bool := includes workspaceMutationEventKinds kind.

Record Report := mk_report { rp_eventId : string; rp_detail : string }.

(** A contribution driver of the image: the plugin and its scope under one name,
    and the kind it is bound to.  A kind may have several. *)
Record Driver := mk_driver { dr_name : string; dr_kind : string }.

(** What the world does to one [applyState]: the clock, the drivers in the order
    of their kinds and what they throw, the handlers that throw, and the hooks
    that throw. *)
Record Doings := mk_doings {
  dg_now : Z;
  dg_drivers : list Driver;
  dg_driver : string -> option string;
  dg_handler : string -> option string;
  dg_appliedThrows : bool;
  dg_readThrows : bool;
}.

Record Runtime := mk_runtime {
  rc_state : RuntimeState;
  rc_disk : list (string * list Contribution);
  rc_runs : list (string * Z);
  rc_reports : list Report;
}.

Definition newRuntime : Runtime := mk_runtime initialState [] [] [].

Section Apply.
Implicit Types (r : Runtime).

Definition with_state (s : RuntimeState) r : Runtime := mk_runtime s (rc_disk r) (rc_runs r) (rc_reports r).
Definition report (id detail : string) r : Runtime :=
  mk_runtime (rc_state r) (rc_disk r) (rc_runs r) (rc_reports r ++ [mk_report id (String.substring 0 2000 detail)]).

(** A handler has run: its time is kept under its key. *)
Definition ranEvent (key : string) (ts : Z) r : Runtime :=
  let s := rc_state r in
  mk_runtime (mk_rstate (rs_lastAppliedVersion s) (rs_lastAppliedHash s) (rs_bindingsFingerprint s)
                (om_set key ts (rs_eventRuns s)))
    (rc_disk r) (rc_runs r ++ [(key, ts)]) (rc_reports r).

(** The loop of [processEvents], with what is settled so far. *)
Fixpoint processEvents (d : Doings) (events : list RuntimeEvent) (settled : list string) r : Runtime * list string :=
  match events with
  | [] => (r, settled)
  | e :: events =>
      let '(key, ts) := splitEventId (ev_id e) in
      match ts with
      | None => processEvents d events (settled ++ [ev_id e]) r
      | Some ts =>
          if (ts <=? om_get key (rs_eventRuns (rc_state r)) ?? 0)%Z
          then processEvents d events (settled ++ [ev_id e]) r
          else if (ev_expiresAt e <=? dg_now d)%Z
          then processEvents d events (settled ++ [ev_id e]) r
          else
            match dg_handler d (ev_id e) with
            | None => processEvents d events (settled ++ [ev_id e]) (ranEvent key ts r)
            | Some message =>
                if isWorkspaceMutationEventKind (ev_kind e) then (report (ev_id e) message r, settled)
                else if String.eqb (ev_kind e) "harness-config"
                then processEvents d events settled (report (ev_id e) message r)
                else processEvents d events settled r
            end
      end
  end.

(** ** Contributions *)
Record DriverFailure := mk_failure { df_kind : string; df_message : string }.

(** [byKind.get(kind)]. *)
Definition ofKind (kind : string) (contributions : list Contribution) : list Contribution :=
  List.filter (fun c => String.eqb (kindOf c) kind) contributions.

Definition wrote (driver : Driver) (contributions : list Contribution) r : Runtime :=
  mk_runtime (rc_state r) (om_set (dr_name driver) (ofKind (dr_kind driver) contributions) (rc_disk r)) (rc_runs r) (rc_reports r).

(** [dispatcher.apply]: each driver, in the order of the kinds, gets what is of
    its kind; one that throws leaves what it wrote before, as far as we know. *)
Fixpoint dispatch (d : Doings) (drivers : list Driver) (contributions : list Contribution) r : Runtime * list DriverFailure :=
  match drivers with
  | [] => (r, [])
  | driver :: drivers =>
      match dg_driver d (dr_name driver) with
      | None => dispatch d drivers contributions (wrote driver contributions r)
      | Some message =>
          let '(r, failures) := dispatch d drivers contributions r in
          (r, mk_failure (dr_kind driver) message :: failures)
      end
  end.

Record ApplyStateInput := mk_apply {
  ai_version : nat;
  ai_contributions : list Contribution;
  ai_hash : string;
  ai_events : list RuntimeEvent;
}.

Inductive ApplyStateResult :=
| ar_ok (appliedVersion : nat) (appliedHash : option string) (failures : list DriverFailure) (settledEvents : list string)
| ar_stale (appliedVersion : nat) (settledEvents : list string).

(** [apply]: [None] where it throws. *)
Definition applyState (d : Doings) (input : ApplyStateInput) r : Runtime * option ApplyStateResult :=
  let local := rc_state r in
  if ai_version input <? rs_lastAppliedVersion local then
    let '(r, settled) := processEvents d (ai_events input) [] r in
    (r, if dg_readThrows d then None else Some (ar_stale (rs_lastAppliedVersion local) settled))
  else
    let '(r, failures) :=
      if bool_decide (Some (ai_hash input) = rs_lastAppliedHash local) then (r, [])
      else dispatch d (dg_drivers d) (ai_contributions input) r in
    if dg_appliedThrows d then (r, None)
    else
      let '(r, settled) := processEvents d (ai_events input) [] r in
      if dg_readThrows d then (r, None)
      else
        match failures with
        | _ :: _ => (r, Some (ar_ok (rs_lastAppliedVersion local) (rs_lastAppliedHash local) failures settled))
        | [] =>
            let current := rc_state r in
            (with_state (mk_rstate (ai_version input) (Some (ai_hash input)) (rs_bindingsFingerprint current) (rs_eventRuns current)) r,
             Some (ar_ok (ai_version input) (Some (ai_hash input)) [] settled))
        end.
End Apply.

(** ** A life of the runtime *)

(** A boot finds the disk as it was, or one restored without what was applied. *)
Inductive RCOp :=
| rc_apply (d : Doings) (input : ApplyStateInput)
| rc_boot (fingerprint : option string) (envReady : bool) (envStale : option string) (restored : option (list (string * list Contribution))).

Definition rc_step (op : RCOp) (r : Runtime) : Runtime :=
  match op with
  | rc_apply d input => (applyState d input r).1
  | rc_boot f ready stale restored =>
      mk_runtime (createStateStore f ready stale (rc_state r)) (default (rc_disk r) restored) (rc_runs r) (rc_reports r)
  end.

Definition rc_run (ops : list RCOp) (r : Runtime) : Runtime := foldl (fun r op => rc_step op r) r ops.

(** ** Events run forward *)

(** The last run kept for a key is at or behind none of its runs. *)
Definition runs_ok (r : Runtime) : Prop :=
  (forall k t, (k, t) ∈ rc_runs r -> (t <= om_get k (rs_eventRuns (rc_state r)) ?? 0)%Z) /\
  (forall l1 k t l2 t', rc_runs r = l1 ++ (k, t) :: l2 -> (k, t') ∈ l2 -> (t < t')%Z).

Lemma ranEvent_ok k t r :
  (om_get k (rs_eventRuns (rc_state r)) ?? 0 < t)%Z -> runs_ok r -> runs_ok (ranEvent k t r).
Proof.
  intros Hlt [H1 H2]. split; simpl.
  - intros k' t' [Hin | [= -> ->]%list_elem_of_singleton]%elem_of_app; rewrite om_get_set.
    + destruct (decide (k' = k)) as [->|]; [|by apply H1]. specialize (H1 _ _ Hin). simpl. lia.
    + rewrite decide_True by done. simpl. lia.
  - intros l1 k' t' l2 t2 E Hin. destruct l2 as [|x l2 _] using rev_ind; [by apply elem_of_nil in Hin|].
    rewrite app_comm_cons, app_assoc in E. apply app_inj_tail in E as [E <-].
    apply elem_of_app in Hin as [Hin | [= -> ->]%list_elem_of_singleton]; [by eapply H2|].
    assert ((k, t') ∈ rc_runs r) as Hr by (rewrite E; set_solver). specialize (H1 _ _ Hr). lia.
Qed.

Lemma processEvents_ind (P : Runtime -> Prop) d :
  (forall id m r, P r -> P (report id m r)) ->
  (forall k t r, (om_get k (rs_eventRuns (rc_state r)) ?? 0 < t)%Z -> P r -> P (ranEvent k t r)) ->
  forall events settled r, P r -> P (processEvents d events settled r).1.
Proof.
  intros Hrep Hran events. induction events as [|e events IH]; intros settled r Hr; [done|]. simpl.
  destruct (splitEventId (ev_id e)) as [key [ts|]]; [|by apply IH].
  destruct (Z.leb_spec ts (om_get key (rs_eventRuns (rc_state r)) ?? 0)%Z); [by apply IH|].
  destruct (_ <=? _)%Z; [by apply IH|].
  destruct (dg_handler d (ev_id e)) as [message|]; [|apply IH; by apply Hran].
  destruct (isWorkspaceMutationEventKind _); [by apply Hrep|].
  destruct (String.eqb _ _); apply IH; [by apply Hrep | done].
Qed.

Lemma processEvents_runs d events settled r : runs_ok r -> runs_ok (processEvents d events settled r).1.
Proof. apply processEvents_ind; [done|]. intros; by apply ranEvent_ok. Qed.

Lemma dispatch_state d drivers contributions r :
  rc_state (dispatch d drivers contributions r).1 = rc_state r /\ rc_runs (dispatch d drivers contributions r).1 = rc_runs r.
Proof.
  revert r. induction drivers as [|driver drivers IH]; intros r; simpl; [done|].
  destruct (dg_driver d (dr_name driver)) as [message|]; [|apply (IH (wrote driver contributions r))].
  specialize (IH r). by destruct (dispatch d drivers contributions r).
Qed.

(** What one apply does, as far as the events and the state go. *)
Lemma applyState_runs d input r : runs_ok r -> runs_ok (applyState d input r).1.
Proof.
  intros H. unfold applyState. destruct (_ <? _).
  { pose proof (processEvents_runs d (ai_events input) [] r H) as Hp.
    by destruct (processEvents d (ai_events input) [] r). }
  set (x := if bool_decide _ then _ else _).
  assert (runs_ok x.1) as Hx.
  { unfold x. destruct (bool_decide _); [done|].
    destruct (dispatch_state d (dg_drivers d) (ai_contributions input) r) as [E1 E2]. unfold runs_ok. by rewrite E1, E2. }
  destruct x as [r1 failures]. simpl in Hx. destruct (dg_appliedThrows d); [done|].
  pose proof (processEvents_runs d (ai_events input) [] r1 Hx) as Hp.
  destruct (processEvents d (ai_events input) [] r1) as [r2 settled]. simpl in Hp.
  destruct (dg_readThrows d); [done|]. by destruct failures.
Qed.

Lemma boot_runs f ready stale r : rs_eventRuns (createStateStore f ready stale (rc_state r)) = rs_eventRuns (rc_state r).
Proof. unfold createStateStore. destruct (forgets _ _ _ _); [done|]. by destruct (negb _). Qed.

Lemma rc_step_runs op r : runs_ok r -> runs_ok (rc_step op r).
Proof.
  destruct op as [d input|f ready stale restored]; simpl; [apply applyState_runs|].
  intros H. unfold runs_ok. simpl. by rewrite boot_runs.
Qed.


(** ** What is settled, and what waits *)
Definition isOver (d : Doings) (r : Runtime) (e : RuntimeEvent) : Prop :=
  match splitEventId (ev_id e) with
  | (_, None) => True
  | (key, Some ts) => (ts <= om_get key (rs_eventRuns (rc_state r)) ?? 0)%Z \/ (ev_expiresAt e <= dg_now d)%Z
  end.

Definition isHeldBy (d : Doings) (e : RuntimeEvent) : Prop :=
  isWorkspaceMutationEventKind (ev_kind e) = true /\ dg_handler d (ev_id e) <> None.

(** A key's last run never goes back. *)
Lemma processEvents_grows d events settled r key :
  (om_get key (rs_eventRuns (rc_state r)) ?? 0 <= om_get key (rs_eventRuns (rc_state (processEvents d events settled r).1)) ?? 0)%Z.
Proof.
  apply (processEvents_ind (fun r' => om_get key (rs_eventRuns (rc_state r)) ?? 0 <= om_get key (rs_eventRuns (rc_state r')) ?? 0)%Z);
    [done | | lia].
  intros k t r' Hlt Hle. simpl. rewrite om_get_set. destruct (decide (key = k)) as [->|]; [simpl; lia | done].
Qed.

Lemma processEvents_settled d events settled r id :
  id ∈ (processEvents d events settled r).2 -> id ∈ settled \/ exists e, e ∈ events /\ ev_id e = id.
Proof.
  revert settled r. induction events as [|e events IH]; intros settled r; [by left|]. simpl.
  assert (forall s r', id ∈ (processEvents d events s r').2 -> (id ∈ s -> id ∈ settled \/ id = ev_id e) ->
    id ∈ settled \/ exists e', e' ∈ e :: events /\ ev_id e' = id) as Hgo.
  { intros s r' Hin Hs. destruct (IH s r' Hin) as [H | (e' & He & <-)]; [|right; exists e'; by split; [right|]].
    destruct (Hs H) as [?| ->]; [by left|]. right. exists e. split; [left | done]. }
  destruct (splitEventId (ev_id e)) as [key [ts|]].
  2: { intros H. apply (Hgo _ _ H). intros [?| ->%list_elem_of_singleton]%elem_of_app; auto. }
  destruct (_ <=? _)%Z; [intros H; apply (Hgo _ _ H); intros [?| ->%list_elem_of_singleton]%elem_of_app; auto|].
  destruct (_ <=? _)%Z; [intros H; apply (Hgo _ _ H); intros [?| ->%list_elem_of_singleton]%elem_of_app; auto|].
  destruct (dg_handler d (ev_id e)) as [message|]; [|intros H; apply (Hgo _ _ H); intros [?| ->%list_elem_of_singleton]%elem_of_app; auto].
  destruct (isWorkspaceMutationEventKind _); [by left|].
  destruct (String.eqb _ _); intros H; apply (Hgo _ _ H); auto.
Qed.

Lemma processEvents_keeps d events settled r id : id ∈ settled -> id ∈ (processEvents d events settled r).2.
Proof.
  revert settled r. induction events as [|e events IH]; intros settled r H; [done|]. simpl.
  destruct (splitEventId (ev_id e)) as [key [ts|]]; [|apply IH; set_solver].
  destruct (_ <=? _)%Z; [apply IH; set_solver|]. destruct (_ <=? _)%Z; [apply IH; set_solver|].
  destruct (dg_handler d (ev_id e)) as [message|]; [|apply IH; set_solver].
  destruct (isWorkspaceMutationEventKind _); [done|]. destruct (String.eqb _ _); by apply IH.
Qed.

Lemma isOver_grows d events settled r e :
  isOver d r e -> isOver d (processEvents d events settled r).1 e.
Proof.
  unfold isOver. destruct (splitEventId (ev_id e)) as [key [ts|]]; [|done].
  intros [H|H]; [left | by right]. pose proof (processEvents_grows d events settled r key). lia.
Qed.

Lemma tail_settled d e events settled r :
  NoDup (map ev_id (e :: events)) -> ev_id e ∉ settled -> ev_id e ∉ (processEvents d events settled r).2.
Proof.
  intros [Hn _]%NoDup_cons Hs [H | (e' & He' & E)]%processEvents_settled; [done|].
  apply Hn. rewrite <- E. by apply (list_elem_of_fmap_2 ev_id).
Qed.

(** Which events are rightly settled: those that are over are, those whose
    handler threw or that stand behind a held workspace mutation are not. *)
Definition fates (d : Doings) (events : list RuntimeEvent) (r : Runtime) (s : list string) : Prop :=
  (forall e, e ∈ events -> ev_id e ∈ s -> isOver d r e) /\
  (forall l1 e l2, events = l1 ++ e :: l2 -> ev_id e ∉ s -> dg_handler d (ev_id e) <> None \/ exists w, w ∈ l1 /\ isHeldBy d w) /\
  (forall l1 w l2 e, events = l1 ++ w :: l2 -> isWorkspaceMutationEventKind (ev_kind w) = true -> ev_id w ∉ s -> e ∈ l2 -> ev_id e ∉ s).

Lemma fates_settled d e events r s :
  isOver d r e -> ev_id e ∈ s -> fates d events r s -> fates d (e :: events) r s.
Proof.
  intros Ho Hin (Ha & Hb & Hc). split_and!.
  - intros e' [->|He']%elem_of_cons Hin'; [done | by apply Ha].
  - intros [|x l1] e' l2 [= -> ->] Hni; [done|].
    destruct (Hb l1 e' l2 eq_refl Hni) as [?|(w & ? & ?)]; [by left | right; exists w; split; [by right | done]].
  - intros [|x l1] w l2 e' [= -> ->] Hw Hni; [done|]. by apply (Hc l1 w l2 e' eq_refl).
Qed.

Lemma fates_waits d e events r s :
  dg_handler d (ev_id e) <> None -> isWorkspaceMutationEventKind (ev_kind e) = false -> ev_id e ∉ s ->
  fates d events r s -> fates d (e :: events) r s.
Proof.
  intros Hthrow Hkind Hni (Ha & Hb & Hc). split_and!.
  - intros e' [->|He']%elem_of_cons Hin'; [done | by apply Ha].
  - intros [|x l1] e' l2 [= -> ->] Hni'; [by left|].
    destruct (Hb l1 e' l2 eq_refl Hni') as [?|(w & ? & ?)]; [by left | right; exists w; split; [by right | done]].
  - intros [|x l1] w l2 e' [= -> ->] Hw Hni'; [congruence|]. by apply (Hc l1 w l2 e' eq_refl).
Qed.

Lemma fates_held d e events r s :
  isHeldBy d e -> (forall e', e' ∈ e :: events -> ev_id e' ∉ s) -> fates d (e :: events) r s.
Proof.
  intros Hh Hs. split_and!.
  - intros e' He' Hin. by destruct (Hs e' He').
  - intros [|x l1] e' l2 [= -> ->] _; [left; apply Hh | right]. exists x. split; [left | done].
  - intros [|x l1] w l2 e' [= -> ->] _ _ He'; apply Hs; set_solver.
Qed.

Lemma rest_is_new e events settled (x : list string) :
  NoDup (map ev_id (e :: events)) -> (forall e', e' ∈ e :: events -> ev_id e' ∉ settled) -> x = [ev_id e] ->
  forall e', e' ∈ events -> ev_id e' ∉ settled ++ x.
Proof.
  intros [Hn _]%NoDup_cons Hs -> e' He' [?|E%list_elem_of_singleton]%elem_of_app; [apply (Hs e'); [by right | done]|].
  apply Hn. rewrite <- E. by apply (list_elem_of_fmap_2 ev_id).
Qed.

(** With what is settled so far. *)
Lemma processEvents_fates d events settled r :
  NoDup (map ev_id events) -> (forall e, e ∈ events -> ev_id e ∉ settled) ->
  fates d events (processEvents d events settled r).1 (processEvents d events settled r).2.
Proof.
  revert settled r. induction events as [|e events IH]; intros settled r HN Hs.
  { unfold fates; simpl; split_and!; [intros e He; by apply elem_of_nil in He | intros [|] ? ? [=] | intros [|] ? ? ? [=]]. }
  assert (NoDup (map ev_id events)) as HN' by (by destruct (proj1 (NoDup_cons _ _) HN)).
  (* the event is settled, and the rest goes on *)
  assert (forall r1, isOver d r1 e ->
    fates d (e :: events) (processEvents d events (settled ++ [ev_id e]) r1).1 (processEvents d events (settled ++ [ev_id e]) r1).2) as Hsettle.
  { intros r1 Ho. apply fates_settled; [by apply isOver_grows | apply processEvents_keeps; set_solver|].
    apply IH; [done|]. by eapply rest_is_new. }
  (* the event waits, and the rest goes on *)
  assert (forall r1, dg_handler d (ev_id e) <> None -> isWorkspaceMutationEventKind (ev_kind e) = false ->
    fates d (e :: events) (processEvents d events settled r1).1 (processEvents d events settled r1).2) as Hwait.
  { intros r1 Hthrow Hkind. apply fates_waits; [done..| |].
    - apply tail_settled; [done|]. apply Hs. left.
    - apply IH; [done|]. intros e' He'. apply Hs. by right. }
  simpl. destruct (splitEventId (ev_id e)) as [key ts] eqn:Esp.
  destruct ts as [ts|]; [|apply Hsettle; unfold isOver; by rewrite Esp].
  destruct (Z.leb_spec ts (om_get key (rs_eventRuns (rc_state r)) ?? 0)%Z); [apply Hsettle; unfold isOver; rewrite Esp; by left|].
  destruct (Z.leb_spec (ev_expiresAt e) (dg_now d)); [apply Hsettle; unfold isOver; rewrite Esp; by right|].
  destruct (dg_handler d (ev_id e)) as [message|] eqn:Eh.
  2: { apply Hsettle. unfold isOver. rewrite Esp. left. simpl. rewrite om_get_set, decide_True by done. simpl. lia. }
  destruct (isWorkspaceMutationEventKind (ev_kind e)) eqn:Ek; [|destruct (String.eqb _ _); by apply Hwait].
  apply fates_held; [split; [done | by rewrite Eh] | done].
Qed.

(** What one apply settles: each event it settles is malformed, has run, at
    this or an earlier time of its key, or has expired; one it leaves threw, or
    stands behind a workspace mutation that did; and nothing behind a workspace
    mutation that is left is settled. *)
Theorem events_settle_or_wait d events r :
  NoDup (map ev_id events) -> fates d events (processEvents d events [] r).1 (processEvents d events [] r).2.
Proof. intros HN. apply processEvents_fates; [done|]. intros e _ H. by apply elem_of_nil in H. Qed.

(** ** What is applied is on the disk *)
Section Applied.
(** The drivers an image has, by the fingerprint of its bindings. *)
Context (driversOf : option string -> list Driver) (inputs : list ApplyStateInput).
Context (driversOf_names : forall f, NoDup (map dr_name (driversOf f))).
(** No two inputs with one hash differ but in their order. *)
Context (hash_tells : forall i j, i ∈ inputs -> j ∈ inputs -> ai_hash i = ai_hash j -> ai_contributions i ≡ₚ ai_contributions j).

(** What every driver of the image has written. *)
Definition holds (drivers : list Driver) (contributions : list Contribution) (disk : list (string * list Contribution)) : Prop :=
  forall x, x ∈ drivers -> exists l, om_get (dr_name x) disk = Some l /\ l ≡ₚ ofKind (dr_kind x) contributions.

(** An operation in which no driver and no hook throws; and a boot that finds
    another disk finds it out. *)
Definition goes_well (op : RCOp) (r : Runtime) : Prop :=
  match op with
  | rc_apply d input =>
      input ∈ inputs /\ 0 < ai_version input /\ dg_drivers d = driversOf (rs_bindingsFingerprint (rc_state r)) /\
      (forall x, x ∈ dg_drivers d -> dg_driver d (dr_name x) = None) /\ dg_appliedThrows d = false /\ dg_readThrows d = false
  | rc_boot f ready stale restored =>
      restored = None \/ ready = false \/ exists reason, stale = Some reason /\ truthy reason = true
  end.

Fixpoint all_go_well (ops : list RCOp) (r : Runtime) : Prop :=
  match ops with [] => True | op :: ops => goes_well op r /\ all_go_well ops (rc_step op r) end.

Definition on_disk (r : Runtime) : Prop :=
  forall h, rs_lastAppliedHash (rc_state r) = Some h ->
  0 < rs_lastAppliedVersion (rc_state r) /\
  exists i, i ∈ inputs /\ ai_hash i = h /\ holds (driversOf (rs_bindingsFingerprint (rc_state r))) (ai_contributions i) (rc_disk r).

Lemma holds_perm drivers l l' disk : l ≡ₚ l' -> holds drivers l disk -> holds drivers l' disk.
Proof.
  intros Hp H x Hx. destruct (H x Hx) as (k & E & Hk). exists k. split; [done|]. rewrite Hk. unfold ofKind.
  clear -Hp. induction Hp; simpl; repeat destruct (String.eqb _ _); try done; [by constructor | by constructor | by etrans].
Qed.

Lemma dispatch_writes d drivers contributions r :
  NoDup (map dr_name drivers) -> (forall x, x ∈ drivers -> dg_driver d (dr_name x) = None) ->
  (dispatch d drivers contributions r).2 = [] /\
  (forall name, name ∉ map dr_name drivers -> om_get name (rc_disk (dispatch d drivers contributions r).1) = om_get name (rc_disk r)) /\
  holds drivers contributions (rc_disk (dispatch d drivers contributions r).1).
Proof.
  revert r. induction drivers as [|driver drivers IH]; intros r HN Hok.
  { split_and!; [done..|]. intros x Hx. by apply elem_of_nil in Hx. }
  destruct (proj1 (NoDup_cons _ _) HN) as [Hn HN']. simpl. rewrite (Hok driver) by left.
  destruct (IH (wrote driver contributions r) HN') as (Hf & Hsame & Hh); [intros; apply Hok; by right|].
  split_and!; [done | |].
  - intros name Hname. rewrite Hsame by set_solver. simpl. rewrite om_get_set, decide_False; [done|]. set_solver.
  - intros x [->|Hx]%elem_of_cons; [|by apply Hh]. exists (ofKind (dr_kind driver) contributions).
    rewrite Hsame by done. simpl. by rewrite om_get_set, decide_True.
Qed.

Lemma processEvents_rest d events settled r :
  let r' := (processEvents d events settled r).1 in
  rc_disk r' = rc_disk r /\ rs_lastAppliedHash (rc_state r') = rs_lastAppliedHash (rc_state r) /\
  rs_lastAppliedVersion (rc_state r') = rs_lastAppliedVersion (rc_state r) /\
  rs_bindingsFingerprint (rc_state r') = rs_bindingsFingerprint (rc_state r).
Proof.
  cbv zeta. apply (processEvents_ind (fun r' => rc_disk r' = rc_disk r /\
    rs_lastAppliedHash (rc_state r') = rs_lastAppliedHash (rc_state r) /\
    rs_lastAppliedVersion (rc_state r') = rs_lastAppliedVersion (rc_state r) /\
    rs_bindingsFingerprint (rc_state r') = rs_bindingsFingerprint (rc_state r))); done.
Qed.

(** The state a good apply leaves, unless it is stale. *)
Lemma apply_well d input r :
  on_disk r -> goes_well (rc_apply d input) r -> on_disk (applyState d input r).1.
Proof.
  intros Hr (Hi & Hpos & Hd & Hok & Ha & Hread). unfold applyState. destruct (_ <? _).
  { destruct (processEvents_rest d (ai_events input) [] r) as (E1 & E2 & E3 & E4).
    destruct (processEvents d (ai_events input) [] r) as [r' s]. simpl in *. unfold on_disk. by rewrite E1, E2, E3, E4. }
  set (x := if bool_decide _ then _ else _).
  assert (x.2 = [] /\ rc_state x.1 = rc_state r /\
    holds (driversOf (rs_bindingsFingerprint (rc_state r))) (ai_contributions input) (rc_disk x.1)) as (Hf & Hs & Hh).
  { unfold x. case_bool_decide as E.
    - split_and!; [done..|]. destruct (Hr _ (eq_sym E)) as (_ & i & Hin & Eh & Hh). simpl.
      eapply holds_perm; [by apply hash_tells | done].
    - rewrite Hd in *. destruct (dispatch_writes d _ (ai_contributions input) r (driversOf_names _) Hok) as (? & _ & ?).
      split_and!; [done | apply dispatch_state | done]. }
  destruct x as [r1 failures]. simpl in *. subst failures. rewrite Ha, Hread.
  destruct (processEvents_rest d (ai_events input) [] r1) as (E1 & _ & _ & E4).
  destruct (processEvents d (ai_events input) [] r1) as [r' s]. simpl in *.
  intros h [= <-]. split; [done|]. exists input. simpl. rewrite E1, E4, Hs. done.
Qed.

Lemma boot_well f ready stale restored r :
  on_disk r -> goes_well (rc_boot f ready stale restored) r -> on_disk (rc_step (rc_boot f ready stale restored) r).
Proof.
  intros Hr Hw h. simpl. unfold createStateStore. destruct (forgets _ _ _ _) eqn:Ef; [done|].
  set (fp := match f with Some f => Some f | None => _ end) in *. intros Eh.
  assert (rs_lastAppliedHash (rc_state r) = Some h) as Eh' by (by destruct (negb _)). destruct (Hr h Eh') as [Hpos Hex].
  unfold forgets in Ef. rewrite (proj2 (Nat.eqb_neq _ 0)) in Ef by lia.
  apply orb_false_iff in Ef as [[Efp Eready]%orb_false_iff Estale].
  rewrite Efp. split; [done|]. destruct restored as [disk|]; [|done].
  destruct Hw as [?|[->|(reason & -> & Ht)]]; [done.. |]. by rewrite Ht in Estale.
Qed.

End Applied.

(** ** At concrete inputs *)
Definition demoEnv (value : string) : Contribution := jobj [("kind", jstr "env"); ("value", jstr value)].
Definition demoFile (value : string) : Contribution := jobj [("kind", jstr "file"); ("value", jstr value)].
Definition demoDrivers : list Driver := [mk_driver "env-file" "env"; mk_driver "files" "file"].
Definition demoInput (version : nat) (value : string) (events : list RuntimeEvent) : ApplyStateInput :=
  mk_apply version [demoEnv value; demoFile value] value events.
Definition demoDoings (throws : string -> option string) (handler : string -> option string) : Doings :=
  mk_doings 1000 demoDrivers throws handler false false.
Definition no_throw (name : string) : option string := None.
Definition demoEvent (id kind : string) : RuntimeEvent := mk_event id kind jnull 1 5000.

Definition demoLife : list RCOp :=
  [rc_apply (demoDoings no_throw no_throw) (demoInput 1 "a" [demoEvent "seed:10" "workspace-seed"]);
   rc_boot (Some "f1"%string) true None None;
   rc_apply (demoDoings no_throw no_throw) (demoInput 2 "b" [demoEvent "seed:10" "workspace-seed"; demoEvent "seed:12" "workspace-seed"])].


Lemma events_settle_or_wait_witness :
  let d := demoDoings no_throw (fun id => if String.eqb id "cmd:7" then Some "no git"%string else None) in
  let events := [demoEvent "a:5" "trigger"; demoEvent "cmd:7" "workspace-command"; demoEvent "b:9" "trigger"] in
  (processEvents d events [] newRuntime).2 = ["a:5"%string] /\
  fates d events (processEvents d events [] newRuntime).1 (processEvents d events [] newRuntime).2.
Proof.
  split; [by vm_compute|]. apply events_settle_or_wait. vm_compute.
  repeat (apply NoDup_cons; split; [rewrite ?elem_of_cons, elem_of_nil; naive_solver|]). apply NoDup_nil_2.
Defined.


(** A driver fails part of a change, the change is taken back, and the part that
    was written stays: the hash is that of the state applied before, so nothing
    is dispatched, and the apply is reported as done. *)
Example revert_is_skipped :
  let fails name := if String.eqb name "files" then Some "disk is read-only"%string else None in
  let r := rc_run [rc_apply (demoDoings no_throw no_throw) (demoInput 1 "a" []);
                   rc_apply (demoDoings fails no_throw) (demoInput 2 "b" [])] newRuntime in
  let again := applyState (demoDoings no_throw no_throw) (demoInput 3 "a" []) r in
  again.2 = Some (ar_ok 3 (Some "a"%string) [] []) /\
  om_get "env-file"%string (rc_disk again.1) = Some [demoEnv "b"].
Proof. split; by vm_compute. Qed.
