(* ===== verification/RuntimeOutbox.v ===== *)
(** The tables of what the agents' runtimes are to be told
    (packages/api-server/src/modules/runtime-delivery/infrastructure/outbox-repo.ts
    on the tables runtime_state_outbox and runtime_events, and
    domain/outbox-progress.ts, services/runtime-mutator.ts).

    A statement or a transaction is one step on [Db]: the outbox by agent, and
    the events in the order they were inserted, as [ORDER BY version] keeps them
    among events of one version.  Times are the database's milliseconds. *)
From stdpp Require Import base strings list sets.
From Stdlib Require Import ZArith Lia.
From S2P Require Import Prelude JsString AcpFrames Documents Contributions RuntimeChannel.
Local Open Scope nat_scope.

Definition MAX_APPLY_ATTEMPTS : nat := 8.

Record OutboxRow := mk_orow {
  or_version : nat;
  or_lastEnqueuedAt : Z;
  or_lastSettledVersion : nat;
  or_lastAppliedVersion : nat;
  or_lastAppliedHash : option string;
  or_lastAppliedAt : option Z;
  or_applyFailures : list DriverFailure;
  or_applyAttempts : nat;
  or_droppedContributionKinds : list string;
}.

Record PendingEventRow := mk_pevent {
  pe_id : string;
  pe_agentId : string;
  pe_kind : string;
  pe_payload : json;
  pe_version : nat;
  pe_expiresAt : Z;
}.

Record EventRow := mk_erow {
  er_event : PendingEventRow;
  er_dispatchedAt : option Z;
  er_attempts : nat;
  er_error : option string;
  er_reportedAt : option Z;
}.
Definition er_id (e : EventRow) : string := pe_id (er_event e).
Definition er_agent (e : EventRow) : string := pe_agentId (er_event e).
Definition er_kind (e : EventRow) : string := pe_kind (er_event e).
Definition isPending (e : EventRow) : bool := match er_dispatchedAt e with None => true | Some _ => false end.

Record Db := mk_db {
  db_outbox : list (string * OutboxRow);
  db_events : list EventRow;
}.

Section Operations.
Implicit Types (db : Db) (agentId : string) (now : Z).

(** [UPDATE runtime_events SET … WHERE … RETURNING *]. *)
Definition update_events (p : EventRow -> bool) (f : EventRow -> EventRow) db : Db :=
  mk_db (db_outbox db) (map (fun e => if p e then f e else e) (db_events db)).
Definition returning (p : EventRow -> bool) (f : EventRow -> EventRow) db : list EventRow :=
  map f (List.filter p (db_events db)).

Definition dispatched (now : Z) (error : option string -> option string) (e : EventRow) : EventRow :=
  mk_erow (er_event e) (Some now) (er_attempts e) (error (er_error e)) (er_reportedAt e).

Definition getRow agentId db : option OutboxRow := om_get agentId (db_outbox db).
Definition set_row agentId (row : OutboxRow) db : Db := mk_db (om_set agentId row (db_outbox db)) (db_events db).

Definition bumpVersion agentId (resetContributionErrors : bool) now db : Db * nat :=
  match getRow agentId db with
  | None => (set_row agentId (mk_orow 1 now 0 0 None None [] 0 []) db, 1)
  | Some r =>
      let version := S (or_version r) in
      (set_row agentId
         (mk_orow version now (or_lastSettledVersion r) (or_lastAppliedVersion r) (or_lastAppliedHash r) (or_lastAppliedAt r)
            (if resetContributionErrors then [] else or_applyFailures r)
            (if resetContributionErrors then 0 else or_applyAttempts r) (or_droppedContributionKinds r)) db,
       version)
  end.

Definition claims (eventId agentId : string) (e : EventRow) : bool :=
  String.eqb (er_id e) eventId && String.eqb (er_agent e) agentId && match er_reportedAt e with None => true | Some _ => false end.
Definition reported (now : Z) (detail : option string) (e : EventRow) : EventRow :=
  mk_erow (er_event e) (er_dispatchedAt e) (er_attempts e) detail (Some now).
Definition claimEventReport (eventId agentId : string) (detail : option string) now db : Db * option PendingEventRow :=
  (update_events (claims eventId agentId) (reported now detail) db,
   option_map er_event (head (returning (claims eventId agentId) (reported now detail) db))).

Definition byVersion (a b : PendingEventRow) : Z := (Z.of_nat (pe_version a) - Z.of_nat (pe_version b))%Z.
Definition waits agentId now (e : EventRow) : bool :=
  String.eqb (er_agent e) agentId && isPending e && (now <? pe_expiresAt (er_event e))%Z.
Definition pendingEvents agentId now db : list PendingEventRow :=
  js_sort byVersion (map er_event (List.filter (waits agentId now) (db_events db))).

(** *** The outcome of a delivery *)
Record Outcome := mk_outcome {
  oc_appliedVersion : nat;
  oc_appliedHash : option string;
  oc_failures : list DriverFailure;
  oc_settledEventIds : list string;
  oc_deliveredEventIds : list string;
  oc_droppedContributionKinds : list string;
}.

Record ApplyTransitions := mk_transitions {
  tr_newlyFailed : list DriverFailure;
  tr_recovered : list string;
  tr_gaveUp : list DriverFailure;
  tr_eventsGaveUp : list (string * string);
  tr_settledEvents : list PendingEventRow;
  tr_droppedKindsChanged : bool;
}.

Definition settles agentId (result : Outcome) (e : EventRow) : bool :=
  String.eqb (er_agent e) agentId && includes (oc_settledEventIds result) (er_id e).
Definition clearsError agentId (result : Outcome) (e : EventRow) : bool :=
  settles agentId result e && isWorkspaceMutationEventKind (er_kind e).
Definition withoutError (e : EventRow) : EventRow :=
  mk_erow (er_event e) (er_dispatchedAt e) (er_attempts e) None (er_reportedAt e).

(** The events the runtime settled. *)
Definition settleEvents agentId (result : Outcome) now db : Db * list PendingEventRow :=
  let p e := settles agentId result e && isPending e in
  (update_events (clearsError agentId result) withoutError (update_events p (dispatched now id) db),
   map er_event (returning p (dispatched now id) db)).

Definition unsettledIds (result : Outcome) : list string :=
  List.filter (fun id => negb (includes (oc_settledEventIds result) id)) (oc_deliveredEventIds result).
Definition attempted agentId (result : Outcome) (e : EventRow) : bool :=
  String.eqb (er_agent e) agentId && includes (unsettledIds result) (er_id e)
  && isWorkspaceMutationEventKind (er_kind e) && isPending e.
Definition bumped (e : EventRow) : EventRow :=
  mk_erow (er_event e) (er_dispatchedAt e) (S (er_attempts e)) (er_error e) (er_reportedAt e).
Definition gave_up_text : string := "gave up after 8 delivery attempts"%string.
Definition gaveUpError (error : option string) : option string :=
  Some ((match error with Some e => e ++ " — " | None => "" end) ++ gave_up_text)%string.

(** The workspace mutations it was sent and did not settle. *)
Definition countAttempts agentId (result : Outcome) now db : Db * list (string * string) :=
  let exhausted := List.filter (fun e => MAX_APPLY_ATTEMPTS <=? er_attempts e) (returning (attempted agentId result) bumped db) in
  let ids := map er_id exhausted in
  let db := update_events (attempted agentId result) bumped db in
  (update_events (fun e => String.eqb (er_agent e) agentId && includes ids (er_id e)) (dispatched now gaveUpError) db,
   map (fun e => (er_id e, er_kind e)) exhausted).

Definition failedKinds (failures : list DriverFailure) : list string := map df_kind failures.

Definition isClean (result : Outcome) : bool :=
  match oc_failures result, oc_appliedHash result with [], Some _ => true | _, _ => false end.

(** The outbox row after an outcome that is not out of date. *)
Definition settled_row (settledVersion : nat) (result : Outcome) (now : Z) (prev : OutboxRow) : OutboxRow :=
  if isClean result
  then mk_orow (or_version prev) (or_lastEnqueuedAt prev) settledVersion (oc_appliedVersion result) (oc_appliedHash result)
         (Some now) [] 0 (oc_droppedContributionKinds result)
  else mk_orow (or_version prev) (or_lastEnqueuedAt prev) settledVersion (or_lastAppliedVersion prev) (or_lastAppliedHash prev)
         (or_lastAppliedAt prev) (oc_failures result) (S (or_applyAttempts prev)) (oc_droppedContributionKinds result).

Definition recordOutcome agentId (settledVersion : nat) (result : Outcome) now db : Db * ApplyTransitions :=
  match getRow agentId db with
  | None => (db, mk_transitions [] [] [] [] [] false)
  | Some prev =>
      let prevKinds := js_uniq (failedKinds (or_applyFailures prev)) in
      let currKinds := failedKinds (oc_failures result) in
      let newlyFailed := List.filter (fun f => negb (includes prevKinds (df_kind f))) (oc_failures result) in
      let recovered := List.filter (fun k => negb (includes currKinds k)) prevKinds in
      let droppedKindsChanged := kindSetChanged (or_droppedContributionKinds prev) (oc_droppedContributionKinds result) in
      let '(db, settledEvents) := settleEvents agentId result now db in
      let '(db, eventsGaveUp) := countAttempts agentId result now db in
      if settledVersion <? or_lastSettledVersion prev
      then (db, mk_transitions [] [] [] eventsGaveUp settledEvents false)
      else
        let gaveUp :=
          if negb (isClean result) && (or_applyAttempts prev <? MAX_APPLY_ATTEMPTS) && (MAX_APPLY_ATTEMPTS <=? S (or_applyAttempts prev))
          then oc_failures result else [] in
        (set_row agentId (settled_row settledVersion result now prev) db,
         mk_transitions newlyFailed recovered gaveUp eventsGaveUp settledEvents droppedKindsChanged)
  end.

(** *** What waits, and what is dropped *)
Definition isRetryable (now : Z) db (kv : string * OutboxRow) : bool :=
  let '(agentId, r) := kv in
  (or_lastSettledVersion r <? or_version r)
  || (match or_applyFailures r with [] => false | _ => true end && (or_applyAttempts r <? MAX_APPLY_ATTEMPTS))
  || existsb (waits agentId now) (db_events db).
Definition listRetryable now db : list (string * OutboxRow) := List.filter (isRetryable now db) (db_outbox db).

Definition undeliverable agentId (kinds : list string) (e : EventRow) : bool :=
  String.eqb (er_agent e) agentId && includes kinds (er_kind e) && isPending e.
Definition markEventsUndeliverable agentId (kinds : list string) now db : Db * nat :=
  match kinds with
  | [] => (db, 0)
  | _ =>
      (update_events (undeliverable agentId kinds)
         (dispatched now (fun _ => Some "event kind not supported by the agent's runtime"%string)) db,
       length (List.filter (undeliverable agentId kinds) (db_events db)))
  end.

Definition supersedePending agentId (kind : string) now db : Db :=
  update_events (fun e => String.eqb (er_agent e) agentId && String.eqb (er_kind e) kind && isPending e)
    (dispatched now (fun _ => Some "superseded by a newer event of the same kind"%string)) db.

Definition isExpired now (e : EventRow) : bool := isPending e && (pe_expiresAt (er_event e) <? now)%Z.
Definition deleteExpiredEvents now db : Db * list PendingEventRow :=
  (mk_db (db_outbox db) (List.filter (fun e => negb (isExpired now e)) (db_events db)),
   map er_event (List.filter (isExpired now) (db_events db))).

Definition deleteForAgent agentId db : Db :=
  mk_db (om_delete agentId (db_outbox db)) (List.filter (fun e => negb (String.eqb (er_agent e) agentId)) (db_events db)).

(** [ON CONFLICT DO NOTHING]: the id is the primary key. *)
Definition insertEvent (input : PendingEventRow) db : Db :=
  if existsb (fun e => String.eqb (er_id e) (pe_id input)) (db_events db) then db
  else mk_db (db_outbox db) (db_events db ++ [mk_erow input None 0 None None]).

(** *** The mutator *)
Record NewEvent := mk_new { ne_id : string; ne_kind : string; ne_payload : json; ne_expiresAt : Z }.

Definition bump agentId (events : list NewEvent) now db : Db * nat :=
  match events with
  | [] => bumpVersion agentId true now db
  | _ =>
      let '(db, version) := bumpVersion agentId false now db in
      (foldl (fun db e => insertEvent (mk_pevent (ne_id e) agentId (ne_kind e) (ne_payload e) version (ne_expiresAt e)) db) db events,
       version)
  end.

(** *** What the views say *)
Record ContributionsProgress := mk_progress {
  cg_version : nat; cg_settled : bool; cg_applied : bool; cg_failures : list DriverFailure }.
Definition progressOf (row : option OutboxRow) : ContributionsProgress :=
  match row with
  | None => mk_progress 0 true true []
  | Some r => mk_progress (or_version r) (or_version r <=? or_lastSettledVersion r) (or_version r <=? or_lastAppliedVersion r) (or_applyFailures r)
  end.

Definition preparingWorkspace now agentId db : bool :=
  existsb (fun e => waits agentId now e && isWorkspaceMutationEventKind (er_kind e)) (db_events db).

Record WorkspaceFailure := mk_wfailure { wf_kind : string; wf_error : string; wf_settled : bool; wf_attempts : nat }.

(** The newest event of each kind, if it has an error. *)
Definition newestFirst (a b : EventRow) : Z := byVersion (er_event b) (er_event a).
Fixpoint firstOfKinds (seen : list string) (rows : list EventRow) : list WorkspaceFailure :=
  match rows with
  | [] => []
  | r :: rows =>
      if includes seen (er_kind r) then firstOfKinds seen rows
      else match er_error r with
           | None => firstOfKinds (er_kind r :: seen) rows
           | Some error => mk_wfailure (er_kind r) error (negb (isPending r)) (er_attempts r) :: firstOfKinds (er_kind r :: seen) rows
           end
  end.
Definition workspaceFailures agentId db : list WorkspaceFailure :=
  firstOfKinds [] (js_sort newestFirst
    (List.filter (fun e => String.eqb (er_agent e) agentId && isWorkspaceMutationEventKind (er_kind e)) (db_events db))).

Definition latestWorkspaceEvent agentId (kind : string) db : option PendingEventRow :=
  option_map er_event (head (js_sort newestFirst
    (List.filter (fun e => String.eqb (er_agent e) agentId && String.eqb (er_kind e) kind) (db_events db)))).
End Operations.

(** ** A life of the tables *)
Inductive OutboxOp :=
| oo_bump (agentId : string) (events : list NewEvent) (now : Z)
| oo_report (eventId agentId : string) (detail : option string) (now : Z)
| oo_record (agentId : string) (settledVersion : nat) (result : Outcome) (now : Z)
| oo_undeliverable (agentId : string) (kinds : list string) (now : Z)
| oo_supersede (agentId kind : string) (now : Z)
| oo_expire (now : Z)
| oo_delete (agentId : string).

(** With the events whose listeners are told that they are settled or expired. *)
Definition ob_step (op : OutboxOp) (db : Db) : Db * list PendingEventRow :=
  match op with
  | oo_bump agentId events now => ((bump agentId events now db).1, [])
  | oo_report eventId agentId detail now => ((claimEventReport eventId agentId detail now db).1, [])
  | oo_record agentId v result now =>
      let '(db, transitions) := recordOutcome agentId v result now db in (db, tr_settledEvents transitions)
  | oo_undeliverable agentId kinds now => ((markEventsUndeliverable agentId kinds now db).1, [])
  | oo_supersede agentId kind now => (supersedePending agentId kind now db, [])
  | oo_expire now => deleteExpiredEvents now db
  | oo_delete agentId => (deleteForAgent agentId db, [])
  end.

Definition ob_run (ops : list OutboxOp) (db : Db) : Db * list PendingEventRow :=
  foldl (fun acc op => let '(db, told) := acc in let '(db, more) := ob_step op db in (db, told ++ more)) (db, []) ops.

(** ** What a step does to one row *)
Definition settle_row (agentId : string) (result : Outcome) (now : Z) (e : EventRow) : EventRow :=
  let e := if settles agentId result e && isPending e then dispatched now id e else e in
  if clearsError agentId result e then withoutError e else e.

Definition attempt_row (agentId : string) (result : Outcome) (now : Z) (e : EventRow) : EventRow :=
  if attempted agentId result e
  then if MAX_APPLY_ATTEMPTS <=? S (er_attempts e) then dispatched now gaveUpError (bumped e) else bumped e
  else e.

Definition row_step (op : OutboxOp) (db : Db) (e : EventRow) : option EventRow :=
  match op with
  | oo_bump _ _ _ => Some e
  | oo_report eventId agentId detail now => Some (if claims eventId agentId e then reported now detail e else e)
  | oo_record agentId v result now =>
      match getRow agentId db with
      | None => Some e
      | Some _ => Some (attempt_row agentId result now (settle_row agentId result now e))
      end
  | oo_undeliverable agentId kinds now =>
      Some (if undeliverable agentId kinds e
            then dispatched now (fun _ => Some "event kind not supported by the agent's runtime"%string) e else e)
  | oo_supersede agentId kind now =>
      Some (if String.eqb (er_agent e) agentId && String.eqb (er_kind e) kind && isPending e
            then dispatched now (fun _ => Some "superseded by a newer event of the same kind"%string) e else e)
  | oo_expire now => if isExpired now e then None else Some e
  | oo_delete agentId => if String.eqb (er_agent e) agentId then None else Some e
  end.

Lemma row_step_event op db e e' : row_step op db e = Some e' -> er_event e' = er_event e.
Proof.
  destruct op; simpl; repeat case_match; intros; simplify_eq; try done;
    unfold attempt_row, settle_row; by repeat case_match.
Qed.

Definition ids (db : Db) : list string := map er_id (db_events db).

Lemma omap_id {A} (f : A -> option A) (l : list A) : (forall x, f x = Some x) -> omap f l = l.
Proof. intros H. induction l as [|x l IH]; [done|]. csimpl. by rewrite H, IH. Qed.

Lemma omap_some {A B} (f : A -> option B) (g : A -> B) (l : list A) : (forall x, f x = Some (g x)) -> omap f l = map g l.
Proof. intros H. induction l as [|x l IH]; [done|]. csimpl. by rewrite H, IH. Qed.

Lemma omap_if {A} (f : A -> option A) (p : A -> bool) (l : list A) :
  (forall x, f x = if p x then None else Some x) -> omap f l = List.filter (fun x => negb (p x)) l.
Proof. intros H. induction l as [|x l IH]; [done|]. csimpl. rewrite H. destruct (p x); csimpl; by rewrite IH. Qed.

Lemma NoDup_map_inj {A B} (f : A -> B) (l : list A) x y : NoDup (map f l) -> x ∈ l -> y ∈ l -> f x = f y -> x = y.
Proof.
  induction l as [|z l IH]; [intros _ H; by apply elem_of_nil in H|]. intros [Hn HN]%NoDup_cons Hx Hy E.
  apply elem_of_cons in Hx as [->|Hx]; apply elem_of_cons in Hy as [->|Hy]; [done | | |by apply IH]; destruct Hn;
    [rewrite E | rewrite <- E]; by apply (list_elem_of_fmap_2 f).
Qed.

(** Giving up by id is giving up by row, as the ids are unique. *)
Lemma countAttempts_rows agentId result now db :
  NoDup (ids db) -> db_events (countAttempts agentId result now db).1 = map (attempt_row agentId result now) (db_events db).
Proof.
  intros HN. unfold countAttempts. simpl. rewrite map_map. apply map_ext_in. intros e He%list_elem_of_In.
  unfold returning. set (exhausted := List.filter _ _).
  assert (includes (map er_id exhausted) (er_id e) = true <-> attempted agentId result e = true /\ (8 <=? S (er_attempts e)) = true) as Hx.
  { unfold includes. rewrite bool_decide_eq_true, (list_elem_of_fmap er_id). unfold exhausted. split.
    - intros (x & Ex & Hin%list_elem_of_In%filter_In). destruct Hin as [Hin%in_map_iff H8].
      destruct Hin as (y & <- & [Hy%list_elem_of_In Ha]%filter_In).
      assert (e = y) as -> by (by apply (NoDup_map_inj er_id (db_events db))). done.
    - intros [Ha H8]. exists (bumped e). split; [done|]. apply list_elem_of_In, filter_In. split; [|done].
      apply in_map, filter_In. split; [by apply list_elem_of_In | done]. }
  unfold attempt_row. destruct (attempted agentId result e) eqn:Ea.
  - assert (String.eqb (er_agent (bumped e)) agentId = true) as -> by (unfold attempted in Ea; by repeat apply andb_true_iff in Ea as [Ea _]).
    change (er_id (bumped e)) with (er_id e). rewrite andb_true_l. unfold MAX_APPLY_ATTEMPTS.
    destruct (8 <=? S (er_attempts e)); [by rewrite (proj2 Hx)|].
    destruct (includes _ _); [|done]. by destruct (proj1 Hx eq_refl).
  - destruct (includes _ _); [by destruct (proj1 Hx eq_refl)|]. by rewrite andb_false_r.
Qed.

Lemma settleEvents_rows agentId result now db :
  db_events (settleEvents agentId result now db).1 = map (settle_row agentId result now) (db_events db).
Proof. simpl. rewrite map_map. apply map_ext. intros e. unfold settle_row. by destruct (_ && _). Qed.

Lemma map_ids f db : (forall e, er_event (f e) = er_event e) -> map er_id (map f (db_events db)) = ids db.
Proof. intros H. rewrite map_map. apply map_ext. intros e. unfold er_id. by rewrite H. Qed.

Lemma settle_row_event agentId result now e : er_event (settle_row agentId result now e) = er_event e.
Proof. unfold settle_row. by repeat case_match. Qed.

Lemma recordOutcome_rows agentId v result now db :
  NoDup (ids db) -> getRow agentId db <> None ->
  db_events (recordOutcome agentId v result now db).1 = map (fun e => attempt_row agentId result now (settle_row agentId result now e)) (db_events db).
Proof.
  intros HN Hrow. unfold recordOutcome. destruct (getRow agentId db) as [prev|]; [|done]. cbv zeta.
  pose proof (settleEvents_rows agentId result now db) as E1.
  destruct (settleEvents agentId result now db) as [db1 settled]. simpl in E1.
  pose proof (countAttempts_rows agentId result now db1) as E2.
  destruct (countAttempts agentId result now db1) as [db2 gave]. simpl in E2.
  assert (db_events db2 = map (fun e => attempt_row agentId result now (settle_row agentId result now e)) (db_events db)) as E.
  { rewrite E2, E1; [by rewrite map_map|]. unfold ids. rewrite E1, map_ids; [done|]. intros; apply settle_row_event. }
  by destruct (_ <? _).
Qed.

(** The rows a bump inserts. *)
Definition fresh (agentId : string) (db : Db) (e : EventRow) : Prop :=
  er_dispatchedAt e = None /\ er_attempts e = 0 /\ er_error e = None /\ er_reportedAt e = None /\ er_agent e = agentId /\ er_id e ∉ ids db.

Lemma bumpVersion_events agentId reset now db : db_events (bumpVersion agentId reset now db).1 = db_events db.
Proof. unfold bumpVersion. by destruct (getRow agentId db). Qed.

Definition inserted (agentId : string) (version : nat) (events : list NewEvent) (db : Db) : Db :=
  foldl (fun db e => insertEvent (mk_pevent (ne_id e) agentId (ne_kind e) (ne_payload e) version (ne_expiresAt e)) db) db events.

Lemma insertEvent_spec input db :
  insertEvent input db = db \/
  (pe_id input ∉ ids db /\ insertEvent input db = mk_db (db_outbox db) (db_events db ++ [mk_erow input None 0 None None])).
Proof.
  unfold insertEvent. destruct (existsb _ _) eqn:E; [by left | right]. split; [|done].
  intros (e & Ee & He)%(list_elem_of_fmap er_id). apply not_true_iff_false in E. apply E, existsb_exists.
  exists e. split; [by apply list_elem_of_In|]. by rewrite <- Ee, String.eqb_refl.
Qed.

Lemma inserted_spec agentId version events db :
  exists new, db_events (inserted agentId version events db) = db_events db ++ new /\
    Forall (fresh agentId db) new /\ map er_id new `sublist_of` map ne_id events /\
    (NoDup (ids db) -> NoDup (map er_id (db_events db ++ new))) /\
    db_outbox (inserted agentId version events db) = db_outbox db.
Proof.
  revert db. induction events as [|e events IH]; intros db.
  { exists []. rewrite app_nil_r. split_and!; [done..|constructor|done|done]. }
  set (input := mk_pevent (ne_id e) agentId (ne_kind e) (ne_payload e) version (ne_expiresAt e)).
  change (inserted agentId version (e :: events) db) with (inserted agentId version events (insertEvent input db)).
  destruct (insertEvent_spec input db) as [-> | [Hn ->]].
  - destruct (IH db) as (new & E & Hf & Hs & HN & Ho). exists new. split_and!; try done. by apply sublist_cons.
  - set (db' := mk_db _ _). destruct (IH db') as (new & E & Hf & Hs & HN & Ho).
    exists (mk_erow input None 0 None None :: new). split_and!.
    + rewrite E. simpl. by rewrite <- app_assoc.
    + constructor; [by repeat split|]. eapply Forall_impl; [exact Hf|]. intros x (? & ? & ? & ? & ? & Hx).
      repeat split; try done. intros Hin. apply Hx. unfold ids, db'. simpl. rewrite map_app. set_solver.
    + simpl. by apply sublist_skip.
    + intros HN'. rewrite cons_middle, app_assoc. apply HN. unfold ids, db'. simpl. rewrite map_app. simpl.
      apply NoDup_app. split_and!; [done | | apply NoDup_singleton]. intros x Hx ->%list_elem_of_singleton. by apply Hn.
    + done.
Qed.

(** A step, row by row. *)
Lemma step_rows op db :
  NoDup (ids db) ->
  exists new, db_events (ob_step op db).1 = omap (row_step op db) (db_events db) ++ new /\
    match op with
    | oo_bump agentId events _ => Forall (fresh agentId db) new /\ map er_id new `sublist_of` map ne_id events
    | _ => new = []
    end.
Proof.
  intros HN. destruct op; simpl.
  - rewrite omap_id by done. unfold bump. destruct events as [|e events].
    { exists []. by rewrite bumpVersion_events, app_nil_r. }
    pose proof (bumpVersion_events agentId false now db) as E0.
    destruct (bumpVersion agentId false now db) as [db1 version] eqn:Eb. simpl in E0.
    destruct (inserted_spec agentId version (e :: events) db1) as (new & E & Hf & Hs & _).
    exists new. rewrite <- E0. split; [exact E|]. split; [|done]. unfold fresh, ids in *. by rewrite <- E0.
  - exists []. rewrite app_nil_r. split; [|done]. symmetry. by apply omap_some.
  - exists []. rewrite app_nil_r. split; [|done]. destruct (recordOutcome agentId settledVersion result now db) as [db' tr] eqn:Er.
    simpl. destruct (getRow agentId db) eqn:Eg.
    + erewrite omap_some by (intros; simpl; by rewrite Eg).
      pose proof (recordOutcome_rows agentId settledVersion result now db HN) as H. rewrite Er in H. apply H. by rewrite Eg.
    + rewrite omap_id by (intros; simpl; by rewrite Eg). unfold recordOutcome in Er. rewrite Eg in Er. by simplify_eq.
  - exists []. rewrite app_nil_r. split; [|done]. erewrite omap_some by done. destruct kinds; [|done]. simpl.
    induction (db_events db) as [|e l IH]; [done|]. simpl. rewrite <- IH. unfold undeliverable. by rewrite andb_false_r.
  - exists []. rewrite app_nil_r. split; [|done]. symmetry. by apply omap_some.
  - exists []. rewrite app_nil_r. split; [|done]. symmetry. by apply omap_if.
  - exists []. rewrite app_nil_r. split; [|done]. symmetry. by apply omap_if.
Qed.

Lemma omap_ids (f : EventRow -> option EventRow) l :
  (forall e e', f e = Some e' -> er_event e' = er_event e) -> map er_id (omap f l) `sublist_of` map er_id l.
Proof.
  intros H. induction l as [|e l IH]; [done|]. csimpl. destruct (f e) as [e'|] eqn:E; [|by apply sublist_cons].
  simpl. unfold er_id at 1. rewrite (H _ _ E). by apply sublist_skip.
Qed.


Lemma step_ids op db : NoDup (ids db) -> NoDup (ids (ob_step op db).1).
Proof.
  intros HN. assert (forall db', map er_id (db_events db') `sublist_of` ids db -> NoDup (ids db')) as Hsub.
  { intros db' H. by eapply sublist_NoDup. }
  destruct (step_rows op db HN) as (new & E & Hnew).
  assert (new = [] -> NoDup (ids (ob_step op db).1)) as Hold.
  { intros ->. apply Hsub. rewrite E, app_nil_r. apply omap_ids. intros; by eapply row_step_event. }
  destruct op as [agentId events now| | | | | |]; [|by apply Hold..]. clear new E Hnew Hold.
  simpl. unfold bump. destruct events as [|e events]; [unfold ids; by rewrite bumpVersion_events|].
  pose proof (bumpVersion_events agentId false now db) as E0.
  destruct (bumpVersion agentId false now db) as [db1 version]. simpl in E0.
  destruct (inserted_spec agentId version (e :: events) db1) as (new & E & _ & _ & HN' & _).
  simpl. unfold ids at 1. unfold inserted in E. simpl in E. rewrite E. apply HN'. unfold ids. by rewrite E0.
Qed.

(** ** Told once *)
Definition row_told (op : OutboxOp) (db : Db) (e : EventRow) : bool :=
  match op with
  | oo_record agentId v result now =>
      match getRow agentId db with None => false | Some _ => settles agentId result e && isPending e end
  | oo_expire now => isExpired now e
  | _ => false
  end.

Lemma step_told op db : (ob_step op db).2 = map er_event (List.filter (row_told op db) (db_events db)).
Proof.
  assert (forall p (l : list EventRow), (forall e, p e = false) -> map er_event (List.filter p l) = []) as H0.
  { intros p l Hp. induction l as [|e l IH]; [done|]. simpl. by rewrite Hp. }
  destruct op; simpl; try (by rewrite H0); [|done].
  unfold recordOutcome. destruct (getRow agentId db) as [prev|] eqn:Eg; [|rewrite H0; [done | intros; simpl; by rewrite Eg]]. cbv zeta.
  rewrite (List.filter_ext (row_told _ db) (fun e => settles agentId result e && isPending e)) by (intros; simpl; by rewrite Eg).
  assert (tr_settledEvents (mk_transitions [] [] [] [] (settleEvents agentId result now db).2 false) =
    map er_event (List.filter (fun e => settles agentId result e && isPending e) (db_events db))) as E.
  { simpl. unfold returning. rewrite map_map. by apply map_ext. }
  destruct (settleEvents agentId result now db) as [db1 settled]. destruct (countAttempts agentId result now db1) as [db2 gave].
  by destruct (_ <? _).
Qed.

Definition is_event (id : string) (e : EventRow) : bool := String.eqb (er_id e) id && isPending e.
Definition pendingCount (id : string) (db : Db) : nat := length (List.filter (is_event id) (db_events db)).
Definition toldCount (id : string) (told : list PendingEventRow) : nat := length (List.filter (fun e => String.eqb (pe_id e) id) told).
Definition idCount (id : string) (l : list string) : nat := length (List.filter (String.eqb id) l).
Definition op_inserts (id : string) (op : OutboxOp) : nat :=
  match op with oo_bump _ events _ => idCount id (map ne_id events) | _ => 0 end.
Definition inserts (id : string) (ops : list OutboxOp) : nat := sum_list_with (op_inserts id) ops.

Lemma count_rows {A} (g : A -> option A) (t q : A -> bool) (l : list A) :
  (forall e, (if t e then 1 else 0) + (match g e with Some e' => if q e' then 1 else 0 | None => 0 end) <= if q e then 1 else 0) ->
  length (List.filter t l) + length (List.filter q (omap g l)) <= length (List.filter q l).
Proof.
  intros H. induction l as [|e l IH]; [done|]. specialize (H e). csimpl.
  destruct (t e), (q e), (g e) as [e'|]; csimpl; try destruct (q e'); csimpl; lia.
Qed.

Lemma idCount_sublist id l l' : l `sublist_of` l' -> idCount id l <= idCount id l'.
Proof. unfold idCount. induction 1; simpl; [done|..]; destruct (String.eqb id x); simpl; lia. Qed.

Lemma settle_row_stands agentId result now e :
  isPending e = false -> er_dispatchedAt (settle_row agentId result now e) = er_dispatchedAt e.
Proof. intros Hp. unfold settle_row. rewrite Hp, andb_false_r. by destruct (clearsError _ _ _). Qed.

Lemma attempt_row_stands agentId result now e :
  isPending e = false -> er_dispatchedAt (attempt_row agentId result now e) = er_dispatchedAt e.
Proof. intros Hp. unfold attempt_row, attempted. by rewrite Hp, andb_false_r. Qed.

(** What has ended stays as it ended. *)
Lemma pending_after op db e e' : row_step op db e = Some e' -> isPending e = false -> er_dispatchedAt e' = er_dispatchedAt e.
Proof.
  intros Hs Hp. destruct op; simpl in Hs.
  - by simplify_eq.
  - destruct (claims _ _ _); by simplify_eq.
  - destruct (getRow agentId db); simplify_eq; [|done].
    pose proof (settle_row_stands agentId result now e Hp) as E. rewrite attempt_row_stands; [done|].
    unfold isPending in *. by rewrite E.
  - unfold undeliverable in Hs. rewrite Hp, andb_false_r in Hs. by simplify_eq.
  - rewrite Hp, andb_false_r in Hs. by simplify_eq.
  - unfold isExpired in Hs. rewrite Hp in Hs. by injection Hs as <-.
  - destruct (String.eqb _ _); by simplify_eq.
Qed.

Lemma pending_before op db e e' : row_step op db e = Some e' -> isPending e' = true -> isPending e = true.
Proof.
  intros Hs Hp. destruct (isPending e) eqn:E; [done|]. pose proof (pending_after _ _ _ _ Hs E) as Hd.
  unfold isPending in *. by rewrite Hd, E in Hp.
Qed.

Lemma told_ends op db e e' : row_told op db e = true -> row_step op db e = Some e' -> isPending e' = false.
Proof.
  destruct op; simpl; try done; [|by intros ->]. destruct (getRow agentId db); [|done]. intros Ht [= <-].
  assert (isPending (settle_row agentId result now e) = false) as Hp.
  { unfold settle_row. rewrite Ht. by destruct (clearsError _ _ _). }
  unfold isPending at 1. rewrite attempt_row_stands by done. exact Hp.
Qed.

Lemma told_waited op db e : row_told op db e = true -> isPending e = true.
Proof.
  destruct op; simpl; try done; [|by intros [? _]%andb_true_iff].
  destruct (getRow agentId db); [|done]. by intros [_ ?]%andb_true_iff.
Qed.

Lemma new_count id agentId db new (events : list NewEvent) :
  Forall (fresh agentId db) new -> map er_id new `sublist_of` map ne_id events ->
  length (List.filter (is_event id) new) <= idCount id (map ne_id events).
Proof.
  intros Hf Hs. etrans; [|by eapply idCount_sublist]. clear Hs. unfold idCount.
  induction Hf as [|e new (Hd & _) _ IH]; [done|]. simpl. unfold is_event at 1, isPending. rewrite Hd, andb_true_r, (String.eqb_sym id).
  destruct (String.eqb (er_id e) id); simpl; lia.
Qed.

Lemma filter_map_length {A B} (f : A -> B) p (l : list A) : length (List.filter p (map f l)) = length (List.filter (fun x => p (f x)) l).
Proof. induction l as [|x l IH]; [done|]. simpl. destruct (p (f x)); simpl; by rewrite IH. Qed.

Lemma filter_filter_length {A} p q (l : list A) : length (List.filter p (List.filter q l)) = length (List.filter (fun x => p x && q x) l).
Proof. induction l as [|x l IH]; [done|]. simpl. destruct (q x); simpl; destruct (p x); simpl; by rewrite IH. Qed.

(** A step's ends and what it leaves waiting. *)
Lemma step_count id op db :
  NoDup (ids db) ->
  toldCount id (ob_step op db).2 + pendingCount id (ob_step op db).1 <= pendingCount id db + op_inserts id op.
Proof.
  intros HN. destruct (step_rows op db HN) as (new & E & Hnew). unfold pendingCount, toldCount.
  rewrite E, step_told, filter_map_length, filter_filter_length, List.filter_app, length_app.
  pose proof (count_rows (row_step op db) (fun e => String.eqb (pe_id (er_event e)) id && row_told op db e) (is_event id) (db_events db)) as Hc.
  assert (length (List.filter (is_event id) new) <= op_inserts id op) as Hn.
  { destruct op; try (subst new; simpl; lia). destruct Hnew. by eapply new_count. }
  cut (length (List.filter (fun e => String.eqb (pe_id (er_event e)) id && row_told op db e) (db_events db)) +
    length (List.filter (is_event id) (omap (row_step op db) (db_events db))) <= length (List.filter (is_event id) (db_events db)));
    [unfold er_id in *; lia|].
  apply Hc. intros e. unfold is_event, er_id. destruct (String.eqb (pe_id (er_event e)) id) eqn:Ei; simpl.
  - destruct (row_told op db e) eqn:Et.
    + rewrite (told_waited _ _ _ Et). destruct (row_step op db e) as [e'|] eqn:Es; [|lia].
      rewrite (told_ends _ _ _ _ Et Es), andb_false_r. lia.
    + destruct (row_step op db e) as [e'|] eqn:Es; [|destruct (isPending e); lia].
      rewrite (row_step_event _ _ _ _ Es), Ei. simpl. destruct (isPending e') eqn:Ep; [|destruct (isPending e); lia].
      by rewrite (pending_before _ _ _ _ Es Ep).
  - destruct (row_step op db e) as [e'|] eqn:Es; [|lia]. by rewrite (row_step_event _ _ _ _ Es), Ei.
Qed.

Definition emptyDb : Db := mk_db [] [].

Lemma ob_run_snoc ops op db : ob_run (ops ++ [op]) db =
  ((ob_step op (ob_run ops db).1).1, (ob_run ops db).2 ++ (ob_step op (ob_run ops db).1).2).
Proof.
  unfold ob_run. rewrite foldl_app. simpl. destruct (foldl _ _ ops) as [db' told]. simpl. by destruct (ob_step op db').
Qed.

Lemma run_ids ops : NoDup (ids (ob_run ops emptyDb).1).
Proof.
  induction ops as [|op ops IH] using rev_ind; [constructor|]. rewrite ob_run_snoc. by apply step_ids.
Qed.

(** The listeners of an event are told of its end at most once, settled or
    expired, however often its delivery is repeated, its outcome recorded late or
    the sweep run: what was told and what still waits is never more than was
    inserted. *)
Theorem event_told_once ops id :
  toldCount id (ob_run ops emptyDb).2 + pendingCount id (ob_run ops emptyDb).1 <= inserts id ops.
Proof.
  induction ops as [|op ops IH] using rev_ind; [done|]. rewrite ob_run_snoc. simpl.
  pose proof (step_count id op _ (run_ids ops)) as H. unfold inserts, toldCount in *.
  rewrite sum_list_with_app, List.filter_app, length_app. simpl. lia.
Qed.

(** ** Given up *)
Definition eventOf (id : string) (db : Db) : option EventRow := List.find (fun e => String.eqb (er_id e) id) (db_events db).

Definition op_fails (id : string) (op : OutboxOp) (db : Db) : nat :=
  match op with
  | oo_record agentId v result now =>
      match getRow agentId db, eventOf id db with
      | Some _, Some e => if String.eqb (er_agent e) agentId && includes (unsettledIds result) id then 1 else 0
      | _, _ => 0
      end
  | _ => 0
  end.

(** The deliveries of an event in a run that did not settle it. *)
Fixpoint failedDeliveries (id : string) (ops : list OutboxOp) (db : Db) : nat :=
  match ops with [] => 0 | op :: ops => op_fails id op db + failedDeliveries id ops (ob_step op db).1 end.

Lemma eventOf_spec id db e : eventOf id db = Some e -> e ∈ db_events db /\ er_id e = id.
Proof. intros [Hin Hid%String.eqb_eq]%List.find_some. split; [by apply list_elem_of_In | done]. Qed.

Lemma eventOf_none id db : eventOf id db = None <-> id ∉ ids db.
Proof.
  unfold eventOf, ids. split.
  - intros H (e & -> & He)%(list_elem_of_fmap er_id). pose proof (List.find_none _ _ H e (proj1 (list_elem_of_In _ _) He)) as Hn.
    simpl in Hn. by rewrite String.eqb_refl in Hn.
  - intros H. destruct (List.find _ _) as [e|] eqn:E; [|done]. destruct (eventOf_spec _ _ _ E) as [Hin <-].
    by destruct H; apply (list_elem_of_fmap_2 er_id).
Qed.

Lemma eventOf_step id op db e e' :
  NoDup (ids db) -> eventOf id db = Some e -> eventOf id (ob_step op db).1 = Some e' -> row_step op db e = Some e'.
Proof.
  intros HN [Hin Hid]%eventOf_spec [Hin' Hid']%eventOf_spec. destruct (step_rows op db HN) as (new & E & Hnew).
  rewrite E in Hin'. apply elem_of_app in Hin' as [(x & Hx & Hs)%list_elem_of_omap | Hn].
  - assert (x = e) as ->; [|done]. apply (NoDup_map_inj er_id (db_events db)); [done..|].
    unfold er_id in *. rewrite (row_step_event _ _ _ _ Hs) in Hid'. by rewrite Hid'.
  - exfalso. destruct op; try (subst new; by apply elem_of_nil in Hn). destruct Hnew as [Hf _].
    rewrite Forall_forall in Hf. destruct (Hf e' Hn) as (_ & _ & _ & _ & _ & Hni). apply Hni. rewrite Hid', <- Hid.
    by apply (list_elem_of_fmap_2 er_id).
Qed.

Lemma eventOf_gone id op db :
  NoDup (ids db) -> op_inserts id op = 0 -> eventOf id db = None -> eventOf id (ob_step op db).1 = None.
Proof.
  intros HN H0 Hn%eventOf_none. apply eventOf_none. intros (e & -> & He)%(list_elem_of_fmap er_id).
  destruct (step_rows op db HN) as (new & E & Hnew). rewrite E in He.
  apply elem_of_app in He as [(x & Hx & Hs)%list_elem_of_omap | He].
  - apply Hn. unfold er_id. rewrite (row_step_event _ _ _ _ Hs). by apply (list_elem_of_fmap_2 er_id).
  - destruct op; try (subst new; by apply elem_of_nil in He). destruct Hnew as [_ Hs]. simpl in H0.
    apply (idCount_sublist (er_id e)) in Hs. rewrite H0 in Hs. apply Nat.le_0_r, length_zero_iff_nil in Hs.
    assert (er_id e ∈ List.filter (String.eqb (er_id e)) (map er_id new)) as Hf; [|rewrite Hs in Hf; by apply elem_of_nil in Hf].
    apply list_elem_of_In, filter_In. split; [|by apply String.eqb_refl]. by apply in_map, list_elem_of_In.
Qed.

(** One delivery of a workspace mutation that still waits after it. *)
Lemma attempts_step op db e e' :
  eventOf (er_id e) db = Some e -> row_step op db e = Some e' -> isPending e' = true ->
  isWorkspaceMutationEventKind (er_kind e) = true -> er_attempts e < MAX_APPLY_ATTEMPTS ->
  er_attempts e' = er_attempts e + op_fails (er_id e) op db /\ er_attempts e' < MAX_APPLY_ATTEMPTS.
Proof.
  intros Hof Hs Hp Hk Hlt. destruct op; simpl in Hs |- *; rewrite ?Hof.
  - simplify_eq. lia.
  - destruct (claims _ _ _); simplify_eq; simpl; lia.
  - pose proof (pending_before (oo_record agentId settledVersion result now) db e e' Hs Hp) as Hpe.
    destruct (getRow agentId db); simplify_eq; [|lia].
    assert (settles agentId result e = false) as Hset.
    { apply not_true_iff_false. intros Hset.
      assert (isPending (settle_row agentId result now e) = false) as Hn.
      { unfold settle_row. rewrite Hset, Hpe. by destruct (clearsError _ _ _). }
      unfold isPending in Hp. rewrite attempt_row_stands in Hp by done. unfold isPending in Hn. by rewrite Hn in Hp. }
    revert Hp. unfold settle_row, clearsError. rewrite Hset. simpl. rewrite Hset. simpl.
    unfold attempt_row, attempted. rewrite Hk, Hpe, !andb_true_r.
    destruct (_ && _); [|intros _; lia]. destruct (MAX_APPLY_ATTEMPTS <=? S (er_attempts e)) eqn:E8; [done|].
    apply Nat.leb_gt in E8. intros _. simpl. lia.
  - destruct (undeliverable _ _ _); simplify_eq; simpl; try done; lia.
  - destruct (_ && _); simplify_eq; simpl; try done; lia.
  - destruct (isExpired _ _); simplify_eq; lia.
  - destruct (String.eqb (er_agent e) agentId); simplify_eq; lia.
Qed.

Lemma eventOf_gone_run id ops db :
  NoDup (ids db) -> inserts id ops = 0 -> eventOf id db = None -> eventOf id (ob_run ops db).1 = None.
Proof.
  intros HN. induction ops as [|op ops IH] using rev_ind; [done|]. rewrite ob_run_snoc. unfold inserts. rewrite sum_list_with_app.
  simpl. intros H0 Hn. apply eventOf_gone; [|lia|apply IH; [unfold inserts; lia | done]].
  clear -HN. induction ops as [|op ops IH] using rev_ind; [done|]. rewrite ob_run_snoc. by apply step_ids.
Qed.

Lemma ob_run_cons op ops db : (ob_run (op :: ops) db).1 = (ob_run ops (ob_step op db).1).1.
Proof.
  unfold ob_run. simpl. destruct (ob_step op db) as [db' told]. simpl. generalize (@nil PendingEventRow). revert db' told.
  induction ops as [|o ops IH]; intros db' told told'; simpl; [done|]. destruct (ob_step o db') as [d t]. apply IH.
Qed.

Lemma ended_stays id ops db e e' :
  NoDup (ids db) -> inserts id ops = 0 -> eventOf id db = Some e -> isPending e = false ->
  eventOf id (ob_run ops db).1 = Some e' -> isPending e' = false.
Proof.
  revert db e. induction ops as [|op ops IH]; intros db e HN H0 He Hp He'; [unfold ob_run in He'; simpl in He'; congruence|].
  rewrite ob_run_cons in He'. unfold inserts in H0. simpl in H0. fold (inserts id ops) in H0.
  pose proof (step_ids op db HN) as HN1.
  destruct (eventOf id (ob_step op db).1) as [e1|] eqn:E1.
  - eapply IH; [exact HN1 | lia | exact E1 | | exact He'].
    pose proof (eventOf_step _ _ _ _ _ HN He E1) as Hs. unfold isPending. rewrite (pending_after _ _ _ _ Hs Hp). exact Hp.
  - assert (inserts id ops = 0) as H1 by lia. by rewrite eventOf_gone_run in He'.
Qed.

(** A workspace mutation holds what is behind it for at most seven failed
    deliveries: while it waits, it has been counted as often as its deliveries
    failed, and that is below eight; with the eighth it is given up. *)
Theorem mutation_gives_up id ops db e e' :
  NoDup (ids db) -> inserts id ops = 0 -> eventOf id db = Some e -> eventOf id (ob_run ops db).1 = Some e' ->
  isWorkspaceMutationEventKind (er_kind e) = true -> er_attempts e < MAX_APPLY_ATTEMPTS -> isPending e' = true ->
  er_attempts e' = er_attempts e + failedDeliveries id ops db /\ er_attempts e' < MAX_APPLY_ATTEMPTS.
Proof.
  revert db e. induction ops as [|op ops IH]; intros db e HN H0 He He' Hk Hlt Hp.
  { unfold ob_run in He'. simpl in *. simplify_eq. lia. }
  rewrite ob_run_cons in He'. unfold inserts in H0. simpl in H0. fold (inserts id ops) in H0.
  pose proof (step_ids op db HN) as HN1.
  destruct (eventOf id (ob_step op db).1) as [e1|] eqn:E1.
  2: { assert (inserts id ops = 0) as H1 by lia. by rewrite eventOf_gone_run in He'. }
  pose proof (eventOf_step _ _ _ _ _ HN He E1) as Hs.
  assert (er_kind e1 = er_kind e) as Hk1 by (unfold er_kind; by rewrite (row_step_event _ _ _ _ Hs)).
  destruct (isPending e1) eqn:Hp1.
  - destruct (eventOf_spec _ _ _ He) as [_ Hid]. subst id.
    destruct (attempts_step op db e e1 He Hs Hp1 Hk Hlt) as [Ea Hlt1].
    destruct (IH _ _ HN1 ltac:(lia) E1 He' ltac:(congruence) Hlt1 Hp) as [Ea' Hlt']. simpl. split; [lia | done].
  - by rewrite (ended_stays id ops _ e1 e' HN1 ltac:(lia) E1 Hp1 He') in Hp.
Qed.

(** ** At concrete inputs *)
Definition demoFailing : Outcome := mk_outcome 1 (Some "h"%string) [] [] ["seed:a:10"%string] [].
Definition demoSeeded : Db := (bump "a" [mk_new "seed:a:10" "workspace-seed" jnull 5000] 10 emptyDb).1.

Definition demoRetries : list OutboxOp := repeat (oo_record "a" 1 demoFailing 20) 7.

Lemma mutation_gives_up_witness :
  exists e e', eventOf "seed:a:10" demoSeeded = Some e /\ eventOf "seed:a:10" (ob_run demoRetries demoSeeded).1 = Some e' /\
  failedDeliveries "seed:a:10" demoRetries demoSeeded = 7 /\
  er_attempts e' = er_attempts e + failedDeliveries "seed:a:10" demoRetries demoSeeded /\ er_attempts e' < MAX_APPLY_ATTEMPTS.
Proof.
  do 2 eexists. split; [vm_compute; reflexivity|]. split; [vm_compute; reflexivity|]. split; [by vm_compute|].
  apply (mutation_gives_up "seed:a:10" demoRetries demoSeeded);
    [vm_compute; apply NoDup_singleton | by vm_compute..| vm_compute; lia | by vm_compute].
Defined.

Example eighth_gives_up :
  option_map (fun e => (er_dispatchedAt e, er_error e))
    (eventOf "seed:a:10" (ob_run (repeat (oo_record "a" 1 demoFailing 20) 8) demoSeeded).1) =
  Some (Some 20%Z, Some "gave up after 8 delivery attempts"%string).
Proof. by vm_compute. Qed.
