(* ===== verification/RuntimeDelivery.v ===== *)
(** Delivering desired state to one agent's runtime
    (packages/api-server/src/modules/runtime-delivery/services/worker-handler.ts,
    hello-handler.ts, state-builder.ts), with the tables of RuntimeOutbox and the
    runtime of RuntimeChannel at its two ends.

    Any number of deliveries run at once, as jobs and the boot job do; a delivery
    is a [Job], cut where the source awaits something another delivery or a
    mutation can change: after the row is read, after the capabilities are, after
    the state is built, and after the runtime has answered.  A delivery can die
    at each of these cuts, and an answer can be lost.  What the builder reads is
    [pp_sources], a function of the harnesses the runtime says it has, which a
    mutation replaces in the transaction that bumps the version.  The builder's
    own reads are one step: a change between them bumps the version behind the
    one the delivery read.  [pp_forgot] is not in the code: it says whether the
    runtime has dropped its record of what it applied. *)
From stdpp Require Import base strings list sets.
From Stdlib Require Import ZArith Lia.
From S2P Require Import Prelude JsString AcpFrames Documents Contributions RuntimeChannel RuntimeOutbox.
Local Open Scope nat_scope.

Record StatePayload := mk_payload {
  sp_contributions : list Contribution;
  sp_hash : string;
  sp_events : list RuntimeEvent;
  sp_droppedContributionKinds : list string;
  sp_droppedEventKinds : list string;
}.

Inductive Job :=
| j_read (version : nat)
| j_caps (version : nat) (capabilities : AgentCapabilities)
| j_built (version : nat) (payload : StatePayload)
| j_answered (version : nat) (payload : StatePayload) (outcome : ApplyStateResult).

Record Pipe := mk_pipe {
  pp_db : Db;
  pp_runtime : Runtime;
  pp_capabilities : option AgentCapabilities;
  pp_sources : option (list string) -> list Contribution;
  pp_jobs : list Job;
  pp_queued : nat;
  pp_forgot : bool;
}.

(** [attemptedEventIds]: those up to the first workspace mutation that is held. *)
Fixpoint attemptedEventIds (events : list RuntimeEvent) (settled : list string) : list string :=
  match events with
  | [] => []
  | e :: events =>
      ev_id e :: (if isWorkspaceMutationEventKind (ev_kind e) && negb (includes settled (ev_id e)) then []
                  else attemptedEventIds events settled)
  end.

(** The kinds a hello advertises, as the table keeps them. *)
Definition caps_json (c : AgentCapabilities) : json :=
  jobj [("contributions"%string, strings_json (cp_contributions c)); ("events"%string, strings_json (cp_events c))].

Section Delivery.
Context (sha256 : string -> string) (agentId : string).
(** The schema of the events, and what is worked out for one when it is sent. *)
Context (eventSchema : PendingEventRow -> bool) (resolveEvent : RuntimeEvent -> option RuntimeEvent).

Definition toEvent (row : PendingEventRow) : option RuntimeEvent :=
  if eventSchema row then Some (mk_event (pe_id row) (pe_kind row) (pe_payload row) (pe_version row) (pe_expiresAt row)) else None.

(** [stateBuilder.build]. *)
Definition build (capabilities : AgentCapabilities) (sources : option (list string) -> list Contribution) (now : Z) (db : Db) : StatePayload :=
  let events := omap toEvent (pendingEvents agentId now db) in
  let filtered := filterByCapabilities capabilities (sources (cp_harnesses capabilities)) events in
  mk_payload (fr_contributions filtered) (contributionHash sha256 (fr_contributions filtered)) (fr_events filtered)
    (fr_droppedContributionKinds filtered) (fr_droppedEventKinds filtered).

Definition resolved (built : StatePayload) : StatePayload :=
  mk_payload (sp_contributions built) (sp_hash built) (omap resolveEvent (sp_events built))
    (sp_droppedContributionKinds built) (sp_droppedEventKinds built).

(** What the worker settles with. *)
Definition outcome_of (version : nat) (payload : StatePayload) (outcome : ApplyStateResult) : Outcome :=
  let settle applied hash failures settled :=
    mk_outcome applied hash failures settled (attemptedEventIds (sp_events payload) settled) (sp_droppedContributionKinds payload) in
  match outcome with
  | ar_stale _ settled => settle version (Some (sp_hash payload)) [] settled
  | ar_ok applied hash failures settled => settle applied hash failures settled
  end.

Inductive DeliveryOp :=
| d_mutate (sources : option (list string) -> list Contribution) (events : list NewEvent) (now : Z)
| d_supersede (kind : string) (now : Z)
| d_start
| d_caps (i : nat)
| d_build (i : nat) (now : Z)
| d_apply (i : nat) (doings : Doings) (lost : bool)
| d_record (i : nat) (now : Z)
| d_die (i : nat)
| d_boot (fingerprint : option string) (envReady : bool) (envStale : option string) (restored : option (list (string * list Contribution)))
| d_hello (capabilities : AgentCapabilities) (now : Z)
| d_hello_rest (lastAppliedVersion : option nat) (lastAppliedHash : option string) (capabilities : AgentCapabilities)
    (bumpedVersion : option nat) (now : Z)
| d_report (eventId : string) (detail : option string) (now : Z)
| d_expire (now : Z).

Implicit Types (p : Pipe).
Definition with_db (db : Db) p : Pipe :=
  mk_pipe db (pp_runtime p) (pp_capabilities p) (pp_sources p) (pp_jobs p) (pp_queued p) (pp_forgot p).
Definition with_jobs (jobs : list Job) p : Pipe :=
  mk_pipe (pp_db p) (pp_runtime p) (pp_capabilities p) (pp_sources p) jobs (pp_queued p) (pp_forgot p).
Definition with_runtime (r : Runtime) (forgot : bool) p : Pipe :=
  mk_pipe (pp_db p) r (pp_capabilities p) (pp_sources p) (pp_jobs p) (pp_queued p) forgot.
Definition with_capabilities (c : AgentCapabilities) p : Pipe :=
  mk_pipe (pp_db p) (pp_runtime p) (Some c) (pp_sources p) (pp_jobs p) (pp_queued p) (pp_forgot p).
Definition with_sources (s : option (list string) -> list Contribution) p : Pipe :=
  mk_pipe (pp_db p) (pp_runtime p) (pp_capabilities p) s (pp_jobs p) (pp_queued p) (pp_forgot p).
Definition enqueue p : Pipe :=
  mk_pipe (pp_db p) (pp_runtime p) (pp_capabilities p) (pp_sources p) (pp_jobs p) (S (pp_queued p)) (pp_forgot p).
Definition set_job (i : nat) (j : Job) p : Pipe := with_jobs (<[i := j]> (pp_jobs p)) p.
Definition end_job (i : nat) p : Pipe := with_jobs (delete i (pp_jobs p)) p.

(** [stateDrifted]; the builder does not throw here. *)
Definition stateDrifted (lastAppliedHash : option string) (capabilities : AgentCapabilities) (now : Z) p : bool :=
  match lastAppliedHash with
  | None => false
  | Some hash => negb (String.eqb (sp_hash (build capabilities (pp_sources p) now (pp_db p))) hash)
  end.

(** [hello] behind its transaction. *)
Definition helloRest (lastAppliedVersion : option nat) (lastAppliedHash : option string) (capabilities : AgentCapabilities)
    (bumpedVersion : option nat) (now : Z) p : Pipe :=
  let row := match bumpedVersion with None => getRow agentId (pp_db p) | Some _ => None end in
  match (match bumpedVersion with Some v => Some v | None => option_map or_version row end) with
  | None => p
  | Some desiredVersion =>
      let drifted := match row with
                     | Some _ => bool_decide (Some desiredVersion = lastAppliedVersion) && stateDrifted lastAppliedHash capabilities now p
                     | None => false
                     end in
      let '(p, desiredVersion) :=
        if drifted then let '(db, v) := bumpVersion agentId true now (pp_db p) in (with_db db p, v) else (p, desiredVersion) in
      if lastAppliedVersion ?? 0 <? desiredVersion then enqueue p else p
  end.

(** The transaction of [hello], with the version it bumped to. *)
Definition hello (capabilities : AgentCapabilities) (now : Z) p : Pipe * option nat :=
  let previous := pp_capabilities p in
  let p := with_capabilities capabilities p in
  if negb (advertisedKindsChanged (option_map caps_json previous) (Some (caps_json capabilities))) then (p, None)
  else
    match getRow agentId (pp_db p) with
    | None => (p, None)
    | Some _ => let '(db, v) := bumpVersion agentId true now (pp_db p) in (with_db db p, Some v)
    end.

Definition d_step (op : DeliveryOp) p : Pipe :=
  match op with
  | d_mutate sources events now => with_sources sources (with_db (bump agentId events now (pp_db p)).1 p)
  | d_supersede kind now => with_db (supersedePending agentId kind now (pp_db p)) p
  | d_start =>
      match getRow agentId (pp_db p) with
      | Some row => with_jobs (pp_jobs p ++ [j_read (or_version row)]) p
      | None => p
      end
  | d_caps i =>
      match pp_jobs p !! i, pp_capabilities p with
      | Some (j_read version), Some capabilities => set_job i (j_caps version capabilities) p
      | Some (j_read version), None => end_job i p
      | _, _ => p
      end
  | d_build i now =>
      match pp_jobs p !! i with
      | Some (j_caps version capabilities) =>
          let payload := resolved (build capabilities (pp_sources p) now (pp_db p)) in
          let dropped := List.filter isWorkspaceMutationEventKind (sp_droppedEventKinds payload) in
          set_job i (j_built version payload) (with_db (markEventsUndeliverable agentId dropped now (pp_db p)).1 p)
      | _ => p
      end
  | d_apply i doings lost =>
      match pp_jobs p !! i with
      | Some (j_built version payload) =>
          let '(r, result) :=
            applyState doings (mk_apply version (sp_contributions payload) (sp_hash payload) (sp_events payload)) (pp_runtime p) in
          let p := with_runtime r (pp_forgot p) p in
          match result, lost with
          | Some outcome, false => set_job i (j_answered version payload outcome) p
          | _, _ => end_job i p
          end
      | _ => p
      end
  | d_record i now =>
      match pp_jobs p !! i with
      | Some (j_answered version payload outcome) =>
          end_job i (with_db (recordOutcome agentId version (outcome_of version payload outcome) now (pp_db p)).1 p)
      | _ => p
      end
  | d_die i => end_job i p
  | d_boot f ready stale restored =>
      with_runtime (rc_step (rc_boot f ready stale restored) (pp_runtime p))
        (pp_forgot p || forgets (rc_state (pp_runtime p))
           (match f with Some f => Some f | None => rs_bindingsFingerprint (rc_state (pp_runtime p)) end) ready stale) p
  | d_hello capabilities now => (hello capabilities now p).1
  | d_hello_rest version hash capabilities bumped now => helloRest version hash capabilities bumped now p
  | d_report eventId detail now => with_db (claimEventReport eventId agentId detail now (pp_db p)).1 p
  | d_expire now => with_db (deleteExpiredEvents now (pp_db p)).1 p
  end.

Definition d_run (ops : list DeliveryOp) p : Pipe := foldl (fun p op => d_step op p) p ops.

Definition newPipe (sources : option (list string) -> list Contribution) : Pipe :=
  mk_pipe emptyDb newRuntime None sources [] 0 false.

(** ** What is current *)
Notation hash_of := (contributionHash sha256).

Definition content (c : AgentCapabilities) (sources : option (list string) -> list Contribution) : list Contribution :=
  List.filter (fun x => includes (cp_contributions c) (kindOf x)) (sources (cp_harnesses c)).

Definition same_caps (c c' : AgentCapabilities) : Prop :=
  (forall k, k ∈ cp_contributions c <-> k ∈ cp_contributions c') /\ cp_harnesses c = cp_harnesses c'.

Definition version_of p : nat := match getRow agentId (pp_db p) with Some r => or_version r | None => 0 end.
Definition applied_version p : nat := rs_lastAppliedVersion (rc_state (pp_runtime p)).
Definition caps_current p (c : AgentCapabilities) : Prop := exists c', pp_capabilities p = Some c' /\ same_caps c c'.
Definition is_current p (l : list Contribution) : Prop := exists c, pp_capabilities p = Some c /\ l = content c (pp_sources p).

Lemma same_caps_content c c' s : same_caps c c' -> content c s = content c' s.
Proof.
  intros [Hk Hh]. unfold content. rewrite Hh. apply List.filter_ext. intros x. unfold includes. apply bool_decide_ext, Hk.
Qed.

Definition answer_ok p (version : nat) (payload : StatePayload) (outcome : ApplyStateResult) : Prop :=
  match outcome with
  | ar_ok applied hash [] _ =>
      applied = version /\ hash = Some (sp_hash payload) /\ (pp_forgot p = false -> version <= applied_version p)
  | ar_ok _ _ _ _ => True
  | ar_stale _ _ => version < version_of p /\ (pp_forgot p = false -> version <= applied_version p)
  end.

Definition payload_ok p (version : nat) (payload : StatePayload) : Prop :=
  sp_hash payload = hash_of (sp_contributions payload) /\ (version = version_of p -> is_current p (sp_contributions payload)).

Definition job_version (j : Job) : nat :=
  match j with j_read v => v | j_caps v _ => v | j_built v _ => v | j_answered v _ _ => v end.

Definition job_ok p (j : Job) : Prop :=
  1 <= job_version j <= version_of p /\
  match j with
  | j_read version => True
  | j_caps version c => version = version_of p -> caps_current p c
  | j_built version payload => payload_ok p version payload
  | j_answered version payload outcome => payload_ok p version payload /\ answer_ok p version payload outcome
  end.

Definition row_ok p (r : OutboxRow) : Prop :=
  1 <= or_version r /\ or_lastSettledVersion r <= or_version r /\ or_lastAppliedVersion r <= or_lastSettledVersion r /\
  (or_lastSettledVersion r = or_version r -> or_lastAppliedVersion r < or_version r -> or_applyFailures r <> []) /\
  (or_lastAppliedVersion r = or_version r -> exists l, is_current p l /\ or_lastAppliedHash r = Some (hash_of l)) /\
  (pp_forgot p = false -> or_lastAppliedVersion r <= applied_version p).

Definition runtime_ok p : Prop :=
  applied_version p <= version_of p /\
  (0 < applied_version p -> applied_version p = version_of p ->
   exists l, is_current p l /\ rs_lastAppliedHash (rc_state (pp_runtime p)) = Some (hash_of l)).

Record pipe_ok p : Prop := mk_ok {
  po_row : forall r, getRow agentId (pp_db p) = Some r -> row_ok p r;
  po_jobs : Forall (job_ok p) (pp_jobs p);
  po_runtime : runtime_ok p;
}.

(** What a step keeps of the world a delivery was cut in. *)
Definition moves p p' : Prop :=
  version_of p <= version_of p' /\
  (version_of p' = version_of p -> 0 < version_of p -> (forall c, caps_current p c -> caps_current p' c) /\ (forall l, is_current p l -> is_current p' l)) /\
  (pp_forgot p' = false -> pp_forgot p = false /\ applied_version p <= applied_version p').

Lemma job_ok_moves p p' j : moves p p' -> job_ok p j -> job_ok p' j.
Proof.
  intros (Hv & Hc & Hf) [Hj Hm]. split; [lia|].
  assert (forall v, v = version_of p' -> v = job_version j -> v = version_of p /\ version_of p' = version_of p /\ 0 < version_of p) as Hsame by (intros; lia).
  assert (forall v payload, v = job_version j -> payload_ok p v payload -> payload_ok p' v payload) as Hpl.
  { intros v payload -> [E Hcur]. split; [done|]. intros E'. destruct (Hsame _ E' eq_refl) as (? & ? & ?). by apply Hc, Hcur. }
  destruct j as [v|v c|v payload|v payload outcome]; simpl in *; [done | | |].
  - intros E. destruct (Hsame _ E eq_refl) as (? & ? & ?). by apply Hc, Hm.
  - by apply Hpl.
  - destruct Hm as [Hp Ha]. split; [by apply Hpl|]. destruct outcome as [av ah [|] s|av s]; simpl in *; [|done|].
    + destruct Ha as (-> & -> & Ha). split_and!; [done..|]. intros Hnf. destruct (Hf Hnf) as [Hnf' ?]. specialize (Ha Hnf'). lia.
    + destruct Ha as [? Ha]. split; [lia|]. intros Hnf. destruct (Hf Hnf) as [Hnf' ?]. specialize (Ha Hnf'). lia.
Qed.

Lemma moves_jobs p p' : moves p p' -> Forall (job_ok p) (pp_jobs p) -> Forall (job_ok p') (pp_jobs p).
Proof. intros Hm Hj. eapply Forall_impl; [exact Hj|]. intros j. by apply job_ok_moves. Qed.

(** The rest of the world changes, not the row nor what is to be told. *)
Lemma pipe_ok_jobs p jobs : pipe_ok p -> Forall (job_ok p) jobs -> pipe_ok (with_jobs jobs p).
Proof. intros [Hr _ Hrt] Hj. by split. Qed.

Lemma pipe_ok_set p i j : pipe_ok p -> job_ok p j -> pipe_ok (set_job i j p).
Proof. intros Hp Hj. apply pipe_ok_jobs; [done|]. apply Forall_insert; [apply Hp | done]. Qed.

Lemma pipe_ok_end p i : pipe_ok p -> pipe_ok (end_job i p).
Proof. intros Hp. apply pipe_ok_jobs; [done|]. apply Forall_delete, Hp. Qed.

Lemma pipe_ok_db p db : getRow agentId db = getRow agentId (pp_db p) -> pipe_ok p -> pipe_ok (with_db db p).
Proof.
  intros E [Hr Hj Hrt]. assert (version_of (with_db db p) = version_of p) as Ev by (unfold version_of; simpl; by rewrite E).
  assert (moves p (with_db db p)) as Hm by (split_and!; [by rewrite Ev | done | done]).
  split; [|by apply (moves_jobs p)|].
  - intros r. simpl. rewrite E. apply Hr.
  - unfold runtime_ok. by rewrite Ev.
Qed.

(** A new version: nothing that is under way is held to what is current. *)
Lemma pipe_ok_bump p p' reset now :
  pipe_ok p -> getRow agentId (pp_db p') = getRow agentId (bumpVersion agentId reset now (pp_db p)).1 ->
  pp_jobs p' = pp_jobs p -> pp_runtime p' = pp_runtime p -> pp_forgot p' = pp_forgot p -> pipe_ok p'.
Proof.
  intros [Hr Hj Hrt] E Ejobs Ert Ef.
  assert (applied_version p' = applied_version p) as Ea by (unfold applied_version; by rewrite Ert).
  assert (version_of p' = S (version_of p)) as Ev.
  { unfold version_of. rewrite E. unfold bumpVersion. destruct (getRow agentId (pp_db p)); unfold getRow; simpl; by rewrite om_get_set, decide_True. }
  destruct Hrt as [Hle _].
  assert (moves p p') as Hm by (split_and!; [lia | intros; lia | rewrite Ef; intros ->; split; [done | lia]]).
  split; [|rewrite Ejobs; by apply (moves_jobs p) | split; intros; lia].
  intros r Er. rewrite E in Er. unfold bumpVersion in Er. unfold row_ok. rewrite Ea, Ef.
  destruct (getRow agentId (pp_db p)) as [r0|]; unfold getRow in Er; simpl in Er; rewrite om_get_set, decide_True in Er by done;
    simplify_eq; simpl.
  - destruct (Hr _ eq_refl) as (? & ? & ? & ? & ? & ?). split_and!; try lia; try done; intros; lia.
  - split_and!; try lia; intros; lia.
Qed.

(** ** The tables' side of a step *)
Lemma update_row pr f db : getRow agentId (update_events pr f db) = getRow agentId db.
Proof. done. Qed.

Lemma undeliverable_row kinds now db : getRow agentId (markEventsUndeliverable agentId kinds now db).1 = getRow agentId db.
Proof. by destruct kinds. Qed.

Lemma insertEvent_row input db : getRow agentId (insertEvent input db) = getRow agentId db.
Proof. unfold insertEvent. by destruct (existsb _ _). Qed.

Lemma bump_row events now db :
  exists reset, getRow agentId (bump agentId events now db).1 = getRow agentId (bumpVersion agentId reset now db).1.
Proof.
  unfold bump. destruct events as [|e events]; [by exists true|]. exists false.
  destruct (bumpVersion agentId false now db) as [db1 version]. cbn [fst].
  generalize (e :: events) db1. clear. intros l. induction l as [|e l IH]; intros db; [done|]. simpl. rewrite IH. apply insertEvent_row.
Qed.

Lemma record_row version result now db r :
  getRow agentId db = Some r ->
  getRow agentId (recordOutcome agentId version result now db).1 =
    Some (if version <? or_lastSettledVersion r then r else settled_row version result now r).
Proof.
  intros E. unfold recordOutcome. rewrite E. cbv zeta.
  assert (getRow agentId (settleEvents agentId result now db).1 = Some r) as E1 by done.
  destruct (settleEvents agentId result now db) as [db1 settled].
  assert (getRow agentId (countAttempts agentId result now db1).1 = Some r) as E2 by done.
  destruct (countAttempts agentId result now db1) as [db2 gave]. simpl in E2.
  destruct (_ <? _); [done|]. unfold getRow. simpl. by rewrite om_get_set, decide_True.
Qed.

(** ** The runtime's side *)
Lemma apply_answers doings input r :
  let '(r', result) := applyState doings input r in
  (rs_lastAppliedVersion (rc_state r') = rs_lastAppliedVersion (rc_state r) /\
   rs_lastAppliedHash (rc_state r') = rs_lastAppliedHash (rc_state r) /\
   match result with
   | None => True
   | Some (ar_ok _ _ failures _) => failures <> []
   | Some (ar_stale v _) => ai_version input < rs_lastAppliedVersion (rc_state r)
   end) \/
  (rs_lastAppliedVersion (rc_state r) <= ai_version input /\
   rs_lastAppliedVersion (rc_state r') = ai_version input /\ rs_lastAppliedHash (rc_state r') = Some (ai_hash input) /\
   exists settled, result = Some (ar_ok (ai_version input) (Some (ai_hash input)) [] settled)).
Proof.
  unfold applyState. destruct (Nat.ltb_spec (ai_version input) (rs_lastAppliedVersion (rc_state r))).
  { destruct (processEvents_rest doings (ai_events input) [] r) as (_ & E2 & E3 & _).
    destruct (processEvents doings (ai_events input) [] r) as [r' s]. simpl in *. left. rewrite E2, E3. by destruct (dg_readThrows doings). }
  set (x := if bool_decide _ then _ else _).
  assert (rc_state x.1 = rc_state r) as Es by (unfold x; case_bool_decide; [done | apply dispatch_state]).
  destruct x as [r1 failures]. simpl in Es. destruct (dg_appliedThrows doings); [left; by rewrite Es|].
  destruct (processEvents_rest doings (ai_events input) [] r1) as (_ & E2 & E3 & _).
  destruct (processEvents doings (ai_events input) [] r1) as [r' s]. simpl in E2, E3. rewrite Es in E2, E3.
  destruct (dg_readThrows doings); [by left|]. destruct failures as [|f failures]; [right | left]; simpl; [|done].
  split_and!; [done..|]. by exists s.
Qed.

(** ** Every step keeps it so *)
Definition hello_ok p (capabilities : AgentCapabilities) : Prop :=
  forall c, pp_capabilities p = Some c -> advertisedKindsChanged (Some (caps_json c)) (Some (caps_json capabilities)) = false ->
  same_caps c capabilities.

Lemma same_caps_trans c1 c2 c3 : same_caps c1 c2 -> same_caps c2 c3 -> same_caps c1 c3.
Proof. intros [H1 E1] [H2 E2]. split; [|congruence]. intros k. by rewrite H1. Qed.

Lemma caps_keep p capabilities : moves p (with_capabilities capabilities p) -> pipe_ok p -> pipe_ok (with_capabilities capabilities p).
Proof.
  set (p1 := with_capabilities capabilities p). intros Hm [Hr Hj [Hle Hrt]]. pose proof Hm as (_ & Hm2 & _). split.
  - intros r Er. destruct (Hr r Er) as (? & ? & ? & ? & Hcur & ?). split_and!; try done.
    intros E. destruct (Hcur E) as (l & Hl & ?). exists l. split; [|done]. apply Hm2; [done | | done].
    unfold version_of. simpl in Er. rewrite Er. lia.
  - by apply (moves_jobs p).
  - split; [done|]. intros Hpos E. destruct (Hrt Hpos E) as (l & Hl & ?). exists l. split; [|done]. apply Hm2; [done| | done].
    change (applied_version p1) with (applied_version p) in *. change (version_of p1) with (version_of p) in *. lia.
Qed.

Lemma hello_keeps p capabilities now : pipe_ok p -> hello_ok p capabilities -> pipe_ok (hello capabilities now p).1.
Proof.
  intros Hp Hc. unfold hello. destruct (negb _) eqn:En.
  - apply negb_true_iff in En. apply caps_keep; [|done]. split_and!; [done | | done]. intros _ _.
    assert (forall c, pp_capabilities p = Some c -> same_caps c capabilities) as Hsame by (intros c Ec; apply Hc; [done | by rewrite Ec in En]).
    split.
    + intros c' (c1 & E & Hs). exists capabilities. split; [done|]. eapply same_caps_trans; [done | by apply Hsame].
    + intros l (c1 & E & ->). exists capabilities. split; [done | by apply same_caps_content, Hsame].
  - simpl. destruct (getRow agentId (pp_db p)) as [r|] eqn:Er.
    + destruct (bumpVersion agentId true now (pp_db p)) as [db v] eqn:Eb. simpl.
      apply (pipe_ok_bump p _ true now); [done | simpl; by rewrite Eb | done..].
    + apply caps_keep; [|done]. split_and!; [done | | done]. intros _ Hpos. unfold version_of in Hpos. rewrite Er in Hpos. lia.
Qed.

Lemma helloRest_keeps v h capabilities bumped now p : pipe_ok p -> pipe_ok (helloRest v h capabilities bumped now p).
Proof.
  intros Hp. unfold helloRest. destruct (match bumped with Some _ => _ | None => _ end) as [desired|]; [|done].
  set (drifted := match _ with Some _ => _ | None => false end).
  assert (forall p1, pipe_ok p1 -> pipe_ok (enqueue p1)) as Hq by (intros p1 [? ? ?]; by split).
  destruct drifted; [|destruct (_ <? _); [by apply Hq | done]].
  destruct (bumpVersion agentId true now (pp_db p)) as [db w] eqn:Eb.
  assert (pipe_ok (with_db db p)) by (apply (pipe_ok_bump p _ true now); [done | simpl; by rewrite Eb | done..]).
  destruct (_ <? _); [by apply Hq | done].
Qed.

Lemma job_at p i j : pipe_ok p -> pp_jobs p !! i = Some j -> job_ok p j.
Proof. intros [_ Hj _] E. eapply Forall_lookup_1; done. Qed.

Lemma build_keeps p i now : pipe_ok p -> pipe_ok (d_step (d_build i now) p).
Proof.
  intros Hp. simpl. destruct (pp_jobs p !! i) as [[|version c| |]|] eqn:Ej; try done.
  destruct (job_at p i _ Hp Ej) as [Hv Hc]. simpl in Hv, Hc.
  apply pipe_ok_set; [apply pipe_ok_db; [apply undeliverable_row | done]|]. set (p1 := with_db _ p).
  assert (version_of p1 = version_of p) as Ev by (unfold version_of; simpl; by rewrite undeliverable_row).
  split; [simpl; rewrite Ev; lia|]. split; [done|]. rewrite Ev. intros E. destruct (Hc E) as (c' & Ec & Hs).
  exists c'. split; [done|]. by apply same_caps_content.
Qed.

Lemma apply_keeps p i doings lost : pipe_ok p -> pipe_ok (d_step (d_apply i doings lost) p).
Proof.
  intros Hp. simpl. destruct (pp_jobs p !! i) as [[| |version payload|]|] eqn:Ej; try done.
  destruct (job_at p i _ Hp Ej) as [Hv [Eh Hcur]]. simpl in Hv.
  pose proof (apply_answers doings (mk_apply version (sp_contributions payload) (sp_hash payload) (sp_events payload)) (pp_runtime p)) as Ha.
  destruct (applyState _ _ _) as [r result]. simpl in Ha. set (p1 := with_runtime r (pp_forgot p) p).
  assert (applied_version p <= applied_version p1) as Hle by (unfold applied_version; simpl; destruct Ha as [(-> & _)|(? & -> & _)]; done).
  assert (moves p p1) as Hm by done.
  assert (pipe_ok p1) as Hp1.
  { destruct Hp as [Hr Hj [Hle0 Hrt]]. split; [| by apply (moves_jobs p)|].
    - intros r0 Er. destruct (Hr r0 Er) as (? & ? & ? & ? & ? & Hf). split_and!; try done. intros Hnf. specialize (Hf Hnf). lia.
    - unfold runtime_ok, applied_version in *. simpl. change (version_of p1) with (version_of p).
      destruct Ha as [(-> & -> & _)|(_ & -> & -> & _)]; [done|]. split; [lia|]. intros _ E.
      exists (sp_contributions payload). split; [by apply Hcur | by rewrite Eh]. }
  destruct result as [outcome|]; [|by apply pipe_ok_end]. destruct lost; [by apply pipe_ok_end|].
  apply pipe_ok_set; [done|]. split; [done|]. split; [done|]. unfold answer_ok. change (version_of p1) with (version_of p).
  destruct Hp as [_ _ [Hrv _]]. unfold applied_version in *. destruct Ha as [(E1 & _ & Ha)|(_ & E1 & _ & s & [= ->])].
  - destruct outcome as [av ah [|] s|av s]; [done | done|]. simpl. split; [lia|]. rewrite E1. lia.
  - simpl. rewrite E1. done.
Qed.

Lemma record_keeps p i now : pipe_ok p -> pipe_ok (d_step (d_record i now) p).
Proof.
  intros Hp. simpl. destruct (pp_jobs p !! i) as [[| | |version payload outcome]|] eqn:Ej; try done.
  destruct (job_at p i _ Hp Ej) as [Hv [[Eh Hcur] Ha]]. simpl in Hv. apply pipe_ok_end.
  set (result := outcome_of version payload outcome). set (p1 := with_db _ p).
  assert (exists r, getRow agentId (pp_db p) = Some r /\ or_version r = version_of p) as (r & Er & Ev).
  { unfold version_of in *. destruct (getRow agentId (pp_db p)) as [r|]; [by exists r | lia]. }
  pose proof (record_row version result now (pp_db p) r Er) as E1.
  assert (version_of p1 = version_of p) as Ev1.
  { unfold version_of at 1. simpl. rewrite E1. destruct (_ <? _); [done|]. unfold settled_row. by destruct (isClean result). }
  destruct Hp as [Hr Hj Hrt]. split.
  2: { apply (moves_jobs p); [|done]. split_and!; [lia | done | done]. }
  2: { unfold runtime_ok. rewrite Ev1. exact Hrt. }
  intros r1 Er1. simpl in Er1. rewrite E1 in Er1. destruct (Nat.ltb_spec version (or_lastSettledVersion r)); simplify_eq; [by apply Hr|].
  destruct (Hr r Er) as (? & ? & ? & ? & Hcr & Hf). unfold settled_row, row_ok, applied_version. simpl.
  destruct (isClean result) eqn:Ec; simpl.
  - assert (oc_appliedVersion result = version /\ oc_appliedHash result = Some (sp_hash payload) /\
      (pp_forgot p = false -> version <= applied_version p)) as (-> & -> & Hap).
    { unfold result, isClean in *. destruct outcome as [av ah [|] s|av s]; simpl in *; [by destruct Ha as (-> & -> & ?) | done | by destruct Ha]. }
    split_and!; try lia; [|done]. intros E. exists (sp_contributions payload). split; [apply Hcur; lia | by rewrite Eh].
  - split_and!; try lia; [|intros; apply Hcr; lia | done].
    intros _ _. unfold result, isClean in *. destruct outcome as [av ah [|] s|av s]; simpl in *; [by destruct Ha as (-> & -> & ?) | done | done].
Qed.

Lemma boot_keeps p f ready stale restored : pipe_ok p -> pipe_ok (d_step (d_boot f ready stale restored) p).
Proof.
  intros [Hr Hj [Hle Hrt]]. simpl. unfold createStateStore.
  set (fp := match f with Some f => Some f | None => _ end). set (fg := forgets _ _ _ _).
  set (st := if fg then _ else _). set (p1 := with_runtime _ _ p).
  assert ((fg = true /\ applied_version p1 = 0) \/ (fg = false /\ applied_version p1 = applied_version p /\
    rs_lastAppliedHash (rc_state (pp_runtime p1)) = rs_lastAppliedHash (rc_state (pp_runtime p)))) as Hs.
  { unfold applied_version. simpl. unfold st. destruct fg; [by left | right]. by destruct (negb _). }
  assert (pp_forgot p1 = pp_forgot p || fg) as Ef by done. clearbody fg.
  assert (pp_forgot p1 = false -> pp_forgot p = false /\ applied_version p <= applied_version p1) as Hnf.
  { rewrite Ef. intros [? ?]%orb_false_iff. split; [done|]. destruct Hs as [[? _]|(_ & -> & _)]; [congruence | done]. }
  assert (moves p p1) as Hm by done. split.
  - intros r Er. destruct (Hr r Er) as (? & ? & ? & ? & ? & Hf). split_and!; try done.
    intros Hn. destruct (Hnf Hn) as [Hn' ?]. specialize (Hf Hn'). lia.
  - by apply (moves_jobs p).
  - unfold runtime_ok. change (version_of p1) with (version_of p). destruct Hs as [[_ ->]|(_ & -> & ->)]; [split; [lia | intros; lia] | done].
Qed.

Definition step_ok (op : DeliveryOp) p : Prop := match op with d_hello capabilities _ => hello_ok p capabilities | _ => True end.

Fixpoint run_ok (ops : list DeliveryOp) p : Prop :=
  match ops with [] => True | op :: ops => step_ok op p /\ run_ok ops (d_step op p) end.

Lemma step_keeps op p : pipe_ok p -> step_ok op p -> pipe_ok (d_step op p).
Proof.
  intros Hp Hop. destruct op.
  - simpl. destruct (bump_row events now (pp_db p)) as [reset E]. by apply (pipe_ok_bump p _ reset now).
  - by apply pipe_ok_db.
  - simpl. destruct (getRow agentId (pp_db p)) as [row|] eqn:Er; [|done]. apply pipe_ok_jobs; [done|].
    apply Forall_app. split; [apply Hp|]. apply Forall_singleton. split; [|done]. simpl. unfold version_of. rewrite Er.
    destruct Hp as [Hr _ _]. destruct (Hr row Er). lia.
  - simpl. destruct (pp_jobs p !! i) as [[version| | |]|] eqn:Ej; try done.
    destruct (pp_capabilities p) as [c|] eqn:Ec; [|by apply pipe_ok_end]. apply pipe_ok_set; [done|].
    destruct (job_at p i _ Hp Ej) as [Hv _]. split; [done|]. intros _. exists c. split; [done | by split].
  - by apply build_keeps.
  - by apply apply_keeps.
  - by apply record_keeps.
  - by apply pipe_ok_end.
  - by apply boot_keeps.
  - by apply hello_keeps.
  - by apply helloRest_keeps.
  - by apply pipe_ok_db.
  - by apply pipe_ok_db.
Qed.

Lemma run_keeps ops p : pipe_ok p -> run_ok ops p -> pipe_ok (d_run ops p).
Proof.
  revert p. induction ops as [|op ops IH]; intros p Hp Hok; [done|]. destruct Hok as [Hop Hok].
  unfold d_run. simpl. apply IH; [by apply step_keeps | done].
Qed.

Lemma reached ops sources : run_ok ops (newPipe sources) -> pipe_ok (d_run ops (newPipe sources)).
Proof. apply run_keeps. split; [done | constructor | split; [done|]; simpl; unfold applied_version; simpl; lia]. Qed.


(** What is behind is delivered again: over the same interleavings, an agent
    whose applied version is not the one wanted is among those the sweep
    enqueues, unless its last eight attempts failed. *)
Theorem behind_is_retried ops sources row now :
  run_ok ops (newPipe sources) ->
  let p := d_run ops (newPipe sources) in
  getRow agentId (pp_db p) = Some row -> cg_applied (progressOf (Some row)) = false ->
  MAX_APPLY_ATTEMPTS <= or_applyAttempts row \/ (agentId, row) ∈ listRetryable now (pp_db p).
Proof.
  intros Hok. cbv zeta. pose proof (reached ops sources Hok) as [Hr _ _]. intros Er Ha%Nat.leb_gt.
  destruct (Hr row Er) as (? & ? & ? & Hfail & _).
  destruct (Nat.le_gt_cases MAX_APPLY_ATTEMPTS (or_applyAttempts row)); [by left | right].
  apply list_elem_of_In, filter_In. split; [by apply list_elem_of_In, om_get_Some_in|]. simpl.
  destruct (Nat.ltb_spec (or_lastSettledVersion row) (or_version row)); [done|].
  assert (or_applyFailures row <> []) as Hf by (apply Hfail; lia). destruct (or_applyFailures row); [done|].
  by rewrite (proj2 (Nat.ltb_lt _ _)).
Qed.

(** ** A delivery nothing interrupts *)
Definition quiet (doings : Doings) : Prop :=
  (forall x, x ∈ dg_drivers doings -> dg_driver doings (dr_name x) = None) /\ dg_appliedThrows doings = false /\ dg_readThrows doings = false.

Lemma dispatch_quiet d drivers contributions r :
  (forall x, x ∈ drivers -> dg_driver d (dr_name x) = None) -> (dispatch d drivers contributions r).2 = [].
Proof.
  revert r. induction drivers as [|x drivers IH]; intros r Hq; [done|]. simpl. rewrite Hq by left. apply IH. intros; apply Hq; by right.
Qed.

Lemma apply_quiet doings input r :
  quiet doings -> rs_lastAppliedVersion (rc_state r) <= ai_version input ->
  exists r' settled, applyState doings input r = (r', Some (ar_ok (ai_version input) (Some (ai_hash input)) [] settled)) /\
    rs_lastAppliedVersion (rc_state r') = ai_version input /\ rs_lastAppliedHash (rc_state r') = Some (ai_hash input).
Proof.
  intros (Hq & Ha & Hread) Hle. unfold applyState. rewrite (proj2 (Nat.ltb_ge _ _)) by done.
  set (x := if bool_decide _ then _ else _).
  assert (x.2 = []) as Ex by (unfold x; case_bool_decide; [done | by apply dispatch_quiet]).
  destruct x as [r1 failures]. simpl in Ex. rewrite Ex, Ha. destruct (processEvents doings (ai_events input) [] r1) as [r' s]. rewrite Hread.
  by eexists _, s.
Qed.

Lemma delivery_starts p row :
  getRow agentId (pp_db p) = Some row ->
  let p' := d_step d_start p in
  pp_jobs p' !! length (pp_jobs p) = Some (j_read (or_version row)) /\ pp_db p' = pp_db p /\ pp_runtime p' = pp_runtime p /\
  pp_capabilities p' = pp_capabilities p /\ pp_sources p' = pp_sources p.
Proof. intros Er. simpl. rewrite Er. split; [by apply list_lookup_middle | done]. Qed.

Lemma lookup_set {A} (l : list A) i x y : l !! i = Some x -> <[i := y]> l !! i = Some y.
Proof. intros E. apply list_lookup_insert_eq. by eapply lookup_lt_Some. Qed.

Lemma caps_step p i version c :
  pp_jobs p !! i = Some (j_read version) -> pp_capabilities p = Some c ->
  let p' := d_step (d_caps i) p in
  pp_jobs p' !! i = Some (j_caps version c) /\ pp_db p' = pp_db p /\ pp_runtime p' = pp_runtime p /\ pp_sources p' = pp_sources p.
Proof. intros Ej Ec. simpl. rewrite Ej, Ec. split; [by eapply lookup_set | done]. Qed.

Lemma build_step p i version c now :
  pp_jobs p !! i = Some (j_caps version c) ->
  let p' := d_step (d_build i now) p in
  exists payload, pp_jobs p' !! i = Some (j_built version payload) /\ sp_hash payload = hash_of (content c (pp_sources p)) /\
  getRow agentId (pp_db p') = getRow agentId (pp_db p) /\ pp_runtime p' = pp_runtime p.
Proof.
  intros Ej. cbv zeta. simpl. rewrite Ej. eexists. split; [by eapply lookup_set|]. split; [done|]. split; [apply undeliverable_row | done].
Qed.

Lemma apply_step p i version payload doings :
  pp_jobs p !! i = Some (j_built version payload) -> quiet doings -> applied_version p <= version ->
  let p' := d_step (d_apply i doings false) p in
  exists settled, pp_jobs p' !! i = Some (j_answered version payload (ar_ok version (Some (sp_hash payload)) [] settled)) /\
  pp_db p' = pp_db p /\ rs_lastAppliedVersion (rc_state (pp_runtime p')) = version /\
  rs_lastAppliedHash (rc_state (pp_runtime p')) = Some (sp_hash payload).
Proof.
  intros Ej Hq Hle. simpl. rewrite Ej.
  destruct (apply_quiet doings (mk_apply version (sp_contributions payload) (sp_hash payload) (sp_events payload)) (pp_runtime p) Hq Hle)
    as (r & s & -> & Ev & Eh). exists s. split; [by eapply lookup_set | done].
Qed.

Lemma record_step p i version payload settled row now :
  pp_jobs p !! i = Some (j_answered version payload (ar_ok version (Some (sp_hash payload)) [] settled)) ->
  getRow agentId (pp_db p) = Some row -> or_lastSettledVersion row <= version -> or_version row = version ->
  let p' := d_step (d_record i now) p in
  pp_runtime p' = pp_runtime p /\
  exists row', getRow agentId (pp_db p') = Some row' /\ progressOf (Some row') = mk_progress (or_version row) true true [].
Proof.
  intros Ej Er Hle Ev. simpl. rewrite Ej. split; [done|]. simpl. erewrite record_row by done.
  rewrite (proj2 (Nat.ltb_ge _ _)) by done. eexists. split; [done|]. unfold progressOf. simpl. by rewrite Ev, Nat.leb_refl.
Qed.

(** C36: Delivery makes progress: from any state those interleavings lead to, one
    delivery to a running agent, none of whose drivers or hooks throws, leaves
    the wanted version settled and applied, in the tables and in the runtime. *)
Theorem quiet_delivery_lands ops sources row c doings now now' :
  run_ok ops (newPipe sources) -> quiet doings ->
  let p := d_run ops (newPipe sources) in
  let i := length (pp_jobs p) in
  let p' := d_run [d_start; d_caps i; d_build i now; d_apply i doings false; d_record i now'] p in
  getRow agentId (pp_db p) = Some row -> pp_capabilities p = Some c ->
  (exists row', getRow agentId (pp_db p') = Some row' /\ progressOf (Some row') = mk_progress (or_version row) true true []) /\
  rs_lastAppliedVersion (rc_state (pp_runtime p')) = or_version row /\
  rs_lastAppliedHash (rc_state (pp_runtime p')) = Some (hash_of (content c (pp_sources p))).
Proof.
  intros Hok Hq. cbv zeta. pose proof (reached ops sources Hok) as [Hr _ [Hle _]]. revert Hr Hle.
  generalize (d_run ops (newPipe sources)). intros p Hr Hle Er Ec.
  destruct (Hr row Er) as (? & ? & ? & _). unfold version_of in Hle. rewrite Er in Hle.
  unfold d_run. cbn [foldl].
  destruct (delivery_starts p row Er) as (J1 & D1 & R1 & C1 & S1). set (p1 := d_step d_start p) in *. clearbody p1.
  destruct (caps_step p1 _ _ c J1 ltac:(congruence)) as (J2 & D2 & R2 & S2). set (p2 := d_step (d_caps _) p1) in *. clearbody p2.
  destruct (build_step p2 _ _ _ now J2) as (payload & J3 & Eh & D3 & R3). set (p3 := d_step (d_build _ _) p2) in *. clearbody p3.
  destruct (apply_step p3 _ _ _ doings J3 Hq) as (settled & J4 & D4 & V4 & H4).
  { unfold applied_version in *. by rewrite R3, R2, R1. }
  set (p4 := d_step (d_apply _ _ _) p3) in *. clearbody p4.
  destruct (record_step p4 _ _ _ _ row now' J4) as (R5 & Hrow); [rewrite D4, D3, D2, D1; done | lia | done|].
  rewrite R5, V4, H4, Eh, S2, S1. done.
Qed.

(** A runtime that says hello is caught up: unless what it reports to have
    applied is just what would be built for it now, a delivery is enqueued,
    also where nothing bumped the version when that changed. *)
Theorem hello_catches_up p row capabilities now :
  getRow agentId (pp_db p) = Some row ->
  let state := rc_state (pp_runtime p) in
  rs_lastAppliedVersion state <= or_version row -> 0 < or_version row ->
  (rs_lastAppliedVersion state <> 0 -> rs_lastAppliedHash state <> None) ->
  let p' := helloRest (Some (rs_lastAppliedVersion state)) (rs_lastAppliedHash state) capabilities None now p in
  pp_queued p < pp_queued p' \/
  (rs_lastAppliedVersion state = or_version row /\ rs_lastAppliedHash state = Some (hash_of (content capabilities (pp_sources p)))).
Proof.
  intros Er. cbv zeta. set (v := rs_lastAppliedVersion _). set (h := rs_lastAppliedHash _). intros Hle Hpos Hh.
  unfold helloRest. rewrite Er. simpl. case_bool_decide as E; simpl.
  - injection E as E. destruct h as [h|]; [|exfalso; apply Hh; [lia | done]]. simpl.
    destruct (String.eqb_spec (hash_of (content capabilities (pp_sources p))) h) as [Eh|Eh].
    + right. by rewrite Eh.
    + left. change (contributionHash sha256 _) with (hash_of (content capabilities (pp_sources p))).
      rewrite (proj2 (String.eqb_neq _ _)) by done. simpl. unfold bumpVersion. rewrite Er.
      rewrite (proj2 (Nat.ltb_lt _ _)) by lia. simpl. lia.
  - left. rewrite (proj2 (Nat.ltb_lt _ _)); [simpl; lia|]. assert (v <> or_version row) by (intros ->; by apply E). lia.
Qed.
End Delivery.

(** ** At concrete inputs *)
Definition demoSha (s : string) : string := s.
Definition demoSchema (e : PendingEventRow) : bool := true.
Definition demoCaps (harnesses : list string) : AgentCapabilities := mk_caps ["env"; "file"]%string ["workspace-seed"]%string (Some harnesses).
Definition demoSources (value : string) (harnesses : option (list string)) : list Contribution :=
  demoEnv value :: map demoFile (harnesses ?? []).
Definition demoQuiet : Doings := demoDoings no_throw no_throw.

(** Two deliveries around a mutation; the later one is done first. *)
Definition demoOverlap : list DeliveryOp :=
  [d_mutate (demoSources "old") [mk_new "seed:a:10" "workspace-seed" jnull 5000] 10; d_hello (demoCaps ["pi"%string]) 11;
   d_start; d_caps 0; d_build 0 12; d_mutate (demoSources "new") [] 13;
   d_start; d_caps 1; d_build 1 14; d_apply 1 demoQuiet false; d_record 1 15; d_apply 0 demoQuiet false; d_record 0 16].

Notation demo_run ops := (d_run demoSha "a"%string demoSchema Some ops (newPipe (demoSources "old"))).

Lemma demoOverlap_ok : run_ok demoSha "a" demoSchema Some demoOverlap (newPipe (demoSources "old")).
Proof. repeat (split; [try done; by intros c|]). done. Qed.


Lemma behind_is_retried_witness :
  let ops := [d_mutate (demoSources "new") [] 10] in
  exists row, getRow "a" (pp_db (demo_run ops)) = Some row /\
    (MAX_APPLY_ATTEMPTS <= or_applyAttempts row \/ ("a"%string, row) ∈ listRetryable 11 (pp_db (demo_run ops))).
Proof.
  eexists. split; [vm_compute; reflexivity|].
  apply (behind_is_retried demoSha "a" demoSchema Some [d_mutate (demoSources "new") [] 10] (demoSources "old") _ 11);
    [by repeat split | by vm_compute | by vm_compute].
Defined.

Lemma quiet_delivery_lands_witness :
  let p := demo_run (take 6 demoOverlap) in
  let p' := d_run demoSha "a" demoSchema Some [d_start; d_caps 1; d_build 1 20; d_apply 1 demoQuiet false; d_record 1 21] p in
  exists row', getRow "a" (pp_db p') = Some row' /\ progressOf (Some row') = mk_progress 3 true true [].
Proof.
  cbv zeta. destruct (quiet_delivery_lands demoSha "a" demoSchema Some (take 6 demoOverlap) (demoSources "old")
    (default (mk_orow 0 0 0 0 None None [] 0 []) (getRow "a" (pp_db (demo_run (take 6 demoOverlap)))))
    (demoCaps ["pi"%string]) demoQuiet 20 21) as [(row' & E & Ep) _].
  - repeat (split; [try done; by intros c|]). done.
  - by split.
  - by vm_compute.
  - by vm_compute.
  - exists row'. split; [exact E|]. rewrite Ep. by vm_compute.
Defined.

(** Only the harnesses changed, so no version was bumped; what is built for the
    harnesses now is not what was applied. *)
Definition demoDrifted : Pipe :=
  demo_run [d_mutate (demoSources "old") [] 10; d_hello (demoCaps ["pi"%string]) 11;
            d_start; d_caps 0; d_build 0 12; d_apply 0 demoQuiet false; d_record 0 13; d_hello (demoCaps ["pi"; "codex"]%string) 14].

Lemma hello_catches_up_witness :
  let state := rc_state (pp_runtime demoDrifted) in
  let p' := helloRest demoSha "a" demoSchema (Some (rs_lastAppliedVersion state)) (rs_lastAppliedHash state)
              (demoCaps ["pi"; "codex"]%string) None 15 demoDrifted in
  pp_queued demoDrifted < pp_queued p' \/
  (rs_lastAppliedVersion state = 2 /\
   rs_lastAppliedHash state = Some (contributionHash demoSha (content (demoCaps ["pi"; "codex"]%string) (pp_sources demoDrifted)))).
Proof.
  cbv zeta. destruct (hello_catches_up demoSha "a" demoSchema demoDrifted
    (default (mk_orow 0 0 0 0 None None [] 0 []) (getRow "a" (pp_db demoDrifted))) (demoCaps ["pi"; "codex"]%string) 15)
    as [Hq|[Hv Hh]]; [by vm_compute | vm_compute; lia | vm_compute; lia | by vm_compute | by left | right].
  split; [by vm_compute | exact Hh].
Defined.

(** Why [hello_ok] is asked for: a delivery that was built for the harnesses
    before a hello, and is applied after the one the hello enqueued, has the same
    version; it wins, and is said to be applied. *)
Example old_harnesses_can_win :
  let p := demo_run [d_mutate (demoSources "old") [] 10; d_hello (demoCaps ["pi"%string]) 11; d_start; d_caps 0; d_build 0 12;
                     d_hello (demoCaps ["pi"; "codex"]%string) 13; d_hello_rest (Some 0) None (demoCaps ["pi"; "codex"]%string) None 14;
                     d_start; d_caps 1; d_build 1 15; d_apply 1 demoQuiet false; d_record 1 16; d_apply 0 demoQuiet false; d_record 0 17] in
  option_map (fun r => cg_applied (progressOf (Some r))) (getRow "a" (pp_db p)) = Some true /\
  om_get "files"%string (rc_disk (pp_runtime p)) = Some [demoFile "pi"].
Proof. split; by vm_compute. Qed.
