(* ===== verification/ScheduleOnce.v ===== *)
(** One-time schedules
    (packages/api-server/src/modules/schedules/services/scheduler-runner.ts,
    domain/once.ts, infrastructure/schedules-repository.ts, schedule-queue.ts,
    sagas/resume-held-once.ts, services/schedules-service.ts and
    api-server-api modules/schedules/once.ts), for one schedule.

    A fire is asynchronous and fires of one schedule may overlap, so it is cut
    where it awaits: after the row is read and what to do is decided
    ([o_fire]), after the agent is asked and the payload and the spend check are
    there ([o_checks]), and after the agent is poked ([o_poke]).  A writer that
    reads and then writes the row with nothing that matters in between is one
    step.  The job queue is a library: the class [JobQueue] says what its
    documentation does, and a job may be started again while it is under way,
    as a stalled one is. *)
From stdpp Require Import base strings list sets.
From Stdlib Require Import ZArith Lia.
From S2P Require Import Prelude.
Local Open Scope Z_scope.

(** ** The domain *)
Definition ONCE_DELIVERY_WINDOW_MS : Z := 24 * 60 * 60 * 1000.
Definition CREATE_SKEW_MS : Z := 60000.
Definition Delivering : string := "delivering".
Definition Success : string := "success".
Definition Missed : string := "missed".

Record OnceRow := mk_once {
  on_at : Z;
  on_lastFiredAt : option Z;
  on_lastFiredResult : option string;
  on_nextRun : option Z;
}.

(** [rowToSchedule]: an empty result is none. *)
Definition lastResult (r : OnceRow) : option string := on_lastFiredResult r ≫= or_null.
Definition lastRun (r : OnceRow) : option Z := on_lastFiredAt r.

Definition onceExpiry (r : OnceRow) : Z := on_at r + ONCE_DELIVERY_WINDOW_MS.

Definition onceFireAt (r : OnceRow) (now : Z) : option Z :=
  match lastRun r with
  | Some _ => None
  | None => if now <? onceExpiry r then Some (on_at r) else None
  end.

(** [resolveOnceMoment], of a moment worked out in its timezone. *)
Definition resolveOnceMoment (local : option Z) (now : Z) : option Z :=
  match local with
  | None => Some now
  | Some at_ => if at_ <? now - CREATE_SKEW_MS then None else Some at_
  end.

Inductive OnceFireAction := fa_drop | fa_poke | fa_missed | fa_commit (expiresAt : Z).

Definition onceFireAction (r : OnceRow) (now : Z) : OnceFireAction :=
  match lastResult r with
  | Some result => if String.eqb result Delivering then fa_poke else fa_drop
  | None => if onceExpiry r <=? now then fa_missed else fa_commit (onceExpiry r)
  end.

Inductive OnceState := os_pending | os_delivering | os_completed | os_missed | os_failed.
Definition onceState (r : OnceRow) : OnceState :=
  match lastRun r with
  | None => os_pending
  | Some _ =>
      match lastResult r with
      | Some result =>
          if String.eqb result Delivering then os_delivering
          else if String.eqb result Success then os_completed
          else if String.eqb result Missed then os_missed else os_failed
      | None => os_failed
      end
  end.

Definition MS_PER_DAY : Z := 24 * 60 * 60 * 1000.
Definition nextUtcMidnight (now : Z) : Z := (now / MS_PER_DAY + 1) * MS_PER_DAY.

(** ** The queue *)
Inductive JobState := js_waiting | js_active | js_completed | js_failed.
#[export] Instance JobState_eq_dec : EqDecision JobState.
Proof. solve_decision. Defined.

(** The jobs of the schedule by their fire time, which their id holds. *)
Class JobQueue (Q : Type) := mk_queue {
  jobState : Q -> Z -> option JobState;
  (** [queue.add]: ignored when a job of that id exists, in whatever state. *)
  jq_add : Z -> Q -> Q;
  (** [job.remove] of the delayed and waiting ones. *)
  jq_removePending : Q -> Q;
  (** A job is started, ends, fails, is retried, or is evicted when it has ended. *)
  jq_put : Z -> option JobState -> Q -> Q;
  (** The worker's process is gone: what was active is found stalled. *)
  jq_stalled : Q -> Q;
  jq_add_state : forall t q u, jobState (jq_add t q) u = if decide (u = t) then Some (jobState q t ?? js_waiting) else jobState q u;
  jq_remove_state : forall q u, jobState (jq_removePending q) u = if decide (jobState q u = Some js_waiting) then None else jobState q u;
  jq_put_state : forall t s q u, jobState (jq_put t s q) u = if decide (u = t) then s else jobState q u;
  jq_stalled_state : forall q u, jobState (jq_stalled q) u = if decide (jobState q u = Some js_active) then Some js_waiting else jobState q u;
}.

Section Once.
Context {Q : Type} `{!JobQueue Q}.

Definition enqueue (fireAt : Z) (q : Q) : Q := jq_add fireAt (jq_removePending q).

Definition ensure (fireAt : Z) (q : Q) : Q :=
  match jobState q fireAt with
  | Some js_failed => jq_put fireAt (Some js_waiting) q
  | Some _ => q
  | None => jq_add fireAt q
  end.

(** ** The world of one schedule *)
Inductive FirePhase := fp_checks (expiresAt : Z) | fp_poke.
Record Flight := mk_flight { fl_fireAt : Z; fl_last : bool; fl_phase : FirePhase }.

Record OW := mk_ow {
  ow_row : option OnceRow;
  ow_queue : Q;
  ow_flights : list Flight;
  (** the trigger events inserted, by fire time *)
  ow_events : list Z;
}.

Implicit Types (w : OW).
Definition set_row (r : option OnceRow) w : OW := mk_ow r (ow_queue w) (ow_flights w) (ow_events w).
Definition set_queue (q : Q) w : OW := mk_ow (ow_row w) q (ow_flights w) (ow_events w).
Definition set_flights (l : list Flight) w : OW := mk_ow (ow_row w) (ow_queue w) l (ow_events w).

(** [writeStatus], of the columns that are given. *)
Definition writeStatus (lastFiredAt : option Z) (lastFiredResult : option (option string)) (nextRun : option (option Z)) w : OW :=
  set_row (option_map (fun r => mk_once (on_at r) (match lastFiredAt with Some t => Some t | None => on_lastFiredAt r end)
    (lastFiredResult ?? on_lastFiredResult r) (nextRun ?? on_nextRun r)) (ow_row w)) w.

Definition missed (now : Z) w : OW := writeStatus (Some now) (Some (Some Missed)) (Some None) w.

(** [commitTrigger]: the row and the event in one transaction. *)
Definition commitTrigger (fireAt now : Z) w : OW :=
  let w := writeStatus (Some now) (Some (Some Delivering)) (Some None) w in
  mk_ow (ow_row w) (ow_queue w) (ow_flights w)
    (if bool_decide (fireAt ∈ ow_events w) then ow_events w else ow_events w ++ [fireAt]).

(** The handler ended: well, or by throwing. *)
Definition jobDone (fireAt : Z) w : OW := set_queue (jq_put fireAt (Some js_completed) (ow_queue w)) w.
Definition jobThrew (fireAt : Z) (last : bool) w : OW :=
  set_queue (jq_put fireAt (Some (if last then js_failed else js_waiting)) (ow_queue w)) w.

(** What a fire finds out before it commits. *)
Inductive Checks :=
| ck_disabled
| ck_held
| ck_throws (reason : string) (isFinal : bool)
| ck_passed.

Inductive OnceOp :=
| o_fire (fireAt : Z) (lastAttempt : bool) (now : Z)
| o_checks (i : nat) (c : Checks) (now : Z)
| o_poke (i : nat) (threw : bool)
| o_update (local : option Z) (now : Z)
| o_delivery (settled : bool)
| o_failure (reason : string)
| o_claim (now : Z)
| o_restore (now : Z)
| o_evict (fireAt : Z)
| o_crash
| o_retention (before : Z)
| o_delete.

(** [sync], of an enabled schedule. *)
Definition sync (now : Z) w : OW :=
  match ow_row w with
  | None => set_queue (jq_removePending (ow_queue w)) w
  | Some r =>
      let next := onceFireAt r now in
      let w := writeStatus None None (Some next) w in
      match next with
      | Some t => set_queue (enqueue t (ow_queue w)) w
      | None => set_queue (jq_removePending (ow_queue w)) w
      end
  end.

(** [fire] up to its first await after the row is read. *)
Definition fireBegins (fireAt : Z) (last : bool) (now : Z) w : OW :=
  let w := set_queue (jq_put fireAt (Some js_active) (ow_queue w)) w in
  match ow_row w with
  | None => jobDone fireAt w
  | Some r =>
      match onceFireAction r now with
      | fa_drop => jobDone fireAt w
      | fa_missed => jobDone fireAt (missed now w)
      | fa_poke => set_flights (ow_flights w ++ [mk_flight fireAt last fp_poke]) w
      | fa_commit expiresAt => set_flights (ow_flights w ++ [mk_flight fireAt last (fp_checks expiresAt)]) w
      end
  end.

Definition checksDone (i : nat) (c : Checks) (now : Z) w : OW :=
  match ow_flights w !! i with
  | Some (mk_flight fireAt last (fp_checks expiresAt)) =>
      let ended := set_flights (delete i (ow_flights w)) w in
      match c with
      | ck_disabled => jobDone fireAt (missed now ended)
      | ck_held =>
          let until := Z.min (nextUtcMidnight now) expiresAt in
          let w := writeStatus None None (Some (Some until)) ended in
          jobDone fireAt (set_queue (ensure until (ow_queue w)) w)
      | ck_throws reason isFinal =>
          let final := last || isFinal in
          let w := if final then writeStatus (Some now) (Some (Some reason)) (Some None) ended else ended in
          if final && negb last then jobDone fireAt w else jobThrew fireAt last w
      | ck_passed =>
          commitTrigger fireAt now (set_flights (<[i := mk_flight fireAt last fp_poke]> (ow_flights w)) w)
      end
  | _ => w
  end.

Definition pokeDone (i : nat) (threw : bool) w : OW :=
  match ow_flights w !! i with
  | Some (mk_flight fireAt last fp_poke) =>
      let w := set_flights (delete i (ow_flights w)) w in
      if threw then jobThrew fireAt last w else jobDone fireAt w
  | _ => w
  end.

(** [replaceResult] *)
Definition replaceResult (expected next : string) w : OW :=
  match ow_row w with
  | Some r =>
      if bool_decide (on_lastFiredResult r = Some expected) then writeStatus None (Some (Some next)) None w else w
  | None => w
  end.

(** [restoreOnce] *)
Definition restoreOnce (now : Z) w : OW :=
  match ow_row w with
  | None => w
  | Some r =>
      match lastRun r with
      | Some _ => w
      | None =>
          match onceFireAt r now with
          | Some at_ =>
              let next := match on_nextRun r with Some waiting => if at_ <? waiting then waiting else at_ | None => at_ end in
              let w := writeStatus None None (Some (Some next)) w in
              set_queue (ensure next (ow_queue w)) w
          | None => missed now w
          end
      end
  end.

(** [claimWaitingOnce], and the saga that calls it. *)
Definition claimWaitingOnce (now : Z) w : OW :=
  match ow_row w with
  | Some r =>
      if bool_decide (on_lastFiredAt r = None) && match on_nextRun r with Some n => now <? n | None => false end && (on_at r <=? now)
      then let w := writeStatus None None (Some (Some now)) w in set_queue (enqueue now (ow_queue w)) w
      else w
  | None => w
  end.

(** [updateOnce], from its read on. *)
Definition updateOnce (local : option Z) (now : Z) w : OW :=
  match ow_row w with
  | Some r =>
      match lastRun r, resolveOnceMoment local now with
      | None, Some at_ => sync now (set_row (Some (mk_once at_ (on_lastFiredAt r) (on_lastFiredResult r) (on_nextRun r))) w)
      | _, _ => w
      end
  | None => w
  end.

(** [deleteFinishedOnceOlderThan] *)
Definition retention (before : Z) w : OW :=
  match ow_row w with
  | Some r =>
      match on_lastFiredAt r, on_lastFiredResult r with
      | Some t, Some result =>
          if (t <? before) && negb (String.eqb result Delivering)
          then set_queue (jq_removePending (ow_queue w)) (set_row None w) else w
      | _, _ => w
      end
  | None => w
  end.

Definition o_step (op : OnceOp) w : OW :=
  match op with
  | o_fire fireAt last now =>
      match jobState (ow_queue w) fireAt with
      | Some js_waiting | Some js_active => fireBegins fireAt last now w
      | _ => w
      end
  | o_checks i c now => checksDone i c now w
  | o_poke i threw => pokeDone i threw w
  | o_update local now => updateOnce local now w
  | o_delivery settled => replaceResult Delivering (if settled then Success else Missed) w
  | o_failure reason => writeStatus None (Some (Some reason)) (Some None) w
  | o_claim now => claimWaitingOnce now w
  | o_restore now => restoreOnce now w
  | o_evict fireAt =>
      match jobState (ow_queue w) fireAt with
      | Some js_completed | Some js_failed => set_queue (jq_put fireAt None (ow_queue w)) w
      | _ => w
      end
  | o_crash => set_flights [] (set_queue (jq_stalled (ow_queue w)) w)
  | o_retention before => retention before w
  | o_delete => set_queue (jq_removePending (ow_queue w)) (set_row None w)
  end.

Definition o_run (ops : list OnceOp) w : OW := foldl (fun w op => o_step op w) w ops.

(** [createOnce]: the row, and [sync]. *)
Definition createOnce (at_ now : Z) (q : Q) : OW := sync now (mk_ow (Some (mk_once at_ None None None)) q [] []).

(** ** What holds at every step *)
Definition committing (f : Flight) : bool := match fl_phase f with fp_checks _ => true | fp_poke => false end.

Definition has_fired (r : OnceRow) : Prop := on_lastFiredAt r <> None /\ lastResult r <> None.
Definition unfired (r : OnceRow) : Prop := on_lastFiredAt r = None /\ on_lastFiredResult r = None.

Definition after_commit w : Prop := ow_events w <> [] \/ exists f, f ∈ ow_flights w /\ committing f = false.

Record once_ok w : Prop := mk_once_ok {
  ok_row : forall r, ow_row w = Some r -> has_fired r \/ unfired r;
  ok_committed : forall r, ow_row w = Some r -> after_commit w -> has_fired r;
}.

(** Reasons are not empty, and an outcome is reported of a trigger that was sent. *)
Definition reported_ok (op : OnceOp) w : Prop :=
  match op with
  | o_checks _ (ck_throws reason _) _ => truthy reason = true
  | o_failure reason => truthy reason = true /\ ow_events w <> []
  | _ => True
  end.

Lemma truthy_result r reason : truthy reason = true -> on_lastFiredResult r = Some reason -> lastResult r <> None.
Proof. intros Ht E. unfold lastResult, or_null. rewrite E. simpl. by rewrite Ht. Qed.

Lemma unfired_commits r now : unfired r -> onceFireAction r now = if onceExpiry r <=? now then fa_missed else fa_commit (onceExpiry r).
Proof. intros [_ E]. unfold onceFireAction, lastResult. by rewrite E. Qed.

Lemma fired_goes_on r now : has_fired r -> onceFireAction r now = fa_drop \/ onceFireAction r now = fa_poke.
Proof.
  intros [_ H]. unfold onceFireAction. destruct (lastResult r) as [x|]; [|done]. destruct (String.eqb _ _); [by right | by left].
Qed.

(** A step leaves the row as it was, deletes it, has it fired, or moves it
    within what it is. *)
Definition row_moves (row row' : option OnceRow) : Prop :=
  forall r', row' = Some r' -> has_fired r' \/ (unfired r' /\ exists r, row = Some r /\ unfired r).

Lemma row_moves_same row : (forall r, row = Some r -> has_fired r \/ unfired r) -> row_moves row row.
Proof. intros H r E. destruct (H r E); [by left | right]. split; [done | by exists r]. Qed.

Lemma row_moves_none row : row_moves row None.
Proof. by intros r. Qed.

Lemma written_row a b c w r' :
  ow_row (writeStatus a b c w) = Some r' ->
  exists r, ow_row w = Some r /\
  r' = mk_once (on_at r) (match a with Some t => Some t | None => on_lastFiredAt r end) (b ?? on_lastFiredResult r) (c ?? on_nextRun r).
Proof. simpl. destruct (ow_row w) as [r|]; simpl; [|done]. intros [= <-]. by exists r. Qed.

Lemma fires_row t result c w : truthy result = true -> row_moves (ow_row w) (ow_row (writeStatus (Some t) (Some (Some result)) c w)).
Proof.
  intros Ht r' E. destruct (written_row _ _ _ _ _ E) as (r & _ & ->). left. split; [done|]. by eapply truthy_result.
Qed.

Lemma reschedules_row c w :
  (forall r, ow_row w = Some r -> has_fired r \/ unfired r) -> row_moves (ow_row w) (ow_row (writeStatus None None c w)).
Proof.
  intros Hw r' E. destruct (written_row _ _ _ _ _ E) as (r & Er & ->). destruct (Hw r Er); [by left | right].
  split; [done | by exists r].
Qed.

Lemma fireBegins_row fireAt last now w :
  ow_row (fireBegins fireAt last now w) = ow_row w \/ ow_row (fireBegins fireAt last now w) = ow_row (missed now w).
Proof.
  unfold fireBegins, missed, writeStatus. simpl. destruct (ow_row w) as [r|] eqn:Er; simpl; [|by left].
  destruct (onceFireAction r now); simpl; rewrite ?Er; auto.
Qed.

Lemma step_row op w : once_ok w -> reported_ok op w -> row_moves (ow_row w) (ow_row (o_step op w)).
Proof.
  intros [Hr Hc] Hop. pose proof (row_moves_same _ Hr) as Hsame. destruct op; simpl.
  - destruct (jobState _ _) as [[]|]; try done;
      destruct (fireBegins_row fireAt lastAttempt now w) as [-> | ->]; try done; by apply fires_row.
  - unfold checksDone. destruct (ow_flights w !! i) as [[t last [e|]]|]; try done. destruct c.
    + exact (fires_row now Missed _ w eq_refl).
    + exact (reschedules_row _ w Hr).
    + simpl. destruct (last || isFinal); simpl; [|by destruct last]. destruct last; exact (fires_row now reason _ w Hop).
    + exact (fires_row now Delivering _ w eq_refl).
  - unfold pokeDone. destruct (ow_flights w !! i) as [[t last [e|]]|]; try done. by destruct threw.
  - unfold updateOnce. destruct (ow_row w) as [r|] eqn:Er; [|by rewrite Er].
    destruct (lastRun r) eqn:El; [by rewrite Er|]. destruct (resolveOnceMoment local now) as [t|]; [|by rewrite Er].
    assert (unfired r) as Hu by (destruct (Hr r eq_refl) as [[? _]|?]; done).
    unfold sync. simpl. intros r' E. right. split; [|by exists r]. destruct Hu. unfold unfired.
    destruct (onceFireAt _ now); simpl in E; simplify_eq; done.
  - unfold replaceResult. destruct (ow_row w) as [r|] eqn:Er; [|by rewrite Er]. case_bool_decide as E; [|by rewrite Er].
    intros r' E'. destruct (written_row None (Some (Some _)) None w r' E') as (r0 & Er0 & ->). rewrite Er in Er0. simplify_eq. left.
    destruct (Hr r0 eq_refl) as [[? _]|[_ ?]]; [|congruence]. split; [done|]. by destruct settled.
  - destruct Hop as [Ht Hev]. intros r' E. destruct (written_row None (Some (Some reason)) (Some None) w r' E) as (r & Er & ->). left.
    destruct (Hc r Er (or_introl Hev)) as [? _]. split; [done|]. by eapply truthy_result.
  - unfold claimWaitingOnce. destruct (ow_row w) as [r|] eqn:Er; [|by rewrite Er]. destruct (_ && _); simpl; [|by rewrite Er].
    rewrite Er. simpl. intros r' [= <-]. destruct (Hr r eq_refl); [by left | right]. split; [done | by exists r].
  - unfold restoreOnce. destruct (ow_row w) as [r|] eqn:Er; [|by rewrite Er]. destruct (lastRun r); [by rewrite Er|].
    rewrite <- Er. destruct (onceFireAt r now); [apply (reschedules_row _ w); by rewrite Er | exact (fires_row now Missed _ w eq_refl)].
  - destruct (jobState _ _) as [[]|]; done.
  - done.
  - unfold retention. destruct (ow_row w) as [r|] eqn:Er; [|by rewrite Er].
    destruct (on_lastFiredAt r); [|by rewrite Er]. destruct (on_lastFiredResult r); [|by rewrite Er]. destruct (_ && _); [done | by rewrite Er].
  - done.
Qed.
Lemma unfired_not_fired r : unfired r -> ~ has_fired r.
Proof. by intros [E _] [? _]. Qed.

(** Which flights and events a step leaves. *)
Lemma step_flights op w :
  let w' := o_step op w in
  (ow_flights w' `sublist_of` ow_flights w /\ ow_events w' = ow_events w) \/
  match op with
  | o_fire fireAt last now =>
      ow_events w' = ow_events w /\
      exists r, ow_row w = Some r /\ ow_row w' = Some r /\
      ((onceFireAction r now = fa_poke /\ ow_flights w' = ow_flights w ++ [mk_flight fireAt last fp_poke]) \/
       (exists e, onceFireAction r now = fa_commit e /\ ow_flights w' = ow_flights w ++ [mk_flight fireAt last (fp_checks e)]))
  | o_checks i ck_passed now =>
      exists fireAt last e, ow_flights w !! i = Some (mk_flight fireAt last (fp_checks e)) /\
      ow_flights w' = <[i := mk_flight fireAt last fp_poke]> (ow_flights w) /\
      ow_events w' = if bool_decide (fireAt ∈ ow_events w) then ow_events w else ow_events w ++ [fireAt]
  | _ => False
  end.
Proof.
  destruct op; simpl.
  - destruct (jobState _ _) as [[]|]; try (by left); unfold fireBegins; simpl; (destruct (ow_row w) as [r|] eqn:Er; [|by left]);
      (destruct (onceFireAction r now) eqn:Ea; [by left | right | by left | right]);
      (split; [done|]; exists r; split; [done|]; split; [by simpl|]); [by left | right; by eexists | by left | right; by eexists].
  - unfold checksDone. destruct (ow_flights w !! i) as [[t last [e|]]|] eqn:Ef; try (by left). destruct c.
    + left. split; [apply sublist_delete | done].
    + left. split; [apply sublist_delete | done].
    + left. destruct (last || isFinal); simpl; [|by destruct last; (split; [apply sublist_delete | done])].
      destruct last; simpl; (split; [apply sublist_delete | done]).
    + right. exists t, last, e. done.
  - unfold pokeDone. destruct (ow_flights w !! i) as [[t last [e|]]|] eqn:Ef; try (by left).
    left. destruct threw; (split; [apply sublist_delete | done]).
  - left. unfold updateOnce. destruct (ow_row w) as [r|]; [|done]. destruct (lastRun r); [done|].
    destruct (resolveOnceMoment _ _) as [t|]; [|done]. unfold sync. simpl. by destruct (onceFireAt _ _).
  - left. unfold replaceResult. destruct (ow_row w) as [r|]; [|done]. by case_bool_decide.
  - by left.
  - left. unfold claimWaitingOnce. destruct (ow_row w) as [r|]; [|done]. by destruct (_ && _).
  - left. unfold restoreOnce. destruct (ow_row w) as [r|]; [|done]. destruct (lastRun r); [done|]. by destruct (onceFireAt r now).
  - left. by destruct (jobState _ _) as [[]|].
  - left. split; [apply sublist_nil_l | done].
  - left. unfold retention. destruct (ow_row w) as [r|]; [|done]. destruct (on_lastFiredAt r), (on_lastFiredResult r); try done. by destruct (_ && _).
  - by left.
Qed.

Lemma step_keeps_ok op w : once_ok w -> reported_ok op w -> once_ok (o_step op w).
Proof.
  intros Hw Hop. pose proof (step_row op w Hw Hop) as Hm. destruct Hw as [Hr Hc]. split.
  - intros r' E. destruct (Hm r' E) as [?|[? _]]; [by left | by right].
  - intros r' E Ha. destruct (Hm r' E) as [?|[Hu (r & Er & Hur)]]; [done|]. exfalso.
    assert (~ after_commit w) as Hn by (intros Hx; by apply (unfired_not_fired r), Hc).
    pose proof (step_flights op w) as Hf. simpl in Hf. destruct Hf as [[Hsub Hev]|Hf].
    { apply Hn. destruct Ha as [Ha|(f & Hin & Hp)]; [left; by rewrite <- Hev | right]. exists f. split; [|done].
      by eapply elem_of_sublist. }
    destruct op; try done.
    + destruct Hf as (Hev & r0 & Er0 & _ & Hcase). rewrite Er in Er0. simplify_eq.
      rewrite unfired_commits in Hcase by done. destruct (onceExpiry r0 <=? now); [by destruct Hcase as [[? _]|(e & ? & _)]|].
      destruct Hcase as [[? _]|(e & _ & Efl)]; [done|]. apply Hn.
      destruct Ha as [Ha|(f & Hin & Hp)]; [left; by rewrite <- Hev | right]. rewrite Efl in Hin.
      apply elem_of_app in Hin as [Hin | ->%list_elem_of_singleton]; [by exists f | done].
    + destruct c; try done. destruct Hf as (t & last & e & Ef & _ & _). simpl in E. unfold checksDone in E. rewrite Ef in E.
      destruct (written_row (Some now) (Some (Some Delivering)) (Some None) w r' E) as (r0 & _ & ->). by destruct Hu.
Qed.

(** ** Once *)

(** Fires of different times are not under way together. *)
Definition alone (op : OnceOp) w : Prop :=
  match op with
  | o_fire fireAt _ _ => forall f, f ∈ ow_flights w -> committing f = true -> fl_fireAt f = fireAt
  | _ => True
  end.

Fixpoint run_alone (ops : list OnceOp) w : Prop :=
  match ops with
  | [] => True
  | op :: ops => alone op w /\ reported_ok op w /\ run_alone ops (o_step op w)
  end.

Definition one_event w : Prop :=
  exists t, (forall f, f ∈ ow_flights w -> committing f = true -> fl_fireAt f = t) /\ (ow_events w = [] \/ ow_events w = [t]).

Lemma step_one_event op w : once_ok w -> alone op w -> one_event w -> one_event (o_step op w).
Proof.
  intros [Hr Hc] Ha (t & Ht & Hev). pose proof (step_flights op w) as Hf. simpl in Hf. destruct Hf as [[Hsub E]|Hf].
  { exists t. split; [|by rewrite E]. intros f Hin. apply Ht. by eapply elem_of_sublist. }
  destruct op; try done.
  - destruct Hf as (E & r & Er & _ & [[_ Efl]|(e & Ea & Efl)]).
    + exists t. rewrite E, Efl. split; [|done]. intros f [Hin | ->%list_elem_of_singleton]%elem_of_app; [by apply Ht | done].
    + exists fireAt. rewrite E, Efl. split.
      * intros f [Hin | ->%list_elem_of_singleton]%elem_of_app; [by apply Ha | done].
      * left. destruct Hev as [?|Hev]; [done|]. exfalso.
        assert (has_fired r) as Hfr by (apply Hc; [done|]; left; by rewrite Hev).
        destruct (fired_goes_on r now Hfr) as [?|?]; congruence.
  - destruct c; try done. destruct Hf as (t' & last & e & Ef & Efl & Ee).
    assert (t' = t) as -> by (by apply (Ht (mk_flight t' last (fp_checks e))); [eapply list_elem_of_lookup_2|]).
    exists t. rewrite Efl, Ee. split.
    + intros f Hin Hp. apply list_elem_of_lookup in Hin as [j Hj]. apply list_lookup_insert_Some in Hj as [(<- & <- & _)|[_ Hj]]; [done|].
      apply Ht; [by eapply list_elem_of_lookup_2 | done].
    + right. destruct Hev as [-> | ->]; [done|]. by rewrite bool_decide_eq_true_2 by set_solver.
Qed.

Lemma create_row at_ now q : ow_row (createOnce at_ now q) = Some (mk_once at_ None None (onceFireAt (mk_once at_ None None None) now)).
Proof. unfold createOnce, sync. simpl. by destruct (onceFireAt _ now). Qed.

Lemma create_rest at_ now q : ow_flights (createOnce at_ now q) = [] /\ ow_events (createOnce at_ now q) = [].
Proof. unfold createOnce, sync. simpl. by destruct (onceFireAt _ now). Qed.

Lemma create_once_ok at_ now q : once_ok (createOnce at_ now q).
Proof.
  destruct (create_rest at_ now q) as [Ef Ee]. split.
  - intros r E. rewrite create_row in E. simplify_eq. by right.
  - intros r _ [Hx|(f & Hin & _)]; [by rewrite Ee in Hx|]. rewrite Ef in Hin. by apply elem_of_nil in Hin.
Qed.

(** C24: A one-time schedule runs once: however its jobs are repeated, stalled and
    run again, held, edited or resumed, and whatever fails, at most one trigger
    is sent to the agent, as long as fires for different times do not overlap. *)
Theorem once_runs_once at_ created q ops :
  run_alone ops (createOnce at_ created q) -> (length (ow_events (o_run ops (createOnce at_ created q))) <= 1)%nat.
Proof.
  destruct (create_rest at_ created q) as [Ef Ee].
  assert (one_event (createOnce at_ created q)) as H1.
  { exists 0. rewrite Ef, Ee. split; [|by left]. intros f Hin. by apply elem_of_nil in Hin. }
  pose proof (create_once_ok at_ created q) as Hok. revert H1 Hok. generalize (createOnce at_ created q). unfold o_run. clear.
  induction ops as [|op ops IH]; intros w H1 Hok Hrun; simpl.
  - destruct H1 as (t & _ & [-> | ->]); simpl; lia.
  - destruct Hrun as (Ha & Hrep & Hrun). apply IH; [by apply step_one_event | by apply step_keeps_ok | done].
Qed.

(** ** Never forgotten *)
Definition started (q : Q) (t : Z) : Prop := exists s, jobState q t = Some s /\ s <> js_waiting.

Definition op_clock (clock : Z) (op : OnceOp) : Z :=
  match op with
  | o_fire _ _ now | o_checks _ _ now | o_update _ now | o_claim now | o_restore now => now
  | _ => clock
  end.

(** Time goes forward and no job is started before its time; a fire that is held
    has not outlasted the window; and no job is asked for at a time one was
    already started at. *)
Definition timely (clock : Z) (op : OnceOp) w : Prop :=
  clock <= op_clock clock op /\
  match op with
  | o_fire fireAt _ now => fireAt <= now
  | o_checks i ck_held now => forall f e, ow_flights w !! i = Some f -> fl_phase f = fp_checks e -> now < e
  | o_update local now => forall t, resolveOnceMoment local now = Some t -> ~ started (ow_queue w) t
  | o_claim now => ~ started (ow_queue w) now
  | _ => True
  end.

Record waits_ok (clock : Z) w : Prop := mk_waits_ok {
  wo_started : forall t, started (ow_queue w) t -> t <= clock;
  wo_flights : forall f, f ∈ ow_flights w -> fl_fireAt f <= clock;
  wo_waiting : forall r, ow_row w = Some r -> unfired r ->
    (exists t, jobState (ow_queue w) t = Some js_waiting) \/
    (exists f, f ∈ ow_flights w /\ committing f = true /\ jobState (ow_queue w) (fl_fireAt f) = Some js_active);
}.

Lemma not_started q t : ~ started q t -> jobState q t = None \/ jobState q t = Some js_waiting.
Proof.
  intros H. destruct (jobState q t) as [[]|] eqn:E; [by right | | | |by left]; destruct H; eexists; by split.
Qed.

Lemma enqueue_waits t q : ~ started q t -> jobState (enqueue t q) t = Some js_waiting.
Proof.
  intros H. unfold enqueue. rewrite jq_add_state, decide_True by done. rewrite jq_remove_state.
  destruct (not_started q t H) as [-> | ->]; [by rewrite decide_False|]. by rewrite decide_True.
Qed.

Lemma enqueue_started t q u : ~ started q t -> started (enqueue t q) u -> started q u.
Proof.
  intros H (s & E & Hs). destruct (decide (u = t)) as [->|Hne].
  { rewrite enqueue_waits in E by done. congruence. }
  unfold enqueue in E. rewrite jq_add_state, decide_False, jq_remove_state in E by done.
  destruct (decide _); [done|]. by exists s.
Qed.

Lemma remove_started q u : started (jq_removePending q) u -> started q u.
Proof. intros (s & E & Hs). rewrite jq_remove_state in E. destruct (decide _); [done|]. by exists s. Qed.

Lemma ensure_waits t q : ~ started q t -> jobState (ensure t q) t = Some js_waiting.
Proof.
  intros H. unfold ensure. destruct (not_started q t H) as [E|E]; rewrite E; [|done]. by rewrite jq_add_state, decide_True, E.
Qed.

Lemma ensure_keeps t q u : jobState q u = Some js_waiting -> jobState (ensure t q) u = Some js_waiting.
Proof.
  intros E. unfold ensure. destruct (jobState q t) as [[]|] eqn:Et; try done.
  - rewrite jq_put_state. by destruct (decide (u = t)).
  - rewrite jq_add_state. destruct (decide (u = t)) as [->|]; [by rewrite Et | done].
Qed.

Lemma ensure_active t q u : jobState q u = Some js_active -> jobState (ensure t q) u = Some js_active.
Proof.
  intros E. unfold ensure. destruct (jobState q t) as [[]|] eqn:Et; try done.
  - rewrite jq_put_state, decide_False; [done|]. intros ->. congruence.
  - rewrite jq_add_state, decide_False; [done|]. intros ->. congruence.
Qed.

Lemma ensure_started t q u : started (ensure t q) u -> started q u.
Proof.
  intros (s & E & Hs). unfold ensure in E. destruct (jobState q t) as [[]|] eqn:Et; try (by exists s).
  - rewrite jq_put_state in E. destruct (decide (u = t)) as [->|]; [congruence | by exists s].
  - rewrite jq_add_state, Et in E. destruct (decide (u = t)) as [->|]; [simpl in E; congruence | by exists s].
Qed.

Lemma put_started t s q u : started (jq_put t s q) u -> u = t \/ started q u.
Proof. intros (s' & E & Hs). rewrite jq_put_state in E. destruct (decide (u = t)); [by left | right]. by exists s'. Qed.

(** A row that has fired, or is gone, waits for nothing. *)
Lemma waits_settled clock w :
  (forall r, ow_row w = Some r -> has_fired r) -> (forall t, started (ow_queue w) t -> t <= clock) ->
  (forall f, f ∈ ow_flights w -> fl_fireAt f <= clock) -> waits_ok clock w.
Proof. intros Hr Hs Hf. split; [done..|]. intros r E Hu. by destruct (unfired_not_fired r Hu (Hr r E)). Qed.

Lemma waits_later clock clock' w : clock <= clock' -> waits_ok clock w -> waits_ok clock' w.
Proof. intros Hle [Hs Hf Hw]. split; [| |done]; [intros t H; specialize (Hs t H) | intros f H; specialize (Hf f H)]; lia. Qed.

Lemma waits_row clock w row :
  waits_ok clock w -> (forall r, row = Some r -> has_fired r \/ exists r0, ow_row w = Some r0 /\ unfired r0) ->
  waits_ok clock (set_row row w).
Proof.
  intros [Hs Hf Hw] Hrow. split; [done..|]. simpl. intros r E Hu.
  destruct (Hrow r E) as [Hfr|(r0 & E0 & H0)]; [by destruct (unfired_not_fired r Hu Hfr) | by apply (Hw r0)].
Qed.

(** A job of the schedule ended, and the row says why. *)
Lemma waits_ended clock w t s l :
  waits_ok clock w -> t <= clock -> l `sublist_of` ow_flights w ->
  (forall r, ow_row w = Some r -> unfired r -> exists u, jobState (jq_put t s (ow_queue w)) u = Some js_waiting) ->
  waits_ok clock (set_flights l (set_queue (jq_put t s (ow_queue w)) w)).
Proof.
  intros [Hs Hf Hw] Ht Hl Hu. split.
  - simpl. intros u [->|H]%put_started; [done | by apply Hs].
  - simpl. intros f Hin. apply Hf. by eapply elem_of_sublist.
  - simpl. intros r E Hr. left. by eapply Hu.
Qed.

Lemma fire_waits clock fireAt last now w :
  once_ok w -> waits_ok clock w -> clock <= now -> fireAt <= now -> waits_ok now (fireBegins fireAt last now w).
Proof.
  intros [Hr _] [Hs Hf Hw] Hle Ht.
  assert (forall s u, started (jq_put fireAt s (jq_put fireAt (Some js_active) (ow_queue w))) u -> u <= now) as Hput.
  { intros s u [->|[->|H]%put_started]%put_started; [done..|]. specialize (Hs u H). lia. }
  assert (forall u, started (jq_put fireAt (Some js_active) (ow_queue w)) u -> u <= now) as Hput1.
  { intros u [->|H]%put_started; [done|]. specialize (Hs u H). lia. }
  assert (forall f, f ∈ ow_flights w -> fl_fireAt f <= now) as Hfl by (intros f Hin; specialize (Hf f Hin); lia).
  unfold fireBegins. simpl. destruct (ow_row w) as [r|] eqn:Er.
  2: { apply waits_settled; [by intros r E; simpl in E; rewrite Er in E | apply Hput | done]. }
  assert (forall p f, f ∈ ow_flights w ++ [mk_flight fireAt last p] -> fl_fireAt f <= now) as Hfl'.
  { intros p f [Hin | ->%list_elem_of_singleton]%elem_of_app; [by apply Hfl | done]. }
  destruct (Hr r eq_refl) as [Hfr|Hu].
  - assert (forall r', ow_row w = Some r' -> has_fired r') as Hfr' by (intros r' E; rewrite Er in E; by simplify_eq).
    destruct (fired_goes_on r now Hfr) as [-> | ->]; [apply waits_settled; [done | apply Hput | done]|].
    apply waits_settled; [done | apply Hput1 | apply Hfl'].
  - rewrite unfired_commits by done. destruct (onceExpiry r <=? now).
    + apply waits_settled; [|apply Hput | done]. intros r' E.
      destruct (fires_row now Missed (Some None) w eq_refl r' E) as [?|[[Hx _] _]]; [done|].
      destruct (written_row (Some now) (Some (Some Missed)) (Some None) w r' E) as (r0 & _ & ->). done.
    + split; [apply Hput1 | apply Hfl'|]. simpl. intros r' _ _. right. exists (mk_flight fireAt last (fp_checks (onceExpiry r))).
      split; [set_solver|]. split; [done|]. simpl. by rewrite jq_put_state, decide_True.
Qed.

Lemma written_fired now result c w r' :
  truthy result = true -> ow_row (writeStatus (Some now) (Some (Some result)) c w) = Some r' -> has_fired r'.
Proof. intros Ht E. destruct (written_row _ _ _ _ _ E) as (r & _ & ->). split; [done|]. by eapply truthy_result. Qed.

Lemma midnight_ahead now : now < nextUtcMidnight now.
Proof.
  unfold nextUtcMidnight. pose proof (Z.mod_pos_bound now MS_PER_DAY ltac:(done)). pose proof (Z.div_mod now MS_PER_DAY ltac:(done)).
  unfold MS_PER_DAY in *. lia.
Qed.

Lemma checks_waits clock i c now w :
  waits_ok clock w -> reported_ok (o_checks i c now) w -> clock <= now ->
  (c = ck_held -> forall f e, ow_flights w !! i = Some f -> fl_phase f = fp_checks e -> now < e) ->
  waits_ok now (checksDone i c now w).
Proof.
  intros Hw0 Hrep Hle Hheld. pose proof (waits_later _ _ _ Hle Hw0) as Hw.
  unfold checksDone. destruct (ow_flights w !! i) as [[t last [e|]]|] eqn:Ef; [|done..].
  assert (t <= clock) as Ht by (apply (wo_flights _ _ Hw0 (mk_flight t last (fp_checks e))); by eapply list_elem_of_lookup_2).
  assert (delete i (ow_flights w) `sublist_of` ow_flights w) as Hsub by apply sublist_delete.
  assert (forall q, (forall u, started q u -> u = t \/ started (ow_queue w) u) -> forall u, started q u -> u <= now) as Hst.
  { intros q Hq u H. destruct (Hq u H) as [->|Hu]; [lia | by apply (wo_started _ _ Hw)]. }
  assert (forall f, f ∈ delete i (ow_flights w) -> fl_fireAt f <= now) as Hfl.
  { intros f Hin. apply (wo_flights _ _ Hw). by eapply elem_of_sublist. }
  destruct c as [| |reason isFinal|].
  - apply waits_settled; [|apply Hst; intros u; apply put_started | exact Hfl].
    intros r' E. by apply (written_fired now Missed (Some None) w).
  - assert (now < e) as He by (by eapply Hheld).
    pose proof (midnight_ahead now) as Hm. set (until := Z.min _ _).
    assert (~ started (ow_queue w) until) as Hns by (intros H; apply (wo_started _ _ Hw0) in H; unfold until in H; lia).
    split; [apply Hst; intros u [->|H]%put_started; [by left | right; exact (ensure_started until _ u H)] | exact Hfl|].
    intros r _ _. left. exists until. simpl. rewrite jq_put_state, decide_False by (unfold until; lia). by apply ensure_waits.
  - destruct (last || isFinal) eqn:El.
    + assert (forall r', ow_row (writeStatus (Some now) (Some (Some reason)) (Some None) w) = Some r' -> has_fired r') as Hfr.
      { intros r' E. by apply (written_fired now reason (Some None) w). }
      destruct last; simpl; (apply waits_settled; [exact Hfr | apply Hst; intros u; apply put_started | exact Hfl]).
    + apply orb_false_iff in El as [-> ->]. simpl. unfold jobThrew. apply (waits_ended now w t (Some js_waiting)); [done | lia | done|].
      intros r _ _. exists t. by rewrite jq_put_state, decide_True.
  - apply waits_settled; [intros r' E; by apply (written_fired now Delivering (Some None) w) | apply (wo_started _ _ Hw)|].
    simpl. intros f Hin. apply list_elem_of_lookup in Hin as [j Hj].
    apply list_lookup_insert_Some in Hj as [(_ & <- & _)|[_ Hj]]; [simpl; lia|].
    apply (wo_flights _ _ Hw). by eapply list_elem_of_lookup_2.
Qed.

Lemma poke_waits clock i threw w : once_ok w -> waits_ok clock w -> waits_ok clock (pokeDone i threw w).
Proof.
  intros [_ Hc] Hw. unfold pokeDone. destruct (ow_flights w !! i) as [[t last [e|]]|] eqn:Ef; try done.
  assert (mk_flight t last fp_poke ∈ ow_flights w) as Hin by (by eapply list_elem_of_lookup_2).
  assert (forall r, ow_row w = Some r -> has_fired r) as Hfr by (intros r E; apply Hc; [done|]; right; by eexists).
  pose proof (wo_flights _ _ Hw _ Hin) as Ht. simpl in Ht.
  assert (forall s u, started (jq_put t s (ow_queue w)) u -> u <= clock) as Hst.
  { intros s u [->|H]%put_started; [done | by apply (wo_started _ _ Hw)]. }
  destruct threw; (apply waits_settled; [exact Hfr | apply Hst|]); intros f Hf; apply (wo_flights _ _ Hw);
    by eapply elem_of_sublist; [exact Hf | apply sublist_delete].
Qed.

(** The row is written and the queue asked for [t]. *)
Lemma enqueue_waits_ok clock w t row :
  waits_ok clock w -> ~ started (ow_queue w) t -> waits_ok clock (set_queue (enqueue t (ow_queue w)) (set_row row w)).
Proof.
  intros [Hs Hf Hw] Ht. split; [|done|]; simpl.
  - intros u H. apply Hs. by eapply enqueue_started.
  - intros r _ _. left. exists t. by apply enqueue_waits.
Qed.

Lemma update_waits clock local now w :
  waits_ok clock w -> clock <= now -> (forall t, resolveOnceMoment local now = Some t -> ~ started (ow_queue w) t) ->
  waits_ok now (updateOnce local now w).
Proof.
  intros Hw Hle Hns. apply (waits_later _ _ _ Hle) in Hw. unfold updateOnce. destruct (ow_row w) as [r|] eqn:Er; [|done].
  destruct (lastRun r) eqn:El; [done|]. destruct (resolveOnceMoment local now) as [t|] eqn:Em; [|done]. specialize (Hns t eq_refl).
  unfold sync. simpl. unfold onceFireAt. simpl. unfold lastRun in *. simpl. rewrite El.
  assert (now < onceExpiry (mk_once t (on_lastFiredAt r) (on_lastFiredResult r) (on_nextRun r))) as Hlt.
  { unfold onceExpiry, ONCE_DELIVERY_WINDOW_MS. simpl. unfold resolveOnceMoment, CREATE_SKEW_MS in Em.
    destruct local as [l|]; [destruct (Z.ltb_spec l (now - 60000)); [done|]|]; simplify_eq; lia. }
  rewrite El in Hlt. rewrite (proj2 (Z.ltb_lt _ _)) by exact Hlt. exact (enqueue_waits_ok now w t _ Hw Hns).
Qed.

Lemma restore_waits clock now w : waits_ok clock w -> clock <= now -> waits_ok now (restoreOnce now w).
Proof.
  intros Hw Hle. apply (waits_later _ _ _ Hle) in Hw. unfold restoreOnce. destruct (ow_row w) as [r|] eqn:Er; [|done].
  destruct (lastRun r) eqn:El; [done|]. destruct (onceFireAt r now) as [at_|].
  - set (next := match on_nextRun r with Some waiting => _ | None => at_ end). destruct Hw as [Hs Hf Hw]. split; simpl.
    + intros u H. apply Hs. by eapply ensure_started.
    + done.
    + intros r' E Hu. rewrite Er in E. simpl in E. simplify_eq.
      destruct (Hw r Er) as [(t & Et)|(f & Hin & Hp & Et)]; [by destruct Hu; split | left | right].
      * exists t. by apply ensure_keeps.
      * exists f. split; [done|]. split; [done|]. by apply ensure_active.
  - apply waits_settled; [|apply (wo_started _ _ Hw) | apply (wo_flights _ _ Hw)].
    intros r' E. by apply (written_fired now Missed (Some None) w).
Qed.

Lemma write_waits clock a b c w :
  once_ok w -> once_ok (writeStatus a b c w) -> waits_ok clock w ->
  (forall r r', ow_row w = Some r -> ow_row (writeStatus a b c w) = Some r' -> unfired r' -> unfired r) ->
  waits_ok clock (writeStatus a b c w).
Proof.
  intros _ Hok Hw Hu. apply (waits_row clock w _ Hw). intros r' E.
  destruct (ok_row _ Hok r' E) as [?|Hr]; [by left | right].
  destruct (written_row a b c w r' E) as (r & Er & _). exists r. split; [done|]. by apply (Hu r r').
Qed.

Lemma delivery_waits clock expected next w : waits_ok clock w -> waits_ok clock (replaceResult expected next w).
Proof.
  intros Hw. unfold replaceResult. destruct (ow_row w) as [r|] eqn:Er; [|done]. case_bool_decide as E; [|done].
  destruct Hw as [Hs Hf Hw]. split; [done..|]. simpl. rewrite Er. simpl. intros r' [= <-] [H1 H2]. done.
Qed.

Lemma failure_waits clock reason w : waits_ok clock w -> waits_ok clock (writeStatus None (Some (Some reason)) (Some None) w).
Proof.
  intros [Hs Hf Hw]. split; [done..|]. simpl. destruct (ow_row w) as [r|]; simpl; [|done]. intros r' [= <-] [_ H]. done.
Qed.

Lemma claim_waits clock now w :
  waits_ok clock w -> clock <= now -> ~ started (ow_queue w) now -> waits_ok now (claimWaitingOnce now w).
Proof.
  intros Hw Hle Hns. apply (waits_later _ _ _ Hle) in Hw. unfold claimWaitingOnce.
  destruct (ow_row w) as [r|]; [|done]. destruct (_ && _); [|done]. exact (enqueue_waits_ok now w now _ Hw Hns).
Qed.

Lemma evict_waits clock t w : waits_ok clock w -> waits_ok clock (o_step (o_evict t) w).
Proof.
  intros [Hs Hf Hw]. simpl. destruct (jobState (ow_queue w) t) as [x|] eqn:E; [|done].
  destruct (decide (x = js_waiting \/ x = js_active)) as [[-> | ->]|Hx]; [done..|].
  assert (waits_ok clock (set_queue (jq_put t None (ow_queue w)) w)) as H; [|by destruct x; try done].
  split; [|done|]; simpl.
  - intros u (s & Eu & Hs'). rewrite jq_put_state in Eu. destruct (decide (u = t)); [done|]. apply Hs. by exists s.
  - intros r Er Hu. destruct (Hw r Er Hu) as [(u & Eu)|(f & Hin & Hp & Eu)].
    + left. exists u. rewrite jq_put_state, decide_False; [done|]. intros ->. rewrite E in Eu. simplify_eq. tauto.
    + right. exists f. split; [done|]. split; [done|]. rewrite jq_put_state, decide_False; [done|].
      intros Et. rewrite <- Et, Eu in E. simplify_eq. tauto.
Qed.

Lemma crash_waits clock w : waits_ok clock w -> waits_ok clock (o_step o_crash w).
Proof.
  intros [Hs Hf Hw]. split; simpl.
  - intros u (s & Eu & Hs'). rewrite jq_stalled_state in Eu. destruct (decide _); [congruence|]. apply Hs. by exists s.
  - intros f Hin. by apply elem_of_nil in Hin.
  - intros r Er Hu. left. destruct (Hw r Er Hu) as [(u & Eu)|(f & Hin & Hp & Eu)].
    + exists u. rewrite jq_stalled_state, decide_False; [done | congruence].
    + exists (fl_fireAt f). by rewrite jq_stalled_state, decide_True.
Qed.

Lemma gone_waits clock w : waits_ok clock w -> waits_ok clock (set_queue (jq_removePending (ow_queue w)) (set_row None w)).
Proof. intros [Hs Hf _]. split; [|done|done]. simpl. intros u H. apply Hs. by apply remove_started. Qed.

Lemma step_waits clock op w :
  once_ok w -> reported_ok op w -> timely clock op w -> waits_ok clock w -> waits_ok (op_clock clock op) (o_step op w).
Proof.
  intros Hok Hrep [Hle Ht] Hw. destruct op.
  - simpl in *. assert (waits_ok now w) by exact (waits_later _ _ _ Hle Hw). destruct (jobState _ _) as [[]|]; try done; by apply (fire_waits clock).
  - simpl in *. apply (checks_waits clock); [done..|]. by intros ->.
  - by apply poke_waits.
  - simpl in *. by apply (update_waits clock).
  - by apply delivery_waits.
  - by apply failure_waits.
  - simpl in *. by apply (claim_waits clock).
  - simpl in *. by apply (restore_waits clock).
  - by apply evict_waits.
  - by apply crash_waits.
  - simpl. unfold retention. destruct (ow_row w) as [r|]; [|done].
    destruct (on_lastFiredAt r), (on_lastFiredResult r); try done. destruct (_ && _); [by apply gone_waits | done].
  - by apply gone_waits.
Qed.

Fixpoint run_timely (clock : Z) (ops : list OnceOp) w : Prop :=
  match ops with
  | [] => True
  | op :: ops => reported_ok op w /\ timely clock op w /\ run_timely (op_clock clock op) ops (o_step op w)
  end.

Lemma run_waits ops w clock :
  once_ok w -> waits_ok clock w -> run_timely clock ops w -> exists clock', once_ok (o_run ops w) /\ waits_ok clock' (o_run ops w).
Proof.
  revert w clock. induction ops as [|op ops IH]; intros w clock Hok Hw Hrun; [by exists clock|].
  destruct Hrun as (Hrep & Ht & Hrun). unfold o_run. simpl.
  by apply (IH _ (op_clock clock op)); [apply step_keeps_ok | apply step_waits |].
Qed.

End Once.

(** ** At concrete inputs *)

(** A queue as a function from fire times. *)
#[export] Instance function_queue : JobQueue (Z -> option JobState).
Proof.
  refine (mk_queue _ (fun q => q) (fun t q u => if decide (u = t) then Some (q t ?? js_waiting) else q u)
    (fun q u => if decide (q u = Some js_waiting) then None else q u)
    (fun t s q u => if decide (u = t) then s else q u)
    (fun q u => if decide (q u = Some js_active) then Some js_waiting else q u) _ _ _ _); done.
Defined.

Definition no_jobs : Z -> option JobState := fun _ => None.

(** Asked for at 1000; the first fire is held for the day, the process dies in
    the second, and the job is run again. *)
Definition heldThenRun : list OnceOp :=
  [o_fire 1000 false 1001; o_checks 0 ck_held 1002; o_fire MS_PER_DAY false MS_PER_DAY; o_crash;
   o_fire MS_PER_DAY true (MS_PER_DAY + 5); o_checks 0 ck_passed (MS_PER_DAY + 6); o_poke 0 false; o_delivery true;
   o_fire MS_PER_DAY true (MS_PER_DAY + 9)].

Ltac no_flight := let f := fresh "f" in let H := fresh "H" in
  intros f H; destruct (not_elem_of_nil f H).

Lemma once_runs_once_witness :
  ow_events (o_run heldThenRun (createOnce 1000 900 no_jobs)) = [MS_PER_DAY] /\
  (length (ow_events (o_run heldThenRun (createOnce 1000 900 no_jobs))) <= 1)%nat.
Proof.
  split; [by vm_compute|]. apply (once_runs_once 1000 900 no_jobs heldThenRun).
  repeat (split; [first [done | no_flight]|]). done.
Defined.


(** The task is edited to run now while the fire of its old time is waking the
    agent: both fires have read a row that has not fired, and it runs twice. *)
Example edited_under_way_runs_twice :
  ow_events (o_run [o_fire 1000 false 1001; o_update None 1500; o_fire 1500 false 1500; o_checks 0 ck_passed 2000; o_checks 1 ck_passed 2001]
    (createOnce 1000 900 no_jobs)) = [1000; 1500].
Proof. by vm_compute. Qed.

(** A fire held by a replica whose clock is behind asks for the job it runs in,
    which exists, so nothing waits; and a restart does not help while the queue
    remembers that job. *)
Example early_hold_is_forgotten :
  let w := o_run [o_fire 1000 false 1001; o_checks 0 ck_held 1002; o_fire MS_PER_DAY false (MS_PER_DAY - 3); o_checks 0 ck_held (MS_PER_DAY - 2);
                  o_restore (MS_PER_DAY + 100)] (createOnce 1000 900 no_jobs) in
  option_map (fun r => (onceState r, on_nextRun r)) (ow_row w) = Some (os_pending, Some MS_PER_DAY) /\
  jobState (ow_queue w) MS_PER_DAY = Some js_completed /\ ow_flights w = [].
Proof. split_and!; by vm_compute. Qed.
