(* ===== verification/ScheduleRuns.v ===== *)
(** Recurring schedules
    (packages/api-server/src/modules/schedules/services/scheduler-runner.ts,
    domain/status-transitions.ts, domain/recurrences.ts): one fire of a schedule
    with everything that can fail in it, and what the verdicts of its precheck
    add up to.

    [fire] is an [IO] computation: each read and write of the table, each call of
    the queue, the trigger's transaction and the poke may fail, before or after
    their effect.  When the agent, the payload and the spend check answer
    otherwise is given with the fire ([FireInput]).  When a schedule fires next is
    an argument: cron expressions and recurrence rules are parsed by libraries. *)
From stdpp Require Import base strings list sets.
From Stdlib Require Import ZArith Lia.
From S2P Require Import Prelude ScheduleOnce.
Local Open Scope Z_scope.

Definition TRIGGER_TTL_SECONDS : Z := 3600.

(** ** What a verdict writes *)
Inductive PrecheckVerdict := pv_allowed | pv_declined | pv_failed.
Inductive CounterWrite := cw_increment | cw_reset.

Record ScheduleStatusPatch := mk_patch {
  sp_lastFiredAt : option Z;
  sp_lastFiredResult : option (option string);
  sp_lastDeclinedAt : option Z;
  sp_declinedCount : CounterWrite;
  sp_lastPrecheckError : option string;
  sp_precheckFailedCount : CounterWrite;
}.

(** [result.startsWith("held:")] *)
Definition isFailureResult (result : option string) : bool :=
  match result with
  | None => false
  | Some result => truthy result && negb (String.eqb result Success || String.eqb result Delivering) && negb (String.prefix "held:" result)
  end.

Definition statusForVerdict (verdict : PrecheckVerdict) (at_ : Z) (detail : option string) (lastResult : option string) : ScheduleStatusPatch :=
  match verdict with
  | pv_declined =>
      mk_patch None (if isFailureResult lastResult then Some None else None) (Some at_) cw_increment None cw_reset
  | _ =>
      let broke := match verdict with pv_failed => true | _ => false end in
      mk_patch (Some at_) (Some (Some Success)) None cw_reset (if broke then detail else None) (if broke then cw_increment else cw_reset)
  end.

Record SchedRow := mk_sched {
  sd_enabled : bool;
  sd_precheck : option string;
  sd_lastFiredAt : option Z;
  sd_lastFiredResult : option string;
  sd_nextRun : option Z;
  sd_lastDeclinedAt : option Z;
  sd_declinedCount : nat;
  sd_lastPrecheckError : option string;
  sd_precheckFailedCount : nat;
}.
Definition sd_lastResult (r : SchedRow) : option string := sd_lastFiredResult r ≫= or_null.

Definition counter (old : nat) (write : CounterWrite) : nat := match write with cw_increment => S old | cw_reset => 0%nat end.

Definition applyStatusPatch (p : ScheduleStatusPatch) (r : SchedRow) : SchedRow :=
  mk_sched (sd_enabled r) (sd_precheck r)
    (match sp_lastFiredAt p with Some t => Some t | None => sd_lastFiredAt r end)
    (sp_lastFiredResult p ?? sd_lastFiredResult r) (sd_nextRun r) (sp_lastDeclinedAt p) (counter (sd_declinedCount r) (sp_declinedCount p))
    (sp_lastPrecheckError p) (counter (sd_precheckFailedCount r) (sp_precheckFailedCount p)).

Definition clearPrecheckStatus (r : SchedRow) : SchedRow :=
  mk_sched (sd_enabled r) (sd_precheck r) (sd_lastFiredAt r) (sd_lastFiredResult r) (sd_nextRun r) None 0 None 0.

Definition writeStatus (lastFiredAt : option Z) (lastFiredResult : option (option string)) (nextRun : option (option Z)) (r : SchedRow) : SchedRow :=
  mk_sched (sd_enabled r) (sd_precheck r) (match lastFiredAt with Some t => Some t | None => sd_lastFiredAt r end)
    (lastFiredResult ?? sd_lastFiredResult r) (nextRun ?? sd_nextRun r) (sd_lastDeclinedAt r) (sd_declinedCount r)
    (sd_lastPrecheckError r) (sd_precheckFailedCount r).

(** ** A fire *)
Record SW := mk_sw {
  sw_row : option SchedRow;
  (** what the queue was asked for: one waiting job, as [enqueue] removes the others *)
  sw_waiting : option Z;
  (** the triggers inserted, with their expiry, by fire time *)
  sw_events : list (Z * Z);
  sw_fired : list bool;
}.

Inductive SpendHoldReason := sh_limit | sh_ceiling.
Definition held_result (r : SpendHoldReason) : string :=
  match r with sh_limit => "held: spend limit reached for today" | sh_ceiling => "held: spend ceiling reached for today" end.

(** What the fire finds: the payload throws with a reason that is final or not. *)
Record FireInput := mk_fire {
  fi_fireAt : Z;
  fi_lastAttempt : bool;
  fi_now : Z;
  (** the agent's state can be asked for *)
  fi_answers : bool;
  fi_onboardingPending : bool;
  fi_agentDisabled : bool;
  fi_payload : option (string * bool);
  fi_held : option SpendHoldReason;
  fi_reason : string;
}.

Section Fire.
Context (nextFireAt : Z -> option Z).

Definition triggerExpiry (firedAt : Z) (next : option Z) (ttlSec : Z) : Z :=
  let byTtl := firedAt + ttlSec * 1000 in
  match next with
  | Some n => if n <=? firedAt then byTtl else Z.min byTtl n
  | None => byTtl
  end.

Definition getById : IO SW (option SchedRow) := io_op (fun w => (w, sw_row w)).
Definition write (a : option Z) (b : option (option string)) (c : option (option Z)) : IO SW unit :=
  io_op (fun w => (mk_sw (option_map (writeStatus a b c) (sw_row w)) (sw_waiting w) (sw_events w) (sw_fired w), tt)).
Definition enqueue (fireAt : Z) : IO SW unit := io_op (fun w => (mk_sw (sw_row w) (Some fireAt) (sw_events w) (sw_fired w), tt)).
Definition enqueue_next (next : option Z) : IO SW unit := match next with Some t => enqueue t | None => io_ret tt end.

(** The event's id is the schedule and the fire time, and a second insert does
    nothing. *)
Definition commitTrigger (fireAt expiresAt : Z) : IO SW unit :=
  io_op (fun w => (mk_sw (sw_row w) (sw_waiting w)
    (if bool_decide (fireAt ∈ map fst (sw_events w)) then sw_events w else sw_events w ++ [(fireAt, expiresAt)]) (sw_fired w), tt)).
Definition pokeAgent : IO SW unit := io_op (fun w => (w, tt)).

(** [emitFired] looks the owner up and swallows what that throws. *)
Definition emitFired (success : bool) : IO SW unit :=
  swallow (io_op (fun w => (mk_sw (sw_row w) (sw_waiting w) (sw_events w) (sw_fired w ++ [success]), tt))).

Definition hold (result : string) (now : Z) : IO SW unit :=
  let after := nextFireAt now in
  run* swallow (write None (Some (Some result)) (Some after)) in
  enqueue_next after.

Inductive Stage := sg_commit | sg_poke.

(** The [catch] of [fire]. *)
Definition fireFailed (i : FireInput) (stage : Stage) (reason : string) (isFinal : bool) : IO SW unit :=
  let final := fi_lastAttempt i || isFinal in
  let after := if final then nextFireAt (fi_now i) else Some (fi_fireAt i) in
  run* swallow (match stage with
                | sg_commit => write None (Some (Some reason)) (Some after)
                | sg_poke => write (Some (fi_now i)) (Some (Some reason)) (Some after)
                end) in
  run* (if final then run* enqueue_next after in emitFired false else io_ret tt) in
  if final && negb (fi_lastAttempt i) then io_ret tt else io_throw.

(** After the poke. *)
Definition fireDone (i : FireInput) (sched : SchedRow) : IO SW unit :=
  let next := nextFireAt (fi_now i) in
  run* (match sd_precheck sched with
        | None => write (Some (fi_now i)) (Some (Some Success)) (Some next)
        | Some _ => if isFailureResult (sd_lastResult sched) then write None (Some None) (Some next) else write None None (Some next)
        end) in
  run* enqueue_next next in
  emitFired true.

(** [m], and [k] behind it; what [m] throws goes to [h]. *)
Definition try_ (m : IO SW unit) (h k : IO SW unit) : IO SW unit := fun w =>
  match m w with (w, Ok _) => k w | (w, Throw) => h w end.

Definition fire (i : FireInput) : IO SW unit :=
  let* sched := getById in
  match sched with
  | None => io_ret tt
  | Some sched =>
      if negb (sd_enabled sched) then io_ret tt
      else if negb (fi_answers i) then io_throw
      else if fi_onboardingPending i then hold "held: onboarding not complete" (fi_now i)
      else if fi_agentDisabled i then hold "held: agent disabled" (fi_now i)
      else
        let expiresAt := triggerExpiry (fi_now i) (nextFireAt (fi_now i)) TRIGGER_TTL_SECONDS in
        match fi_payload i with
        | Some (reason, isFinal) => fireFailed i sg_commit reason isFinal
        | None =>
            match fi_held i with
            | Some reason => io_catch (hold (held_result reason) (fi_now i)) (fireFailed i sg_commit (fi_reason i) false)
            | None =>
                try_ (commitTrigger (fi_fireAt i) expiresAt) (fireFailed i sg_commit (fi_reason i) false)
                  (try_ pokeAgent (fireFailed i sg_poke (fi_reason i) false) (fireDone i sched))
            end
        end
  end.

(** ** The chain of fires *)
Lemma io_bind_inv {S A B} (m : IO S A) (k : A -> IO S B) w w' b :
  io_bind m k w = (w', Ok b) -> exists w1 a, m w = (w1, Ok a) /\ k a w1 = (w', Ok b).
Proof. unfold io_bind. destruct (m w) as [w1 [a|]]; [|done]. intros E. by exists w1, a. Qed.

Lemma io_op_inv {S A} (f : S -> S * A) w w' a : io_op f w = (w', Ok a) -> io_st w' = (f (io_st w)).1 /\ a = (f (io_st w)).2.
Proof. unfold io_op. destruct (io_faults w) as [|[] fs]; try done; destruct (f (io_st w)); intros E; by simplify_eq. Qed.

Definition waiting (w : io SW) : option Z := sw_waiting (io_st w).

Lemma enqueue_next_waits next w w' t : next = Some t -> enqueue_next next w = (w', Ok tt) -> waiting w' = Some t.
Proof. intros -> [E _]%io_op_inv. unfold waiting. by rewrite E. Qed.

Lemma emit_keeps success w w' : emitFired success w = (w', Ok tt) -> waiting w' = waiting w.
Proof.
  unfold emitFired, swallow, io_catch, io_op, io_ret, waiting. destruct (io_faults w) as [|[] fs]; simpl; intros E; simplify_eq; done.
Qed.

Lemma hold_queues result now n w w' : nextFireAt now = Some n -> hold result now w = (w', Ok tt) -> waiting w' = Some n.
Proof. intros En E. unfold hold in E. apply io_bind_inv in E as (w1 & [] & _ & E). by eapply enqueue_next_waits. Qed.

Lemma failed_queues i stage reason isFinal n w w' :
  nextFireAt (fi_now i) = Some n -> fireFailed i stage reason isFinal w = (w', Ok tt) -> waiting w' = Some n.
Proof.
  intros En E. unfold fireFailed in E. apply io_bind_inv in E as (w1 & [] & _ & E). apply io_bind_inv in E as (w2 & [] & E2 & E).
  destruct (fi_lastAttempt i || isFinal); [|done]. destruct (negb _); [|done]. injection E as <-.
  apply io_bind_inv in E2 as (w3 & [] & E3 & E2). rewrite (emit_keeps _ _ _ E2). by eapply enqueue_next_waits.
Qed.

Lemma done_queues i sched n w w' : nextFireAt (fi_now i) = Some n -> fireDone i sched w = (w', Ok tt) -> waiting w' = Some n.
Proof.
  intros En E. unfold fireDone in E. apply io_bind_inv in E as (w1 & [] & _ & E). apply io_bind_inv in E as (w2 & [] & E2 & E).
  rewrite (emit_keeps _ _ _ E). by eapply enqueue_next_waits.
Qed.


(** ** Triggers *)

(** At most the trigger [ev] is added, and only where its fire time is new. *)
Definition grows (ev : Z * Z) (l l' : list (Z * Z)) : Prop := l' = l \/ (ev.1 ∉ map fst l /\ l' = l ++ [ev]).
Definition adding (ev : Z * Z) (l : list (Z * Z)) (s : SW) : Prop := grows ev l (sw_events s).
Notation adds ev l m := (io_keeps (adding ev l) m).

Lemma grows_trans ev l l1 l2 : grows ev l l1 -> grows ev l1 l2 -> grows ev l l2.
Proof.
  intros [->|[H1 ->]] [->|[H2 ->]]; [by left | by right | by right|]. destruct H2. rewrite map_app. set_solver.
Qed.

Lemma adds_try ev l m h k : adds ev l m -> adds ev l h -> adds ev l k -> adds ev l (try_ m h k).
Proof.
  intros Hm Hh Hk w Hw HP. unfold try_. specialize (Hm w Hw HP). destruct (m w) as [w1 [a|]]; destruct Hm as [Hw1 H1]; [by apply Hk | by apply Hh].
Qed.
Lemma adds_op {A} ev l (f : SW -> SW * A) : (forall s, grows ev (sw_events s) (sw_events (f s).1)) -> adds ev l (io_op f).
Proof. intros Hf. apply keeps_op. intros s Hs. by eapply grows_trans. Qed.
Lemma adds_commit fireAt expiresAt l : adds (fireAt, expiresAt) l (commitTrigger fireAt expiresAt).
Proof. apply adds_op. intros s. simpl. case_bool_decide; [by left | by right]. Qed.

#[local] Hint Resolve adds_try adds_commit : io_keeps.
#[local] Hint Extern 1 (io_triple _ _ (io_op _) _ _) => (apply adds_op; intros; by left) : io_keeps.

Lemma fire_adds i l : adds (fi_fireAt i, triggerExpiry (fi_now i) (nextFireAt (fi_now i)) TRIGGER_TTL_SECONDS) l (fire i).
Proof.
  assert (forall ev next, adds ev l (enqueue_next next)) as Hq by (intros ev [t|]; unfold enqueue_next, enqueue; auto with io_keeps).
  assert (forall ev m, adds ev l m -> adds ev l (swallow m)) as Hs by (intros; unfold swallow; auto with io_keeps).
  assert (forall ev a b c, adds ev l (write a b c)) as Hw by (intros; unfold write; auto with io_keeps).
  assert (forall ev b, adds ev l (emitFired b)) as He by (intros; unfold emitFired; auto with io_keeps).
  assert (forall ev result now, adds ev l (hold result now)) as Hh by (intros; unfold hold; auto with io_keeps).
  assert (forall ev stage reason isFinal, adds ev l (fireFailed i stage reason isFinal)) as Hf.
  { intros ev stage reason isFinal. unfold fireFailed. apply keeps_bind; [apply Hs; destruct stage; auto|]. intros _.
    apply keeps_bind; [destruct (_ || _); auto with io_keeps|]. intros _. destruct (_ && _); auto with io_keeps. }
  assert (forall ev sched, adds ev l (fireDone i sched)) as Hd.
  { intros ev sched. unfold fireDone. apply keeps_bind; [destruct (sd_precheck sched); [destruct (isFailureResult _)|]; auto|].
    intros _. auto with io_keeps. }
  unfold fire, getById. apply keeps_bind; [auto with io_keeps|]. intros [sched|]; [|auto with io_keeps].
  destruct (negb (sd_enabled sched)); [auto with io_keeps|]. destruct (negb (fi_answers i)); [auto with io_keeps|].
  destruct (fi_onboardingPending i); [auto|]. destruct (fi_agentDisabled i); [auto|].
  destruct (fi_payload i) as [[reason isFinal]|]; [auto|]. destruct (fi_held i) as [reason|]; [auto with io_keeps|].
  apply adds_try; [apply adds_commit | auto|]. apply adds_try; [unfold pokeAgent; auto with io_keeps | auto | auto].
Qed.

Lemma expiry_bounded now next :
  triggerExpiry now next TRIGGER_TTL_SECONDS <= now + TRIGGER_TTL_SECONDS * 1000 /\
  forall n, next = Some n -> now < n -> triggerExpiry now next TRIGGER_TTL_SECONDS <= n.
Proof.
  unfold triggerExpiry. destruct next as [m|]; [|done]. destruct (Z.leb_spec m now).
  - split; [lia|]. intros n [= <-] ?. lia.
  - split; [lia|]. intros n [= <-] _. lia.
Qed.

(** Retrying a fire sends its trigger once, and one that is not delivered
    expires before the schedule fires again: over any fires, with anything
    failing in them, there is at most one trigger for each fire time, and none
    lives past the fire that comes after it. *)
Theorem triggers_do_not_pile_up fires s :
  NoDup (map fst (sw_events s)) -> (forall now n, nextFireAt now = Some n -> now < n) ->
  let s' := foldl (fun s (x : FireInput * list fault) => io_st (fire x.1 (mk_io s x.2)).1) s fires in
  NoDup (map fst (sw_events s')) /\
  forall ev, ev ∈ sw_events s' -> ev ∈ sw_events s \/
    exists x, x ∈ fires /\ fi_fireAt x.1 = ev.1 /\ ev.2 <= fi_now x.1 + TRIGGER_TTL_SECONDS * 1000 /\
      forall n, nextFireAt (fi_now x.1) = Some n -> ev.2 <= n.
Proof.
  intros HN Hahead. cbv zeta. revert s HN. induction fires as [|[i faults] fires IH]; intros s HN; [by split; [|left]|]. simpl.
  pose proof (fire_adds i (sw_events s) (mk_io s faults)) as Ha. set (s1 := io_st (fire i (mk_io s faults)).1) in *.
  assert (grows (fi_fireAt i, triggerExpiry (fi_now i) (nextFireAt (fi_now i)) TRIGGER_TTL_SECONDS) (sw_events s) (sw_events s1)) as Ha'.
  { unfold s1. destruct (fire i (mk_io s faults)) as [w1 []]; by destruct Ha as [_ Ha]; [by intros [=] | by left |]. }
  clear Ha. rename Ha' into Ha.
  assert (NoDup (map fst (sw_events s1))) as HN1.
  { destruct Ha as [-> | [Hni ->]]; [done|]. rewrite map_app. apply NoDup_app. split_and!; [done | | apply NoDup_singleton].
    intros x Hx Hx'. simpl in Hx'. apply list_elem_of_singleton in Hx' as ->. by apply Hni. }
  destruct (IH s1 HN1) as [HN' Hev]. split; [done|]. intros ev Hin. destruct (Hev ev Hin) as [Hin1|(x & Hx & Hrest)].
  - destruct Ha as [E | [_ E]]; rewrite E in Hin1; [by left|]. apply elem_of_app in Hin1 as [?| ->%list_elem_of_singleton]; [by left|].
    right. exists (i, faults). destruct (expiry_bounded (fi_now i) (nextFireAt (fi_now i))) as [H1 H2].
    split; [left|]. split; [done|]. split; [exact H1|]. intros n En. apply H2; [done | by apply Hahead].
  - right. exists x. split; [by right | done].
Qed.
End Fire.

(** ** Verdicts in a row *)

(** What a schedule's precheck reports, and an edit of it, which starts over. *)
Inductive StatusOp :=
| so_verdict (verdict : PrecheckVerdict) (at_ : Z) (detail : option string)
| so_precheckChanged
| so_write (lastFiredAt : option Z) (lastFiredResult : option (option string)) (nextRun : option (option Z)).

Definition status_step (op : StatusOp) (r : SchedRow) : SchedRow :=
  match op with
  | so_verdict v at_ detail => applyStatusPatch (statusForVerdict v at_ detail (sd_lastResult r)) r
  | so_precheckChanged => clearPrecheckStatus r
  | so_write a b c => writeStatus a b c r
  end.

(** The verdicts since the precheck is what it is, newest first. *)
Fixpoint verdicts (ops : list StatusOp) (acc : list PrecheckVerdict) : list PrecheckVerdict :=
  match ops with
  | [] => acc
  | so_verdict v _ _ :: ops => verdicts ops (v :: acc)
  | so_precheckChanged :: ops => verdicts ops []
  | so_write _ _ _ :: ops => verdicts ops acc
  end.

#[export] Instance PrecheckVerdict_eq_dec : EqDecision PrecheckVerdict.
Proof. solve_decision. Defined.

(** How many of them, from the newest on, are [v]. *)
Fixpoint in_a_row (v : PrecheckVerdict) (l : list PrecheckVerdict) : nat :=
  match l with [] => 0%nat | x :: l => if decide (x = v) then S (in_a_row v l) else 0%nat end.

Definition fresh_row (r : SchedRow) : Prop :=
  sd_lastDeclinedAt r = None /\ sd_declinedCount r = 0%nat /\ sd_lastPrecheckError r = None /\ sd_precheckFailedCount r = 0%nat.

(** The counters a schedule shows are runs: its precheck declined, or broke,
    just that often in a row, counted since the precheck was last changed and
    whatever else is written to the row. *)
Theorem counters_are_runs ops r :
  fresh_row r ->
  let r' := foldl (fun r op => status_step op r) r ops in
  sd_declinedCount r' = in_a_row pv_declined (verdicts ops []) /\
  sd_precheckFailedCount r' = in_a_row pv_failed (verdicts ops []) /\
  (sd_lastDeclinedAt r' <> None <-> sd_declinedCount r' <> 0%nat).
Proof.
  cbv zeta. intros Hr.
  assert (forall ops acc r, sd_declinedCount r = in_a_row pv_declined acc -> sd_precheckFailedCount r = in_a_row pv_failed acc ->
    (sd_lastDeclinedAt r <> None <-> sd_declinedCount r <> 0%nat) ->
    let r' := foldl (fun r op => status_step op r) r ops in
    sd_declinedCount r' = in_a_row pv_declined (verdicts ops acc) /\ sd_precheckFailedCount r' = in_a_row pv_failed (verdicts ops acc) /\
    (sd_lastDeclinedAt r' <> None <-> sd_declinedCount r' <> 0%nat)) as H.
  { clear. induction ops as [|op ops IH]; intros acc r H1 H2 H3; [done|].
    destruct op as [[] at_ detail| |a b c]; simpl; apply IH; simpl; rewrite ?H1, ?H2; try done; try (by rewrite H1 in H3); by split. }
  destruct Hr as (E1 & E2 & _ & E4). apply H; [by rewrite E2 | by rewrite E4 | by rewrite E1, E2].
Qed.

(** ** At concrete inputs *)
Definition demoNext (now : Z) : option Z := Some ((now / 1000 + 1) * 1000).
Definition demoRow : SchedRow := mk_sched true None None None (Some 1000) None 0 None 0.
Definition demoFire (attempt : bool) : FireInput := mk_fire 1000 attempt 1001 true false false None None "boom".
Definition demoWorld : SW := mk_sw (Some demoRow) None [] [].


(** The trigger goes in, the poke is lost, and the fire is tried again. *)
Lemma triggers_do_not_pile_up_witness :
  let fires := [(demoFire false, [NoFault; NoFault; FailBefore]); (demoFire true, [])] in
  let s' := foldl (fun s (x : FireInput * list fault) => io_st (fire demoNext x.1 (mk_io s x.2)).1) demoWorld fires in
  sw_events s' = [(1000, 2000)] /\ NoDup (map fst (sw_events s')).
Proof.
  cbv zeta. split; [by vm_compute|]. apply (triggers_do_not_pile_up demoNext [(demoFire false, [NoFault; NoFault; FailBefore]); (demoFire true, [])]).
  - constructor.
  - intros now n. unfold demoNext. intros [= <-]. pose proof (Z.mod_pos_bound now 1000 ltac:(done)). pose proof (Z.div_mod now 1000 ltac:(done)). lia.
Defined.

Lemma counters_are_runs_witness :
  let ops := [so_verdict pv_failed 1 (Some "x"%string); so_verdict pv_declined 2 None; so_write None (Some None) None; so_verdict pv_declined 3 None] in
  let r' := foldl (fun r op => status_step op r) demoRow ops in
  sd_declinedCount r' = 2%nat /\ sd_precheckFailedCount r' = 0%nat.
Proof.
  cbv zeta. destruct (counters_are_runs [so_verdict pv_failed 1 (Some "x"%string); so_verdict pv_declined 2 None; so_write None (Some None) None; so_verdict pv_declined 3 None]
    demoRow) as (E1 & E2 & _); [by repeat split|]. rewrite E1, E2. by split.
Defined.

(** The trigger was sent, the last attempt's write of the row fails, and no fire
    is queued: the schedule stands still until the api-server starts again. *)
Example lost_write_ends_the_chain :
  let '(w, result) := fire demoNext (demoFire true) (mk_io demoWorld [NoFault; NoFault; NoFault; FailBefore]) in
  result = Throw /\ sw_events (io_st w) = [(1000, 2000)] /\ waiting w = None.
Proof. by vm_compute. Qed.
