(* ===== verification/Invocations.v ===== *)
(** The table of invocations: the sub-agents ("targets") a driver agent spawned
    (packages/api-server/src/modules/invocations/infrastructure/
    invocations-repository.ts on the table invocations, domain/script-output.ts,
    domain/harness-config-refusal.ts, domain/session-scope.ts,
    services/invocation-start.ts and driver-resolution.ts).

    An invocation has its target's id.  A statement is one step on the table,
    which is in the order of insertion; times are milliseconds.  A row is what
    was asked for ([InvocationSpec]), how it ended ([Ending]), the marks of the
    delivery of its outcome ([Marks], see [SubAgentOutcomes]) and what changes
    besides. *)
From stdpp Require Import base strings list sets.
From Stdlib Require Import ZArith Lia.
From S2P Require Import Prelude JsString AcpFrames.
Local Open Scope Z_scope.

Inductive InvocationStatus := st_running | st_done | st_failed.
#[export] Instance InvocationStatus_eq_dec : EqDecision InvocationStatus.
Proof. solve_decision. Defined.
Inductive InvocationOrigin := og_tool | og_script.
#[export] Instance InvocationOrigin_eq_dec : EqDecision InvocationOrigin.
Proof. solve_decision. Defined.
Definition isRunning (s : InvocationStatus) : bool := bool_decide (s = st_running).

Record InvocationHarnessConfig := mk_hc {
  hc_model : option string;
  hc_mode : option string;
  hc_configOptions : list (string * json);
}.

Inductive InvocationOutputStream := os_stdout | os_stderr.
#[export] Instance InvocationOutputStream_eq_dec : EqDecision InvocationOutputStream.
Proof. solve_decision. Defined.
Definition INVOCATION_OUTPUT_STREAMS : list InvocationOutputStream := [os_stdout; os_stderr].
Record InvocationOutputBlob := mk_blob { bl_sizeBytes : Z; bl_sha256 : string }.
Record InvocationOutput := mk_output { ou_stdout : option InvocationOutputBlob; ou_stderr : option InvocationOutputBlob }.
Definition ou_get (s : InvocationOutputStream) (o : InvocationOutput) : option InvocationOutputBlob :=
  match s with os_stdout => ou_stdout o | os_stderr => ou_stderr o end.
Definition ou_put (s : InvocationOutputStream) (b : option InvocationOutputBlob) (o : InvocationOutput) : InvocationOutput :=
  match s with os_stdout => mk_output b (ou_stderr o) | os_stderr => mk_output (ou_stdout o) b end.
Definition noOutput : InvocationOutput := mk_output None None.

Record InvocationSpec := mk_ispec {
  sp_id : string;
  sp_driverAgentId : string;
  sp_rootDriverId : string;
  sp_owner : string;
  sp_label : option string;
  sp_prompt : string;
  sp_script : option string;
  sp_templateId : option string;
  sp_image : option string;
  sp_connections : list string;
  sp_ttlMs : option Z;
  sp_resultSchema : json;
  sp_harnessConfig : option InvocationHarnessConfig;
  sp_origin : InvocationOrigin;
  sp_driverSessionId : option string;
  sp_createdAt : Z;
}.

Record Ending := mk_ending {
  en_status : InvocationStatus;
  en_result : option json;
  en_errorReason : option string;
  en_exitCode : option Z;
  en_completedAt : option Z;
}.
Definition notEnded : Ending := mk_ending st_running None None None None.

Record Marks := mk_marks {
  mk_awaitedUntil : option Z;
  mk_claimedUntil : option Z;
  mk_deliveredAt : option Z;
  mk_wokeAt : option Z;
}.

Record InvocationRow := mk_irow {
  iv_spec : InvocationSpec;
  iv_startedAt : option Z;
  iv_expiresAt : Z;
  iv_ending : Ending;
  iv_output : option InvocationOutput;
  iv_outputExpiresAt : option Z;
  iv_reapedAt : option Z;
  (** captured, and whether cut short *)
  iv_transcript : option bool;
  iv_marks : Marks;
}.
Definition iv_id (r : InvocationRow) : string := sp_id (iv_spec r).
Definition iv_driver (r : InvocationRow) : string := sp_driverAgentId (iv_spec r).
Definition iv_root (r : InvocationRow) : string := sp_rootDriverId (iv_spec r).
Definition iv_owner (r : InvocationRow) : string := sp_owner (iv_spec r).
Definition iv_status (r : InvocationRow) : InvocationStatus := en_status (iv_ending r).
Definition running (r : InvocationRow) : bool := isRunning (iv_status r).

Definition with_start (s : option Z) (e : Z) (r : InvocationRow) : InvocationRow :=
  mk_irow (iv_spec r) s e (iv_ending r) (iv_output r) (iv_outputExpiresAt r) (iv_reapedAt r) (iv_transcript r) (iv_marks r).
Definition with_ending (e : Ending) (r : InvocationRow) : InvocationRow :=
  mk_irow (iv_spec r) (iv_startedAt r) (iv_expiresAt r) e (iv_output r) (iv_outputExpiresAt r) (iv_reapedAt r) (iv_transcript r) (iv_marks r).
Definition with_output (o : option InvocationOutput) (e : option Z) (r : InvocationRow) : InvocationRow :=
  mk_irow (iv_spec r) (iv_startedAt r) (iv_expiresAt r) (iv_ending r) o e (iv_reapedAt r) (iv_transcript r) (iv_marks r).
Definition with_reaped (t : option Z) (r : InvocationRow) : InvocationRow :=
  mk_irow (iv_spec r) (iv_startedAt r) (iv_expiresAt r) (iv_ending r) (iv_output r) (iv_outputExpiresAt r) t (iv_transcript r) (iv_marks r).
Definition with_transcript (t : option bool) (r : InvocationRow) : InvocationRow :=
  mk_irow (iv_spec r) (iv_startedAt r) (iv_expiresAt r) (iv_ending r) (iv_output r) (iv_outputExpiresAt r) (iv_reapedAt r) t (iv_marks r).
Definition with_marks (m : Marks) (r : InvocationRow) : InvocationRow :=
  mk_irow (iv_spec r) (iv_startedAt r) (iv_expiresAt r) (iv_ending r) (iv_output r) (iv_outputExpiresAt r) (iv_reapedAt r) (iv_transcript r) m.

(** ** The table *)
Definition Table := list InvocationRow.
Implicit Types (t : Table) (id : string) (now : Z) (r : InvocationRow).

(** [UPDATE … WHERE p]; and whether it [RETURNING] anything. *)
Definition update (p : InvocationRow -> bool) (f : InvocationRow -> InvocationRow) t : Table :=
  map (fun r => if p r then f r else r) t.
Definition byId id r : bool := String.eqb (iv_id r) id.
Definition get id t : option InvocationRow := head (List.filter (byId id) t).
Definition runningId id r : bool := byId id r && running r.

Record NewInvocation := mk_new { nw_spec : InvocationSpec; nw_expiresAt : Z }.
(** The id is the primary key: a second insert of it throws. *)
Definition insert (n : NewInvocation) t : option Table :=
  if existsb (byId (sp_id (nw_spec n))) t then None
  else Some (t ++ [mk_irow (nw_spec n) None (nw_expiresAt n) notEnded None None None None (mk_marks None None None None)]).

Definition started now r : InvocationRow :=
  with_start (Some (iv_startedAt r ?? now))
    (match iv_startedAt r, sp_ttlMs (iv_spec r) with None, Some ttl => now + ttl | _, _ => iv_expiresAt r end) r.
Definition markStarted id now t : Table * option (Z * Z) :=
  let t' := update (runningId id) (started now) t in
  (t', match head (List.filter (runningId id) t') with
       | Some r => option_map (fun s => (s, iv_expiresAt r)) (iv_startedAt r)
       | None => None
       end).

Definition ended (status : InvocationStatus) (result : option json) (reason : option string) now r : InvocationRow :=
  with_ending (mk_ending status (match result with Some v => Some v | None => en_result (iv_ending r) end)
    (match reason with Some v => Some v | None => en_errorReason (iv_ending r) end) (en_exitCode (iv_ending r)) (Some now)) r.

Definition complete id (result : json) now t : Table * bool :=
  (update (runningId id) (ended st_done (Some result) None now) t, existsb (runningId id) t).
Definition fail id (reason : string) now t : Table := update (runningId id) (ended st_failed None (Some reason) now) t.

(** [now] is the sweep's, [at_] the statement's. *)
Definition expired id now r : bool := runningId id r && (iv_expiresAt r <? now).
Definition failExpired id (reason : string) now (at_ : Z) t : Table * bool :=
  (update (expired id now) (ended st_failed None (Some reason) at_) t, existsb (expired id now) t).

Inductive ScriptFinish :=
| sf_done (exitCode : Z) (output : InvocationOutput) (outputExpiresAt : option Z)
| sf_failed (exitCode : option Z) (errorReason : string) (output : InvocationOutput) (outputExpiresAt : option Z).
Definition finished (f : ScriptFinish) now r : InvocationRow :=
  match f with
  | sf_done code out exp => with_output (Some out) exp (with_ending (mk_ending st_done (en_result (iv_ending r)) None (Some code) (Some now)) r)
  | sf_failed code reason out exp =>
      with_output (Some out) exp (with_ending (mk_ending st_failed (en_result (iv_ending r)) (Some reason) code (Some now)) r)
  end.
Definition finishScript id (f : ScriptFinish) now t : Table * bool :=
  (update (runningId id) (finished f now) t, existsb (runningId id) t).

(** [output - stream], and null when that leaves nothing. *)
Definition droppedStream (s : InvocationOutputStream) r : InvocationRow :=
  match iv_output r with
  | None => r
  | Some o =>
      let rest := ou_put s None o in
      match rest with
      | mk_output None None => with_output None None r
      | _ => with_output (Some rest) (iv_outputExpiresAt r) r
      end
  end.
Definition dropOutputStream id (s : InvocationOutputStream) t : Table := update (byId id) (droppedStream s) t.
Definition clearOutput id t : Table := update (byId id) (with_output None None) t.

Definition lateOutput now r : bool := match iv_outputExpiresAt r with Some e => e <=? now | None => false end.
Definition listExpiredOutputs now (limit : nat) t : list InvocationRow := take limit (List.filter (lateOutput now) t).
Definition listScriptsByRoot (rootDriverId : string) t : list InvocationRow :=
  List.filter (fun r => String.eqb (iv_root r) rootDriverId && bool_decide (sp_script (iv_spec r) <> None)) t.
Definition overdue now r : bool := running r && (iv_expiresAt r <? now).
Definition listExpiredRunning now (limit : nat) t : list InvocationRow := take limit (List.filter (overdue now) t).
Definition listRunning (limit : nat) t : list InvocationRow := take limit (List.filter running t).
Definition listRunningByDriver (driverAgentId : string) t : list InvocationRow :=
  List.filter (fun r => running r && String.eqb (iv_driver r) driverAgentId) t.
(** [terminal rows, not reaped, that ended before] *)
Definition unreapedSince (before : Z) r : bool :=
  negb (running r) && bool_decide (iv_reapedAt r = None)
  && match en_completedAt (iv_ending r) with Some c => c <? before | None => false end.
Definition listTerminalUnreaped (before : Z) (limit : nat) t : list InvocationRow := take limit (List.filter (unreapedSince before) t).
Definition markReaped id now t : Table := update (byId id) (with_reaped (Some now)) t.
Definition markTranscriptCaptured id (truncated : bool) t : Table := update (byId id) (with_transcript (Some truncated)) t.
Definition listUnreapedByRoot (rootDriverId : string) t : list InvocationRow :=
  List.filter (fun r => String.eqb (iv_root r) rootDriverId && bool_decide (iv_reapedAt r = None)) t.
Definition delete_row id t : Table := List.filter (fun r => negb (byId id r)) t.
Definition reapedOf (rootDriverId : string) r : bool := String.eqb (iv_root r) rootDriverId && bool_decide (iv_reapedAt r <> None).
Definition deleteReapedByRoot (rootDriverId : string) t : Table := List.filter (fun r => negb (reapedOf rootDriverId r)) t.

(** The newest rows of a root, oldest first ([ORDER BY created_at DESC LIMIT n], reversed). *)
Definition newestFirst (a b : InvocationRow) : Z := sp_createdAt (iv_spec b) - sp_createdAt (iv_spec a).
Definition listByRoot (rootDriverId : string) (limit : nat) t : list InvocationRow :=
  rev (take limit (js_sort newestFirst (List.filter (fun r => String.eqb (iv_root r) rootDriverId) t))).

Definition listRunningAgentIds (olderThan : Z) t : list string :=
  js_uniq (flat_map (fun r => [iv_id r; iv_driver r]) (List.filter (fun r => running r && (sp_createdAt (iv_spec r) <? olderThan)) t)).
Definition listRootDriverIds t : list string := js_uniq (map iv_root t).
Definition listTargetsByOwner (owner : string) t : list (string * string) :=
  map (fun r => (iv_driver r, iv_id r)) (List.filter (fun r => String.eqb (iv_owner r) owner && bool_decide (iv_reapedAt r = None)) t).
(** What the sweep of what agents leave asks: the agents with rows, those of a
    spawn under way left out. *)
Definition INVOCATION_ORPHAN_GRACE_MS : Z := 5 * 60000.
Definition listInvocationAgentIds now t : list string :=
  js_uniq (listRunningAgentIds (now - INVOCATION_ORPHAN_GRACE_MS) t ++ listRootDriverIds t).

(** *** Who drives whom *)
Definition MAX_CHAIN_DEPTH : nat := 16.
Fixpoint resolveRoot_from (depth : nat) (current : string) t : option string :=
  match depth with
  | O => None
  | S depth => match get current t with None => Some current | Some r => resolveRoot_from depth (iv_driver r) t end
  end.
Definition resolveRoot (agentId : string) t : option string := resolveRoot_from MAX_CHAIN_DEPTH agentId t.

Definition shownInSession r (sessionId : option string) : bool :=
  match sp_driverSessionId (iv_spec r) with None => true | Some s => bool_decide (sessionId = Some s) end.

(** ** Settings the target's harness does not offer *)
Record TargetHarnessConfigSupport := mk_support { su_supported : bool; su_optionIds : option (list string) }.
Definition HARNESS_CONFIG_STEP : string := "harness config".

Definition requestedSettingIds (q : InvocationHarnessConfig) : list string :=
  (match hc_model q with Some _ => ["model"%string] | None => [] end)
  ++ (match hc_mode q with Some _ => ["mode"%string] | None => [] end) ++ map fst (hc_configOptions q).

Definition DQUOTE : string := String (Ascii.ascii_of_nat 34) "".
Definition harnessConfigRefusal (requested : option InvocationHarnessConfig) (support : option TargetHarnessConfigSupport) : option string :=
  match requested, support with
  | Some q, Some u =>
      if negb (su_supported u) then Some "its image declares no harness-config driver"%string
      else match su_optionIds u with
           | None => None
           | Some offered =>
               match List.filter (fun id => negb (includes offered id)) (requestedSettingIds q) with
               | [] => None
               | missing => Some ("its harness offers no setting " ++ str_join ", " (map (fun id => DQUOTE ++ id ++ DQUOTE) missing))%string
               end
           end
  | _, _ => None
  end.

(** ** Script outputs *)
Definition OUTPUT_RETENTION_MS : Z := 7 * 24 * 60 * 60 * 1000.
Definition MAX_UPLOAD_GRACE_MS : Z := 5 * 60 * 1000.
(** [expiresAt - min(grace, ttlMs / 4)]; a [Date] drops the fraction of its time. *)
Definition scriptDeadline (start expiresAt : Z) : Z :=
  let ttlMs := expiresAt - start in
  (4 * expiresAt - Z.min (4 * MAX_UPLOAD_GRACE_MS) ttlMs) / 4.
Definition heldStreams (output : option InvocationOutput) : list InvocationOutputStream :=
  match output with
  | None => []
  | Some o => List.filter (fun s => bool_decide (ou_get s o <> None)) INVOCATION_OUTPUT_STREAMS
  end.

(** ** What the statements keep *)

(** Any statement that may run at any time, from any server. *)
Inductive Statement :=
| q_insert (n : NewInvocation)
| q_markStarted id now
| q_complete id (result : json) now
| q_fail id (reason : string) now
| q_failExpired id (reason : string) now (at_ : Z)
| q_finishScript id (f : ScriptFinish) now
| q_dropOutputStream id (s : InvocationOutputStream)
| q_clearOutput id
| q_markReaped id now
| q_markTranscriptCaptured id (truncated : bool)
| q_marks (p : InvocationRow -> bool) (f : Marks -> Marks)
| q_delete id
| q_deleteReapedByRoot (rootDriverId : string).

(** The table after it, and whether it answers that it ended the invocation. *)
Definition q_step (q : Statement) t : Table * bool :=
  match q with
  | q_insert n => (insert n t ?? t, false)
  | q_markStarted id now => ((markStarted id now t).1, false)
  | q_complete id result now => complete id result now t
  | q_fail id reason now => (fail id reason now t, existsb (runningId id) t)
  | q_failExpired id reason now at_ => failExpired id reason now at_ t
  | q_finishScript id f now => finishScript id f now t
  | q_dropOutputStream id s => (dropOutputStream id s t, false)
  | q_clearOutput id => (clearOutput id t, false)
  | q_markReaped id now => (markReaped id now t, false)
  | q_markTranscriptCaptured id tr => (markTranscriptCaptured id tr t, false)
  | q_marks p f => (update p (fun r => with_marks (f (iv_marks r)) r) t, false)
  | q_delete id => (delete_row id t, false)
  | q_deleteReapedByRoot root => (deleteReapedByRoot root t, false)
  end.
Definition q_run (qs : list Statement) t : Table := foldl (fun t q => (q_step q t).1) t qs.

(** What a row may become: its start and its ending are set once, and its
    deadline moves with the start only. *)
Record moves_to (r r' : InvocationRow) : Prop := mk_moves {
  mv_spec : iv_spec r' = iv_spec r;
  mv_ending : running r = false -> iv_ending r' = iv_ending r;
  mv_start : forall s, iv_startedAt r = Some s -> iv_startedAt r' = Some s /\ iv_expiresAt r' = iv_expiresAt r;
  mv_started : forall s, iv_startedAt r = None -> iv_startedAt r' = Some s ->
    iv_expiresAt r' = match sp_ttlMs (iv_spec r) with Some ttl => s + ttl | None => iv_expiresAt r end;
  mv_waits : iv_startedAt r' = None -> iv_expiresAt r' = iv_expiresAt r;
}.

#[export] Instance moves_to_preorder : PreOrder moves_to.
Proof.
  split; [by split; try done; intros; simplify_eq|].
  intros r1 r2 r3 [A1 A2 A3 A4 A5] [B1 B2 B3 B4 B5]. split.
  - congruence.
  - intros E. rewrite <- (A2 E). apply B2. unfold running, iv_status in *. by rewrite (A2 E).
  - intros s E. destruct (A3 s E) as [E2 ->] || destruct (A3 s E) as [E2 E3]. destruct (B3 s E2). split; congruence.
  - intros s E E'. destruct (iv_startedAt r2) as [s2|] eqn:E2.
    + destruct (B3 s2 eq_refl) as [E3 ->] || destruct (B3 s2 eq_refl) as [E3 E4]. assert (s2 = s) as -> by congruence. rewrite ?E4. by apply A4.
    + rewrite (B4 s eq_refl E'), A1. destruct (sp_ttlMs _); [done | by apply A5].
  - intros E. destruct (iv_startedAt r2) as [s2|] eqn:E2.
    + destruct (B3 s2 eq_refl). congruence.
    + rewrite B5 by done. by apply A5.
Qed.

Definition keeps_id (f : InvocationRow -> InvocationRow) : Prop := forall r, iv_id (f r) = iv_id r.

Lemma get_update id p f t : keeps_id f -> get id (update p f t) = option_map (fun r => if p r then f r else r) (get id t).
Proof.
  intros Hf. unfold get, update. induction t as [|r t IH]; [done|]. simpl.
  assert (byId id (if p r then f r else r) = byId id r) as -> by (unfold byId; destruct (p r); by rewrite ?Hf).
  by destruct (byId id r).
Qed.

Lemma update_ids p f t : keeps_id f -> map iv_id (update p f t) = map iv_id t.
Proof. intros Hf. unfold update. rewrite map_map. apply map_ext. intros r. destruct (p r); by rewrite ?Hf. Qed.

Lemma get_filter id p t : (forall r, byId id r = true -> p r = true) -> get id (List.filter p t) = get id t.
Proof.
  intros H. unfold get. induction t as [|r t IH]; [done|]. simpl. destruct (byId id r) eqn:E.
  - rewrite (H r E). simpl. by rewrite E.
  - destruct (p r); simpl; [by rewrite E | done].
Qed.

Lemma get_sublist id p t r : NoDup (map iv_id t) -> get id (List.filter p t) = Some r -> get id t = Some r.
Proof.
  unfold get. induction t as [|s t IH]; [done|]. simpl. intros [Hni Hnd]%NoDup_cons E. destruct (byId id s) eqn:Es.
  - simpl. destruct (p s); simpl in E; [by rewrite Es in E|]. exfalso.
    apply head_Some_elem_of in E. apply elem_filter in E as [E1 E2]. apply elem_filter in E1 as [E1 _].
    unfold byId in *. apply String.eqb_eq in E2, Es. apply Hni. rewrite Es, <- E2. apply list_elem_of_fmap. by exists r.
  - apply IH; [done|]. destruct (p s); simpl in E; [by rewrite Es in E | done].
Qed.

Lemma get_id id t r : get id t = Some r -> iv_id r = id /\ r ∈ t.
Proof.
  intros E. apply head_Some_elem_of, elem_filter in E as [? E]. by apply String.eqb_eq in E.
Qed.

Lemma get_elem t r : NoDup (map iv_id t) -> r ∈ t -> get (iv_id r) t = Some r.
Proof.
  unfold get. induction t as [|s t IH]; [by intros _ ?%elem_of_nil|]. simpl. intros [Hni Hnd]%NoDup_cons [-> |H]%elem_of_cons.
  - unfold byId. by rewrite String.eqb_refl.
  - destruct (byId (iv_id r) s) eqn:E; [|by apply IH]. apply String.eqb_eq in E. destruct Hni. rewrite E. apply list_elem_of_fmap. by exists r.
Qed.

Lemma row_unique t r s : NoDup (map iv_id t) -> r ∈ t -> s ∈ t -> iv_id r = iv_id s -> r = s.
Proof. intros Hids Hr Hs E. pose proof (get_elem _ _ Hids Hr). pose proof (get_elem _ _ Hids Hs). rewrite E in *. congruence. Qed.

Lemma existsb_get id (p : InvocationRow -> bool) t :
  NoDup (map iv_id t) -> existsb (fun r => byId id r && p r) t = match get id t with Some r => p r | None => false end.
Proof.
  unfold get. induction t as [|s t IH]; [done|]. simpl. intros [Hni Hnd]%NoDup_cons. destruct (byId id s) eqn:E; simpl; [|by apply IH].
  destruct (p s); [done|]. simpl. rewrite IH by done. destruct (head _) as [r|] eqn:Eh; [|done].
  apply get_id in Eh as [<- Hin]. apply String.eqb_eq in E. destruct Hni. rewrite E. apply list_elem_of_fmap. by exists r.
Qed.

(** *** Every statement moves a row forward *)
Lemma step_keeps_NoDup q t : NoDup (map iv_id t) -> NoDup (map iv_id (q_step q t).1).
Proof.
  intros H. assert (forall p f, keeps_id f -> NoDup (map iv_id (update p f t))) as Hu by (intros; by rewrite update_ids).
  assert (forall p, NoDup (map iv_id (List.filter p t))) as Hf by (intros; by apply filter_map_NoDup).
  destruct q; simpl; try (by apply Hu); try (by apply Hf).
  - unfold insert. destruct (existsb _ t) eqn:E; simpl; [done|]. rewrite map_app. apply NoDup_app. split; [done|]. split; [|apply NoDup_singleton].
    intros x Hx Hx'. apply list_elem_of_singleton in Hx' as ->. apply list_elem_of_fmap in Hx as (r & Er & Hin).
    apply not_true_iff_false in E. apply E, existsb_exists. exists r. split; [by apply list_elem_of_In|]. unfold byId. simpl. rewrite <- Er. apply String.eqb_refl.
  - apply Hu. intros r. by destruct f.
  - apply Hu. intros r. unfold droppedStream. destruct (iv_output r) as [o|]; [|done]. by destruct (ou_put s None o) as [[] []].
Qed.

Lemma started_moves id now r : moves_to r (if runningId id r then started now r else r).
Proof.
  destruct (runningId id r) eqn:E; [|done]. apply andb_true_iff in E as [_ E]. unfold started. split; simpl; try done.
  - intros s ->. by split.
  - intros s -> [= ->]. by destruct (sp_ttlMs _).
Qed.

Lemma ends_moves p e r : (p r = true -> running r = true) ->
  (p r = true -> iv_spec (e r) = iv_spec r /\ iv_startedAt (e r) = iv_startedAt r /\ iv_expiresAt (e r) = iv_expiresAt r) ->
  moves_to r (if p r then e r else r).
Proof.
  intros Hp He. destruct (p r); [|done]. destruct (He eq_refl) as (E1 & E2 & E3). split; rewrite ?E1, ?E2, ?E3; try done.
  - by rewrite Hp.
  - intros s -> [=].
Qed.

Lemma other_moves (p : InvocationRow -> bool) f r :
  iv_spec (f r) = iv_spec r -> iv_startedAt (f r) = iv_startedAt r -> iv_expiresAt (f r) = iv_expiresAt r -> iv_ending (f r) = iv_ending r ->
  moves_to r (if p r then f r else r).
Proof.
  intros E1 E2 E3 E4. destruct (p r); [|done]. split; rewrite ?E1, ?E2, ?E3, ?E4; try done. intros s -> [=].
Qed.

(** What a statement leaves of the row of [id]; none when it is deleted. *)
Lemma step_get id q t r r' :
  NoDup (map iv_id t) -> get id t = Some r -> get id (q_step q t).1 = Some r' -> moves_to r r'.
Proof.
  intros Hnd Er. destruct q; simpl.
  - unfold insert. destruct (existsb _ t); simpl; [intros; by simplify_eq|]. unfold get in *. rewrite List.filter_app.
    destruct (List.filter (byId id) t) as [|x l]; [done|]. simpl in *. intros. by simplify_eq.
  - rewrite get_update, Er by (by intros ?). intros [= <-]. apply started_moves.
  - rewrite get_update, Er by (by intros ?). intros [= <-]. apply ends_moves; [|done]. by intros [_ ?]%andb_true_iff.
  - unfold fail. rewrite get_update, Er by (by intros ?). intros [= <-]. apply ends_moves; [|done]. by intros [_ ?]%andb_true_iff.
  - rewrite get_update, Er by (by intros ?). intros [= <-]. apply ends_moves; [|done]. by intros [[_ ?]%andb_true_iff _]%andb_true_iff.
  - rewrite get_update, Er by (intros ?; by destruct f). intros [= <-]. apply ends_moves; [by intros [_ ?]%andb_true_iff|]. by destruct f.
  - unfold dropOutputStream. rewrite get_update, Er.
    + intros [= <-]. apply other_moves; unfold droppedStream; destruct (iv_output r) as [o|]; try done; by destruct (ou_put s None o) as [[] []].
    + intros x. unfold droppedStream. destruct (iv_output x) as [o|]; [|done]. by destruct (ou_put s None o) as [[] []].
  - unfold clearOutput. rewrite get_update, Er by (by intros ?). intros [= <-]. by apply other_moves.
  - unfold markReaped. rewrite get_update, Er by (by intros ?). intros [= <-]. by apply other_moves.
  - unfold markTranscriptCaptured. rewrite get_update, Er by (by intros ?). intros [= <-]. by apply other_moves.
  - rewrite get_update, Er by (by intros ?). intros [= <-]. by apply other_moves.
  - intros E. apply get_sublist in E; [|done]. rewrite Er in E. by simplify_eq.
  - intros E. apply get_sublist in E; [|done]. rewrite Er in E. by simplify_eq.
Qed.

(** The statements that answered that they ended [id]. *)
Definition ends (id : string) (q : Statement) : bool :=
  match q with
  | q_complete i _ _ | q_fail i _ _ | q_failExpired i _ _ _ | q_finishScript i _ _ => String.eqb i id
  | _ => false
  end.
Fixpoint endings (id : string) (qs : list Statement) t : list Statement :=
  match qs with
  | [] => []
  | q :: qs => let '(t', ok) := q_step q t in (if ends id q && ok then [q] else []) ++ endings id qs t'
  end.

(** One that does found it running and leaves it ended; any other leaves its status. *)
Lemma step_ends id q t r :
  NoDup (map iv_id t) -> get id t = Some r ->
  if ends id q && (q_step q t).2 then running r = true /\ forall r', get id (q_step q t).1 = Some r' -> running r' = false
  else forall r', get id (q_step q t).1 = Some r' -> running r' = running r.
Proof.
  intros Hnd Er.
  assert (forall i p f, keeps_id f -> (forall x, running (f x) = false) ->
    (forall x, byId i x && p x = true -> running x = true) ->
    if (String.eqb i id && existsb (fun x => byId i x && p x) t)
    then running r = true /\ forall r', get id (update (fun x => byId i x && p x) f t) = Some r' -> running r' = false
    else forall r', get id (update (fun x => byId i x && p x) f t) = Some r' -> running r' = running r) as H.
  { intros i p f Hf Hend Hp. rewrite existsb_get by done. destruct (String.eqb_spec i id) as [->|Hne]; simpl.
    - rewrite Er. pose proof (get_id _ _ _ Er) as [Hid _].
      assert (byId id r = true) as Hb by (unfold byId; rewrite Hid; apply String.eqb_refl). rewrite get_update, Er by done. simpl.
      rewrite Hb. simpl. destruct (p r) eqn:Epr.
      + split; [apply Hp; by rewrite Hb|]. intros r' [= <-]. apply Hend.
      + intros r' [= <-]. done.
    - intros r'. rewrite get_update, Er by done. simpl. intros [= <-]. pose proof (get_id _ _ _ Er) as [Hid _].
      unfold byId. rewrite Hid. destruct (String.eqb_spec id i); [congruence | done]. }
  assert (forall p f, keeps_id f -> (forall x, iv_ending (f x) = iv_ending x) -> forall r', get id (update p f t) = Some r' -> running r' = running r) as Hkeep.
  { intros p f Hf He r'. rewrite get_update, Er by done. simpl. intros [= <-]. destruct (p r); [|done]. unfold running, iv_status. by rewrite He. }
  assert (forall p r', get id (List.filter p t) = Some r' -> running r' = running r) as Hfil.
  { intros p r' E. apply get_sublist in E; [|done]. rewrite Er in E. by simplify_eq. }
  destruct q; simpl; try (by apply Hkeep); try (by apply Hfil).
  - intros r'. unfold insert. destruct (existsb _ t); simpl; [intros; by simplify_eq|]. unfold get in *. rewrite List.filter_app.
    destruct (List.filter (byId id) t) as [|x l]; [done|]. simpl in *. intros. by simplify_eq.
  - apply (H _ running (ended st_done (Some result) None now)); [done | done|]. by intros x [_ ?]%andb_true_iff.
  - apply (H _ running (ended st_failed None (Some reason) now)); [done | done|]. by intros x [_ ?]%andb_true_iff.
  - assert (forall x, expired id0 now x = byId id0 x && (running x && (iv_expiresAt x <? now))) as E by (intros x; unfold expired, runningId; by rewrite andb_assoc).
    unfold update. erewrite map_ext by (intros x; by rewrite E).
    assert (existsb (expired id0 now) t = existsb (fun x => byId id0 x && (running x && (iv_expiresAt x <? now))) t) as ->.
    { clear -E. induction t as [|x t IH]; [done|]. simpl. by rewrite E, IH. }
    apply (H _ (fun x => running x && (iv_expiresAt x <? now)) (ended st_failed None (Some reason) at_)); [done | done|].
    by intros x [_ [? _]%andb_true_iff]%andb_true_iff.
  - apply (H _ running (finished f now)); [intros x; by destruct f | intros x; by destruct f|]. by intros x [_ ?]%andb_true_iff.
  - apply Hkeep.
    + intros x. unfold droppedStream. destruct (iv_output x) as [o|]; [|done]. by destruct (ou_put s None o) as [[] []].
    + intros x. unfold droppedStream. destruct (iv_output x) as [o|]; [|done]. by destruct (ou_put s None o) as [[] []].
Qed.

Definition fresh_for (id : string) (qs : list Statement) : Prop := forall n, q_insert n ∈ qs -> sp_id (nw_spec n) <> id.

Lemma gone_stays_gone id q t :
  get id t = None -> (forall n, q = q_insert n -> sp_id (nw_spec n) <> id) -> get id (q_step q t).1 = None.
Proof.
  intros E Hf.
  assert (forall p f, keeps_id f -> get id (update p f t) = None) as Hu by (intros; by rewrite get_update, E).
  assert (forall p, get id (List.filter p t) = None) as Hd.
  { intros p. unfold get in *. apply head_None in E. apply head_None. destruct (List.filter (byId id) (List.filter p t)) as [|x l] eqn:Ex; [done|].
    assert (x ∈ List.filter (byId id) t) as Hx; [|by rewrite E in Hx; apply elem_of_nil in Hx].
    assert (x ∈ List.filter (byId id) (List.filter p t)) as [[? ?]%elem_filter ?]%elem_filter by (rewrite Ex; left). by apply elem_filter. }
  destruct q; simpl; try (by apply Hu); try (by apply Hd).
  - unfold insert. destruct (existsb _ t); simpl; [done|]. unfold get in *. rewrite List.filter_app. apply head_None in E. rewrite E. simpl.
    unfold byId, iv_id. simpl. destruct (String.eqb_spec (sp_id (nw_spec n)) id); [by destruct (Hf n eq_refl) | done].
  - apply Hu. intros r. by destruct f.
  - apply Hu. intros r. unfold droppedStream. destruct (iv_output r) as [o|]; [|done]. by destruct (ou_put s None o) as [[] []].
Qed.

Lemma gone_never_ends id q t : get id t = None -> NoDup (map iv_id t) -> ends id q && (q_step q t).2 = false.
Proof.
  intros E Hnd. assert (forall i p, String.eqb i id && existsb (fun x => byId i x && p x) t = false) as H.
  { intros i p. destruct (String.eqb_spec i id) as [->|]; [|done]. simpl. by rewrite existsb_get, E. }
  destruct q; simpl; try done; try apply H.
  assert (existsb (expired id0 now) t = existsb (fun x => byId id0 x && (running x && (iv_expiresAt x <? now))) t) as ->; [|apply H].
  clear. induction t as [|x t IH]; [done|]. simpl. rewrite IH. unfold expired, runningId. by rewrite andb_assoc.
Qed.

Lemma gone_run id qs t : get id t = None -> NoDup (map iv_id t) -> fresh_for id qs -> endings id qs t = [] /\ get id (q_run qs t) = None.
Proof.
  revert t. induction qs as [|q qs IH]; intros t E Hnd Hf; [done|]. simpl.
  assert (get id (q_step q t).1 = None) as E' by (apply gone_stays_gone; [done|]; intros n ->; apply Hf; left).
  destruct (IH _ E' (step_keeps_NoDup q t Hnd)) as [E1 E2]; [intros n Hn; apply Hf; by right|].
  pose proof (gone_never_ends id q t E Hnd) as En. destruct (q_step q t) as [t' ok]. simpl in *. by rewrite En, E1.
Qed.

(** An invocation ends once: whatever completes, fails, expires, starts,
    reaps or captures it, in any order and from any server, at most one of those
    that try to end it is told it did, none if it has ended already, and what is
    written of its ending, its start and its deadline afterwards never changes. *)
Theorem invocation_ends_once id qs t r :
  NoDup (map iv_id t) -> get id t = Some r -> fresh_for id qs ->
  (length (endings id qs t) <= if running r then 1 else 0)%nat /\
  forall r', get id (q_run qs t) = Some r' -> moves_to r r' /\ (running r' = false <-> running r = false \/ endings id qs t <> []).
Proof.
  revert t r. induction qs as [|q qs IH]; intros t r Hnd Er Hf.
  - simpl. split; [destruct (running r); lia|]. intros r' E. rewrite Er in E. simplify_eq. split; [done|]. split; [by left | by intros [?|[]]].
  - pose proof (step_ends id q t r Hnd Er) as He. pose proof (step_get id q t r) as Hg. pose proof (step_keeps_NoDup q t Hnd) as Hnd'.
    assert (fresh_for id qs) as Hf' by (intros n Hn; apply Hf; by right).
    simpl. destruct (q_step q t) as [t' ok] eqn:Eq. simpl in *. destruct (get id t') as [r1|] eqn:E1.
    + destruct (IH t' r1 Hnd' E1 Hf') as [Hlen Hrest]. specialize (Hg r1 Hnd Er eq_refl). destruct (ends id q && ok).
      * destruct He as [Hr He]. rewrite (He r1 eq_refl) in *. rewrite Hr in *. split; [simpl; lia|].
        intros r' E'. destruct (Hrest r' E') as [Hm Hiff]. split; [by etrans|]. split; [by right | intros _; apply Hiff; by left].
      * rewrite (He r1 eq_refl) in *. split; [done|]. intros r' E'. destruct (Hrest r' E') as [Hm Hiff]. split; [by etrans | done].
    + destruct (gone_run id qs t' E1 Hnd' Hf') as [-> E2]. split.
      * destruct (ends id q && ok); [destruct He as [-> _]; done | simpl; lia].
      * intros r' E'. unfold q_run in *. simpl in E'. try rewrite Eq in E'. simpl in E'. congruence.
Qed.

(** ** At a concrete input *)
Definition demoSpec (id driver : string) : InvocationSpec :=
  mk_ispec id driver "root" "ann" None "do it" None None None [] (Some 60000) jnull None og_tool None 0.
Definition demoRow : InvocationRow := mk_irow (demoSpec "t1" "root") None 60000 notEnded None None None None (mk_marks None None None None).
Definition demoTable : Table := [demoRow].

(** A result and the owner's stop race; the start came before both. *)
Definition demoRace : list Statement :=
  [q_markStarted "t1" 5000; q_complete "t1" (jnum 7) 6000; q_fail "t1" "stopped by the user" 6001; q_failExpired "t1" "late" 99999 99999; q_markReaped "t1" 99999].

Lemma invocation_ends_once_witness :
  (length (endings "t1" demoRace demoTable) <= 1)%nat /\
  option_map (fun r => (iv_ending r, iv_expiresAt r)) (get "t1" (q_run demoRace demoTable)) =
    Some (mk_ending st_done (Some (jnum 7)) None None (Some 6000), 65000).
Proof.
  split; [|by vm_compute]. apply (invocation_ends_once "t1" demoRace demoTable demoRow).
  - apply NoDup_singleton.
  - reflexivity.
  - intros n H. repeat (apply elem_of_cons in H as [H|H]; [done|]). by apply elem_of_nil in H.
Defined.
