(* ===== verification/DelegationTree.v ===== *)
(** What a driver delegated, as a tree
    (packages/api-server/src/modules/invocations/domain/delegation-tree.ts and
    services/delegations-query.ts).

    [subtree] walks the rows under one of them, depth first, and keeps the ids it
    has seen.  Rows are linked by ids that anyone wrote, so nothing rules a cycle
    out: the walk takes fuel, and [tree_lists_each_once] proves that as much as
    there are rows is enough. *)
From stdpp Require Import base strings list sets relations.
From Stdlib Require Import ZArith Lia.
From S2P Require Import Prelude JsString AcpFrames Invocations.

Record NodeInfo := mk_info {
  ni_id : string;
  ni_label : option string;
  ni_driverAgentId : string;
  ni_status : InvocationStatus;
  ni_errorReason : option string;
  ni_result : option json;
  ni_prompt : string;
  ni_script : option string;
  ni_exitCode : option Z;
  ni_templateId : option string;
  ni_image : option string;
  ni_connections : list string;
  ni_requestedModel : option string;
  ni_createdAt : Z;
  ni_started : bool;
  ni_completedAt : option Z;
  ni_transcriptAvailable : bool;
}.
Inductive DelegationNode := mk_node (info : NodeInfo) (children : list DelegationNode).
Definition nd_info (n : DelegationNode) : NodeInfo := match n with mk_node i _ => i end.
Definition nd_children (n : DelegationNode) : list DelegationNode := match n with mk_node _ l => l end.

Definition toNode (r : InvocationRow) (children : list DelegationNode) : DelegationNode :=
  let s := iv_spec r in
  let e := iv_ending r in
  mk_node (mk_info (iv_id r) (sp_label s) (sp_driverAgentId s) (en_status e) (en_errorReason e)
    (if decide (en_status e = st_done) then en_result e else None) (sp_prompt s) (sp_script s) (en_exitCode e)
    (sp_templateId s) (sp_image s) (sp_connections s) (sp_harnessConfig s ≫= hc_model) (sp_createdAt s)
    (bool_decide (iv_startedAt r <> None)) (en_completedAt e) (bool_decide (iv_transcript r <> None))) children.

Section Tree.
Context (rows : list InvocationRow).

Definition byId (id : string) : option InvocationRow := last (List.filter (Invocations.byId id) rows).
Definition childrenOf (id : string) : list InvocationRow := List.filter (fun r => String.eqb (iv_driver r) id) rows.

Section Walk.
Context (visit : InvocationRow -> list string -> option (list string * DelegationNode)).
(** [.map(subtree)] *)
Fixpoint walk (l : list InvocationRow) (seen : list string) : option (list string * list DelegationNode) :=
  match l with
  | [] => Some (seen, [])
  | r :: l =>
      match visit r seen with
      | None => None
      | Some (seen, n) => match walk l seen with None => None | Some (seen, ns) => Some (seen, n :: ns) end
      end
  end.
End Walk.

Definition unseen (seen : list string) (r : InvocationRow) : bool := negb (includes seen (iv_id r)).

Fixpoint subtree (fuel : nat) (row : InvocationRow) (seen : list string) : option (list string * DelegationNode) :=
  match fuel with
  | O => None
  | S fuel =>
      let seen := iv_id row :: seen in
      match walk (subtree fuel) (List.filter (unseen seen) (childrenOf (iv_id row))) seen with
      | None => None
      | Some (seen, kids) => Some (seen, toNode row kids)
      end
  end.

(** The loop over the ids asked for. *)
Fixpoint forest (ids : list string) (seen : list string) : option (list string * list DelegationNode) :=
  match ids with
  | [] => Some (seen, [])
  | id :: ids =>
      match byId id with
      | Some row =>
          if unseen seen row then
            match subtree (length rows) row seen with
            | None => None
            | Some (seen, n) => match forest ids seen with None => None | Some (seen, ns) => Some (seen, n :: ns) end
            end
          else forest ids seen
      | None => forest ids seen
      end
  end.
Definition buildDelegationTree (ids : list string) : option (list DelegationNode) := option_map snd (forest ids []).

(** ** What the tree holds *)
Fixpoint node_ids (n : DelegationNode) : list string :=
  match n with mk_node i l => ni_id i :: (fix go l := match l with [] => [] | n :: l => node_ids n ++ go l end) l end.
Definition nodes_ids (l : list DelegationNode) : list string := concat (map node_ids l).

Lemma node_ids_unfold r kids : node_ids (toNode r kids) = iv_id r :: nodes_ids kids.
Proof. unfold nodes_ids. simpl. f_equal. induction kids as [|n l IH]; [done|]. simpl. by rewrite IH. Qed.

(** A node is its row's, and its children's rows name it as their driver. *)
Inductive faithful : DelegationNode -> Prop :=
| fa_node r kids : r ∈ rows -> Forall faithful kids -> Forall (fun n => ni_driverAgentId (nd_info n) = iv_id r) kids ->
    faithful (toNode r kids).

Definition child (a b : string) : Prop := exists r, r ∈ rows /\ iv_driver r = a /\ iv_id r = b.
Definition known (id : string) : Prop := exists r, r ∈ rows /\ iv_id r = id.

Context (Hids : NoDup (map iv_id rows)).

Lemma childrenOf_spec id r : r ∈ childrenOf id <-> r ∈ rows /\ iv_driver r = id.
Proof. unfold childrenOf. by rewrite elem_filter, String.eqb_eq. Qed.

Lemma unseen_spec seen r : unseen seen r = true <-> iv_id r ∉ seen.
Proof. unfold unseen. rewrite negb_true_iff, <- not_true_iff_false, includes_spec. done. Qed.

(** What a walk that starts from [seen] finds: [new] is what it lists. *)
Record found (starts : list string) (seen seen' new : list string) : Prop := mk_found {
  fd_seen : forall x, x ∈ seen' <-> x ∈ new \/ x ∈ seen;
  fd_once : NoDup new;
  fd_new : forall x, x ∈ new -> x ∉ seen;
  fd_starts : forall x, x ∈ starts -> x ∈ new;
  fd_driver : forall r, r ∈ rows -> iv_id r ∈ new -> iv_id r ∈ starts \/ iv_driver r ∈ new;
  fd_closed : forall x y, x ∈ new -> child x y -> y ∈ seen';
  fd_reach : forall x, x ∈ new -> known x /\ exists s, s ∈ starts /\ rtc child s x;
}.

Definition left_over (seen : list string) : nat := length (List.filter (unseen seen) rows).

Lemma left_over_mono seen seen' : (forall x, x ∈ seen -> x ∈ seen') -> (left_over seen' <= left_over seen)%nat.
Proof. intros H. apply filter_le. intros r _. rewrite !unseen_spec. auto. Qed.

Lemma left_over_less seen r : r ∈ rows -> iv_id r ∉ seen -> (left_over (iv_id r :: seen) < left_over seen)%nat.
Proof.
  intros Hr Hn. unfold left_over. clear Hids. induction rows as [|s l IH]; [by apply elem_of_nil in Hr|]. simpl.
  assert (length (List.filter (unseen (iv_id r :: seen)) l) <= length (List.filter (unseen seen) l))%nat as Hle.
  { apply filter_le. intros x _. rewrite !unseen_spec. set_solver. }
  apply elem_of_cons in Hr as [<- |Hr].
  - assert (unseen (iv_id r :: seen) r = false) as -> by (apply not_true_iff_false; rewrite unseen_spec; set_solver).
    assert (unseen seen r = true) as -> by by apply unseen_spec. simpl. lia.
  - specialize (IH Hr). destruct (unseen (iv_id r :: seen) s) eqn:E.
    + assert (unseen seen s = true) as -> by (apply unseen_spec; apply unseen_spec in E; set_solver). simpl. lia.
    + destruct (unseen seen s); simpl; lia.
Qed.

Lemma found_nil seen : found [] seen seen [].
Proof. split; try (intros; set_solver). constructor. Qed.

Lemma found_app starts1 starts2 seen s1 s2 new1 new2 :
  found starts1 seen s1 new1 -> found starts2 s1 s2 new2 -> found (starts1 ++ starts2) seen s2 (new1 ++ new2).
Proof.
  intros [A1 A2 A3 A4 A5 A6 A7] [B1 B2 B3 B4 B5 B6 B7]. split.
  - intros x. rewrite B1, A1, elem_of_app. tauto.
  - apply NoDup_app. split; [done|]. split; [|done]. intros x Hx Hx2. apply (B3 x Hx2), A1. by left.
  - intros x [Hx|Hx]%elem_of_app; [by apply A3|]. intros Hs. apply (B3 x Hx), A1. by right.
  - intros x [Hx|Hx]%elem_of_app; apply elem_of_app; [left | right]; auto.
  - intros r Hr. rewrite !elem_of_app. intros [Hx|Hx]; [destruct (A5 r Hr Hx) | destruct (B5 r Hr Hx)]; tauto.
  - intros x y [Hx|Hx]%elem_of_app Hc; [|by apply (B6 x)]. apply B1. right. by apply (A6 x).
  - intros x [Hx|Hx]%elem_of_app; [destruct (A7 x Hx) as (Hk & s & Hs & Hr) | destruct (B7 x Hx) as (Hk & s & Hs & Hr)];
      (split; [done|]; exists s; split; [apply elem_of_app; tauto | done]).
Qed.

Lemma found_node id seen seen' starts new :
  known id -> id ∉ seen -> (forall y, y ∈ starts -> child id y) -> (forall y, child id y -> y ∈ id :: seen \/ y ∈ starts) ->
  found starts (id :: seen) seen' new -> found [id] seen seen' (id :: new).
Proof.
  intros Hk Hid Hst Hch [A1 A2 A3 A4 A5 A6 A7]. split.
  - intros x. rewrite A1. set_solver.
  - constructor; [|done]. intros Hx. apply (A3 id Hx). left.
  - intros x [-> |Hx]%elem_of_cons; [done|]. intros Hs. apply (A3 x Hx). by right.
  - set_solver.
  - intros r Hr [-> |Hx]%elem_of_cons; [left; left|]. right. destruct (A5 r Hr Hx) as [Hs|Hd]; [|by right].
    destruct (Hst _ Hs) as (s & Hs' & <- & E). rewrite (row_unique rows s r Hids Hs' Hr E). left.
  - intros x y [-> |Hx]%elem_of_cons Hc; [|by apply (A6 x)]. apply A1. destruct (Hch y Hc) as [?|?]; [by right | left; auto].
  - intros x [-> |Hx]%elem_of_cons; [split; [done|]; exists id; split; [left | done]|].
    destruct (A7 x Hx) as (Hkx & s & Hs & Hr). split; [done|]. exists id. split; [left|]. eapply rtc_l; [by apply Hst | done].
Qed.

Definition visits (bound : nat) (visit : InvocationRow -> list string -> option (list string * DelegationNode)) : Prop :=
  forall r seen, r ∈ rows -> iv_id r ∉ seen -> (left_over seen <= bound)%nat ->
  exists seen' n, visit r seen = Some (seen', n) /\ found [iv_id r] seen seen' (node_ids n) /\ faithful n
    /\ ni_driverAgentId (nd_info n) = iv_driver r.

(** Siblings: their driver was seen before, so none is found under another. *)
Lemma walk_found bound visit p l seen :
  visits bound visit -> p ∈ seen -> NoDup (map iv_id l) -> (left_over seen <= bound)%nat ->
  (forall r, r ∈ l -> r ∈ rows /\ iv_driver r = p /\ iv_id r ∉ seen) ->
  exists seen' ns, walk visit l seen = Some (seen', ns) /\ found (map iv_id l) seen seen' (nodes_ids ns)
    /\ Forall faithful ns /\ Forall (fun n => ni_driverAgentId (nd_info n) = p) ns.
Proof.
  intros Hv. revert seen. induction l as [|r l IH]; intros seen Hp Hnd Hle Hl.
  { exists seen, []. split; [done|]. split; [apply found_nil | by repeat constructor]. }
  destruct (Hl r) as (Hr & Hd & Hn); [left|]. destruct (Hv r seen Hr Hn Hle) as (s1 & n & E1 & F1 & Hf & Hdn).
  simpl in Hnd. apply NoDup_cons in Hnd as [Hni Hnd].
  destruct (IH s1) as (s2 & ns & E2 & F2 & Hfs & Hds).
  - apply (fd_seen _ _ _ _ F1). by right.
  - done.
  - etrans; [|exact Hle]. apply left_over_mono. intros x Hx. apply (fd_seen _ _ _ _ F1). by right.
  - intros k Hk. destruct (Hl k) as (Hkr & Hkd & Hkn); [by right|]. split; [done|]. split; [done|].
    intros [Hx|Hx]%(fd_seen _ _ _ _ F1); [|done]. destruct (fd_driver _ _ _ _ F1 k Hkr Hx) as [Hs|Hs].
    + apply list_elem_of_singleton in Hs. apply Hni. rewrite <- Hs. apply list_elem_of_fmap. by exists k.
    + apply (fd_new _ _ _ _ F1 _ Hs). by rewrite Hkd.
  - exists s2, (n :: ns). simpl. rewrite E1, E2. split; [done|]. split; [exact (found_app [iv_id r] _ _ _ _ _ _ F1 F2)|].
    split; constructor; try done. congruence.
Qed.

Lemma subtree_found fuel : visits fuel (subtree fuel).
Proof.
  induction fuel as [|fuel IH]; intros r seen Hr Hn Hle.
  { pose proof (left_over_less seen r Hr Hn). lia. }
  simpl. destruct (walk_found fuel (subtree fuel) (iv_id r) (List.filter (unseen (iv_id r :: seen)) (childrenOf (iv_id r))) (iv_id r :: seen) IH)
    as (seen' & ns & E & F & Hf & Hd).
  - left.
  - by do 2 apply filter_map_NoDup.
  - pose proof (left_over_less seen r Hr Hn). lia.
  - intros k [[Hk Hkd]%childrenOf_spec Hu%unseen_spec]%elem_filter. done.
  - rewrite E. exists seen', (toNode r ns). split; [done|]. rewrite node_ids_unfold. split; [|split; [by constructor | done]].
    apply (found_node _ _ _ (map iv_id (List.filter (unseen (iv_id r :: seen)) (childrenOf (iv_id r))))); [by exists r | done | | | done].
    + intros y Hy. apply list_elem_of_fmap in Hy as (k & -> & [[Hk Hkd]%childrenOf_spec _]%elem_filter). by exists k.
    + intros y (k & Hk & Hkd & <-). destruct (decide (iv_id k ∈ iv_id r :: seen)) as [?|Hnew]; [by left | right].
      apply list_elem_of_fmap. exists k. split; [done|]. apply elem_filter. by rewrite unseen_spec, childrenOf_spec.
Qed.

Lemma byId_spec id : match byId id with Some r => r ∈ rows /\ iv_id r = id | None => ~ known id end.
Proof.
  unfold byId. destruct (last _) as [r|] eqn:E.
  - apply last_Some_elem_of, elem_filter in E as [? E]. by apply String.eqb_eq in E.
  - apply last_None in E. intros (r & Hr & Hid). assert (r ∈ List.filter (Invocations.byId id) rows) as Hx; [|by rewrite E in Hx; apply elem_of_nil in Hx].
    apply elem_filter. split; [done|]. unfold Invocations.byId. rewrite Hid. apply String.eqb_refl.
Qed.

(** The starts that count are those that were known and not seen. *)
Lemma forest_found ids seen :
  exists seen' ns starts, forest ids seen = Some (seen', ns) /\ found starts seen seen' (nodes_ids ns) /\ Forall faithful ns
    /\ (forall x, x ∈ starts -> x ∈ ids) /\ (forall id, id ∈ ids -> known id -> id ∈ seen').
Proof.
  revert seen. induction ids as [|id ids IH]; intros seen.
  { exists seen, [], []. split; [done|]. split; [apply found_nil|]. split; [done|]. split; intros ? ?%elem_of_nil; done. }
  simpl. pose proof (byId_spec id) as Hid. destruct (byId id) as [r|].
  - destruct Hid as [Hr <-]. destruct (unseen seen r) eqn:Eu.
    + apply unseen_spec in Eu. destruct (subtree_found (length rows) r seen Hr Eu) as (s1 & n & -> & F1 & Hf & _); [by apply List.filter_length_le|].
      destruct (IH s1) as (s2 & ns & starts & -> & F2 & Hfs & Hst & Hin). exists s2, (n :: ns), (iv_id r :: starts). split; [done|].
      split; [exact (found_app [iv_id r] starts _ _ _ _ _ F1 F2)|]. split; [by constructor|]. split; [set_solver|].
      intros x [-> |Hx]%elem_of_cons Hk; [|by apply Hin]. apply (fd_seen _ _ _ _ F2). right. apply (fd_seen _ _ _ _ F1). left. apply (fd_starts _ _ _ _ F1). left.
    + destruct (IH seen) as (s2 & ns & starts & -> & F2 & Hfs & Hst & Hin). exists s2, ns, starts. split; [done|]. split; [done|]. split; [done|].
      split; [set_solver|]. intros x [-> |Hx]%elem_of_cons Hk; [|by apply Hin]. apply (fd_seen _ _ _ _ F2). right.
      destruct (decide (iv_id r ∈ seen)) as [?|Hn]; [done|]. apply unseen_spec in Hn. congruence.
  - destruct (IH seen) as (s2 & ns & starts & -> & F2 & Hfs & Hst & Hin). exists s2, ns, starts. split; [done|]. split; [done|]. split; [done|].
    split; [set_solver|]. intros x [-> |Hx]%elem_of_cons Hk; [done | by apply Hin].
Qed.

(** C30: The tree of a driver's delegations is whole and has no row twice: whatever
    the rows' links, cycles included, the walk ends; the nodes are exactly the
    rows under the ids asked for, at any depth, once each; and every node is its
    row's and stands under the node of the row's driver. *)
Theorem tree_lists_each_once ids :
  exists ns, buildDelegationTree ids = Some ns /\ NoDup (nodes_ids ns) /\ Forall faithful ns /\
    forall x, x ∈ nodes_ids ns <-> known x /\ exists id, id ∈ ids /\ known id /\ rtc child id x.
Proof.
  unfold buildDelegationTree. destruct (forest_found ids []) as (seen & ns & starts & -> & F & Hf & Hst & Hin). exists ns.
  assert (forall x, x ∈ seen <-> x ∈ nodes_ids ns) as Hseen by (intros x; rewrite (fd_seen _ _ _ _ F); set_solver).
  split; [done|]. split; [apply F|]. split; [done|]. intros x. split.
  - intros Hx. destruct (fd_reach _ _ _ _ F x Hx) as (Hk & s & Hs & Hr). split; [done|]. exists s. split; [by apply Hst|].
    split; [|done]. apply (fd_reach _ _ _ _ F). by apply (fd_starts _ _ _ _ F).
  - intros (_ & id & Hid & Hk & Hr). apply Hseen. specialize (Hin id Hid Hk). clear Hid Hk. induction Hr as [|a b c Hc Hr IH]; [done|].
    apply IH. apply Hseen in Hin. by apply (fd_closed _ _ _ _ F a).
Qed.
End Tree.

(** ** The owner's reads *)
Definition DELEGATION_TREE_ROW_LIMIT : nat := 2000.

Section Query.
Context (owner : string) (table : Table).

Definition rootOf (driverAgentId : string) : string :=
  match get driverAgentId table with Some r => iv_root r | None => driverAgentId end.
Definition ownedRowsOfRoot (driverAgentId : string) : list InvocationRow :=
  List.filter (fun r => String.eqb (iv_owner r) owner) (listByRoot (rootOf driverAgentId) DELEGATION_TREE_ROW_LIMIT table).

Definition tree (driverAgentId : string) (ids : list string) : option (list DelegationNode) :=
  buildDelegationTree (ownedRowsOfRoot driverAgentId) ids.

(** [sessionId]: absent, or the chat's session, which may be none yet. *)
Definition runningTree (driverAgentId : string) (sessionId : option (option string)) : option (list DelegationNode) :=
  let shown r := String.eqb (iv_owner r) owner && match sessionId with None => true | Some s => shownInSession r s end in
  match map iv_id (List.filter shown (listRunningByDriver driverAgentId table)) with
  | [] => Some []
  | ids => buildDelegationTree (ownedRowsOfRoot driverAgentId) ids
  end.

(** [frames]: what is kept for the id on its root's volume. *)
Definition transcript (frames : string -> string -> option (list string)) (driverAgentId id : string) : option (list string * bool) :=
  match get id table with
  | Some r =>
      if String.eqb (iv_owner r) owner && String.eqb (iv_root r) (rootOf driverAgentId) then
        match iv_transcript r with
        | Some truncated => option_map (fun l => (l, truncated)) (frames (rootOf driverAgentId) id)
        | None => None
        end
      else None
  | None => None
  end.

Lemma owned_rows driverAgentId r :
  r ∈ ownedRowsOfRoot driverAgentId -> r ∈ table /\ iv_owner r = owner /\ iv_root r = rootOf driverAgentId.
Proof.
  unfold ownedRowsOfRoot, listByRoot. intros [Hr Ho%String.eqb_eq]%elem_filter. rewrite <- (Permutation_rev _) in Hr.
  apply elem_of_take in Hr as (i & Hi & _). apply list_elem_of_lookup_2, js_sort_elem, elem_filter in Hi as [? ?%String.eqb_eq]. done.
Qed.

Lemma owned_rows_NoDup driverAgentId : NoDup (map iv_id table) -> NoDup (map iv_id (ownedRowsOfRoot driverAgentId)).
Proof.
  intros H. unfold ownedRowsOfRoot, listByRoot. apply filter_map_NoDup. rewrite <- (Permutation_rev _).
  eapply (sublist_NoDup _ (map iv_id (js_sort newestFirst _))); [|apply (fmap_sublist iv_id), sublist_take].
  rewrite (Permutation_map iv_id (js_sort_perm newestFirst _)). by apply filter_map_NoDup.
Qed.
End Query.

(** ** At a concrete input: two that drive each other, and one under them *)
Definition demoLink (id driver : string) : InvocationRow :=
  mk_irow (demoSpec id driver) None 60000 notEnded None None None None (mk_marks None None None None).
Definition demoRows : list InvocationRow := [demoLink "a" "b"; demoLink "b" "a"; demoLink "c" "b"; demoLink "d" "root"].

Lemma tree_lists_each_once_witness :
  option_map nodes_ids (buildDelegationTree demoRows ["c"; "a"; "x"; "b"]%string) = Some ["c"; "a"; "b"]%string /\
  exists ns, buildDelegationTree demoRows ["c"; "a"; "x"; "b"]%string = Some ns /\ NoDup (nodes_ids ns).
Proof.
  split; [by vm_compute|].
  destruct (tree_lists_each_once demoRows ltac:(by apply (bool_decide_unpack _)) ["c"; "a"; "x"; "b"]%string) as (ns & E & H & _).
  by exists ns.
Defined.
