(* ===== verification/SubAgentOutcomes.v ===== *)
(** How a driver is told of the sub-agents it spawned
    (packages/api-server/src/modules/invocations/infrastructure/
    sub-agent-outcomes-repository.ts, services/outcome-delivery.ts and
    core/outcome-turn.ts).

    Ticks of several servers may overlap, and each is cut where it awaits: the
    select and the update of its claim, and for each driver the release of what
    the turn has no room for, the write of the turn, its mark and the wake.  A cut
    may fail before its effect or after it ([fault]), a tick may die at any cut,
    and the invocations go on meanwhile.  The dash of a description is kept as its
    three bytes, and lengths count bytes. *)
From stdpp Require Import base strings list sets sorting pretty.
From Stdlib Require Import ZArith Lia.
From S2P Require Import Prelude JsString SpendLimits AcpFrames Invocations.
Local Open Scope Z_scope.

(** ** The turn *)
Definition MAX_TURN_CHARS : Z := 64 * 1024.
Definition EVENT_TTL_MS : Z := 7 * 24 * 60 * 60 * 1000.
Definition NL : string := String (Ascii.ascii_of_nat 10) "".

Section Compose.
Context (trimHint : string).
Definition trimNote : string := (NL ++ "(trimmed to fit this turn; " ++ trimHint ++ ")")%string.
Definition trimmed (budget : Z) (part : string) : string :=
  if budget <? slen part + 1 then (str_take (Z.to_nat (Z.max (budget - 1) 0)) part ++ trimNote)%string else part.

(** The loop, with the number of parts so far. *)
Fixpoint partsOf (l : list string) (n : nat) (budget : Z) : list string :=
  match l with
  | [] => []
  | part :: l =>
      if (0 <? n)%nat && (budget <? slen part + 1) then []
      else let t := trimmed budget part in t :: partsOf l (S n) (budget - (slen t + 1))
  end.

Definition composeOutcomeTurn (descriptions : list string) (subject : nat -> string) (maxPerTurn : nat) : nat * string :=
  let parts := partsOf (take maxPerTurn descriptions) 0 MAX_TURN_CHARS in
  (length parts,
   str_join NL ([subject (length parts); ""%string] ++ parts
     ++ [""%string; "Carry on with whatever you were asked to do with this result. If nothing was asked, summarize it briefly."%string])).

Definition chars (parts : list string) : Z := sumZ (fun p => slen p + 1) parts.

Lemma slen_app a b : slen (a ++ b) = slen a + slen b.
Proof. unfold slen. induction a as [|c a IH]; [done|]. simpl. lia. Qed.
Lemma slen_take n s : slen (str_take n s) <= Z.of_nat n.
Proof. unfold slen. revert n. induction s as [|c s IH]; intros [|n]; simpl; try lia. specialize (IH n). lia. Qed.
Lemma slen_nonneg s : 0 <= slen s.
Proof. unfold slen. lia. Qed.

Lemma parts_bounded l n budget : (0 < n)%nat -> chars (partsOf l n budget) <= Z.max budget 0.
Proof.
  revert n budget. induction l as [|part l IH]; intros n budget Hn; simpl; [lia|].
  rewrite (proj2 (Nat.ltb_lt _ _) Hn). simpl. destruct (Z.ltb_spec budget (slen part + 1)) as [H|H]; [unfold chars; simpl; lia|].
  unfold trimmed. rewrite (proj2 (Z.ltb_ge _ _) H). unfold chars in *. simpl. specialize (IH (S n) (budget - (slen part + 1)) ltac:(lia)). lia.
Qed.

(** A turn tells at least one outcome and no more than it may, in order; only the
    first can be cut short, and all of them together keep to the budget. *)
Lemma turn_is_bounded descriptions subject maxPerTurn :
  (0 < maxPerTurn)%nat -> descriptions <> [] ->
  let told := (composeOutcomeTurn descriptions subject maxPerTurn).1 in
  (0 < told <= Nat.min maxPerTurn (length descriptions))%nat /\
  chars (partsOf (take maxPerTurn descriptions) 0 MAX_TURN_CHARS) <= MAX_TURN_CHARS + slen trimNote.
Proof.
  intros Hm Hd. unfold composeOutcomeTurn. simpl. destruct descriptions as [|d ds]; [done|]. destruct maxPerTurn as [|m]; [lia|].
  assert (forall l n b, (length (partsOf l n b) <= length l)%nat) as Hlen.
  { induction l as [|p l IH]; intros n b; simpl; [lia|]. destruct (_ && _); simpl; [lia|]. specialize (IH (S n) (b - (slen (trimmed b p) + 1))). lia. }
  simpl. split.
  - specialize (Hlen (take m ds) 1%nat (MAX_TURN_CHARS - (slen (trimmed MAX_TURN_CHARS d) + 1))). rewrite length_take in Hlen. lia.
  - unfold chars. simpl. pose proof (parts_bounded (take m ds) 1 (MAX_TURN_CHARS - (slen (trimmed MAX_TURN_CHARS d) + 1)) ltac:(lia)) as H.
    unfold chars in H. pose proof (slen_nonneg trimNote). unfold trimmed in *. destruct (Z.ltb_spec MAX_TURN_CHARS (slen d + 1)); [|lia].
    rewrite slen_app in *. pose proof (slen_take (Z.to_nat (Z.max (MAX_TURN_CHARS - 1) 0)) d). unfold MAX_TURN_CHARS in *. lia.
Qed.
End Compose.

Implicit Types (now : Z) (t : Table) (r : InvocationRow).

(** ** The statements *)
Definition CLAIM_BATCH : nat := 100.
Definition CLAIM_LEASE_MS : Z := 60000.
Definition MAX_OUTCOMES_PER_TURN : nat := 20.
Definition RETRY_BATCH : nat := 200.

Definition terminalToolOutcome (r : InvocationRow) : bool :=
  bool_decide (sp_origin (iv_spec r) = og_tool) && negb (running r).
Definition over (until : option Z) (now : Z) : bool := match until with None => true | Some u => u <? now end.
Definition undelivered (r : InvocationRow) : bool := bool_decide (mk_deliveredAt (iv_marks r) = None).
Definition claimable (now : Z) (r : InvocationRow) : bool :=
  terminalToolOutcome r && undelivered r && over (mk_awaitedUntil (iv_marks r)) now && over (mk_claimedUntil (iv_marks r)) now.

Definition set_marks (f : Marks -> Marks) (r : InvocationRow) : InvocationRow := with_marks (f (iv_marks r)) r.
Definition of_driver (driver : string) (ids : list string) (r : InvocationRow) : bool :=
  String.eqb (iv_driver r) driver && includes ids (iv_id r).

Definition markAwaited driver ids (until : Z) (t : Table) : Table :=
  update (of_driver driver ids) (set_marks (fun m => mk_marks (Some until) (mk_claimedUntil m) (mk_deliveredAt m) (mk_wokeAt m))) t.
Definition markCollected driver ids now (t : Table) : Table :=
  update (fun r => of_driver driver ids r && undelivered r) (set_marks (fun m => mk_marks (mk_awaitedUntil m) None (Some now) (Some now))) t.

Definition byCompletion (a b : InvocationRow) : Z :=
  (en_completedAt (iv_ending a) ?? 0) - (en_completedAt (iv_ending b) ?? 0).
Definition oldestClaimable (limit : nat) now (t : Table) : list string :=
  map iv_id (take limit (js_sort byCompletion (List.filter (claimable now) t))).
Definition claims (oldest : list string) now (r : InvocationRow) : bool := claimable now r && includes oldest (iv_id r).
Definition claimed (until : Z) : InvocationRow -> InvocationRow :=
  set_marks (fun m => mk_marks (mk_awaitedUntil m) (Some until) (mk_deliveredAt m) (mk_wokeAt m)).
Definition claimUpdate (oldest : list string) (until : Z) now (t : Table) : Table * list InvocationRow :=
  (update (claims oldest now) (claimed until) t, map (claimed until) (List.filter (claims oldest now) t)).

Definition held (ids : list string) (lease : Z) (r : InvocationRow) : bool :=
  includes ids (iv_id r) && bool_decide (mk_claimedUntil (iv_marks r) = Some lease) && undelivered r.
Definition release ids (lease : Z) (t : Table) : Table :=
  update (held ids lease) (set_marks (fun m => mk_marks (mk_awaitedUntil m) None (mk_deliveredAt m) (mk_wokeAt m))) t.
Definition markDelivered ids (lease : Z) now (t : Table) : Table :=
  update (held ids lease) (set_marks (fun m => mk_marks (mk_awaitedUntil m) None (Some now) (mk_wokeAt m))) t.
Definition markWoken ids now (t : Table) : Table :=
  update (fun r => includes ids (iv_id r)) (set_marks (fun m => mk_marks (mk_awaitedUntil m) (mk_claimedUntil m) (mk_deliveredAt m) (Some now))) t.
Definition listDeliveredUnwoken (limit : nat) (t : Table) : list InvocationRow :=
  take limit (List.filter (fun r => terminalToolOutcome r && negb (undelivered r) && bool_decide (mk_wokeAt (iv_marks r) = None)) t).

(** ** A tick *)

(** [JSON.stringify(value, null, 2)], within [gap]. *)
Fixpoint stringify2 (gap : string) (j : json) : string :=
  let inner := (gap ++ "  ")%string in
  let wrap (l r : string) (parts : list string) :=
    match parts with
    | [] => l ++ r
    | _ => l ++ NL ++ inner ++ str_join ("," ++ NL ++ inner) parts ++ NL ++ gap ++ r
    end%string in
  match j with
  | jnull => "null"
  | jbool b => if b then "true" else "false"
  | jnum z => pretty z
  | jstr s => json_string s
  | jarr l => wrap "[" "]" (map (stringify2 inner) l)
  | jobj l => wrap "{" "}" (map (fun kv => json_string kv.1 ++ ": " ++ stringify2 inner kv.2) l)
  end%string.


Definition describeScript (name : string) (r : InvocationRow) : string :=
  let ended := match iv_status r with
    | st_done => (name ++ ": the script is done, exit code 0.")%string
    | _ => (name ++ ": the script failed: " ++ (en_errorReason (iv_ending r) ?? "no reason recorded") ++ ".")%string
    end in
  let size s := match iv_output r ≫= ou_get s with Some b => bl_sizeBytes b | None => 0 end in
  let text s := match s with os_stdout => "stdout"%string | os_stderr => "stderr"%string end in
  match heldStreams (iv_output r) with
  | [] => (ended ++ " It left no output to read.")%string
  | l => (ended ++ " Its " ++ str_join ", " (map (fun s => text s ++ " is " ++ pretty (size s) ++ " bytes") l)
           ++ "; call await_subagents with this id to see their start and end, or fetch_subagent_output to save one in full to a file.")%string
  end.
Definition describe (r : InvocationRow) : string :=
  let name := match sp_label (iv_spec r) ≫= or_null with Some l => (l ++ " (" ++ iv_id r ++ ")")%string | None => iv_id r end in
  match sp_script (iv_spec r) with
  | Some _ => describeScript name r
  | None =>
      match iv_status r with
      | st_done => (name ++ " — done. Result:" ++ NL ++ stringify2 "" (en_result (iv_ending r) ?? jnull))%string
      | _ => (name ++ " — failed: " ++ (en_errorReason (iv_ending r) ?? "no reason recorded"))%string
      end
  end.

Definition Group : Type := string * list InvocationRow.
Definition byDriver (rows : list InvocationRow) : list Group :=
  foldl (fun g r => om_set (iv_driver r) ((om_get (iv_driver r) g ?? []) ++ [r]) g) [] rows.

Definition subject (count : nat) : string :=
  if (count =? 1)%nat then "A sub-agent you spawned has finished." else (pretty count ++ " sub-agents you spawned have finished.")%string.
Definition turnOf (g : Group) : nat * string :=
  composeOutcomeTurn "call await_subagents with this id for the full result" (map describe g.2) subject MAX_OUTCOMES_PER_TURN.
Definition told (g : Group) : list string := map iv_id (take (turnOf g).1 g.2).
Definition untold (g : Group) : list string := map iv_id (drop (turnOf g).1 g.2).

Record Turn := mk_turn { tn_agentId : string; tn_ids : list string; tn_task : string; tn_expiresAt : Z }.

Inductive TickStep :=
| ts_claim (oldest : list string)
| ts_release (g : Group)
| ts_write (g : Group)
| ts_giveBack (g : Group)
| ts_mark (g : Group)
| ts_wake (g : Group)
| ts_over.
Record Tick := mk_tick { tk_lease : Z; tk_at : TickStep; tk_todo : list Group }.

Record OW := mk_ow {
  ow_table : Table;
  ow_turns : list Turn;
  ow_ticks : list Tick;
  (** the ids an answered await told its driver of *)
  ow_collected : list string;
}.

Definition effect (f : fault) : bool := match f with FailBefore => false | _ => true end.
Definition failed (f : fault) : bool := match f with NoFault => false | _ => true end.

(** The [for] of the tick. *)
Definition nextGroup (k : Tick) : Tick :=
  match tk_todo k with
  | [] => mk_tick (tk_lease k) ts_over []
  | g :: todo => mk_tick (tk_lease k) (ts_release g) todo
  end.
Definition goto (s : TickStep) (k : Tick) : Tick := mk_tick (tk_lease k) s (tk_todo k).

(** One cut of [deliverTo] and [deliverOutcomeTurn]; what throws is caught by the
    loop, but for a failed write, which gives the rows back. *)
Definition tick_step (f : fault) (now : Z) (k : Tick) (t : Table) (turns : list Turn) : Table * list Turn * Tick :=
  let eff (a b : Table) := if effect f then a else b in
  match tk_at k with
  | ts_claim oldest =>
      let '(t', rows) := claimUpdate oldest (tk_lease k) now t in
      (eff t' t, turns, if failed f then goto ts_over k else nextGroup (mk_tick (tk_lease k) ts_over (byDriver rows)))
  | ts_release g => (eff (release (untold g) (tk_lease k) t) t, turns, if failed f then nextGroup k else goto (ts_write g) k)
  | ts_write g =>
      (t, (if effect f then turns ++ [mk_turn g.1 (told g) (turnOf g).2 (now + EVENT_TTL_MS)] else turns),
       goto (if failed f then ts_giveBack g else ts_mark g) k)
  | ts_giveBack g => (eff (release (told g) (tk_lease k) t) t, turns, nextGroup k)
  | ts_mark g => (eff (markDelivered (told g) (tk_lease k) now t) t, turns, if failed f then nextGroup k else goto (ts_wake g) k)
  | ts_wake g => (eff (markWoken (told g) now t) t, turns, nextGroup k)
  | ts_over => (t, turns, k)
  end.

Inductive OutcomeOp :=
| oo_begin now
| oo_step (i : nat) (f : fault) now
| oo_crash (i : nat)
| oo_await (driver : string) (ids : list string) (until : Z)
| oo_collect (driver : string) (ids : list string) now
| oo_woken (ids : list string) now
| oo_other (q : Statement).

Definition set_tick (i : nat) (k : Tick) (w : OW) : OW := mk_ow (ow_table w) (ow_turns w) (<[i := k]> (ow_ticks w)) (ow_collected w).
Definition set_table (t : Table) (w : OW) : OW := mk_ow t (ow_turns w) (ow_ticks w) (ow_collected w).

Definition oo_apply (op : OutcomeOp) (w : OW) : OW :=
  match op with
  | oo_begin now =>
      mk_ow (ow_table w) (ow_turns w)
        (ow_ticks w ++ [mk_tick (now + CLAIM_LEASE_MS) (ts_claim (oldestClaimable CLAIM_BATCH now (ow_table w))) []]) (ow_collected w)
  | oo_step i f now =>
      match ow_ticks w !! i with
      | Some k => let '(t, turns, k') := tick_step f now k (ow_table w) (ow_turns w) in mk_ow t turns (<[i := k']> (ow_ticks w)) (ow_collected w)
      | None => w
      end
  | oo_crash i => match ow_ticks w !! i with Some k => set_tick i (goto ts_over k) w | None => w end
  | oo_await driver ids until => set_table (markAwaited driver ids until (ow_table w)) w
  | oo_collect driver ids now =>
      mk_ow (markCollected driver ids now (ow_table w)) (ow_turns w) (ow_ticks w)
        (ow_collected w ++ map iv_id (List.filter (of_driver driver ids) (ow_table w)))
  | oo_woken ids now => set_table (markWoken ids now (ow_table w)) w
  | oo_other q => set_table (q_step q (ow_table w)).1 w
  end.
Definition oo_run (ops : list OutcomeOp) (w : OW) : OW := foldl (fun w op => oo_apply op w) w ops.

(** ** What is marked as told was told *)

(** The groups a tick still works on. *)
Definition at_groups (s : TickStep) : list Group :=
  match s with ts_release g | ts_write g | ts_giveBack g | ts_mark g | ts_wake g => [g] | _ => [] end.
Definition tick_groups (k : Tick) : list Group := at_groups (tk_at k) ++ tk_todo k.

Definition was_told (turns : list Turn) (collected : list string) (r : InvocationRow) : Prop :=
  iv_id r ∈ collected \/ exists tn, tn ∈ turns /\ tn_agentId tn = iv_driver r /\ iv_id r ∈ tn_ids tn.

Definition marking (s : TickStep) : option Group := match s with ts_mark g | ts_wake g => Some g | _ => None end.

Record tick_ok (t : Table) (turns : list Turn) (k : Tick) : Prop := mk_tick_ok {
  to_groups : forall g s, g ∈ tick_groups k -> s ∈ g.2 -> iv_driver s = g.1 /\ forall r, r ∈ t -> iv_id r = iv_id s -> iv_driver r = iv_driver s;
  to_written : forall g, marking (tk_at k) = Some g -> exists tn, tn ∈ turns /\ tn_agentId tn = g.1 /\ tn_ids tn = told g;
}.

Record ow_ok (w : OW) : Prop := mk_ow_ok {
  ok_NoDup : NoDup (map iv_id (ow_table w));
  ok_told : forall r, r ∈ ow_table w -> undelivered r = false -> was_told (ow_turns w) (ow_collected w) r;
  ok_ticks : forall k, k ∈ ow_ticks w -> tick_ok (ow_table w) (ow_turns w) k;
}.

(** Ids are never used again, and nothing else writes the marks. *)
Definition op_ok (op : OutcomeOp) (w : OW) : Prop :=
  match op with
  | oo_other (q_insert n) => forall k g s, k ∈ ow_ticks w -> g ∈ tick_groups k -> s ∈ g.2 -> iv_id s <> sp_id (nw_spec n)
  | oo_other (q_marks _ _) => False
  | _ => True
  end.

(** The rows after a step: those before it, marked as delivered only where [P], and
    new ones with ids for which [N]. *)
Definition comes_from (P : InvocationRow -> Prop) (N : string -> Prop) (t t' : Table) : Prop :=
  forall r', r' ∈ t' ->
    (exists r, r ∈ t /\ iv_spec r' = iv_spec r /\ (undelivered r' = false -> undelivered r = false \/ P r'))
    \/ (N (iv_id r') /\ undelivered r' = true).

Lemma comes_update (P : InvocationRow -> Prop) N p f t :
  (forall r, r ∈ t -> p r = true -> iv_spec (f r) = iv_spec r /\ (undelivered (f r) = false -> undelivered r = false \/ P (f r))) ->
  comes_from P N t (update p f t).
Proof.
  intros H r' Hr. unfold update in Hr. apply list_elem_of_fmap in Hr as (r & -> & Hr). left. exists r. split; [done|].
  destruct (p r) eqn:E; [by apply H | by split; [|left]].
Qed.

Lemma comes_refl P N t : comes_from P N t t.
Proof. intros r Hr. left. exists r. split; [done|]. split; [done | by left]. Qed.
Lemma comes_filter P N p t : comes_from P N t (List.filter p t).
Proof. intros r [Hr _]%elem_filter. by apply comes_refl. Qed.

Lemma told_driver t turns k g r :
  tick_ok t turns k -> g ∈ tick_groups k -> r ∈ t -> iv_id r ∈ map iv_id g.2 -> iv_driver r = g.1.
Proof.
  intros Hk Hg Hr Hin. apply list_elem_of_fmap in Hin as (s & E & Hs). destruct (to_groups _ _ _ Hk g s Hg Hs) as [<- H]. by apply H.
Qed.

Lemma told_ids g id : id ∈ told g -> id ∈ map iv_id g.2.
Proof.
  unfold told. intros H. apply list_elem_of_fmap in H as (s & -> & Hs). apply list_elem_of_fmap. exists s. split; [done|].
  apply elem_of_take in Hs as (i & Hi & _). by eapply list_elem_of_lookup_2.
Qed.

(** A row-wise step keeps the invariant, given the ticks after it. *)
Lemma ok_step P N w w' :
  ow_ok w -> NoDup (map iv_id (ow_table w')) -> comes_from P N (ow_table w) (ow_table w') ->
  (forall r, P r -> was_told (ow_turns w') (ow_collected w') r) ->
  (forall k g s, k ∈ ow_ticks w' -> g ∈ tick_groups k -> s ∈ g.2 -> ~ N (iv_id s)) ->
  (forall tn, tn ∈ ow_turns w -> tn ∈ ow_turns w') -> (forall x, x ∈ ow_collected w -> x ∈ ow_collected w') ->
  (forall k, k ∈ ow_ticks w' -> tick_ok (ow_table w) (ow_turns w') k) ->
  ow_ok w'.
Proof.
  intros [_ Ht _] Hnd Hc HP HN Hturns Hcol Hk. split; [done | |].
  - intros r' Hr Hd. destruct (Hc r' Hr) as [(r & Hin & E & Hu)|[_ Hu]]; [|congruence]. destruct (Hu Hd) as [Hold|?]; [|by apply HP].
    destruct (Ht r Hin Hold) as [?|(tn & Htn & H1 & H2)]; unfold was_told, iv_id, iv_driver in *; rewrite E; [left; auto | right; exists tn; auto].
  - intros k Hin. specialize (Hk k Hin). split; [|apply (to_written _ _ _ Hk)]. intros g s Hg Hs. destruct (to_groups _ _ _ Hk g s Hg Hs) as [E H].
    split; [done|]. intros r' Hr Hid. destruct (Hc r' Hr) as [(r & Hr0 & Es & _)|[Hn _]].
    + unfold iv_driver, iv_id in *. rewrite Es in *. by apply H.
    + rewrite Hid in Hn. by destruct (HN k g s Hin Hg Hs).
Qed.

Lemma insert_lookup_ticks {w : OW} i k k' : ow_ticks w !! i = Some k -> forall x, x ∈ <[i := k']> (ow_ticks w) -> x = k' \/ x ∈ ow_ticks w.
Proof.
  intros _ x Hx. apply list_elem_of_lookup in Hx as [j Hj]. apply list_lookup_insert_Some in Hj as [(_ & <- & _)|[_ Hj]]; [by left | right].
  by eapply list_elem_of_lookup_2.
Qed.

(** *** The groups *)
Definition push (r : InvocationRow) (m : list Group) : list Group := om_set (iv_driver r) ((om_get (iv_driver r) m ?? []) ++ [r]) m.
Lemma push_cons r d v m : push r ((d, v) :: m) = if decide (iv_driver r = d) then (d, v ++ [r]) :: m else (d, v) :: push r m.
Proof. unfold push. simpl. by destruct (decide _). Qed.

Definition group_ok (g : Group) : Prop := g.2 <> [] /\ Forall (fun s => iv_driver s = g.1) g.2.
Definition members (m : list Group) : list InvocationRow := concat (map snd m).

Lemma push_spec r m : Forall group_ok m -> Forall group_ok (push r m) /\ members (push r m) ≡ₚ r :: members m.
Proof.
  induction m as [|[d v] m IH]; intros Hm.
  { split; [|done]. by repeat constructor. }
  inversion Hm as [|? ? [Hne Hv] Hm']; subst. rewrite push_cons. unfold members. destruct (decide (iv_driver r = d)) as [E|]; simpl.
  - split; [|by rewrite <- app_assoc, (Permutation_middle v)].
    constructor; [|done]. split; simpl; [by destruct v|]. apply Forall_app. by repeat constructor.
  - destruct (IH Hm') as [H1 H2]. split; [by constructor|]. unfold members in H2. rewrite H2. by rewrite Permutation_middle.
Qed.

Lemma byDriver_spec rows : Forall group_ok (byDriver rows) /\ members (byDriver rows) ≡ₚ rows.
Proof.
  unfold byDriver. enough (forall acc, Forall group_ok acc -> Forall group_ok (foldl (fun g r => push r g) acc rows)
    /\ members (foldl (fun g r => push r g) acc rows) ≡ₚ rows ++ members acc) as H.
  { destruct (H [] ltac:(constructor)) as [H1 H2]. split; [exact H1|]. etrans; [exact H2|]. by rewrite app_nil_r. }
  induction rows as [|r rows IH]; intros acc Hacc; simpl; [by split|]. destruct (push_spec r acc Hacc) as [H1 H2].
  destruct (IH _ H1) as [H3 H4]. split; [done|]. rewrite H4, H2. by rewrite Permutation_middle.
Qed.

Lemma byDriver_elem rows g s : g ∈ byDriver rows -> s ∈ g.2 -> iv_driver s = g.1 /\ s ∈ rows.
Proof.
  intros Hg Hs. destruct (byDriver_spec rows) as [H1 H2]. rewrite Forall_forall in H1. destruct (H1 g Hg) as [_ Hd].
  rewrite Forall_forall in Hd. split; [by apply Hd|]. rewrite <- H2. unfold members.
  apply list_elem_of_In, in_concat. exists g.2. split; [|by apply list_elem_of_In]. apply in_map. by apply list_elem_of_In.
Qed.

(** *** The steps *)
Lemma nextGroup_groups k g : g ∈ tick_groups (nextGroup k) -> g ∈ tk_todo k.
Proof. unfold nextGroup, tick_groups. destruct (tk_todo k); simpl; [by intros ?%elem_of_nil | done]. Qed.
Lemma nextGroup_ok t turns k : tick_ok t turns k -> tick_ok t turns (nextGroup k).
Proof.
  intros [H _]. split.
  - intros g s Hg. apply H. unfold tick_groups. apply elem_of_app. right. by apply nextGroup_groups.
  - intros g. unfold nextGroup. by destruct (tk_todo k).
Qed.
Lemma goto_ok t turns s k :
  tick_ok t turns k -> (forall g, g ∈ at_groups s -> g ∈ at_groups (tk_at k)) ->
  (forall g, marking s = Some g -> exists tn, tn ∈ turns /\ tn_agentId tn = g.1 /\ tn_ids tn = told g) -> tick_ok t turns (goto s k).
Proof.
  intros [H _] Hs Hm. split; [|done]. intros g x Hg. apply H. unfold tick_groups in *. simpl in Hg. rewrite elem_of_app in *.
  destruct Hg; [left; auto | by right].
Qed.
Lemma tick_ok_turns t turns turns' k : (forall tn, tn ∈ turns -> tn ∈ turns') -> tick_ok t turns k -> tick_ok t turns' k.
Proof. intros H [H1 H2]. split; [done|]. intros g E. destruct (H2 g E) as (tn & ? & ?). exists tn. auto. Qed.

Lemma marks_comes P N p f t : (forall r, r ∈ t -> p r = true -> mk_deliveredAt (f (iv_marks r)) = mk_deliveredAt (iv_marks r) \/ P (set_marks f r)) ->
  comes_from P N t (update p (set_marks f) t).
Proof.
  intros H. apply comes_update. intros r Hr Hp. split; [done|]. destruct (H r Hr Hp) as [E|?]; [left | by right].
  unfold undelivered in *. simpl in *. by rewrite E in *.
Qed.

Lemma ids_update p f t : NoDup (map iv_id t) -> NoDup (map iv_id (update p (set_marks f) t)).
Proof. intros. by rewrite update_ids. Qed.

Definition no_new : string -> Prop := fun _ => False.
Definition told_by (turns : list Turn) (r : InvocationRow) : Prop :=
  exists tn, tn ∈ turns /\ tn_agentId tn = iv_driver r /\ iv_id r ∈ tn_ids tn.

(** A cut keeps to the invariant of the tables, and of its tick. *)
Lemma tick_step_ok f now k t turns t' turns' k' :
  NoDup (map iv_id t) -> tick_ok t turns k -> tick_step f now k t turns = (t', turns', k') ->
  NoDup (map iv_id t') /\ comes_from (told_by turns) no_new t t' /\ (forall tn, tn ∈ turns -> tn ∈ turns') /\ tick_ok t turns' k'.
Proof.
  intros Hnd Hk. unfold tick_step.
  pose proof (comes_refl (told_by turns) no_new t) as Hsame.
  assert (forall p f, (forall m, mk_deliveredAt (f m) = mk_deliveredAt m) -> comes_from (told_by turns) no_new t (update p (set_marks f) t)) as Hkeep.
  { intros p g Hg. apply marks_comes. intros r _ _. by left. }
  assert (forall (P : Table -> Prop) (b : bool) x y, P x -> P y -> P (if b then x else y)) as Hif by (intros P []; done).
  destruct (tk_at k) as [oldest|g|g|g|g|g|] eqn:Ek; simpl; intros [= <- <- <-].
  - split; [apply Hif; [by apply ids_update | done]|]. split; [apply Hif; [by apply Hkeep | done]|]. split; [done|].
    destruct (failed f); [apply goto_ok; [done | by intros ? ?%elem_of_nil | done]|]. apply nextGroup_ok. split; [|done]. intros g s Hg Hs. unfold tick_groups in Hg. simpl in Hg.
    destruct (byDriver_elem _ _ _ Hg Hs) as [E Hin]. split; [done|]. intros r Hr Hid. apply list_elem_of_fmap in Hin as (s0 & -> & [Hs0 _]%elem_filter).
    change (iv_id r = iv_id s0) in Hid. change (iv_driver r = iv_driver s0). by rewrite (row_unique t r s0 Hnd Hr Hs0 Hid).
  - split; [apply Hif; [by apply ids_update | done]|]. split; [apply Hif; [by apply Hkeep | done]|]. split; [done|].
    destruct (failed f); [by apply nextGroup_ok|]. apply goto_ok; [done | by rewrite Ek | done].
  - assert (forall tn, tn ∈ turns -> tn ∈ (if effect f then turns ++ [mk_turn g.1 (told g) (turnOf g).2 (now + EVENT_TTL_MS)] else turns)) as Hsub.
    { intros tn Htn. destruct (effect f); [|done]. apply elem_of_app. by left. }
    split; [done|]. split; [done|]. split; [done|]. apply goto_ok; [by apply (tick_ok_turns t turns) | rewrite Ek; by destruct (failed f)|].
    intros g0. destruct f; simpl; try done. intros [= <-]. exists (mk_turn g.1 (told g) (turnOf g).2 (now + EVENT_TTL_MS)).
    split; [|done]. apply elem_of_app. right. left.
  - split; [apply Hif; [by apply ids_update | done]|]. split; [apply Hif; [by apply Hkeep | done]|]. split; [done|]. by apply nextGroup_ok.
  - split; [apply Hif; [by apply ids_update | done]|]. split.
    { apply Hif; [|done]. apply marks_comes. intros r Hr Hp. right. destruct (to_written _ _ _ Hk g) as (tn & Htn & E1 & E2); [by rewrite Ek|].
      unfold held in Hp. apply andb_true_iff in Hp as [[Hp _]%andb_true_iff _]. apply includes_spec in Hp. exists tn. split; [done|]. simpl. split.
      - rewrite E1. symmetry. apply (told_driver t turns k g r Hk); [|done | by apply told_ids]. unfold tick_groups. rewrite Ek. left.
      - by rewrite E2. }
    split; [done|]. destruct (failed f); [by apply nextGroup_ok|]. apply goto_ok; [done | by rewrite Ek|]. intros g0 [= <-].
    apply (to_written _ _ _ Hk). by rewrite Ek.
  - split; [apply Hif; [by apply ids_update | done]|]. split; [apply Hif; [by apply Hkeep | done]|]. split; [done|]. by apply nextGroup_ok.
  - done.
Qed.

Lemma other_comes q w : op_ok (oo_other q) w -> exists N, comes_from (fun _ => False) N (ow_table w) (q_step q (ow_table w)).1 /\
  forall k g s, k ∈ ow_ticks w -> g ∈ tick_groups k -> s ∈ g.2 -> ~ N (iv_id s).
Proof.
  intros Hop.
  assert (forall p f, (forall r, iv_spec (f r) = iv_spec r /\ iv_marks (f r) = iv_marks r) -> comes_from (fun _ => False) no_new (ow_table w) (update p f (ow_table w))) as Hu.
  { intros p f Hf. apply comes_update. intros r _ _. destruct (Hf r) as [E1 E2]. split; [done|]. unfold undelivered. rewrite E2. by left. }
  destruct q; simpl in *; try (exists no_new; split; [by apply Hu | by intros ? ? ? _ _ _ ?]); try (exists no_new; split; [by apply comes_filter | by intros ? ? ? _ _ _ ?]); [| |].
  - exists (fun x => x = sp_id (nw_spec n)). split; [|done]. unfold insert. destruct (existsb _ _); simpl.
    + apply comes_refl.
    + intros r [Hr|Hr]%elem_of_app; [exact (comes_refl (fun _ => False) (fun x => x = sp_id (nw_spec n)) (ow_table w) r Hr)|]. apply list_elem_of_singleton in Hr as ->. by right.
  - exists no_new. split; [apply Hu; intros r; by destruct f | by intros ? ? ? _ _ _ ?].
  - exists no_new. split; [apply Hu | by intros ? ? ? _ _ _ ?]. intros r. unfold droppedStream. destruct (iv_output r) as [o|]; [|done].
    by destruct (ou_put s None o) as [[] []].
Qed.

Lemma apply_ok op w : ow_ok w -> op_ok op w -> ow_ok (oo_apply op w).
Proof.
  intros Hok Hop. pose proof Hok as [Hnd Ht Hk]. destruct op as [now|i f now|i|driver ids until|driver ids now|ids now|q]; simpl.
  - split; [done..|]. simpl. intros k [Hin|Hin]%elem_of_app; [by apply Hk|]. apply list_elem_of_singleton in Hin as ->.
    split; [by intros g s ?%elem_of_nil | done].
  - destruct (ow_ticks w !! i) as [k|] eqn:Ei; [|done]. assert (k ∈ ow_ticks w) as Hin by (by eapply list_elem_of_lookup_2).
    destruct (tick_step f now k (ow_table w) (ow_turns w)) as [[t turns] k'] eqn:E.
    destruct (tick_step_ok _ _ _ _ _ _ _ _ Hnd (Hk k Hin) E) as (Hnd' & Hc & Hsub & Hk').
    apply (ok_step (told_by (ow_turns w)) no_new w); simpl; try done.
    + intros r (tn & Htn & H). right. exists tn. auto.
    + intros _ _ _ _ _ _ [].
    + intros x Hx. destruct (insert_lookup_ticks i k k' Ei x Hx) as [->|Hx']; [done|]. apply (tick_ok_turns _ (ow_turns w)); [done | by apply Hk].
  - destruct (ow_ticks w !! i) as [k|] eqn:Ei; [|done]. assert (k ∈ ow_ticks w) as Hin by (by eapply list_elem_of_lookup_2).
    split; [done..|]. simpl. intros x Hx. destruct (insert_lookup_ticks i k (goto ts_over k) Ei x Hx) as [->|Hx']; [|by apply Hk].
    apply goto_ok; [by apply Hk | by intros ? ?%elem_of_nil | done].
  - apply (ok_step (fun _ => False) no_new w); simpl; try done; [by apply ids_update | | intros _ _ _ _ _ _ []].
    apply marks_comes. intros r _ _. by left.
  - apply (ok_step (fun r => of_driver driver ids r = true /\ iv_id r ∈ map iv_id (List.filter (of_driver driver ids) (ow_table w))) no_new w);
      simpl; try done; [by apply ids_update | | | intros _ _ _ _ _ _ [] |].
    + apply marks_comes. intros r Hr [Hp _]%andb_true_iff. right. split; [done|]. apply list_elem_of_fmap. exists r. split; [done|]. by apply elem_filter.
    + intros r [_ Hr]. left. apply elem_of_app. by right.
    + intros x Hx. apply elem_of_app. by left.
  - apply (ok_step (fun _ => False) no_new w); simpl; try done; [by apply ids_update | | intros _ _ _ _ _ _ []].
    apply marks_comes. intros r _ _. by left.
  - destruct (other_comes q w Hop) as (N & Hc & HN). apply (ok_step (fun _ => False) N w); simpl; try done. by apply step_keeps_NoDup.
Qed.

Fixpoint run_ok (ops : list OutcomeOp) (w : OW) : Prop :=
  match ops with [] => True | op :: ops => op_ok op w /\ run_ok ops (oo_apply op w) end.

Lemma oo_run_ok ops w : ow_ok w -> run_ok ops w -> ow_ok (oo_run ops w).
Proof.
  revert w. induction ops as [|op ops IH]; intros w Hok; [done|]. intros [Hop Hrun]. apply IH; [by apply apply_ok | done].
Qed.

(** ** Nothing is forgotten *)
Definition owed (r : InvocationRow) : bool := terminalToolOutcome r && undelivered r.
Definition owing (t : Table) : nat := length (List.filter owed t).
(** Every await and every lease has run out. *)
Definition idle (now : Z) (t : Table) : Prop := forall r, r ∈ t -> owed r = true -> claimable now r = true.

Lemma owing_update p f t : (forall m, mk_deliveredAt (f m) = mk_deliveredAt m \/ mk_deliveredAt (f m) <> None) ->
  (owing (update p (set_marks f) t) <= owing t)%nat /\
  ((exists r, r ∈ t /\ p r = true /\ owed r = true /\ mk_deliveredAt (f (iv_marks r)) <> None) -> (owing (update p (set_marks f) t) < owing t)%nat).
Proof.
  intros Hf. unfold owing, update. induction t as [|r t [IH1 IH2]]; [split; [done | intros (? & ?%elem_of_nil & _); done]|]. simpl.
  assert (owed (if p r then set_marks f r else r) = true -> owed r = true) as Hle.
  { destruct (p r); [|done]. unfold owed, undelivered. intros [H1 H2]%andb_true_iff. apply andb_true_iff. split; [exact H1|].
    apply bool_decide_eq_true in H2. simpl in H2. apply bool_decide_eq_true. destruct (Hf (iv_marks r)) as [E|E]; congruence. }
  split.
  - destruct (owed (if p r then _ else r)); [rewrite Hle by done; simpl; lia|]. destruct (owed r); simpl; lia.
  - intros (s & [-> |Hs]%elem_of_cons & Hp & Ho & Hd).
    + rewrite Hp, Ho. assert (owed (set_marks f r) = false) as ->; [|simpl; lia]. unfold owed. apply andb_false_iff. right. by apply bool_decide_eq_false.
    + assert (length (List.filter owed (map (fun r => if p r then set_marks f r else r) t)) < length (List.filter owed t))%nat by (apply IH2; eauto).
      destruct (owed (if p r then _ else r)); [rewrite Hle by done; simpl; lia|]. destruct (owed r); simpl; lia.
Qed.

(** *** A tick that nothing disturbs *)
Definition quiet_ops (i : nat) now (n : nat) : list OutcomeOp := replicate n (oo_step i NoFault now).
Definition TICK_CUTS : nat := 1 + 4 * CLAIM_BATCH.
Definition quiet_tick now (w : OW) : OW := oo_run (quiet_ops (length (ow_ticks w)) now TICK_CUTS) (oo_apply (oo_begin now) w).

(** The ids a tick may still have to mark or to release. *)
Definition pending (k : Tick) : list string :=
  match tk_at k with
  | ts_release g => map iv_id g.2
  | ts_write g | ts_mark g | ts_giveBack g => told g
  | _ => []
  end ++ map iv_id (members (tk_todo k)).

(** A row that is owed is free, or held by the tick, which will come to it. *)
Record quiet_ok now (k : Tick) (t : Table) : Prop := mk_quiet_ok {
  qo_rows : forall r, r ∈ t -> owed r = true -> over (mk_awaitedUntil (iv_marks r)) now = true /\
    (over (mk_claimedUntil (iv_marks r)) now = true \/ (mk_claimedUntil (iv_marks r) = Some (tk_lease k) /\ iv_id r ∈ pending k));
}.

Definition steps_left (k : Tick) : nat :=
  match tk_at k with ts_claim _ => 1 + 4 * CLAIM_BATCH | ts_release _ => 4 | ts_write _ => 3 | ts_mark _ => 2 | ts_giveBack _ | ts_wake _ => 1 | ts_over => 0 end
  + 4 * length (tk_todo k).

Record shape_ok (k : Tick) : Prop := mk_shape {
  sh_groups : Forall group_ok (tick_groups k);
  sh_NoDup : NoDup (map iv_id (members (tick_groups k)));
}.

(** Either an outcome was marked as told, or the tick is about to mark one. *)
Definition progresses now (before : nat) (k : Tick) (t : Table) : Prop :=
  (owing t < before)%nat \/
  match tk_at k with
  | ts_claim oldest => exists r, r ∈ t /\ claims oldest now r = true
  | ts_release g | ts_write g | ts_mark g =>
      exists r s rest, r ∈ t /\ owed r = true /\ mk_claimedUntil (iv_marks r) = Some (tk_lease k) /\ g.2 = s :: rest /\ iv_id s = iv_id r
  | _ => False
  end.

Lemma pending_next k : pending (nextGroup k) = map iv_id (members (tk_todo k)).
Proof. unfold pending, nextGroup. destruct (tk_todo k) as [|g todo]; [done|]. unfold members. simpl. by rewrite map_app. Qed.

Lemma groups_next k : tick_groups (nextGroup k) = tk_todo k.
Proof. unfold tick_groups, nextGroup. by destruct (tk_todo k). Qed.

Lemma steps_next k : steps_left (nextGroup k) = (4 * length (tk_todo k))%nat.
Proof. unfold steps_left, nextGroup. destruct (tk_todo k) as [|g todo]; simpl; lia. Qed.

Lemma told_untold g : told g ++ untold g = map iv_id g.2.
Proof. unfold told, untold. by rewrite <- map_app, take_drop. Qed.

Lemma told_some g : g.2 <> [] -> (0 < (turnOf g).1)%nat.
Proof.
  intros H. unfold turnOf.
  destruct (turn_is_bounded "call await_subagents with this id for the full result" (map describe g.2) subject MAX_OUTCOMES_PER_TURN) as [[? _] _].
  - unfold MAX_OUTCOMES_PER_TURN. lia.
  - by destruct g.2.
  - done.
Qed.

Lemma head_told g s rest : g.2 = s :: rest -> iv_id s ∈ told g.
Proof.
  intros E. pose proof (told_some g) as H. unfold told. rewrite E in *. destruct (turnOf g).1; [specialize (H ltac:(done)); lia|]. simpl. left.
Qed.

Lemma head_not_untold g s rest : g.2 = s :: rest -> NoDup (map iv_id g.2) -> iv_id s ∉ untold g.
Proof. intros E. rewrite <- told_untold. intros (_ & H & _)%NoDup_app. apply H. by eapply head_told. Qed.

Lemma shape_next k : shape_ok k -> shape_ok (nextGroup k).
Proof.
  intros [H1 H2]. split; rewrite groups_next.
  - unfold tick_groups in H1. by apply Forall_app in H1 as [_ ?].
  - unfold tick_groups, members in *. rewrite map_app, concat_app, map_app in H2. by apply NoDup_app in H2 as (_ & _ & ?).
Qed.

Lemma shape_goto s k : shape_ok k -> at_groups s = at_groups (tk_at k) -> shape_ok (goto s k).
Proof. intros [H1 H2] E. unfold tick_groups in *. split; unfold tick_groups; simpl; by rewrite E. Qed.

(** A change of the marks by the tick: free rows stay free, held ones are freed,
    told or still pending. *)
Lemma quiet_update now k k' t p f :
  quiet_ok now k t -> tk_lease k' = tk_lease k ->
  (forall r, r ∈ t -> p r = true -> mk_awaitedUntil (f (iv_marks r)) = mk_awaitedUntil (iv_marks r)) ->
  (forall r, r ∈ t -> owed r = true -> p r = true -> mk_deliveredAt (f (iv_marks r)) <> None \/ over (mk_claimedUntil (f (iv_marks r))) now = true
     \/ (mk_claimedUntil (f (iv_marks r)) = Some (tk_lease k) /\ iv_id r ∈ pending k')) ->
  (forall r, r ∈ t -> owed r = true -> p r = false -> mk_claimedUntil (iv_marks r) = Some (tk_lease k) -> iv_id r ∈ pending k -> iv_id r ∈ pending k') ->
  (forall r, r ∈ t -> owed (set_marks f r) = true -> mk_deliveredAt (f (iv_marks r)) = None -> owed r = true) ->
  quiet_ok now k' (update p (set_marks f) t).
Proof.
  intros [Hr] El Haw Hp Hn Ho. split. intros r' Hin Hod. unfold update in Hin. apply list_elem_of_fmap in Hin as (r & -> & Hin).
  destruct (p r) eqn:Ep.
  - assert (mk_deliveredAt (f (iv_marks r)) = None) as Hd.
    { unfold owed, undelivered in Hod. apply andb_true_iff in Hod as [_ Hod]. by apply bool_decide_eq_true in Hod. }
    assert (owed r = true) as Hor by by apply Ho. destruct (Hr r Hin Hor) as [Ha _]. simpl. rewrite (Haw r Hin Ep). split; [done|].
    rewrite El. change (iv_id (set_marks f r)) with (iv_id r). destruct (Hp r Hin Hor Ep) as [?|?]; done.
  - destruct (Hr r Hin Hod) as [Ha [?|[E Hpend]]]; (split; [done|]); [by left | right]. rewrite El. split; [done|]. by apply Hn.
Qed.

Lemma quiet_release now ids k k' t :
  quiet_ok now k t -> tk_lease k' = tk_lease k ->
  (forall id, id ∈ pending k -> id ∈ ids \/ id ∈ pending k') -> quiet_ok now k' (release ids (tk_lease k) t).
Proof.
  intros Hq El Hids. apply (quiet_update now k); [done | done | done | | |].
  - intros r _ _ _. right. by left.
  - intros r _ Ho Hh E Hp. destruct (Hids _ Hp) as [Hin|]; [|done]. exfalso. unfold held in Hh. apply andb_true_iff in Ho as [_ Hu].
    by rewrite (proj2 (includes_spec ids (iv_id r)) Hin), E, bool_decide_eq_true_2, Hu in Hh.
  - intros r _ Ho _. exact Ho.
Qed.

Lemma quiet_mark now g k k' t :
  quiet_ok now k t -> tk_lease k' = tk_lease k ->
  (forall id, id ∈ pending k -> id ∈ told g \/ id ∈ pending k') -> quiet_ok now k' (markDelivered (told g) (tk_lease k) now t).
Proof.
  intros Hq El Hids. apply (quiet_update now k); [done | done | done | | |].
  - intros r _ _ _. by left.
  - intros r _ Ho Hh E Hp. destruct (Hids _ Hp) as [Hin|]; [|done]. exfalso. unfold held in Hh. apply andb_true_iff in Ho as [_ Hu].
    by rewrite (proj2 (includes_spec _ (iv_id r)) Hin), E, bool_decide_eq_true_2, Hu in Hh.
  - intros r _ Ho Hd. simpl in Hd. done.
Qed.

Lemma claims_some now t : (exists r, r ∈ t /\ claimable now r = true) ->
  exists r, r ∈ t /\ claims (oldestClaimable CLAIM_BATCH now t) now r = true.
Proof.
  intros (r & Hr & Hc). unfold oldestClaimable.
  destruct (js_sort byCompletion (List.filter (claimable now) t)) as [|r0 l] eqn:E.
  { apply js_sort_nil in E. assert (r ∈ List.filter (claimable now) t) as Hx by (by apply elem_filter). rewrite E in Hx. by apply elem_of_nil in Hx. }
  assert (r0 ∈ js_sort byCompletion (List.filter (claimable now) t)) as H0 by (rewrite E; left).
  apply js_sort_elem, elem_filter in H0 as [H0 Hc0]. exists r0. split; [done|]. unfold claims. rewrite Hc0. apply includes_spec. left.
Qed.

Lemma claimed_few oldest now t :
  NoDup (map iv_id t) -> (length oldest <= CLAIM_BATCH)%nat -> (length (List.filter (claims oldest now) t) <= CLAIM_BATCH)%nat.
Proof.
  intros Hnd Hle. etrans; [|exact Hle]. rewrite <- (length_map iv_id). apply submseteq_length, NoDup_submseteq; [by apply filter_map_NoDup|].
  intros x Hx. apply list_elem_of_fmap in Hx as (r & -> & [_ [_ Hc]%andb_true_iff]%elem_filter). by apply includes_spec.
Qed.

Lemma groups_few m : Forall group_ok m -> (length m <= length (members m))%nat.
Proof.
  induction 1 as [|[d v] m [Hne _] _ IH]; [done|]. unfold members in *. simpl in *. rewrite length_app. destruct v; [done | simpl; lia].
Qed.

(** One undisturbed cut. *)
Record quiet_inv now (before : nat) (k : Tick) (t : Table) : Prop := mk_quiet_inv {
  qi_ok : quiet_ok now k t;
  qi_shape : shape_ok k;
  qi_claim : forall oldest, tk_at k = ts_claim oldest -> tk_todo k = [] /\ (length oldest <= CLAIM_BATCH)%nat;
  qi_over : tk_at k = ts_over -> tk_todo k = [];
  qi_le : (owing t <= before)%nat;
  qi_progress : (0 < before)%nat -> progresses now before k t;
}.

Lemma next_over k : tk_at (nextGroup k) = ts_over -> tk_todo (nextGroup k) = [].
Proof. unfold nextGroup. by destruct (tk_todo k). Qed.

Lemma quiet_claim now before k t oldest :
  NoDup (map iv_id t) -> quiet_inv now before k t -> tk_at k = ts_claim oldest ->
  let '(t', rows) := claimUpdate oldest (tk_lease k) now t in
  let k' := nextGroup (mk_tick (tk_lease k) ts_over (byDriver rows)) in
  quiet_inv now before k' t' /\ (steps_left k' < steps_left k)%nat.
Proof.
  intros Hnd [Hq Hsh Hcl _ Hle Hpr] Ek. unfold claimUpdate. set (rows := map (claimed (tk_lease k)) (List.filter (claims oldest now) t)).
  set (k' := nextGroup _). destruct (byDriver_spec rows) as [Hg Hm]. destruct (Hcl _ Ek) as [Etodo Hlen].
  assert (map iv_id rows = map iv_id (List.filter (claims oldest now) t)) as Eids by (unfold rows; by rewrite map_map).
  assert (pending k' = map iv_id (members (byDriver rows))) as Ep by (unfold k'; by rewrite pending_next).
  assert (owing (update (claims oldest now) (claimed (tk_lease k)) t) <= owing t)%nat as Hle' by (unfold claimed; apply owing_update; by left).
  split; [split|].
  - apply (quiet_update now k); [done | | done | | |].
    + unfold k', nextGroup. simpl. by destruct (byDriver rows).
    + intros r Hr _ Hc. right. right. split; [done|]. rewrite Ep, (Permutation_map iv_id Hm), Eids. apply list_elem_of_fmap. exists r. by rewrite elem_filter.
    + intros r _ _ _ _ Hp. unfold pending in Hp. rewrite Ek, Etodo in Hp. by apply elem_of_nil in Hp.
    + intros r _ Ho _. exact Ho.
  - apply shape_next. split; unfold tick_groups; simpl; [done|]. rewrite (Permutation_map iv_id Hm), Eids. by apply filter_map_NoDup.
  - intros o. unfold k', nextGroup. simpl. by destruct (byDriver rows).
  - apply next_over.
  - lia.
  - intros Hb. destruct (Hpr Hb) as [Hlt|Hp]; [left; lia|]. rewrite Ek in Hp. destruct Hp as (r & Hr & Hc). right.
    assert (claimed (tk_lease k) r ∈ rows) as Hin by (apply list_elem_of_fmap; exists r; by rewrite elem_filter).
    unfold k', nextGroup. simpl. destruct (byDriver rows) as [|g todo] eqn:Eb.
    { rewrite <- Hm in Hin. by apply elem_of_nil in Hin. }
    simpl. inversion Hg as [|? ? [Hne _] _]; subst. destruct g.2 as [|s rest] eqn:Eg; [done|].
    assert (s ∈ rows) as Hs.
    { rewrite <- Hm. unfold members. simpl. rewrite Eg. left. }
    unfold rows in Hs. apply list_elem_of_fmap in Hs as (r0 & -> & [Hr0 Hc0]%elem_filter). exists (claimed (tk_lease k) r0), (claimed (tk_lease k) r0), rest.
    split_and!; try done.
    + unfold update. apply list_elem_of_fmap. exists r0. by rewrite Hc0.
    + unfold claims, claimable in Hc0. apply andb_true_iff in Hc0 as [[[[H1 H2]%andb_true_iff _]%andb_true_iff _]%andb_true_iff _].
      unfold owed. apply andb_true_iff. split; [exact H1 | exact H2].
  - unfold k'. rewrite steps_next. simpl. unfold steps_left. rewrite Ek. pose proof (groups_few _ Hg) as H1.
    assert (length (members (byDriver rows)) = length rows) as H2 by (by rewrite Hm). unfold rows in H2 at 2. rewrite length_map in H2.
    pose proof (claimed_few oldest now t Hnd Hlen). lia.
Qed.

Lemma at_group k g : at_groups (tk_at k) = [g] -> shape_ok k -> group_ok g /\ NoDup (map iv_id g.2).
Proof.
  intros E [H1 H2]. unfold tick_groups in *. rewrite E in *. inversion H1; subst. split; [done|].
  unfold members in H2. simpl in H2. rewrite map_app in H2. by apply NoDup_app in H2 as (? & _).
Qed.

Lemma owing_release ids lease t : (owing (release ids lease t) <= owing t)%nat.
Proof. apply owing_update. by left. Qed.

Lemma quiet_release_cut now before k t g :
  quiet_inv now before k t -> tk_at k = ts_release g ->
  quiet_inv now before (goto (ts_write g) k) (release (untold g) (tk_lease k) t).
Proof.
  intros [Hq Hsh _ _ Hle Hpr] Ek. destruct (at_group k g) as [[Hne _] Hnd]; [by rewrite Ek | done|]. pose proof (owing_release (untold g) (tk_lease k) t).
  split; [| by apply shape_goto; [|rewrite Ek] | done | done | lia|].
  - apply quiet_release; [done | done|]. intros id. unfold pending. rewrite Ek. simpl. rewrite <- told_untold, !elem_of_app. tauto.
  - intros Hb. destruct (Hpr Hb) as [?|Hp]; [left; lia | right]. rewrite Ek in Hp. destruct Hp as (r & s & rest & Hr & Ho & El & Eg & Eid).
    exists r, s, rest. split_and!; try done. unfold release, update. apply list_elem_of_fmap. exists r. split; [|done].
    assert (held (untold g) (tk_lease k) r = false) as ->; [|done]. unfold held. apply andb_false_iff. left. apply andb_false_iff. left.
    apply not_true_iff_false. rewrite includes_spec, <- Eid. by eapply head_not_untold.
Qed.

Lemma quiet_mark_cut now before k t g :
  quiet_inv now before k t -> tk_at k = ts_mark g ->
  quiet_inv now before (goto (ts_wake g) k) (markDelivered (told g) (tk_lease k) now t).
Proof.
  intros [Hq Hsh _ _ Hle Hpr] Ek. destruct (at_group k g) as [[Hne _] _]; [by rewrite Ek | done|].
  destruct (owing_update (held (told g) (tk_lease k)) (fun m => mk_marks (mk_awaitedUntil m) None (Some now) (mk_wokeAt m)) t) as [Hle' Hlt]; [by right|].
  split; [| by apply shape_goto; [|rewrite Ek] | done | done | unfold markDelivered; lia|].
  - apply quiet_mark; [done | done|]. intros id. unfold pending. rewrite Ek. simpl. by rewrite elem_of_app.
  - intros Hb. left. destruct (Hpr Hb) as [?|Hp]; [unfold markDelivered; lia|]. rewrite Ek in Hp. destruct Hp as (r & s & rest & Hr & Ho & El & Eg & Eid).
    eapply Nat.lt_le_trans; [|exact Hle]. apply Hlt. exists r. split; [done|]. split; [|done]. unfold held.
    rewrite (proj2 (includes_spec _ _)) by (rewrite <- Eid; by eapply head_told). rewrite El, bool_decide_eq_true_2 by done.
    by apply andb_true_iff in Ho as [_ ->].
Qed.

Lemma quiet_cut now before k t turns t' turns' k' :
  NoDup (map iv_id t) -> quiet_inv now before k t -> tick_step NoFault now k t turns = (t', turns', k') ->
  quiet_inv now before k' t' /\ (steps_left k' < steps_left k \/ (k' = k /\ tk_at k = ts_over))%nat.
Proof.
  intros Hnd Hi. pose proof Hi as [Hq Hsh Hcl Hov Hle Hpr]. unfold tick_step. destruct (tk_at k) as [oldest|g|g|g|g|g|] eqn:Ek; simpl.
  - destruct (quiet_claim now before k t oldest Hnd Hi Ek) as [H1 H2]. intros [= <- <- <-]. split; [exact H1 | by left].
  - intros [= <- <- <-]. split; [by apply quiet_release_cut|]. left. unfold steps_left. rewrite Ek. simpl. lia.
  - intros [= <- <- <-]. split; [|left; unfold steps_left; rewrite Ek; simpl; lia]. split; [| by apply shape_goto; [|rewrite Ek] | done | done | done|].
    + destruct Hq as [Hr]. split. intros r Hin Ho. unfold pending in *. rewrite Ek in Hr. by apply Hr.
    + intros Hb. unfold progresses in *. rewrite Ek in Hpr. by apply Hpr.
  - intros [= <- <- <-]. pose proof (owing_release (told g) (tk_lease k) t). split; [|left; rewrite steps_next; unfold steps_left; rewrite Ek; simpl; lia].
    split; [| by apply shape_next | | apply next_over | lia |].
    + apply quiet_release; [done | unfold nextGroup; by destruct (tk_todo k)|]. intros id. rewrite pending_next. unfold pending. rewrite Ek. by rewrite elem_of_app.
    + intros o. unfold nextGroup. by destruct (tk_todo k).
    + intros Hb. left. destruct (Hpr Hb) as [?|Hp]; [lia|]. by rewrite Ek in Hp.
  - intros [= <- <- <-]. split; [by apply quiet_mark_cut|]. left. unfold steps_left. rewrite Ek. simpl. lia.
  - intros [= <- <- <-]. destruct (owing_update (fun r => includes (told g) (iv_id r)) (fun m => mk_marks (mk_awaitedUntil m) (mk_claimedUntil m) (mk_deliveredAt m) (Some now)) t)
      as [Hle' _]; [by left|]. split; [|left; rewrite steps_next; unfold steps_left; rewrite Ek; simpl; lia]. split; [| by apply shape_next | | apply next_over | unfold markWoken; lia |].
    + apply (quiet_update now k); [done | unfold nextGroup; by destruct (tk_todo k) | done | | |].
      * intros r Hr Ho _. right. destruct Hq as [Hq]. destruct (Hq r Hr Ho) as [_ [?|[? Hp]]]; [by left | right]. split; [done|].
        rewrite pending_next. unfold pending in Hp. by rewrite Ek in Hp.
      * intros r _ _ _ _ Hp. rewrite pending_next. unfold pending in Hp. by rewrite Ek in Hp.
      * intros r _ Ho _. exact Ho.
    + intros o. unfold nextGroup. by destruct (tk_todo k).
    + intros Hb. left. destruct (Hpr Hb) as [?|Hp]; [unfold markWoken; lia|]. by rewrite Ek in Hp.
  - intros [= <- <- <-]. split; [done|]. by right.
Qed.

(** A whole undisturbed tick. *)
Lemma quiet_run now before i n w k :
  ow_ticks w !! i = Some k -> ow_ok w -> quiet_inv now before k (ow_table w) -> (steps_left k <= n)%nat ->
  let w' := oo_run (quiet_ops i now n) w in
  ow_ok w' /\ exists k', quiet_inv now before k' (ow_table w') /\ (steps_left k' = 0)%nat.
Proof.
  revert w k. induction n as [|n IH]; intros w k Ei Hok Hi Hn; simpl.
  { split; [done|]. exists k. split; [done | lia]. }
  unfold oo_run. simpl. fold (oo_run (quiet_ops i now n) (oo_apply (oo_step i NoFault now) w)).
  assert (ow_ok (oo_apply (oo_step i NoFault now) w)) as Hok' by by apply apply_ok.
  simpl in *. rewrite Ei in *. destruct (tick_step NoFault now k (ow_table w) (ow_turns w)) as [[t turns] k'] eqn:E.
  destruct (quiet_cut now before k _ _ _ _ _ (ok_NoDup _ Hok) Hi E) as [Hi' Hstep].
  apply (IH (mk_ow t turns (<[i:=k']> (ow_ticks w)) (ow_collected w)) k'); [| done | done|].
  - simpl. apply list_lookup_insert_eq. by eapply lookup_lt_Some.
  - destruct Hstep as [?|[-> Hover]]; [lia|]. unfold steps_left. rewrite Hover, (qi_over _ _ _ _ Hi Hover). simpl. lia.
Qed.

(** A tick writes marks only. *)
Definition facts (t : Table) : list (InvocationSpec * Ending) := map (fun r => (iv_spec r, iv_ending r)) t.
Lemma facts_update p f t : facts (update p (set_marks f) t) = facts t.
Proof. unfold facts, update. rewrite map_map. apply map_ext. intros r. by destruct (p r). Qed.

Lemma tick_step_facts f now k t turns : facts (tick_step f now k t turns).1.1 = facts t.
Proof.
  unfold tick_step. destruct (tk_at k) as [oldest|g|g|g|g|g|]; simpl; try done; destruct (effect f); try done; apply facts_update.
Qed.

Lemma quiet_ops_facts i now n w : facts (ow_table (oo_run (quiet_ops i now n) w)) = facts (ow_table w).
Proof.
  revert w. induction n as [|n IH]; intros w; [done|]. unfold oo_run in *. cbn [quiet_ops replicate foldl]. fold (quiet_ops i now n). rewrite IH.
  cbn [oo_apply]. destruct (ow_ticks w !! i) as [k|]; [|done]. pose proof (tick_step_facts NoFault now k (ow_table w) (ow_turns w)) as H.
  by destruct (tick_step _ _ _ _ _) as [[t turns] k'].
Qed.

Lemma quiet_tick_tells now w :
  ow_ok w -> idle now (ow_table w) ->
  let w' := quiet_tick now w in
  ow_ok w' /\ idle now (ow_table w') /\ facts (ow_table w') = facts (ow_table w) /\
  (owing (ow_table w') <= owing (ow_table w) - 1)%nat.
Proof.
  intros Hok Hidle. unfold quiet_tick. set (w1 := oo_apply (oo_begin now) w).
  assert (1 + 4 * CLAIM_BATCH <= TICK_CUTS)%nat as Hcuts by (unfold TICK_CUTS; lia). generalize dependent TICK_CUTS. intros cuts Hcuts.
  assert (ow_ok w1) as Hok1 by by apply apply_ok.
  set (k := mk_tick (now + CLAIM_LEASE_MS) (ts_claim (oldestClaimable CLAIM_BATCH now (ow_table w))) []).
  assert (quiet_inv now (owing (ow_table w)) k (ow_table w1)) as Hi.
  { split; simpl; try done.
    - split. intros r Hr Ho. specialize (Hidle r Hr Ho). unfold claimable in Hidle. apply andb_true_iff in Hidle as [[_ H1]%andb_true_iff H2].
      split; [done | by left].
    - split; [constructor | apply NoDup_nil_2].
    - intros o [= <-]. split; [done|]. unfold oldestClaimable. rewrite length_map, length_take. lia.
    - intros Hb. right. simpl. apply claims_some. unfold owing in Hb. destruct (List.filter owed (ow_table w)) as [|r l] eqn:E; [simpl in Hb; lia|].
      assert (r ∈ List.filter owed (ow_table w)) as [Hr Ho]%elem_filter by (rewrite E; left). exists r. split; [done | by apply Hidle]. }
  destruct (quiet_run now (owing (ow_table w)) (length (ow_ticks w)) cuts w1 k) as (Hok' & k' & Hi' & Hz).
  - by apply list_lookup_middle.
  - done.
  - done.
  - unfold steps_left. cbn [tk_at tk_todo k length]. lia.
  - set (w' := oo_run _ w1) in *.
    split; [done|]. assert (tk_at k' = ts_over) as Hover by (unfold steps_left in Hz; destruct (tk_at k'); simpl in Hz; try lia; done).
    split; [|split].
    + intros r Hr Ho. destruct (qo_rows _ _ _ (qi_ok _ _ _ _ Hi') r Hr Ho) as [H1 [H2|[_ H2]]].
      * unfold claimable. unfold owed in Ho. by rewrite Ho, H1, H2.
      * unfold pending in H2. rewrite Hover, (qi_over _ _ _ _ Hi' Hover) in H2. by apply elem_of_nil in H2.
    + unfold w'. by rewrite quiet_ops_facts.
    + pose proof (qi_le _ _ _ _ Hi'). destruct (owing (ow_table w)) as [|n] eqn:E; [lia|].
      destruct (qi_progress _ _ _ _ Hi' ltac:(lia)) as [?|Hp]; [lia|]. by rewrite Hover in Hp.
Qed.

(** ** At a concrete input: a server dies after the turn is written and before it
    is marked, and another tells the outcome again when the lease has run out. *)
Definition demoEnded (id driver : string) (completedAt : Z) : InvocationRow :=
  mk_irow (demoSpec id driver) (Some 1) 60001 (mk_ending st_done (Some (jnum 7)) None None (Some completedAt)) None None None None (mk_marks None None None None).
Definition demoOutcomes : Table := [demoEnded "t1" "root" 5000; demoEnded "t2" "root" 4000; demoEnded "t3" "other" 6000].
Definition demoDeath : list OutcomeOp :=
  [oo_begin 7000; oo_begin 7001; oo_step 0 NoFault 7002; oo_step 0 NoFault 7003; oo_step 1 NoFault 7003; oo_step 0 NoFault 7004; oo_crash 0;
   oo_collect "other" ["t3"%string] 7005].


Example outcome_text :
  describe (mk_irow (demoSpec "t1" "root") None 0
    (mk_ending st_done (Some (jobj [("n"%string, jarr [jnum 1; jnull]); ("e"%string, jobj [])])) None None (Some 1)) None None None None
    (mk_marks None None None None)) =
  str_join NL ["t1 — done. Result:"; "{"; "  " ++ DQUOTE ++ "n" ++ DQUOTE ++ ": ["; "    1,"; "    null"; "  ],"; "  " ++ DQUOTE ++ "e" ++ DQUOTE ++ ": {}"; "}"]%string.
Proof. by vm_compute. Qed.
