(* ===== verification/TargetReap.v ===== *)
(** When a target that reported its result is taken back
    (packages/api-server/src/modules/invocations/services/
    reported-target-reap.ts).

    A reading is what the meter answers when it is asked for the target's open
    model calls, [None] when it cannot be read, with the time since the report at
    which the answer is looked at. *)
From stdpp Require Import base list.
From Stdlib Require Import ZArith Lia.
From S2P Require Import Prelude.
Local Open Scope Z_scope.

Record ReapTimes := mk_times { rt_settleMs : Z; rt_recheckMs : Z; rt_fallbackMs : Z; rt_limitMs : Z }.
Definition defaultTimes : ReapTimes := mk_times 10000 5000 30000 90000.

Record Reading := mk_reading { rd_age : Z; rd_open : option nat }.

Section Reap.
Context (o : ReapTimes).

Inductive CheckEnd := ce_reap | ce_again (idleSeen : bool).

(** [check] *)
Definition check (idleSeen : bool) (x : Reading) : CheckEnd :=
  if bool_decide (rd_open x = Some 0%nat) && idleSeen then ce_reap
  else if bool_decide (rd_open x = None) && (rt_fallbackMs o <=? rd_age x) then ce_reap
  else if rt_limitMs o <=? rd_age x then ce_reap
  else ce_again (bool_decide (rd_open x = Some 0%nat)).

(** [afterReport]: the reading at which the target is reaped, if they last. *)
Fixpoint reapsAt (idleSeen : bool) (n : nat) (readings : list Reading) : option nat :=
  match readings with
  | [] => None
  | x :: readings => match check idleSeen x with ce_reap => Some n | ce_again idle => reapsAt idle (S n) readings end
  end.
Definition afterReport (readings : list Reading) : option nat := reapsAt false 0 readings.

(** [due], of the age, with the meter's answer. *)
Definition due (age : option Z) (open : option nat) : bool :=
  let age := age ?? rt_limitMs o in
  if rt_limitMs o <=? age then true
  else if age <? rt_fallbackMs o then false
  else bool_decide ((open ?? 0%nat) = 0%nat).

(** The timers: the first check after [settleMs], each next one [recheckMs] after
    the answer of the one before, and every one as late as it likes. *)
Fixpoint timed_from (earliest : Z) (readings : list Reading) : Prop :=
  match readings with
  | [] => True
  | x :: readings => earliest <= rd_age x /\ timed_from (rd_age x + rt_recheckMs o) readings
  end.
Definition timed (readings : list Reading) : Prop := timed_from (rt_settleMs o) readings.

Lemma reapsAt_spec idle n l k :
  reapsAt idle n l = Some k ->
  exists j x, k = (n + j)%nat /\ l !! j = Some x /\
    ((rd_open x = Some 0%nat /\ match j with O => idle = true | S j => exists y, l !! j = Some y /\ rd_open y = Some 0%nat end)
     \/ (rd_open x = None /\ rt_fallbackMs o <= rd_age x) \/ rt_limitMs o <= rd_age x).
Proof.
  revert idle n. induction l as [|x l IH]; intros idle n; [done|]. simpl. unfold check.
  destruct (bool_decide (rd_open x = Some 0%nat) && idle) eqn:E1.
  { intros [= <-]. apply andb_true_iff in E1 as [E1%bool_decide_eq_true ->]. exists 0%nat, x. split_and!; [lia | done | by left]. }
  destruct (bool_decide (rd_open x = None) && _) eqn:E2.
  { intros [= <-]. apply andb_true_iff in E2 as [E2%bool_decide_eq_true ?%Z.leb_le]. exists 0%nat, x. split_and!; [lia | done | right; by left]. }
  destruct (Z.leb_spec (rt_limitMs o) (rd_age x)).
  { intros [= <-]. exists 0%nat, x. split_and!; [lia | done | right; by right]. }
  intros E. destruct (IH _ _ E) as (j & y & -> & Hj & Hc). exists (S j), y. split_and!; [lia | done|].
  destruct Hc as [[Ho Hp]|?]; [left | by right]. split; [done|]. destruct j as [|j]; [exists x; by apply bool_decide_eq_true in Hp|]. exact Hp.
Qed.

Lemma reapsAt_ends idle n l earliest :
  timed_from earliest l -> 0 < rt_recheckMs o -> rt_limitMs o <= earliest + rt_recheckMs o * Z.of_nat (pred (length l)) -> l <> [] ->
  is_Some (reapsAt idle n l).
Proof.
  revert idle n earliest. induction l as [|x l IH]; intros idle n earliest Ht Hr Hl Hne; [done|]. destruct Ht as [Hx Ht]. simpl.
  destruct (check idle x) as [|idle'] eqn:E; [done|].
  assert (rd_age x < rt_limitMs o) as Hlt.
  { unfold check in E. destruct (_ && idle); [done|]. destruct (_ && _); [done|]. destruct (Z.leb_spec (rt_limitMs o) (rd_age x)); [done | lia]. }
  destruct l as [|y l]; [simpl in Hl; lia|]. apply (IH idle' (S n) (rd_age x + rt_recheckMs o)); [done | done | | done].
  simpl in Hl |- *. lia.
Qed.

(** A target is not cut off in a model call: the wait after its report takes it
    back only when two readings in a row show no open call, when the meter cannot
    be read and the fixed time is over, or at the limit; and it does take it back
    by the reading at which the limit is over, so after at most as many readings
    as fit in it. *)
Theorem reap_waits_for_calls readings :
  timed readings -> 0 < rt_recheckMs o ->
  (forall k, afterReport readings = Some k -> exists x, readings !! k = Some x /\
     ((rd_open x = Some 0%nat /\ exists j y, k = S j /\ readings !! j = Some y /\ rd_open y = Some 0%nat)
      \/ (rd_open x = None /\ rt_fallbackMs o <= rd_age x) \/ rt_limitMs o <= rd_age x)) /\
  (rt_limitMs o <= rt_settleMs o + rt_recheckMs o * (Z.of_nat (length readings) - 1) -> readings <> [] -> is_Some (afterReport readings)).
Proof.
  intros Ht Hr. split.
  - intros k E. destruct (reapsAt_spec _ _ _ _ E) as (j & x & -> & Hj & Hc). exists x. split; [done|].
    destruct Hc as [[Ho Hp]|?]; [left | by right]. split; [done|]. destruct j as [|j]; [done|]. destruct Hp as (y & Hy & Hoy). by exists j, y.
  - intros Hl Hne. apply (reapsAt_ends false 0 readings (rt_settleMs o)); [done | done | | done].
    destruct readings; [done|]. simpl length in *. lia.
Qed.
End Reap.

(** ** At concrete inputs *)
Definition busyThenIdle : list Reading :=
  [mk_reading 10010 (Some 1%nat); mk_reading 15020 (Some 0%nat); mk_reading 20030 (Some 1%nat); mk_reading 25040 (Some 0%nat); mk_reading 30050 (Some 0%nat)].
Lemma reap_waits_for_calls_witness :
  afterReport defaultTimes busyThenIdle = Some 4%nat /\ exists x, busyThenIdle !! 4%nat = Some x.
Proof.
  split; [by vm_compute|]. destruct (reap_waits_for_calls defaultTimes busyThenIdle) as [H _]; [|done|].
  - unfold timed, defaultTimes. simpl. lia.
  - destruct (H 4%nat eq_refl) as (x & E & _). by exists x.
Defined.

(** Between two calls, the wait has seen one reading with no open call and asks
    again; the sweep needs no second one, and takes the target back under it. *)
Example sweep_outruns_the_wait :
  let readings := [mk_reading 10000 (Some 1%nat); mk_reading 15000 (Some 1%nat); mk_reading 20000 (Some 1%nat); mk_reading 25000 (Some 1%nat);
                   mk_reading 30000 (Some 0%nat)] in
  timed defaultTimes readings /\ afterReport defaultTimes readings = None /\ due defaultTimes (Some 31000) (Some 0%nat) = true.
Proof. split_and!; [unfold timed, defaultTimes; simpl; lia | by vm_compute..]. Qed.
