(* ===== verification/InvocationRuns.v ===== *)
(** What invocations are ended, taken back and cleaned up by
    (packages/api-server/src/modules/invocations/services: invocations-service.ts,
    invocation-liveness.ts, driver-cascade.ts, target-reaper.ts,
    target-capture.ts, setup-failure.ts, delegation-control.ts, script-outputs.ts,
    invocation-start.ts; and the deletion of an agent in
    modules/agents/services/agents-service.ts, which calls the cascade).

    A handler is an [IO] computation on the table, the agents that exist and the
    objects of the store: every statement and call may fail before its effect or
    after it.  Deleting an agent runs the cascade, which takes targets back, which
    deletes agents: [deleteAgent] takes fuel, and [deletion_needs_no_more] proves
    that one more than there are agents is enough, whatever fails.

    Handlers run one after another.  What the code does not await (the deletion of
    a target after its script's report) is part of its handler, a capture that
    outlives its budget is over with it, and a target's agent belongs to the owner
    of its row. *)
From stdpp Require Import base strings list sets pretty.
From Stdlib Require Import ZArith Lia.
From S2P Require Import Prelude JsString AcpFrames Invocations TargetReap.
Local Open Scope Z_scope.

Definition DEFAULT_INVOCATION_TTL_MS : Z := 60 * 60 * 1000.
Definition MIN_INVOCATION_TTL_MS : Z := 60 * 1000.
Definition MAX_INVOCATION_TTL_MS : Z := 6 * 60 * 60 * 1000.
Definition UNREAPED_AFTER_MS : Z := 30000.
Definition SCRIPT_STEP : string := "script".
Definition NO_SCRIPT_RUNNER_REASON : string :=
  "the image's agent-runtime predates script sub-agents; rebuild the image on a current base image".

Record IW := mk_iw {
  iw_table : Table;
  iw_agents : list string;
  iw_blobs : list (string * Z);
  (** what the targets' runtimes are told, with whom *)
  iw_events : list (string * string);
}.

Definition streamName (s : InvocationOutputStream) : string := match s with os_stdout => "stdout" | os_stderr => "stderr" end.
Definition outputKey (r : InvocationRow) (s : InvocationOutputStream) : string :=
  ("invocation-outputs/" ++ iv_root r ++ "/" ++ iv_id r ++ "/" ++ streamName s)%string.

(** What the handlers ask of libraries and of the rest of the platform. *)
Record Asked := mk_asked {
  ak_support : string -> option TargetHarnessConfigSupport;
  (** a target's conversation, copied to its root: none, or whether it was cut *)
  ak_captures : string -> option bool;
  ak_parse : string -> option json;
  ak_compiles : json -> bool;
  ak_validates : json -> json -> bool;
  ak_errorsText : json -> json -> string;
  (** restarts of the target's machine, and why *)
  ak_restarts : string -> option (nat * option string);
  ak_startWait : string -> option string;
  ak_runsScripts : string -> option bool;
  ak_openCalls : string -> option nat;
}.

Section Runs.
Context (q : Asked).
Implicit Types (id : string) (now : Z) (r : InvocationRow).

Definition read {A} (f : IW -> A) : IO IW A := io_op (fun w => (w, f w)).
Definition set_table (t : Table) (w : IW) : IW := mk_iw t (iw_agents w) (iw_blobs w) (iw_events w).
Definition db {A} (f : Table -> Table * A) : IO IW A := io_op (fun w => let '(t, a) := f (iw_table w) in (set_table t w, a)).
Definition db_ (f : Table -> Table) : IO IW unit := db (fun t => (f t, tt)).
Definition getRow id : IO IW (option InvocationRow) := read (fun w => get id (iw_table w)).

(** ** Taking a target back *)

(** [capture]: it never throws. *)
Definition capture id : IO IW unit :=
  swallow (let* row := getRow id in
    match row with
    | None => io_ret tt
    | Some _ =>
        let* kept := read (fun _ => ak_captures q id) in
        match kept with None => io_ret tt | Some truncated => db_ (markTranscriptCaptured id truncated) end
    end).

Section Reap.
Context (delete : string -> IO IW unit).
(** [reap]: it never throws. *)
Definition reap (captured : bool) id now : IO IW unit :=
  run* (if captured then capture id else io_ret tt) in
  swallow (run* delete id in db_ (markReaped id now)).

Definition deleteStreams r (streams : list InvocationOutputStream) : IO IW unit :=
  io_iter (fun s => io_op (fun w => (mk_iw (iw_table w) (iw_agents w) (om_delete (outputKey r s) (iw_blobs w)) (iw_events w), tt))) streams.
Definition purgeRoot (root : string) : IO IW unit :=
  let* rows := read (fun w => listScriptsByRoot root (iw_table w)) in
  io_iter (fun r => deleteStreams r INVOCATION_OUTPUT_STREAMS) rows.

Definition failDriven r now : IO IW unit := db_ (fail (iv_id r) "driver agent deleted" now).

(** [createDriverCascade]: what a deleted agent leaves. *)
Definition cascade (agentId : string) now : IO IW unit :=
  let* own := getRow agentId in
  match own with
  | Some _ =>
      run* db_ (fail agentId "target agent deleted" now) in
      run* db_ (markReaped agentId now) in
      let* rows := read (fun w => listRunningByDriver agentId (iw_table w)) in
      io_iter (fun r => run* failDriven r now in reap true (iv_id r) now) rows
  | None =>
      let* unreaped := read (fun w => listUnreapedByRoot agentId (iw_table w)) in
      run* io_iter (fun r => run* (if running r then failDriven r now else io_ret tt) in reap false (iv_id r) now) unreaped in
      let* purged := io_catch (run* purgeRoot agentId in io_ret true) (io_ret false) in
      if (purged : bool) then db_ (deleteReapedByRoot agentId) else io_ret tt
  end.
End Reap.

(** [delete] of the agents service, of the cascade among its hooks. *)
Definition dropAgent id : IO IW bool :=
  io_op (fun w => (mk_iw (iw_table w) (List.filter (fun a => negb (String.eqb a id)) (iw_agents w)) (iw_blobs w) (iw_events w),
                   includes (iw_agents w) id)).
Fixpoint deleteAgent (fuel : nat) now id : IO IW unit :=
  match fuel with
  | O => io_throw
  | S fuel =>
      let* deleted := dropAgent id in
      if (deleted : bool) then swallow (cascade (deleteAgent fuel now) id now) else io_ret tt
  end.
Definition agentsDelete now id : IO IW unit := fun w => deleteAgent (S (length (iw_agents (io_st w)))) now id w.
(** The sweep of what agents that are gone have left (sagas/agent-artifacts-sweeper.ts),
    of the invocations: it calls the cascade, too. *)
Definition cleanUp now id : IO IW unit :=
  let* has := read (fun w => includes (iw_agents w) id) in
  if (has : bool) then io_ret tt else swallow (cascade (agentsDelete now) id now).
Definition sweepOrphans (batchSize : nat) now : IO IW unit :=
  let* live := read iw_agents in
  let* ids := read (fun w => listInvocationAgentIds now (iw_table w)) in
  io_iter (cleanUp now) (take batchSize (List.filter (fun id => negb (includes live id)) ids)).
Definition reapTarget (captured : bool) id now : IO IW unit := reap (agentsDelete now) captured id now.

(** ** Ending one *)
Definition failSetup id (step reason : string) now : IO IW string :=
  let failure := (step ++ " failed: " ++ reason)%string in
  let* row := getRow id in
  match row with
  | Some r =>
      if running r then run* db_ (fail id failure now) in run* reapTarget true id now in io_ret failure
      else io_ret failure
  | None => io_ret failure
  end.

(** [harnessConfigRefusalFor] *)
Definition refusalFor r : IO IW (option string) :=
  match sp_harnessConfig (iv_spec r) with
  | None => io_ret None
  | Some c => let* support := read (fun _ => ak_support q (iv_id r)) in io_ret (harnessConfigRefusal (Some c) support)
  end.

Inductive RecordResult := rr_ok | rr_error (errors : string).

Definition coerceResult (schema result : json) : json :=
  if ak_validates q schema result then result
  else match result with
       | jstr s => match ak_parse q s with Some parsed => if ak_validates q schema parsed then parsed else result | None => result end
       | _ => result
       end.

(** [recordResult], up to the wait of [TargetReap]. *)
Definition recordResult id (result : json) now : IO IW RecordResult :=
  let* row := getRow id in
  match row with
  | None => io_ret (rr_error "no invocation is active for this agent")
  | Some r =>
      match iv_status r with
      | st_done => io_ret (rr_error "invocation already done")
      | st_failed => io_ret (rr_error "invocation already failed")
      | st_running =>
          match sp_script (iv_spec r) with
          | Some _ => io_ret (rr_error "this invocation runs a script, which reports its own output")
          | None =>
              let* refusal := refusalFor r in
              match refusal with
              | Some reason => let* e := failSetup id HARNESS_CONFIG_STEP reason now in io_ret (rr_error e)
              | None =>
                  let schema := sp_resultSchema (iv_spec r) in
                  if negb (ak_compiles q schema) then io_throw
                  else
                    let value := coerceResult schema result in
                    if negb (ak_validates q schema value) then io_ret (rr_error (ak_errorsText q schema value))
                    else
                      let* stored := db (complete id value now) in
                      if (stored : bool) then io_ret rr_ok else io_ret (rr_error "invocation is no longer running")
              end
          end
      end
  end.

(** The owner's stop: false is not found. *)
Definition stop (owner driverAgentId id : string) now : IO IW bool :=
  let* row := getRow id in
  let* driverRow := getRow driverAgentId in
  let root := match driverRow with Some d => iv_root d | None => driverAgentId end in
  match row with
  | Some r =>
      if negb (String.eqb (iv_owner r) owner && String.eqb (iv_root r) root) then io_ret false
      else if negb (running r) then io_ret true
      else run* db_ (fail id "stopped by the user" now) in run* reapTarget true id now in io_ret true
  | None => io_ret false
  end.

(** What a driver reads of one. *)
Record InvocationView := mk_view {
  vw_status : InvocationStatus;
  vw_result : option json;
  vw_errorReason : option string;
  vw_exitCode : option Z;
  vw_output : option InvocationOutput;
  vw_waiting : option string;
}.
Definition getView id (driverAgentId : string) : IO IW (option InvocationView) :=
  let* row := getRow id in
  match row with
  | Some r =>
      if negb (String.eqb (iv_driver r) driverAgentId) then io_ret None
      else
        let* waiting := if running r && bool_decide (iv_startedAt r = None)
          then io_catch (read (fun _ => ak_startWait q (iv_id r))) (io_ret None) else io_ret None in
        io_ret (Some (mk_view (iv_status r) (en_result (iv_ending r)) (en_errorReason (iv_ending r)) (en_exitCode (iv_ending r))
          (match sp_script (iv_spec r) with Some _ => Some (iv_output r ?? noOutput) | None => None end) (waiting ≫= or_null)))
  | None => io_ret None
  end.

(** *** A script's report *)
Record ScriptReportInput := mk_report { ri_exitCode : option Z; ri_failure : option string; ri_output : InvocationOutput }.

(** The streams that are in the store as reported, and those that are not. *)
Fixpoint verified r (reported : InvocationOutput) (streams : list InvocationOutputStream) : IO IW (InvocationOutput * list InvocationOutputStream) :=
  match streams with
  | [] => io_ret (noOutput, [])
  | s :: streams =>
      let* stat := read (fun w => om_get (outputKey r s) (iw_blobs w)) in
      let* rest := verified r reported streams in
      let '(output, missing) := rest in
      match ou_get s reported with
      | Some blob =>
          if bool_decide (stat = Some (bl_sizeBytes blob)) then io_ret (ou_put s (Some blob) output, missing)
          else io_ret (output, s :: missing)
      | None => io_ret rest
      end
  end.

Definition exitText (code : option Z) : string := match code with Some c => pretty c | None => "null" end.

Definition report (agentId : string) (i : ScriptReportInput) now : IO IW bool :=
  let* row := getRow agentId in
  match row with
  | None => io_ret false
  | Some r =>
      match sp_script (iv_spec r) with
      | None => io_ret false
      | Some _ =>
          if negb (running r) then
            run* deleteStreams r (List.filter (fun s => negb (includes (heldStreams (iv_output r)) s)) (heldStreams (Some (ri_output i)))) in
            io_ret false
          else
            let* v := verified r (ri_output i) (heldStreams (Some (ri_output i))) in
            let '(output, missing) := v in
            let expires := match heldStreams (Some output) with [] => None | _ => Some (now + OUTPUT_RETENTION_MS) end in
            let failure := match missing with
              | [] => ri_failure i
              | _ => Some ("the script's " ++ str_join " and " (map streamName missing) ++ " did not reach the object store")%string
              end in
            let finish := match failure, ri_exitCode i with
              | None, Some 0 => sf_done 0 output expires
              | _, _ => sf_failed (ri_exitCode i) (failure ?? ("script exited " ++ exitText (ri_exitCode i))%string) output expires
              end in
            let* recorded := db (finishScript agentId finish now) in
            if (recorded : bool) then run* reapTarget false agentId now in io_ret true else io_ret false
      end
  end.

Definition ack id (driverAgentId : string) (s : InvocationOutputStream) : IO IW bool :=
  let* row := getRow id in
  match row with
  | Some r =>
      if negb (String.eqb (iv_driver r) driverAgentId) then io_ret false
      else match iv_output r ≫= ou_get s with
           | None => io_ret true
           | Some _ => run* deleteStreams r [s] in run* db_ (dropOutputStream id s) in io_ret true
           end
  | None => io_ret false
  end.

Definition purgeExpired (limit : nat) now : IO IW unit :=
  let* rows := read (fun w => listExpiredOutputs now limit (iw_table w)) in
  io_iter (fun r => swallow (run* deleteStreams r INVOCATION_OUTPUT_STREAMS in db_ (clearOutput (iv_id r)))) rows.

(** ** The sweep *)
Definition minutesOf r : Z := (iv_expiresAt r - sp_createdAt (iv_spec r) + 30000) / 60000.
Definition expiryReason r : IO IW string :=
  match iv_startedAt r with
  | Some _ => io_ret "liveness deadline exceeded"%string
  | None =>
      let* wait := io_catch (read (fun _ => ak_startWait q (iv_id r))) (io_ret None) in
      io_ret ("the sub-agent did not start within " ++ pretty (minutesOf r) ++ " min of its spawn"
              ++ match wait ≫= or_null with Some t => ". " ++ t | None => "" end)%string
  end.

Definition sweepExpired r now : IO IW unit :=
  swallow (let* reason := expiryReason r in
    let* ended := db (failExpired (iv_id r) reason now now) in
    if (ended : bool) then reapTarget true (iv_id r) now else io_ret tt).

Definition restartReason (why : option string) : string :=
  ("target's machine restarted" ++ match why ≫= or_null with Some w => " (" ++ w ++ ")" | None => "" end ++ "; one-shot turn cannot resume")%string.

Definition sweepRunning r now : IO IW unit :=
  swallow (
    let* refusal := refusalFor r in
    match refusal with
    | Some reason => run* failSetup (iv_id r) HARNESS_CONFIG_STEP reason now in io_ret tt
    | None =>
        let* runs := match sp_script (iv_spec r) with Some _ => read (fun _ => ak_runsScripts q (iv_id r)) | None => io_ret None end in
        if bool_decide (runs = Some false) then run* failSetup (iv_id r) SCRIPT_STEP NO_SCRIPT_RUNNER_REASON now in io_ret tt
        else
          let* restart := read (fun _ => ak_restarts q (iv_id r)) in
          match restart with
          | Some (S _, why) => run* db_ (fail (iv_id r) (restartReason why) now) in reapTarget true (iv_id r) now
          | _ => io_ret tt
          end
    end).

(** [due], whose reading of the meter does not throw. *)
Definition reapDue r now : IO IW bool :=
  match iv_status r with
  | st_done =>
      let* open := io_catch (read (fun _ => ak_openCalls q (iv_id r))) (io_ret None) in
      io_ret (due defaultTimes (option_map (fun c => now - c) (en_completedAt (iv_ending r))) open)
  | _ => io_ret true
  end.
Definition sweepEnded r now : IO IW unit :=
  let* isDue := reapDue r now in
  if (isDue : bool) then
    run* reapTarget true (iv_id r) now in
    swallow (let* has := read (fun w => includes (iw_agents w) (iv_root r)) in
      if (has : bool) then io_ret tt else run* purgeRoot (iv_root r) in db_ (deleteReapedByRoot (iv_root r)))
  else io_ret tt.

Definition tick (batchSize : nat) now : IO IW unit :=
  let* expired := read (fun w => listExpiredRunning now batchSize (iw_table w)) in
  run* io_iter (fun r => sweepExpired r now) expired in
  let* stillRunning := read (fun w => listRunning batchSize (iw_table w)) in
  run* io_iter (fun r => sweepRunning r now) stillRunning in
  let* unreaped := read (fun w => listTerminalUnreaped (now - UNREAPED_AFTER_MS) batchSize (iw_table w)) in
  run* io_iter (fun r => sweepEnded r now) unreaped in
  purgeExpired batchSize now.

(** ** Starting one *)
Record SpawnInput := mk_spawn {
  sn_spec : InvocationSpec; (* but for the root and the time limit *)
  sn_driverGrantIds : list string;
  sn_ttlMs : option Z;
  sn_install : bool;
  (** the spend check holds the root *)
  sn_held : bool;
  (** why the target's skills could not all be applied *)
  sn_skills : option string;
}.

Definition assertAttenuated (i : SpawnInput) : bool :=
  forallb (fun c => includes (sn_driverGrantIds i) c) (sp_connections (sn_spec i)).
Definition clampTtl (ttlMs : option Z) : Z :=
  match ttlMs with None => DEFAULT_INVOCATION_TTL_MS | Some t => Z.min MAX_INVOCATION_TTL_MS (Z.max MIN_INVOCATION_TTL_MS t) end.
Definition invocationOf (i : SpawnInput) (root : string) now : NewInvocation :=
  let s := sn_spec i in
  let ttl := clampTtl (sn_ttlMs i) in
  mk_new (mk_ispec (sp_id s) (sp_driverAgentId s) root (sp_owner s) (sp_label s) (sp_prompt s) (sp_script s) (sp_templateId s) (sp_image s)
    (sp_connections s) (Some ttl) (sp_resultSchema s) (sp_harnessConfig s) (sp_origin s) (sp_driverSessionId s) now) (now + ttl).

Definition insertRow (n : NewInvocation) : IO IW unit :=
  let* ok := io_op (fun w => match insert n (iw_table w) with Some t => (set_table t w, true) | None => (w, false) end) in
  if (ok : bool) then io_ret tt else io_throw.
Definition createAgent id : IO IW unit :=
  io_op (fun w => (mk_iw (iw_table w) (iw_agents w ++ [id]) (iw_blobs w) (iw_events w), tt)).
Definition bump id (event : string) : IO IW unit :=
  io_op (fun w => (mk_iw (iw_table w) (iw_agents w) (iw_blobs w) (iw_events w ++ [(id, event)]), tt)).
Definition call : IO IW unit := io_op (fun w => (w, tt)).
Definition taskKind (i : SpawnInput) : string := match sp_script (sn_spec i) with Some _ => "invocation-script" | None => "trigger" end.

(** [try { m } catch { h; throw }] *)
Definition orUndo (m h : IO IW unit) : IO IW unit := io_catch m (run* h in io_throw).

Definition launch (i : SpawnInput) now : IO IW string :=
  let id := sp_id (sn_spec i) in
  if negb (assertAttenuated i) then io_throw
  else
    let* root := read (fun w => resolveRoot (sp_driverAgentId (sn_spec i)) (iw_table w)) in
    match root with
    | None => io_throw
    | Some root =>
        if sn_held i then io_throw
        else
          run* insertRow (invocationOf i root now) in
          run* orUndo (run* call in createAgent id) (swallow (db_ (delete_row id))) in
          run* orUndo
            (run* match sp_harnessConfig (sn_spec i) with Some _ => bump id "harness-config" | None => io_ret tt end in
             run* (if sn_install i then bump id "invocation-install" else io_ret tt) in
             bump id (taskKind i))
            (run* swallow (agentsDelete now id) in swallow (db_ (delete_row id))) in
          run* call in
          run* call in
          match sn_skills i with
          | None => io_ret id
          | Some reason => run* failSetup id "skills" reason now in io_ret id
          end
    end.

(** [createInvocationStart]: the stop and report times of a script's task. *)
Definition invocationStart (agentId kind : string) (invocation : bool) now : IO IW (option (Z * Z)) :=
  let script := String.eqb kind "invocation-script" in
  if negb script && negb (String.eqb kind "trigger" && invocation) then io_ret None
  else io_catch
    (let* start := db (markStarted agentId now) in
     io_ret (if script then option_map (fun se => (scriptDeadline se.1 se.2, se.2)) start else None))
    (io_ret None).

(** ** Anything that may be called *)
Inductive Handler :=
| h_launch (i : SpawnInput)
| h_start (agentId kind : string) (invocation : bool)
| h_recordResult id (result : json)
| h_report (agentId : string) (i : ScriptReportInput)
| h_failSetup id (step reason : string)
| h_stop (owner driverAgentId id : string)
| h_ack id (driverAgentId : string) (s : InvocationOutputStream)
| h_reap id (captured : bool)
| h_deleteAgent id
| h_sweepOrphans (batchSize : nat)
| h_tick (batchSize : nat).

Definition void {A} (m : IO IW A) : IO IW unit := io_bind m (fun _ => io_ret tt).
Definition handle (h : Handler) now : IO IW unit :=
  match h with
  | h_launch i => void (launch i now)
  | h_start a k inv => void (invocationStart a k inv now)
  | h_recordResult id result => void (recordResult id result now)
  | h_report a i => void (report a i now)
  | h_failSetup id step reason => void (failSetup id step reason now)
  | h_stop owner driver id => void (stop owner driver id now)
  | h_ack id driver s => void (ack id driver s)
  | h_reap id captured => reapTarget captured id now
  | h_deleteAgent id => agentsDelete now id
  | h_sweepOrphans batch => sweepOrphans batch now
  | h_tick batch => tick batch now
  end.
Definition call_of (w : IW) (c : Handler * Z * list fault) : IW := io_st (handle c.1.1 c.1.2 (mk_io w c.2)).1.
Definition calls (cs : list (Handler * Z * list fault)) (w : IW) : IW := foldl call_of w cs.

(** ** What handlers keep *)
Lemma keeps_read {A} h P (f : IW -> A) : io_triple h P (read f) (fun _ => P) P.
Proof. by apply keeps_op. Qed.
Hint Resolve keeps_read : io_keeps.

(** *** Fuel *)
Definition few (n : nat) (w : IW) : Prop := (length (iw_agents w) <= n)%nat.
Definition agree {A} (n : nat) (m m' : IO IW A) : Prop := forall w, few n (io_st w) -> m w = m' w.

Lemma agree_bind {A B} n (m m' : IO IW A) (k k' : A -> IO IW B) :
  agree n m m' -> io_keeps (few n) m -> (forall a, agree n (k a) (k' a)) -> agree n (io_bind m k) (io_bind m' k').
Proof.
  intros Hm Hf Hk w Hw. unfold io_bind. rewrite <- (Hm w Hw). specialize (Hf w ltac:(done) Hw). destruct (m w) as [w1 [a|]], Hf; [|done]. by apply Hk.
Qed.
Lemma agree_catch {A} n (m m' k k' : IO IW A) :
  agree n m m' -> io_keeps (few n) m -> agree n k k' -> agree n (io_catch m k) (io_catch m' k').
Proof.
  intros Hm Hf Hk w Hw. unfold io_catch. rewrite <- (Hm w Hw). specialize (Hf w ltac:(done) Hw). destruct (m w) as [w1 [a|]], Hf; [done|]. by apply Hk.
Qed.
Lemma agree_iter {A} n (f f' : A -> IO IW unit) l :
  (forall a, agree n (f a) (f' a)) -> (forall a, io_keeps (few n) (f a)) -> agree n (io_iter f l) (io_iter f' l).
Proof. intros Hf Hk. induction l; simpl; [done|]. by apply agree_bind. Qed.

Lemma few_db {A} n (f : Table -> Table * A) : io_keeps (few n) (db f).
Proof. apply keeps_op. intros w Hw. unfold few in *. by destruct (f (iw_table w)). Qed.
Lemma few_streams n r streams : io_keeps (few n) (deleteStreams r streams).
Proof. apply keeps_iter. intros st _. by apply keeps_op. Qed.
Lemma few_capture n id : io_keeps (few n) (capture id).
Proof. pose proof (@few_db). unfold capture, getRow, db_. keeps. Qed.
Hint Resolve few_db few_streams few_capture : io_keeps.

Section Few.
Context (n : nat) (del del' : string -> IO IW unit).
Hypothesis del_few : forall id, io_keeps (few n) (del id).
Hypothesis del_agree : forall id, agree n (del id) (del' id).

Lemma few_reap c id now : io_keeps (few n) (reap del c id now).
Proof. unfold reap, db_. keeps. Qed.
Lemma few_cascade id now : io_keeps (few n) (cascade del id now).
Proof. pose proof few_reap. unfold cascade, getRow, failDriven, purgeRoot, db_. keeps. Qed.

Lemma agree_reap c id now : agree n (reap del c id now) (reap del' c id now).
Proof.
  apply agree_bind; [done | destruct c; auto with io_keeps|]. intros []. apply agree_catch; [|unfold db_; keeps | done]. by apply agree_bind.
Qed.
Lemma agree_cascade id now : agree n (cascade del id now) (cascade del' id now).
Proof.
  pose proof few_reap as Hr. pose proof agree_reap as Ha. unfold cascade, getRow, failDriven, purgeRoot, db_.
  apply agree_bind; [done | keeps|]. intros [own|].
  - apply agree_bind; [done | keeps|]. intros []. apply agree_bind; [done | keeps|]. intros [].
    apply agree_bind; [done | keeps|]. intros rows. apply agree_iter; intros r; [|keeps]. apply agree_bind; [done | keeps | intros; apply Ha].
  - apply agree_bind; [done | keeps|]. intros rows. apply agree_bind; [| | done].
    + apply agree_iter; intros r; [|keeps]. apply agree_bind; [done | keeps | intros; apply Ha].
    + keeps.
Qed.
End Few.

Lemma few_filter n p w : few n w -> few n (mk_iw (iw_table w) (List.filter p (iw_agents w)) (iw_blobs w) (iw_events w)).
Proof. unfold few. simpl. intros H. pose proof (List.filter_length_le p (iw_agents w)). lia. Qed.
Lemma few_deleteAgent fuel now n id : io_keeps (few n) (deleteAgent fuel now id).
Proof.
  revert id. induction fuel as [|fuel IH]; intros id; simpl; [apply keeps_throw|].
  apply keeps_bind; [apply keeps_op; intros w; by apply few_filter|]. intros []; [|apply keeps_ret]. by apply keeps_swallow, few_cascade.
Qed.

(** Fuel past the number of agents changes nothing, whatever fails. *)
Lemma deletion_needs_no_more fuel fuel' now id (w : io IW) :
  (length (iw_agents (io_st w)) < fuel)%nat -> (length (iw_agents (io_st w)) < fuel')%nat ->
  deleteAgent fuel now id w = deleteAgent fuel' now id w.
Proof.
  revert fuel' id w. induction fuel as [|fuel IH]; intros [|fuel'] id w H H'; try lia. simpl. unfold io_bind.
  destruct (dropAgent id w) as [w1 [[|]|]] eqn:E; try done.
  assert (length (iw_agents (io_st w1)) < length (iw_agents (io_st w)))%nat as Hl.
  { unfold dropAgent, io_op in E. assert (includes (iw_agents (io_st w)) id = true) as Hin by (destruct (io_faults w) as [|[] fs]; by simplify_eq/=).
    assert (iw_agents (io_st w1) = List.filter (fun a => negb (String.eqb a id)) (iw_agents (io_st w))) as ->
      by (destruct (io_faults w) as [|[] fs]; by simplify_eq/=).
    apply includes_spec in Hin. clear -Hin. revert Hin. generalize (iw_agents (io_st w)) as l. induction l as [|a l IH]; [by intros ?%elem_of_nil|].
    intros [<- |Hin]%elem_of_cons; simpl.
    - rewrite String.eqb_refl. simpl. pose proof (List.filter_length_le (fun a => negb (String.eqb a id)) l). lia.
    - specialize (IH Hin). destruct (negb _); simpl; lia. }
  apply (agree_catch (length (iw_agents (io_st w1)))); [| |done|unfold few; lia].
  - apply agree_cascade; [intros; by apply few_deleteAgent|]. intros id' w' Hw'. unfold few in Hw'. apply IH; lia.
  - apply few_cascade. intros. by apply few_deleteAgent.
Qed.

(** ** What every call keeps *)
Section Sound.
(** The targets that were not launched meanwhile; whether results are looked at. *)
Context (watched : string -> Prop) (typed : Prop).

Definition conform r : Prop :=
  typed -> iv_status r = st_done -> sp_script (iv_spec r) = None ->
  exists v, en_result (iv_ending r) = Some v /\ ak_validates q (sp_resultSchema (iv_spec r)) v = true.

Record sound (gone : list string) (w : IW) : Prop := mk_sound {
  so_ids : NoDup (map iv_id (iw_table w));
  so_conform : forall r, r ∈ iw_table w -> conform r;
  so_reaped : forall r, r ∈ iw_table w -> iv_reapedAt r <> None -> iv_id r ∉ iw_agents w;
  so_kept : forall a, watched a -> a ∈ iw_agents w -> a ∈ map iv_id (iw_table w);
  so_gone : forall a, a ∈ gone -> a ∉ iw_agents w;
}.

Lemma sound_fewer id gone w : sound (id :: gone) w -> sound gone w.
Proof. intros [? ? ? ? Hg]. split; try done. intros a Ha. apply Hg. by right. Qed.

Lemma sound_update gone p f w :
  (forall r, iv_id (f r) = iv_id r) ->
  (forall r, r ∈ iw_table w -> p r = true -> conform r -> conform (f r)) ->
  (forall r, p r = true -> iv_reapedAt (f r) <> None -> iv_reapedAt r <> None \/ iv_id r ∈ gone) ->
  sound gone w -> sound gone (set_table (update p f (iw_table w)) w).
Proof.
  intros Hf Hc Hr [H1 H2 H3 H4 H5]. split; simpl; try done.
  - by rewrite update_ids.
  - intros r' Hin. apply list_elem_of_fmap in Hin as (r & -> & Hin). destruct (p r) eqn:E; [apply (Hc r Hin E (H2 r Hin)) | exact (H2 r Hin)].
  - intros r' Hin. apply list_elem_of_fmap in Hin as (r & -> & Hin). destruct (p r) eqn:E; [|auto].
    rewrite Hf. intros [?|?]%Hr; auto.
  - intros a. rewrite update_ids by done. auto.
Qed.

Lemma sound_filter gone p w :
  (forall r, r ∈ iw_table w -> p r = false -> watched (iv_id r) -> iv_id r ∉ iw_agents w) ->
  sound gone w -> sound gone (set_table (List.filter p (iw_table w)) w).
Proof.
  intros Hp [H1 H2 H3 H4 H5]. split; simpl; try done.
  - by apply filter_map_NoDup.
  - intros r [Hin _]%elem_filter. exact (H2 r Hin).
  - intros r [Hin _]%elem_filter. exact (H3 r Hin).
  - intros a Ha Hin. pose proof (H4 a Ha Hin) as Hin2. apply list_elem_of_fmap in Hin2 as (r & -> & Hr). apply list_elem_of_fmap. exists r. split; [done|].
    apply elem_filter. split; [done|]. destruct (p r) eqn:E; [done|]. by destruct (Hp r Hr E Ha).
Qed.

Lemma keeps_db {A} gone (f : Table -> Table * A) :
  (forall w, sound gone w -> sound gone (set_table (f (iw_table w)).1 w)) -> io_keeps (sound gone) (db f).
Proof. intros H. apply keeps_op. intros w Hw. specialize (H w Hw). by destruct (f (iw_table w)). Qed.
Lemma keeps_elsewhere {A} gone (f : IW -> IW * A) :
  (forall w, iw_table (f w).1 = iw_table w /\ iw_agents (f w).1 = iw_agents w) -> io_keeps (sound gone) (io_op f).
Proof. intros H. apply keeps_op. intros w [H1 H2 H3 H4 H5]. destruct (H w) as [E1 E2]. split; by rewrite ?E1, ?E2. Qed.

(** *** Its statements *)
Lemma conform_same r r' : iv_spec r' = iv_spec r -> iv_ending r' = iv_ending r -> conform r -> conform r'.
Proof. unfold conform, iv_status. by intros -> ->. Qed.

Lemma fail_kept gone id reason now : io_keeps (sound gone) (db_ (fail id reason now)).
Proof. apply keeps_db. intros w. apply sound_update; try done; by left. Qed.
Lemma failExpired_kept gone id reason now at_ : io_keeps (sound gone) (db (failExpired id reason now at_)).
Proof. apply keeps_db. intros w. apply sound_update; try done; by left. Qed.
Lemma transcript_kept gone id truncated : io_keeps (sound gone) (db_ (markTranscriptCaptured id truncated)).
Proof. apply keeps_db. intros w. apply sound_update; try done; by left. Qed.
Lemma reaped_kept gone id now : id ∈ gone -> io_keeps (sound gone) (db_ (markReaped id now)).
Proof.
  intros Hg. apply keeps_db. intros w. apply sound_update; try done.
  intros r E%String.eqb_eq _. right. by rewrite E.
Qed.
Lemma started_kept gone id now : io_keeps (sound gone) (db (markStarted id now)).
Proof. apply keeps_db. intros w. apply sound_update; try done; by left. Qed.
Lemma dropped_kept gone id st : io_keeps (sound gone) (db_ (dropOutputStream id st)).
Proof.
  assert (forall r, iv_spec (droppedStream st r) = iv_spec r /\ iv_ending (droppedStream st r) = iv_ending r /\ iv_reapedAt (droppedStream st r) = iv_reapedAt r) as H.
  { intros r. unfold droppedStream. destruct (iv_output r) as [o|]; [|done]. by destruct (ou_put st None o) as [[] []]. }
  apply keeps_db. intros w. apply sound_update.
  - intros r. unfold iv_id. by destruct (H r) as (-> & _).
  - intros r _ _. by apply conform_same; apply H.
  - intros r _. destruct (H r) as (_ & _ & ->). by left.
Qed.
Lemma cleared_kept gone id : io_keeps (sound gone) (db_ (clearOutput id)).
Proof. apply keeps_db. intros w. apply sound_update; try done; by left. Qed.
Lemma orphans_kept gone root : io_keeps (sound gone) (db_ (deleteReapedByRoot root)).
Proof.
  apply keeps_db. intros w Hw. apply sound_filter; [|done]. intros r Hr [_ E%bool_decide_eq_true]%negb_false_iff%andb_true_iff _.
  by apply (so_reaped _ _ Hw).
Qed.
Lemma blobs_kept gone r streams : io_keeps (sound gone) (deleteStreams r streams).
Proof. apply keeps_iter. intros st _. by apply keeps_elsewhere. Qed.
Hint Resolve fail_kept failExpired_kept transcript_kept started_kept dropped_kept cleared_kept orphans_kept blobs_kept : io_keeps.

(** *** Deleting an agent *)
Definition del_ok (del : string -> IO IW unit) : Prop :=
  forall gone id, io_triple false (sound gone) (del id) (fun _ => sound (id :: gone)) (sound gone).

Lemma capture_kept gone id : io_keeps (sound gone) (capture id).
Proof. unfold capture, getRow. keeps. Qed.
Hint Resolve capture_kept : io_keeps.

Lemma reap_kept del captured id now gone : del_ok del -> io_keeps (sound gone) (reap del captured id now).
Proof.
  intros Hd. unfold reap. apply keeps_bind; [keeps|]. intros []. apply keeps_swallow.
  eapply triple_bind; [apply Hd|]. intros []. eapply triple_conseq; [apply (reaped_kept (id :: gone)); by left | done | | ]; simpl;
    intros; by eapply sound_fewer.
Qed.

Lemma cascade_kept del id now gone : del_ok del -> id ∈ gone -> io_keeps (sound gone) (cascade del id now).
Proof.
  intros Hd Hg. pose proof (fun c i => reap_kept del c i now gone Hd) as Hr. pose proof (reaped_kept gone id now Hg).
  unfold cascade, getRow, failDriven, purgeRoot. keeps.
Qed.

Lemma deleteAgent_ok fuel now : del_ok (deleteAgent fuel now).
Proof.
  induction fuel as [|fuel IH]; intros gone id; simpl; [by apply triple_throw|].
  assert (forall w, sound gone w -> sound gone (mk_iw (iw_table w) (List.filter (fun a => negb (String.eqb a id)) (iw_agents w)) (iw_blobs w) (iw_events w))) as Hf.
  { intros w [H1 H2 H3 H4 H5]. split; simpl; try done.
    - intros r Hr Hre [Hx _]%elem_filter. by apply (H3 r Hr Hre).
    - intros a Ha [Hx _]%elem_filter. by apply H4.
    - intros a Ha [Hx _]%elem_filter. by apply (H5 a Ha). }
  eapply triple_bind with (R := fun _ => sound (id :: gone)).
  - apply triple_op; [intros _ w Hw; split; [done | by apply Hf]|]. intros w Hw. apply Hf in Hw as [H1 H2 H3 H4 H5]. split; try done.
    intros a [-> |Ha]%elem_of_cons; [|by apply H5]. simpl. intros [_ E]%elem_filter. by rewrite String.eqb_refl in E.
  - intros deleted. eapply (triple_conseq false _ (sound (id :: gone))) with (Q' := fun _ => sound (id :: gone)) (E' := sound (id :: gone)); [|done|done|intros; by eapply sound_fewer].
    destruct deleted; [|apply keeps_ret]. apply keeps_swallow, cascade_kept; [done | by left].
Qed.

Lemma agentsDelete_ok now : del_ok (agentsDelete now).
Proof. intros gone id w. apply (deleteAgent_ok (S (length (iw_agents (io_st w)))) now gone id w). Qed.
Lemma reapTarget_kept captured id now gone : io_keeps (sound gone) (reapTarget captured id now).
Proof. apply reap_kept, agentsDelete_ok. Qed.
Lemma agentsDelete_kept id now gone : io_keeps (sound gone) (agentsDelete now id).
Proof. eapply triple_conseq; [apply agentsDelete_ok | done | simpl; intros; by eapply sound_fewer | done]. Qed.
Hint Resolve reapTarget_kept agentsDelete_kept : io_keeps.

(** *** The handlers *)
Lemma failSetup_kept gone id step reason now : io_keeps (sound gone) (failSetup id step reason now).
Proof. unfold failSetup, getRow. keeps. Qed.
Lemma refusalFor_kept P r : io_keeps P (refusalFor r).
Proof. unfold refusalFor. keeps. Qed.
Hint Resolve failSetup_kept refusalFor_kept : io_keeps.

(** What a handler read stays, until it writes. *)
Definition knows gone id (row : option InvocationRow) (w : IW) : Prop := sound gone w /\ get id (iw_table w) = row.
Lemma getRow_spec gone id : io_triple false (sound gone) (getRow id) (knows gone id) (sound gone).
Proof. by apply triple_op. Qed.
Lemma forget {A} gone id row (m : IO IW A) : io_keeps (sound gone) m -> io_triple false (knows gone id row) m (fun _ => sound gone) (sound gone).
Proof. intros H. eapply triple_conseq; [exact H | by intros w [? _] | done | done]. Qed.
Lemma remember {A} gone id row (m : IO IW A) :
  io_keeps (knows gone id row) m -> io_triple false (knows gone id row) m (fun _ => knows gone id row) (sound gone).
Proof. intros H. eapply triple_conseq; [exact H | done | done | by intros w [? _]]. Qed.

(** An ending of the row that was read. *)
Lemma ends_kept {A} gone id r (f : InvocationRow -> InvocationRow) (b : Table -> A) :
  (forall s, iv_id (f s) = iv_id s /\ iv_spec (f s) = iv_spec s /\ iv_reapedAt (f s) = iv_reapedAt s) -> (conform r -> conform (f r)) ->
  io_triple false (knows gone id (Some r)) (db (fun t => (update (runningId id) f t, b t))) (fun _ => sound gone) (sound gone).
Proof.
  intros Hf Hc.
  assert (forall w, knows gone id (Some r) w -> sound gone (set_table (update (runningId id) f (iw_table w)) w)) as H.
  { intros w [Hw Er]. apply sound_update; [intros s; apply Hf | | | done].
    - intros s Hs [Eid%String.eqb_eq _]%andb_true_iff. apply get_id in Er as [<- Hr].
      by rewrite (row_unique (iw_table w) s r (so_ids _ _ Hw) Hs Hr Eid).
    - intros s _. destruct (Hf s) as (_ & _ & ->). by left. }
  apply triple_op; [|done]. intros _ w Hw. split; [apply Hw | by apply H].
Qed.

Lemma recordResult_kept gone id result now : io_keeps (sound gone) (recordResult id result now).
Proof.
  unfold recordResult. eapply triple_bind; [apply getRow_spec|]. intros [r|]; [|apply forget; keeps].
  destruct (iv_status r); [|apply forget; keeps..]. destruct (sp_script (iv_spec r)) eqn:Escript; [apply forget; keeps|].
  eapply triple_bind; [apply remember, refusalFor_kept|]. intros [reason|]; [apply forget; keeps|].
  destruct (negb (ak_compiles q _)); [apply forget; keeps|]. destruct (ak_validates q _ (coerceResult _ _)) eqn:Ev; simpl; [|apply forget; keeps].
  eapply triple_bind; [apply ends_kept|intros a; keeps]; [done|]. intros _ _ _ _. by eexists.
Qed.

Lemma verified_kept P r reported streams : io_keeps P (verified r reported streams).
Proof. induction streams; simpl; keeps. Qed.

Lemma report_kept gone agentId i now : io_keeps (sound gone) (report agentId i now).
Proof.
  unfold report. eapply triple_bind; [apply getRow_spec|]. intros [r|]; [|apply forget; keeps].
  destruct (sp_script (iv_spec r)) eqn:Es; [|apply forget; keeps]. destruct (running r); simpl; [|apply forget; keeps].
  eapply triple_bind; [apply remember, verified_kept|]. intros [output missing].
  eapply triple_bind; [apply ends_kept|intros a; keeps].
  - intros row. by destruct (match _ with None => _ | Some _ => _ end).
  - intros _ _ _ E. exfalso. revert E. destruct (match _ with None => _ | Some _ => _ end); simpl; by rewrite Es.
Qed.

Lemma stop_kept gone owner driver id now : io_keeps (sound gone) (stop owner driver id now).
Proof. unfold stop, getRow. keeps. Qed.
Lemma ack_kept gone id driver st : io_keeps (sound gone) (ack id driver st).
Proof. unfold ack, getRow. keeps. Qed.
Lemma start_kept gone agentId kind invocation now : io_keeps (sound gone) (invocationStart agentId kind invocation now).
Proof. unfold invocationStart. keeps. Qed.
Lemma cleanUp_kept gone id now : io_keeps (sound gone) (cleanUp now id).
Proof.
  unfold cleanUp. eapply triple_bind with (R := fun has w => sound gone w /\ includes (iw_agents w) id = has); [by apply triple_op|].
  intros [|]; [by apply triple_ret; intros w []|].
  eapply triple_conseq; [apply keeps_swallow, (cascade_kept _ id now (id :: gone) (agentsDelete_ok now)); left| | |]; simpl; [|intros; by eapply sound_fewer..].
  intros w [[H1 H2 H3 H4 H5] E]. split; try done. intros a [-> |Ha]%elem_of_cons; [|by apply H5].
  intros Hin. rewrite (proj2 (includes_spec _ _) Hin) in E. done.
Qed.
Hint Resolve recordResult_kept report_kept stop_kept ack_kept start_kept cleanUp_kept : io_keeps.

Lemma tick_kept gone batch now : io_keeps (sound gone) (tick batch now).
Proof. unfold tick, sweepExpired, sweepRunning, sweepEnded, expiryReason, reapDue, purgeExpired, purgeRoot. keeps. Qed.

(** A launch: the row comes before the agent, and is not taken back before it. *)
Definition unreaped id (w : IW) : Prop := sound [] w /\ forall r, r ∈ iw_table w -> iv_id r = id -> iv_reapedAt r = None.

Lemma insertRow_spec n :
  io_triple false (sound []) (insertRow n) (fun _ => unreaped (sp_id (nw_spec n))) (sound []).
Proof.
  set (f := fun w : IW => match insert n (iw_table w) with Some t => (set_table t w, true) | None => (w, false) end).
  assert (forall w, sound [] w -> sound [] (f w).1 /\ ((f w).2 = true -> unreaped (sp_id (nw_spec n)) (f w).1)) as H.
  { intros w Hw. unfold f, insert. destruct (existsb _ _) eqn:E; simpl; [done|]. destruct Hw as [H1 H2 H3 H4 H5].
    assert (forall r, r ∈ iw_table w -> iv_id r <> sp_id (nw_spec n)) as Hnew.
    { intros r Hr Eid. apply not_true_iff_false in E. apply E, existsb_exists. exists r. split; [by apply list_elem_of_In|]. by apply String.eqb_eq. }
    assert (sound [] (set_table (iw_table w ++ [mk_irow (nw_spec n) None (nw_expiresAt n) notEnded None None None None (mk_marks None None None None)]) w)) as Hw'.
    { split; simpl; try done.
      - rewrite map_app. apply NoDup_app. split; [done|]. split; [|apply NoDup_singleton].
        intros i (r & -> & Hr)%list_elem_of_fmap Hi%list_elem_of_singleton. by apply (Hnew r).
      - intros r [Hr| ->%list_elem_of_singleton]%elem_of_app; [exact (H2 r Hr) | done].
      - intros r [Hr| ->%list_elem_of_singleton]%elem_of_app; [exact (H3 r Hr) | done].
      - intros a Ha Hin. rewrite map_app. apply elem_of_app. left. by apply H4. }
    split; [done|]. intros _. split; [done|]. simpl. intros r [Hr| ->%list_elem_of_singleton]%elem_of_app; [by intros ?%(Hnew r Hr) | done]. }
  unfold insertRow. eapply triple_bind with (R := fun ok w => sound [] w /\ (ok = true -> unreaped (sp_id (nw_spec n)) w)).
  - apply triple_op; [intros _ w Hw; split; [exact Hw | exact (proj1 (H w Hw))] | intros w Hw; exact (H w Hw)].
  - intros [|]; [apply triple_ret; intros w [_ Hw]; by apply Hw | by apply triple_throw; intros w []].
Qed.

Lemma createAgent_spec id : ~ watched id -> io_triple false (unreaped id) (createAgent id) (fun _ => sound []) (sound []).
Proof.
  intros Hw.
  assert (forall w, unreaped id w -> sound [] (mk_iw (iw_table w) (iw_agents w ++ [id]) (iw_blobs w) (iw_events w))) as H.
  { intros w [[H1 H2 H3 H4 H5] Hu]. split; simpl; try done.
    - intros r Hr Hre [Ha|Ha%list_elem_of_singleton]%elem_of_app; [exact (H3 r Hr Hre Ha) | by apply Hre, Hu].
    - intros a Ha [Hin|Hin%list_elem_of_singleton]%elem_of_app; [by apply H4 | by destruct Hw; rewrite <- Hin].
    - by intros a ?%elem_of_nil. }
  apply triple_op; [|done]. intros _ w Hu. split; [apply Hu | by apply H].
Qed.

Lemma delete_kept id : ~ watched id -> io_keeps (sound []) (db_ (delete_row id)).
Proof.
  intros Hn. apply keeps_db. intros w. apply sound_filter. intros r _ E%negb_false_iff Hw. apply String.eqb_eq in E. by rewrite E in Hw.
Qed.

Lemma bump_kept gone id event : io_keeps (sound gone) (bump id event).
Proof. by apply keeps_elsewhere. Qed.
Lemma call_kept P : io_keeps P call.
Proof. by apply keeps_op. Qed.
Hint Resolve bump_kept call_kept : io_keeps.

Lemma launch_kept i now : ~ watched (sp_id (sn_spec i)) -> io_keeps (sound []) (launch i now).
Proof.
  intros Hn. pose proof (delete_kept _ Hn) as Hd. unfold launch. destruct (negb (assertAttenuated i)); [keeps|].
  apply keeps_bind; [keeps|]. intros [root|]; [|keeps]. destruct (sn_held i); [keeps|].
  eapply triple_bind; [exact (insertRow_spec (invocationOf i root now))|]. intros []. eapply triple_bind with (R := fun _ => sound []).
  - unfold orUndo. eapply triple_catch with (E' := sound []); [|keeps].
    eapply triple_bind with (R := fun _ => unreaped (sp_id (sn_spec i))); [|intros []; by apply createAgent_spec].
    eapply triple_conseq; [apply (call_kept (unreaped (sp_id (sn_spec i)))) | done | done | by intros w []].
  - intros []. unfold orUndo. keeps.
Qed.

Definition launches (h : Handler) id : Prop := match h with h_launch i => sp_id (sn_spec i) = id | _ => False end.
Lemma handle_kept h now : (forall id, launches h id -> ~ watched id) -> io_keeps (sound []) (handle h now).
Proof.
  intros Hn. unfold handle, void. destruct h; try (by keeps).
  - apply keeps_bind; [by apply launch_kept, Hn | intros a; keeps].
  - unfold sweepOrphans. keeps.
  - by apply tick_kept.
Qed.

Lemma calls_sound cs w : (forall c id, c ∈ cs -> launches c.1.1 id -> ~ watched id) -> sound [] w -> sound [] (calls cs w).
Proof.
  revert w. induction cs as [|c cs IH]; intros w Hn Hw; [done|]. apply IH; [intros c' id Hc; apply Hn; by right|].
  pose proof (handle_kept c.1.1 c.1.2 (fun id => Hn c id ltac:(by left)) (mk_io w c.2) ltac:(done) Hw) as H. unfold call_of.
  by destruct (handle _ _ _) as [w' [[]|]]; destruct H.
Qed.
End Sound.

(** ** Nothing is left of a root *)
Section Root.
Context (root : string).
(** The root's targets that may not be taken back are in [u]; those of [gone] are. *)
Record left_in (u : string -> Prop) (gone : list string) (w : IW) : Prop := mk_left {
  lf_rows : forall r, r ∈ iw_table w -> iv_root r = root -> iv_reapedAt r = None -> u (iv_id r);
  lf_gone : forall a, a ∈ gone -> a ∉ iw_agents w;
}.
Notation stays m := (forall u gone, io_triple true (left_in u gone) m (fun _ => left_in u gone) (left_in u gone)).

Lemma left_weaken (u u' : string -> Prop) gone gone' w :
  (forall i, u i -> u' i) -> (forall a, a ∈ gone' -> a ∈ gone) -> left_in u gone w -> left_in u' gone' w.
Proof. intros Hu Hg [H1 H2]. split; auto. Qed.
Lemma left_update u gone p f w :
  (forall r, iv_spec (f r) = iv_spec r /\ (iv_reapedAt (f r) = None -> iv_reapedAt r = None)) ->
  left_in u gone w -> left_in u gone (set_table (update p f (iw_table w)) w).
Proof.
  intros Hf [H1 H2]. split; simpl; [|done]. intros r' (r & -> & Hin)%list_elem_of_fmap. unfold iv_root, iv_id. destruct (Hf r) as [E Hre].
  destruct (p r); [rewrite E; intros Er ?%Hre|]; by apply H1.
Qed.

Lemma stays_db {A} (f : Table -> Table * A) :
  (forall u gone w, left_in u gone w -> left_in u gone (set_table (f (iw_table w)).1 w)) -> stays (db f).
Proof. intros H u gone. apply keeps_op. intros w Hw. specialize (H u gone w Hw). by destruct (f (iw_table w)). Qed.
Lemma stays_fail id reason now : stays (db_ (fail id reason now)).
Proof. apply stays_db. intros u gone w. by apply left_update. Qed.
Lemma stays_transcript id truncated : stays (db_ (markTranscriptCaptured id truncated)).
Proof. apply stays_db. intros u gone w. by apply left_update. Qed.
Lemma stays_reaped id now : stays (db_ (markReaped id now)).
Proof. apply stays_db. intros u gone w. by apply left_update. Qed.
Lemma stays_orphans top : stays (db_ (deleteReapedByRoot top)).
Proof. apply stays_db. intros u gone w [H1 H2]. split; simpl; [|done]. intros x [Hx _]%elem_filter. by apply H1. Qed.
Lemma stays_streams r streams : stays (deleteStreams r streams).
Proof. intros u gone. apply keeps_iter. intros st _. apply keeps_op. by intros w []. Qed.
Hint Resolve stays_fail stays_transcript stays_reaped stays_orphans stays_streams : io_keeps.
Lemma stays_capture id : stays (capture id).
Proof. intros u gone. unfold capture, getRow. keeps. Qed.
Hint Resolve stays_capture : io_keeps.

Lemma stays_reap del c id now : (forall i, stays (del i)) -> stays (reap del c id now).
Proof. intros Hd u gone. unfold reap. keeps. Qed.
Lemma stays_cascade del id now : (forall i, stays (del i)) -> stays (cascade del id now).
Proof. intros Hd u gone. pose proof (fun c i => stays_reap del c i now Hd) as Hr. unfold cascade, getRow, failDriven, purgeRoot. keeps. Qed.

Lemma drop_spec u gone id :
  io_triple true (left_in u gone) (dropAgent id) (fun _ => left_in u (id :: gone)) (fun _ => False).
Proof.
  apply triple_op; [done|]. intros w [H1 H2]. split; simpl; [done|].
  intros a [-> |Ha]%elem_of_cons [Hin E]%elem_filter; [by rewrite String.eqb_refl in E | by apply (H2 a)].
Qed.
Lemma stays_deleteAgent fuel now id : stays (deleteAgent fuel now id).
Proof.
  revert id. induction fuel as [|fuel IH]; intros id u gone; simpl; [apply keeps_throw|].
  eapply triple_bind; [eapply triple_conseq; [apply drop_spec | done | intros a w; apply left_weaken; [done | by intros x; right] | done]|].
  intros []; [|apply keeps_ret]. by apply keeps_swallow, stays_cascade.
Qed.

(** Deleting an agent does not throw once there is fuel and nothing fails. *)
Lemma deleteAgent_total fuel now u gone id :
  io_triple true (left_in u gone) (deleteAgent (S fuel) now id) (fun _ => left_in u (id :: gone)) (fun _ => False).
Proof.
  simpl. eapply triple_bind; [apply drop_spec|]. intros []; [|by apply triple_ret].
  unfold swallow. eapply triple_catch with (E' := left_in u (id :: gone)); [|by apply triple_ret].
  apply stays_cascade. intros i. apply stays_deleteAgent.
Qed.

Lemma reap_total fuel now u gone id :
  io_triple true (left_in u gone) (reap (deleteAgent (S fuel) now) false id now)
    (fun _ => left_in (fun i => u i /\ i <> id) (id :: gone)) (fun _ => False).
Proof.
  unfold reap. eapply triple_bind with (R := fun _ => left_in u gone); [by apply triple_ret|]. intros [].
  unfold swallow. eapply triple_catch with (E' := fun _ => False); [|by apply triple_ret].
  eapply triple_bind; [apply deleteAgent_total|]. intros []. apply triple_op; [done|]. intros w [H1 H2]. split; simpl; [|done].
  intros r' (r & -> & Hin)%list_elem_of_fmap. destruct (byId id r) eqn:E; simpl; [done|].
  intros Er Ere. split; [by apply H1|]. intros Eid. unfold byId in E. by rewrite Eid, String.eqb_refl in E.
Qed.

Lemma purge_total u gone : io_triple true (left_in u gone) (purgeRoot root) (fun _ => left_in u gone) (fun _ => False).
Proof.
  unfold purgeRoot. eapply triple_bind with (R := fun _ => left_in u gone); [by apply triple_op|]. intros rows.
  apply (triple_iter true (fun _ => left_in u gone)). intros _ r _ _. apply (triple_iter true (fun _ => left_in u gone)). intros _ st _ _.
  apply triple_op; [done|]. by intros w [].
Qed.

(** The cascade of a root that is no target. *)
Lemma cascade_root fuel now rows :
  io_triple true (fun w => get root (iw_table w) = None /\ root ∉ iw_agents w /\ listUnreapedByRoot root (iw_table w) = rows)
    (cascade (deleteAgent (S fuel) now) root now)
    (fun _ w => (forall r, r ∈ iw_table w -> iv_root r <> root) /\ forall a, a ∈ root :: map iv_id rows -> a ∉ iw_agents w) (fun _ => False).
Proof.
  unfold cascade. eapply triple_bind with (R := fun own w => own = None /\ root ∉ iw_agents w /\ listUnreapedByRoot root (iw_table w) = rows).
  { by apply triple_op. }
  intros own. apply triple_pure. intros ->.
  set (I := fun pre => left_in (fun i => i ∈ map iv_id rows /\ i ∉ map iv_id pre) (root :: map iv_id pre)).
  eapply triple_bind with (R := fun l w => l = rows /\ I [] w).
  { apply triple_op; [done|]. intros w (Hr & El). split; [done|]. split; simpl.
    - intros r Hin Er Ere. split; [|by apply not_elem_of_nil]. rewrite <- El. apply list_elem_of_fmap. exists r. split; [done|].
      apply elem_filter. split; [done|]. rewrite Er, String.eqb_refl. by apply bool_decide_eq_true.
    - by intros a ->%list_elem_of_singleton. }
  intros l. eapply triple_bind with (R := fun _ => I rows).
  { apply triple_pure. intros ->. apply (triple_iter true I). intros pre r post El.
    eapply triple_bind with (R := fun _ => I pre).
    { destruct (running r); [|by apply triple_ret]. apply triple_op; [done|]. intros w. by apply left_update. }
    intros []. eapply triple_conseq; [apply reap_total | done | | done]. intros a w. unfold I. rewrite map_app. apply left_weaken.
    - intros i [[? Hn] Hne]. split; [done|]. by intros [?|?%list_elem_of_singleton]%elem_of_app.
    - intros x. simpl. rewrite !elem_of_cons, elem_of_app, elem_of_cons. set_solver. }
  intros []. eapply triple_bind with (R := fun purged w => purged = true /\ I rows w).
  - eapply triple_catch with (E' := fun _ => False); [|by apply triple_ret].
    eapply triple_bind; [apply purge_total|]. intros []. by apply triple_ret.
  - intros purged. apply triple_pure. intros ->. apply triple_op; [done|]. intros w [H1 H2]. split; simpl; [|exact H2].
    intros r [Hin E]%elem_filter Er. apply negb_true_iff, andb_false_iff in E as [E|E%bool_decide_eq_false].
    + by rewrite Er, String.eqb_refl in E.
    + destruct (H1 r Hin Er) as [Hi Hn]; [by apply dec_stable | by destruct (Hn Hi)].
Qed.
End Root.

(** ** Nothing outlives its deadline *)
Section Overdue.
Context (now : Z).
Definition due_in (u : string -> Prop) (w : IW) : Prop := forall r, r ∈ iw_table w -> overdue now r = true -> u (iv_id r).
Notation waits m := (forall u, io_triple true (due_in u) m (fun _ => due_in u) (due_in u)).

Lemma waits_db {A} (f : Table -> Table * A) : (forall u w, due_in u w -> due_in u (set_table (f (iw_table w)).1 w)) -> waits (db f).
Proof. intros H u. apply keeps_op. intros w Hw. specialize (H u w Hw). by destruct (f (iw_table w)). Qed.
Lemma due_update u p f w :
  (forall r, iv_id (f r) = iv_id r /\ (overdue now (f r) = true -> overdue now r = true)) -> due_in u w -> due_in u (set_table (update p f (iw_table w)) w).
Proof.
  intros Hf H r' (r & -> & Hin)%list_elem_of_fmap. destruct (Hf r) as [E Ho]. destruct (p r); [rewrite E; intros ?%Ho|]; by apply H.
Qed.
Lemma waits_fail id reason at_ : waits (db_ (fail id reason at_)).
Proof. apply waits_db. intros u w. by apply due_update. Qed.
Lemma waits_transcript id truncated : waits (db_ (markTranscriptCaptured id truncated)).
Proof. apply waits_db. intros u w. by apply due_update. Qed.
Lemma waits_reaped id at_ : waits (db_ (markReaped id at_)).
Proof. apply waits_db. intros u w. by apply due_update. Qed.
Lemma waits_cleared id : waits (db_ (clearOutput id)).
Proof. apply waits_db. intros u w. by apply due_update. Qed.
Lemma waits_orphans root : waits (db_ (deleteReapedByRoot root)).
Proof. apply waits_db. intros u w H r [Hr _]%elem_filter. by apply H. Qed.
Lemma waits_streams r streams : waits (deleteStreams r streams).
Proof. intros u. apply keeps_iter. intros st _. by apply keeps_op. Qed.
Lemma waits_drop id : waits (dropAgent id).
Proof. intros u. by apply keeps_op. Qed.
Hint Resolve waits_fail waits_transcript waits_reaped waits_cleared waits_orphans waits_streams waits_drop : io_keeps.

Lemma waits_capture id : waits (capture id).
Proof. intros u. unfold capture, getRow. keeps. Qed.
Hint Resolve waits_capture : io_keeps.
Lemma waits_deleteAgent fuel at_ id : waits (deleteAgent fuel at_ id).
Proof.
  revert id. induction fuel as [|fuel IH]; intros id u; simpl; [apply keeps_throw|]. apply keeps_bind; [auto with io_keeps|].
  assert (forall c i, waits (reap (deleteAgent fuel at_) c i at_)) as Hr by (intros c i u'; unfold reap; keeps).
  intros []; [|apply keeps_ret]. apply keeps_swallow. unfold cascade, getRow, failDriven, purgeRoot. keeps.
Qed.
Lemma waits_reap captured id at_ : waits (reapTarget captured id at_).
Proof.
  intros u. assert (waits (agentsDelete at_ id)) as Hd by (intros u' w; apply (waits_deleteAgent (S (length (iw_agents (io_st w)))) at_ id u' w)).
  unfold reapTarget, reap. keeps.
Qed.
Hint Resolve waits_reap : io_keeps.
Lemma waits_failSetup id step reason at_ : waits (failSetup id step reason at_).
Proof. intros u. unfold failSetup, getRow. keeps. Qed.
Lemma waits_refusalFor r : waits (refusalFor r).
Proof. intros u. unfold refusalFor. keeps. Qed.
Hint Resolve waits_failSetup waits_refusalFor : io_keeps.

Lemma sweepExpired_spec r u : io_triple true (due_in u) (sweepExpired r now) (fun _ => due_in (fun i => u i /\ i <> iv_id r)) (fun _ => False).
Proof.
  unfold sweepExpired, swallow. eapply triple_catch with (E' := due_in (fun i => u i /\ i <> iv_id r)).
  - eapply triple_bind with (R := fun _ => due_in u).
    { unfold expiryReason. destruct (iv_startedAt r); [by apply triple_ret|]. eapply triple_bind with (R := fun _ => due_in u); [|intros a; by apply triple_ret].
      eapply triple_catch with (E' := fun _ => False); [by apply triple_op | by apply triple_ret]. }
    intros reason. eapply triple_bind with (R := fun _ => due_in (fun i => u i /\ i <> iv_id r)); [|intros []; keeps].
    apply triple_op; [done|]. intros w H r' (s & -> & Hin)%list_elem_of_fmap. destruct (expired (iv_id r) now s) eqn:E; [done|].
    intros Ho. split; [by apply H|]. intros Eid. unfold expired, runningId, byId in E. rewrite Eid, String.eqb_refl in E. simpl in E.
    unfold overdue in Ho. by rewrite Ho in E.
  - by apply triple_ret.
Qed.

Lemma tick_ends batch ids w :
  due_in (fun i => i ∈ ids) w -> 
  io_triple true (fun w' => w' = w /\ map iv_id (listExpiredRunning now batch (iw_table w)) = ids) (tick batch now) (fun _ => due_in (fun _ => False)) (due_in (fun _ => False)).
Proof.
  intros Hw. unfold tick. set (rows := listExpiredRunning now batch (iw_table w)).
  eapply triple_bind with (R := fun l w => l = rows /\ due_in (fun i => i ∈ map iv_id rows /\ i ∉ map iv_id (@nil InvocationRow)) w).
  { apply triple_op; [done|]. intros w' [-> E]. split; [done|]. intros r Hr Ho. split; [|by apply not_elem_of_nil]. rewrite E. by apply Hw. }
  intros l. apply triple_pure. intros ->. eapply triple_bind with (R := fun _ => due_in (fun _ => False)).
  - eapply triple_conseq with (E' := fun _ => False); [apply (triple_iter true (fun pre => due_in (fun i => i ∈ map iv_id rows /\ i ∉ map iv_id pre))) | done | |].
    + intros pre r post _. eapply triple_conseq; [apply sweepExpired_spec | done | | done]. intros a s H x Hx Ho.
      destruct (H x Hx Ho) as [[H1 H2] H3]. split; [done|]. rewrite map_app. by intros [?|?%list_elem_of_singleton]%elem_of_app.
    + intros a s H x Hx Ho. destruct (H x Hx Ho) as [H1 H2]. by destruct (H2 H1).
    + by intros s [].
  - intros []. unfold sweepRunning, sweepEnded, reapDue, purgeExpired, purgeRoot. keeps.
Qed.
End Overdue.
End Runs.

(** ** What the handlers promise *)

(** An id has one row, and the targets marked as taken back are gone. *)
Record consistent (w : IW) : Prop := mk_consistent {
  cs_ids : NoDup (map iv_id (iw_table w));
  cs_reaped : forall r, r ∈ iw_table w -> iv_reapedAt r <> None -> iv_id r ∉ iw_agents w;
}.
Definition results_ok (q : Asked) (w : IW) : Prop :=
  forall r, r ∈ iw_table w -> iv_status r = st_done -> sp_script (iv_spec r) = None ->
  exists v, en_result (iv_ending r) = Some v /\ ak_validates q (sp_resultSchema (iv_spec r)) v = true.

(** C15: A result has the shape that was asked for: whatever launches, reports,
    stops, deletions and sweeps run, each with anything failing in it, the result
    of an invocation that is done is a value its schema accepts; and an id keeps
    one row, and every target marked as taken back is gone. *)
Theorem results_conform q cs w :
  consistent w -> results_ok q w -> consistent (calls q cs w) /\ results_ok q (calls q cs w).
Proof.
  intros [Hids Hre] Hok. assert (sound q (fun _ => False) True [] w) as Hw.
  { split; try done; [intros r Hr _; by apply Hok | by intros a ?%elem_of_nil]. }
  destruct (calls_sound q (fun _ => False) True cs w ltac:(auto) Hw) as [H1 H2 H3 _ _].
  split; [by split | intros r Hr; exact (H2 r Hr I)].
Qed.

(** C14: No target is lost: a target that still exists has its row, and the row is
    not marked as taken back, so that the sweep finds it; whatever ends, deletes
    and cleans up, its root's deletion included, and wherever each of these fails. *)
Theorem no_target_loses_its_row q cs w id :
  consistent w -> id ∈ map iv_id (iw_table w) -> (forall c, c ∈ cs -> ~ launches c.1.1 id) ->
  id ∈ iw_agents (calls q cs w) ->
  exists r, get id (iw_table (calls q cs w)) = Some r /\ iv_reapedAt r = None.
Proof.
  intros [Hids Hre] Hid Hcs Hin. assert (sound q (eq id) False [] w) as Hw.
  { split; try done; [by intros r _ [] | by intros a <- | by intros a ?%elem_of_nil]. }
  destruct (calls_sound q (eq id) False cs w) as [H1 _ H3 H4 _]; [by intros c i Hc Hl ->; apply (Hcs c Hc) | done|].
  pose proof (H4 id eq_refl Hin) as Hrow. apply list_elem_of_fmap in Hrow as (r & -> & Hr). exists r. split; [by apply get_elem|].
  destruct (iv_reapedAt r) eqn:E; [|done]. exfalso. by apply (H3 r Hr); [rewrite E|].
Qed.

(** C28: Deleting a root takes everything with it: when nothing fails, the deletion
    of an agent that is no target itself returns, and leaves no row of the
    invocations under it and none of their targets. *)
Theorem deleted_root_leaves_nothing q now root w :
  root ∈ iw_agents w -> get root (iw_table w) = None ->
  exists w', agentsDelete q now root (mk_io w []) = (mk_io w' [], Ok tt) /\
    (forall r, r ∈ iw_table w' -> iv_root r <> root) /\
    forall a, a = root \/ a ∈ map iv_id (listUnreapedByRoot root (iw_table w)) -> a ∉ iw_agents w'.
Proof.
  intros Hin Hno. unfold agentsDelete. simpl. unfold dropAgent, io_bind, io_op. simpl.
  rewrite (proj2 (includes_spec _ _) Hin). destruct (length (iw_agents w)) as [|fuel] eqn:El.
  { destruct (iw_agents w); [by apply elem_of_nil in Hin | done]. }
  set (w1 := mk_iw _ _ _ _).
  pose proof (cascade_root q root fuel now (listUnreapedByRoot root (iw_table w)) (mk_io w1 []) ltac:(done)) as H. unfold swallow.
  destruct (cascade q _ root now (mk_io w1 [])) as [w2 [[]|]] eqn:E; simpl in H.
  - rewrite (io_catch_ok _ _ _ _ _ E). destruct w2 as [w2 fs]. destruct H as [Hf [Hrows Hgone]].
    { split; [done|]. split; [|done]. by intros [_ ?%negb_true_iff%String.eqb_neq]%elem_filter. }
    specialize (Hf eq_refl). simpl in *. subst fs. exists w2. split; [done|]. split; [done|]. intros a [->|Ha]; apply Hgone; by constructor.
  - destruct H as [_ []]. split; [done|]. split; [|done]. by intros [_ ?%negb_true_iff%String.eqb_neq]%elem_filter.
Qed.

(** C29: No invocation outlives its deadline: a sweep in which nothing fails leaves
    none running past it, up to as many as a sweep looks at. *)
Theorem tick_ends_overdue q batch now w :
  (length (List.filter (overdue now) (iw_table w)) <= batch)%nat ->
  forall r, r ∈ iw_table (io_st (tick q batch now (mk_io w [])).1) -> overdue now r = false.
Proof.
  intros Hlen r Hr. apply not_true_iff_false. intros Ho.
  pose proof (tick_ends q now batch (map iv_id (listExpiredRunning now batch (iw_table w))) w) as H.
  assert (due_in now (fun i => i ∈ map iv_id (listExpiredRunning now batch (iw_table w))) w) as Hw.
  { intros x Hx E. apply list_elem_of_fmap. exists x. split; [done|]. unfold listExpiredRunning. rewrite take_ge by done. by apply elem_filter. }
  specialize (H Hw (mk_io w []) ltac:(done) ltac:(done)). destruct (tick q batch now (mk_io w [])) as [w' [[]|]]; destruct H as [_ H]; by apply (H r).
Qed.

(** ** At concrete inputs: a root, its target, and the target's own target *)
Definition demoAsked : Asked :=
  mk_asked (fun _ => None) (fun _ => Some false) (fun s => if String.eqb s "7" then Some (jnum 7) else None) (fun _ => true)
    (fun _ v => match v with jnum _ => true | _ => false end) (fun _ _ => "data must be number"%string) (fun _ => None) (fun _ => None)
    (fun _ => Some true) (fun _ => Some 0%nat).
Definition demoTarget (id driver : string) (expiresAt : Z) : InvocationRow :=
  mk_irow (demoSpec id driver) None expiresAt notEnded None None None None (mk_marks None None None None).
Definition demoWorld : IW := mk_iw [demoTarget "t1" "root" 60000; demoTarget "t2" "t1" 90000] ["root"%string; "t1"%string; "t2"%string] [] [].

(** A result sent as text; a stop whose deletion fails after the target is gone;
    and a sweep that finds the row not taken back. *)
Definition demoCalls : list (Handler * Z * list fault) :=
  [(h_recordResult "t1" (jstr "7"), 5000, []); (h_stop "ann" "root" "t2", 6000, [NoFault; NoFault; NoFault; NoFault; NoFault; NoFault; FailAfter]);
   (h_tick 10, 40000, [])].
Definition demoView (w : IW) : list (string * InvocationStatus * option json * bool) * list string :=
  (map (fun r => (iv_id r, iv_status r, en_result (iv_ending r), bool_decide (iv_reapedAt r = None))) (iw_table w), iw_agents w).

Lemma demo_consistent : consistent demoWorld.
Proof.
  split; [apply (bool_decide_unpack _); by vm_compute|]. intros r Hr. simpl in Hr. repeat (apply elem_of_cons in Hr as [-> |Hr]; [done|]).
  by apply elem_of_nil in Hr.
Qed.

Lemma results_conform_witness :
  let w := calls demoAsked (take 2 demoCalls) demoWorld in
  results_ok demoAsked w /\
  demoView w = ([("t1", st_done, Some (jnum 7), true); ("t2", st_failed, None, true)], ["root"; "t1"])%string /\
  demoView (calls demoAsked demoCalls demoWorld) = ([("t1", st_done, Some (jnum 7), false); ("t2", st_failed, None, false)], ["root"])%string.
Proof.
  split; [|split; by vm_compute]. apply (results_conform demoAsked (take 2 demoCalls) demoWorld demo_consistent).
  intros r Hr. simpl in Hr. repeat (apply elem_of_cons in Hr as [-> |Hr]; [done|]). by apply elem_of_nil in Hr.
Defined.

(** The root is deleted, and the deletion of its target fails. *)
Lemma no_target_loses_its_row_witness :
  let w := calls demoAsked [(h_deleteAgent "root", 7000, replicate 4 NoFault ++ [FailBefore])] demoWorld in
  iw_agents w = ["t1"%string] /\ exists r, get "t1" (iw_table w) = Some r /\ iv_reapedAt r = None.
Proof.
  split; [by vm_compute|]. apply (no_target_loses_its_row demoAsked _ demoWorld "t1" demo_consistent).
  - left.
  - intros c Hc. apply list_elem_of_singleton in Hc as ->. by intros [].
  - by vm_compute; left.
Defined.

Lemma deleted_root_leaves_nothing_witness :
  (exists w', agentsDelete demoAsked 7000 "root" (mk_io demoWorld []) = (mk_io w' [], Ok tt) /\
    (forall r, r ∈ iw_table w' -> iv_root r <> "root"%string) /\
    forall a, a = "root"%string \/ a ∈ map iv_id (listUnreapedByRoot "root" (iw_table demoWorld)) -> a ∉ iw_agents w') /\
  demoView (io_st (agentsDelete demoAsked 7000 "root" (mk_io demoWorld [])).1) = ([], []).
Proof. split; [|by vm_compute]. apply deleted_root_leaves_nothing; [left | by vm_compute]. Defined.

Lemma tick_ends_overdue_witness :
  (forall r, r ∈ iw_table (io_st (tick demoAsked 1 70000 (mk_io demoWorld [])).1) -> overdue 70000 r = false) /\
  demoView (io_st (tick demoAsked 1 70000 (mk_io demoWorld [])).1) = ([("t1", st_failed, None, false); ("t2", st_failed, None, false)], ["root"])%string.
Proof. split; [|by vm_compute]. apply tick_ends_overdue. vm_compute. lia. Defined.
