(* ===== verification/EnvSignIn.v ===== *)
(** Signing in to an Environment (packages/api-server/src/modules/environments:
    services/environment-signin.ts, gate/front-door.ts, the reserved paths of
    gate/environment-gate.ts, and the lifetimes of compose.ts).

    An address without a session sends the visitor to the share host's front door,
    which gives their browser a code for that address; the address trades it for a
    session.  The codes, sessions and chains are in the stores of [TtlMaps] (which
    Redis keeps in an installation, under the same contract); each call to a store,
    to the share host and to a table may fail before its effect or after it.  What is
    random, the time, and what the share host and the tables answer, come with the
    call.  A URL the platform builds is kept as its parts; the URL parser and SHA-256
    are parameters. *)
From stdpp Require Import base strings list sets.
From Stdlib Require Import ZArith Lia.
From S2P Require Import Prelude JsString TtlMaps EnvGate.
Local Open Scope Z_scope.

Definition HANDOFF_TTL_MS : Z := 60000.
Definition CHAIN_TTL_MS : Z := 5 * 60000.
Definition SESSION_TTL_MS : Z := 12 * 60 * 60 * 1000.

Inductive Url :=
(** [/.platform/session?code=…] and [/.platform/signin?chain=…] of an address. *)
| u_session (address code : string)
| u_signin (address chain : string)
| u_page (href : string).
#[export] Instance Url_eq_dec : EqDecision Url.
Proof. solve_decision. Defined.

Record Visitor := mk_visitor { vi_sub : string; vi_email : option string; vi_shareSession : string }.
#[export] Instance Visitor_eq_dec : EqDecision Visitor.
Proof. solve_decision. Defined.
Record Handoff := mk_handoff { ho_visitor : Visitor; ho_address : string; ho_next : string; ho_binding : string; ho_then : option Url }.
Record Chain := mk_chain { ch_sub : string; ch_shareSession : string; ch_remaining : list string; ch_returnTo : Url }.
Definition sessionOf (v : Visitor) (address : string) (now : Z) : EnvironmentSession :=
  mkSession (vi_sub v) (vi_email v) address (vi_shareSession v) now.

Record GW := mk_gw {
  gw_handoffs : MemEntries Handoff;
  gw_sessions : MemEntries EnvironmentSession;
  gw_chains : MemEntries Chain;
  (** the share host's sessions that hold *)
  gw_share : list string;
}.
Definition noSessions : GW := mk_gw [] [] [] [].

Section SignIn.
(** [new URL(path, base)]: its origin and its text. *)
Context (url : string -> string -> result (string * string)).
(** SHA-256, base64url *)
Context (signInBinding : string -> string).
(** The origin of an address's URL. *)
Context (addressOrigin : string -> string).
Context (domain : string).
Implicit Types (now : Z) (address code chainId : string) (w : GW).

Definition url_origin (path base : string) : result string :=
  match url path base with Ok p => Ok p.1 | Throw => Throw end.

Definition on_handoffs {A} (f : MemEntries Handoff -> MemEntries Handoff * A) : IO GW A :=
  io_op (fun w => let '(m, a) := f (gw_handoffs w) in (mk_gw m (gw_sessions w) (gw_chains w) (gw_share w), a)).
Definition on_sessions {A} (f : MemEntries EnvironmentSession -> MemEntries EnvironmentSession * A) : IO GW A :=
  io_op (fun w => let '(m, a) := f (gw_sessions w) in (mk_gw (gw_handoffs w) m (gw_chains w) (gw_share w), a)).
Definition on_chains {A} (f : MemEntries Chain -> MemEntries Chain * A) : IO GW A :=
  io_op (fun w => let '(m, a) := f (gw_chains w) in (mk_gw (gw_handoffs w) (gw_sessions w) m (gw_share w), a)).
Definition share_alive (id : string) : IO GW bool := io_op (fun w => (w, includes (gw_share w) id)).
Definition share_end (id : string) : IO GW unit :=
  io_op (fun w => (mk_gw (gw_handoffs w) (gw_sessions w) (gw_chains w) (List.filter (fun s => negb (String.eqb s id)) (gw_share w)), tt)).
(** A table, or the share host, is asked. *)
Definition ask {A} (a : A) : IO GW A := io_op (fun w => (w, a)).

(** ** environment-signin.ts *)
Definition handoff (v : Visitor) address (next : option string) (binding : string) (then_ : option Url) code now : IO GW Url :=
  let* next := io_port (safeNext url_origin next) in
  run* on_handoffs (fun m => (store_set HANDOFF_TTL_MS code (mk_handoff v address next binding then_) now m, tt)) in
  io_ret (u_session address code).

Definition redeemHandoff code address (secret sessionId : string) now : IO GW (option (EnvironmentSession * Url)) :=
  let* h := on_handoffs (store_consume code now) in
  match h with
  | None => io_ret None
  | Some h =>
      if negb (String.eqb (ho_address h) address) || negb (String.eqb (ho_binding h) (signInBinding secret)) then io_ret None
      else
        let session := sessionOf (ho_visitor h) address now in
        run* on_sessions (fun m => (store_set SESSION_TTL_MS sessionId session now m, tt)) in
        io_ret (Some (session, ho_then h ?? u_page (ho_next h)))
  end.

Definition startChain (v : Visitor) (others : list string) (returnTo : Url) chainId now : IO GW (option Url) :=
  match others with
  | [] => io_ret None
  | first :: _ =>
      run* on_chains (fun m => (store_set CHAIN_TTL_MS chainId (mk_chain (vi_sub v) (vi_shareSession v) others returnTo) now m, tt)) in
      io_ret (Some (u_signin first chainId))
  end.

Definition continueChain chainId (v : Visitor) address now : IO GW (option Url) :=
  let* chain := on_chains (store_peek chainId now) in
  match chain with
  | None => io_ret None
  | Some c =>
      if negb (String.eqb (ch_sub c) (vi_sub v)) || negb (String.eqb (ch_shareSession c) (vi_shareSession v))
         || bool_decide (head (ch_remaining c) <> Some address) then io_ret None
      else match tail (ch_remaining c) with
           | [] => run* on_chains (fun m => (store_delete chainId m, tt)) in io_ret (Some (ch_returnTo c))
           | (first :: _) as rest =>
               run* on_chains (fun m => (store_set CHAIN_TTL_MS chainId (mk_chain (ch_sub c) (ch_shareSession c) rest (ch_returnTo c)) now m, tt)) in
               io_ret (Some (u_signin first chainId))
           end
  end.

Definition session (sessionId : string) now : IO GW (option EnvironmentSession) :=
  let* s := on_sessions (store_peek sessionId now) in
  match s with
  | None => io_ret None
  | Some s =>
      let* alive := share_alive (ss_shareSession s) in
      if (alive : bool) then io_ret (Some s)
      else run* on_sessions (fun m => (store_delete sessionId m, tt)) in io_ret None
  end.

Definition signOut (sessionId : string) now : IO GW unit :=
  let* s := on_sessions (store_peek sessionId now) in
  run* on_sessions (fun m => (store_delete sessionId m, tt)) in
  match s with Some s => share_end (ss_shareSession s) | None => io_ret tt end.

(** ** environment-gate.ts: the paths an address reserves *)

Record PlatformRequest := mk_request {
  rq_path : string;
  (** the query's [code] and [chain] *)
  rq_code : option string;
  rq_chain : option string;
  (** the address's cookies: the secret of a sign-in, and the session *)
  rq_signIn : option string;
  rq_session : option string;
}.
Inductive Reserved :=
(** The session's cookie is set, and the browser sent on. *)
| rs_session (sessionId : string) (next : Url)
| rs_expired
(** A page that goes on to the front door; the sign-in's cookie is set. *)
| rs_continue (next binding chain : string)
| rs_signedOut
| rs_notFound.

Definition signInSecret (held : option string) (fresh : string) : string :=
  match isSignInToken held, held with true, Some s => s | _, _ => fresh end.

Definition reserved (rq : PlatformRequest) address (fresh sessionId : string) now : IO GW Reserved :=
  if String.eqb (rq_path rq) "/.platform/session" then
    let* redeemed := redeemHandoff (rq_code rq ?? ""%string) address (rq_signIn rq ?? ""%string) sessionId now in
    match redeemed with Some (_, next) => io_ret (rs_session sessionId next) | None => io_ret rs_expired end
  else if String.eqb (rq_path rq) "/.platform/signin" then
    let chain := rq_chain rq ?? ""%string in
    if negb (isSignInToken (Some chain)) then io_ret rs_notFound
    else io_ret (rs_continue "/" (signInBinding (signInSecret (rq_signIn rq) fresh)) chain)
  else if String.eqb (rq_path rq) "/.platform/sign-out" then
    run* match rq_session rq with Some id => if String.eqb id "" then io_ret tt else signOut id now | None => io_ret tt end in
    io_ret rs_signedOut
  else io_ret rs_notFound.

(** ** front-door.ts *)

(** A visit, with what the tables and the share host answer. *)
Record Visit := mk_visit {
  fv_address : string;
  fv_next : option string;
  fv_binding : option string;
  fv_chain : option string;
  fv_byHost : string -> option EnvironmentRecord;
  fv_agentMembers : list string;
  fv_environmentMembers : list string;
  fv_editors : list string;
  fv_visitor : option Visitor;
}.
Definition fv_allowed (v : Visit) : list string := effectiveAccess (fv_agentMembers v) (fv_environmentMembers v) (fv_editors v).

Inductive Door :=
| dr_noSuchEnvironment
(** Starts over at the address. *)
| dr_address (href : string)
| dr_login
| dr_noAccess (visitor : Visitor)
| dr_redirect (u : Url).

(** The page of the address to return to. *)
Definition backTo (origin : string) (next : option string) : result string :=
  match safeNext url_origin next with
  | Throw => Throw
  | Ok path => match url path origin with
               | Throw => Throw
               | Ok (o, href) => Ok (if String.eqb o origin then href else (origin ++ "/")%string)
               end
  end.

(** The Environment and the endpoint an address names. *)
Definition lookup (byHost : string -> option EnvironmentRecord) address : option (EnvironmentRecord * string) :=
  match parseAddress (Some (address ++ "." ++ domain)%string) domain with
  | None => None
  | Some p =>
      match byHost (pr_host p) with
      | Some r => if existsb (fun e => String.eqb (ee_name e) (pr_endpoint p)) (en_endpoints r) then Some (r, pr_address p) else None
      | None => None
      end
  end.

Definition frontDoor (v : Visit) code chainId now : IO GW Door :=
  let* found := match parseAddress (Some (fv_address v ++ "." ++ domain)%string) domain with
                | None => io_ret None
                | Some _ => ask (lookup (fv_byHost v) (fv_address v))
                end in
  match found with
  | None => io_ret dr_noSuchEnvironment
  | Some (record, address) =>
      let origin := addressOrigin address in
      match isSignInToken (fv_binding v), fv_binding v with
      | true, Some binding =>
          let* visitor := ask (fv_visitor v) in
          match visitor with
          | None => io_ret dr_login
          | Some visitor =>
              let* allowed := ask (fv_allowed v) in
              match decideAccess (en_owner record) allowed (Some (sessionOf visitor address now)) address with
              | access_allow =>
                  let* back := io_port (backTo origin (fv_next v)) in
                  let* then_ := match isSignInToken (fv_chain v), fv_chain v with
                    | true, Some chain => continueChain chain visitor address now
                    | _, _ => startChain visitor (List.filter (fun a => negb (String.eqb a address)) (endpointAddresses record)) (u_page back) chainId now
                    end in
                  let* u := handoff visitor address (fv_next v) binding then_ code now in
                  io_ret (dr_redirect u)
              | _ => io_ret (dr_noAccess visitor)
              end
          end
      | _, _ => let* back := io_port (backTo origin (fv_next v)) in io_ret (dr_address back)
      end
  end.

(** ** The calls, from any browser to any replica *)
Inductive Call :=
| cl_frontDoor (v : Visit) (code chainId : string)
| cl_redeem (code address secret sessionId : string)
| cl_session (sessionId : string)
| cl_signOut (sessionId : string)
(** The share host signs someone in, and out. *)
| cl_shareBegins (id : string)
| cl_shareEnds (id : string).

Definition shareBegins (id : string) : IO GW unit :=
  io_op (fun w => (mk_gw (gw_handoffs w) (gw_sessions w) (gw_chains w) (id :: gw_share w), tt)).

(** Whether a code was traded for a session. *)
Definition call (c : Call) now : IO GW bool :=
  match c with
  | cl_frontDoor v code chainId => run* frontDoor v code chainId now in io_ret false
  | cl_redeem code address secret sid => let* r := redeemHandoff code address secret sid now in io_ret (bool_decide (is_Some r))
  | cl_session sid => run* session sid now in io_ret false
  | cl_signOut sid => run* signOut sid now in io_ret false
  | cl_shareBegins id => run* shareBegins id in io_ret false
  | cl_shareEnds id => run* share_end id in io_ret false
  end.

Record Step := mk_step { sp_call : Call; sp_now : Z; sp_faults : list fault }.
Definition step w (s : Step) : GW := io_st (call (sp_call s) (sp_now s) (mk_io w (sp_faults s))).1.
Definition run (l : list Step) w : GW := foldl step w l.

(** ** Where sessions come from *)

(** A code was given at the front door, to someone let in. *)
Record given (code : string) (h : Handoff) (s : Step) : Prop := mk_given {
  gv_visit : Visit;
  gv_record : EnvironmentRecord;
  gv_call : exists chainId, sp_call s = cl_frontDoor gv_visit code chainId;
  gv_visitor : fv_visitor gv_visit = Some (ho_visitor h);
  gv_binding : fv_binding gv_visit = Some (ho_binding h);
  gv_address : lookup (fv_byHost gv_visit) (fv_address gv_visit) = Some (gv_record, ho_address h);
  gv_access : decideAccess (en_owner gv_record) (fv_allowed gv_visit) (Some (sessionOf (ho_visitor h) (ho_address h) (sp_now s))) (ho_address h) = access_allow;
}.
(** A session was traded for one. *)
Record traded (past : list Step) (sid : string) (s : EnvironmentSession) (at_ : Z) : Prop := mk_traded {
  td_code : string; td_secret : string; td_handoff : Handoff; td_given : Step; td_step : Step;
  td_past : td_given ∈ past /\ td_step ∈ past;
  td_isGiven : given td_code td_handoff td_given;
  td_call : sp_call td_step = cl_redeem td_code (ss_address s) td_secret sid;
  td_now : sp_now td_step = at_ /\ at_ <= sp_now td_given + HANDOFF_TTL_MS;
  td_address : ho_address td_handoff = ss_address s;
  td_bound : ho_binding td_handoff = signInBinding td_secret;
  td_session : s = sessionOf (ho_visitor td_handoff) (ss_address s) at_;
}.

Record accounted (past : list Step) w : Prop := mk_accounted {
  ac_handoffs : forall code h e, om_get code (gw_handoffs w) = Some (h, e) ->
    exists s, s ∈ past /\ given code h s /\ e = sp_now s + HANDOFF_TTL_MS;
  ac_sessions : forall sid s e, om_get sid (gw_sessions w) = Some (s, e) ->
    exists at_, traded past sid s at_ /\ e = at_ + SESSION_TTL_MS;
}.

Lemma traded_later past past' sid s at_ : (forall x, x ∈ past -> x ∈ past') -> traded past sid s at_ -> traded past' sid s at_.
Proof. intros H [code secret h g t [H1 H2] ? ? ? ? ? ?]. apply (mk_traded past' sid s at_ code secret h g t); auto. Qed.
Lemma accounted_later past past' w : (forall x, x ∈ past -> x ∈ past') -> accounted past w -> accounted past' w.
Proof.
  intros H [Hh Hs]. split.
  - intros code h e E. destruct (Hh code h e E) as (s & Hin & Hg). exists s. auto.
  - intros sid s e E. destruct (Hs sid s e E) as (at_ & Ht & Ee). exists at_. split; [by eapply traded_later | done].
Qed.

Section Past.
Context (past : list Step).
Notation kept m := (io_keeps (accounted past) m).

(** The stores lose entries freely. *)
Lemma handoffs_kept {A} (f : MemEntries Handoff -> MemEntries Handoff * A) :
  (forall m code x, om_get code (f m).1 = Some x -> om_get code m = Some x) -> kept (on_handoffs f).
Proof.
  intros Hf. apply keeps_op. intros w [Hh Hs]. specialize (Hf (gw_handoffs w)). destruct (f (gw_handoffs w)) as [m a]. simpl in *.
  split; simpl; [|done]. intros code h e E. apply Hh. auto.
Qed.
Lemma sessions_kept {A} (f : MemEntries EnvironmentSession -> MemEntries EnvironmentSession * A) :
  (forall m sid x, om_get sid (f m).1 = Some x -> om_get sid m = Some x) -> kept (on_sessions f).
Proof.
  intros Hf. apply keeps_op. intros w [Hh Hs]. specialize (Hf (gw_sessions w)). destruct (f (gw_sessions w)) as [m a]. simpl in *.
  split; simpl; [done|]. intros sid s e E. apply Hs. auto.
Qed.
Lemma chains_kept {A} (f : MemEntries Chain -> MemEntries Chain * A) : kept (on_chains f).
Proof. apply keeps_op. intros w [Hh Hs]. destruct (f (gw_chains w)). by split. Qed.
Lemma ask_kept {A} (a : A) P : io_keeps P (ask a).
Proof. by apply keeps_op. Qed.
Lemma share_kept f : kept (io_op (fun w => (mk_gw (gw_handoffs w) (gw_sessions w) (gw_chains w) (f (gw_share w)), tt))).
Proof. apply keeps_op. intros w [Hh Hs]. by split. Qed.
Lemma alive_kept id P : io_keeps P (share_alive id).
Proof. by apply keeps_op. Qed.

Lemma live_keeps {V} key now (m : MemEntries V) k x : om_get k (live key now m).1 = Some x -> om_get k m = Some x.
Proof. destruct (live_cases key now m) as [(e & _ & _ & ->)| ->]; [done|]. simpl. rewrite om_get_delete. by case_decide. Qed.
Lemma delete_keeps {V} key (m : MemEntries V) k x : om_get k (om_delete key m) = Some x -> om_get k m = Some x.
Proof. rewrite om_get_delete. by case_decide. Qed.
Lemma peek_keeps {V} key now (m : MemEntries V) k x : om_get k (store_peek key now m).1 = Some x -> om_get k m = Some x.
Proof. unfold store_peek. pose proof (live_keeps key now m k x). by destruct (live key now m). Qed.
Lemma consume_keeps {V} key now (m : MemEntries V) k x : om_get k (store_consume key now m).1 = Some x -> om_get k m = Some x.
Proof. unfold store_consume. pose proof (live_keeps key now m k x). destruct (live key now m). simpl in *. intros ?%delete_keeps. auto. Qed.
Hint Resolve chains_kept ask_kept alive_kept : io_keeps.

Lemma consumed_spec code now :
  io_triple false (accounted past) (on_handoffs (store_consume code now))
    (fun h w => match h with Some h => exists s, s ∈ past /\ given code h s /\ now <= sp_now s + HANDOFF_TTL_MS | None => True end /\ accounted past w)
    (accounted past).
Proof.
  pose proof (handoffs_kept (store_consume code now) (consume_keeps code now)) as Hk. intros w Hw Hp. specialize (Hk w Hw Hp).
  destruct (on_handoffs (store_consume code now) w) as [w' [h|]] eqn:E; [|done]. destruct Hk as [Hf Hk]. split; [done|]. split; [|done].
  assert (h = (store_consume code now (gw_handoffs (io_st w))).2) as ->.
  { unfold on_handoffs, io_op in E. destruct (store_consume code now (gw_handoffs (io_st w))) as [m a]. destruct (io_faults w) as [|[] fs]; by simplify_eq. }
  unfold store_consume. destruct (live_cases code now (gw_handoffs (io_st w))) as [([h e] & Eg & Hle & ->)| ->]; simpl; [|done].
  destruct (ac_handoffs _ _ Hp code h e Eg) as (s & Hin & Hg & ->). by exists s.
Qed.

Lemma redeem_kept code address secret sid now s :
  s ∈ past -> sp_call s = cl_redeem code address secret sid -> sp_now s = now -> kept (redeemHandoff code address secret sid now).
Proof.
  intros Hs Hcall Hnow. unfold redeemHandoff. eapply triple_bind; [apply consumed_spec|]. intros [h|]; apply triple_pure; [|intros _; keeps].
  intros (g & Hg & Hgiven & Hle). destruct (String.eqb_spec (ho_address h) address) as [Ea|]; simpl; [|keeps].
  destruct (String.eqb_spec (ho_binding h) (signInBinding secret)) as [Eb|]; simpl; [|keeps].
  apply keeps_bind; [|intros; keeps]. apply keeps_op. intros w [Hh Hss]. split; simpl; [done|]. unfold store_set. intros sid' s' e.
  rewrite om_get_set. case_decide as E; [|apply Hss]. intros [= <- <-]. subst sid'. exists now. split; [|done].
  by apply (mk_traded _ _ _ _ code secret h g s).
Qed.

Lemma handoff_kept v address next binding then_ code now s :
  s ∈ past -> sp_now s = now -> (forall next', given code (mk_handoff v address next' binding then_) s) -> kept (handoff v address next binding then_ code now).
Proof.
  intros Hs Hnow Hg. unfold handoff. apply keeps_bind; [keeps|]. intros next'. apply keeps_bind; [|intros; keeps].
  apply keeps_op. intros w [Hh Hss]. split; simpl; [|done]. unfold store_set. intros code' h e.
  rewrite om_get_set. case_decide as E; [|apply Hh]. intros [= <- <-]. subst. by exists s.
Qed.

Lemma chain_kept v chainId returnTo others now : kept (startChain v others returnTo chainId now).
Proof. unfold startChain. keeps. Qed.
Lemma continue_kept v chainId address now : kept (continueChain chainId v address now).
Proof. unfold continueChain. keeps. Qed.

Lemma frontDoor_kept v code chainId now s :
  s ∈ past -> sp_call s = cl_frontDoor v code chainId -> sp_now s = now -> kept (frontDoor v code chainId now).
Proof.
  intros Hs Hcall Hnow. unfold frontDoor. eapply triple_bind with (R := fun a w => a = lookup (fv_byHost v) (fv_address v) /\ accounted past w).
  { unfold lookup. destruct (parseAddress _ domain); [by apply triple_op | by apply triple_ret]. }
  intros found. apply triple_pure. intros Efound. destruct found as [[record address]|]; [|keeps].
  destruct (isSignInToken (fv_binding v)), (fv_binding v) as [binding|] eqn:Eb; [|keeps..].
  eapply triple_bind with (R := fun a w => a = fv_visitor v /\ accounted past w); [by apply triple_op|].
  intros visitor. apply triple_pure. intros Ev. destruct visitor as [visitor|]; [|keeps].
  eapply triple_bind with (R := fun a w => a = fv_allowed v /\ accounted past w); [by apply triple_op|].
  intros allowed. apply triple_pure. intros ->. destruct (decideAccess _ _ _ _) eqn:Ed; [|keeps..].
  apply keeps_bind; [keeps|]. intros back. apply keeps_bind; [|intros then_; apply keeps_bind; [|intros; keeps]].
  - case_match; [case_match; [apply continue_kept | apply chain_kept] | apply chain_kept].
  - apply (handoff_kept _ _ _ _ _ _ _ s); [done | done|]. intros next'. apply (mk_given _ _ _ v record); try done. by exists chainId.
Qed.

Lemma session_kept sid now : kept (session sid now).
Proof.
  pose proof (sessions_kept (store_peek sid now) (peek_keeps sid now)).
  pose proof (sessions_kept (fun m => (store_delete sid m, tt)) (fun m => delete_keeps sid m)). unfold session. keeps.
Qed.
Lemma signOut_kept sid now : kept (signOut sid now).
Proof.
  pose proof (sessions_kept (store_peek sid now) (peek_keeps sid now)). pose proof share_kept.
  pose proof (sessions_kept (fun m => (store_delete sid m, tt)) (fun m => delete_keeps sid m)). unfold signOut, share_end. keeps.
Qed.

Lemma call_accounted s : s ∈ past -> kept (call (sp_call s) (sp_now s)).
Proof.
  intros Hs. destruct (sp_call s) eqn:E; simpl; (apply keeps_bind; [|intros; keeps]).
  - by apply (frontDoor_kept v code chainId _ s).
  - by apply (redeem_kept code address secret sessionId _ s).
  - apply session_kept.
  - apply signOut_kept.
  - apply share_kept.
  - apply share_kept.
Qed.
End Past.

Lemma run_accounted l : accounted l (run l noSessions).
Proof.
  unfold run. induction l as [|s l IH] using rev_ind; [by split|]. rewrite foldl_snoc. unfold step.
  assert (accounted (l ++ [s]) (foldl step noSessions l)) as H0 by (eapply accounted_later; [|exact IH]; intros x Hx; apply elem_of_app; by left).
  pose proof (call_accounted (l ++ [s]) s ltac:(apply elem_of_app; right; left) (mk_io (foldl step noSessions l) (sp_faults s)) ltac:(done) H0) as H.
  by destruct (call _ _ _) as [w [b|]]; apply H.
Qed.

(** ** A code works once *)
Definition tradesIn (code : string) (c : Call) : bool := match c with cl_redeem code' _ _ _ => String.eqb code' code | _ => false end.
Definition givesIn (code : string) (c : Call) : bool := match c with cl_frontDoor _ code' _ => String.eqb code' code | _ => false end.
(** How often a code was traded for a session. *)
Fixpoint trades (code : string) (l : list Step) w : nat :=
  match l with
  | [] => 0
  | s :: l =>
      let ok := match (call (sp_call s) (sp_now s) (mk_io w (sp_faults s))).2 with Ok b => b | Throw => false end in
      ((if tradesIn code (sp_call s) && ok then 1 else 0) + trades code l (step w s))%nat
  end.
Definition gives (code : string) (l : list Step) : nat := length (List.filter (fun s => givesIn code (sp_call s)) l).

Section Once.
Context (code : string).
Definition holds_at_most (n : nat) w : Prop := (held_of code (gw_handoffs w) <= n)%nat.

Lemma any_held {A} n (m : IO GW A) : io_triple false (holds_at_most n) m (fun _ => holds_at_most (S n)) (holds_at_most (S n)).
Proof.
  intros w Hw _. unfold holds_at_most. assert (forall x, (held_of code (gw_handoffs x) <= S n)%nat) as H by (intros x; pose proof (held_le_one code (gw_handoffs x)); lia).
  destruct (m w) as [w' [a|]]; by split.
Qed.
Lemma hand_kept {A} n (f : MemEntries Handoff -> MemEntries Handoff * A) :
  (forall m, (held_of code (f m).1 <= held_of code m)%nat) -> io_keeps (holds_at_most n) (on_handoffs f).
Proof.
  intros Hf. apply keeps_op. unfold holds_at_most. intros w Hw. specialize (Hf (gw_handoffs w)). destruct (f (gw_handoffs w)). simpl in *. lia.
Qed.
Lemma sess_kept {A} n (f : MemEntries EnvironmentSession -> MemEntries EnvironmentSession * A) : io_keeps (holds_at_most n) (on_sessions f).
Proof. apply keeps_op. unfold holds_at_most. intros w Hw. by destruct (f (gw_sessions w)). Qed.
Lemma chn_kept {A} n (f : MemEntries Chain -> MemEntries Chain * A) : io_keeps (holds_at_most n) (on_chains f).
Proof. apply keeps_op. unfold holds_at_most. intros w Hw. by destruct (f (gw_chains w)). Qed.
Lemma shr_kept n f : io_keeps (holds_at_most n) (io_op (fun w => (mk_gw (gw_handoffs w) (gw_sessions w) (gw_chains w) (f (gw_share w)), tt))).
Proof. by apply keeps_op. Qed.
Hint Resolve @sess_kept @chn_kept @ask_kept alive_kept : io_keeps.

Lemma set_other n code' h now : String.eqb code' code = false -> io_keeps (holds_at_most n) (on_handoffs (fun m => (store_set HANDOFF_TTL_MS code' h now m, tt))).
Proof.
  intros E. apply hand_kept. intros m. pose proof (store_step_once HANDOFF_TTL_MS code now (sx_set code' h) m) as H. simpl in *. rewrite E in H. lia.
Qed.
Lemma consume_held n code' now :
  io_triple false (holds_at_most n) (on_handoffs (store_consume code' now))
    (fun h w => (answered code (sx_consume (V:=Handoff) code') h + held_of code (gw_handoffs w) <= n)%nat) (holds_at_most n).
Proof.
  assert (forall m, (answered code (sx_consume (V:=Handoff) code') (store_consume code' now m).2 + held_of code (store_consume code' now m).1 <= held_of code m)%nat) as H.
  { intros m. pose proof (store_step_once HANDOFF_TTL_MS code now (sx_consume code') m) as H. simpl in *. destruct (store_consume code' now m). simpl in *. lia. }
  unfold holds_at_most. apply triple_op.
  - intros _ w Hw. specialize (H (gw_handoffs w)). destruct (store_consume _ _ _). simpl in *. split; lia.
  - intros w Hw. specialize (H (gw_handoffs w)). destruct (store_consume _ _ _). simpl in *. lia.
Qed.

Lemma call_once s n :
  io_triple false (holds_at_most n) (call (sp_call s) (sp_now s))
    (fun b w => ((if tradesIn code (sp_call s) && b then 1 else 0) + held_of code (gw_handoffs w) <= n + if givesIn code (sp_call s) then 1 else 0)%nat)
    (fun w => (held_of code (gw_handoffs w) <= n + if givesIn code (sp_call s) then 1 else 0)%nat).
Proof.
  assert (forall m : IO GW bool, io_keeps (holds_at_most n) m ->
    io_triple false (holds_at_most n) m (fun b w => (0 + held_of code (gw_handoffs w) <= n + 0)%nat) (fun w => (held_of code (gw_handoffs w) <= n + 0)%nat)) as Hk.
  { intros m Hm. eapply triple_conseq; [exact Hm | done | |]; unfold holds_at_most; intros; simpl in *; lia. }
  destruct (sp_call s) as [v code' cid|code' address secret sid|sid|sid|id|id]; simpl.
  - destruct (String.eqb code' code) eqn:E.
    + eapply triple_conseq; [apply (any_held n) | done | |]; unfold holds_at_most; intros; simpl in *; lia.
    + apply Hk. pose proof (fun h now => set_other n code' h now E). unfold frontDoor, continueChain, startChain, handoff. keeps.
  - unfold redeemHandoff. eapply triple_bind with (R := fun r w => ((if String.eqb code' code && bool_decide (is_Some r) then 1 else 0) + held_of code (gw_handoffs w) <= n)%nat).
    + eapply triple_bind; [eapply triple_conseq; [apply (consume_held n code') | done | done | unfold holds_at_most; intros; simpl in *; lia]|].
      intros [h|]; [|apply triple_ret; intros w; simpl; by destruct (String.eqb code' code)].
      destruct (_ || _); [apply triple_ret; intros w; simpl; destruct (String.eqb code' code); simpl; lia|].
      eapply triple_bind with (R := fun _ w => ((if String.eqb code' code then 1 else 0) + held_of code (gw_handoffs w) <= n)%nat).
      * apply triple_op; [|by intros w]. intros _ w Hw. simpl in *. destruct (String.eqb code' code); split; lia.
      * intros []. apply triple_ret. intros w. simpl. by rewrite andb_true_r.
    + intros r. apply triple_ret. intros w. rewrite Nat.add_0_r. by destruct (String.eqb code' code), (bool_decide (is_Some r)).
  - apply Hk. unfold session. keeps.
  - apply Hk. pose proof (shr_kept n). unfold signOut, share_end. keeps.
  - apply Hk. pose proof (shr_kept n (cons id)). unfold shareBegins. keeps.
  - apply Hk. pose proof (shr_kept n). unfold share_end. keeps.
Qed.
End Once.

Lemma trades_bound code l w : (trades code l w <= held_of code (gw_handoffs w) + gives code l)%nat.
Proof.
  revert w. induction l as [|s l IH]; intros w; simpl; [lia|]. specialize (IH (step w s)). unfold gives in *. simpl.
  pose proof (call_once code s (held_of code (gw_handoffs w)) (mk_io w (sp_faults s)) ltac:(done) (Nat.le_refl _)) as H. unfold step in *.
  destruct (call (sp_call s) (sp_now s) _) as [w' [b|]]; simpl in *; destruct H as [_ H].
  - destruct (tradesIn code (sp_call s)), (givesIn code (sp_call s)), b; simpl in *; lia.
  - rewrite andb_false_r. destruct (givesIn code (sp_call s)); simpl in *; lia.
Qed.

(** ** Signed out is signed out everywhere *)
Section Out.
Context (id : string).
Definition out w : Prop := id ∉ gw_share w.
Lemma out_handoffs {A} (f : MemEntries Handoff -> MemEntries Handoff * A) : io_keeps out (on_handoffs f).
Proof. apply keeps_op. unfold out. intros w Hw. by destruct (f (gw_handoffs w)). Qed.
Lemma out_sessions {A} (f : MemEntries EnvironmentSession -> MemEntries EnvironmentSession * A) : io_keeps out (on_sessions f).
Proof. apply keeps_op. unfold out. intros w Hw. by destruct (f (gw_sessions w)). Qed.
Lemma out_chains {A} (f : MemEntries Chain -> MemEntries Chain * A) : io_keeps out (on_chains f).
Proof. apply keeps_op. unfold out. intros w Hw. by destruct (f (gw_chains w)). Qed.
Lemma out_ends id' : io_keeps out (share_end id').
Proof. apply keeps_op. unfold out. simpl. by intros w Hw [? _]%elem_filter. Qed.
Hint Resolve @out_handoffs @out_sessions @out_chains @ask_kept alive_kept out_ends : io_keeps.

Lemma call_out s : sp_call s <> cl_shareBegins id -> io_keeps out (call (sp_call s) (sp_now s)).
Proof.
  intros Hne. destruct (sp_call s) as [v code cid|code address secret sid|sid|sid|id'|id']; simpl.
  - unfold frontDoor, continueChain, startChain, handoff. keeps.
  - unfold redeemHandoff. keeps.
  - unfold session. keeps.
  - unfold signOut. keeps.
  - apply keeps_bind; [|intros; keeps]. apply keeps_op. unfold out. simpl. intros w Hw [->|?]%elem_of_cons; [by destruct Hne | done].
  - keeps.
Qed.
Lemma run_out l w : (forall s, s ∈ l -> sp_call s <> cl_shareBegins id) -> out w -> out (run l w).
Proof.
  revert w. induction l as [|s l IH]; intros w Hl Hw; [done|]. apply IH; [intros x Hx; apply Hl; by right|].
  pose proof (call_out s (Hl s ltac:(left)) (mk_io w (sp_faults s)) ltac:(done) Hw) as H. unfold step. by destruct (call _ _ _) as [w' [b|]]; apply H.
Qed.
Lemma session_out sid now :
  io_triple false out (session sid now) (fun a _ => forall s, a = Some s -> ss_shareSession s <> id) (fun _ => True).
Proof.
  unfold session. eapply triple_bind with (R := fun _ => out); [eapply triple_conseq; [apply out_sessions | done | done | done]|]. intros [s|]; [|by apply triple_ret].
  eapply triple_bind with (R := fun alive _ => alive = true -> ss_shareSession s <> id).
  - apply triple_op; [done|]. unfold out. simpl. intros w Hw Ha%includes_spec E. by rewrite E in Ha.
  - intros [|]; [apply triple_ret; intros w H s' [= <-]; by apply H|]. eapply triple_bind with (R := fun _ _ => True); [by apply triple_op|]. intros []. by apply triple_ret.
Qed.
End Out.
(** ** The theorems *)

Lemma session_answer sid now w0 :
  io_triple false (fun w => w = w0) (session sid now)
    (fun a _ => forall s, a = Some s -> exists e, om_get sid (gw_sessions w0) = Some (s, e) /\ now <= e /\ ss_shareSession s ∈ gw_share w0)
    (fun _ => True).
Proof.
  unfold session. eapply triple_bind with (R := fun a w => (forall s, a = Some s -> exists e, om_get sid (gw_sessions w0) = Some (s, e) /\ now <= e) /\ gw_share w = gw_share w0).
  - apply triple_op; [done|]. intros w ->. unfold store_peek. destruct (live_cases sid now (gw_sessions w0)) as [([s e] & Eg & Hle & ->)| ->]; [|done].
    simpl. split; [|done]. intros ? [= <-]. by exists e.
  - intros [s|]; [|by apply triple_ret]. apply triple_pure. intros Hs.
    eapply triple_bind with (R := fun alive w => alive = true -> ss_shareSession s ∈ gw_share w0).
    + apply triple_op; [done|]. simpl. by intros w -> ?%includes_spec.
    + intros [|].
      * apply triple_ret. intros w H s' [= <-]. destruct (Hs s eq_refl) as (e & ? & ?). exists e. auto.
      * eapply triple_bind with (R := fun _ _ => True); [by apply triple_op|]. intros []. by apply triple_ret.
Qed.


(** C27: a code is traded for a session at most as often as it was given: a code
    given once, and codes are random, is traded once, whoever tries, in whatever
    order, and whichever calls fail. *)
Theorem code_works_once code l : (trades code l noSessions <= gives code l)%nat.
Proof. apply (trades_bound code l noSessions). Qed.

(** After a sign-out that answers, no session of the same share session is
    accepted, at any address and whatever the calls after it, until the share host
    begins a session of that name. *)
Theorem signed_out_everywhere w fs sid now s e (w' : io GW) l sid' now' fs' (w'' : io GW) s' :
  om_get sid (gw_sessions w) = Some (s, e) -> now <= e ->
  signOut sid now (mk_io w fs) = (w', Ok tt) ->
  (forall x, x ∈ l -> sp_call x <> cl_shareBegins (ss_shareSession s)) ->
  session sid' now' (mk_io (run l (io_st w')) fs') = (w'', Ok (Some s')) ->
  ss_shareSession s' <> ss_shareSession s.
Proof.
  intros Eg Hle Eout Hl Eses.
  assert (out (ss_shareSession s) (io_st w')) as Hout.
  { revert Eout. unfold signOut, on_sessions, share_end, io_bind, io_op, store_peek, live. cbn [io_faults io_st]. rewrite Eg. cbn [snd fst].
    rewrite (proj2 (Z.ltb_ge _ _) Hle). cbn [fst snd fmap option_fmap option_map].
    destruct fs as [|[] [|[] [|[] fs]]]; try done; intros [= <-]; unfold out; simpl; intros [_ H]%elem_filter;
      by rewrite String.eqb_refl in H. }
  pose proof (session_out (ss_shareSession s) sid' now' (mk_io (run l (io_st w')) fs') ltac:(done) (run_out _ l _ Hl Hout)) as H.
  rewrite Eses in H. destruct H as [_ H]. by apply H.
Qed.
End SignIn.

(** ** One sign-in for every endpoint *)
Lemma without_none (x : string) l : x ∉ l -> List.filter (fun a => negb (String.eqb a x)) l = l.
Proof.
  induction l as [|b l IH]; [done|]. intros [Hb Hl]%not_elem_of_cons. simpl. rewrite (proj2 (String.eqb_neq b x)) by done. simpl. by rewrite IH.
Qed.
Lemma rest_of (x : string) l : NoDup l -> x ∈ l -> x :: List.filter (fun a => negb (String.eqb a x)) l ≡ₚ l.
Proof.
  induction 1 as [|a l Ha Hl IH]; intros Hin; [by apply elem_of_nil in Hin|]. simpl. destruct (String.eqb_spec a x) as [->|Hne]; simpl.
  - by rewrite without_none.
  - apply elem_of_cons in Hin as [->|Hin]; [done|]. etrans; [apply perm_swap|]. by rewrite IH.
Qed.

Section Browser.
Context (url : string -> string -> result (string * string)) (signInBinding : string -> string) (addressOrigin : string -> string) (domain : string).
(** What the tables answer, who visits, the sign-in cookies the browser holds, and
    what is random: the secrets minted for it, the codes, the sessions and the chain. *)
Context (byHost : string -> option EnvironmentRecord) (agentMembers environmentMembers editors : list string) (v : Visitor).
Context (held : string -> option string) (fresh : string -> string) (code sid : nat -> string) (chainId : string) (clock : nat -> Z).

(** The secret an address's sign-in has, in the browser's cookie. *)
Definition secret (address : string) : string := signInSecret (held address) (fresh address).
Definition visit (i : nat) (address next binding : string) (chain : option string) : IO GW Door :=
  frontDoor url addressOrigin domain
    (mk_visit address (Some next) (Some binding) chain byHost agentMembers environmentMembers editors (Some v))
    (code i) chainId (clock i).
Definition at_signin (i : nat) (address chain : string) : IO GW Reserved :=
  reserved signInBinding (mk_request "/.platform/signin" None (Some chain) (held address) None) address (fresh address) (sid i) (clock i).
Definition at_session (i : nat) (address c : string) : IO GW Reserved :=
  reserved signInBinding (mk_request "/.platform/session" (Some c) None (Some (secret address)) None) address (fresh address) (sid i) (clock i).

(** The browser follows what it is told: the page it ends at, and the sessions it
    got on the way. *)
Fixpoint follow (fuel i : nat) (u : Url) : IO GW (option string * list (string * string)) :=
  match fuel with
  | O => io_ret (None, [])
  | S fuel =>
      match u with
      | u_page href => io_ret (Some href, [])
      | u_signin address chain =>
          let* p := at_signin i address chain in
          match p with
          | rs_continue next binding chain =>
              let* d := visit i address next binding (Some chain) in
              match d with dr_redirect u => follow fuel (S i) u | _ => io_ret (None, []) end
          | _ => io_ret (None, [])
          end
      | u_session address c =>
          let* p := at_session i address c in
          match p with
          | rs_session s u => let* rest := follow fuel (S i) u in io_ret (rest.1, (address, s) :: rest.2)
          | _ => io_ret (None, [])
          end
      end
  end.
(** An address without a session sends the browser to the front door. *)
Definition open (fuel : nat) (address next : string) : IO GW (option string * list (string * string)) :=
  let* d := visit 0 address next (signInBinding (secret address)) None in
  match d with dr_redirect u => follow fuel 1 u | _ => io_ret (None, []) end.

Context (record : EnvironmentRecord).
Hypothesis root_parses : exists r, url "/" SAME_ORIGIN_BASE = Ok r.
Hypothesis roots_parse : forall a, a ∈ endpointAddresses record -> exists r, url "/" (addressOrigin a) = Ok r.
Hypothesis binding_token : forall s, isSignInToken (Some (signInBinding s)) = true.
Hypothesis chain_token : isSignInToken (Some chainId) = true.
Hypothesis sid_fresh : forall i j, sid i = sid j -> i = j.
Hypothesis clock_moves : forall i, clock i <= clock (S i) <= clock i + HANDOFF_TTL_MS.
Hypothesis endpoints_found : forall a, a ∈ endpointAddresses record -> lookup domain byHost a = Some (record, a).
Hypothesis let_in : forall a t, decideAccess (en_owner record) (effectiveAccess agentMembers environmentMembers editors) (Some (sessionOf v a t)) a = access_allow.

Definition next_hop (rest : list string) (ret : Url) : Url := match rest with [] => ret | b :: _ => u_signin b chainId end.
Definition chain_after (i : nat) (rest : list string) (ret : Url) (m : MemEntries Chain) : MemEntries Chain :=
  match rest with
  | [] => om_delete chainId m
  | _ => om_set chainId (mk_chain (vi_sub v) (vi_shareSession v) rest ret, clock i + CHAIN_TTL_MS) m
  end.
Definition given_to (i : nat) (a next : string) (t : option Url) : Handoff * Z :=
  (mk_handoff v a next (signInBinding (secret a)) t, clock i + HANDOFF_TTL_MS).

Lemma safeNext_root : safeNext (url_origin url) (Some "/"%string) = Ok "/"%string.
Proof.
  unfold safeNext, url_origin. simpl. destruct root_parses as ([o h] & ->). simpl. by destruct (String.eqb o _).
Qed.
Lemma backTo_root a : a ∈ endpointAddresses record -> exists href, backTo url (addressOrigin a) (Some "/"%string) = Ok href.
Proof. intros Ha. unfold backTo. rewrite safeNext_root. destruct (roots_parse a Ha) as ([o h] & ->). by eexists. Qed.
Lemma found_parses a : a ∈ endpointAddresses record -> exists p, parseAddress (Some (a ++ "." ++ domain)%string) domain = Some p.
Proof. intros Ha. pose proof (endpoints_found a Ha) as H. unfold lookup in H. destruct (parseAddress _ _); [by eexists | done]. Qed.

Lemma visit_chain i w a rest ret e :
  a ∈ endpointAddresses record -> om_get chainId (gw_chains w) = Some (mk_chain (vi_sub v) (vi_shareSession v) (a :: rest) ret, e) -> clock i <= e ->
  visit i a "/" (signInBinding (secret a)) (Some chainId) (mk_io w []) =
  (mk_io (mk_gw (om_set (code i) (given_to i a "/" (Some (next_hop rest ret))) (gw_handoffs w)) (gw_sessions w)
            (chain_after i rest ret (gw_chains w)) (gw_share w)) [], Ok (dr_redirect (u_session a (code i)))).
Proof.
  intros Ha Ech He. unfold visit, frontDoor. cbn [fv_address]. destruct (found_parses a Ha) as (p & ->). unfold ask at 1. unfold io_bind at 1, io_op at 1. cbn [io_faults io_st fv_byHost fv_address].
  rewrite (endpoints_found a Ha). cbn [fv_binding]. rewrite binding_token.
  unfold io_bind at 1, ask at 1, io_op at 1. cbn [io_faults io_st fv_visitor].
  unfold io_bind at 1, ask at 1, io_op at 1. cbn [io_faults io_st]. unfold fv_allowed. cbn [fv_agentMembers fv_environmentMembers fv_editors].
  rewrite let_in. cbn [fv_next fv_chain]. destruct (backTo_root a Ha) as (href & ->).
  unfold io_bind at 1, io_port at 1. rewrite chain_token. unfold io_bind at 1. unfold continueChain, on_chains. unfold io_bind at 1, io_op at 1. cbn [io_faults io_st].
  unfold store_peek, live. rewrite Ech. cbn [snd]. rewrite (proj2 (Z.ltb_ge _ _) He). cbn [fst snd fmap option_fmap option_map].
  cbn [ch_sub ch_shareSession ch_remaining ch_returnTo head tail]. rewrite !String.eqb_refl, bool_decide_eq_false_2 by (intros []; done). cbn [negb orb].
  destruct rest as [|b rest]; unfold io_bind, io_op, io_ret, handoff, on_handoffs, io_op, io_port, io_bind, io_ret; cbn [io_faults io_st];
    rewrite safeNext_root; cbn [io_faults io_st]; by destruct w.
Qed.

Lemma signin_continues i a w :
  at_signin i a chainId w = (w, Ok (rs_continue "/" (signInBinding (secret a)) chainId)).
Proof. unfold at_signin, reserved. cbn [rq_path rq_chain nullish String.eqb Ascii.eqb Bool.eqb]. by rewrite chain_token. Qed.

Lemma redeem_given i w a next t :
  om_get (code i) (gw_handoffs w) = Some (given_to i a next t) ->
  at_session (S i) a (code i) (mk_io w []) =
  (mk_io (mk_gw (om_delete (code i) (gw_handoffs w))
            (om_set (sid (S i)) (sessionOf v a (clock (S i)), clock (S i) + SESSION_TTL_MS) (gw_sessions w)) (gw_chains w) (gw_share w)) [],
   Ok (rs_session (sid (S i)) (t ?? u_page next))).
Proof.
  intros E. unfold at_session, reserved. cbn [rq_path String.eqb Ascii.eqb Bool.eqb rq_code rq_signIn nullish]. unfold redeemHandoff, on_handoffs, on_sessions, io_bind, io_op, io_ret. cbn [io_faults io_st]. unfold store_consume, live. rewrite E.
  unfold given_to. cbn [snd fst]. destruct (clock_moves i) as [_ Hc]. rewrite (proj2 (Z.ltb_ge _ _) Hc). cbn [fst snd fmap option_fmap option_map].
  cbn [ho_address ho_binding ho_visitor ho_then ho_next]. by rewrite !String.eqb_refl.
Qed.

(** The sessions of the browser, in the store. *)
Definition holds_sessions (i : nat) (visited : list (string * string)) (w : GW) : Prop :=
  forall a s, (a, s) ∈ visited -> exists j, (i <= j)%nat /\ s = sid j /\ om_get s (gw_sessions w) = Some (sessionOf v a (clock j), clock j + SESSION_TTL_MS).

Lemma follow_rest fuel : forall rest i w href e,
  rest <> [] -> (forall a, a ∈ rest -> a ∈ endpointAddresses record) ->
  om_get chainId (gw_chains w) = Some (mk_chain (vi_sub v) (vi_shareSession v) rest (u_page href), e) -> clock i <= e ->
  (2 * length rest < fuel)%nat ->
  exists w' visited, follow fuel i (next_hop rest (u_page href)) (mk_io w []) = (mk_io w' [], Ok (Some href, visited)) /\
    map fst visited = rest /\ holds_sessions i visited w' /\ gw_share w' = gw_share w /\
    forall j, (j < i)%nat -> om_get (sid j) (gw_sessions w') = om_get (sid j) (gw_sessions w).
Proof.
  induction fuel as [fuel IH] using lt_wf_ind. intros [|a rest] i w href e Hne Hin Ech He Hf; [done|]. simpl in Hf.
  destruct fuel as [|[|fuel]]; try lia. cbn [next_hop follow]. unfold io_bind at 1. rewrite signin_continues. unfold io_bind at 1.
  rewrite (visit_chain i w a rest (u_page href) e (Hin a ltac:(left)) Ech He). unfold io_bind at 1.
  set (w1 := mk_gw _ _ _ _). rewrite (redeem_given i w1 a "/" (Some (next_hop rest (u_page href)))) by (unfold w1; simpl; by rewrite om_get_set, decide_True).
  set (w2 := mk_gw _ _ _ _). unfold io_bind at 1.
  assert (exists w' visited, follow fuel (S (S i)) (next_hop rest (u_page href)) (mk_io w2 []) = (mk_io w' [], Ok (Some href, visited)) /\
    map fst visited = rest /\ holds_sessions (S (S i)) visited w' /\ gw_share w' = gw_share w2 /\
    forall j, (j < S (S i))%nat -> om_get (sid j) (gw_sessions w') = om_get (sid j) (gw_sessions w2)) as (w' & visited & E & Ev & Hs & Esh & Hfr).
  { destruct rest as [|b rest].
    - simpl. destruct fuel as [|fuel]; [simpl in Hf; lia|]. exists w2, []. split_and!; try done. by intros ? ? ?%elem_of_nil.
    - apply (IH fuel ltac:(lia) (b :: rest) (S (S i)) w2 href (clock i + CHAIN_TTL_MS)); [done| | | |simpl in *; lia].
      + intros x Hx. apply Hin. by right.
      + unfold w2, w1. cbn [gw_chains chain_after]. by rewrite om_get_set, decide_True.
      + destruct (clock_moves i), (clock_moves (S i)). unfold HANDOFF_TTL_MS, CHAIN_TTL_MS in *. lia. }
  exists w', ((a, sid (S i)) :: visited). unfold nullish. rewrite E. split_and!.
  - done.
  - simpl. by rewrite Ev.
  - intros x s [[= -> ->]|Hx]%elem_of_cons.
    + exists (S i). split; [lia|]. split; [done|]. rewrite Hfr by lia. unfold w2. cbn [gw_sessions]. by rewrite om_get_set, decide_True.
    + destruct (Hs x s Hx) as (j & Hj & Es). exists j. split; [lia | done].
  - by rewrite Esh.
  - intros j Hj. rewrite Hfr by lia. unfold w2. cbn [gw_sessions]. rewrite om_get_set, decide_False; [done|]. intros Ej%sid_fresh. lia.
Qed.
(** The first visit: the rest of the addresses are kept for the browser to come by. *)
Definition others (address : string) : list string := List.filter (fun a => negb (String.eqb a address)) (endpointAddresses record).
Definition chained (address href : string) : option Url := match others address with [] => None | b :: _ => Some (u_signin b chainId) end.

Lemma visit_first w address next path href :
  address ∈ endpointAddresses record -> safeNext (url_origin url) (Some next) = Ok path -> backTo url (addressOrigin address) (Some next) = Ok href ->
  visit 0 address next (signInBinding (secret address)) None (mk_io w []) =
  (mk_io (mk_gw (om_set (code 0%nat) (given_to 0 address path (chained address href)) (gw_handoffs w)) (gw_sessions w)
            (match others address with
             | [] => gw_chains w
             | o => om_set chainId (mk_chain (vi_sub v) (vi_shareSession v) o (u_page href), clock 0%nat + CHAIN_TTL_MS) (gw_chains w)
             end) (gw_share w)) [], Ok (dr_redirect (u_session address (code 0%nat)))).
Proof.
  intros Ha Ep Eh. unfold visit, frontDoor. cbn [fv_address]. destruct (found_parses address Ha) as (p & ->).
  unfold ask at 1. unfold io_bind at 1, io_op at 1. cbn [io_faults io_st fv_byHost fv_address].
  rewrite (endpoints_found address Ha). cbn [fv_binding]. rewrite binding_token.
  unfold io_bind at 1, ask at 1, io_op at 1. cbn [io_faults io_st fv_visitor].
  unfold io_bind at 1, ask at 1, io_op at 1. cbn [io_faults io_st]. unfold fv_allowed. cbn [fv_agentMembers fv_environmentMembers fv_editors].
  rewrite let_in. cbn [fv_next fv_chain]. rewrite Eh. unfold io_bind at 1, io_port at 1. cbn [isSignInToken]. unfold io_bind at 1.
  fold (others address). unfold chained, startChain.
  destruct (others address) as [|b rest]; unfold on_chains, io_bind, io_op, io_ret, handoff, on_handoffs, io_op, io_port, io_bind, io_ret; cbn [io_faults io_st];
    rewrite Ep; cbn [io_faults io_st]; by destruct w.
Qed.

Lemma clock_later i j : (i <= j)%nat -> clock i <= clock j.
Proof. induction 1 as [|j _ IH]; [lia|]. destruct (clock_moves j). lia. Qed.

Lemma others_all address : NoDup (endpointAddresses record) -> address ∈ endpointAddresses record -> address :: others address ≡ₚ endpointAddresses record.
Proof. apply rest_of. Qed.

(** C26: a visitor who is let in and opens an Environment at one of its addresses
    ends at the page they asked for, after as many sign-ins as the Environment has
    endpoints, and every endpoint's session, one of each, is accepted from then on
    for twelve hours after the visit began. *)
Theorem one_sign_in_covers_all fuel address next w path href now :
  NoDup (endpointAddresses record) -> address ∈ endpointAddresses record ->
  safeNext (url_origin url) (Some next) = Ok path -> backTo url (addressOrigin address) (Some next) = Ok href ->
  vi_shareSession v ∈ gw_share w -> (2 * length (endpointAddresses record) < fuel)%nat -> now <= clock 0%nat + SESSION_TTL_MS ->
  exists w' visited,
    open fuel address next (mk_io w []) = (mk_io w' [], Ok (Some (if bool_decide (others address = []) then path else href), visited)) /\
    map fst visited ≡ₚ endpointAddresses record /\
    forall a s, (a, s) ∈ visited -> exists j, session s now (mk_io w' []) = (mk_io w' [], Ok (Some (sessionOf v a (clock j)))).
Proof.
  intros Hnd Ha Ep Eh Hsh Hf Hnow. pose proof (Permutation_length (others_all address Hnd Ha)) as Hlen. simpl in Hlen.
  destruct fuel as [|fuel]; [lia|]. unfold open. unfold io_bind at 1. rewrite (visit_first w address next path href Ha Ep Eh).
  set (w1 := mk_gw _ _ _ _). cbn [follow]. unfold io_bind at 1.
  rewrite (redeem_given 0 w1 address path (chained address href)) by (unfold w1; simpl; by rewrite om_get_set, decide_True).
  set (w2 := mk_gw _ _ _ _). unfold io_bind at 1.
  assert (exists w' visited, follow fuel 2 (chained address href ?? u_page path) (mk_io w2 []) =
      (mk_io w' [], Ok (Some (if bool_decide (others address = []) then path else href), visited)) /\
    map fst visited = others address /\ holds_sessions 2 visited w' /\ gw_share w' = gw_share w2 /\
    forall j, (j < 2)%nat -> om_get (sid j) (gw_sessions w') = om_get (sid j) (gw_sessions w2)) as (w' & visited & E & Ev & Hs & Esh & Hfr).
  { unfold chained. destruct (others address) as [|b rest] eqn:Eo; simpl.
    - destruct fuel as [|fuel]; [simpl in *; lia|]. exists w2, []. split_and!; try done. by intros ? ? ?%elem_of_nil.
    - apply (follow_rest fuel (b :: rest) 2 w2 href (clock 0%nat + CHAIN_TTL_MS)); [done| | | |simpl in *; lia].
      + intros x Hx. rewrite <- Eo in Hx. by apply elem_filter in Hx as [? _].
      + unfold w2, w1. cbn [gw_chains]. by rewrite om_get_set, decide_True.
      + destruct (clock_moves 0), (clock_moves 1). unfold HANDOFF_TTL_MS, CHAIN_TTL_MS in *. lia. }
  exists w', ((address, sid 1%nat) :: visited). rewrite E. split_and!; [done | simpl; rewrite Ev; by apply others_all|].
  assert (forall j s a, om_get s (gw_sessions w') = Some (sessionOf v a (clock j), clock j + SESSION_TTL_MS) ->
    exists j, session s now (mk_io w' []) = (mk_io w' [], Ok (Some (sessionOf v a (clock j))))) as Hok.
  { intros j s a Eg. exists j. pose proof (clock_later 0 j ltac:(lia)). unfold session, on_sessions, share_alive, io_bind, io_op, io_ret, store_peek, live.
    cbn [io_faults io_st]. rewrite Eg. cbn [snd]. rewrite (proj2 (Z.ltb_ge _ _)) by lia. cbn [fst snd fmap option_fmap option_map io_st io_faults gw_share ss_shareSession sessionOf].
    rewrite (proj2 (includes_spec _ _)) by (by rewrite Esh). by destruct w'. }
  intros a s [[= -> ->]|Hx]%elem_of_cons.
  - apply (Hok 1%nat). rewrite Hfr by lia. unfold w2. cbn [gw_sessions]. by rewrite om_get_set, decide_True.
  - destruct (Hs a s Hx) as (j & _ & -> & Eg). by apply (Hok j).
Qed.
End Browser.

(** ** Worked examples *)
Definition ex_url (path base : string) : result (string * string) := Ok (base, (base ++ path)%string).
Definition ex_binding (secret : string) : string :=
  if String.eqb secret "k1" then "AAAAAAAAAABBBBBBBBBBCCCCCCCCCCDDDDDDDDDDEEE" else "ZZZZZZZZZZBBBBBBBBBBCCCCCCCCCCDDDDDDDDDDEEE".
Definition ex_chain : string := "0000000000111111111122222222223333333333abc".
Definition ex_origin (address : string) : string := ("https://" ++ address ++ ".envs.example")%string.
Definition ex_record : EnvironmentRecord :=
  mkEnvironment "agent" "agent" "u1" "shop" "shop-x7k" [mkEndpoint "web" 3000 None; mkEndpoint "api" 4000 None] None 0.
Definition ex_byHost (host : string) : option EnvironmentRecord := if String.eqb host "shop-x7k" then Some ex_record else None.
Definition ex_visitor : Visitor := mk_visitor "u1" (Some "u1@example.com") "share1".
Definition ex_visit : Visit :=
  mk_visit "web-shop-x7k" (Some "/cart") (Some (ex_binding "k1")) None ex_byHost [] [] [] (Some ex_visitor).
Definition ex_steps : list Step :=
  [ mk_step (cl_shareBegins "share1") 0 [];
    mk_step (cl_frontDoor ex_visit "c1" ex_chain) 10 [];
    (* a visit that fails once its chain is kept *)
    mk_step (cl_frontDoor ex_visit "c2" ex_chain) 12 [NoFault; NoFault; NoFault; FailAfter];
    mk_step (cl_redeem "c1" "web-shop-x7k" "k1" "s1") 20 [] ].
Notation ex_run l := (run ex_url ex_binding ex_origin "envs.example" l noSessions).


Definition ex_session : EnvironmentSession := sessionOf ex_visitor "api-shop-x7k" 20.
Definition ex_signedIn : GW := mk_gw [] [("s1"%string, (sessionOf ex_visitor "web-shop-x7k" 20, 20 + SESSION_TTL_MS)); ("s2"%string, (ex_session, 20 + SESSION_TTL_MS));
  ("s3"%string, (sessionOf (mk_visitor "u1" None "share2") "web-shop-x7k" 20, 20 + SESSION_TTL_MS))] [] ["share1"%string; "share2"%string].
Lemma signed_out_everywhere_witness : ("share2" <> "share1")%string.
Proof.
  apply (signed_out_everywhere ex_url ex_binding ex_origin "envs.example" ex_signedIn [] "s2" 30 ex_session (20 + SESSION_TTL_MS)
           (signOut "s2" 30 (mk_io ex_signedIn [])).1 (tail ex_steps) "s3" 40 []
           (session "s3" 40 (mk_io (run ex_url ex_binding ex_origin "envs.example" (tail ex_steps) (io_st (signOut "s2" 30 (mk_io ex_signedIn [])).1)) [])).1
           (sessionOf (mk_visitor "u1" None "share2") "web-shop-x7k" 20)).
  - reflexivity.
  - vm_compute. discriminate.
  - vm_compute. reflexivity.
  - intros x Hx. apply list_elem_of_In in Hx. simpl in Hx. destruct Hx as [<-|[<-|[<-|[]]]]; discriminate.
  - vm_compute. reflexivity.
Defined.

Fixpoint ex_sid (i : nat) : string := match i with O => ""%string | S i => ("s" ++ ex_sid i)%string end.
Lemma one_sign_in_covers_all_witness :
  exists w' visited,
    open ex_url ex_binding ex_origin "envs.example" ex_byHost [] [] [] ex_visitor (fun _ => None) (fun a => if String.eqb a "web-shop-x7k" then "k1" else "k2")%string
      ex_sid ex_sid ex_chain Z.of_nat 5 "web-shop-x7k" "/cart" (mk_io (mk_gw [] [] [] ["share1"%string]) []) =
    (mk_io w' [], Ok (Some "https://web-shop-x7k.envs.example/cart"%string, visited)) /\
    map fst visited ≡ₚ ["web-shop-x7k"; "api-shop-x7k"]%string /\
    forall a s, (a, s) ∈ visited -> exists j, session s 1000 (mk_io w' []) = (mk_io w' [], Ok (Some (sessionOf ex_visitor a (Z.of_nat j)))).
Proof.
  assert (forall a, a ∈ endpointAddresses ex_record -> a = "web-shop-x7k" \/ a = "api-shop-x7k")%string as Hin.
  { intros a Ha. apply list_elem_of_In in Ha. simpl in Ha. destruct Ha as [<-|[<-|[]]]; auto. }
  apply (one_sign_in_covers_all ex_url ex_binding ex_origin "envs.example" ex_byHost [] [] [] ex_visitor (fun _ => None) (fun a => if String.eqb a "web-shop-x7k" then "k1" else "k2")%string
    ex_sid ex_sid ex_chain Z.of_nat ex_record) with (path := "/cart"%string) (href := "https://web-shop-x7k.envs.example/cart"%string) (now := 1000).
  - by eexists.
  - intros a _. by eexists.
  - intros s. unfold ex_binding. by destruct (String.eqb s "k1").
  - reflexivity.
  - intros i. induction i as [|i IH]; intros [|j] E; simpl in E; try discriminate E; [done|]. f_equal. apply IH. by injection E.
  - intros i. unfold HANDOFF_TTL_MS. lia.
  - intros a [->| ->]%Hin; reflexivity.
  - intros a t. unfold decideAccess, sessionOf. cbn [ss_address ss_sub]. by rewrite String.eqb_refl.
  - apply (bool_decide_unpack _). vm_compute. exact I.
  - apply list_elem_of_In. vm_compute. by left.
  - reflexivity.
  - reflexivity.
  - apply list_elem_of_In. by left.
  - vm_compute. lia.
  - unfold SESSION_TTL_MS. lia.
Defined.
